(* ===== verification/_CoqProject ===== *)
-Q . S2P
Prelude.v
Queue.v
Wdog.v
Sched.v
SchedInv.v
SchedSys.v
SchedMerge.v
Semaphore.v
Calendar.v
Heap.v
HeapRep.v
HeapInv.v
HeapOps.v
HeapSys.v
HeapTop.v
HeapInit.v
HeapProps.v
Gc.v
GcRep.v
GcMark.v
GcSweep.v
GcAlloc.v
GcOps.v
GcSpec.v
GcInfo.v
GcProps.v
Map.v
MapInv.v
MapOps.v
Dict.v
ObjDict.v
DictSys.v
DictSpec.v
DictProps.v
ObjSet.v
SetOps.v
SetSys.v
SetSpec.v
SetProps.v
Qstr.v
Qsort.v
QsortMem.v
Env.v
Strto.v
