(* ===== verification/Prelude.v ===== *)
(** A verification of the kernel services and of the Python runtime of a
    MicroPython board computer: NuttX with MicroPython 1.12 for the SAMV71
    (src/nuttx, src/apps), in the configuration src/nuttx/config_samv71_mp
    (one CPU, flat build, no tickless timers, no priority inheritance) and
    src/apps/interpreters/micropython/mpconfigport.h.

    ** The parts and how they interact

    The lists of the kernel are the linked queues of libs/libc/queue.  The
    watchdog timers keep a queue of timers, the scheduler one queue of tasks for
    every task state.  A context switch happens in up_block_task,
    up_unblock_task, up_reprioritize_rtr and up_release_pending of
    arch/arm/src/armv7-m; semaphores count, and block and unblock tasks through
    them.  The clock counts timer ticks and is converted to calendar time.
    malloc is the memory manager mm/mm_heap.  The Python interpreter has one
    block of memory that its garbage collector (py/gc.c) divides into objects;
    py/malloc.c allocates from it and raises MemoryError.  Dictionaries, which
    hold all names of a Python program, and sets are hash tables (py/map.c) that
    are allocated in this way; names are interned strings (py/qstr.c).  Tasks have
    environment variables (sched/environ), and all of them use the C library.

    ** The files

    - Prelude: machine integers, the monad of C routines, total correctness, and
      lemmas on lists and maps.
    - Queue: sq_* and dq_* of libs/libc/queue and include/queue.h, on a store of
      entries with their links; refinement to lists.
    - Wdog: sched/wdog (wd_start, wd_cancel, wd_timer, ...), on the queues;
      refinement to a list of deadlines.
    - Sched, SchedInv, SchedSys, SchedMerge: sched/sched and the context switches.
      Sched has the routines (nxsched_add_readytorun, nxsched_remove_readytorun,
      nxsched_merge_pending, nxsched_set_priority, ..., up_block_task, ...) and the
      abstract scheduler; SchedInv the invariant; SchedSys sequences of operations;
      SchedMerge nxsched_merge_prioritized.
    - Semaphore: sched/semaphore and libs/libc/semaphore on top of the scheduler.
    - Calendar: libs/libc/time (gmtime_r, mktime, clock_utc2calendar, ...) and
      sched/clock (clock_settime, clock_gettime, clock_abstime2ticks, ...).
    - Heap and HeapRep, HeapInv, HeapOps, HeapSys, HeapTop, HeapInit, HeapProps:
      mm/mm_heap.  Heap has the routines on words of memory (mm_malloc, mm_free,
      mm_realloc, mm_memalign, mm_initialize, mm_extend, mm_mallinfo, ...); the
      others add, in this order, what memory holds, the invariant, the effect on
      chunks, the effect on blocks, the remaining calls, setting up, and the
      theorems.
    - Gc and GcRep, GcMark, GcSweep, GcAlloc, GcOps, GcSpec, GcInfo, GcProps:
      py/gc.c, py/malloc.c, py/modgc.c and nx_gccollect.c.  Gc has the routines on
      bytes of memory (gc_init, gc_collect, gc_alloc, gc_free, gc_realloc,
      gc_info, ...); GcRep the allocation table; GcMark and GcSweep marking and
      sweeping; GcAlloc and GcOps allocation, release and resizing; GcSpec the
      objects and references that the interpreter sees; GcProps the theorems.
    - Map, MapInv, MapOps, Dict, ObjDict, DictSys, DictSpec, DictProps: the maps of
      py/map.c and the dictionaries of py/objdict.c.  Map has the routines on one
      table (mp_map_lookup, mp_map_rehash, mp_obj_dict_store, ...) and ObjDict those
      on the dictionaries of a program (dict_copy, dict_update, ...); MapInv the
      invariant of open addressing, which maps and sets share; MapOps lookups, growth
      and constant tables; Dict the refinement of one dictionary to a list of keys and
      values; DictSys, DictSpec and DictProps that of programs.
    - ObjSet, SetOps, SetSys, SetSpec, SetProps: the sets of py/map.c and
      py/objset.c.  ObjSet has the routines (mp_set_lookup, set_union,
      set_binary_op, ...) on all the sets of a program; SetOps lookups and growth;
      SetSys and SetSpec each operation as one on sets; SetProps programs.
    - Qstr: the interned strings of py/qstr.c on bytes of memory, refined to a list of
      strings.
    - Qsort, QsortMem: qsort and bsearch of libs/libc/stdlib on arrays of elements, and
      the exchange of elements on bytes of memory.
    - Env: sched/environ on the bytes of the environment, refined to a list of
      variables.
    - Strto: strtoul, strtol, strtoull, strtoll and itoa of libs/libc/stdlib.

    ** The model

    A C routine is a function from a state to a result and a new state, in the
    monad [M]; undefined behaviour (a null or dangling pointer, a position outside
    of a table, a failed assertion) has no result, and [wp] asks for a result.  So
    every theorem that a routine satisfies its specification includes that it
    returns and does nothing undefined.  Linked structures are stores of nodes at
    addresses; the heap is a map from addresses to 32-bit words and the memory of
    the interpreter one to bytes, with headers, free lists, allocation table, mark
    bits and data at their places.  Integers that can overflow are reduced to
    their width ([u32], [s32], [u8], ...).  Python exceptions are results.

    Loops that are not structural take fuel.  It is computed from the state and
    large enough: the number of nodes in the store for the queues, timers and
    tasks, of words for the chunk and free lists of the heap, of blocks for the
    allocation table, and of slots for the hash tables, where it is twice the
    table because a table grows at most once during a lookup, and of bytes or elements
    for strings and arrays (for qsort their number bounds the recursion, because the
    pivot is in neither part).  Running out of it
    would be undefined, so that the theorems show that it is enough.

    Parameters stand for what the sources do not determine: the places that are
    scanned for references to objects, which memory the hash tables, interned strings
    and environments get, the comparison function of a sort ([Comparator] of Qsort),
    and the hash value and the equality of Python objects, which programs can define
    (the classes [MpObj] and [MpObjLaws] of Map).  Each has an instance with which
    the theorems are applied.

    ** The theorems

    - Scheduler and semaphores: every sequence of calls preserves the invariant
      (each task is in the list of its state, lists are ordered by priority, a
      negative count is the number of tasks that wait) and no legal call is
      undefined; the running task has the highest priority; what blocking,
      unblocking, priority changes, time slices, waiting and posting do exactly.
    - Queues and timers: refinement to lists, and to deadlines over any number of
      ticks.
    - Time: the conversions are inverse to each other and agree with a calendar
      that counts days; delays are the least number of ticks.
    - Memory manager: any legal sequence of calls keeps the contract of malloc -
      new, aligned blocks apart from those in use, contents preserved - with best
      fit, and no memory is lost.
    - Garbage collector: a collection frees exactly what cannot be reached, also
      when the mark stack overflows, where marking again terminates; allocation
      succeeds whenever the reachable objects leave a gap; resizing keeps contents.
    - Dictionaries and sets: any sequence of operations refines finite maps, and
      sets, up to the equality of Python, also when tables are full or hold deleted
      entries, when a set is combined with itself, and, for dictionaries, when
      memory runs out.
    - Interned strings: a string has one number for ever, and equal strings the same.
    - C library and environment: sorting gives an ordered rearrangement with any total
      preorder, and searching finds what is there; what itoa writes, strtol reads;
      the environment is a list of variables, also when memory runs out.
    - Some theorems show what goes wrong: sizes that overflow in malloc and
      gc_realloc, a byte that is read behind the allocation table, a set after a
      MemoryError, a symmetric difference with repeated items, mm_extend, numbers whose
      overflow strtoul does not notice, itoa of the smallest int, and a name with an
      equal sign in getenv.

    ** Not modelled

    Hardware, drivers, interrupts and processor registers; creation and exit of
    tasks, signals, message queues and work queues; file systems, network,
    graphics and applications; the lexer, compiler and virtual machine of Python,
    its other object types and modules, and input and output.  The operations of
    one part run one after the other: on one CPU with interrupts disabled, or under
    the global interpreter lock, they do not interleave; the interleavings of
    tasks are the sequences of scheduler and semaphore calls.  Of the modelled
    parts, these are left out: timed semaphore waits (they combine semaphores and
    timers), wd_recover, time zones and strftime; printing; the statistics of the
    interned strings; the methods [__eq__] and [__hash__] of
    a key that change the table they are called from; and everything that the
    configuration excludes (SMP, tickless timers, sporadic scheduling, priority
    inheritance, several heap regions, finalisers, OrderedDict, frozenset). *)

From stdpp Require Export base list gmap.
From stdpp Require Import options.
From Stdlib Require Export ZArith Lia.

Open Scope Z_scope.

(** * Pointers *)

(** A C pointer to a structure is an address; [NULL] is 0. *)
Abbreviation ptr := Z (only parsing).
Definition NULL : ptr := 0.

(** * Machine integers *)

(** The value of a [w]-bit unsigned, respectively two's complement signed,
    object after [z] has been stored in it. *)
Definition wrapu (w z : Z) : Z := z mod 2 ^ w.
Definition wraps (w z : Z) : Z := (z + 2 ^ (w - 1)) mod 2 ^ w - 2 ^ (w - 1).

Abbreviation u8 := (wrapu 8).
Abbreviation u16 := (wrapu 16).
Abbreviation u32 := (wrapu 32).
Abbreviation s16 := (wraps 16).
Abbreviation s32 := (wraps 32).

Definition INT32_MAX : Z := 2147483647.
Definition INT32_MIN : Z := -2147483648.

Lemma wrapu_small w z : 0 <= z < 2 ^ w -> wrapu w z = z.
Proof. intros. by apply Z.mod_small. Qed.

Lemma wrapu_range w z : 0 <= w -> 0 <= wrapu w z < 2 ^ w.
Proof. intros. apply Z.mod_pos_bound. lia. Qed.

Lemma wraps_small w z : 0 < w -> - 2 ^ (w - 1) <= z < 2 ^ (w - 1) -> wraps w z = z.
Proof.
  intros Hw Hz. unfold wraps. rewrite Z.mod_small; [lia|].
  assert (2 ^ w = 2 * 2 ^ (w - 1)) as ->; [|lia].
  rewrite <- Z.pow_succ_r by lia. f_equal. lia.
Qed.

Lemma s32_small z : INT32_MIN <= z <= INT32_MAX -> s32 z = z.
Proof. intros. apply wraps_small; unfold INT32_MIN, INT32_MAX in *; lia. Qed.

(** Return codes: [OK] and the error numbers of include/errno.h, which are
    returned negated. *)
Definition OK : Z := 0.
Definition EINVAL : Z := 22.

(** * The effect monad *)

(** A C routine that works on a state of type [St]: it either returns a value
    and the new state, or is undefined (it follows a null or dangling pointer,
    or violates an assertion). *)
Definition M (St A : Type) : Type := St -> option (A * St).

Section Monad.
Context {St : Type}.

Definition ret {A} (a : A) : M St A := fun s => Some (a, s).
Definition bind {A B} (c : M St A) (k : A -> M St B) : M St B :=
  fun s => match c s with Some (a, s') => k a s' | None => None end.
Definition undef {A} : M St A := fun _ => None.
Definition gets {A} (f : St -> A) : M St A := fun s => Some (f s, s).
Definition modify (f : St -> St) : M St unit := fun s => Some (tt, f s).
(** An expression that may be undefined in the current state. *)
Definition getso {A} (f : St -> option A) : M St A :=
  fun s => match f s with Some a => Some (a, s) | None => None end.
(** [DEBUGASSERT(b)]. *)
Definition assert_ (b : bool) : M St unit := fun s => if b then Some (tt, s) else None.
Definition when (b : bool) (c : M St unit) : M St unit := if b then c else ret tt.

(** A loop: [body] either continues with a new loop state ([inl]) or leaves
    the loop ([inr]).  Running out of [fuel] is undefined. *)
Fixpoint loop {A B} (fuel : nat) (body : A -> M St (A + B)) (a : A) : M St B :=
  match fuel with
  | O => undef
  | S fuel' =>
      bind (body a) (fun r => match r with
                              | inl a' => loop fuel' body a'
                              | inr b => ret b
                              end)
  end.
End Monad.

Declare Scope c_scope.
Delimit Scope c_scope with c.
Notation "x <- c ;; k" := (bind c (fun x => k))
  (at level 100, c at next level, right associativity) : c_scope.
Notation "c ;; k" := (bind c (fun _ => k))
  (at level 100, right associativity) : c_scope.
(** A call that can raise an exception. *)
Notation "x <-? c ;; k" := (bind c (fun r => match r with inl x => k | inr e => ret (inr e) end))
  (at level 100, c at next level, right associativity) : c_scope.
Open Scope c_scope.

(** Total correctness: [c] run in [s] is defined, terminates, and its result
    and final state satisfy [Q]. *)
Definition wp {St A} (c : M St A) (Q : A -> St -> Prop) (s : St) : Prop :=
  match c s with Some (a, s') => Q a s' | None => False end.

Section Wp.
Context {St : Type}.
Implicit Types s : St.

Lemma wp_ret {A} (a : A) Q s : Q a s -> wp (ret a) Q s.
Proof. done. Qed.

Lemma wp_bind {A B} (c : M St A) (k : A -> M St B) Q s :
  wp c (fun a s' => wp (k a) Q s') s -> wp (bind c k) Q s.
Proof. unfold wp, bind. by destruct (c s) as [[a s']|]. Qed.

Lemma wp_mono {A} (c : M St A) (P Q : A -> St -> Prop) s :
  wp c P s -> (forall a s', P a s' -> Q a s') -> wp c Q s.
Proof. unfold wp. destruct (c s) as [[a s']|]; naive_solver. Qed.

Lemma wp_gets {A} (f : St -> A) Q s : Q (f s) s -> wp (gets f) Q s.
Proof. done. Qed.

Lemma wp_getso {A} (f : St -> option A) a Q s : f s = Some a -> Q a s -> wp (getso f) Q s.
Proof. unfold wp, getso. by intros ->. Qed.

Lemma wp_modify (f : St -> St) (Q : unit -> St -> Prop) s : Q tt (f s) -> wp (modify f) Q s.
Proof. done. Qed.

Lemma wp_assert b (Q : unit -> St -> Prop) s : b = true -> Q tt s -> wp (assert_ b) Q s.
Proof. unfold wp, assert_. by intros ->. Qed.

Lemma wp_run {A} (c : M St A) Q s : wp c Q s <-> exists a s', c s = Some (a, s') /\ Q a s'.
Proof. unfold wp. destruct (c s) as [[a s']|]; naive_solver. Qed.

Lemma wp_loop_step {A B} fuel (body : A -> M St (A + B)) a Q s :
  wp (body a) (fun r s' => match r with
                           | inl a' => wp (loop fuel body a') Q s'
                           | inr b => Q b s'
                           end) s ->
  wp (loop (S fuel) body a) Q s.
Proof.
  intros H. apply wp_bind. eapply wp_mono; [exact H|].
  by intros [] s' ?.
Qed.
End Wp.

(** ** Several objects of one type *)

(** A routine that works on object number [i]. *)
Definition on {St A} (i : nat) (c : M St A) : M (list St) A :=
  fun h =>
    match h !! i with
    | Some s => match c s with Some (a, s') => Some (a, <[i := s']> h) | None => None end
    | None => None
    end.

Section On.
Context {St : Type}.
Implicit Types (h : list St) (s : St).

Lemma wp_on {A} h i s (c : M St A) (Q : A -> list St -> Prop) : h !! i = Some s ->
  wp c (fun r s' => Q r (<[i := s']> h)) s -> wp (on i c) Q h.
Proof. intros Hi Hc. unfold wp, on. rewrite Hi. unfold wp in Hc. by destruct (c s) as [[a s']|]. Qed.

(** Reading a field. *)
Lemma wp_on_gets {A} h i s (f : St -> A) (Q : A -> list St -> Prop) : h !! i = Some s -> Q (f s) h -> wp (on i (gets f)) Q h.
Proof. intros Hi HQ. apply (wp_on h i s); [done|]. apply wp_gets. by rewrite list_insert_id. Qed.

(** A new object is the last one. *)
Lemma lookup_last (l : list St) y : (l ++ [y]) !! length l = Some y.
Proof. by rewrite list_lookup_middle. Qed.

Lemma insert_last (l : list St) y z : <[length l := z]> (l ++ [y]) = l ++ [z].
Proof. by rewrite insert_app_r_alt, Nat.sub_diag by lia. Qed.
End On.

(** Symbolic execution of the sequencing constructs. *)
Ltac wp_seq :=
  repeat first [ apply wp_bind | apply wp_ret | apply wp_gets | apply wp_modify ].

Create HintDb nx.
Create Rewrite HintDb nxr.

(** * Lists *)

(** First and last element, with a default. *)
Definition hd_or {A} (d : A) (l : list A) : A :=
  match l with [] => d | a :: _ => a end.
Fixpoint last_or {A} (d : A) (l : list A) : A :=
  match l with [] => d | a :: l' => last_or a l' end.

Section ListEnds.
Context {A : Type}.
Implicit Types (d a : A) (l : list A).

Lemma hd_or_app d l1 l2 : hd_or d (l1 ++ l2) = hd_or (hd_or d l2) l1.
Proof. by destruct l1. Qed.

Lemma last_or_app d l1 l2 : last_or d (l1 ++ l2) = last_or (last_or d l1) l2.
Proof. revert d. induction l1; simpl; auto. Qed.

Lemma hd_or_elem d l : l <> [] -> hd_or d l ∈ l.
Proof. destruct l; [done|]. simpl. set_solver. Qed.

Lemma last_or_elem d l : l <> [] -> last_or d l ∈ l.
Proof.
  revert d. induction l as [|a [|b l] IH]; intros d Hl; [done|simpl; set_solver|].
  change (last_or a (b :: l) ∈ a :: b :: l). set_solver.
Qed.
End ListEnds.

Lemma NoDup_mid {A} (l1 : list A) a l2 :
  NoDup (l1 ++ a :: l2) <-> a ∉ l1 /\ a ∉ l2 /\ NoDup (l1 ++ l2).
Proof.
  rewrite <- Permutation_middle, NoDup_cons, not_elem_of_app. tauto.
Qed.

(** Distinct keys of a map are no more than its size. *)
Lemma NoDup_length_size {A} (l : list Z) (g : gmap Z A) :
  NoDup l -> (forall p, p ∈ l -> is_Some (g !! p)) -> (length l <= size g)%nat.
Proof.
  intros Hnd Hin. rewrite <- size_dom, <- (size_list_to_set (C := gset Z) l Hnd).
  apply subseteq_size. intros p Hp. apply elem_of_dom, Hin. set_solver.
Qed.

Section Filter.
Context {A : Type} (P : A -> Prop) `{!forall x, Decision (P x)}.

Lemma filter_all (l : list A) : Forall P l -> filter P l = l.
Proof. induction 1; [done|]. rewrite filter_cons_True by done. by f_equal. Qed.

Lemma filter_none (l : list A) : Forall (fun x => ~ P x) l -> filter P l = [].
Proof. induction 1; [done|]. by rewrite filter_cons_False. Qed.
End Filter.

Lemma filter_iff_in {A} (P Q : A -> Prop) `{!forall x, Decision (P x)} `{!forall x, Decision (Q x)} (l : list A) :
  (forall x, x ∈ l -> P x <-> Q x) -> filter P l = filter Q l.
Proof.
  induction l as [|a l IH]; intros Hiff; [done|].
  rewrite !filter_cons, IH by (intros; apply Hiff; by right). pose proof (Hiff a (list_elem_of_here _ _)).
  repeat case_decide; naive_solver.
Qed.
