(* ===== verification/Queue.v ===== *)
(** Queue: the singly and doubly linked queues of libs/libc/queue, at the
    level of links in a store, and their refinement to mathematical lists. *)

From stdpp Require Import options.
From S2P Require Import Prelude.

(** * The store *)

(** [sq_queue_t] and [dq_queue_t]. *)
Record queue_t := mkqueue { qhead : ptr; qtail : ptr }.

(** The part of memory that a family of queues lives in: the structures that
    are linked, of type [N], and the queue headers. *)
Record qmem (N : Type) := mkqmem { nodes : gmap ptr N; queues : gmap ptr queue_t }.
Arguments mkqmem {N} _ _.
Arguments nodes {N} _.
Arguments queues {N} _.

(** A structure that begins like [struct sq_entry_s]. *)
Class SEntry (N : Type) := {
  flink : N -> ptr;
  set_flink : ptr -> N -> N;
  flink_set_flink p n : flink (set_flink p n) = p;
  set_flink_set_flink p q n : set_flink p (set_flink q n) = set_flink p n;
  set_flink_flink n : set_flink (flink n) n = n;
}.

(** A structure that begins like [struct dq_entry_s]. *)
Class DEntry (N : Type) `{SEntry N} := {
  blink : N -> ptr;
  set_blink : ptr -> N -> N;
  blink_set_blink p n : blink (set_blink p n) = p;
  set_blink_set_blink p q n : set_blink p (set_blink q n) = set_blink p n;
  set_blink_blink n : set_blink (blink n) n = n;
  flink_set_blink p n : flink (set_blink p n) = flink n;
  blink_set_flink p n : blink (set_flink p n) = blink n;
  set_flink_set_blink p q n : set_flink p (set_blink q n) = set_blink q (set_flink p n);
}.

Section Access.
Context {N : Type}.

(** [p->...], read and write. *)
Definition node (p : ptr) : M (qmem N) N := getso (fun m => nodes m !! p).
Definition upd_node (p : ptr) (f : N -> N) : M (qmem N) unit :=
  n <- node p ;; modify (fun m => mkqmem (<[p := f n]> (nodes m)) (queues m)).

(** [q->head] and [q->tail], read and write. *)
Definition queue_ (q : ptr) : M (qmem N) queue_t := getso (fun m => queues m !! q).
Definition head (q : ptr) : M (qmem N) ptr := x <- queue_ q ;; ret (qhead x).
Definition tail (q : ptr) : M (qmem N) ptr := x <- queue_ q ;; ret (qtail x).
Definition set_queue (q : ptr) (f : queue_t -> queue_t) : M (qmem N) unit :=
  x <- queue_ q ;; modify (fun m => mkqmem (nodes m) (<[q := f x]> (queues m))).
Definition set_head (q p : ptr) : M (qmem N) unit :=
  set_queue q (fun x => mkqueue p (qtail x)).
Definition set_tail (q p : ptr) : M (qmem N) unit :=
  set_queue q (fun x => mkqueue (qhead x) p).

Definition is_null (p : ptr) : bool := p =? NULL.

(** [sq_init]/[dq_init]. *)
Definition q_init (q : ptr) : M (qmem N) unit := set_head q NULL ;; set_tail q NULL.

(** [sq_empty]/[dq_empty] and [sq_peek]/[dq_peek]. *)
Definition q_empty (q : ptr) : M (qmem N) bool := h <- head q ;; ret (is_null h).
Definition q_peek (q : ptr) : M (qmem N) ptr := head q.

(** [sq_move(q1,q2)]/[dq_move(q1,q2)]. *)
Definition q_move (q1 q2 : ptr) : M (qmem N) unit :=
  h <- head q1 ;; set_head q2 h ;;
  t <- tail q1 ;; set_tail q2 t ;;
  set_head q1 NULL ;; set_tail q1 NULL.
End Access.

(** Loops over a queue visit each linked structure at most once. *)
Definition qfuel {N} (m : qmem N) : nat := S (size (nodes m)).
Definition with_fuel {N A} (c : nat -> M (qmem N) A) : M (qmem N) A :=
  fun m => c (qfuel m) m.

Section Links.
Context {N : Type} `{SEntry N}.

Definition get_flink (p : ptr) : M (qmem N) ptr := n <- node p ;; ret (flink n).
Definition put_flink (p q : ptr) : M (qmem N) unit := upd_node p (set_flink q).

(** One iteration of [for (node = head, count = 0; node != NULL;
    node = node->flink, count++)]. *)
Definition count_step : ptr * Z -> M (qmem N) ((ptr * Z) + Z) := fun '(node, count) =>
  if is_null node then ret (inr count)
  else f <- get_flink node ;; ret (inl (f, u32 (count + 1))).
End Links.

(** * Singly linked queues *)
Module SQ.
Section SQ.
Context {N : Type} `{SEntry N}.

Definition sq_addfirst (node queue : ptr) : M (qmem N) unit :=
h <- head queue ;; put_flink node h ;;
h <- head queue ;;
when (is_null h) (set_tail queue node) ;;
set_head queue node.

Definition sq_addlast (node queue : ptr) : M (qmem N) unit :=
put_flink node NULL ;;
h <- head queue ;;
if is_null h then
set_head queue node ;; set_tail queue node
else
t <- tail queue ;; put_flink t node ;; set_tail queue node.

Definition sq_addafter (prev node queue : ptr) : M (qmem N) unit :=
h <- head queue ;; t <- tail queue ;;
if is_null h || (prev =? t) then sq_addlast node queue
else
f <- get_flink prev ;; put_flink node f ;; put_flink prev node.

Definition sq_remfirst (queue : ptr) : M (qmem N) ptr :=
r <- head queue ;;
when (negb (is_null r))
(f <- get_flink r ;; set_head queue f ;;
 h <- head queue ;;
 when (is_null h) (set_tail queue NULL) ;;
 put_flink r NULL) ;;
ret r.

Definition sq_remafter (node queue : ptr) : M (qmem N) ptr :=
r <- get_flink node ;;
h <- head queue ;;
when (negb (is_null h) && negb (is_null r))
(t <- tail queue ;;
 (if t =? r then
    set_tail queue node ;; put_flink node NULL
  else
    f <- get_flink r ;; put_flink node f) ;;
 put_flink r NULL) ;;
ret r.

(** [for (prev = queue->head; prev && prev->flink != node; prev = prev->flink)]. *)
Definition find_prev (node start : ptr) : M (qmem N) ptr :=
with_fuel (fun fuel => loop fuel (fun prev =>
if is_null prev then ret (inr prev)
else f <- get_flink prev ;;
     ret (if f =? node then inr prev else inl f)) start).

Definition sq_rem (node queue : ptr) : M (qmem N) unit :=
h <- head queue ;;
when (negb (is_null h) && negb (is_null node))
(if node =? h then
   f <- get_flink node ;; set_head queue f ;;
   t <- tail queue ;; when (node =? t) (set_tail queue NULL)
 else
   prev <- find_prev node h ;;
   when (negb (is_null prev)) (sq_remafter prev queue ;; ret tt)).

Definition sq_remlast (queue : ptr) : M (qmem N) ptr :=
r <- tail queue ;;
when (negb (is_null r))
(h <- head queue ;;
 (if h =? r then
    set_head queue NULL ;; set_tail queue NULL
  else
    prev <- find_prev r h ;;
    when (negb (is_null prev)) (put_flink prev NULL ;; set_tail queue prev)) ;;
 put_flink r NULL) ;;
ret r.

Definition sq_cat (queue1 queue2 : ptr) : M (qmem N) unit :=
e2 <- q_empty queue2 ;;
if e2 : bool then q_move queue1 queue2
else
e1 <- q_empty queue1 ;;
when (negb e1)
  (t2 <- tail queue2 ;; h1 <- head queue1 ;; put_flink t2 h1 ;;
   t1 <- tail queue1 ;; set_tail queue2 t1 ;;
   q_init queue1).

Definition sq_count (queue : ptr) : M (qmem N) Z :=
h <- head queue ;;
with_fuel (fun fuel => loop fuel count_step (h, 0)).
End SQ.
End SQ.

(** * Doubly linked queues *)
Module DQ.
Section DQ.
Context {N : Type} `{DEntry N}.

Definition get_blink (p : ptr) : M (qmem N) ptr := n <- node p ;; ret (blink n).
Definition put_blink (p q : ptr) : M (qmem N) unit := upd_node p (set_blink q).

Definition dq_addfirst (node queue : ptr) : M (qmem N) unit :=
put_blink node NULL ;;
h <- head queue ;; put_flink node h ;;
if is_null h then
set_head queue node ;; set_tail queue node
else
put_blink h node ;; set_head queue node.

Definition dq_addlast (node queue : ptr) : M (qmem N) unit :=
put_flink node NULL ;;
t <- tail queue ;; put_blink node t ;;
h <- head queue ;;
if is_null h then
set_head queue node ;; set_tail queue node
else
put_flink t node ;; set_tail queue node.

Definition dq_addafter (prev node queue : ptr) : M (qmem N) unit :=
h <- head queue ;; t <- tail queue ;;
if is_null h || (prev =? t) then dq_addlast node queue
else
next <- get_flink prev ;;
put_blink node prev ;; put_flink node next ;;
put_blink next node ;; put_flink prev node.

Definition dq_addbefore (next node queue : ptr) : M (qmem N) unit :=
h <- head queue ;;
if is_null h || (next =? h) then dq_addfirst node queue
else
prev <- get_blink next ;;
put_flink node next ;; put_blink node prev ;;
put_flink prev node ;; put_blink next node.

Definition dq_rem (node queue : ptr) : M (qmem N) unit :=
prev <- get_blink node ;;
next <- get_flink node ;;
(if is_null prev then set_head queue next else put_flink prev next) ;;
(if is_null next then set_tail queue prev else put_blink next prev) ;;
put_flink node NULL ;; put_blink node NULL.

Definition dq_remfirst (queue : ptr) : M (qmem N) ptr :=
r <- head queue ;;
when (negb (is_null r))
(next <- get_flink r ;;
 (if is_null next then
    set_head queue NULL ;; set_tail queue NULL
  else
    set_head queue next ;; put_blink next NULL) ;;
 put_flink r NULL ;; put_blink r NULL) ;;
ret r.

Definition dq_remlast (queue : ptr) : M (qmem N) ptr :=
r <- tail queue ;;
when (negb (is_null r))
(prev <- get_blink r ;;
 (if is_null prev then
    set_head queue NULL ;; set_tail queue NULL
  else
    set_tail queue prev ;; put_flink prev NULL) ;;
 put_flink r NULL ;; put_blink r NULL) ;;
ret r.

Definition dq_cat (queue1 queue2 : ptr) : M (qmem N) unit :=
e2 <- q_empty queue2 ;;
if e2 : bool then q_move queue1 queue2
else
e1 <- q_empty queue1 ;;
when (negb e1)
  (t2 <- tail queue2 ;; h1 <- head queue1 ;; put_flink t2 h1 ;;
   put_blink h1 t2 ;;
   t1 <- tail queue1 ;; set_tail queue2 t1 ;;
   q_init queue1).

Definition dq_count (queue : ptr) : M (qmem N) Z :=
h <- head queue ;;
with_fuel (fun fuel => loop fuel count_step (h, 0)).
End DQ.
End DQ.

(** * Reasoning about the store *)

Lemma NoDup_split_unique {A} (l1 l2 k1 k2 : list A) x :
  NoDup (l1 ++ x :: l2) -> l1 ++ x :: l2 = k1 ++ x :: k2 -> l1 = k1 /\ l2 = k2.
Proof.
  revert k1. induction l1 as [|a l1 IH]; intros [|b k1] Hnd Heq; simpl in *; simplify_eq;
    auto; try (apply NoDup_cons in Hnd as [? ?]; set_solver).
Qed.

Section Rules.
Context {N : Type}.
Implicit Types (m : qmem N) (p q : ptr).

Lemma wp_node p n Q m : nodes m !! p = Some n -> Q n m -> wp (node p) Q m.
Proof. intros ? ?. by eapply wp_getso. Qed.

Lemma wp_upd_node p f n (Q : unit -> qmem N -> Prop) m :
  nodes m !! p = Some n -> Q tt (mkqmem (<[p := f n]> (nodes m)) (queues m)) ->
  wp (upd_node p f) Q m.
Proof. intros ? ?. apply wp_bind. by eapply wp_node. Qed.

Lemma wp_queue q x Q m : queues m !! q = Some x -> Q x m -> wp (queue_ q) Q m.
Proof. intros ? ?. by eapply wp_getso. Qed.

Lemma wp_head q x Q m : queues m !! q = Some x -> Q (qhead x) m -> wp (head q) Q m.
Proof. intros ? ?. apply wp_bind. by eapply wp_queue. Qed.

Lemma wp_tail q x Q m : queues m !! q = Some x -> Q (qtail x) m -> wp (tail q) Q m.
Proof. intros ? ?. apply wp_bind. by eapply wp_queue. Qed.

Lemma wp_set_queue q f x (Q : unit -> qmem N -> Prop) m :
  queues m !! q = Some x -> Q tt (mkqmem (nodes m) (<[q := f x]> (queues m))) ->
  wp (set_queue q f) Q m.
Proof. intros ? ?. apply wp_bind. by eapply wp_queue. Qed.

Lemma wp_with_fuel {A} (c : nat -> M (qmem N) A) Q m :
  wp (c (qfuel m)) Q m -> wp (with_fuel c) Q m.
Proof. done. Qed.

Lemma is_null_ne p : p <> NULL -> is_null p = false.
Proof. apply Z.eqb_neq. Qed.

(** [m'] agrees with [m] outside the headers [Q] and the structures [T], and
    everywhere on the part of a structure that [strip] keeps. *)
Definition frame (strip : N -> N) (Q T : list ptr) (m m' : qmem N) : Prop :=
  (forall p, p ∉ T -> nodes m' !! p = nodes m !! p) /\
  (forall q, q ∉ Q -> queues m' !! q = queues m !! q) /\
  (forall p, strip <$> nodes m' !! p = strip <$> nodes m !! p).

Lemma strip_insert {B} (strip : N -> B) (g : gmap ptr N) p n n' r :
  g !! p = Some n -> strip n' = strip n ->
  strip <$> (<[p := n']> g) !! r = strip <$> g !! r.
Proof.
  intros Hp Hn. destruct (decide (p = r)) as [<-|].
  - rewrite lookup_insert_eq, Hp. simpl. by rewrite Hn.
  - by rewrite lookup_insert_ne.
Qed.

Lemma strip_size {B} (strip : N -> B) (g g' : gmap ptr N) :
  (forall p, strip <$> g' !! p = strip <$> g !! p) -> size g' = size g.
Proof.
  intros Hg. rewrite <- !size_dom. f_equal. apply leibniz_equiv. intros p.
  rewrite !elem_of_dom, <- !not_eq_None_Some. specialize (Hg p).
  by destruct (g' !! p), (g !! p).
Qed.

Lemma frame_refl strip Q T m : frame strip Q T m m.
Proof. by repeat split. Qed.

Lemma frame_trans strip Q1 Q2 T1 T2 Q T m1 m2 m3 :
  frame strip Q1 T1 m1 m2 -> frame strip Q2 T2 m2 m3 ->
  Q1 ⊆ Q -> Q2 ⊆ Q -> T1 ⊆ T -> T2 ⊆ T -> frame strip Q T m1 m3.
Proof.
  intros (A1 & B1 & C1) (A2 & B2 & C2) ????. split_and!.
  - intros p ?. rewrite A2, A1; set_solver.
  - intros q ?. rewrite B2, B1; set_solver.
  - intros p. by rewrite C2, C1.
Qed.

Lemma frame_weaken strip Q1 T1 Q T m m' :
  frame strip Q1 T1 m m' -> Q1 ⊆ Q -> T1 ⊆ T -> frame strip Q T m m'.
Proof. intros H ??. eapply frame_trans; eauto using frame_refl. Qed.

(** The set of structures is unchanged. *)
Lemma frame_dom strip Q T m m' p :
  frame strip Q T m m' -> (is_Some (nodes m' !! p) <-> is_Some (nodes m !! p)).
Proof.
  intros (_ & _ & C). specialize (C p).
  destruct (nodes m' !! p), (nodes m !! p); simpl in C; naive_solver.
Qed.
End Rules.

#[export] Hint Rewrite @flink_set_flink @set_flink_set_flink @blink_set_blink
  @set_blink_set_blink @flink_set_blink @blink_set_flink @set_flink_set_blink : nxr.

(** Turn [NoDup] and membership facts about explicit lists into atoms. *)
Ltac nodup_simpl :=
  repeat (rewrite <- ?app_assoc in *; cbn [app] in *; match goal with
  | H : NoDup (_ :: _) |- _ => apply NoDup_cons in H as [? ?]
  | H : NoDup (_ ++ _ :: _) |- _ => apply NoDup_mid in H as (? & ? & ?)
  | H : _ ∉ _ :: _ |- _ => apply not_elem_of_cons in H as [? ?]
  | H : _ ∉ _ ++ _ |- _ => apply not_elem_of_app in H as [? ?]
  end).
Ltac nodup_solve :=
  rewrite <- ?app_assoc in *; cbn [app] in *;
  repeat first [ rewrite NoDup_mid | rewrite NoDup_cons | rewrite not_elem_of_app
               | rewrite not_elem_of_cons ];
  rewrite ?app_nil_r in *;
  split_and?; first [ assumption | congruence | apply not_elem_of_nil
                    | apply NoDup_nil_2 | by eapply NoDup_app ].

Ltac solve_ne := first [ assumption | congruence | set_solver ].

Ltac look :=
  cbn [nodes queues];
  repeat first [ rewrite lookup_insert_eq | rewrite lookup_insert_ne by solve_ne ];
  first [ eassumption | reflexivity ].

Ltac null_simpl :=
  change (is_null NULL) with true;
  repeat rewrite is_null_ne by solve_ne; cbn [negb andb orb qhead qtail].

(** One symbolic execution step over the store. *)
Ltac qstep :=
  lazymatch goal with
  | |- wp (bind _ _) _ _ => apply wp_bind
  | |- wp (ret _) _ _ => apply wp_ret
  | |- wp (when true _) _ _ => unfold when
  | |- wp (when false _) _ _ => unfold when
  | |- wp (node _) _ _ => eapply wp_node; [solve [look]|]
  | |- wp (upd_node _ _) _ _ => eapply wp_upd_node; [solve [look]|]
  | |- wp (head _) _ _ => eapply wp_head; [solve [look]|]
  | |- wp (tail _) _ _ => eapply wp_tail; [solve [look]|]
  | |- wp (set_head _ _) _ _ => unfold set_head
  | |- wp (set_tail _ _) _ _ => unfold set_tail
  | |- wp (set_queue _ _) _ _ => eapply wp_set_queue; [solve [look]|]
  | |- wp (if is_null _ then _ else _) _ _ => progress null_simpl
  | |- wp (if negb (is_null _) then _ else _) _ _ => progress null_simpl
  | |- wp (when (is_null _) _) _ _ => progress null_simpl
  | |- wp (when (negb (is_null _)) _) _ _ => progress null_simpl
  end.
Ltac link_simpl :=
  autorewrite with nxr;
  repeat match goal with
  | H : flink ?n = _ |- context [flink ?n] => rewrite H
  | H : blink ?n = _ |- context [blink ?n] => rewrite H
  end.
Ltac qrun := repeat (qstep; cbn [nodes queues qhead qtail]; link_simpl).

(** * Chains of forward links *)

Section Chain.
Context {N : Type} `{SEntry N}.
Implicit Types (m : qmem N) (g : gmap ptr N) (l : list ptr).

(** The structures [l] are chained in this order through their [flink];
    [next] follows the last one. *)
Fixpoint lseg g l (next : ptr) : Prop :=
  match l with
  | [] => True
  | a :: l' => exists n, g !! a = Some n /\ flink n = hd_or next l' /\ lseg g l' next
  end.

Lemma lseg_app g l1 l2 next :
  lseg g (l1 ++ l2) next <-> lseg g l1 (hd_or next l2) /\ lseg g l2 next.
Proof.
  induction l1 as [|a l1 IH]; simpl; [tauto|].
  setoid_rewrite IH. rewrite hd_or_app. naive_solver.
Qed.

Lemma lseg_insert g l next p n :
  p ∉ l -> lseg (<[p := n]> g) l next <-> lseg g l next.
Proof.
  induction l as [|a l IH]; intros Hp; simpl; [done|].
  apply not_elem_of_cons in Hp as [? ?].
  setoid_rewrite IH; [|done]. by setoid_rewrite lookup_insert_ne; [|congruence].
Qed.

Lemma lseg_ext g g' l next :
  (forall p, p ∈ l -> g' !! p = g !! p) -> lseg g l next -> lseg g' l next.
Proof.
  induction l as [|a l IH]; intros Hg; simpl; [done|].
  intros (n & ? & ? & ?). exists n. rewrite Hg by set_solver.
  split_and!; auto. apply IH; [|done]. set_solver.
Qed.

Lemma lseg_elem g l next p : lseg g l next -> p ∈ l -> is_Some (g !! p).
Proof.
  induction l as [|a l IH]; simpl; [set_solver|].
  intros (n & ? & _ & ?) [->|?]%elem_of_cons; eauto.
Qed.

Lemma lseg_length m l next :
  NoDup l -> lseg (nodes m) l next -> (length l < qfuel m)%nat.
Proof.
  intros Hnd Hl. unfold qfuel.
  pose proof (NoDup_length_size l (nodes m) Hnd (fun p => lseg_elem _ _ _ p Hl)). lia.
Qed.

Lemma wp_count_loop m fuel l k :
  nodes m !! NULL = None -> (length l < fuel)%nat -> lseg (nodes m) l NULL ->
  wp (loop fuel count_step (hd_or NULL l, u32 (Z.of_nat k)))
     (fun c m' => c = u32 (Z.of_nat (k + length l)) /\ m' = m) m.
Proof.
  intros HN. revert fuel k.
  induction l as [|a l IH]; intros fuel k Hfuel Hd;
    (destruct fuel as [|fuel]; [simpl in Hfuel; lia|]); apply wp_loop_step; unfold count_step.
  - null_simpl. apply wp_ret. split; [do 2 f_equal; simpl; lia|done].
  - destruct Hd as (n & Hn & Hf & Hd). cbn [hd_or].
    rewrite is_null_ne by congruence. unfold get_flink. qrun.
    replace (u32 (u32 (Z.of_nat k) + 1)) with (u32 (Z.of_nat (S k))).
    2: { unfold wrapu. rewrite Zplus_mod_idemp_l. f_equal. lia. }
    simpl length. replace (k + S (length l))%nat with (S k + length l)%nat by lia.
    apply IH; [simpl in Hfuel; lia|done].
Qed.
End Chain.

(** The part of a singly linked structure that is not a link. *)
Definition sstrip {N} `{SEntry N} (n : N) : N := set_flink NULL n.

(** * Doubly linked queues represent lists *)

Section DQRep.
Context {N : Type} `{DEntry N}.
Implicit Types (m : qmem N) (g : gmap ptr N) (l : list ptr).

(** The part of a structure that is not a link. *)
Definition dstrip (n : N) : N := set_blink NULL (set_flink NULL n).

(** The structures [l] are linked in this order in [g]; [prev] precedes
    the first one and [next] follows the last one. *)
Fixpoint dseg g (prev : ptr) l (next : ptr) : Prop :=
  match l with
  | [] => True
  | a :: l' => exists n, g !! a = Some n /\ blink n = prev /\
                         flink n = hd_or next l' /\ dseg g a l' next
  end.

(** Queue [q] holds exactly the structures [l], in this order. *)
Definition dq_rep m (q : ptr) l : Prop :=
  nodes m !! NULL = None /\ NoDup l /\
  queues m !! q = Some (mkqueue (hd_or NULL l) (last_or NULL l)) /\
  dseg (nodes m) NULL l NULL.

Lemma dseg_app g prev l1 l2 next :
  dseg g prev (l1 ++ l2) next <->
  dseg g prev l1 (hd_or next l2) /\ dseg g (last_or prev l1) l2 next.
Proof.
  revert prev. induction l1 as [|a l1 IH]; intros prev; simpl; [tauto|].
  setoid_rewrite IH. rewrite hd_or_app. naive_solver.
Qed.

Lemma dseg_insert g prev l next p n :
  p ∉ l -> dseg (<[p := n]> g) prev l next <-> dseg g prev l next.
Proof.
  revert prev. induction l as [|a l IH]; intros prev Hp; simpl; [done|].
  apply not_elem_of_cons in Hp as [? ?].
  setoid_rewrite IH; [|done]. by setoid_rewrite lookup_insert_ne; [|congruence].
Qed.

Lemma dseg_ext g g' prev l next :
  (forall p, p ∈ l -> g' !! p = g !! p) -> dseg g prev l next -> dseg g' prev l next.
Proof.
  revert prev. induction l as [|a l IH]; intros prev Hg; simpl; [done|].
  intros (n & ? & ? & ? & ?). exists n. rewrite Hg by set_solver.
  split_and!; auto. apply IH; [|done]. set_solver.
Qed.

Lemma dseg_elem g prev l next p : dseg g prev l next -> p ∈ l -> is_Some (g !! p).
Proof.
  revert prev. induction l as [|a l IH]; intros prev; simpl; [set_solver|].
  intros (n & ? & _ & _ & ?) [->|?]%elem_of_cons; eauto.
Qed.

Lemma dseg_lseg g prev l next : dseg g prev l next -> lseg g l next.
Proof.
  revert prev. induction l as [|a l IH]; intros prev; simpl; [done|]. naive_solver.
Qed.

Lemma dq_rep_elem m q l p : dq_rep m q l -> p ∈ l -> is_Some (nodes m !! p).
Proof. intros (_ & _ & _ & ?). by eapply dseg_elem. Qed.

Lemma dq_rep_ne m q l p : dq_rep m q l -> p ∈ l -> p <> NULL.
Proof. intros Hr Hp ->. destruct (dq_rep_elem _ _ _ _ Hr Hp). destruct Hr. congruence. Qed.

(** A queue is untouched by what happens outside it. *)
Lemma dq_rep_frame strip Q T m m' q l :
  frame strip Q T m m' -> q ∉ Q -> (forall p, p ∈ l -> p ∉ T) ->
  dq_rep m q l -> dq_rep m' q l.
Proof.
  intros (A & B & C) Hq Hl (HN & ? & ? & ?). split_and!; auto.
  - specialize (C NULL). rewrite HN in C. by destruct (nodes m' !! NULL).
  - by rewrite B.
  - eapply dseg_ext; [|done]. auto.
Qed.

(** A queue represents only one list. *)
Lemma dseg_inj g prev l l' next :
  g !! next = None -> dseg g prev l next -> dseg g prev l' next ->
  hd_or next l = hd_or next l' -> l = l'.
Proof.
  intros Hn. revert prev l'. induction l as [|a l IH]; intros prev [|b l'] H1 H2; simpl; auto.
  - simpl in H2. naive_solver.
  - simpl in H1. naive_solver.
  - intros <-. simpl in *. destruct H1 as (n & Ha & _ & Hf & H1), H2 as (n' & Ha' & _ & Hf' & H2).
    simplify_eq. f_equal. eapply IH; eauto. congruence.
Qed.
End DQRep.

(** Put [dq_rep] hypotheses over a split list in atomic form. *)
Ltac dseg_simpl :=
  repeat match goal with
  | H : dseg _ _ (_ ++ _) _ |- _ => apply dseg_app in H as [? ?]
  | H : dseg _ _ (_ :: _) _ |- _ =>
      let n := fresh "n" in destruct H as (n & ? & ? & ? & ?)
  | H : dseg _ _ [] _ |- _ => clear H
  end; cbn [hd_or last_or] in *;
  repeat match goal with
  | H : context [hd_or _ (_ ++ _)] |- _ => rewrite hd_or_app in H
  | H : context [last_or _ (_ ++ _)] |- _ => rewrite last_or_app in H
  end; cbn [hd_or last_or] in *.

Ltac ends_simpl :=
  repeat first [ progress cbn [hd_or last_or app] | rewrite hd_or_app | rewrite last_or_app ].

(** Close a goal [dq_rep m' q l /\ frame ...] on an explicit store. *)
Ltac dseg_solve :=
  repeat first
  [ rewrite dseg_app
  | progress cbn [hd_or last_or]
  | rewrite hd_or_app | rewrite last_or_app
  | rewrite dseg_insert by nodup_solve
  | match goal with
    | |- dseg _ _ [] _ => exact I
    | |- dseg _ _ (_ :: _) _ => eexists; split; [solve [look]|link_simpl]
    | |- _ /\ _ => split
    end ];
  try first [ assumption | reflexivity | congruence ].
Ltac frame_solve :=
  split_and!; cbn [nodes queues];
  [ intros ? ?; nodup_simpl; rewrite ?lookup_insert_ne by congruence; reflexivity
  | intros ? ?; nodup_simpl; rewrite ?lookup_insert_ne by congruence; reflexivity
  | intros ?; repeat (erewrite strip_insert;
      [|solve [look]|unfold dstrip, sstrip; autorewrite with nxr; reflexivity]); reflexivity ].
Ltac dq_solve :=
  nodup_simpl; split;
  [ split_and!; cbn [nodes queues];
    [ rewrite !lookup_insert_ne by congruence; assumption
    | nodup_solve
    | ends_simpl; look
    | dseg_solve ]
  | frame_solve ].

Section DQSpec.
Context {N : Type} `{DEntry N}.
Implicit Types (m : qmem N) (l : list ptr) (q x : ptr).
Import DQ.

(** [dq_rem] takes its argument out of the queue, wherever it is. *)
Lemma wp_dq_rem m q l1 x l2 :
  dq_rep m q (l1 ++ x :: l2) ->
  wp (dq_rem x q) (fun _ m' => dq_rep m' q (l1 ++ l2) /\
                               frame dstrip [q] (l1 ++ x :: l2) m m') m.
Proof.
  intros (HN & Hnd & Hq & Hd).
  unfold dq_rem, get_blink, get_flink, put_blink, put_flink.
  destruct l1 as [|a l1 _] using rev_ind; destruct l2 as [|b l2]; dseg_simpl; nodup_simpl; qrun; dq_solve.
Qed.

Lemma wp_dq_addfirst m q l x n :
  dq_rep m q l -> nodes m !! x = Some n -> x ∉ l ->
  wp (dq_addfirst x q) (fun _ m' => dq_rep m' q (x :: l) /\ frame dstrip [q] (x :: l) m m') m.
Proof.
  intros (HN & Hnd & Hq & Hd) Hx Hxl. unfold dq_addfirst, put_blink, put_flink.
  destruct l as [|b l]; dseg_simpl; nodup_simpl; qrun; dq_solve.
Qed.

Lemma wp_dq_addlast m q l x n :
  dq_rep m q l -> nodes m !! x = Some n -> x ∉ l ->
  wp (dq_addlast x q) (fun _ m' => dq_rep m' q (l ++ [x]) /\ frame dstrip [q] (x :: l) m m') m.
Proof.
  intros (HN & Hnd & Hq & Hd) Hx Hxl. unfold dq_addlast, put_blink, put_flink.
  destruct l as [|b l _] using rev_ind; dseg_simpl; nodup_simpl; [qrun; dq_solve|].
  destruct l as [|a l]; dseg_simpl; nodup_simpl; qrun; dq_solve.
Qed.

(** [dq_addbefore(next, node)] puts [node] just before [next]. *)
Lemma wp_dq_addbefore m q l1 y l2 x n :
  dq_rep m q (l1 ++ y :: l2) -> nodes m !! x = Some n -> x ∉ l1 ++ y :: l2 ->
  wp (dq_addbefore y x q)
     (fun _ m' => dq_rep m' q (l1 ++ x :: y :: l2) /\ frame dstrip [q] (x :: l1 ++ y :: l2) m m') m.
Proof.
  intros Hrep Hx Hxl. unfold dq_addbefore, get_blink, put_blink, put_flink.
  destruct l1 as [|a l1 _] using rev_ind.
  - pose proof Hrep as (HN & Hnd & Hq & Hd). simpl in Hq. qrun.
    rewrite Z.eqb_refl, orb_true_r. by apply wp_dq_addfirst with n.
  - destruct Hrep as (HN & Hnd & Hq & Hd). dseg_simpl; nodup_simpl.
    assert (hd_or a l1 <> NULL) by (destruct l1; dseg_simpl; congruence).
    assert ((y =? hd_or a l1) = false) as Hy
      by (apply Z.eqb_neq; destruct l1; simpl; nodup_simpl; congruence).
    qrun. null_simpl. rewrite Hy. destruct l1; dseg_simpl; nodup_simpl; qrun; dq_solve.
Qed.

(** [dq_addafter(prev, node)] puts [node] just after [prev]. *)
Lemma wp_dq_addafter m q l1 y l2 x n :
  dq_rep m q (l1 ++ y :: l2) -> nodes m !! x = Some n -> x ∉ l1 ++ y :: l2 ->
  wp (dq_addafter y x q)
     (fun _ m' => dq_rep m' q (l1 ++ y :: x :: l2) /\ frame dstrip [q] (x :: l1 ++ y :: l2) m m') m.
Proof.
  intros Hrep Hx Hxl. unfold dq_addafter, get_flink, put_blink, put_flink.
  pose proof Hrep as (HN & Hnd & Hq & Hd). destruct l2 as [|b l2].
  - qrun. rewrite last_or_app. cbn [last_or]. rewrite Z.eqb_refl, orb_true_r.
    replace (l1 ++ [y; x]) with ((l1 ++ [y]) ++ [x]) by by rewrite <- app_assoc.
    by apply wp_dq_addlast with n.
  - clear Hrep. dseg_simpl; nodup_simpl.
    assert (hd_or y l1 <> NULL) by (destruct l1; dseg_simpl; congruence).
    assert ((y =? last_or b l2) = false) as Hy.
    { apply Z.eqb_neq. intros Heq. pose proof (last_or_elem y (b :: l2)). simpl in *.
      rewrite <- Heq in *. set_solver. }
    qrun. null_simpl. rewrite Hy. qrun. dq_solve.
Qed.

(** [dq_remfirst] returns the first structure and removes it; it returns
    NULL on an empty queue and leaves it empty. *)
Lemma wp_dq_remfirst m q l :
  dq_rep m q l ->
  wp (dq_remfirst q) (fun r m' => r = hd_or NULL l /\ dq_rep m' q (List.tl l) /\
                                  frame dstrip [q] l m m') m.
Proof.
  intros (HN & Hnd & Hq & Hd). unfold dq_remfirst, get_flink, put_blink, put_flink.
  destruct l as [|a [|b l]]; dseg_simpl; nodup_simpl; qrun;
    (split; [done|]); cbn [List.tl].
  - split; [done|apply frame_refl].
  - dq_solve.
  - dq_solve.
Qed.

Lemma wp_dq_remlast m q l :
  dq_rep m q l ->
  wp (dq_remlast q) (fun r m' => r = last_or NULL l /\ dq_rep m' q (removelast l) /\
                                 frame dstrip [q] l m m') m.
Proof.
  intros (HN & Hnd & Hq & Hd). unfold dq_remlast, get_blink, put_blink, put_flink.
  destruct l as [|a l _] using rev_ind; [|rewrite removelast_last, last_or_app; simpl].
  { dseg_simpl. qrun. split_and!; [done..|apply frame_refl]. }
  destruct l as [|b l _] using rev_ind; dseg_simpl; nodup_simpl; qrun; (split; [done|]); dq_solve.
Qed.

(** [dq_move(q1,q2)]: whatever [q2] held is dropped. *)
Lemma wp_dq_move m q1 q2 l old :
  dq_rep m q1 l -> queues m !! q2 = Some old -> q1 <> q2 ->
  wp (q_move q1 q2) (fun _ m' => dq_rep m' q2 l /\ dq_rep m' q1 [] /\
                                 frame dstrip [q1; q2] [] m m') m.
Proof.
  intros (HN & Hnd & Hq & Hd) Hx Hne. unfold q_move. qrun.
  split; [|split]; split_and!; cbn [nodes queues];
    try solve [done | look | apply NoDup_nil_2].
  intros. rewrite !lookup_insert_ne by set_solver. done.
Qed.

(** [dq_cat(queue1, queue2)] appends [queue1] to [queue2] and empties it. *)
Lemma wp_dq_cat m q1 q2 l1 l2 :
  dq_rep m q1 l1 -> dq_rep m q2 l2 -> q1 <> q2 -> NoDup (l2 ++ l1) ->
  wp (dq_cat q1 q2) (fun _ m' => dq_rep m' q2 (l2 ++ l1) /\ dq_rep m' q1 [] /\
                                 frame dstrip [q1; q2] (l2 ++ l1) m m') m.
Proof.
  intros H1 H2 Hne Hnd. unfold dq_cat, q_empty, put_flink, put_blink, q_init.
  destruct l2 as [|b l2 _] using rev_ind.
  { pose proof H2 as (_ & _ & Hq2 & _). qrun. eapply wp_mono; [by eapply wp_dq_move|].
    intros [] m' (? & ? & ?). split_and!; auto. eapply frame_weaken; eauto; set_solver. }
  pose proof (dq_rep_ne _ _ _ b H2 ltac:(set_solver)) as Hb.
  assert (hd_or NULL (l2 ++ [b]) <> NULL) as Hh.
  { destruct l2; simpl; [done|]. apply (dq_rep_ne _ _ _ _ H2). set_solver. }
  pose proof H1 as (HN & _ & Hq1 & Hd1). destruct H2 as (_ & _ & Hq2 & Hd2).
  destruct l1 as [|a l1]; qrun.
  { rewrite app_nil_r in *. split; [by split_and!|]. split; [done|apply frame_refl]. }
  clear H1 Hh. destruct l1 as [|c l1]; destruct l2 as [|d l2];
    dseg_simpl; nodup_simpl; ends_simpl; qrun.
  all: split; [|split; [split_and!; cbn [nodes queues]; try solve
    [done | look | apply NoDup_nil_2 | rewrite !lookup_insert_ne by congruence; assumption]|]].
  all: try frame_solve.
  all: split_and!; cbn [nodes queues];
    [ rewrite !lookup_insert_ne by congruence; assumption | nodup_solve
    | ends_simpl; look | dseg_solve ].
Qed.

(** [dq_count] is the length of the queue (as a [size_t]). *)
Lemma wp_dq_count m q l :
  dq_rep m q l -> wp (dq_count q) (fun c m' => c = u32 (Z.of_nat (length l)) /\ m' = m) m.
Proof.
  intros Hr. pose proof Hr as (HN & Hnd & Hq & Hd%dseg_lseg).
  unfold dq_count. qrun. apply (wp_count_loop m (qfuel m) l 0); [done| |done].
  by eapply lseg_length.
Qed.
End DQSpec.

(** * Singly linked queues represent lists *)

Section SQRep.
Context {N : Type} `{SEntry N}.
Implicit Types (m : qmem N) (l : list ptr).

(** Queue [q] holds exactly the structures [l], in this order. *)
Definition sq_rep m (q : ptr) l : Prop :=
  nodes m !! NULL = None /\ NoDup l /\
  queues m !! q = Some (mkqueue (hd_or NULL l) (last_or NULL l)) /\
  lseg (nodes m) l NULL.

Lemma sq_rep_elem m q l p : sq_rep m q l -> p ∈ l -> is_Some (nodes m !! p).
Proof. intros (_ & _ & _ & ?). by eapply lseg_elem. Qed.

Lemma sq_rep_ne m q l p : sq_rep m q l -> p ∈ l -> p <> NULL.
Proof. intros Hr Hp ->. destruct (sq_rep_elem _ _ _ _ Hr Hp). destruct Hr. congruence. Qed.

Lemma sq_rep_frame strip Q T m m' q l :
  frame strip Q T m m' -> q ∉ Q -> (forall p, p ∈ l -> p ∉ T) ->
  sq_rep m q l -> sq_rep m' q l.
Proof.
  intros (A & B & C) Hq Hl (HN & ? & ? & ?). split_and!; auto.
  - specialize (C NULL). rewrite HN in C. by destruct (nodes m' !! NULL).
  - by rewrite B.
  - eapply lseg_ext; [|done]. auto.
Qed.
End SQRep.

Ltac lseg_simpl :=
  repeat match goal with
  | H : lseg _ (_ ++ _) _ |- _ => apply lseg_app in H as [? ?]
  | H : lseg _ (_ :: _) _ |- _ =>
      let n := fresh "n" in destruct H as (n & ? & ? & ?)
  | H : lseg _ [] _ |- _ => clear H
  end; cbn [hd_or last_or] in *;
  repeat match goal with
  | H : context [hd_or _ (_ ++ _)] |- _ => rewrite hd_or_app in H
  | H : context [last_or _ (_ ++ _)] |- _ => rewrite last_or_app in H
  end; cbn [hd_or last_or] in *.

Ltac lseg_solve :=
  repeat first
  [ rewrite lseg_app
  | progress cbn [hd_or last_or]
  | rewrite hd_or_app | rewrite last_or_app
  | rewrite lseg_insert by nodup_solve
  | match goal with
    | |- lseg _ [] _ => exact I
    | |- lseg _ (_ :: _) _ => eexists; split; [solve [look]|link_simpl]
    | |- _ /\ _ => split
    end ];
  try first [ assumption | reflexivity | congruence ].
Ltac sq_solve :=
  nodup_simpl; split;
  [ split_and!; cbn [nodes queues];
    [ rewrite ?lookup_insert_ne by congruence; assumption
    | nodup_solve
    | ends_simpl; look
    | lseg_solve ]
  | frame_solve ].

Section SQSpec.
Context {N : Type} `{SEntry N}.
Implicit Types (m : qmem N) (l : list ptr) (q x : ptr).
Import SQ.

Lemma wp_sq_addfirst m q l x n :
  sq_rep m q l -> nodes m !! x = Some n -> x ∉ l ->
  wp (sq_addfirst x q) (fun _ m' => sq_rep m' q (x :: l) /\ frame sstrip [q] (x :: l) m m') m.
Proof.
  intros (HN & Hnd & Hq & Hd) Hx Hxl. unfold sq_addfirst, put_flink.
  destruct l as [|b l]; lseg_simpl; nodup_simpl; qrun; sq_solve.
Qed.

Lemma wp_sq_addlast m q l x n :
  sq_rep m q l -> nodes m !! x = Some n -> x ∉ l ->
  wp (sq_addlast x q) (fun _ m' => sq_rep m' q (l ++ [x]) /\ frame sstrip [q] (x :: l) m m') m.
Proof.
  intros (HN & Hnd & Hq & Hd) Hx Hxl. unfold sq_addlast, put_flink.
  destruct l as [|b l _] using rev_ind; lseg_simpl; nodup_simpl; [qrun; sq_solve|].
  destruct l as [|a l]; lseg_simpl; nodup_simpl; qrun; sq_solve.
Qed.

Lemma wp_sq_addafter m q l1 y l2 x n :
  sq_rep m q (l1 ++ y :: l2) -> nodes m !! x = Some n -> x ∉ l1 ++ y :: l2 ->
  wp (sq_addafter y x q)
     (fun _ m' => sq_rep m' q (l1 ++ y :: x :: l2) /\ frame sstrip [q] (x :: l1 ++ y :: l2) m m') m.
Proof.
  intros Hrep Hx Hxl. unfold sq_addafter, get_flink, put_flink.
  pose proof Hrep as (HN & Hnd & Hq & Hd). destruct l2 as [|b l2].
  - qrun. rewrite last_or_app. cbn [last_or]. rewrite Z.eqb_refl, orb_true_r.
    replace (l1 ++ [y; x]) with ((l1 ++ [y]) ++ [x]) by by rewrite <- app_assoc.
    by apply wp_sq_addlast with n.
  - clear Hrep. lseg_simpl; nodup_simpl.
    assert (hd_or y l1 <> NULL) by (destruct l1; lseg_simpl; congruence).
    assert ((y =? last_or b l2) = false) as Hy.
    { apply Z.eqb_neq. intros Heq. pose proof (last_or_elem y (b :: l2)). simpl in *.
      rewrite <- Heq in *. set_solver. }
    qrun. null_simpl. rewrite Hy. qrun. sq_solve.
Qed.

Lemma wp_sq_remfirst m q l :
  sq_rep m q l ->
  wp (sq_remfirst q) (fun r m' => r = hd_or NULL l /\ sq_rep m' q (List.tl l) /\
                                  frame sstrip [q] l m m') m.
Proof.
  intros (HN & Hnd & Hq & Hd). unfold sq_remfirst, get_flink, put_flink.
  destruct l as [|a [|b l]]; lseg_simpl; nodup_simpl; qrun;
    (split; [done|]); cbn [List.tl].
  - split; [done|apply frame_refl].
  - sq_solve.
  - sq_solve.
Qed.

(** [sq_remafter(y)] removes and returns the structure after [y]. *)
Lemma wp_sq_remafter m q l1 y l2 :
  sq_rep m q (l1 ++ y :: l2) ->
  wp (sq_remafter y q)
     (fun r m' => r = hd_or NULL l2 /\ sq_rep m' q (l1 ++ y :: List.tl l2) /\
                  frame sstrip [q] (y :: l2) m m') m.
Proof.
  intros (HN & Hnd & Hq & Hd). unfold sq_remafter, get_flink, put_flink.
  destruct l2 as [|b [|c l2]]; lseg_simpl; nodup_simpl;
    assert (hd_or y l1 <> NULL) by (destruct l1; lseg_simpl; congruence); cbn [List.tl].
  - qrun. null_simpl. qrun. split_and!; [done| |apply frame_refl].
    split_and!; [done|nodup_solve|ends_simpl; look|lseg_solve].
  - qrun. null_simpl. qrun. rewrite Z.eqb_refl. qrun. split; [done|]. sq_solve.
  - assert ((last_or c l2 =? b) = false) as Hc.
    { apply Z.eqb_neq. intros Heq. pose proof (last_or_elem b (c :: l2)). simpl in *.
      rewrite Heq in *. set_solver. }
    qrun. null_simpl. qrun. rewrite Hc. qrun. split; [done|]. sq_solve.
Qed.

(** The search for the predecessor of [x]: it stops at the structure before
    [x], or at the end of the chain when [x] is not found. *)
Lemma wp_find_prev m l x :
  nodes m !! NULL = None -> NoDup l -> lseg (nodes m) l NULL -> x <> NULL ->
  wp (find_prev x (hd_or NULL l))
     (fun r m' => m' = m /\ ((r = NULL /\ x ∉ List.tl l) \/
                            exists l1 l2, l = l1 ++ r :: x :: l2)) m.
Proof.
  intros HN Hnd Hl Hx. pose proof (lseg_length m l NULL Hnd Hl) as Hfuel.
  unfold find_prev, with_fuel, wp at 1.
  match goal with |- context [loop _ ?b _] => set (body := b) end.
  change (wp (loop (qfuel m) body (hd_or NULL l))
            (fun r m' => m' = m /\ ((r = NULL /\ x ∉ List.tl l) \/
                            exists l1 l2, l = l1 ++ r :: x :: l2)) m).
  revert Hfuel. generalize (qfuel m) as fuel. clear Hnd.
  induction l as [|a l IH]; intros [|fuel] Hfuel; try (simpl in Hfuel; lia);
    apply wp_loop_step; unfold body at 1; cbn [hd_or].
  - null_simpl. apply wp_ret. split; [done|left; split; [done|set_solver]].
  - destruct Hl as (n & Hn & Hf & Hl). rewrite is_null_ne by congruence.
    unfold get_flink. qrun. destruct (Z.eqb_spec (hd_or NULL l) x) as [Heq|Hne].
    + split; [done|right]. destruct l as [|b l]; [done|]. simpl in Heq. subst b.
      by exists [], l.
    + eapply wp_mono; [apply IH; [done|simpl in Hfuel; lia]|].
      intros r m' [-> [[-> Ht]|(l1 & l2 & ->)]]; split; auto.
      * left. split; [done|]. destruct l; simpl in *; set_solver.
      * right. by exists (a :: l1), l2.
Qed.

(** [sq_rem] removes a member, at any position. *)
Lemma wp_sq_rem m q l1 x l2 :
  sq_rep m q (l1 ++ x :: l2) ->
  wp (sq_rem x q) (fun _ m' => sq_rep m' q (l1 ++ l2) /\
                               frame sstrip [q] (l1 ++ x :: l2) m m') m.
Proof.
  intros Hr. pose proof (sq_rep_ne _ _ _ x Hr ltac:(set_solver)) as Hx.
  assert (hd_or NULL (l1 ++ x :: l2) <> NULL) as Hh.
  { apply (sq_rep_ne _ _ _ _ Hr), hd_or_elem. by destruct l1. }
  pose proof Hr as (HN & Hnd & Hq & Hl). unfold sq_rem. qrun. null_simpl. qrun.
  destruct l1 as [|a l1].
  - simpl. rewrite Z.eqb_refl. clear Hh Hr. unfold get_flink.
    destruct l2 as [|b l2]; lseg_simpl; nodup_simpl; qrun; [rewrite Z.eqb_refl; qrun; sq_solve|].
    destruct (Z.eqb_spec x (last_or b l2)) as [Heq|_].
    { pose proof (last_or_elem x (b :: l2)). simpl in *. rewrite <- Heq in *. set_solver. }
    qrun. sq_solve.
  - cbn [app hd_or] in *. destruct (Z.eqb_spec x a) as [->|Hxa]; [nodup_simpl; congruence|].
    qrun. eapply wp_mono; [by apply (wp_find_prev m (a :: l1 ++ x :: l2))|].
    intros r m' [-> [[-> Ht]|(k1 & k2 & Heq)]]; [simpl in Ht; set_solver|].
    assert (r <> NULL) as Hrn.
    { apply (sq_rep_ne _ _ _ _ Hr). rewrite Heq. set_solver. }
    null_simpl. unfold when. qrun. rewrite Heq in *.
    eapply wp_mono; [by apply wp_sq_remafter|]. intros ? m' (_ & Hm' & Hf). qrun.
    assert (a :: l1 ++ l2 = k1 ++ r :: k2) as ->.
    { clear -Heq Hnd. change (a :: l1 ++ l2) with ((a :: l1) ++ l2).
      change (a :: l1 ++ x :: l2) with ((a :: l1) ++ x :: l2) in Heq.
      replace (k1 ++ r :: x :: k2) with ((k1 ++ [r]) ++ x :: k2) in * by by rewrite <- app_assoc.
      destruct (NoDup_split_unique _ _ _ _ _ Hnd (eq_sym Heq)) as [<- <-]. by rewrite <- app_assoc. }
    split; [done|]. eapply frame_weaken; [done|set_solver|set_solver].
Qed.

(** ... and leaves a queue that does not hold its argument as it is. *)
Lemma wp_sq_rem_notin m q l x :
  sq_rep m q l -> x ∉ l -> wp (sq_rem x q) (fun _ m' => m' = m) m.
Proof.
  intros Hr Hx. pose proof Hr as (HN & Hnd & Hq & Hl). unfold sq_rem. qrun.
  destruct l as [|a l]; [by null_simpl|]. cbn [hd_or].
  destruct (decide (x = NULL)) as [->|Hn]; [null_simpl; by rewrite ?andb_false_r|].
  pose proof (sq_rep_ne _ _ _ a Hr ltac:(set_solver)). null_simpl. qrun.
  destruct (Z.eqb_spec x a) as [->|_]; [set_solver|]. qrun.
  eapply wp_mono; [by apply (wp_find_prev m (a :: l))|].
  intros r m' [-> [[-> _]|(k1 & k2 & Heq)]]; [by null_simpl|].
  rewrite Heq in Hx. set_solver.
Qed.

Lemma wp_sq_remlast m q l :
  sq_rep m q l ->
  wp (sq_remlast q) (fun r m' => r = last_or NULL l /\ sq_rep m' q (removelast l) /\
                                 frame sstrip [q] l m m') m.
Proof.
  intros Hr. pose proof Hr as (HN & Hnd & Hq & Hl). unfold sq_remlast.
  destruct l as [|x l _] using rev_ind; [|rewrite removelast_last, last_or_app in *; simpl in *].
  { qrun. split_and!; [done|done|apply frame_refl]. }
  pose proof (sq_rep_ne _ _ _ x Hr ltac:(set_solver)) as Hx. qrun.
  destruct l as [|a l].
  - simpl. rewrite Z.eqb_refl. unfold put_flink. clear Hr. lseg_simpl. qrun.
    split; [done|]. sq_solve.
  - cbn [app hd_or] in *. destruct (Z.eqb_spec a x) as [->|Hax]; [nodup_simpl; congruence|].
    qrun. eapply wp_mono; [by apply (wp_find_prev m (a :: l ++ [x]))|].
    intros r m' [-> [[-> Ht]|(k1 & k2 & Heq)]]; [simpl in Ht; set_solver|].
    assert (r <> NULL) as Hrn by (apply (sq_rep_ne _ _ _ _ Hr); rewrite Heq; set_solver).
    assert (k2 = [] /\ a :: l = k1 ++ [r]) as [-> Hk].
    { change (a :: l ++ [x]) with ((a :: l) ++ [x]) in Heq.
      replace (k1 ++ r :: x :: k2) with ((k1 ++ [r]) ++ x :: k2) in * by by rewrite <- app_assoc.
      by destruct (NoDup_split_unique (a :: l) _ _ _ _ Hnd Heq) as [<- <-]. }
    clear Hr Hax. change (a :: l ++ [x]) with ((a :: l) ++ [x]) in *.
    replace (Some (mkqueue a x)) with (Some (mkqueue (hd_or NULL (a :: l)) x)) in Hq by done.
    rewrite Hk in *. unfold put_flink. lseg_simpl; nodup_simpl. qrun. split; [done|]. sq_solve.
Qed.

Lemma wp_sq_move m q1 q2 l old :
  sq_rep m q1 l -> queues m !! q2 = Some old -> q1 <> q2 ->
  wp (q_move q1 q2) (fun _ m' => sq_rep m' q2 l /\ sq_rep m' q1 [] /\
                                 frame sstrip [q1; q2] [] m m') m.
Proof.
  intros (HN & Hnd & Hq & Hd) Hx Hne. unfold q_move. qrun.
  split; [|split]; split_and!; cbn [nodes queues];
    try solve [done | look | apply NoDup_nil_2].
  intros. rewrite !lookup_insert_ne by set_solver. done.
Qed.

Lemma wp_sq_cat m q1 q2 l1 l2 :
  sq_rep m q1 l1 -> sq_rep m q2 l2 -> q1 <> q2 -> NoDup (l2 ++ l1) ->
  wp (sq_cat q1 q2) (fun _ m' => sq_rep m' q2 (l2 ++ l1) /\ sq_rep m' q1 [] /\
                                 frame sstrip [q1; q2] (l2 ++ l1) m m') m.
Proof.
  intros H1 H2 Hne Hnd. unfold sq_cat, q_empty, put_flink, q_init.
  destruct l2 as [|b l2 _] using rev_ind.
  { pose proof H2 as (_ & _ & Hq2 & _). qrun. eapply wp_mono; [by eapply wp_sq_move|].
    intros [] m' (? & ? & ?). split_and!; auto. eapply frame_weaken; eauto; set_solver. }
  pose proof (sq_rep_ne _ _ _ b H2 ltac:(set_solver)) as Hb.
  assert (hd_or NULL (l2 ++ [b]) <> NULL) as Hh.
  { apply (sq_rep_ne _ _ _ _ H2), hd_or_elem. by destruct l2. }
  pose proof H1 as (HN & _ & Hq1 & Hd1). destruct H2 as (_ & _ & Hq2 & Hd2).
  destruct l1 as [|a l1]; qrun.
  { rewrite app_nil_r in *. split; [by split_and!|]. split; [done|apply frame_refl]. }
  clear H1 Hh. destruct l2 as [|d l2];
    lseg_simpl; nodup_simpl; ends_simpl; qrun.
  all: split; [|split; [split_and!; cbn [nodes queues]; try solve
    [done | look | apply NoDup_nil_2 | rewrite !lookup_insert_ne by congruence; assumption]|]].
  all: try frame_solve.
  all: split_and!; cbn [nodes queues];
    [ rewrite !lookup_insert_ne by congruence; assumption | nodup_solve
    | ends_simpl; look | lseg_solve ].
Qed.

Lemma wp_sq_count m q l :
  sq_rep m q l -> wp (sq_count q) (fun c m' => c = u32 (Z.of_nat (length l)) /\ m' = m) m.
Proof.
  intros (HN & Hnd & Hq & Hd). unfold sq_count. qrun.
  apply (wp_count_loop m (qfuel m) l 0); [done| |done]. by eapply lseg_length.
Qed.
End SQSpec.

(** * Simulation: sequences of queue operations *)

(** Insertion next to, and removal of, a member of a list. *)
Fixpoint list_before (y x : ptr) (l : list ptr) : list ptr :=
  match l with
  | [] => []
  | a :: l' => if a =? y then x :: a :: l' else a :: list_before y x l'
  end.
Fixpoint list_after (y x : ptr) (l : list ptr) : list ptr :=
  match l with
  | [] => []
  | a :: l' => if a =? y then a :: x :: l' else a :: list_after y x l'
  end.
Fixpoint list_rem (y : ptr) (l : list ptr) : list ptr :=
  match l with
  | [] => []
  | a :: l' => if a =? y then l' else a :: list_rem y l'
  end.

(** The member after [y]. *)
Fixpoint list_next (y : ptr) (l : list ptr) : ptr :=
  match l with
  | [] => NULL
  | a :: l' => if a =? y then hd_or NULL l' else list_next y l'
  end.

Section ListOps.
Implicit Types (l : list ptr) (x y : ptr).

Lemma list_before_mid y x l1 l2 :
  y ∉ l1 -> list_before y x (l1 ++ y :: l2) = l1 ++ x :: y :: l2.
Proof.
  induction l1 as [|a l1 IH]; simpl; [by rewrite Z.eqb_refl|].
  intros [? ?]%not_elem_of_cons. rewrite (proj2 (Z.eqb_neq a y)) by done. by rewrite IH.
Qed.

Lemma list_after_mid y x l1 l2 :
  y ∉ l1 -> list_after y x (l1 ++ y :: l2) = l1 ++ y :: x :: l2.
Proof.
  induction l1 as [|a l1 IH]; simpl; [by rewrite Z.eqb_refl|].
  intros [? ?]%not_elem_of_cons. rewrite (proj2 (Z.eqb_neq a y)) by done. by rewrite IH.
Qed.

Lemma list_rem_mid y l1 l2 : y ∉ l1 -> list_rem y (l1 ++ y :: l2) = l1 ++ l2.
Proof.
  induction l1 as [|a l1 IH]; simpl; [by rewrite Z.eqb_refl|].
  intros [? ?]%not_elem_of_cons. rewrite (proj2 (Z.eqb_neq a y)) by done. by rewrite IH.
Qed.

Lemma list_next_mid y l1 l2 : y ∉ l1 -> list_next y (l1 ++ y :: l2) = hd_or NULL l2.
Proof.
  induction l1 as [|a l1 IH]; simpl; [by rewrite Z.eqb_refl|].
  intros [? ?]%not_elem_of_cons. rewrite (proj2 (Z.eqb_neq a y)) by done. by rewrite IH.
Qed.

Lemma list_rem_notin y l : y ∉ l -> list_rem y l = l.
Proof.
  induction l as [|a l IH]; simpl; [done|].
  intros [? ?]%not_elem_of_cons. rewrite (proj2 (Z.eqb_neq a y)) by done. by rewrite IH.
Qed.

Lemma elem_of_split_first x l : x ∈ l -> exists l1 l2, l = l1 ++ x :: l2 /\ x ∉ l1.
Proof.
  induction l as [|a l IH]; [set_solver|]. intros Hx. destruct (decide (x = a)) as [->|Hne].
  - exists [], l. set_solver.
  - destruct IH as (l1 & l2 & -> & ?); [set_solver|]. exists (a :: l1), l2. set_solver.
Qed.
End ListOps.

(** [struct sq_entry_s] and [struct dq_entry_s]. *)
Record sq_entry_t := mksqe { sqe_flink : ptr }.
Record dq_entry_t := mkdqe { dqe_flink : ptr; dqe_blink : ptr }.

#[export] Program Instance sq_entry_inst : SEntry sq_entry_t :=
  {| flink := sqe_flink; set_flink p _ := mksqe p |}.
Solve All Obligations with (intros; by try destruct n).
#[export] Program Instance dq_entry_s_inst : SEntry dq_entry_t :=
  {| flink := dqe_flink; set_flink p n := mkdqe p (dqe_blink n) |}.
Solve All Obligations with (intros; by try destruct n).
#[export] Program Instance dq_entry_inst : DEntry dq_entry_t :=
  {| blink := dqe_blink; set_blink p n := mkdqe (dqe_flink n) p |}.
Solve All Obligations with (intros; by try destruct n).

(** The calls a client makes on one queue. *)
Inductive q_op :=
| AddFirst (x : ptr)
| AddLast (x : ptr)
| AddAfter (y x : ptr)
| AddBefore (y x : ptr)
| RemFirst
| RemLast
| RemAfter (y : ptr)
| Rem (x : ptr)
| Count.

(** The structure that an operation links into the queue. *)
Definition op_new (o : q_op) : list ptr :=
  match o with
  | AddFirst x | AddLast x | AddAfter _ x | AddBefore _ x => [x]
  | _ => []
  end.

(** What each call means for the list of members: its result (0 when the C
    function returns nothing) and the new list.  [None]: the call breaks the
    caller's obligations (linking a member again, or naming a non-member). *)
Definition q_spec (o : q_op) (l : list ptr) : option (Z * list ptr) :=
  match o with
  | AddFirst x => if decide (x ∈ l) then None else Some (0, x :: l)
  | AddLast x => if decide (x ∈ l) then None else Some (0, l ++ [x])
  | AddAfter y x =>
      if decide (x ∈ l \/ y ∉ l) then None else Some (0, list_after y x l)
  | AddBefore y x =>
      if decide (x ∈ l \/ y ∉ l) then None else Some (0, list_before y x l)
  | RemFirst => Some (hd_or NULL l, List.tl l)
  | RemLast => Some (last_or NULL l, removelast l)
  | RemAfter y =>
      if decide (y ∈ l) then Some (list_next y l, list_rem (list_next y l) l) else None
  | Rem x => if decide (x ∈ l) then Some (0, list_rem x l) else None
  | Count => Some (u32 (Z.of_nat (length l)), l)
  end.

(** A sequence of calls, and the list of their results. *)
Fixpoint q_run_spec (ops : list q_op) (l : list ptr) : option (list Z * list ptr) :=
  match ops with
  | [] => Some ([], l)
  | o :: ops' =>
      match q_spec o l with
      | Some (r, l') =>
          match q_run_spec ops' l' with
          | Some (rs, l'') => Some (r :: rs, l'')
          | None => None
          end
      | None => None
      end
  end.

Fixpoint q_run {N} (exec : q_op -> M (qmem N) Z) (ops : list q_op) : M (qmem N) (list Z) :=
  match ops with
  | [] => ret []
  | o :: ops' => r <- exec o ;; rs <- q_run exec ops' ;; ret (r :: rs)
  end.

Section Exec.
Context {N : Type}.

Definition void (c : M (qmem N) unit) : M (qmem N) Z := c ;; ret 0.

Definition dq_exec `{DEntry N} (q : ptr) (o : q_op) : M (qmem N) Z :=
  match o with
  | AddFirst x => void (DQ.dq_addfirst x q)
  | AddLast x => void (DQ.dq_addlast x q)
  | AddAfter y x => void (DQ.dq_addafter y x q)
  | AddBefore y x => void (DQ.dq_addbefore y x q)
  | RemFirst => DQ.dq_remfirst q
  | RemLast => DQ.dq_remlast q
  | RemAfter _ => undef
  | Rem x => void (DQ.dq_rem x q)
  | Count => DQ.dq_count q
  end.

Definition sq_exec `{SEntry N} (q : ptr) (o : q_op) : M (qmem N) Z :=
  match o with
  | AddFirst x => void (SQ.sq_addfirst x q)
  | AddLast x => void (SQ.sq_addlast x q)
  | AddAfter y x => void (SQ.sq_addafter y x q)
  | AddBefore _ _ => undef
  | RemFirst => SQ.sq_remfirst q
  | RemLast => SQ.sq_remlast q
  | RemAfter y => SQ.sq_remafter y q
  | Rem x => void (SQ.sq_rem x q)
  | Count => SQ.sq_count q
  end.

(** The operations that each kind of queue has. *)
Definition dq_has (o : q_op) : bool := match o with RemAfter _ => false | _ => true end.
Definition sq_has (o : q_op) : bool := match o with AddBefore _ _ => false | _ => true end.
End Exec.

Section Simulation.
Context {N : Type}.
Implicit Types (m : qmem N) (l : list ptr).

Lemma wp_void (c : M (qmem N) unit) (Q : qmem N -> Prop) m :
  wp c (fun _ => Q) m -> wp (void c) (fun r m' => r = 0 /\ Q m') m.
Proof. intros Hc. apply wp_bind. eapply wp_mono; [exact Hc|]. intros a m' ?. by apply wp_ret. Qed.

Lemma dq_exec_sim `{DEntry N} m q l o r l' :
  dq_rep m q l -> dq_has o = true -> q_spec o l = Some (r, l') ->
  (forall x, x ∈ op_new o -> is_Some (nodes m !! x)) ->
  wp (dq_exec q o) (fun r' m' => r' = r /\ dq_rep m' q l' /\
                                 frame dstrip [q] (op_new o ++ l) m m') m.
Proof.
  intros Hr Hhas Hs Hnew. destruct o as [x|x|y x|y x| | |y|x|]; simpl in *; try done;
    try destruct (decide _) as [Hd|Hd]; simplify_eq;
    try (destruct (Hnew x ltac:(set_solver)) as [n Hn]).
  - by eapply wp_void, wp_dq_addfirst.
  - by eapply wp_void, wp_dq_addlast.
  - destruct (elem_of_split_first y l) as (l1 & l2 & -> & Hy); [destruct (decide (y ∈ l)); tauto|].
    rewrite list_after_mid by done. eapply wp_void, wp_dq_addafter; eauto.
  - destruct (elem_of_split_first y l) as (l1 & l2 & -> & Hy); [destruct (decide (y ∈ l)); tauto|].
    rewrite list_before_mid by done. eapply wp_void, wp_dq_addbefore; eauto.
  - by eapply wp_dq_remfirst.
  - by eapply wp_dq_remlast.
  - destruct (elem_of_split_first x l) as (l1 & l2 & -> & Hy); [done|].
    rewrite list_rem_mid by done. by eapply wp_void, wp_dq_rem.
  - eapply wp_mono; [by eapply wp_dq_count|]. intros ? ? [-> ->].
    split_and!; auto. apply frame_refl.
Qed.

Lemma sq_exec_sim `{SEntry N} m q l o r l' :
  sq_rep m q l -> sq_has o = true -> q_spec o l = Some (r, l') ->
  (forall x, x ∈ op_new o -> is_Some (nodes m !! x)) ->
  wp (sq_exec q o) (fun r' m' => r' = r /\ sq_rep m' q l' /\
                                 frame sstrip [q] (op_new o ++ l) m m') m.
Proof.
  intros Hr Hhas Hs Hnew. destruct o as [x|x|y x|y x| | |y|x|]; simpl in *; try done;
    try destruct (decide _) as [Hd|Hd]; simplify_eq;
    try (destruct (Hnew x ltac:(set_solver)) as [n Hn]).
  - by eapply wp_void, wp_sq_addfirst.
  - by eapply wp_void, wp_sq_addlast.
  - destruct (elem_of_split_first y l) as (l1 & l2 & -> & Hy); [destruct (decide (y ∈ l)); tauto|].
    rewrite list_after_mid by done. eapply wp_void, wp_sq_addafter; eauto.
  - by eapply wp_sq_remfirst.
  - by eapply wp_sq_remlast.
  - destruct (elem_of_split_first y l) as (l1 & l2 & -> & Hy); [done|].
    rewrite list_next_mid by done. eapply wp_mono; [by eapply wp_sq_remafter|].
    intros r m' (-> & Hr' & Hf). split_and!; [done| |eapply frame_weaken; [done|set_solver|set_solver]].
    pose proof Hr as (_ & Hnd & _). destruct l2 as [|b l2]; simpl.
    + rewrite list_rem_notin; [done|]. intros HN. by apply (sq_rep_ne _ _ _ _ Hr HN).
    + replace (l1 ++ y :: b :: l2) with ((l1 ++ [y]) ++ b :: l2) in * by by rewrite <- app_assoc.
      rewrite list_rem_mid by (apply NoDup_mid in Hnd; tauto). by rewrite <- app_assoc.
  - destruct (elem_of_split_first x l) as (l1 & l2 & -> & Hy); [done|].
    rewrite list_rem_mid by done. by eapply wp_void, wp_sq_rem.
  - eapply wp_mono; [by eapply wp_sq_count|]. intros ? ? [-> ->].
    split_and!; auto. apply frame_refl.
Qed.

(** Membership grows only by the structures that are linked. *)
Lemma q_spec_members o l r l' p :
  q_spec o l = Some (r, l') -> p ∈ l' -> p ∈ op_new o ++ l.
Proof.
  assert (forall y x l0, p ∈ list_after y x l0 -> p = x \/ p ∈ l0).
  { induction l0 as [|a l0 IH]; simpl; [set_solver|]. destruct (a =? y); set_solver. }
  assert (forall y x l0, p ∈ list_before y x l0 -> p = x \/ p ∈ l0).
  { induction l0 as [|a l0 IH]; simpl; [set_solver|]. destruct (a =? y); set_solver. }
  assert (forall y l0, p ∈ list_rem y l0 -> p ∈ l0).
  { induction l0 as [|a l0 IH]; simpl; [set_solver|]. destruct (a =? y); set_solver. }
  assert (forall l0 : list ptr, p ∈ removelast l0 -> p ∈ l0).
  { induction l0 as [|a [|b l0] IH]; [set_solver..|].
    change (removelast (a :: b :: l0)) with (a :: removelast (b :: l0)). set_solver. }
  destruct o; simpl; intros Hs Hp; repeat case_decide; simplify_eq; try set_solver.
  destruct l; set_solver.
Qed.

Lemma q_run_sim (rep : qmem N -> ptr -> list ptr -> Prop) (exec : q_op -> M (qmem N) Z)
    (has : q_op -> bool) (strip : N -> N) q :
  (forall m l o r l', rep m q l -> has o = true -> q_spec o l = Some (r, l') ->
     (forall x, x ∈ op_new o -> is_Some (nodes m !! x)) ->
     wp (exec o) (fun r' m' => r' = r /\ rep m' q l' /\ frame strip [q] (op_new o ++ l) m m') m) ->
  forall ops m l rs l', rep m q l -> forallb has ops = true -> q_run_spec ops l = Some (rs, l') ->
    (forall o x, o ∈ ops -> x ∈ op_new o -> is_Some (nodes m !! x)) ->
    wp (q_run exec ops) (fun rs' m' => rs' = rs /\ rep m' q l' /\
                           frame strip [q] (mjoin (op_new <$> ops) ++ l) m m') m.
Proof.
  intros Hstep. induction ops as [|o ops IH]; intros m l rs l' Hr Hh Hs Hnew; simpl in *.
  { simplify_eq. apply wp_ret. split_and!; auto. apply frame_refl. }
  apply andb_true_iff in Hh as [Ho Hh].
  destruct (q_spec o l) as [[r l1]|] eqn:Hs1; [|done].
  destruct (q_run_spec ops l1) as [[rs2 l2]|] eqn:Hs2; [|done]. simplify_eq.
  apply wp_bind. eapply wp_mono; [eapply Hstep; eauto; set_solver|].
  intros r' m1 (-> & Hr1 & Hf1). apply wp_bind.
  eapply wp_mono; [eapply (IH m1 l1); eauto|].
  { intros o' x ??. rewrite (frame_dom _ _ _ _ _ _ Hf1). set_solver. }
  intros rs' m2 (-> & Hr2 & Hf2). apply wp_ret. split_and!; auto.
  eapply frame_trans; [exact Hf1|exact Hf2|done|done|set_solver|].
  intros p. rewrite elem_of_app. intros [?|Hp]; [set_solver|].
  pose proof (q_spec_members _ _ _ _ _ Hs1 Hp). set_solver.
Qed.
End Simulation.

(** * Theorems *)

(** C23: Every sequence of calls of the doubly linked queue functions
    ([dq_addfirst], [dq_addlast], [dq_addafter], [dq_addbefore], [dq_rem],
    [dq_remfirst], [dq_remlast], [dq_count]) that keeps the caller's
    obligations runs without following a bad link, returns what the same
    sequence returns on a plain list, leaves the links representing that
    list in both directions, and changes nothing but the links of the
    structures involved. *)
Theorem dq_simulation {N} `{DEntry N} (ops : list q_op) (m : qmem N) (q : ptr) (l l' : list ptr) (rs : list Z) :
  dq_rep m q l -> forallb dq_has ops = true -> q_run_spec ops l = Some (rs, l') ->
  (forall o x, o ∈ ops -> x ∈ op_new o -> is_Some (nodes m !! x)) ->
  wp (q_run (dq_exec q) ops)
     (fun rs' m' => rs' = rs /\ dq_rep m' q l' /\
                    frame dstrip [q] (mjoin (op_new <$> ops) ++ l) m m') m.
Proof. apply (q_run_sim dq_rep). intros. by apply dq_exec_sim. Qed.

(** The same for the singly linked queue functions ([sq_addfirst],
    [sq_addlast], [sq_addafter], [sq_rem], [sq_remfirst], [sq_remlast],
    [sq_remafter], [sq_count]), whose searches for a predecessor terminate. *)
Theorem sq_simulation {N} `{SEntry N} (ops : list q_op) (m : qmem N) (q : ptr) (l l' : list ptr) (rs : list Z) :
  sq_rep m q l -> forallb sq_has ops = true -> q_run_spec ops l = Some (rs, l') ->
  (forall o x, o ∈ ops -> x ∈ op_new o -> is_Some (nodes m !! x)) ->
  wp (q_run (sq_exec q) ops)
     (fun rs' m' => rs' = rs /\ sq_rep m' q l' /\
                    frame sstrip [q] (mjoin (op_new <$> ops) ++ l) m m') m.
Proof. apply (q_run_sim sq_rep). intros. by apply sq_exec_sim. Qed.

(** [dq_cat] and [sq_cat] append the first queue to the second and leave
    the first one empty, whichever of the two is empty. *)
Theorem q_cat_appends {D S} `{DEntry D} `{SEntry S} (m : qmem D) (ms : qmem S) (q1 q2 : ptr) (l1 l2 : list ptr) :
  q1 <> q2 -> NoDup (l2 ++ l1) ->
  (dq_rep m q1 l1 -> dq_rep m q2 l2 ->
   wp (DQ.dq_cat q1 q2) (fun _ m' => dq_rep m' q2 (l2 ++ l1) /\ dq_rep m' q1 [] /\
                                     frame dstrip [q1; q2] (l2 ++ l1) m m') m) /\
  (sq_rep ms q1 l1 -> sq_rep ms q2 l2 ->
   wp (SQ.sq_cat q1 q2) (fun _ m' => sq_rep m' q2 (l2 ++ l1) /\ sq_rep m' q1 [] /\
                                     frame sstrip [q1; q2] (l2 ++ l1) ms m') ms).
Proof. intros ??. split; intros; [by apply wp_dq_cat|by apply wp_sq_cat]. Qed.

(** ** Witnesses *)

Definition ex_dq : qmem dq_entry_t := mkqmem
  {[ 100 := mkdqe 200 0; 200 := mkdqe 0 100; 300 := mkdqe 7 7; 400 := mkdqe 0 0 ]}
  {[ 1 := mkqueue 100 200; 2 := mkqueue 400 400 ]}.
Definition ex_sq : qmem sq_entry_t := mkqmem
  {[ 100 := mksqe 200; 200 := mksqe 0; 300 := mksqe 7; 400 := mksqe 0 ]}
  {[ 1 := mkqueue 100 200; 2 := mkqueue 400 400 ]}.

Ltac nodup_concrete := apply (bool_decide_unpack (NoDup _)); vm_compute; exact I.
Ltac concrete_rep :=
  split; [reflexivity|split; [nodup_concrete|split; [reflexivity|]]];
  simpl; repeat (eexists; split; [reflexivity|]; repeat (split; [reflexivity|])); exact I.

Lemma ex_dq_rep : dq_rep ex_dq 1 [100; 200] /\ dq_rep ex_dq 2 [400].
Proof. split; concrete_rep. Qed.

Lemma ex_sq_rep : sq_rep ex_sq 1 [100; 200] /\ sq_rep ex_sq 2 [400].
Proof. split; concrete_rep. Qed.

Lemma dq_simulation_witness :
  exists m', q_run (dq_exec 1) [AddBefore 200 300; RemFirst; Count] ex_dq = Some ([0; 100; 2], m') /\
             dq_rep m' 1 [300; 200].
Proof.
  pose proof (dq_simulation [AddBefore 200 300; RemFirst; Count] ex_dq 1 [100; 200] [300; 200]
                [0; 100; 2] (proj1 ex_dq_rep) eq_refl eq_refl) as H.
  unfold wp in H. destruct (q_run (dq_exec 1) _ ex_dq) as [[rs m']|].
  - destruct H as (-> & H & _); [|eauto]. intros o x Ho Hx.
    assert (x = 300) as -> by (repeat (apply elem_of_cons in Ho as [->|Ho]; [set_solver|]); set_solver).
    by eexists.
  - destruct H. intros o x Ho Hx.
    assert (x = 300) as -> by (repeat (apply elem_of_cons in Ho as [->|Ho]; [set_solver|]); set_solver).
    by eexists.
Defined.

Lemma sq_simulation_witness :
  exists m', q_run (sq_exec 1) [AddAfter 100 300; RemLast; Rem 100] ex_sq = Some ([0; 200; 0], m') /\
             sq_rep m' 1 [300].
Proof.
  pose proof (sq_simulation [AddAfter 100 300; RemLast; Rem 100] ex_sq 1 [100; 200] [300]
                [0; 200; 0] (proj1 ex_sq_rep) eq_refl eq_refl) as H.
  unfold wp in H. destruct (q_run (sq_exec 1) _ ex_sq) as [[rs m']|].
  - destruct H as (-> & H & _); [|eauto]. intros o x Ho Hx.
    assert (x = 300) as -> by (repeat (apply elem_of_cons in Ho as [->|Ho]; [set_solver|]); set_solver).
    by eexists.
  - destruct H. intros o x Ho Hx.
    assert (x = 300) as -> by (repeat (apply elem_of_cons in Ho as [->|Ho]; [set_solver|]); set_solver).
    by eexists.
Defined.

Lemma q_cat_appends_witness :
  wp (DQ.dq_cat 2 1) (fun _ m' => dq_rep m' 1 [100; 200; 400]) ex_dq /\
  wp (SQ.sq_cat 2 1) (fun _ m' => sq_rep m' 1 [100; 200; 400]) ex_sq.
Proof.
  destruct (q_cat_appends ex_dq ex_sq 2 1 [400] [100; 200]) as [H1 H2];
    [done|nodup_concrete|].
  split; (eapply wp_mono; [first [apply H1; apply ex_dq_rep | apply H2; apply ex_sq_rep]|]);
    intros ? ? (? & _); done.
Defined.
