(* ===== verification/Wdog.v ===== *)
(** Wdog: the watchdog timers of sched/wdog (not tickless), on the linked
    store of [Queue], and their refinement to a list of absolute deadlines. *)

From stdpp Require Import options.
From S2P Require Import Prelude Queue.

(** * Data *)

(** [struct wdog_s]; a function pointer is its address. *)
Record wdog_s := mkwdog {
  next : ptr;
  func : Z;
  lag : Z;         (* int *)
  flags : Z;       (* uint8_t *)
  argc : Z;        (* uint8_t *)
  parm : list Z;   (* wdparm_t parm[CONFIG_MAX_WDOGPARMS] *)
}.

Definition set_next (p : ptr) (w : wdog_s) : wdog_s :=
  mkwdog p (func w) (lag w) (flags w) (argc w) (parm w).
Definition set_lag (z : Z) (w : wdog_s) : wdog_s :=
  mkwdog (next w) (func w) z (flags w) (argc w) (parm w).
Definition set_flags (z : Z) (w : wdog_s) : wdog_s :=
  mkwdog (next w) (func w) (lag w) z (argc w) (parm w).

(** A watchdog is a singly linked queue entry through [next]. *)
#[export] Program Instance wdog_sentry : SEntry wdog_s :=
  {| flink := next; set_flink := set_next |}.
Solve All Obligations with (intros; by try destruct n).

Definition CONFIG_MAX_WDOGPARMS : Z := 2.
Definition CONFIG_PREALLOC_WDOGS : nat := 32.
Definition CONFIG_WDOG_INTRESERVE : Z := 4.

Definition WDOGF_ACTIVE : Z := 1.
Definition WDOGF_ALLOCED : Z := 2.
Definition WDOGF_STATIC : Z := 4.

Definition WDOG_ISACTIVE (w : wdog_s) : bool := negb (Z.land (flags w) WDOGF_ACTIVE =? 0).
Definition WDOG_ISALLOCED (w : wdog_s) : bool := negb (Z.land (flags w) WDOGF_ALLOCED =? 0).
Definition WDOG_ISSTATIC (w : wdog_s) : bool := negb (Z.land (flags w) WDOGF_STATIC =? 0).
Definition WDOG_SETACTIVE (w : wdog_s) : wdog_s :=
  set_flags (u8 (Z.lor (flags w) WDOGF_ACTIVE)) w.
Definition WDOG_CLRACTIVE (w : wdog_s) : wdog_s :=
  set_flags (u8 (Z.land (flags w) (Z.lnot WDOGF_ACTIVE))) w.


(** A call of a watchdog function: its address, [argc], and [parm]. *)
Definition call_t : Type := Z * Z * list Z.

(** The watchdog data: the structures with the two lists, the count of free
    pre-allocated timers, and the calls made so far, latest first. *)
Record wdstate := mkwd {
  wmem : qmem wdog_s;
  g_wdnfree : Z;    (* uint16_t *)
  calls : list call_t;
}.

Definition g_wdactivelist : ptr := 1.
Definition g_wdfreelist : ptr := 2.

(** Run a routine on the linked store. *)
Definition onq {A} (c : M (qmem wdog_s) A) : M wdstate A := fun s =>
  match c (wmem s) with
  | Some (a, m) => Some (a, mkwd m (g_wdnfree s) (calls s))
  | None => None
  end.

Definition wd_node (p : ptr) : M wdstate wdog_s := onq (node p).
Definition wd_upd (p : ptr) (f : wdog_s -> wdog_s) : M wdstate unit := onq (upd_node p f).
Definition with_wdfuel {A} (c : nat -> M wdstate A) : M wdstate A :=
  fun s => c (qfuel (wmem s)) s.

(** * Operations *)

(** The search of [wd_cancel] for the watchdog and its predecessor. *)
Definition wd_find (wdog h : ptr) : M wdstate (ptr * ptr) :=
  with_wdfuel (fun fuel => loop fuel (fun '(prev, curr) =>
    if is_null curr || (curr =? wdog) then ret (inr (prev, curr))
    else c <- wd_node curr ;; ret (inl (curr, next c))) (NULL, h)).

Definition wd_cancel (wdog : ptr) : M wdstate Z :=
  if is_null wdog then ret (- EINVAL)
  else
    w <- wd_node wdog ;;
    if WDOG_ISACTIVE w then
      h <- onq (head g_wdactivelist) ;;
      pc <- wd_find wdog h ;;
      let '(prev, curr) := pc in
      assert_ (negb (is_null curr)) ;;
      c <- wd_node curr ;;
      when (negb (is_null (next c)))
        (wd_upd (next c) (fun n => set_lag (s32 (lag n + lag c)) n)) ;;
      (if is_null prev then onq (SQ.sq_remfirst g_wdactivelist)
       else onq (SQ.sq_remafter prev g_wdactivelist)) ;;
      wd_upd wdog (set_next NULL) ;;
      wd_upd wdog WDOG_CLRACTIVE ;;
      ret OK
    else ret (- EINVAL).

Definition wd_gettime (wdog : ptr) : M wdstate Z :=
  if is_null wdog then ret 0
  else
    w <- wd_node wdog ;;
    if WDOG_ISACTIVE w then
      h <- onq (head g_wdactivelist) ;;
      with_wdfuel (fun fuel => loop fuel (fun '(curr, delay) =>
        if is_null curr then ret (inr 0)
        else
          c <- wd_node curr ;;
          let delay := s32 (delay + lag c) in
          if curr =? wdog then ret (inr delay) else ret (inl (next c, delay))) (h, 0))
    else ret 0.

(** [delay+1], forced into the range of [int32_t]: the increment wraps. *)
Definition wd_delay (delay : Z) : Z :=
  if delay <=? 0 then 1
  else let d := s32 (delay + 1) in if d <=? 0 then s32 (d - 1) else d.

(** Store the arguments: the first [n] of the argument list [ap]. *)
Fixpoint set_parms (n : nat) (ap parms : list Z) : option (list Z) :=
  match n with
  | O => Some parms
  | S n' => match ap with
            | [] => None
            | a :: ap' => match set_parms n' ap' (List.tl parms) with
                          | Some ps => Some (a :: ps)
                          | None => None
                          end
            end
  end.

(** Advance to positive time. *)
Definition wd_advance_positive (h : ptr) : M wdstate (Z * ptr * ptr) :=
  with_wdfuel (fun fuel => loop fuel (fun '(now, prev, curr) =>
    c <- wd_node curr ;;
    let now := s32 (now + lag c) in
    if (now <? 0) && negb (is_null (next c)) then ret (inl (now, curr, next c))
    else ret (inr (now, prev, curr))) (0, h, h)).

(** Advance past shorter delays. *)
Definition wd_advance_shorter (delay : Z) (st : Z * ptr * ptr) : M wdstate (Z * ptr * ptr) :=
  with_wdfuel (fun fuel => loop fuel (fun '(now, prev, curr) =>
    c <- wd_node curr ;;
    if (now <=? delay) && negb (is_null (next c)) then
      n <- wd_node (next c) ;; ret (inl (s32 (now + lag n), curr, next c))
    else ret (inr (now, prev, curr))) st).

(** Insert [wdog] in the active list; returns its relative delay. *)
Definition wd_insert (wdog : ptr) (delay : Z) : M wdstate Z :=
  h <- onq (head g_wdactivelist) ;;
  if is_null h then
    onq (SQ.sq_addlast wdog g_wdactivelist) ;; ret delay
  else
    st <- wd_advance_positive h ;;
    st <- wd_advance_shorter delay st ;;
    let '(now, prev, curr) := st in
    c <- wd_node curr ;;
    if delay <? now then
      let delay := s32 (delay - s32 (now - lag c)) in
      wd_upd curr (set_lag (s32 (lag c - delay))) ;;
      h <- onq (head g_wdactivelist) ;;
      (if curr =? h then onq (SQ.sq_addfirst wdog g_wdactivelist)
       else onq (SQ.sq_addafter prev wdog g_wdactivelist)) ;;
      ret delay
    else
      let delay := s32 (delay - now) in
      (if is_null (next c) then onq (SQ.sq_addlast wdog g_wdactivelist)
       else
         wd_upd (next c) (fun n => set_lag (s32 (lag n - delay)) n) ;;
         onq (SQ.sq_addafter curr wdog g_wdactivelist)) ;;
      ret delay.

(** [ap] is the variable argument list. *)
Definition wd_start (wdog : ptr) (delay : Z) (wdentry : Z) (argc_ : Z) (ap : list Z)
  : M wdstate Z :=
  if is_null wdog || (CONFIG_MAX_WDOGPARMS <? argc_) || (delay <? 0) then ret (- EINVAL)
  else
    w <- wd_node wdog ;;
    when (WDOG_ISACTIVE w) (wd_cancel wdog ;; ret tt) ;;
    w <- wd_node wdog ;;
    ps <- getso (fun _ => set_parms (Z.to_nat argc_) ap (parm w)) ;;
    wd_upd wdog (fun w => mkwdog (next w) wdentry (lag w) (flags w) (u8 argc_) ps) ;;
    d <- wd_insert wdog (wd_delay delay) ;;
    wd_upd wdog (set_lag d) ;;
    wd_upd wdog WDOG_SETACTIVE ;;
    ret OK.

Section Expiration.
(** What the watchdog functions do to the watchdog data. *)
Context (callback : call_t -> M wdstate unit).

(** [wdog->func(wdog->argc, wdog->parm[0], wdog->parm[1])]. *)
Definition wd_invoke (c : call_t) : M wdstate unit :=
  modify (fun s => mkwd (wmem s) (g_wdnfree s) (c :: calls s)) ;; callback c.

(** The body of the loop of [wd_expiration]: remove the watchdog at the
    head of the list and execute it. *)
Definition wd_expire_head : M wdstate unit :=
  wdog <- onq (SQ.sq_remfirst g_wdactivelist) ;;
  w <- wd_node wdog ;;
  h <- onq (head g_wdactivelist) ;;
  when (negb (is_null h))
    (wd_upd h (fun n => set_lag (s32 (lag n + lag w)) n)) ;;
  wd_upd wdog WDOG_CLRACTIVE ;;
  wd_invoke (func w, argc w, parm w).

Definition wd_expiration : M wdstate unit :=
  h <- onq (head g_wdactivelist) ;;
  n <- wd_node h ;;
  when (lag n <=? 0)
    (with_wdfuel (fun fuel => loop fuel (fun _ : unit =>
       h <- onq (head g_wdactivelist) ;;
       if is_null h then ret (inr tt)
       else
         n <- wd_node h ;;
         if lag n <=? 0 then wd_expire_head ;; ret (inl tt)
         else ret (inr tt)) tt)).

Definition wd_timer : M wdstate unit :=
  h <- onq (head g_wdactivelist) ;;
  when (negb (is_null h))
    (wd_upd h (fun n => set_lag (s32 (lag n - 1)) n) ;;
     wd_expiration).
End Expiration.

(** [intr] is [up_interrupt_context()]; [blk] is the block that
    [kmm_malloc(sizeof(struct wdog_s))] returns, with its contents. *)
Definition wd_create (intr : bool) (blk : option (ptr * wdog_s)) : M wdstate ptr :=
  nfree <- gets g_wdnfree ;;
  if (CONFIG_WDOG_INTRESERVE <? nfree) || intr then
    wdog <- onq (SQ.sq_remfirst g_wdfreelist) ;;
    (if negb (is_null wdog) then
       nfree <- gets g_wdnfree ;;
       assert_ (0 <? nfree) ;;
       modify (fun s => mkwd (wmem s) (u16 (g_wdnfree s - 1)) (calls s)) ;;
       wd_upd wdog (fun w => set_flags 0 (set_next NULL w))
     else
       nfree <- gets g_wdnfree ;; assert_ (nfree =? 0)) ;;
    ret wdog
  else
    match blk with
    | Some (p, garbage) =>
        modify (fun s => mkwd (mkqmem (<[p := set_flags WDOGF_ALLOCED (set_next NULL garbage)]>
                                        (nodes (wmem s))) (queues (wmem s)))
                              (g_wdnfree s) (calls s)) ;;
        ret p
    | None => ret NULL
    end.

Definition wd_delete (wdog : ptr) : M wdstate Z :=
  assert_ (negb (is_null wdog)) ;;
  w <- wd_node wdog ;;
  when (WDOG_ISACTIVE w) (wd_cancel wdog ;; ret tt) ;;
  w <- wd_node wdog ;;
  (if WDOG_ISALLOCED w then
     (* kmm_free(wdog) *)
     modify (fun s => mkwd (mkqmem (delete wdog (nodes (wmem s))) (queues (wmem s)))
                           (g_wdnfree s) (calls s))
   else if negb (WDOG_ISSTATIC w) then
     onq (SQ.sq_addlast wdog g_wdfreelist) ;;
     modify (fun s => mkwd (wmem s) (u16 (g_wdnfree s + 1)) (calls s)) ;;
     nfree <- gets g_wdnfree ;;
     assert_ (nfree <=? Z.of_nat CONFIG_PREALLOC_WDOGS)
   else ret tt) ;;
  ret OK.

(** The addresses of [g_wdpool[i]]; [sizeof(struct wdog_s)] is 24. *)
Definition g_wdpool (i : nat) : ptr := 4096 + 24 * Z.of_nat i.

(** Load [n] watchdogs of the pool on the free list, from the [i]-th one. *)
Fixpoint wd_fill (n i : nat) : M wdstate unit :=
  match n with
  | O => ret tt
  | S n' => onq (SQ.sq_addlast (g_wdpool i) g_wdfreelist) ;; wd_fill n' (S i)
  end.

Definition wd_initialize : M wdstate unit :=
  onq (q_init g_wdfreelist) ;;
  onq (q_init g_wdactivelist) ;;
  wd_fill CONFIG_PREALLOC_WDOGS 0 ;;
  modify (fun s => mkwd (wmem s) (Z.of_nat CONFIG_PREALLOC_WDOGS) (calls s)).

(** * Specification *)

(** The abstract active list: each started watchdog with the number of ticks
    until it expires, in the order of expiration. *)
Abbreviation deadlines := (list (ptr * Z)).

(** Start: after every watchdog that expires no later. *)
Fixpoint dl_insert (w : ptr) (t : Z) (D : deadlines) : deadlines :=
  match D with
  | [] => [(w, t)]
  | (p, u) :: D' => if u <=? t then (p, u) :: dl_insert w t D' else (w, t) :: D
  end.

(** Cancel. *)
Definition dl_remove (w : ptr) (D : deadlines) : deadlines :=
  filter (fun x => x.1 <> w) D.

(** Tick: what has expired, and what is left. *)
Definition dl_expired (D : deadlines) : deadlines := filter (fun x => x.2 <= 1) D.
Definition dl_tick (D : deadlines) : deadlines :=
  (fun x => (x.1, x.2 - 1)) <$> filter (fun x => 1 < x.2) D.

(** The lags stored along the active list are the differences of consecutive
    deadlines. *)
Fixpoint dl_rep (g : gmap ptr wdog_s) (base : Z) (D : deadlines) : Prop :=
  match D with
  | [] => True
  | (p, t) :: D' => base <= t <= INT32_MAX /\
                    (exists w, g !! p = Some w /\ WDOG_ISACTIVE w = true /\ lag w = t - base) /\
                    dl_rep g t D'
  end.

(** The watchdog data is in order: [D] is active and [F] is free. *)
Definition wd_inv (s : wdstate) (D : deadlines) (F : list ptr) : Prop :=
  sq_rep (wmem s) g_wdactivelist D.*1 /\
  sq_rep (wmem s) g_wdfreelist F /\
  dl_rep (nodes (wmem s)) 0 D /\
  Forall (fun x => 1 <= x.2) D /\
  (forall p w, nodes (wmem s) !! p = Some w -> WDOG_ISACTIVE w = true -> p ∈ D.*1) /\
  (forall p, p ∈ F -> p ∉ D.*1) /\
  g_wdnfree s = Z.of_nat (length F).

(** The call that a watchdog makes when it expires. *)
Definition call_of (s : wdstate) (p : ptr) : option call_t :=
  (fun w => (func w, argc w, parm w)) <$> nodes (wmem s) !! p.

(** * Lemmas *)

Section WdLemmas.
Implicit Types (s : wdstate) (g : gmap ptr wdog_s) (D : deadlines) (F : list ptr).

Lemma wp_onq {A} (c : M (qmem wdog_s) A) Q s :
  wp c (fun a m => Q a (mkwd m (g_wdnfree s) (calls s))) (wmem s) -> wp (onq c) Q s.
Proof. unfold wp, onq. by destruct (c (wmem s)) as [[a m]|]. Qed.

Lemma wp_wd_node p w Q s : nodes (wmem s) !! p = Some w -> Q w s -> wp (wd_node p) Q s.
Proof. intros ? ?. apply wp_onq. eapply wp_node; [done|]. by destruct s. Qed.

Lemma wp_wd_upd p f w (Q : unit -> wdstate -> Prop) s :
  nodes (wmem s) !! p = Some w ->
  Q tt (mkwd (mkqmem (<[p := f w]> (nodes (wmem s))) (queues (wmem s))) (g_wdnfree s) (calls s)) ->
  wp (wd_upd p f) Q s.
Proof. intros ? ?. apply wp_onq. by eapply wp_upd_node. Qed.

Lemma wp_wd_head l Q s :
  sq_rep (wmem s) g_wdactivelist l -> Q (hd_or NULL l) s ->
  wp (onq (head g_wdactivelist)) Q s.
Proof. intros (_ & _ & Hq & _) ?. apply wp_onq. eapply wp_head; [done|]. by destruct s. Qed.

Lemma dl_rep_app g b D1 D2 :
  dl_rep g b (D1 ++ D2) <-> dl_rep g b D1 /\ dl_rep g (last_or b D1.*2) D2.
Proof.
  revert b. induction D1 as [|[p t] D1 IH]; intros b; simpl; [tauto|].
  rewrite IH. tauto.
Qed.

(** Only the lag and the flags of the members matter. *)
Lemma dl_rep_ext g g' b D :
  (forall p, p ∈ D.*1 -> sstrip <$> g' !! p = sstrip <$> g !! p) ->
  dl_rep g b D -> dl_rep g' b D.
Proof.
  revert b. induction D as [|[p t] D IH]; intros b Hg; simpl; [done|].
  intros (? & (w & Hw & Ha & Hl) & HD). split; [done|split].
  - specialize (Hg p ltac:(set_solver)). rewrite Hw in Hg.
    destruct (g' !! p) as [w'|]; [|done]. exists w'. simpl in Hg.
    unfold WDOG_ISACTIVE in *. destruct w, w'. unfold sstrip in Hg. simpl in *. by simplify_eq.
  - apply IH; [|done]. set_solver.
Qed.

Lemma dl_rep_insert g b D p w :
  p ∉ D.*1 -> dl_rep g b D -> dl_rep (<[p := w]> g) b D.
Proof.
  intros Hp. apply dl_rep_ext. intros q Hq. by rewrite lookup_insert_ne by set_solver.
Qed.

Lemma dl_rep_mono g b D : dl_rep g b D -> Forall (fun x => b <= x.2) D.
Proof.
  revert b. induction D as [|[p t] D IH]; intros b; simpl; [done|].
  intros (? & _ & HD). constructor; simpl; [lia|]. eapply Forall_impl; [by apply IH|].
  simpl. lia.
Qed.

Lemma dl_rep_last g b D : dl_rep g b D -> b <= last_or b D.*2.
Proof.
  revert b. induction D as [|[p t] D IH]; intros b; csimpl; [lia|].
  intros (? & _ & HD). apply IH in HD. lia.
Qed.

(** Changing a field that is not the link keeps the lists. *)
Lemma sq_rep_upd (m : qmem wdog_s) q l p w w' :
  nodes m !! p = Some w -> next w' = next w -> sq_rep m q l ->
  sq_rep (mkqmem (<[p := w']> (nodes m)) (queues m)) q l.
Proof.
  intros Hp Hn (HN & ? & ? & Hl). split_and!; simpl; auto.
  - rewrite lookup_insert_ne by congruence. done.
  - clear -Hp Hn Hl. induction l as [|a l IH]; simpl in *; [done|].
    destruct Hl as (n & Ha & Hf & Hl). destruct (decide (a = p)) as [->|].
    + exists w'. rewrite lookup_insert_eq. simplify_eq. rewrite <- Hf. simpl. auto.
    + exists n. rewrite lookup_insert_ne by congruence. auto.
Qed.

Lemma dl_insert_split w t D1 D2 :
  Forall (fun x => x.2 <= t) D1 ->
  match D2 with [] => True | (_, u) :: _ => t < u end ->
  dl_insert w t (D1 ++ D2) = D1 ++ (w, t) :: D2.
Proof.
  induction 1 as [|[p u] D1 Hu _ IH]; intros HD2; simpl in *.
  - destruct D2 as [|[p u] D2]; [done|]. simpl. by rewrite (proj2 (Z.leb_gt u t)).
  - rewrite (proj2 (Z.leb_le u t)) by done. by rewrite IH.
Qed.

(** All active watchdogs are in [l]. *)
Definition active_in g (l : list ptr) : Prop :=
  forall p w, g !! p = Some w -> WDOG_ISACTIVE w = true -> p ∈ l.

Lemma strip_lookup g g' p w' :
  sstrip <$> g' !! p = sstrip <$> g !! p -> g' !! p = Some w' ->
  exists w, g !! p = Some w /\ WDOG_ISACTIVE w = WDOG_ISACTIVE w' /\ lag w = lag w' /\
            (func w, argc w, parm w) = (func w', argc w', parm w') /\ flags w = flags w'.
Proof.
  intros Hg Hw. rewrite Hw in Hg. destruct (g !! p) as [w|]; [|done].
  exists w. unfold WDOG_ISACTIVE. destruct w, w'. unfold sstrip in Hg. simpl in *.
  by simplify_eq.
Qed.

Lemma active_in_ext g g' l :
  (forall p, sstrip <$> g' !! p = sstrip <$> g !! p) -> active_in g l -> active_in g' l.
Proof.
  intros Hg Ha p w' Hw Hact. destruct (strip_lookup g g' p w' (Hg p) Hw) as (w & ? & Hw' & _).
  rewrite <- Hw' in Hact. eauto.
Qed.

Lemma active_in_insert g l p w :
  (WDOG_ISACTIVE w = true -> p ∈ l) -> active_in g l -> active_in (<[p := w]> g) l.
Proof.
  intros Hp Ha q w' [[-> ->]|[? ?]]%lookup_insert_Some; eauto.
Qed.

Lemma land_1_bit z : (Z.land z 1 =? 0) = negb (Z.testbit z 0).
Proof.
  change 1 with (Z.ones 1) at 1. rewrite (Z.land_ones z 1) by lia.
  change (2 ^ 1) with 2. rewrite <- Z.bit0_mod. by destruct (Z.testbit z 0).
Qed.

Lemma u8_bit0 z : Z.testbit (u8 z) 0 = Z.testbit z 0.
Proof. apply Z.mod_pow2_bits_low. lia. Qed.

Lemma isactive_clr w : WDOG_ISACTIVE (WDOG_CLRACTIVE w) = false.
Proof.
  unfold WDOG_ISACTIVE, WDOG_CLRACTIVE, WDOGF_ACTIVE, set_flags. simpl.
  by rewrite land_1_bit, u8_bit0, Z.land_spec, andb_false_r.
Qed.

Lemma isactive_set w : WDOG_ISACTIVE (WDOG_SETACTIVE w) = true.
Proof.
  unfold WDOG_ISACTIVE, WDOG_SETACTIVE, WDOGF_ACTIVE, set_flags. simpl.
  by rewrite land_1_bit, u8_bit0, Z.lor_spec, orb_true_r.
Qed.

Lemma land_pow2_bit z k : 0 <= k -> (Z.land z (2 ^ k) =? 0) = negb (Z.testbit z k).
Proof.
  intros Hk. destruct (Z.eqb_spec (Z.land z (2 ^ k)) 0) as [H0|H0].
  - apply (f_equal (fun y => Z.testbit y k)) in H0.
    rewrite Z.land_spec, Z.pow2_bits_true, andb_true_r, Z.bits_0 in H0 by done. by rewrite H0.
  - destruct (Z.testbit z k) eqn:E; [done|]. destruct H0. apply Z.bits_inj'. intros n Hn.
    rewrite Z.land_spec, Z.bits_0, Z.pow2_bits_eqb by done.
    destruct (Z.eqb_spec k n); [subst; by rewrite E|apply andb_false_r].
Qed.

Lemma clr_bit z k : 0 < k < 8 -> Z.testbit (u8 (Z.land z (Z.lnot WDOGF_ACTIVE))) k = Z.testbit z k.
Proof.
  intros Hk. unfold wrapu. rewrite Z.mod_pow2_bits_low, Z.land_spec, Z.lnot_spec by lia.
  unfold WDOGF_ACTIVE. change 1 with (2 ^ 0). rewrite Z.pow2_bits_false by lia.
  apply andb_true_r.
Qed.

Lemma isalloced_clr w : WDOG_ISALLOCED (WDOG_CLRACTIVE w) = WDOG_ISALLOCED w.
Proof.
  unfold WDOG_ISALLOCED, WDOG_CLRACTIVE, set_flags. simpl. change WDOGF_ALLOCED with (2 ^ 1).
  by rewrite !land_pow2_bit, clr_bit.
Qed.

Lemma isstatic_clr w : WDOG_ISSTATIC (WDOG_CLRACTIVE w) = WDOG_ISSTATIC w.
Proof.
  unfold WDOG_ISSTATIC, WDOG_CLRACTIVE, set_flags. simpl. change WDOGF_STATIC with (2 ^ 2).
  by rewrite !land_pow2_bit, clr_bit.
Qed.

(** How watchdog [x] was allocated has not changed. *)
Definition same_kind s s' (x : ptr) : Prop :=
  exists w w', nodes (wmem s) !! x = Some w /\ nodes (wmem s') !! x = Some w' /\
    WDOG_ISALLOCED w' = WDOG_ISALLOCED w /\ WDOG_ISSTATIC w' = WDOG_ISSTATIC w.

(** Changing a structure outside a list keeps the list. *)
Lemma sq_rep_insert_notin (m : qmem wdog_s) q l p w :
  p <> NULL -> p ∉ l -> sq_rep m q l -> sq_rep (mkqmem (<[p := w]> (nodes m)) (queues m)) q l.
Proof.
  intros Hn Hp (HN & ? & ? & Hl). split_and!; simpl; auto.
  - by rewrite lookup_insert_ne.
  - by rewrite lseg_insert.
Qed.

Lemma wp_with_wdfuel {A} (c : nat -> M wdstate A) Q s :
  wp (c (qfuel (wmem s))) Q s -> wp (with_wdfuel c) Q s.
Proof. done. Qed.

Lemma wp_wd_find s l1 x l2 :
  sq_rep (wmem s) g_wdactivelist (l1 ++ x :: l2) ->
  wp (wd_find x (hd_or NULL (l1 ++ x :: l2)))
     (fun r s' => s' = s /\ r = (last_or NULL l1, x)) s.
Proof.
  intros Hr. pose proof Hr as (HN & Hnd & _ & Hl).
  pose proof (lseg_length _ _ _ Hnd Hl) as Hfuel. apply wp_with_wdfuel.
  match goal with |- wp (loop _ ?b _) _ _ => set (body := b) end. clear Hr.
  enough (forall fuel p0, (length (l1 ++ x :: l2) < fuel)%nat ->
    wp (loop fuel body (p0, hd_or NULL (l1 ++ x :: l2)))
       (fun r s' => s' = s /\ r = (last_or p0 l1, x)) s) by auto. clear Hfuel.
  induction l1 as [|a l1 IH]; intros [|fuel] p0 Hfuel; try (simpl in Hfuel; lia);
    apply wp_loop_step; unfold body at 1; cbn [hd_or app].
  - rewrite Z.eqb_refl, orb_true_r. by apply wp_ret.
  - simpl in Hl. destruct Hl as (n & Hn & Hf & Hl). apply NoDup_cons in Hnd as [Ha Hnd].
    rewrite is_null_ne by congruence.
    rewrite (proj2 (Z.eqb_neq a x)) by set_solver. simpl.
    apply wp_bind. eapply wp_wd_node; [done|]. apply wp_ret. cbn [last_or].
    simpl in Hf. rewrite Hf. apply IH; auto. simpl in Hfuel. lia.
Qed.

Lemma call_of_strip s s' p :
  sstrip <$> nodes (wmem s') !! p = sstrip <$> nodes (wmem s) !! p ->
  call_of s' p = call_of s p.
Proof.
  unfold call_of. intros Hp. destruct (nodes (wmem s') !! p) as [w'|] eqn:Hw'.
  - destruct (strip_lookup (nodes (wmem s)) (nodes (wmem s')) p w') as (w & -> & _ & _ & Hc & _);
      [by rewrite Hw'|done|]. simpl. by rewrite Hc.
  - by destruct (nodes (wmem s) !! p).
Qed.

(** The lists, without the lags: [A] is active and [F] is free. *)
Definition wd_lists s (A F : list ptr) : Prop :=
  sq_rep (wmem s) g_wdactivelist A /\ sq_rep (wmem s) g_wdfreelist F /\
  (forall p, p ∈ F -> p ∉ A) /\ g_wdnfree s = Z.of_nat (length F).

(** Updates of one structure that do not relink it. *)
Lemma wd_lists_upd s A F p w w' :
  wd_lists s A F -> nodes (wmem s) !! p = Some w -> next w' = next w ->
  wd_lists (mkwd (mkqmem (<[p := w']> (nodes (wmem s))) (queues (wmem s)))
                 (g_wdnfree s) (calls s)) A F.
Proof. intros (? & ? & ? & ?) ??. split_and!; eauto using sq_rep_upd. Qed.

Lemma wd_lists_insert s A F p w' :
  wd_lists s A F -> p <> NULL -> p ∉ A -> p ∉ F ->
  wd_lists (mkwd (mkqmem (<[p := w']> (nodes (wmem s))) (queues (wmem s)))
                 (g_wdnfree s) (calls s)) A F.
Proof. intros (? & ? & ? & ?) ???. split_and!; eauto using sq_rep_insert_notin. Qed.

(** A list operation on the active list, seen from the watchdog data. *)
Lemma wp_active_op {A} (c : M (qmem wdog_s) A) (P : A -> Prop) T L L' F s :
  wd_lists s L F ->
  wp c (fun r m' => P r /\ sq_rep m' g_wdactivelist L' /\
                    frame sstrip [g_wdactivelist] T (wmem s) m') (wmem s) ->
  (forall p, p ∈ T -> p ∉ F) -> (forall p, p ∈ F -> p ∉ L') ->
  wp (onq c) (fun r s' => P r /\ wd_lists s' L' F /\ calls s' = calls s /\
     forall p, sstrip <$> nodes (wmem s') !! p = sstrip <$> nodes (wmem s) !! p) s.
Proof.
  intros (HA & HF & Hdis & Hn) Hc HT HL. apply wp_onq. eapply wp_mono; [exact Hc|].
  intros r m' (HP & HA' & Hf). split_and!; simpl; auto.
  - split_and!; simpl; auto. eapply sq_rep_frame; eauto; set_solver.
  - apply Hf.
Qed.

(** [wd_cancel]: the watchdog behind the cancelled one inherits its ticks. *)
Lemma wp_cancel_lag s D1 x t D2 F w :
  wd_lists s (D1 ++ (x, t) :: D2).*1 F ->
  dl_rep (nodes (wmem s)) 0 (D1 ++ (x, t) :: D2) ->
  active_in (nodes (wmem s)) (D1 ++ (x, t) :: D2).*1 ->
  nodes (wmem s) !! x = Some w ->
  wp (when (negb (is_null (next w)))
        (wd_upd (next w) (fun n => set_lag (s32 (lag n + lag w)) n)))
     (fun _ s' => wd_lists s' (D1 ++ (x, t) :: D2).*1 F /\
                  dl_rep (nodes (wmem s')) 0 (D1 ++ D2) /\
                  active_in (nodes (wmem s')) (D1 ++ (x, t) :: D2).*1 /\
                  nodes (wmem s') !! x = Some w /\
                  calls s' = calls s /\ forall p, call_of s' p = call_of s p) s.
Proof.
  intros HL HD Hact Hx. pose proof HL as ((HN & Hnd & _ & Hl) & _).
  rewrite dl_rep_app in *. simpl in HD. destruct HD as (HD1 & Ht & (w1 & Hw1 & Ha & Hlag) & HD2).
  simplify_eq. rewrite fmap_app in Hl, Hnd. simpl in Hl, Hnd. lseg_simpl. nodup_simpl.
  simplify_eq. cbn [flink wdog_sentry] in *. destruct D2 as [|[p2 t2] D2].
  { cbn [hd_or fmap list_fmap fst] in *. match goal with H : next _ = _ |- _ => rewrite H end.
    null_simpl. unfold when. apply wp_ret. rewrite app_nil_r. auto 10. }
  cbn [hd_or fmap list_fmap fst] in *. simpl in HD2.
  destruct HD2 as (Ht2 & (w2 & Hw2 & Ha2 & Hlag2) & HD2). nodup_simpl.
  match goal with H : next _ = _ |- _ => rewrite H end.
  null_simpl. unfold when. eapply wp_wd_upd; [done|]. simpl. split; [by eapply wd_lists_upd|].
  split; [|split; [|split_and!; auto]].
  - rewrite dl_rep_app. split; [by apply dl_rep_insert|]. simpl. split; [lia|]. split.
    + exists (set_lag (s32 (lag w2 + lag w1)) w2). rewrite lookup_insert_eq. split_and!; auto.
      simpl. rewrite s32_small; unfold INT32_MIN, INT32_MAX in *; [lia|].
      pose proof (dl_rep_last _ _ _ HD1). lia.
    + apply dl_rep_insert; [|done]. done.
  - apply active_in_insert; [|done]. intros _. rewrite fmap_app. set_solver.
  - by rewrite lookup_insert_ne by congruence.
  - intros p. unfold call_of. simpl. rewrite lookup_insert. case_decide; [subst|done].
    by rewrite Hw2.
Qed.

Lemma wd_inv_lists s D F : wd_inv s D F -> wd_lists s D.*1 F.
Proof. intros (? & ? & ? & ? & ? & ? & ?). by split_and!. Qed.

Lemma wp_cancel_unlink s l1 x l2 F :
  wd_lists s (l1 ++ x :: l2) F ->
  wp (if is_null (last_or NULL l1) then onq (SQ.sq_remfirst g_wdactivelist)
      else onq (SQ.sq_remafter (last_or NULL l1) g_wdactivelist))
     (fun _ s' => wd_lists s' (l1 ++ l2) F /\ calls s' = calls s /\
        forall p, sstrip <$> nodes (wmem s') !! p = sstrip <$> nodes (wmem s) !! p) s.
Proof.
  intros HL. pose proof HL as (HA & _ & Hdis & _).
  destruct l1 as [|a l1 _] using rev_ind.
  - null_simpl. eapply wp_mono; [eapply (wp_active_op _ (fun _ => True) (x :: l2) _ l2 F); eauto|].
    + eapply wp_mono; [by apply wp_sq_remfirst|]. naive_solver.
    + simpl in Hdis. set_solver.
    + simpl in Hdis. set_solver.
    + naive_solver.
  - rewrite last_or_app. cbn [last_or].
    rewrite is_null_ne by (apply (sq_rep_ne _ _ _ _ HA); set_solver).
    rewrite <- app_assoc in *. cbn [app] in *.
    eapply wp_mono;
      [eapply (wp_active_op _ (fun _ => True) (a :: x :: l2) _ (l1 ++ a :: l2) F); eauto|].
    + eapply wp_mono; [by apply wp_sq_remafter|]. naive_solver.
    + set_solver.
    + set_solver.
    + naive_solver.
Qed.

(** Cancelling an active watchdog removes it and moves no other deadline. *)
Lemma wp_wd_cancel s D1 x t D2 F :
  wd_inv s (D1 ++ (x, t) :: D2) F ->
  wp (wd_cancel x)
     (fun r s' => r = OK /\ wd_inv s' (D1 ++ D2) F /\ calls s' = calls s /\
                  (forall p, call_of s' p = call_of s p) /\ same_kind s s' x) s.
Proof.
  intros Hinv. pose proof (wd_inv_lists _ _ _ Hinv) as HL.
  destruct Hinv as (HA & _ & HD & H1 & Hact & Hdis & Hn).
  assert (exists w, nodes (wmem s) !! x = Some w /\ WDOG_ISACTIVE w = true) as (w & Hw & Ha).
  { rewrite dl_rep_app in HD. simpl in HD. naive_solver. }
  assert (x <> NULL) as Hx by (apply (sq_rep_ne _ _ _ _ HA); rewrite fmap_app; set_solver).
  unfold wd_cancel. rewrite is_null_ne by done. apply wp_bind. eapply wp_wd_node; [done|].
  rewrite Ha. apply wp_bind. eapply wp_wd_head; [done|]. apply wp_bind.
  assert ((D1 ++ (x, t) :: D2).*1 = D1.*1 ++ x :: D2.*1) as Heq by by rewrite fmap_app.
  rewrite Heq in *. eapply wp_mono; [by apply wp_wd_find|]. intros r s' [-> ->].
  apply wp_bind, wp_assert; [by rewrite is_null_ne|].
  apply wp_bind. eapply wp_wd_node; [done|]. apply wp_bind.
  eapply wp_mono; [apply (wp_cancel_lag s D1 x t D2 F w); rewrite ?Heq; done|].
  rewrite Heq. intros _ s1 (HL1 & HD1 & Ha1 & Hx1 & Hc1 & Hcall1). apply wp_bind.
  eapply wp_mono; [by eapply (wp_cancel_unlink s1 _ x)|]. intros _ s2 (HL2 & Hc2 & Hst).
  assert (x ∉ D1.*1 ++ D2.*1 /\ x ∉ F) as [Hx2 HxF].
  { destruct HL1 as ((_ & Hnd & _) & _ & Hd1 & _). apply NoDup_mid in Hnd. set_solver. }
  destruct (strip_lookup _ _ _ _ (eq_sym (Hst x)) Hx1) as (w2 & Hw2 & _ & _ & Hcw & Hfl).
  apply wp_bind. eapply wp_wd_upd; [done|]. apply wp_bind.
  eapply wp_wd_upd; [simpl; apply lookup_insert_eq|]. simpl. rewrite insert_insert_eq.
  apply wp_ret. split; [done|]. split; [|split; [|split]].
  - pose proof (wd_lists_insert _ _ _ x (WDOG_CLRACTIVE (set_next NULL w2)) HL2 Hx Hx2 HxF)
      as (? & ? & ? & ?).
    split_and!; rewrite ?fmap_app; auto; simpl.
    + apply dl_rep_insert; [by rewrite fmap_app|]. eapply dl_rep_ext; [|exact HD1]. auto.
    + rewrite Forall_app in *. rewrite Forall_cons in H1. tauto.
    + intros p w' [[<- <-]|[Hne Hp]]%lookup_insert_Some Hp'; [by rewrite isactive_clr in Hp'|].
      pose proof (active_in_ext _ _ _ Hst Ha1 p w' Hp Hp'). set_solver.
  - simpl. congruence.
  - intros p. rewrite <- Hcall1. unfold call_of; simpl. rewrite lookup_insert.
    case_decide; [subst p; rewrite Hx1; simpl; by rewrite Hcw|].
    apply (call_of_strip s1 s2 p (Hst p)).
  - exists w, (WDOG_CLRACTIVE (set_next NULL w2)). simpl. rewrite lookup_insert_eq.
    split_and!; [done|done|..]; rewrite ?isalloced_clr, ?isstatic_clr;
      unfold WDOG_ISALLOCED, WDOG_ISSTATIC; simpl; by rewrite Hfl.
Qed.

Lemma dl_rep_lookup g D1 p t D2 :
  dl_rep g 0 (D1 ++ (p, t) :: D2) ->
  exists w, g !! p = Some w /\ WDOG_ISACTIVE w = true /\ lag w = t - last_or 0 D1.*2 /\
            0 <= last_or 0 D1.*2 <= t /\ t <= INT32_MAX.
Proof.
  rewrite dl_rep_app. simpl. intros (H1 & ? & (w & ? & ? & ?) & _).
  apply dl_rep_last in H1. exists w. repeat split; auto; lia.
Qed.

Lemma lseg_next (g : gmap ptr wdog_s) l1 p l2 w :
  lseg g (l1 ++ p :: l2) NULL -> g !! p = Some w -> next w = hd_or NULL l2.
Proof. rewrite lseg_app. simpl. intros (_ & n & ? & ? & _) ?. by simplify_eq. Qed.

Lemma wp_advance_positive s p t D :
  sq_rep (wmem s) g_wdactivelist ((p, t) :: D).*1 ->
  dl_rep (nodes (wmem s)) 0 ((p, t) :: D) ->
  wp (wd_advance_positive p) (fun r s' => s' = s /\ r = (t, p, p)) s.
Proof.
  intros HA HD. destruct (dl_rep_lookup _ [] _ _ _ HD) as (w & Hw & _ & Hlag & Hr).
  apply wp_with_wdfuel, wp_loop_step, wp_bind. eapply wp_wd_node; [done|].
  simpl in Hlag, Hr. rewrite Z.sub_0_r in Hlag. rewrite Z.add_0_l, Hlag.
  rewrite s32_small by (unfold INT32_MIN; lia). cbv zeta. rewrite (proj2 (Z.ltb_ge t 0)) by lia.
  by apply wp_ret.
Qed.

Lemma wp_advance_shorter s delay D1 c t D2 :
  sq_rep (wmem s) g_wdactivelist (D1 ++ (c, t) :: D2).*1 ->
  dl_rep (nodes (wmem s)) 0 (D1 ++ (c, t) :: D2) ->
  Forall (fun x => x.2 <= delay) D1 ->
  wp (wd_advance_shorter delay (t, last_or c D1.*1, c))
     (fun r s' => s' = s /\ exists E1 c' t' E2,
        D1 ++ (c, t) :: D2 = E1 ++ (c', t') :: E2 /\ r = (t', last_or c' E1.*1, c') /\
        Forall (fun x => x.2 <= delay) E1 /\ (delay < t' \/ E2 = [])) s.
Proof.
  intros HA HD H1. pose proof HA as (HN & Hnd & _ & Hl).
  pose proof (lseg_length _ _ _ Hnd Hl) as Hfuel. apply wp_with_wdfuel.
  assert (length D2 < qfuel (wmem s))%nat as Hf.
  { rewrite length_fmap, length_app in Hfuel. simpl in Hfuel. lia. }
  revert Hf. generalize (qfuel (wmem s)) as fuel. clear Hfuel Hnd HA.
  revert D1 c t HD H1 Hl. induction D2 as [|[c2 t2] D2 IH]; intros D1 c t HD H1 Hl [|fuel] Hf;
    try (simpl in Hf; lia); apply wp_loop_step, wp_bind;
    destruct (dl_rep_lookup _ _ _ _ _ HD) as (w & Hw & _ & Hlag & Hr);
    (eapply wp_wd_node; [done|]); rewrite fmap_app in Hl;
    pose proof (lseg_next _ _ _ _ w Hl Hw) as Hnx; cbn [hd_or fmap list_fmap fst] in Hnx;
    rewrite Hnx.
  - null_simpl. rewrite andb_false_r. apply wp_ret. split; [done|].
    exists D1, c, t, []. auto.
  - assert (c2 <> NULL) as Hc2.
    { intros ->. destruct (lseg_elem _ _ _ NULL Hl) as [? ?]; [csimpl; set_solver|congruence]. }
    rewrite is_null_ne, andb_true_r by done. destruct (Z.leb_spec t delay).
    + replace (D1 ++ (c, t) :: (c2, t2) :: D2) with ((D1 ++ [(c, t)]) ++ (c2, t2) :: D2) in *
        by by rewrite <- app_assoc.
      destruct (dl_rep_lookup _ _ _ _ _ HD) as (w2 & Hw2 & _ & Hlag2 & Hr2).
      apply wp_bind. eapply wp_wd_node; [done|]. apply wp_ret.
      rewrite fmap_app, last_or_app in Hlag2, Hr2. simpl in Hlag2, Hr2.
      replace (s32 (t + lag w2)) with t2
        by (rewrite s32_small; unfold INT32_MIN, INT32_MAX in *; lia).
      specialize (IH (D1 ++ [(c, t)]) c2 t2 HD).
      assert (last_or c2 (D1 ++ [(c, t)]).*1 = c) as Hlast by by rewrite fmap_app, last_or_app.
      rewrite Hlast in IH. apply IH; [by apply Forall_app; auto| |simpl in Hf; lia].
      rewrite !fmap_app, <- app_assoc. done.
    + apply wp_ret. split; [done|]. exists D1, c, t, ((c2, t2) :: D2). auto.
Qed.

(** The fields of a watchdog that the timer queue does not own. *)
Definition wview (w : wdog_s) : Z * call_t := (flags w, (func w, argc w, parm w)).

Lemma strip_view g g' p :
  sstrip <$> g' !! p = sstrip <$> g !! p -> wview <$> g' !! p = wview <$> g !! p.
Proof.
  destruct (g' !! p) as [[]|], (g !! p) as [[]|]; simpl; unfold sstrip, wview; simpl;
    try done. intros ?. by simplify_eq.
Qed.

Lemma active_in_view g g' l :
  (forall p, wview <$> g' !! p = wview <$> g !! p) -> active_in g l -> active_in g' l.
Proof.
  intros Hg Ha p w' Hw Hact. specialize (Hg p). rewrite Hw in Hg.
  destruct (g !! p) as [w|] eqn:E; [|done]. apply (Ha p w E).
  unfold WDOG_ISACTIVE, wview in *. simpl in Hg. injection Hg as Hfl _ _ _.
  by rewrite <- Hfl.
Qed.

Lemma call_of_view s s' p :
  wview <$> nodes (wmem s') !! p = wview <$> nodes (wmem s) !! p -> call_of s' p = call_of s p.
Proof.
  unfold call_of, wview. destruct (nodes (wmem s') !! p), (nodes (wmem s) !! p); simpl;
    try done. congruence.
Qed.

Lemma dl_rep_frame g g' x w' b D :
  (forall p, sstrip <$> g' !! p = sstrip <$> g !! p) -> x ∉ D.*1 ->
  dl_rep g b D -> dl_rep (<[x := w']> g') b D.
Proof. intros Hg Hx HD. apply dl_rep_insert; [done|]. eapply dl_rep_ext; eauto. Qed.

(** Linking [x] between [l1] and [l2]. *)
Lemma wp_insert_link s l1 c l2 x w F :
  wd_lists s (l1 ++ c :: l2) F -> nodes (wmem s) !! x = Some w ->
  x ∉ l1 ++ c :: l2 -> x ∉ F ->
  wp (if c =? hd_or NULL (l1 ++ c :: l2) then onq (SQ.sq_addfirst x g_wdactivelist)
      else onq (SQ.sq_addafter (last_or c l1) x g_wdactivelist))
     (fun _ s' => wd_lists s' (l1 ++ x :: c :: l2) F /\ calls s' = calls s /\
        forall p, sstrip <$> nodes (wmem s') !! p = sstrip <$> nodes (wmem s) !! p) s.
Proof.
  intros HL Hw Hx HF. pose proof HL as (HA & _ & Hdis & _). pose proof HA as (_ & Hnd & _).
  destruct l1 as [|a l1 _] using rev_ind.
  - cbn [hd_or app]. rewrite Z.eqb_refl. eapply wp_mono;
      [eapply (wp_active_op _ (fun _ => True) (x :: c :: l2) _ (x :: c :: l2) F); eauto|].
    + eapply wp_mono; [by eapply wp_sq_addfirst|]. naive_solver.
    + set_solver.
    + set_solver.
    + naive_solver.
  - rewrite last_or_app. cbn [last_or]. rewrite <- app_assoc in *. cbn [app] in *.
    rewrite (proj2 (Z.eqb_neq c _)); [|destruct l1; simpl; nodup_simpl; congruence].
    eapply wp_mono; [eapply (wp_active_op _ (fun _ => True) (x :: l1 ++ a :: c :: l2) _
                               (l1 ++ a :: x :: c :: l2) F); eauto|].
    + eapply wp_mono; [by eapply wp_sq_addafter|]. naive_solver.
    + set_solver.
    + set_solver.
    + intros ? s' (_ & ?). by rewrite <- app_assoc.
Qed.

Lemma wp_insert_last s l x w F :
  wd_lists s l F -> nodes (wmem s) !! x = Some w -> x ∉ l -> x ∉ F ->
  wp (onq (SQ.sq_addlast x g_wdactivelist))
     (fun _ s' => wd_lists s' (l ++ [x]) F /\ calls s' = calls s /\
        forall p, sstrip <$> nodes (wmem s') !! p = sstrip <$> nodes (wmem s) !! p) s.
Proof.
  intros HL Hw Hx HF. pose proof HL as (HA & _ & Hdis & _).
  eapply wp_mono; [eapply (wp_active_op _ (fun _ => True) (x :: l) _ (l ++ [x]) F); eauto|].
  - eapply wp_mono; [by eapply wp_sq_addlast|]. naive_solver.
  - set_solver.
  - set_solver.
  - naive_solver.
Qed.

(** The queue insertion puts the deadline where [dl_insert] puts it, and
    returns the lag to store. *)
Lemma wp_wd_insert s D F x w delay :
  wd_lists s D.*1 F -> dl_rep (nodes (wmem s)) 0 D ->
  nodes (wmem s) !! x = Some w -> x ∉ D.*1 -> x ∉ F -> 1 <= delay <= INT32_MAX ->
  wp (wd_insert x delay)
     (fun d s' => wd_lists s' (dl_insert x delay D).*1 F /\ calls s' = calls s /\
        (forall p, wview <$> nodes (wmem s') !! p = wview <$> nodes (wmem s) !! p) /\
        forall w', WDOG_ISACTIVE w' = true -> lag w' = d ->
          dl_rep (<[x := w']> (nodes (wmem s'))) 0 (dl_insert x delay D)) s.
Proof.
  intros HL HD Hw Hx HF Hdelay. pose proof HL as (HA & _). unfold wd_insert.
  remember (dl_insert x delay D) as R eqn:HR.
  apply wp_bind. eapply wp_wd_head; [done|]. destruct D as [|[p1 t1] D'].
  { subst R. null_simpl. apply wp_bind. eapply wp_mono; [by eapply wp_insert_last|].
    intros _ s' (? & ? & Hst). apply wp_ret. split_and!; auto using strip_view.
    intros w' Ha Hlag. simpl. split; [lia|]. split; [|done]. exists w'.
    rewrite lookup_insert_eq. split_and!; auto. lia. }
  pose proof (sq_rep_ne _ _ _ p1 HA ltac:(csimpl; set_solver)). csimpl. null_simpl.
  apply wp_bind. eapply wp_mono; [by eapply wp_advance_positive|]. intros r s' [-> ->].
  apply wp_bind. eapply wp_mono; [by apply (wp_advance_shorter s delay [] p1 t1 D')|].
  cbn [app]. intros r s' (-> & E1 & c & t & E2 & Heq & -> & HE1 & Hstop).
  rewrite Heq in *. clear Heq p1 t1 D' H.
  destruct (dl_rep_lookup _ _ _ _ _ HD) as (wc & Hwc & Hac & Hlag & Hr & Hmax).
  assert (last_or 0 E1.*2 <= delay) as Hb.
  { clear -HE1 Hdelay. destruct E1 as [|e E1 _] using rev_ind; [simpl; lia|].
    rewrite fmap_app, last_or_app. simpl. apply Forall_app in HE1 as [_ HE1].
    by inversion HE1. }
  rewrite dl_rep_app in HD. simpl in HD. destruct HD as (HD1 & _ & _ & HD2).
  rewrite fmap_app in *. csimpl. csimpl in Hx.
  assert (x <> c) as Hxc by set_solver.
  apply wp_bind. eapply wp_wd_node; [done|]. destruct (Z.ltb_spec delay t) as [Hlt|Hge].
  - cbv zeta. rewrite Hlag. set (b := last_or 0 E1.*2) in *.
    replace (s32 (t - (t - b))) with b by (rewrite s32_small; unfold INT32_MIN, INT32_MAX in *; lia).
    replace (s32 (delay - b)) with (delay - b)
      by (rewrite s32_small; unfold INT32_MIN, INT32_MAX in *; lia).
    replace (s32 (t - b - (delay - b))) with (t - delay)
      by (rewrite s32_small; unfold INT32_MIN, INT32_MAX in *; lia).
    apply wp_bind. eapply wp_wd_upd; [done|].
    match goal with |- wp _ _ ?S0 => set (s0 := S0) end.
    rewrite (dl_insert_split x delay E1 ((c, t) :: E2) HE1 Hlt) in HR. subst R.
    assert (wd_lists s0 (E1.*1 ++ c :: E2.*1) F) as HL0 by by eapply wd_lists_upd.
    apply wp_bind. eapply wp_wd_head; [apply HL0|]. apply wp_bind.
    eapply wp_mono; [eapply (wp_insert_link s0 E1.*1 c E2.*1 x w F); auto; simpl;
                     by rewrite lookup_insert_ne|].
    intros _ s' (HL' & Hc & Hst). apply wp_ret. rewrite fmap_app. split_and!; auto.
    + intros p. rewrite (strip_view _ _ p (Hst p)). simpl.
      by erewrite strip_insert.
    + intros w' Ha' Hlag'. rewrite dl_rep_app. split.
      { eapply dl_rep_frame; [exact Hst|set_solver|]. simpl. apply dl_rep_insert; [|done].
        destruct HL as ((_ & Hnd & _) & _). csimpl in Hnd. nodup_simpl. done. }
      simpl. split; [fold b; lia|]. split.
      { exists w'. rewrite lookup_insert_eq. fold b. auto. }
      split; [lia|]. split.
      { pose proof (Hst c) as Hc'. simpl in Hc'. rewrite lookup_insert_eq in Hc'.
        destruct (nodes (wmem s') !! c) as [wc'|] eqn:E; [|done]. exists wc'.
        rewrite lookup_insert_ne by done. split; [done|].
        destruct wc, wc'. unfold sstrip, set_lag, WDOG_ISACTIVE in *. simpl in *.
        by simplify_eq. }
      eapply dl_rep_frame; [exact Hst|set_solver|]. simpl. apply dl_rep_insert; [|done].
      destruct HL as ((_ & Hnd & _) & _). csimpl in Hnd. nodup_simpl. done.
  - assert (E2 = []) as -> by (destruct Hstop; [lia|done]).
    destruct HA as (_ & _ & _ & Hl). csimpl in Hl.
    rewrite (lseg_next _ _ _ _ wc Hl Hwc). cbn [hd_or]. null_simpl. cbv zeta.
    replace (s32 (delay - t)) with (delay - t)
      by (rewrite s32_small; unfold INT32_MIN, INT32_MAX in *; lia).
    apply wp_bind. eapply wp_mono; [by eapply wp_insert_last|].
    intros _ s' (HL' & Hc & Hst). apply wp_ret.
    replace R with ((E1 ++ [(c, t)]) ++ [(x, delay)]).
    2: { subst R. rewrite <- (app_nil_r (E1 ++ [(c, t)])) at 2. symmetry.
         apply dl_insert_split; [|done]. apply Forall_app. split; [done|]. by constructor. }
    rewrite !fmap_app. split_and!; auto using strip_view.
    intros w' Ha' Hlag'. rewrite dl_rep_app. split.
    + eapply dl_rep_frame; [exact Hst|rewrite fmap_app; set_solver|]. rewrite dl_rep_app.
      simpl. split; [done|]. split; [lia|]. split; [|done]. eauto.
    + simpl. rewrite fmap_app, last_or_app. simpl. split; [lia|]. split; [|done]. exists w'.
      rewrite lookup_insert_eq. auto.
Qed.

Lemma elem_of_dl_insert x t D p : p ∈ (dl_insert x t D).*1 <-> p = x \/ p ∈ D.*1.
Proof.
  induction D as [|[q u] D IH]; csimpl; [set_solver|].
  destruct (u <=? t); csimpl; [|set_solver]. rewrite !elem_of_cons, IH. naive_solver.
Qed.

Lemma Forall_dl_insert (P : ptr * Z -> Prop) x t D :
  P (x, t) -> Forall P D -> Forall P (dl_insert x t D).
Proof.
  intros Hx. induction 1 as [|[q u] D Hq HD IH]; csimpl; [by constructor|].
  destruct (u <=? t); by repeat constructor.
Qed.

Lemma dl_remove_notin x D : x ∉ D.*1 -> dl_remove x D = D.
Proof.
  unfold dl_remove. induction D as [|[p t] D IH]; csimpl; [done|]. intros Hx.
  rewrite filter_cons_True by set_solver. f_equal. set_solver.
Qed.

Lemma dl_remove_mid x t D1 D2 :
  NoDup (D1 ++ (x, t) :: D2).*1 -> dl_remove x (D1 ++ (x, t) :: D2) = D1 ++ D2.
Proof.
  rewrite fmap_app. csimpl. intros (? & ? & _)%NoDup_mid. unfold dl_remove.
  rewrite filter_app, filter_cons_False by naive_solver.
  f_equal; by apply dl_remove_notin.
Qed.

Lemma elem_of_dl_remove x D p : p ∈ (dl_remove x D).*1 <-> p <> x /\ p ∈ D.*1.
Proof.
  unfold dl_remove. induction D as [|[q u] D IH]; [set_solver|].
  rewrite filter_cons. simpl. case_decide; csimpl; rewrite ?elem_of_cons, IH; naive_solver.
Qed.

(** Membership in the active list is what the flag says. *)
Lemma wd_inv_active s D F p w :
  wd_inv s D F -> nodes (wmem s) !! p = Some w -> (p ∈ D.*1 <-> WDOG_ISACTIVE w = true).
Proof.
  intros (_ & _ & HD & _ & Hact & _) Hp. split; [|eauto].
  intros ([q t] & Hq & Hin)%list_elem_of_fmap. simpl in Hq. subst q.
  apply list_elem_of_split in Hin as (D1 & D2 & ->).
  destruct (dl_rep_lookup _ _ _ _ _ HD) as (? & ? & ? & _). by simplify_eq.
Qed.

Lemma wd_inv_intro s D F :
  wd_lists s D.*1 F -> dl_rep (nodes (wmem s)) 0 D -> Forall (fun x => 1 <= x.2) D ->
  active_in (nodes (wmem s)) D.*1 -> wd_inv s D F.
Proof. intros (? & ? & ? & ?) ???. by split_and!. Qed.

(** [wd_start] and [wd_delete] first stop the watchdog if it is active. *)
Lemma wp_stop s D F x w :
  wd_inv s D F -> nodes (wmem s) !! x = Some w ->
  wp (when (WDOG_ISACTIVE w) (wd_cancel x ;; ret tt))
     (fun _ s' => wd_inv s' (dl_remove x D) F /\ calls s' = calls s /\
                  (forall p, call_of s' p = call_of s p) /\ same_kind s s' x) s.
Proof.
  intros Hinv Hw. pose proof (wd_inv_active _ _ _ _ _ Hinv Hw) as Hact.
  destruct (WDOG_ISACTIVE w); unfold when.
  - assert (x ∈ D.*1) as ([q t] & Hq & Hin)%list_elem_of_fmap by tauto. simpl in Hq. subst q.
    apply list_elem_of_split in Hin as (D1 & D2 & ->).
    pose proof Hinv as ((_ & Hnd & _) & _). rewrite (dl_remove_mid _ _ _ _ Hnd).
    apply wp_bind. eapply wp_mono; [by eapply wp_wd_cancel|].
    intros r s' (_ & ?). by apply wp_ret.
  - apply wp_ret. rewrite dl_remove_notin by naive_solver. split_and!; auto.
    exists w, w. auto.
Qed.

Lemma wd_delay_range delay :
  0 <= delay <= INT32_MAX -> 1 <= wd_delay delay <= INT32_MAX.
Proof.
  unfold wd_delay, INT32_MAX. intros. destruct (Z.leb_spec delay 0); [lia|].
  destruct (decide (delay = INT32_MAX)) as [->|Hne]; [vm_compute; split; discriminate|].
  unfold INT32_MAX in *. rewrite s32_small by (unfold INT32_MIN, INT32_MAX; lia).
  destruct (Z.leb_spec (delay + 1) 0); lia.
Qed.

Lemma wp_wd_start s D F x w delay f ac ap ps :
  wd_inv s D F -> nodes (wmem s) !! x = Some w -> x ∉ F ->
  0 <= delay <= INT32_MAX -> ac <= CONFIG_MAX_WDOGPARMS ->
  set_parms (Z.to_nat ac) ap (parm w) = Some ps ->
  wp (wd_start x delay f ac ap)
     (fun r s' => r = OK /\ wd_inv s' (dl_insert x (wd_delay delay) (dl_remove x D)) F /\
        calls s' = calls s /\ call_of s' x = Some (f, u8 ac, ps) /\
        forall p, p <> x -> call_of s' p = call_of s p) s.
Proof.
  intros Hinv Hw HF Hdelay Hac Hps. pose proof (wd_delay_range _ Hdelay) as Hd.
  assert (x <> NULL) as Hx by (pose proof Hinv as ((HN & _) & _); congruence).
  unfold wd_start. rewrite is_null_ne by done.
  rewrite (proj2 (Z.ltb_ge _ ac)), (proj2 (Z.ltb_ge delay 0)) by lia. simpl.
  apply wp_bind. eapply wp_wd_node; [done|]. apply wp_bind.
  eapply wp_mono; [by eapply wp_stop|]. intros _ s1 (Hinv1 & Hc1 & Hcall1 & _).
  assert (exists w1, nodes (wmem s1) !! x = Some w1 /\ parm w1 = parm w) as (w1 & Hw1 & Hp1).
  { specialize (Hcall1 x). unfold call_of in Hcall1. rewrite Hw in Hcall1. simpl in Hcall1.
    destruct (nodes (wmem s1) !! x) as [w1|]; [|done]. simpl in Hcall1. simplify_eq. eauto. }
  assert (x ∉ (dl_remove x D).*1) as HxD by (rewrite elem_of_dl_remove; naive_solver).
  apply wp_bind. eapply wp_wd_node; [done|]. apply wp_bind.
  eapply wp_getso; [by rewrite Hp1|]. apply wp_bind. eapply wp_wd_upd; [done|].
  match goal with |- wp _ _ ?S0 => set (s2 := S0) end.
  pose proof (wd_inv_lists _ _ _ Hinv1) as HL1. destruct Hinv1 as (_ & _ & HD1 & Hpos & Ha1 & _).
  apply wp_bind. eapply wp_mono; [eapply (wp_wd_insert s2 (dl_remove x D) F x)|].
  - by apply wd_lists_insert.
  - by apply dl_rep_insert.
  - apply lookup_insert_eq.
  - done.
  - done.
  - done.
  - intros d s3 (HL3 & Hc3 & Hv3 & HD3).
    assert (exists w3, nodes (wmem s3) !! x = Some w3 /\
                       (func w3, argc w3, parm w3) = (f, u8 ac, ps)) as (w3 & Hw3 & Hcw3).
    { pose proof (Hv3 x) as Hv. simpl in Hv. rewrite lookup_insert_eq in Hv.
      destruct (nodes (wmem s3) !! x) as [w3|]; [|done]. exists w3. split; [done|].
      unfold wview in Hv. simpl in Hv. congruence. }
    apply wp_bind. eapply wp_wd_upd; [done|]. apply wp_bind.
    eapply wp_wd_upd; [apply lookup_insert_eq|]. simpl. rewrite insert_insert_eq.
    apply wp_ret. split; [done|]. split; [|split; [|split]].
    + apply wd_inv_intro; simpl.
      * eapply wd_lists_upd; [done|done|done].
      * apply HD3; [apply isactive_set|done].
      * by apply Forall_dl_insert; [simpl; lia|].
      * apply active_in_insert; [by intros; apply elem_of_dl_insert; left|].
        intros p w' Hp Hp'. apply elem_of_dl_insert. right.
        eapply (active_in_view (nodes (wmem s2))); [exact Hv3| |done|done].
        apply active_in_insert; [|done]. intros Ha. by apply (Ha1 x w1).
    + simpl. by rewrite Hc3.
    + unfold call_of. simpl. rewrite lookup_insert_eq. simpl. by rewrite Hcw3.
    + intros p Hp. rewrite <- Hcall1. transitivity (call_of s3 p).
      { unfold call_of. simpl. by rewrite lookup_insert_ne. }
      rewrite (call_of_view s2 s3 p (Hv3 p)). unfold call_of. simpl. by rewrite lookup_insert_ne.
Qed.

(** One expiration: the head is removed, marked inactive and its function
    is called; the watchdog behind it is due at the same tick. *)
Lemma wp_expire_head (callback : call_t -> M wdstate unit) s p D F w :
  (forall c s0, callback c s0 = Some (tt, s0)) ->
  wd_lists s ((p, 0) :: D).*1 F -> dl_rep (nodes (wmem s)) 0 ((p, 0) :: D) ->
  active_in (nodes (wmem s)) ((p, 0) :: D).*1 -> nodes (wmem s) !! p = Some w ->
  wp (wd_expire_head callback)
     (fun _ s' => wd_lists s' D.*1 F /\ dl_rep (nodes (wmem s')) 0 D /\
        active_in (nodes (wmem s')) D.*1 /\ calls s' = (func w, argc w, parm w) :: calls s /\
        size (nodes (wmem s')) = size (nodes (wmem s)) /\
        forall q, call_of s' q = call_of s q) s.
Proof.
  intros Hcb HL HD Hact Hw. pose proof HL as (HA & _ & Hdis & _). csimpl in Hdis.
  pose proof HA as (HN & Hnd & _ & _). csimpl in Hnd. apply NoDup_cons in Hnd as [HpD Hnd].
  assert (p <> NULL) as Hp by congruence.
  simpl in HD. destruct HD as (_ & (w0 & Hw0 & _ & Hlag) & HD). simplify_eq.
  rewrite Z.sub_diag in Hlag. apply wp_bind.
  eapply wp_mono; [eapply (wp_active_op _ (fun r => r = p) (p :: D.*1) _ D.*1 F); eauto|].
  { exact (wp_sq_remfirst (wmem s) g_wdactivelist (p :: D.*1) HA). }
  { set_solver. }
  { set_solver. }
  intros r s1 (-> & HL1 & Hc1 & Hst1).
  destruct (strip_lookup _ _ _ _ (eq_sym (Hst1 p)) Hw0) as (w1 & Hw1 & _ & Hl1 & Hcw1 & _).
  rewrite Hlag in Hl1.
  apply wp_bind. eapply wp_wd_node; [done|]. apply wp_bind. eapply wp_wd_head; [apply HL1|].
  apply wp_bind.
  assert (dl_rep (nodes (wmem s1)) 0 D) as HD1 by (eapply dl_rep_ext; [|exact HD]; auto).
  eapply (wp_mono _ (fun _ s2 => s2 = s1)).
  { destruct D as [|[p2 t2] D']; csimpl; [done|].
    destruct (dl_rep_lookup _ [] _ _ _ HD1) as (w2 & Hw2 & _ & Hlag2 & Hr2 & Hm2).
    destruct HL1 as ((HN1 & _) & _). rewrite is_null_ne by congruence. unfold when. simpl.
    eapply wp_wd_upd; [done|]. rewrite Hl1, Z.add_0_r. simpl in Hlag2, Hr2.
    rewrite s32_small by (unfold INT32_MIN, INT32_MAX in *; lia).
    rewrite insert_id; [by destruct s1 as [[] ? ?]|]. rewrite Hw2. by destruct w2. }
  intros _ s2 ->. apply wp_bind. eapply wp_wd_upd; [done|].
  unfold wd_invoke. apply wp_bind, wp_modify. unfold wp. rewrite Hcb.
  split; [|split; [|split; [|split; [|split]]]]; simpl.
  - apply wd_lists_insert; auto. csimpl in Hdis. set_solver.
  - by apply dl_rep_insert.
  - intros q w' [[<- <-]|[Hne Hq]]%lookup_insert_Some Hq'; [by rewrite isactive_clr in Hq'|].
    pose proof (active_in_ext _ _ _ Hst1 Hact q w' Hq Hq'). csimpl in *. set_solver.
  - by rewrite Hcw1, Hc1.
  - rewrite map_size_insert_Some by eauto. by eapply strip_size.
  - intros q. unfold call_of at 1. simpl. rewrite lookup_insert. case_decide; [subst q|].
    + unfold call_of. rewrite Hw0. simpl. by rewrite Hcw1.
    + apply (call_of_strip s s1 q (Hst1 q)).
Qed.

Lemma wp_expire_loop (callback : call_t -> M wdstate unit) D F fuel s :
  (forall c s0, callback c s0 = Some (tt, s0)) -> (length D < fuel)%nat ->
  wd_lists s D.*1 F -> dl_rep (nodes (wmem s)) 0 D -> active_in (nodes (wmem s)) D.*1 ->
  wp (loop fuel (fun _ : unit =>
       h <- onq (head g_wdactivelist) ;;
       if is_null h then ret (inr tt)
       else
         n <- wd_node h ;;
         if lag n <=? 0 then wd_expire_head callback ;; ret (inl tt)
         else ret (inr tt)) tt)
     (fun _ s' => wd_inv s' (filter (fun x => 1 <= x.2) D) F /\
        calls s' = rev (omap (call_of s) (filter (fun x => x.2 <= 0) D).*1) ++ calls s /\
        forall p, call_of s' p = call_of s p) s.
Proof.
  intros Hcb. revert s D. induction fuel as [|fuel IH]; intros s D Hfuel HL HD Hact; [lia|].
  apply wp_loop_step, wp_bind. eapply wp_wd_head; [apply HL|]. destruct D as [|[p t] D]; csimpl.
  { apply wp_ret. split_and!; [by apply wd_inv_intro|done|done]. }
  destruct (dl_rep_lookup _ [] _ _ _ HD) as (w & Hw & _ & Hlag & Hr & Hmax).
  pose proof HL as ((HN & _) & _). rewrite is_null_ne by congruence.
  simpl in Hlag, Hr. rewrite Z.sub_0_r in Hlag.
  apply wp_bind. eapply wp_wd_node; [done|]. rewrite Hlag. destruct (Z.leb_spec t 0) as [Ht|Ht].
  - assert (t = 0) as -> by lia. apply wp_bind. eapply wp_mono; [by apply (wp_expire_head _ s p D F w)|].
    intros _ s' (HL' & HD' & Ha' & Hc' & _ & Hcall'). apply wp_ret.
    eapply wp_mono; [apply (IH s' D); auto; simpl in Hfuel; lia|].
    intros _ s'' (Hinv & Hc & Hcall). split; [|split].
    + by rewrite filter_cons_False by (simpl; lia).
    + rewrite filter_cons_True by (simpl; lia). csimpl. unfold call_of at 1. rewrite Hw. simpl.
      rewrite Hc, Hc', <- app_assoc. f_equal. f_equal. apply list_omap_ext.
      apply Forall_Forall2_diag, Forall_forall. auto.
    + intros q. by rewrite Hcall.
  - apply wp_ret. assert (Forall (fun x => 1 <= x.2) ((p, t) :: D)) as Hall.
    { constructor; [simpl; lia|]. simpl in HD. destruct HD as (_ & _ & HD).
      apply dl_rep_mono in HD. eapply Forall_impl; [exact HD|]. simpl. lia. }
    rewrite (filter_all _ _ Hall), filter_none by (eapply Forall_impl; [exact Hall|simpl; lia]).
    split_and!; [by apply wd_inv_intro|done|done].
Qed.

(** The head's lag is the distance of all deadlines to now. *)
Lemma dl_rep_shift g p t w D :
  g !! p = Some w -> p ∉ D.*1 -> 1 <= t -> dl_rep g 0 ((p, t) :: D) ->
  dl_rep (<[p := set_lag (lag w - 1) w]> g) 0 ((fun x => (x.1, x.2 - 1)) <$> (p, t) :: D).
Proof.
  intros Hw Hp Ht (Hr & (w' & Hw' & Ha & Hlag) & HD).
  assert (w' = w) as -> by congruence. csimpl.
  split; [lia|]. split; [exists (set_lag (lag w - 1) w); rewrite lookup_insert_eq;
                         split_and!; simpl; auto; lia|].
  clear Hw' Hlag Ha Hr. revert t Ht HD.
  induction D as [|[q u] D IH]; intros t Ht HD; csimpl; [done|]. csimpl in Hp.
  destruct HD as (Hr & (wq & Hq & Haq & Hlq) & HD). split; [lia|]. split.
  - exists wq. rewrite lookup_insert_ne by set_solver. split_and!; auto. lia.
  - apply IH; [set_solver|lia|done].
Qed.

Lemma dl_pred_filter D :
  filter (fun x => 1 <= x.2) ((fun x => (x.1, x.2 - 1)) <$> D) = dl_tick D /\
  (filter (fun x => x.2 <= 0) ((fun x => (x.1, x.2 - 1)) <$> D)).*1 = (dl_expired D).*1.
Proof.
  unfold dl_tick, dl_expired. induction D as [|[p t] D [IH1 IH2]]; [done|]. csimpl.
  rewrite !filter_cons. simpl. split.
  - repeat case_decide; try lia; csimpl; by rewrite IH1.
  - repeat case_decide; try lia; csimpl; by rewrite IH2.
Qed.

(** One timer interrupt. *)
Lemma wp_wd_timer (callback : call_t -> M wdstate unit) s D F :
  (forall c s0, callback c s0 = Some (tt, s0)) -> wd_inv s D F ->
  wp (wd_timer callback)
     (fun _ s' => wd_inv s' (dl_tick D) F /\
        calls s' = rev (omap (call_of s) (dl_expired D).*1) ++ calls s /\
        forall p, call_of s' p = call_of s p) s.
Proof.
  intros Hcb Hinv. pose proof (wd_inv_lists _ _ _ Hinv) as HL.
  pose proof Hinv as (HA & _ & HD & Hpos & Hact & _). unfold wd_timer. apply wp_bind.
  eapply wp_wd_head; [done|]. destruct D as [|[p t] D]; csimpl; [by apply wp_ret|].
  pose proof HA as (HN & Hnd & _ & _). csimpl in Hnd. apply NoDup_cons in Hnd as [Hp Hnd].
  destruct (dl_rep_lookup _ [] _ _ _ HD) as (w & Hw & Ha & Hlag & Hr & Hmax).
  simpl in Hlag, Hr. apply Forall_cons in Hpos as [Ht Hpos]. simpl in Ht.
  rewrite is_null_ne by congruence. unfold when. simpl. apply wp_bind.
  eapply wp_wd_upd; [done|]. rewrite s32_small by (unfold INT32_MIN, INT32_MAX in *; lia).
  match goal with |- wp _ _ ?S0 => set (s1 := S0) end.
  set (D1 := (fun x : ptr * Z => (x.1, x.2 - 1)) <$> (p, t) :: D).
  assert (D1.*1 = ((p, t) :: D).*1) as HD1 by (unfold D1; by rewrite <- list_fmap_compose).
  assert (wd_lists s1 D1.*1 F) as HL1 by (rewrite HD1; by eapply wd_lists_upd).
  assert (dl_rep (nodes (wmem s1)) 0 D1) as HDr by by apply dl_rep_shift.
  assert (active_in (nodes (wmem s1)) D1.*1) as Ha1.
  { rewrite HD1. apply active_in_insert; [intros; csimpl; set_solver|done]. }
  assert (forall q, call_of s1 q = call_of s q) as Hcall1.
  { intros q. apply call_of_view. simpl. by erewrite strip_insert. }
  destruct (dl_pred_filter ((p, t) :: D)) as [<- <-]. fold D1.
  rewrite <- (list_omap_ext (call_of s1) _ _ _ (Forall_Forall2_diag _ _
                (Forall_true _ _ Hcall1))).
  unfold wd_expiration. apply wp_bind. eapply wp_wd_head; [apply HL1|]. rewrite HD1. csimpl.
  apply wp_bind. eapply wp_wd_node; [simpl; apply lookup_insert_eq|]. simpl.
  destruct (Z.leb_spec (lag w - 1) 0) as [Hl|Hl].
  - apply wp_with_wdfuel. eapply wp_mono; [apply (wp_expire_loop _ D1 F); auto|].
    + destruct HL1 as ((_ & Hnd1 & _ & Hl1) & _). apply lseg_length in Hl1; [|done].
      by rewrite length_fmap in Hl1.
    + intros _ s' (? & ? & Hcall). split_and!; auto. intros q. by rewrite Hcall.
  - apply wp_ret. assert (Forall (fun x => 1 <= x.2) D1) as Hall.
    { unfold D1. csimpl. constructor; [simpl; lia|]. apply Forall_fmap.
      simpl in HD. destruct HD as (_ & _ & HD). apply dl_rep_mono in HD.
      eapply Forall_impl; [exact HD|]. simpl. lia. }
    rewrite (filter_all _ _ Hall), filter_none by (eapply Forall_impl; [exact Hall|simpl; lia]).
    split_and!; [by apply wd_inv_intro|done|done].
Qed.

Lemma wp_wd_gettime s D1 x t D2 F :
  wd_inv s (D1 ++ (x, t) :: D2) F -> wp (wd_gettime x) (fun r s' => r = t /\ s' = s) s.
Proof.
  intros (HA & _ & HD & _). pose proof HA as (HN & Hnd & _ & Hl).
  destruct (dl_rep_lookup _ _ _ _ _ HD) as (w & Hw & Ha & _ & Hr & Hmax).
  unfold wd_gettime. rewrite is_null_ne by congruence. apply wp_bind.
  eapply wp_wd_node; [done|]. rewrite Ha. apply wp_bind. eapply wp_wd_head; [done|].
  apply wp_with_wdfuel. pose proof (lseg_length _ _ _ Hnd Hl) as Hfuel. revert Hfuel.
  match goal with |- context [loop _ ?b _] => set (body := b) end.
  enough (forall fuel E1 E2, D1 = E1 ++ E2 -> (length (E2 ++ (x, t) :: D2) < fuel)%nat ->
    wp (loop fuel body (hd_or NULL (E2 ++ (x, t) :: D2).*1, last_or 0 E1.*2))
       (fun r s' => r = t /\ s' = s) s) as Hloop.
  { intros Hfuel. apply (Hloop _ [] D1); [done|]. by rewrite length_fmap in Hfuel. }
  clear HA Ha. induction fuel as [|fuel IH]; intros E1 E2 HE Hf; [lia|].
  apply wp_loop_step. unfold body at 1. destruct E2 as [|[p u] E2]; csimpl.
  - rewrite app_nil_r in HE. subst E1. rewrite is_null_ne by congruence. apply wp_bind.
    eapply wp_wd_node; [done|]. cbv zeta. rewrite Z.eqb_refl. apply wp_ret. split; [|done].
    destruct (dl_rep_lookup _ _ _ _ _ HD) as (w' & Hw' & _ & Hlag & Hr' & _).
    assert (w' = w) as -> by congruence. rewrite Hlag, s32_small; unfold INT32_MIN, INT32_MAX in *; lia.
  - subst D1. rewrite <- app_assoc in HD, Hnd. cbn [app] in HD, Hnd.
    destruct (dl_rep_lookup _ _ _ _ _ HD) as (w' & Hw' & _ & Hlag & Hr' & Hm').
    rewrite is_null_ne by congruence. apply wp_bind. eapply wp_wd_node; [done|]. cbv zeta.
    rewrite (proj2 (Z.eqb_neq p x)).
    2: { rewrite fmap_app in Hnd. csimpl in Hnd. apply NoDup_mid in Hnd as (_ & Hp & _).
         rewrite fmap_app in Hp. csimpl in Hp. set_solver. }
    apply wp_ret. rewrite Hlag.
    replace (s32 (last_or 0 E1.*2 + (u - last_or 0 E1.*2))) with u
      by (rewrite s32_small; unfold INT32_MIN, INT32_MAX in *; lia).
    replace u with (last_or 0 (E1 ++ [(p, u)]).*2) by by rewrite fmap_app, last_or_app.
    replace (next w') with (hd_or NULL (E2 ++ (x, t) :: D2).*1).
    + apply IH; [by rewrite <- app_assoc|simpl in Hf; lia].
    + symmetry. eapply (lseg_next _ E1.*1 p); [|done].
      rewrite <- app_assoc, fmap_app in Hl. exact Hl.
Qed.

Lemma wp_wd_gettime_inactive s x w :
  nodes (wmem s) !! x = Some w -> WDOG_ISACTIVE w = false ->
  wp (wd_gettime x) (fun r s' => r = 0 /\ s' = s) s.
Proof.
  intros Hw Ha. unfold wd_gettime. destruct (is_null x); [done|]. apply wp_bind.
  eapply wp_wd_node; [done|]. by rewrite Ha.
Qed.

(** The pre-allocated timers. *)
Definition wd_pool : list ptr := g_wdpool <$> seq 0 CONFIG_PREALLOC_WDOGS.

Lemma wd_inv_free s D F p w :
  wd_inv s D F -> p ∈ F -> nodes (wmem s) !! p = Some w -> WDOG_ISACTIVE w = false.
Proof.
  intros Hinv Hp Hw. pose proof (wd_inv_active _ _ _ _ _ Hinv Hw) as Ha.
  destruct Hinv as (_ & _ & _ & _ & _ & Hdis & _). apply not_true_is_false. naive_solver.
Qed.

(** A list operation on the free list, seen from the watchdog data. *)
Lemma wp_free_op {A} (c : M (qmem wdog_s) A) (P : A -> Prop) T D F F' s :
  wd_inv s D F ->
  wp c (fun r m' => P r /\ sq_rep m' g_wdfreelist F' /\
                    frame sstrip [g_wdfreelist] T (wmem s) m') (wmem s) ->
  (forall p, p ∈ T -> p ∉ D.*1) -> (forall p, p ∈ F' -> p ∉ D.*1) ->
  wp (onq c) (fun r s' => P r /\ calls s' = calls s /\ g_wdnfree s' = g_wdnfree s /\
     wd_inv (mkwd (wmem s') (Z.of_nat (length F')) (calls s')) D F' /\
     (forall p, p ∉ T -> nodes (wmem s') !! p = nodes (wmem s) !! p) /\
     forall p, sstrip <$> nodes (wmem s') !! p = sstrip <$> nodes (wmem s) !! p) s.
Proof.
  intros (HA & HF & HD & Hpos & Hact & Hdis & Hn) Hc HT HL. apply wp_onq.
  eapply wp_mono; [exact Hc|]. intros r m' (HP & HF' & Hf).
  pose proof Hf as (Hf1 & _ & Hf3). simpl. repeat (split; [done|]).
  split; [|split; [exact Hf1|exact Hf3]]. apply wd_inv_intro; simpl; auto.
  - split_and!; simpl; auto. eapply sq_rep_frame; eauto; set_solver.
  - eapply dl_rep_ext; [|exact HD]. auto.
  - eapply active_in_ext; [exact Hf3|exact Hact].
Qed.

(** Changing the flags and link of a structure that is in no list. *)
Lemma wd_inv_upd s D F p w :
  wd_inv s D F -> p <> NULL -> p ∉ D.*1 -> p ∉ F -> WDOG_ISACTIVE w = false ->
  wd_inv (mkwd (mkqmem (<[p := w]> (nodes (wmem s))) (queues (wmem s)))
               (g_wdnfree s) (calls s)) D F.
Proof.
  intros Hinv Hp HD HF Ha. pose proof (wd_inv_lists _ _ _ Hinv) as HL.
  destruct Hinv as (_ & _ & HDr & Hpos & Hact & _). apply wd_inv_intro; simpl; auto.
  - by apply wd_lists_insert.
  - by apply dl_rep_insert.
  - apply active_in_insert; [congruence|done].
Qed.

(** Creation from the pool. *)
Lemma wp_wd_create_pool s D F intr blk :
  wd_inv s D F -> (length F <= CONFIG_PREALLOC_WDOGS)%nat ->
  (CONFIG_WDOG_INTRESERVE <? Z.of_nat (length F)) || intr = true ->
  wp (wd_create intr blk)
     (fun r s' => r = hd_or NULL F /\ wd_inv s' D (List.tl F) /\ calls s' = calls s /\
        (F <> [] -> exists w, nodes (wmem s') !! r = Some w /\ next w = NULL /\ flags w = 0)) s.
Proof.
  intros Hinv Hlen Hg. pose proof Hinv as (_ & HF & _ & _ & _ & Hdis & Hn).
  unfold wd_create. apply wp_bind, wp_gets. rewrite Hn, Hg. apply wp_bind.
  eapply wp_mono; [eapply (wp_free_op _ (fun r => r = hd_or NULL F) F D F (List.tl F)); eauto|].
  { exact (wp_sq_remfirst (wmem s) g_wdfreelist F HF). }
  { destruct F; set_solver. }
  intros r s' (-> & Hc & Hn' & Hinv' & _ & Hst). destruct F as [|p F]; simpl in *.
  { null_simpl. apply wp_bind. apply wp_bind, wp_gets. apply wp_assert; [by rewrite Hn', Hn|].
    apply wp_ret. rewrite Hn in Hn'. destruct s'. simpl in *. subst. split_and!; auto. done. }
  assert (p <> NULL) as Hp by (apply (sq_rep_ne _ _ _ _ HF); set_solver).
  destruct (sq_rep_elem _ _ _ p HF ltac:(set_solver)) as [w0 Hw0].
  destruct (strip_lookup _ _ _ _ (eq_sym (Hst p)) Hw0) as (w & Hw & _).
  null_simpl. apply wp_bind. apply wp_bind, wp_gets. apply wp_bind, wp_assert.
  { rewrite Hn', Hn. apply Z.ltb_lt. lia. }
  apply wp_bind, wp_modify. eapply wp_wd_upd; [done|]. apply wp_ret. simpl.
  split; [done|]. split; [|split; [done|]].
  - rewrite Hn', Hn. replace (u16 (Z.of_nat (S (length F)) - 1)) with (Z.of_nat (length F)).
    2: { unfold CONFIG_PREALLOC_WDOGS in Hlen. rewrite wrapu_small; lia. }
    apply (wd_inv_upd _ _ _ p (set_flags 0 (set_next NULL w)) Hinv'); auto; [set_solver|].
    pose proof HF as (_ & Hnd & _). by apply NoDup_cons in Hnd as [? _].
  - intros _. eexists. by rewrite lookup_insert_eq.
Qed.

(** Creation from the kernel heap. *)
Lemma wp_wd_create_heap s D F blk :
  wd_inv s D F ->
  (CONFIG_WDOG_INTRESERVE <? Z.of_nat (length F)) = false ->
  match blk with Some (p, _) => p <> NULL /\ nodes (wmem s) !! p = None | None => True end ->
  wp (wd_create false blk)
     (fun r s' => wd_inv s' D F /\ calls s' = calls s /\
        match blk with
        | Some (p, _) => r = p /\ exists w, nodes (wmem s') !! p = Some w /\
                                           next w = NULL /\ flags w = WDOGF_ALLOCED
        | None => r = NULL /\ s' = s
        end) s.
Proof.
  intros Hinv Hg Hb. pose proof Hinv as (HA & HF & _ & _ & _ & _ & Hn).
  unfold wd_create. apply wp_bind, wp_gets. rewrite Hn, Hg. simpl.
  destruct blk as [[p garbage]|]; [|by apply wp_ret]. destruct Hb as [Hp Hfresh].
  apply wp_bind, wp_modify, wp_ret. split; [|split; [done|split; [done|]]].
  - apply (wd_inv_upd s D F p (set_flags WDOGF_ALLOCED (set_next NULL garbage))); auto.
    + intros Hin. destruct (sq_rep_elem _ _ _ _ HA Hin). congruence.
    + intros Hin. destruct (sq_rep_elem _ _ _ _ HF Hin). congruence.
  - simpl. rewrite lookup_insert_eq. eauto.
Qed.

Lemma sq_rep_delete (m : qmem wdog_s) q l p :
  p ∉ l -> sq_rep m q l -> sq_rep (mkqmem (delete p (nodes m)) (queues m)) q l.
Proof.
  intros Hp (HN & ? & ? & Hl). split_and!; simpl; auto.
  - rewrite lookup_delete. by case_decide.
  - eapply lseg_ext; [|exact Hl]. intros q' Hq'. apply lookup_delete_ne. set_solver.
Qed.

Lemma wd_inv_delete s D F p :
  wd_inv s D F -> p ∉ D.*1 -> p ∉ F ->
  wd_inv (mkwd (mkqmem (delete p (nodes (wmem s))) (queues (wmem s))) (g_wdnfree s) (calls s)) D F.
Proof.
  intros (HA & HF & HD & Hpos & Hact & Hdis & Hn) HpD HpF.
  split_and!; simpl; auto using sq_rep_delete.
  - eapply dl_rep_ext; [|exact HD]. intros q Hq. rewrite lookup_delete_ne by set_solver. done.
  - intros q w [? ?]%lookup_delete_Some. eauto.
Qed.

(** The lists after [wd_delete] of a watchdog stored as [w]. *)
Definition free_after (x : ptr) (w : wdog_s) F : list ptr :=
  if WDOG_ISALLOCED w then F else if WDOG_ISSTATIC w then F else F ++ [x].

Lemma wp_wd_delete s D F x w :
  wd_inv s D F -> nodes (wmem s) !! x = Some w -> x ∉ F ->
  (length (free_after x w F) <= CONFIG_PREALLOC_WDOGS)%nat ->
  wp (wd_delete x)
     (fun r s' => r = OK /\ wd_inv s' (dl_remove x D) (free_after x w F) /\
                  calls s' = calls s) s.
Proof.
  intros Hinv Hw HxF Hlen. assert (x <> NULL) as Hx by (pose proof Hinv as ((HN & _) & _); congruence).
  unfold wd_delete. apply wp_bind, wp_assert; [by rewrite is_null_ne|]. apply wp_bind.
  eapply wp_wd_node; [done|]. apply wp_bind. eapply wp_mono; [by eapply wp_stop|].
  intros _ s1 (Hinv1 & Hc1 & _ & (w0 & w1 & Hw0 & Hw1 & Ha1 & Hs1)).
  assert (w0 = w) as -> by congruence.
  assert (x ∉ (dl_remove x D).*1) as HxD by (rewrite elem_of_dl_remove; naive_solver).
  apply wp_bind. eapply wp_wd_node; [done|]. apply wp_bind. unfold free_after in *. rewrite Ha1, Hs1.
  destruct (WDOG_ISALLOCED w); [|destruct (WDOG_ISSTATIC w)]; cbn [negb].
  - apply wp_modify, wp_ret. split_and!; auto. by apply wd_inv_delete.
  - apply wp_ret, wp_ret. auto.
  - pose proof Hinv1 as (_ & HF & _ & _ & _ & Hdis & Hn). apply wp_bind.
    eapply wp_mono; [eapply (wp_free_op _ (fun _ => True) (x :: F) _ F (F ++ [x])); eauto|].
    { eapply wp_mono; [by eapply wp_sq_addlast|]. intros ? ? [? ?]. auto. }
    { set_solver. }
    { set_solver. }
    intros _ s2 (_ & Hc2 & Hn2 & Hinv2 & _). rewrite length_app in *. simpl in Hlen.
    unfold CONFIG_PREALLOC_WDOGS in *.
    assert (u16 (g_wdnfree s2 + 1) = Z.of_nat (length F + length [x])) as Hu.
    { rewrite Hn2, Hn, wrapu_small; simpl; lia. }
    apply wp_bind, wp_modify, wp_bind, wp_gets, wp_assert; [simpl; rewrite Hu; apply Z.leb_le; simpl; lia|].
    apply wp_ret. simpl. rewrite Hu. split_and!; auto. congruence.
Qed.

(** The pool is on the free list after initialization. *)
Lemma wp_wd_fill n i s F :
  sq_rep (wmem s) g_wdfreelist F ->
  (forall j, (i <= j < i + n)%nat -> g_wdpool j ∉ F /\ is_Some (nodes (wmem s) !! g_wdpool j)) ->
  wp (wd_fill n i)
     (fun _ s' => sq_rep (wmem s') g_wdfreelist (F ++ (g_wdpool <$> seq i n)) /\
        calls s' = calls s /\ (forall q, q <> g_wdfreelist -> queues (wmem s') !! q = queues (wmem s) !! q) /\
        forall p, sstrip <$> nodes (wmem s') !! p = sstrip <$> nodes (wmem s) !! p) s.
Proof.
  revert i s F. induction n as [|n IH]; intros i s F HF Hp.
  { apply wp_ret. csimpl. rewrite app_nil_r. auto. }
  destruct (Hp i ltac:(lia)) as [Hi [w Hw]]. apply wp_bind, wp_onq.
  eapply wp_mono; [by eapply wp_sq_addlast|]. intros _ m' [HF' Hf].
  eapply wp_mono; [apply (IH (S i) _ (F ++ [g_wdpool i])); [exact HF'|]|].
  - intros j Hj. destruct (Hp j ltac:(lia)) as [Hj1 Hj2]. split.
    + rewrite not_elem_of_app. split; [done|]. unfold g_wdpool. rewrite list_elem_of_singleton. lia.
    + simpl. by rewrite (frame_dom _ _ _ _ _ _ Hf).
  - intros _ s' (H1 & H2 & H3 & H4). csimpl. rewrite <- app_assoc in H1.
    destruct Hf as (_ & Hq & Hst). split_and!; auto.
    + intros q Hq'. rewrite H3 by done. apply Hq. set_solver.
    + intros p. by rewrite H4.
Qed.

Lemma wp_wd_initialize s :
  nodes (wmem s) !! NULL = None ->
  (forall p w, nodes (wmem s) !! p = Some w -> flags w = 0) ->
  (forall p, p ∈ wd_pool -> is_Some (nodes (wmem s) !! p)) ->
  is_Some (queues (wmem s) !! g_wdactivelist) -> is_Some (queues (wmem s) !! g_wdfreelist) ->
  wp wd_initialize (fun _ s' => wd_inv s' [] wd_pool /\ calls s' = calls s) s.
Proof.
  intros HN Hz Hpool [qa Hqa] [qf Hqf]. unfold wd_initialize. apply wp_bind, wp_onq.
  unfold q_init. qrun. apply wp_onq. cbn [wmem]. qrun.
  eapply wp_mono; [apply (wp_wd_fill _ _ _ [])|].
  - split_and!; simpl; auto; [apply NoDup_nil_2|look].
  - intros j Hj. split; [set_solver|]. apply Hpool. apply list_elem_of_fmap. exists j.
    split; [done|]. apply elem_of_seq. lia.
  - intros _ s' (HF & Hc & Hq & Hst). apply wp_modify. cbn [app] in HF. split; [|done].
    pose proof HF as (HN' & _). apply wd_inv_intro; [|done|by constructor|].
    + split_and!; [|exact HF|set_solver|done].
      split; [done|]. split; [apply NoDup_nil_2|]. split; [|done]. cbn [wmem].
      rewrite Hq by done. cbn [wmem queues]. by rewrite lookup_insert_eq.
    + intros p w' Hp Ha. destruct (strip_lookup _ _ p w' (Hst p) Hp) as (w & Hw & _ & _ & _ & Hfl).
      unfold WDOG_ISACTIVE in Ha. by rewrite <- Hfl, (Hz p w Hw) in Ha.
Qed.

(** [n] timer interrupts in a row. *)
Fixpoint wd_ticks (callback : call_t -> M wdstate unit) (n : nat) : M wdstate unit :=
  match n with
  | O => ret tt
  | S n' => wd_timer callback ;; wd_ticks callback n'
  end.

(** What is due within [n] ticks, and what is left after them. *)
Definition dl_due (n : Z) D : deadlines := filter (fun x => x.2 <= n) D.
Definition dl_after (n : Z) D : deadlines :=
  (fun x => (x.1, x.2 - n)) <$> filter (fun x => n < x.2) D.

Lemma dl_after_tick n D : 0 <= n -> dl_after n (dl_tick D) = dl_after (n + 1) D.
Proof.
  intros Hn. unfold dl_after, dl_tick. induction D as [|[p t] D IH]; [done|].
  rewrite !(filter_cons _ (p, t)). simpl. repeat case_decide; csimpl; try lia; rewrite ?filter_cons;
    simpl; repeat case_decide; csimpl; try lia; rewrite ?IH; try done.
  do 2 f_equal. lia.
Qed.

(** In a list of deadlines, what expires first comes first. *)
Lemma dl_due_tick g b n D :
  0 <= n -> dl_rep g b D -> (dl_expired D).*1 ++ (dl_due n (dl_tick D)).*1 = (dl_due (n + 1) D).*1.
Proof.
  intros Hn. unfold dl_due, dl_tick, dl_expired. revert b.
  induction D as [|[p t] D IH]; intros b; [done|]. intros (_ & _ & HD).
  rewrite !(filter_cons _ (p, t)). simpl. destruct (decide (t <= 1)) as [Ht|Ht].
  - rewrite (decide_False (P := 1 < t)), (decide_True (P := t <= n + 1)) by lia. csimpl.
    f_equal. eauto.
  - assert (Forall (fun x => ~ x.2 <= 1) D) as Hno.
    { eapply Forall_impl; [by eapply dl_rep_mono|]. simpl. lia. }
    specialize (IH _ HD). rewrite (filter_none _ _ Hno) in *. csimpl in IH.
    rewrite (decide_True (P := 1 < t)) by lia. csimpl. rewrite filter_cons. simpl.
    repeat case_decide; try lia; csimpl; by rewrite IH.
Qed.

Lemma wp_wd_ticks (callback : call_t -> M wdstate unit) n s D F :
  (forall c s0, callback c s0 = Some (tt, s0)) -> wd_inv s D F ->
  wp (wd_ticks callback n)
     (fun _ s' => wd_inv s' (dl_after (Z.of_nat n) D) F /\
        calls s' = rev (omap (call_of s) (dl_due (Z.of_nat n) D).*1) ++ calls s /\
        forall p, call_of s' p = call_of s p) s.
Proof.
  intros Hcb. revert s D. induction n as [|n IH]; intros s D Hinv.
  { apply wp_ret. pose proof Hinv as (_ & _ & _ & Hpos & _). unfold dl_after, dl_due.
    rewrite (filter_all (fun x => Z.of_nat 0 < x.2)), filter_none
      by (eapply Forall_impl; [exact Hpos|simpl; lia]).
    split_and!; [|done|done]. replace (_ <$> D) with D; [done|].
    rewrite <- (list_fmap_id D) at 1. apply list_fmap_ext. intros i [p t] _. simpl. f_equal. lia. }
  apply wp_bind. eapply wp_mono; [by eapply wp_wd_timer|]. intros _ s1 (Hinv1 & Hc1 & Hcall1).
  eapply wp_mono; [by apply IH|]. intros _ s2 (Hinv2 & Hc2 & Hcall2). split_and!.
  - rewrite dl_after_tick in Hinv2 by lia. replace (Z.of_nat (S n)) with (Z.of_nat n + 1) by lia. done.
  - rewrite Hc2, Hc1. pose proof Hinv as (_ & _ & HD & _).
    replace (Z.of_nat (S n)) with (Z.of_nat n + 1) by lia.
    rewrite <- (dl_due_tick _ _ (Z.of_nat n) D ltac:(lia) HD), omap_app, rev_app_distr, <- app_assoc.
    do 2 f_equal. apply list_omap_ext, Forall_Forall2_diag, Forall_true. auto.
  - intros p. by rewrite Hcall2.
Qed.
End WdLemmas.

(** * Theorems *)


(** [wd_start] on valid arguments succeeds.  It puts the watchdog in the
    active list with its deadline, after every watchdog that expires no later
    (stopping it first if it was running), moves no other deadline although
    it stores relative lags, records function and parameters, and no 32-bit
    computation on the way overflows. *)
Theorem wd_start_schedules s D F x w delay f ac ap ps :
  wd_inv s D F -> nodes (wmem s) !! x = Some w -> x ∉ F ->
  0 <= delay <= INT32_MAX -> ac <= CONFIG_MAX_WDOGPARMS ->
  set_parms (Z.to_nat ac) ap (parm w) = Some ps ->
  wp (wd_start x delay f ac ap)
     (fun r s' => r = OK /\ wd_inv s' (dl_insert x (wd_delay delay) (dl_remove x D)) F /\
        calls s' = calls s /\ call_of s' x = Some (f, u8 ac, ps) /\
        forall p, p <> x -> call_of s' p = call_of s p) s.
Proof. apply wp_wd_start. Qed.

(** [wd_start] and [wd_cancel] refuse invalid arguments with -EINVAL and
    leave the watchdog data as it was: a null watchdog, too many parameters, a
    negative delay; cancelling a watchdog that is not active. *)
Theorem wd_invalid_args s x delay f ac ap :
  (x = NULL \/ CONFIG_MAX_WDOGPARMS < ac \/ delay < 0 ->
   wd_start x delay f ac ap s = Some (- EINVAL, s)) /\
  (x = NULL \/ (exists w, nodes (wmem s) !! x = Some w /\ WDOG_ISACTIVE w = false) ->
   wd_cancel x s = Some (- EINVAL, s)).
Proof.
  split.
  - intros Hbad. unfold wd_start, is_null.
    destruct (Z.eqb_spec x NULL); [done|].
    destruct (Z.ltb_spec CONFIG_MAX_WDOGPARMS ac); [done|].
    destruct (Z.ltb_spec delay 0); [done|]. lia.
  - intros [->|(w & Hw & Ha)]; [done|]. unfold wd_cancel. destruct (is_null x); [done|].
    unfold wd_node, onq, node, getso, bind. rewrite Hw. simpl. rewrite Ha. by destruct s.
Qed.

(** [wd_cancel] on an active watchdog returns OK, takes exactly that
    watchdog out of the list and makes no call; the deadlines of all others
    are unchanged because the next one inherits the remaining ticks. *)
Theorem wd_cancel_removes s D1 x t D2 F :
  wd_inv s (D1 ++ (x, t) :: D2) F ->
  wp (wd_cancel x)
     (fun r s' => r = OK /\ wd_inv s' (D1 ++ D2) F /\ calls s' = calls s /\
                  forall p, call_of s' p = call_of s p) s.
Proof. intros H. eapply wp_mono; [by eapply wp_wd_cancel|]. naive_solver. Qed.

(** [wd_gettime] returns the ticks left until the watchdog expires, and 0
    for a watchdog that is not active. *)
Theorem wd_gettime_remaining s D F x w :
  wd_inv s D F -> nodes (wmem s) !! x = Some w ->
  wp (wd_gettime x)
     (fun r s' => s' = s /\ match list_find (fun y => y.1 = x) D with
                            | Some (_, (_, t)) => r = t
                            | None => r = 0
                            end) s.
Proof.
  intros Hinv Hw. pose proof (wd_inv_active _ _ _ _ _ Hinv Hw) as Hact.
  destruct (list_find _ D) as [[i [y t]]|] eqn:E.
  - apply list_find_Some in E as (Hi & Hy & _). simpl in Hy. subst y.
    apply take_drop_middle in Hi. rewrite <- Hi in Hinv.
    eapply wp_mono; [by eapply wp_wd_gettime|]. naive_solver.
  - eapply wp_mono; [eapply wp_wd_gettime_inactive; [done|]|naive_solver].
    apply not_true_is_false. intros Ha. apply Hact, list_elem_of_fmap in Ha as ([y t] & Hy & Hin).
    simpl in Hy. subst y. apply list_find_None in E. rewrite Forall_forall in E. by apply (E _ Hin).
Qed.

(** The pool of pre-allocated timers.  [wd_initialize] puts all of them on
    the free list and starts with no active watchdog; [wd_create] hands out the
    first free one, inactive, while more than the reserve is left or in an
    interrupt handler; [wd_delete] stops the watchdog and gives a pool timer
    back.  The count of free timers always equals the length of the list. *)
Theorem wd_pool_lifecycle s D F x w intr blk :
  (nodes (wmem s) !! NULL = None ->
   (forall p w, nodes (wmem s) !! p = Some w -> flags w = 0) ->
   (forall p, p ∈ wd_pool -> is_Some (nodes (wmem s) !! p)) ->
   is_Some (queues (wmem s) !! g_wdactivelist) -> is_Some (queues (wmem s) !! g_wdfreelist) ->
   wp wd_initialize (fun _ s' => wd_inv s' [] wd_pool /\ calls s' = calls s) s) /\
  (wd_inv s D F -> (length F <= CONFIG_PREALLOC_WDOGS)%nat ->
   (CONFIG_WDOG_INTRESERVE <? Z.of_nat (length F)) || intr = true ->
   wp (wd_create intr blk)
     (fun r s' => r = hd_or NULL F /\ wd_inv s' D (List.tl F) /\ calls s' = calls s /\
        (F <> [] -> exists w, nodes (wmem s') !! r = Some w /\ next w = NULL /\ flags w = 0)) s) /\
  (wd_inv s D F -> nodes (wmem s) !! x = Some w -> x ∉ F ->
   (length (free_after x w F) <= CONFIG_PREALLOC_WDOGS)%nat ->
   wp (wd_delete x)
     (fun r s' => r = OK /\ wd_inv s' (dl_remove x D) (free_after x w F) /\
                  calls s' = calls s) s).
Proof.
  split; [|split].
  - apply wp_wd_initialize.
  - apply wp_wd_create_pool.
  - apply wp_wd_delete.
Qed.

(** ** Witnesses *)

Definition ex_wdog (nx f l fl : Z) : wdog_s := mkwdog nx f l fl 1 [f + 1; 0].
Definition ex_wd : wdstate := mkwd
  (mkqmem {[ 100 := ex_wdog 200 11 3 1; 200 := ex_wdog 0 22 2 5; 300 := ex_wdog 0 33 9 0 ]}
          {[ g_wdactivelist := mkqueue 100 200; g_wdfreelist := mkqueue 0 0 ]})
  0 [].
Definition ex_deadlines : deadlines := [(100, 3); (200, 5)].

Lemma ex_wd_inv : wd_inv ex_wd ex_deadlines [].
Proof.
  split_and!; try concrete_rep; try done.
  - simpl. split; [done|]. split; [by eexists|]. split; [done|]. split; [by eexists|done].
  - by repeat constructor.
  - intros p w Hp Ha. simpl in Hp. repeat (apply lookup_insert_Some in Hp as [[<- <-]|[_ Hp]]; [set_solver|]).
    apply lookup_singleton_Some in Hp as [<- <-]. done.
  - set_solver.
Qed.


Lemma wd_start_schedules_witness :
  wp (wd_start 100 3 44 1 [55])
     (fun r s' => r = OK /\ wd_inv s' [(100, 4); (200, 5)] [] /\
                  call_of s' 100 = Some (44, 1, [55; 0])) ex_wd.
Proof.
  eapply wp_mono; [apply (wd_start_schedules ex_wd ex_deadlines [] 100 (ex_wdog 200 11 3 1) 3 44 1 [55] [55; 0]);
                   [exact ex_wd_inv|reflexivity|set_solver|done|done|reflexivity]|].
  intros r s' (H1 & H2 & _ & H3 & _). split_and!; [exact H1|exact H2|exact H3].
Defined.

Lemma wd_invalid_args_witness :
  wd_start 300 (-1) 44 1 [55] ex_wd = Some (- EINVAL, ex_wd) /\
  wd_cancel 300 ex_wd = Some (- EINVAL, ex_wd).
Proof.
  split.
  - apply (proj1 (wd_invalid_args ex_wd 300 (-1) 44 1 [55])). right; right. lia.
  - apply (proj2 (wd_invalid_args ex_wd 300 (-1) 44 1 [55])). right. by eexists.
Defined.

Lemma wd_cancel_removes_witness :
  wp (wd_cancel 100) (fun r s' => r = OK /\ wd_inv s' [(200, 5)] []) ex_wd.
Proof.
  eapply wp_mono; [apply (wd_cancel_removes ex_wd [] 100 3 [(200, 5)] []); exact ex_wd_inv|].
  intros r s' (H1 & H2 & _). split; [exact H1|exact H2].
Defined.

Lemma wd_gettime_remaining_witness : wp (wd_gettime 200) (fun r _ => r = 5) ex_wd.
Proof.
  eapply wp_mono; [apply (wd_gettime_remaining ex_wd ex_deadlines [] 200 (ex_wdog 0 22 2 5));
                   [exact ex_wd_inv|reflexivity]|].
  intros r s' [_ H]. exact H.
Defined.

Lemma wd_pool_lifecycle_witness :
  wp (wd_create true None) (fun r s' => r = NULL /\ wd_inv s' ex_deadlines []) ex_wd /\
  wp (wd_delete 100) (fun r s' => r = OK /\ wd_inv s' [(200, 5)] [100]) ex_wd.
Proof.
  destruct (wd_pool_lifecycle ex_wd ex_deadlines [] 100 (ex_wdog 200 11 3 1) true None)
    as (_ & Hcreate & Hdelete). split.
  - eapply wp_mono; [apply Hcreate; [exact ex_wd_inv|simpl; lia|done]|].
    intros r s' (H1 & H2 & _). split; [exact H1|exact H2].
  - eapply wp_mono; [apply Hdelete; [exact ex_wd_inv|reflexivity|set_solver|unfold CONFIG_PREALLOC_WDOGS; simpl; lia]|].
    intros r s' (H1 & H2 & _). split; [exact H1|exact H2].
Defined.
