(* ===== verification/Sched.v ===== *)
(** Sched: the task lists of the single-CPU scheduler (sched/sched), the
    context switch entry points of the ARMv7-M port (arch/arm/src/armv7-m) and
    the abstract scheduler they implement. *)

From stdpp Require Import options.
From Stdlib Require Import Sorting.Sorted.
From S2P Require Import Prelude Queue.

(** * Task control blocks *)

(** [enum tstate_e], in the configuration without SMP, paging and SIGSTOP. *)
Inductive tstate_e :=
| TSTATE_TASK_INVALID
| TSTATE_TASK_PENDING
| TSTATE_TASK_READYTORUN
| TSTATE_TASK_RUNNING
| TSTATE_TASK_INACTIVE
| TSTATE_WAIT_SEM
| TSTATE_WAIT_SIG
| TSTATE_WAIT_MQNOTEMPTY
| TSTATE_WAIT_MQNOTFULL.

#[export] Instance tstate_eq_dec : EqDecision tstate_e.
Proof. solve_decision. Defined.

(** The value of the enumerator. *)
Definition tstate_num (t : tstate_e) : Z :=
  match t with
  | TSTATE_TASK_INVALID => 0
  | TSTATE_TASK_PENDING => 1
  | TSTATE_TASK_READYTORUN => 2
  | TSTATE_TASK_RUNNING => 3
  | TSTATE_TASK_INACTIVE => 4
  | TSTATE_WAIT_SEM => 5
  | TSTATE_WAIT_SIG => 6
  | TSTATE_WAIT_MQNOTEMPTY => 7
  | TSTATE_WAIT_MQNOTFULL => 8
  end.

Definition FIRST_READY_TO_RUN_STATE := TSTATE_TASK_READYTORUN.
Definition LAST_READY_TO_RUN_STATE := TSTATE_TASK_RUNNING.
Definition FIRST_BLOCKED_STATE := TSTATE_TASK_INACTIVE.
Definition LAST_BLOCKED_STATE := TSTATE_WAIT_MQNOTFULL.

Definition tstate_in (first last t : tstate_e) : bool :=
  (tstate_num first <=? tstate_num t) && (tstate_num t <=? tstate_num last).
Definition is_blocked (t : tstate_e) : bool := tstate_in FIRST_BLOCKED_STATE LAST_BLOCKED_STATE t.
Definition is_ready (t : tstate_e) : bool :=
  tstate_in FIRST_READY_TO_RUN_STATE LAST_READY_TO_RUN_STATE t.

(** [struct tcb_s]: the fields that the scheduler and the semaphores use.
    [xcp_regs] stands for the register save area. *)
Record tcb_s := mktcb {
  t_flink : ptr;
  t_blink : ptr;
  sched_priority : Z;      (* uint8_t *)
  task_state : tstate_e;
  tflags : Z;              (* uint16_t *)
  lockcount : Z;           (* int16_t *)
  errcode : Z;             (* int16_t *)
  timeslice : Z;           (* int32_t *)
  waitsem : ptr;
  xcp_regs : Z;
}.

Definition set_t_flink (p : ptr) (t : tcb_s) : tcb_s :=
  mktcb p (t_blink t) (sched_priority t) (task_state t) (tflags t) (lockcount t) (errcode t)
    (timeslice t) (waitsem t) (xcp_regs t).
Definition set_t_blink (p : ptr) (t : tcb_s) : tcb_s :=
  mktcb (t_flink t) p (sched_priority t) (task_state t) (tflags t) (lockcount t) (errcode t)
    (timeslice t) (waitsem t) (xcp_regs t).
Definition set_priority (z : Z) (t : tcb_s) : tcb_s :=
  mktcb (t_flink t) (t_blink t) z (task_state t) (tflags t) (lockcount t) (errcode t)
    (timeslice t) (waitsem t) (xcp_regs t).
Definition set_state (st : tstate_e) (t : tcb_s) : tcb_s :=
  mktcb (t_flink t) (t_blink t) (sched_priority t) st (tflags t) (lockcount t) (errcode t)
    (timeslice t) (waitsem t) (xcp_regs t).
Definition set_lockcount (z : Z) (t : tcb_s) : tcb_s :=
  mktcb (t_flink t) (t_blink t) (sched_priority t) (task_state t) (tflags t) z (errcode t)
    (timeslice t) (waitsem t) (xcp_regs t).
Definition set_errcode (z : Z) (t : tcb_s) : tcb_s :=
  mktcb (t_flink t) (t_blink t) (sched_priority t) (task_state t) (tflags t) (lockcount t) z
    (timeslice t) (waitsem t) (xcp_regs t).
Definition set_timeslice (z : Z) (t : tcb_s) : tcb_s :=
  mktcb (t_flink t) (t_blink t) (sched_priority t) (task_state t) (tflags t) (lockcount t)
    (errcode t) z (waitsem t) (xcp_regs t).
Definition set_waitsem (p : ptr) (t : tcb_s) : tcb_s :=
  mktcb (t_flink t) (t_blink t) (sched_priority t) (task_state t) (tflags t) (lockcount t)
    (errcode t) (timeslice t) p (xcp_regs t).
Definition set_regs (z : Z) (t : tcb_s) : tcb_s :=
  mktcb (t_flink t) (t_blink t) (sched_priority t) (task_state t) (tflags t) (lockcount t)
    (errcode t) (timeslice t) (waitsem t) z.

#[export] Instance tcb_sentry : SEntry tcb_s.
Proof. refine {| flink := t_flink; set_flink := set_t_flink |}; by intros; try destruct n. Defined.
#[export] Instance tcb_dentry : DEntry tcb_s.
Proof. refine {| blink := t_blink; set_blink := set_t_blink |}; by intros; try destruct n. Defined.

(** * The task lists *)

Definition g_readytorun : ptr := 1.
Definition g_pendingtasks : ptr := 2.
Definition g_inactivetasks : ptr := 3.
Definition g_waitingforsemaphore : ptr := 4.
Definition g_waitingforsignal : ptr := 5.
Definition g_waitingformqnotempty : ptr := 6.
Definition g_waitingformqnotfull : ptr := 7.

(** [g_tasklisttable]: the list of a state and whether it is prioritized. *)
Definition g_tasklisttable (t : tstate_e) : ptr * bool :=
  match t with
  | TSTATE_TASK_INVALID => (NULL, false)
  | TSTATE_TASK_PENDING => (g_pendingtasks, true)
  | TSTATE_TASK_READYTORUN => (g_readytorun, true)
  | TSTATE_TASK_RUNNING => (g_readytorun, true)
  | TSTATE_TASK_INACTIVE => (g_inactivetasks, false)
  | TSTATE_WAIT_SEM => (g_waitingforsemaphore, true)
  | TSTATE_WAIT_SIG => (g_waitingforsignal, false)
  | TSTATE_WAIT_MQNOTEMPTY => (g_waitingformqnotempty, true)
  | TSTATE_WAIT_MQNOTFULL => (g_waitingformqnotfull, true)
  end.
Definition TLIST_BLOCKED (t : tstate_e) : ptr := (g_tasklisttable t).1.
Definition TLIST_ISPRIORITIZED (t : tstate_e) : bool := (g_tasklisttable t).2.

Definition SCHED_PRIORITY_MIN : Z := 1.
Definition SCHED_PRIORITY_MAX : Z := 255.
Definition MAX_LOCK_COUNT : Z := 127.
Definition CONFIG_RR_INTERVAL : Z := 200.
Definition MSEC_PER_TICK : Z := 10.
Definition MSEC2TICK (msec : Z) : Z := (msec + MSEC_PER_TICK / 2) / MSEC_PER_TICK.
Definition TCB_FLAG_POLICY_MASK : Z := 96.
Definition TCB_FLAG_SCHED_RR : Z := 32.
Definition is_rr (t : tcb_s) : bool := Z.land (tflags t) TCB_FLAG_POLICY_MASK =? TCB_FLAG_SCHED_RR.

(** * List operations *)

Abbreviation tmem_t := (qmem tcb_s).

(** [this_task()]: the head of the ready-to-run list. *)
Definition this_task : M tmem_t ptr := head g_readytorun.

(** Skip the tasks of the list from [next] on that do not yield to priority [prio]. *)
Definition skip_higher (prio : Z) (next : ptr) : M tmem_t ptr :=
  with_fuel (fun fuel => loop fuel (fun next =>
    if is_null next then ret (inr next)
    else n <- node next ;;
         if prio <=? sched_priority n then ret (inl (flink n)) else ret (inr next)) next).

Definition nxsched_add_prioritized (tcb list : ptr) : M tmem_t bool :=
  t <- node tcb ;;
  assert_ (SCHED_PRIORITY_MIN <=? sched_priority t) ;;
  h <- head list ;;
  next <- skip_higher (sched_priority t) h ;;
  if is_null next then
    prev <- tail list ;;
    if is_null prev then
      put_flink tcb NULL ;; DQ.put_blink tcb NULL ;;
      set_head list tcb ;; set_tail list tcb ;;
      ret true
    else
      put_flink tcb NULL ;; DQ.put_blink tcb prev ;;
      put_flink prev tcb ;; set_tail list tcb ;;
      ret false
  else
    prev <- DQ.get_blink next ;;
    if is_null prev then
      put_flink tcb next ;; DQ.put_blink tcb NULL ;;
      DQ.put_blink next tcb ;; set_head list tcb ;;
      ret true
    else
      put_flink tcb next ;; DQ.put_blink tcb prev ;;
      put_flink prev tcb ;; DQ.put_blink next tcb ;;
      ret false.

Definition nxsched_add_readytorun (btcb : ptr) : M tmem_t bool :=
  rtcb <- this_task ;;
  r <- node rtcb ;;
  b <- node btcb ;;
  if (0 <? lockcount r) && (sched_priority r <? sched_priority b) then
    nxsched_add_prioritized btcb g_pendingtasks ;;
    upd_node btcb (set_state TSTATE_TASK_PENDING) ;;
    ret false
  else
    first <- nxsched_add_prioritized btcb g_readytorun ;;
    if first then
      r <- node rtcb ;;
      f <- get_flink btcb ;;
      assert_ ((lockcount r =? 0) && negb (is_null f)) ;;
      upd_node btcb (set_state TSTATE_TASK_RUNNING) ;;
      f <- get_flink btcb ;;
      upd_node f (set_state TSTATE_TASK_READYTORUN) ;;
      ret true
    else
      upd_node btcb (set_state TSTATE_TASK_READYTORUN) ;;
      ret false.

Definition nxsched_remove_readytorun (rtcb : ptr) : M tmem_t bool :=
  b <- DQ.get_blink rtcb ;;
  doswitch <- (if is_null b then
      nxttcb <- get_flink rtcb ;;
      assert_ (negb (is_null nxttcb)) ;;
      upd_node nxttcb (set_state TSTATE_TASK_RUNNING) ;;
      ret true
    else ret false) ;;
  DQ.dq_rem rtcb g_readytorun ;;
  upd_node rtcb (set_state TSTATE_TASK_INVALID) ;;
  ret doswitch.

Definition nxsched_add_blocked (btcb : ptr) (st : tstate_e) : M tmem_t unit :=
  assert_ (is_blocked st) ;;
  let tasklist := TLIST_BLOCKED st in
  (if TLIST_ISPRIORITIZED st then nxsched_add_prioritized btcb tasklist ;; ret tt
   else DQ.dq_addlast btcb tasklist) ;;
  upd_node btcb (set_state st).

Definition nxsched_remove_blocked (btcb : ptr) : M tmem_t unit :=
  t <- node btcb ;;
  assert_ (is_blocked (task_state t)) ;;
  DQ.dq_rem btcb (TLIST_BLOCKED (task_state t)) ;;
  upd_node btcb (set_state TSTATE_TASK_INVALID).

(** One pending task: find its place from [rtcb] on and link it there. *)
Definition merge_one (ptcb rtcb : ptr) : M tmem_t bool :=
  p <- node ptcb ;;
  rtcb <- skip_higher (sched_priority p) rtcb ;;
  assert_ (negb (is_null rtcb)) ;;
  rprev <- DQ.get_blink rtcb ;;
  if is_null rprev then
    put_flink ptcb rtcb ;; DQ.put_blink ptcb NULL ;;
    DQ.put_blink rtcb ptcb ;; set_head g_readytorun ptcb ;;
    upd_node rtcb (set_state TSTATE_TASK_READYTORUN) ;;
    upd_node ptcb (set_state TSTATE_TASK_RUNNING) ;;
    ret true
  else
    put_flink ptcb rtcb ;; DQ.put_blink ptcb rprev ;;
    put_flink rprev ptcb ;; DQ.put_blink rtcb ptcb ;;
    upd_node ptcb (set_state TSTATE_TASK_READYTORUN) ;;
    ret false.

Definition nxsched_merge_pending : M tmem_t bool :=
  rtcb <- this_task ;;
  ptcb <- head g_pendingtasks ;;
  r <- with_fuel (fun fuel => loop fuel (fun '(ptcb, rtcb, r) =>
    if is_null ptcb then ret (inr r)
    else
      pnext <- get_flink ptcb ;;
      b <- merge_one ptcb rtcb ;;
      ret (inl (pnext, ptcb, r || b))) (ptcb, rtcb, false)) ;;
  set_head g_pendingtasks NULL ;; set_tail g_pendingtasks NULL ;;
  ret r.

(** The header of the local variable [clone] of [nxsched_merge_prioritized]. *)
Definition clone : ptr := 8.

Definition nxsched_merge_prioritized (list1 list2 : ptr) (st : tstate_e) : M tmem_t unit :=
  assert_ (negb (is_null list1) && negb (is_null list2)) ;;
  q_move list1 clone ;;
  tcb1 <- q_peek clone ;;
  if is_null tcb1 then ret tt
  else
    with_fuel (fun fuel => loop fuel (fun tmp =>
      if is_null tmp then ret (inr tt)
      else upd_node tmp (set_state st) ;; next <- get_flink tmp ;; ret (inl next)) tcb1) ;;
    tcb2 <- q_peek list2 ;;
    if is_null tcb2 then q_move clone list2
    else
      with_fuel (fun fuel => loop (fuel + fuel) (fun '(tcb1, tcb2) =>
        if is_null tcb2 then DQ.dq_cat clone list2 ;; ret (inr tt)
        else
          t1 <- node tcb1 ;;
          t2 <- node tcb2 ;;
          tt' <- (if sched_priority t2 <? sched_priority t1 then
            tmp <- DQ.dq_remfirst clone ;;
            assert_ (tmp =? tcb1) ;;
            DQ.dq_addbefore tcb2 tmp list2 ;;
            tcb1 <- q_peek clone ;; ret (tcb1, tcb2)
          else
            tcb2 <- get_flink tcb2 ;; ret (tcb1, tcb2)) ;;
          if is_null (fst tt') then ret (inr tt) else ret (inl tt')) (tcb1, tcb2)).

(** * Context switches and the operations that need them *)

(** What the scheduler leaves alone: whether an interrupt is being handled
    ([CURRENT_REGS]), and the data of the rest of the kernel. *)
Record kenv (K : Type) := mkenv { in_irq : bool; kdata : K }.
Arguments mkenv {K} _ _.
Arguments in_irq {K} _.
Arguments kdata {K} _.

(** The state of the kernel as the scheduler sees it: the task lists and the
    register context that the CPU holds. *)
Record kernel (K : Type) := mksched { tmem : tmem_t; cpu_regs : Z; env : kenv K }.
Arguments mksched {K} _ _ _.
Arguments tmem {K} _.
Arguments cpu_regs {K} _.
Arguments env {K} _.
Definition intr {K} (s : kernel K) : bool := in_irq (env s).

(** Run a list operation. *)
Definition onm {K A} (c : M tmem_t A) : M (kernel K) A := fun s =>
  match c (tmem s) with
  | Some (a, m) => Some (a, mksched m (cpu_regs s) (env s))
  | None => None
  end.

Section Switch.
Context {K : Type}.
#[local] Abbreviation sched_t := (kernel K).

(** What the rest of the system does between the moment a thread gives up
    the CPU and the moment it gets it back. *)
Variable others : M sched_t unit.

Definition nxsched_resume_scheduler (tcb : ptr) : M tmem_t unit :=
  upd_node tcb (set_timeslice (MSEC2TICK CONFIG_RR_INTERVAL)).

(** The common tail of the entry points below: save the context of [rtcb]
    and load that of the task that is now at the head of the ready-to-run
    list.  In an interrupt handler the switch takes effect on return from the
    interrupt ([arm_savestate], [arm_restorestate]); a thread is suspended at
    this point ([arm_switchcontext]). *)
Definition switch_from (rtcb : ptr) : M sched_t unit :=
  nexttcb <- onm this_task ;;
  onm (nxsched_resume_scheduler nexttcb) ;;
  regs <- gets cpu_regs ;;
  onm (upd_node rtcb (set_regs regs)) ;;
  n <- onm (node nexttcb) ;;
  modify (fun s => mksched (tmem s) (xcp_regs n) (env s)) ;;
  i <- gets intr ;;
  if i then ret tt else others.

Definition up_unblock_task (tcb : ptr) : M sched_t unit :=
  rtcb <- onm this_task ;;
  t <- onm (node tcb) ;;
  assert_ (is_blocked (task_state t)) ;;
  onm (nxsched_remove_blocked tcb) ;;
  b <- onm (nxsched_add_readytorun tcb) ;;
  when b (switch_from rtcb).

Definition up_block_task (tcb : ptr) (st : tstate_e) : M sched_t unit :=
  rtcb <- onm this_task ;;
  t <- onm (node tcb) ;;
  assert_ (is_ready (task_state t)) ;;
  switch_needed <- onm (nxsched_remove_readytorun tcb) ;;
  onm (nxsched_add_blocked tcb st) ;;
  h <- onm (head g_pendingtasks) ;;
  switch_needed <- (if is_null h then ret switch_needed
                    else b <- onm nxsched_merge_pending ;; ret (switch_needed || b)) ;;
  when switch_needed (switch_from rtcb).

Definition up_release_pending : M sched_t unit :=
  rtcb <- onm this_task ;;
  b <- onm nxsched_merge_pending ;;
  when b (switch_from rtcb).

(** The assertion of the first branch ([DEBUGPANIC]) is undefined. *)
Definition up_reprioritize_rtr (tcb : ptr) (priority : Z) : M sched_t unit :=
  t <- onm (node tcb) ;;
  if negb (is_ready (task_state t)) || (priority <? SCHED_PRIORITY_MIN) then undef
  else
    rtcb <- onm this_task ;;
    b1 <- onm (nxsched_remove_readytorun tcb) ;;
    onm (upd_node tcb (set_priority (u8 priority))) ;;
    b2 <- onm (nxsched_add_readytorun tcb) ;;
    when (xorb b1 b2) (
      h <- onm (head g_pendingtasks) ;;
      (if is_null h then ret tt else onm nxsched_merge_pending ;; ret tt) ;;
      switch_from rtcb).

(** * Priorities *)

Definition nxsched_running_setpriority (tcb : ptr) (prio : Z) : M sched_t unit :=
  nxttcb <- onm (get_flink tcb) ;;
  assert_ (negb (is_null nxttcb)) ;;
  n <- onm (node nxttcb) ;;
  if prio <=? sched_priority n then up_reprioritize_rtr tcb (u8 prio)
  else onm (upd_node tcb (set_priority (u8 prio))).

Definition nxsched_readytorun_setpriority (tcb : ptr) (prio : Z) : M sched_t unit :=
  rtcb <- onm this_task ;;
  r <- onm (node rtcb) ;;
  if sched_priority r <? prio then up_reprioritize_rtr tcb (u8 prio)
  else
    check <- onm (nxsched_remove_readytorun tcb) ;;
    assert_ (negb check) ;;
    onm (upd_node tcb (set_priority (u8 prio))) ;;
    check <- onm (nxsched_add_readytorun tcb) ;;
    assert_ (negb check).

Definition nxsched_blocked_setpriority (tcb : ptr) (prio : Z) : M sched_t unit :=
  t <- onm (node tcb) ;;
  let tasklist := TLIST_BLOCKED (task_state t) in
  if TLIST_ISPRIORITIZED (task_state t) then
    onm (DQ.dq_rem tcb tasklist) ;;
    onm (upd_node tcb (set_priority (u8 prio))) ;;
    onm (nxsched_add_prioritized tcb tasklist) ;; ret tt
  else
    onm (upd_node tcb (set_priority (u8 prio))).

Definition nxsched_set_priority (tcb : ptr) (prio : Z) : M sched_t Z :=
  if (prio <? SCHED_PRIORITY_MIN) || (SCHED_PRIORITY_MAX <? prio) then ret (- EINVAL)
  else
    t <- onm (node tcb) ;;
    match task_state t with
    | TSTATE_TASK_RUNNING => nxsched_running_setpriority tcb prio
    | TSTATE_TASK_READYTORUN => nxsched_readytorun_setpriority tcb prio
    | _ => nxsched_blocked_setpriority tcb prio
    end ;;
    ret OK.

Definition sched_yield : M sched_t Z :=
  rtcb <- onm this_task ;;
  r <- onm (node rtcb) ;;
  res <- nxsched_set_priority rtcb (sched_priority r) ;;
  ret (if res <? 0 then -1 else OK).

(** * Preemption lock and time slices *)

Definition sched_lock : M sched_t Z :=
  rtcb <- onm this_task ;;
  i <- gets intr ;;
  (if negb (is_null rtcb) && negb i then
    r <- onm (node rtcb) ;;
    assert_ (lockcount r <? MAX_LOCK_COUNT) ;;
    onm (upd_node rtcb (set_lockcount (s16 (lockcount r + 1))))
  else ret tt) ;;
  ret OK.

Definition sched_unlock : M sched_t Z :=
  rtcb <- onm this_task ;;
  i <- gets intr ;;
  (if negb (is_null rtcb) && negb i then
    r <- onm (node rtcb) ;;
    (if 0 <? lockcount r then onm (upd_node rtcb (set_lockcount (s16 (lockcount r - 1))))
     else ret tt) ;;
    r <- onm (node rtcb) ;;
    (if lockcount r <=? 0 then
      onm (upd_node rtcb (set_lockcount 0)) ;;
      h <- onm (head g_pendingtasks) ;;
      (if is_null h then ret tt else up_release_pending) ;;
      r <- onm (node rtcb) ;;
      (if is_rr r && (timeslice r =? 0) then
        cur <- onm this_task ;;
        when (negb (rtcb =? cur)) (onm (upd_node rtcb (set_timeslice (MSEC2TICK CONFIG_RR_INTERVAL))))
      else ret tt)
    else ret tt)
  else ret tt) ;;
  ret OK.

Definition sched_lockcount : M sched_t Z :=
  rtcb <- onm this_task ;;
  r <- onm (node rtcb) ;;
  ret (lockcount r).

(** The comparison of [MIN] is between an [int32_t] and a [uint32_t]. *)
Definition nxsched_process_roundrobin (tcb : ptr) (ticks : Z) (noswitches : bool) : M sched_t Z :=
  assert_ (negb (is_null tcb)) ;;
  t <- onm (node tcb) ;;
  let decr := s32 (if u32 (timeslice t) <? ticks then u32 (timeslice t) else ticks) in
  let slice := s32 (timeslice t - decr) in
  onm (upd_node tcb (set_timeslice slice)) ;;
  if (slice <=? 0) && negb (0 <? lockcount t) then
    if noswitches then ret 1
    else
      onm (upd_node tcb (set_timeslice (MSEC2TICK CONFIG_RR_INTERVAL))) ;;
      f <- onm (get_flink tcb) ;;
      (if is_null f then ret tt
       else
         n <- onm (node f) ;;
         when (sched_priority t <=? sched_priority n) (up_reprioritize_rtr tcb (sched_priority t))) ;;
      ret (MSEC2TICK CONFIG_RR_INTERVAL)
  else ret (u32 slice).

(** [nxsched_process_scheduler]: the time slice of the running task, at each tick. *)
Definition nxsched_cpu_scheduler : M sched_t unit :=
  rtcb <- onm this_task ;;
  r <- onm (node rtcb) ;;
  when (is_rr r) (nxsched_process_roundrobin rtcb 1 false ;; ret tt).
End Switch.

(** * The abstract scheduler *)

(** Task lists as sequences of tasks, and the attributes of the tasks: their
    control blocks without the links. *)
Record sst := mksst { lists : ptr -> list ptr; attrs : gmap ptr tcb_s }.

Definition set_list (q : ptr) (l : list ptr) (σ : sst) : sst :=
  mksst (fun q' => if decide (q' = q) then l else lists σ q') (attrs σ).
Definition upd_attr (x : ptr) (f : tcb_s -> tcb_s) (σ : sst) : sst :=
  mksst (lists σ) (alter f x (attrs σ)).
Definition attr {B} (p : tcb_s -> B) (d : B) (σ : sst) (x : ptr) : B :=
  from_option p d (attrs σ !! x).
Abbreviation prio := (attr sched_priority 0).
Abbreviation lock := (attr lockcount 0).
Abbreviation state := (attr task_state TSTATE_TASK_INVALID).
Definition ready (σ : sst) : list ptr := lists σ g_readytorun.
Definition pending (σ : sst) : list ptr := lists σ g_pendingtasks.
Definition running (σ : sst) : ptr := hd_or NULL (ready σ).

(** Insertion into a priority-ordered list, behind the tasks of the same priority. *)
Fixpoint pinsert (pr : ptr -> Z) (x : ptr) (l : list ptr) : list ptr :=
  match l with
  | [] => [x]
  | y :: l' => if pr x <=? pr y then y :: pinsert pr x l' else x :: l
  end.

(** A task becomes ready: it is queued, and runs if it comes first. *)
Definition spec_ready (x : ptr) (σ : sst) : bool * sst :=
  let r := running σ in
  let σ' := set_list g_readytorun (pinsert (prio σ) x (ready σ)) σ in
  if prio σ x <=? prio σ r then (false, upd_attr x (set_state TSTATE_TASK_READYTORUN) σ')
  else (true, upd_attr r (set_state TSTATE_TASK_READYTORUN)
                (upd_attr x (set_state TSTATE_TASK_RUNNING) σ')).

Definition spec_add_readytorun (x : ptr) (σ : sst) : bool * sst :=
  let r := running σ in
  if (0 <? lock σ r) && (prio σ r <? prio σ x) then
    (false, upd_attr x (set_state TSTATE_TASK_PENDING)
              (set_list g_pendingtasks (pinsert (prio σ) x (pending σ)) σ))
  else spec_ready x σ.

Definition lremove (x : ptr) (l : list ptr) : list ptr := filter (fun y => y <> x) l.

Definition spec_remove_readytorun (x : ptr) (σ : sst) : bool * sst :=
  let σ1 := if decide (x = running σ)
            then upd_attr (hd_or NULL (List.tl (ready σ))) (set_state TSTATE_TASK_RUNNING) σ else σ in
  (bool_decide (x = running σ),
   upd_attr x (set_state TSTATE_TASK_INVALID) (set_list g_readytorun (lremove x (ready σ)) σ1)).

Definition spec_add_blocked (x : ptr) (st : tstate_e) (σ : sst) : sst :=
  let q := TLIST_BLOCKED st in
  upd_attr x (set_state st)
    (set_list q (if TLIST_ISPRIORITIZED st then pinsert (prio σ) x (lists σ q)
                 else lists σ q ++ [x]) σ).

Definition spec_remove_blocked (x : ptr) (σ : sst) : sst :=
  let q := TLIST_BLOCKED (state σ x) in
  upd_attr x (set_state TSTATE_TASK_INVALID) (set_list q (lremove x (lists σ q)) σ).

(** The pending tasks become ready one after the other. *)
Fixpoint spec_ready_all (l : list ptr) (σ : sst) : bool * sst :=
  match l with
  | [] => (false, σ)
  | x :: l' => let '(b, σ1) := spec_ready x (set_list g_pendingtasks l' σ) in
               let '(b', σ2) := spec_ready_all l' σ1 in (b || b', σ2)
  end.
Definition spec_merge_pending (σ : sst) : bool * sst := spec_ready_all (pending σ) σ.

(** * Representation *)

Definition tasklists : list ptr :=
  [g_readytorun; g_pendingtasks; g_inactivetasks; g_waitingforsemaphore; g_waitingforsignal;
   g_waitingformqnotempty; g_waitingformqnotfull].

(** The store holds the lists [Qs] of the abstract scheduler, which share no
    task, and its attributes. *)
Definition srep (Qs : list ptr) (m : tmem_t) (σ : sst) : Prop :=
  dstrip <$> nodes m = attrs σ /\
  (forall q, q ∈ Qs -> dq_rep m q (lists σ q)) /\
  (forall q1 q2 x, q1 ∈ Qs -> q2 ∈ Qs -> q1 <> q2 -> x ∈ lists σ q1 -> x ∉ lists σ q2).

(** A task in none of the lists. *)
Definition unlisted (Qs : list ptr) (σ : sst) (x : ptr) : Prop :=
  forall q, q ∈ Qs -> x ∉ lists σ q.

(** An update of a control block that leaves the links alone. *)
Class AttrFun (f : tcb_s -> tcb_s) := {
  attr_flink n : t_flink (f n) = t_flink n;
  attr_blink n : t_blink (f n) = t_blink n;
  attr_dstrip n : dstrip (f n) = f (dstrip n);
}.
#[export] Instance attr_set_priority z : AttrFun (set_priority z). Proof. by split. Qed.
#[export] Instance attr_set_state z : AttrFun (set_state z). Proof. by split. Qed.
#[export] Instance attr_set_lockcount z : AttrFun (set_lockcount z). Proof. by split. Qed.
#[export] Instance attr_set_errcode z : AttrFun (set_errcode z). Proof. by split. Qed.
#[export] Instance attr_set_timeslice z : AttrFun (set_timeslice z). Proof. by split. Qed.
#[export] Instance attr_set_waitsem z : AttrFun (set_waitsem z). Proof. by split. Qed.
#[export] Instance attr_set_regs z : AttrFun (set_regs z). Proof. by split. Qed.

Lemma pinsert_split pr x l :
  exists l1 l2, l = l1 ++ l2 /\ pinsert pr x l = l1 ++ x :: l2 /\
    (forall y, y ∈ l1 -> pr x <= pr y) /\ (forall y l, l2 = y :: l -> pr y < pr x).
Proof.
  induction l as [|y l (l1 & l2 & -> & Hp & H1 & H2)]; simpl.
  { exists [], []. set_solver. }
  destruct (Z.leb_spec (pr x) (pr y)).
  - exists (y :: l1), l2. rewrite Hp. set_solver.
  - exists [], (y :: l1 ++ l2). repeat split; set_solver.
Qed.

Section Rep.
Implicit Types (m : tmem_t) (σ : sst) (x q : ptr) (Qs : list ptr) (n : tcb_s).

Lemma srep_lookup Qs m σ x a :
  srep Qs m σ -> attrs σ !! x = Some a -> exists n, nodes m !! x = Some n /\ dstrip n = a.
Proof.
  intros (Ha & _) Hx. rewrite <- Ha, lookup_fmap in Hx.
  destruct (nodes m !! x) as [n|]; simplify_eq/=. eauto.
Qed.

Lemma srep_attr Qs m σ x n :
  srep Qs m σ -> nodes m !! x = Some n -> attrs σ !! x = Some (dstrip n).
Proof. intros (Ha & _) Hx. by rewrite <- Ha, lookup_fmap, Hx. Qed.

Lemma srep_listed Qs m σ q x :
  srep Qs m σ -> q ∈ Qs -> x ∈ lists σ q -> exists n, nodes m !! x = Some n.
Proof. intros (_ & Hq & _) ??. by eapply dq_rep_elem; eauto. Qed.

(** An operation on one list, at the level of the abstract scheduler. *)
Lemma srep_frame Qs m m' σ q l T :
  srep Qs m σ -> dq_rep m' q l -> frame dstrip [q] T m m' ->
  (forall x, x ∈ T -> x ∈ lists σ q \/ unlisted Qs σ x) -> (forall x, x ∈ l -> x ∈ T) -> q ∈ Qs ->
  srep Qs m' (set_list q l σ).
Proof.
  intros (Ha & Hq & Hd) Hq' Hf HT Hl Hin. unfold set_list. split_and!; simpl.
  - rewrite <- Ha. apply map_eq. intros x. rewrite !lookup_fmap. apply Hf.
  - intros q' Hq1. case_decide; [by subst|]. eapply dq_rep_frame; eauto; [set_solver|].
    intros x Hx [|Hu]%HT; [|by apply (Hu q')]. by eapply (Hd q' q).
  - intros q1 q2 x H1 H2 Hne.
    destruct (decide (q1 = q)) as [->|], (decide (q2 = q)) as [->|]; intros Hx1 Hx2; [done|..].
    + destruct (HT x) as [?|Hu]; [auto|by eapply (Hd q q2)|by apply (Hu q2)].
    + destruct (HT x) as [?|Hu]; [auto|by eapply (Hd q1 q)|by apply (Hu q1)].
    + by eapply (Hd q1 q2).
Qed.

Lemma wp_list_op {A} (c : M tmem_t A) (P : A -> Prop) l T Qs m σ q (Q : A -> tmem_t -> Prop) :
  wp c (fun r m' => P r /\ dq_rep m' q l /\ frame dstrip [q] T m m') m ->
  srep Qs m σ -> q ∈ Qs ->
  (forall x, x ∈ T -> x ∈ lists σ q \/ unlisted Qs σ x) -> (forall x, x ∈ l -> x ∈ T) ->
  (forall r m', P r -> srep Qs m' (set_list q l σ) -> Q r m') -> wp c Q m.
Proof.
  intros Hc ????? . eapply wp_mono; [exact Hc|]. intros r m' (? & ? & ?).
  eauto using srep_frame.
Qed.

(** Reading an attribute. *)
Lemma wp_attr Qs m σ x a (Q : tcb_s -> tmem_t -> Prop) :
  srep Qs m σ -> attrs σ !! x = Some a ->
  (forall n, nodes m !! x = Some n -> dstrip n = a -> Q n m) -> wp (node x) Q m.
Proof. intros Hr Ha HQ. destruct (srep_lookup _ _ _ _ _ Hr Ha) as (n & ? & ?). eapply wp_node; eauto. Qed.

(** Updating an attribute. *)
Lemma srep_upd Qs m σ x n f `{!AttrFun f} :
  srep Qs m σ -> nodes m !! x = Some n ->
  srep Qs (mkqmem (<[x := f n]> (nodes m)) (queues m)) (upd_attr x f σ).
Proof.
  intros (Ha & Hq & Hd) Hx. split_and!; simpl; [| |done].
  - rewrite <- Ha. apply map_eq. intros y. rewrite lookup_fmap. destruct (decide (x = y)) as [->|].
    + rewrite lookup_insert_eq, lookup_alter_eq, lookup_fmap, Hx.
      exact (f_equal Some (attr_dstrip n)).
    + by rewrite lookup_insert_ne, lookup_alter_ne, lookup_fmap.
  - intros q Hin. destruct (Hq q Hin) as (HN & ? & ? & Hs). split_and!; auto; simpl.
    { rewrite lookup_insert_ne; congruence. }
    clear - Hs Hx AttrFun0. revert Hs. generalize NULL at 1 3 as p.
    induction (lists σ q) as [|a l IH]; intros p; simpl; [done|].
    intros (k & Hk & ? & ? & ?). destruct (decide (x = a)) as [->|].
    + exists (f n). rewrite lookup_insert_eq. simplify_eq.
      split_and!; eauto; [apply attr_blink|rewrite attr_flink; eauto].
    + exists k. rewrite lookup_insert_ne by done. eauto.
Qed.

Lemma wp_set_attr Qs m σ x a f `{!AttrFun f} (Q : unit -> tmem_t -> Prop) :
  srep Qs m σ -> attrs σ !! x = Some a ->
  (forall m', srep Qs m' (upd_attr x f σ) -> Q tt m') -> wp (upd_node x f) Q m.
Proof.
  intros Hr Ha HQ. destruct (srep_lookup _ _ _ _ _ Hr Ha) as (n & ? & ?).
  eapply wp_upd_node; [done|]. apply HQ. by apply srep_upd.
Qed.

(** The links of a task in a list. *)
Lemma srep_links Qs m σ q l1 x l2 :
  srep Qs m σ -> q ∈ Qs -> lists σ q = l1 ++ x :: l2 ->
  exists n, nodes m !! x = Some n /\ t_flink n = hd_or NULL l2 /\ t_blink n = last_or NULL l1.
Proof.
  intros (_ & Hq & _) Hin Hl. destruct (Hq q Hin) as (_ & _ & _ & Hs).
  rewrite Hl in Hs. dseg_simpl. eauto.
Qed.

Lemma wp_list_head Qs m σ q (Q : ptr -> tmem_t -> Prop) :
  srep Qs m σ -> q ∈ Qs -> Q (hd_or NULL (lists σ q)) m -> wp (head q) Q m.
Proof. intros (_ & Hq & _) Hin HQ. destruct (Hq q Hin) as (_ & _ & ? & _). by eapply wp_head. Qed.
End Rep.

(** * The list operations implement the abstract scheduler *)

(** Priorities as the store has them. *)
Definition mprio (m : tmem_t) (x : ptr) : Z := from_option sched_priority 0 (nodes m !! x).

Section Ops.
Implicit Types (m : tmem_t) (σ : sst) (x q : ptr) (Qs : list ptr) (n : tcb_s).

Lemma mprio_lookup m x n : nodes m !! x = Some n -> mprio m x = sched_priority n.
Proof. unfold mprio. by intros ->. Qed.

Lemma srep_prio Qs m σ x : srep Qs m σ -> prio σ x = mprio m x.
Proof.
  intros (Ha & _). unfold attr, mprio. rewrite <- Ha, lookup_fmap. by destruct (nodes m !! x).
Qed.

Lemma pinsert_ext pr pr' x l :
  (forall y, pr y = pr' y) -> pinsert pr x l = pinsert pr' x l.
Proof. intros He. induction l as [|y l IH]; simpl; [done|]. by rewrite !He, IH. Qed.

Lemma wp_skip_higher m p l1 l2 :
  nodes m !! NULL = None -> NoDup (l1 ++ l2) -> lseg (nodes m) (l1 ++ l2) NULL ->
  (forall y, y ∈ l1 -> p <= mprio m y) -> (forall y l, l2 = y :: l -> mprio m y < p) ->
  wp (skip_higher p (hd_or NULL (l1 ++ l2))) (fun r m' => r = hd_or NULL l2 /\ m' = m) m.
Proof.
  intros HN Hnd Hl Hge Hlt. pose proof (lseg_length m _ _ Hnd Hl) as Hlen.
  apply wp_with_fuel. revert Hlen. generalize (qfuel m) as fuel. clear Hnd.
  induction l1 as [|a l1 IH]; intros fuel Hlen; (destruct fuel as [|fuel]; [simpl in *; lia|]);
    apply wp_loop_step.
  - destruct l2 as [|b l2]; cbn [hd_or app].
    { null_simpl. by apply wp_ret. }
    destruct Hl as (n & Hn & _). specialize (Hlt b l2 eq_refl).
    rewrite (mprio_lookup _ _ _ Hn) in Hlt. qrun.
    destruct (Z.leb_spec p (sched_priority n)); [lia|]. by apply wp_ret.
  - destruct Hl as (n & Hn & Hf & Hl). pose proof (Hge a ltac:(set_solver)) as Ha.
    rewrite (mprio_lookup _ _ _ Hn) in Ha. cbn [hd_or app]. qrun.
    destruct (Z.leb_spec p (sched_priority n)); [|lia]. apply wp_ret.
    apply IH; [done|set_solver|simpl in *; lia].
Qed.

(** Linking [x] between [l1] and [l2], the way the four cases of
    [nxsched_add_prioritized] do. *)
Lemma wp_add_prioritized m q l x n :
  dq_rep m q l -> nodes m !! x = Some n -> x ∉ l -> SCHED_PRIORITY_MIN <= sched_priority n ->
  wp (nxsched_add_prioritized x q)
     (fun r m' => r = bool_decide (hd_or NULL (pinsert (mprio m) x l) = x) /\
                  dq_rep m' q (pinsert (mprio m) x l) /\ frame dstrip [q] (x :: l) m m') m.
Proof.
  intros Hrep Hx Hxl Hp. pose proof Hrep as (HN & Hnd & Hq & Hd).
  destruct (pinsert_split (mprio m) x l) as (l1 & l2 & -> & -> & Hge & Hlt).
  rewrite (mprio_lookup _ _ _ Hx) in Hge, Hlt.
  unfold nxsched_add_prioritized. apply wp_bind. eapply wp_node; [done|].
  apply wp_bind, wp_assert; [by apply Z.leb_le|]. apply wp_bind. eapply wp_head; [done|].
  apply wp_bind. eapply wp_mono; [apply wp_skip_higher; eauto using dseg_lseg|].
  intros next m' [-> ->]. clear Hge Hlt Hp. unfold DQ.get_blink, DQ.put_blink, put_flink.
  destruct l1 as [|a l1 _] using rev_ind; destruct l2 as [|b l2]; clear Hrep;
    dseg_simpl; nodup_simpl; cbn [hd_or]; qrun;
    (split; [ends_simpl|dq_solve]).
  - by rewrite bool_decide_eq_true_2.
  - by rewrite bool_decide_eq_true_2.
  - rewrite bool_decide_eq_false_2; [done|]. destruct l1; simpl; nodup_simpl; congruence.
  - rewrite bool_decide_eq_false_2; [done|]. destruct l1; simpl; nodup_simpl; congruence.
Qed.

Lemma attr_node {B} (p : tcb_s -> B) d Qs m σ x n :
  srep Qs m σ -> nodes m !! x = Some n -> attr p d σ x = p (dstrip n).
Proof. intros Hr Hx. unfold attr. by rewrite (srep_attr _ _ _ _ _ Hr Hx). Qed.

Lemma srep_listed_attr Qs m σ q x :
  srep Qs m σ -> q ∈ Qs -> x ∈ lists σ q -> exists a, attrs σ !! x = Some a.
Proof.
  intros Hr Hq Hx. destruct (srep_listed _ _ _ _ _ Hr Hq Hx) as [n Hn]. eauto using srep_attr.
Qed.

Lemma upd_attr_some x f σ y a :
  attrs σ !! y = Some a -> exists a', attrs (upd_attr x f σ) !! y = Some a'.
Proof.
  intros Hy. simpl. destruct (decide (x = y)) as [->|].
  - rewrite lookup_alter_eq, Hy. simpl. eauto.
  - rewrite lookup_alter_ne; eauto.
Qed.

Lemma set_list_eq q l σ : lists (set_list q l σ) q = l.
Proof. unfold set_list. simpl. by rewrite decide_True. Qed.
Lemma set_list_ne q l σ q' : q' <> q -> lists (set_list q l σ) q' = lists σ q'.
Proof. intros. unfold set_list. simpl. by rewrite decide_False. Qed.

Lemma pinsert_elem pr x l y : y ∈ pinsert pr x l <-> y = x \/ y ∈ l.
Proof.
  destruct (pinsert_split pr x l) as (l1 & l2 & -> & -> & _). set_solver.
Qed.

Lemma pinsert_hd pr x l :
  l <> [] -> hd_or NULL (pinsert pr x l) = if pr x <=? pr (hd_or NULL l) then hd_or NULL l else x.
Proof. destruct l as [|y l]; [done|]. intros _. simpl. by destruct (pr x <=? pr y). Qed.

Lemma swp_add_prioritized Qs m σ q x a (Q : bool -> tmem_t -> Prop) :
  srep Qs m σ -> q ∈ Qs -> attrs σ !! x = Some a -> unlisted Qs σ x ->
  SCHED_PRIORITY_MIN <= sched_priority a ->
  (forall m', srep Qs m' (set_list q (pinsert (prio σ) x (lists σ q)) σ) ->
     Q (bool_decide (hd_or NULL (pinsert (prio σ) x (lists σ q)) = x)) m') ->
  wp (nxsched_add_prioritized x q) Q m.
Proof.
  intros Hr Hq Ha Hu Hp HQ. destruct (srep_lookup _ _ _ _ _ Hr Ha) as (n & Hn & <-).
  rewrite (pinsert_ext _ (mprio m)) in HQ by (intros; by eapply srep_prio).
  pose proof Hr as (_ & Hl & _). eapply wp_list_op; [|done..| | |].
  - eapply wp_add_prioritized; eauto.
  - intros y [->|?]%elem_of_cons; auto.
  - intros y. rewrite pinsert_elem. set_solver.
  - intros r m' -> Hr'. by apply HQ.
Qed.

(** The running task, and the task that follows it. *)
Lemma swp_this_task Qs m σ (Q : ptr -> tmem_t -> Prop) :
  srep Qs m σ -> g_readytorun ∈ Qs -> Q (running σ) m -> wp this_task Q m.
Proof. intros. by eapply wp_list_head. Qed.

Lemma running_elem σ : ready σ <> [] -> running σ ∈ ready σ.
Proof. apply hd_or_elem. Qed.

(** The hypotheses under which a task can be put on a list. *)
Definition insertable Qs σ x : Prop :=
  exists a, attrs σ !! x = Some a /\ unlisted Qs σ x /\ SCHED_PRIORITY_MIN <= sched_priority a.

Lemma insertable_prio Qs σ x : insertable Qs σ x -> SCHED_PRIORITY_MIN <= prio σ x.
Proof. intros (a & Ha & _ & ?). unfold attr. by rewrite Ha. Qed.

Lemma swp_set_attr Qs m σ x f `{!AttrFun f} (Q : unit -> tmem_t -> Prop) :
  srep Qs m σ -> is_Some (attrs σ !! x) ->
  (forall m', srep Qs m' (upd_attr x f σ) -> Q tt m') -> wp (upd_node x f) Q m.
Proof. intros Hr [a Ha] HQ. by eapply wp_set_attr. Qed.

Lemma upd_attr_is_Some x f σ y : is_Some (attrs σ !! y) -> is_Some (attrs (upd_attr x f σ) !! y).
Proof. intros [a Ha]. by eapply upd_attr_some. Qed.

(** The control block [n] has the attributes of task [x]. *)
Definition attr_of σ x n : Prop := attrs σ !! x = Some (dstrip n).

Lemma attr_of_prio σ x n : attr_of σ x n -> sched_priority n = prio σ x.
Proof. unfold attr_of, attr. by intros ->. Qed.
Lemma attr_of_lock σ x n : attr_of σ x n -> lockcount n = lock σ x.
Proof. unfold attr_of, attr. by intros ->. Qed.
Lemma attr_of_state σ x n : attr_of σ x n -> task_state n = state σ x.
Proof. unfold attr_of, attr. by intros ->. Qed.
Lemma attr_of_slice σ x n : attr_of σ x n -> timeslice n = attr timeslice 0 σ x.
Proof. unfold attr_of, attr. by intros ->. Qed.
Lemma attr_of_regs σ x n : attr_of σ x n -> xcp_regs n = attr xcp_regs 0 σ x.
Proof. unfold attr_of, attr. by intros ->. Qed.
Lemma attr_of_rr σ x n : attr_of σ x n -> is_rr n = attr is_rr false σ x.
Proof. unfold attr_of, attr. by intros ->. Qed.

Lemma swp_node Qs m σ x (Q : tcb_s -> tmem_t -> Prop) :
  srep Qs m σ -> is_Some (attrs σ !! x) -> (forall n, attr_of σ x n -> Q n m) -> wp (node x) Q m.
Proof. intros Hr [a Ha] HQ. eapply wp_attr; [done..|]. intros n _ <-. by apply HQ. Qed.

(** Reading the links of a listed task. *)
Lemma swp_flink Qs m σ q l1 x l2 (Q : ptr -> tmem_t -> Prop) :
  srep Qs m σ -> q ∈ Qs -> lists σ q = l1 ++ x :: l2 -> Q (hd_or NULL l2) m ->
  wp (get_flink x) Q m.
Proof.
  intros Hr Hq Hl HQ. destruct (srep_links _ _ _ _ _ _ _ Hr Hq Hl) as (n & Hn & Hf & _).
  apply wp_bind. eapply wp_node; [done|]. apply wp_ret. simpl. by rewrite Hf.
Qed.
Lemma swp_blink Qs m σ q l1 x l2 (Q : ptr -> tmem_t -> Prop) :
  srep Qs m σ -> q ∈ Qs -> lists σ q = l1 ++ x :: l2 -> Q (last_or NULL l1) m ->
  wp (DQ.get_blink x) Q m.
Proof.
  intros Hr Hq Hl HQ. destruct (srep_links _ _ _ _ _ _ _ Hr Hq Hl) as (n & Hn & _ & Hb).
  apply wp_bind. eapply wp_node; [done|]. apply wp_ret. simpl. by rewrite Hb.
Qed.

Lemma srep_ne Qs m σ q x : srep Qs m σ -> q ∈ Qs -> x ∈ lists σ q -> x <> NULL.
Proof. intros (_ & Hq & _) ??. by eapply dq_rep_ne; eauto. Qed.
End Ops.

(** Symbolic execution over the abstract scheduler. *)
Ltac attr_some :=
  first [ eassumption
        | repeat apply upd_attr_is_Some; cbn [attrs set_list]; first [ eassumption | by eexists ] ].
Ltac attr_norm H :=
  rewrite ?(attr_of_prio _ _ _ H), ?(attr_of_lock _ _ _ H), ?(attr_of_state _ _ _ H),
    ?(attr_of_slice _ _ _ H), ?(attr_of_regs _ _ _ H), ?(attr_of_rr _ _ _ H).
Ltac sstep :=
  lazymatch goal with
  | |- wp (bind _ _) _ _ => apply wp_bind
  | |- wp (ret _) _ _ => apply wp_ret
  | |- wp (when true _) _ _ => unfold when
  | |- wp (when false _) _ _ => unfold when
  | |- wp this_task _ _ => eapply swp_this_task; [eassumption|assumption|]
  | |- wp (node _) _ _ =>
      let n := fresh "n" in let Hn := fresh "Hn" in
      eapply swp_node; [eassumption|solve [attr_some]|]; intros n Hn; attr_norm Hn; clear n Hn
  | |- wp (upd_node _ _) _ _ =>
      let m := fresh "m" in let Hr := fresh "Hr" in
      eapply swp_set_attr; [apply _|eassumption|solve [attr_some]|]; intros m Hr
  end.
Ltac srun := repeat sstep.

Section Ready.
Implicit Types (m : tmem_t) (σ : sst) (x q : ptr) (Qs : list ptr) (n : tcb_s).

Lemma swp_add_readytorun Qs m σ x (Q : bool -> tmem_t -> Prop) :
  srep Qs m σ -> g_readytorun ∈ Qs -> g_pendingtasks ∈ Qs -> insertable Qs σ x ->
  ready σ <> [] -> 0 <= lock σ (running σ) ->
  (forall m', srep Qs m' (spec_add_readytorun x σ).2 -> Q (spec_add_readytorun x σ).1 m') ->
  wp (nxsched_add_readytorun x) Q m.
Proof.
  intros Hr Hq1 Hq2 (a & Ha & Hu & Hp) Hne Hlk HQ. unfold nxsched_add_readytorun.
  pose proof (running_elem _ Hne) as Hre.
  destruct (srep_listed_attr _ _ _ _ _ Hr Hq1 Hre) as [ra Hra].
  unfold spec_add_readytorun, spec_ready in HQ. srun.
  destruct ((0 <? lock σ (running σ)) && (prio σ (running σ) <? prio σ x)) eqn:Hc.
  { srun. eapply swp_add_prioritized; [done..|]. intros m1 Hr1. srun. by apply HQ. }
  srun. eapply swp_add_prioritized; [done..|]. intros m1 Hr1.
  change (lists σ g_readytorun) with (ready σ) in *. rewrite pinsert_hd by done.
  change (hd_or NULL (ready σ)) with (running σ).
  destruct (Z.leb_spec (prio σ x) (prio σ (running σ))) as [Hle|Hlt].
  - rewrite bool_decide_eq_false_2 by (intros <-; by apply (Hu g_readytorun)). srun. by apply HQ.
  - rewrite bool_decide_eq_true_2 by done. srun.
    assert (ready (set_list g_readytorun (pinsert (prio σ) x (ready σ)) σ) = [] ++ x :: ready σ) as Hl.
    { unfold ready. rewrite set_list_eq. destruct (lists σ g_readytorun) as [|y l] eqn:E; [done|].
      simpl. unfold running, ready in Hlt. rewrite E in Hlt. simpl in Hlt.
      by destruct (Z.leb_spec (prio σ x) (prio σ y)); [lia|]. }
    eapply (swp_flink _ _ _ g_readytorun); [done|done|exact Hl|]. srun. apply wp_assert.
    { apply andb_true_intro. rewrite is_null_ne by exact (srep_ne _ _ _ _ _ Hr Hq1 Hre).
      apply andb_false_iff in Hc. rewrite Z.ltb_ge, Z.ltb_ge in Hc.
      split; [apply Z.eqb_eq|done]. change (lock (set_list ?q ?l σ)) with (lock σ). lia. }
    srun. eapply (swp_flink _ _ _ g_readytorun); [done|done|exact Hl|]. srun. by apply HQ.
Qed.

Lemma lremove_notin x l : x ∉ l -> lremove x l = l.
Proof. intros Hx. apply filter_all, Forall_forall. set_solver. Qed.

Lemma lremove_mid x l1 l2 : NoDup (l1 ++ x :: l2) -> lremove x (l1 ++ x :: l2) = l1 ++ l2.
Proof.
  intros (? & ? & _)%NoDup_mid. unfold lremove. rewrite filter_app, filter_cons_False by auto.
  fold (lremove x l1) (lremove x l2). by rewrite !lremove_notin.
Qed.

Lemma lremove_elem x l y : y ∈ lremove x l <-> y <> x /\ y ∈ l.
Proof. unfold lremove. by rewrite list_elem_of_filter. Qed.

Lemma swp_dq_rem Qs m σ q x (Q : unit -> tmem_t -> Prop) :
  srep Qs m σ -> q ∈ Qs -> x ∈ lists σ q ->
  (forall m', srep Qs m' (set_list q (lremove x (lists σ q)) σ) -> Q tt m') ->
  wp (DQ.dq_rem x q) Q m.
Proof.
  intros Hr Hq Hx HQ. pose proof Hr as (_ & Hl & _). specialize (Hl q Hq).
  pose proof Hl as (_ & Hnd & _). apply list_elem_of_split in Hx as (l1 & l2 & E).
  rewrite E in Hl, Hnd. eapply (wp_list_op _ (fun _ => True)); [|done..| | |].
  - eapply wp_mono; [by apply wp_dq_rem|]. intros [] m' [? ?]. by split_and!.
  - rewrite E. auto.
  - set_solver.
  - intros [] m' _ Hr'. apply HQ. by rewrite E, lremove_mid.
Qed.

Lemma swp_dq_addlast Qs m σ q x (Q : unit -> tmem_t -> Prop) :
  srep Qs m σ -> q ∈ Qs -> is_Some (attrs σ !! x) -> unlisted Qs σ x ->
  (forall m', srep Qs m' (set_list q (lists σ q ++ [x]) σ) -> Q tt m') ->
  wp (DQ.dq_addlast x q) Q m.
Proof.
  intros Hr Hq [a Ha] Hu HQ. destruct (srep_lookup _ _ _ _ _ Hr Ha) as (n & Hn & _).
  pose proof Hr as (_ & Hl & _). eapply (wp_list_op _ (fun _ => True)); [|done..| | |].
  - eapply wp_mono; [by eapply wp_dq_addlast; eauto|]. intros [] m' [? ?]. by split_and!.
  - intros y [->|?]%elem_of_cons; auto.
  - set_solver.
  - intros [] m' _ Hr'. by apply HQ.
Qed.

Lemma running_blink Qs m σ l1 x l2 :
  srep Qs m σ -> g_readytorun ∈ Qs -> ready σ = l1 ++ x :: l2 ->
  is_null (last_or NULL l1) = bool_decide (x = running σ).
Proof.
  intros Hr Hq E. pose proof Hr as (_ & Hl & _). destruct (Hl _ Hq) as (_ & Hnd & _).
  change (lists σ g_readytorun) with (ready σ) in Hnd. rewrite E in Hnd. unfold running. rewrite E.
  destruct l1 as [|y l1]; simpl.
  - by rewrite bool_decide_eq_true_2.
  - nodup_simpl. rewrite bool_decide_eq_false_2 by congruence. apply is_null_ne.
    eapply (srep_ne _ _ _ g_readytorun); [done..|]. change (lists σ g_readytorun) with (ready σ).
    rewrite E. pose proof (last_or_elem NULL (y :: l1)). set_solver.
Qed.

Lemma swp_remove_readytorun Qs m σ x (Q : bool -> tmem_t -> Prop) :
  srep Qs m σ -> g_readytorun ∈ Qs -> x ∈ ready σ ->
  (x = running σ -> List.tl (ready σ) <> []) ->
  (forall m', srep Qs m' (spec_remove_readytorun x σ).2 -> Q (spec_remove_readytorun x σ).1 m') ->
  wp (nxsched_remove_readytorun x) Q m.
Proof.
  intros Hr Hq Hx Hnx HQ. pose proof (srep_listed_attr _ _ _ _ _ Hr Hq Hx) as [a Ha].
  apply list_elem_of_split in Hx as (l1 & l2 & E).
  unfold nxsched_remove_readytorun. sstep. eapply (swp_blink _ _ _ g_readytorun); [done|done|exact E|].
  rewrite (running_blink _ _ _ _ _ _ Hr Hq E). unfold spec_remove_readytorun in HQ.
  destruct (decide (x = running σ)) as [Hh|Hh].
  - specialize (Hnx Hh). rewrite !bool_decide_eq_true_2 in * by done.
    assert (hd_or NULL (List.tl (ready σ)) ∈ ready σ) as Hin.
    { destruct (ready σ) as [|? l]; [done|]. simpl in *. pose proof (hd_or_elem NULL l Hnx). set_solver. }
    pose proof (srep_listed_attr _ _ _ _ _ Hr Hq Hin) as [b Hb].
    assert (hd_or NULL l2 = hd_or NULL (List.tl (ready σ))) as E2.
    { pose proof Hr as (_ & Hl & _). destruct (Hl _ Hq) as (_ & Hnd & _).
      change (lists σ g_readytorun) with (ready σ) in Hnd. unfold running in Hh.
      rewrite E in *. destruct l1; [done|]. simpl in *. nodup_simpl. congruence. }
    srun. eapply (swp_flink _ _ _ g_readytorun); [done|done|exact E|]. rewrite E2. srun.
    apply wp_assert. { by rewrite is_null_ne by exact (srep_ne _ _ _ _ _ Hr Hq Hin). }
    srun. eapply (swp_dq_rem _ _ _ g_readytorun); [done|done| |].
    { simpl. fold (ready σ). rewrite E. set_solver. }
    intros. srun. by apply HQ.
  - rewrite !bool_decide_eq_false_2 in * by done. srun.
    eapply (swp_dq_rem _ _ _ g_readytorun); [done|done| |].
    { fold (ready σ). rewrite E. set_solver. }
    intros. srun. by apply HQ.
Qed.

Lemma swp_add_blocked Qs m σ x st (Q : unit -> tmem_t -> Prop) :
  srep Qs m σ -> TLIST_BLOCKED st ∈ Qs -> insertable Qs σ x -> is_blocked st = true ->
  (forall m', srep Qs m' (spec_add_blocked x st σ) -> Q tt m') ->
  wp (nxsched_add_blocked x st) Q m.
Proof.
  intros Hr Hq (a & Ha & Hu & Hp) Hst HQ. unfold nxsched_add_blocked, spec_add_blocked in *.
  apply wp_bind, wp_assert; [done|]. cbv zeta. destruct (TLIST_ISPRIORITIZED st); srun.
  - eapply swp_add_prioritized; [done..|]. intros. srun. by apply HQ.
  - eapply swp_dq_addlast; [done..|by eexists|done|]. intros. srun. by apply HQ.
Qed.

Lemma swp_remove_blocked Qs m σ x (Q : unit -> tmem_t -> Prop) :
  srep Qs m σ -> TLIST_BLOCKED (state σ x) ∈ Qs -> x ∈ lists σ (TLIST_BLOCKED (state σ x)) ->
  is_blocked (state σ x) = true ->
  (forall m', srep Qs m' (spec_remove_blocked x σ) -> Q tt m') ->
  wp (nxsched_remove_blocked x) Q m.
Proof.
  intros Hr Hq Hx Hst HQ. pose proof (srep_listed_attr _ _ _ _ _ Hr Hq Hx) as [a Ha].
  unfold nxsched_remove_blocked. srun. apply wp_assert; [done|].
  srun. eapply swp_dq_rem; [done..|]. intros. srun. by apply HQ.
Qed.

(** * Merging the pending tasks *)

Definition put_state x st m : tmem_t :=
  mkqmem (alter (set_state st) x (nodes m)) (queues m).

Lemma wp_put_state x st m n (Q : unit -> tmem_t -> Prop) :
  nodes m !! x = Some n -> Q tt (put_state x st m) -> wp (upd_node x (set_state st)) Q m.
Proof.
  intros Hx HQ. eapply wp_upd_node; [done|]. replace (mkqmem _ _) with (put_state x st m); [done|].
  unfold put_state. f_equal. apply map_eq. intros z. destruct (decide (x = z)) as [->|].
  - by rewrite lookup_alter_eq, lookup_insert_eq, Hx.
  - by rewrite lookup_alter_ne, lookup_insert_ne.
Qed.

Lemma put_state_some x st m y n :
  nodes m !! y = Some n -> exists n', nodes (put_state x st m) !! y = Some n'.
Proof.
  intros Hy. simpl. destruct (decide (x = y)) as [->|].
  - rewrite lookup_alter_eq, Hy. simpl. eauto.
  - rewrite lookup_alter_ne by done. eauto.
Qed.

(** [merge_one] on the store: link the task behind those of its priority,
    then adjust the states. *)
Lemma wp_merge_one m x n l1 k1 k2 b l2 (Q : bool -> tmem_t -> Prop) :
  dq_rep m g_readytorun (l1 ++ b :: l2) -> l1 = k1 ++ k2 -> nodes m !! x = Some n ->
  x ∉ l1 ++ b :: l2 -> (forall y, y ∈ k2 -> sched_priority n <= mprio m y) ->
  mprio m b < sched_priority n ->
  (forall m1, dq_rep m1 g_readytorun (l1 ++ x :: b :: l2) ->
     frame dstrip [g_readytorun] (x :: l1 ++ b :: l2) m m1 ->
     (l1 = [] -> Q true (put_state x TSTATE_TASK_RUNNING (put_state b TSTATE_TASK_READYTORUN m1))) /\
     (l1 <> [] -> Q false (put_state x TSTATE_TASK_READYTORUN m1))) ->
  wp (merge_one x (hd_or NULL (k2 ++ b :: l2))) Q m.
Proof.
  intros Hrep Hk Hx Hxl Hge Hlt HQ. pose proof Hrep as (HN & Hnd & Hq & Hd).
  unfold merge_one. apply wp_bind. eapply wp_node; [done|]. apply wp_bind.
  eapply wp_mono.
  { apply wp_skip_higher; [done| | |done|].
    - subst l1. rewrite <- app_assoc in Hnd. by apply NoDup_app in Hnd as (_ & _ & ?).
    - subst l1. rewrite <- app_assoc in Hd. apply dseg_lseg, lseg_app in Hd as [_ ?]. done.
    - by intros y l [= <- <-]. }
  intros r m' [-> ->]. cbn [hd_or]. clear Hge Hlt Hk k1 k2 Hrep.
  unfold DQ.get_blink, DQ.put_blink, put_flink.
  destruct l1 as [|a l1 _] using rev_ind; dseg_simpl; nodup_simpl;
    (apply wp_bind, wp_assert; [by rewrite is_null_ne by congruence|]);
    repeat (lazymatch goal with
            | |- wp (bind (upd_node _ (set_state _)) _) _ _ => fail
            | _ => qstep
            end; cbn [nodes queues qhead qtail]; link_simpl);
    match goal with |- wp _ _ ?m1 => specialize (HQ m1); set (m1' := m1) in * end.
  - assert (dq_rep m1' g_readytorun ([] ++ x :: b :: l2) /\
            frame dstrip [g_readytorun] (x :: [] ++ b :: l2) m m1') as [Hr1 Hr2] by (unfold m1'; dq_solve).
    destruct (HQ Hr1 Hr2) as [HQ1 _].
    destruct (dq_rep_elem _ _ _ x Hr1 ltac:(set_solver)) as [nx Hnx].
    destruct (dq_rep_elem _ _ _ b Hr1 ltac:(set_solver)) as [nb Hnb].
    destruct (put_state_some b TSTATE_TASK_READYTORUN _ _ _ Hnx) as [nx' Hnx'].
    apply wp_bind. eapply wp_put_state; [done|]. apply wp_bind. eapply wp_put_state; [done|].
    apply wp_ret. by apply HQ1.
  - assert (dq_rep m1' g_readytorun ((l1 ++ [a]) ++ x :: b :: l2) /\
            frame dstrip [g_readytorun] (x :: (l1 ++ [a]) ++ b :: l2) m m1') as [Hr1 Hr2]
      by (unfold m1'; dq_solve).
    rewrite <- !app_assoc in Hr1, Hr2. destruct (HQ Hr1 Hr2) as [_ HQ2].
    destruct (dq_rep_elem _ _ _ x Hr1 ltac:(set_solver)) as [nx Hnx].
    apply wp_bind. eapply wp_put_state; [done|]. apply wp_ret. apply HQ2. by destruct l1.
Qed.

Lemma attr_upd_ne {B} (p : tcb_s -> B) d x f σ y :
  (forall a, p (f a) = p a) -> attr p d (upd_attr x f σ) y = attr p d σ y.
Proof.
  intros Hf. unfold attr. simpl. destruct (decide (x = y)) as [->|].
  - rewrite lookup_alter_eq. destruct (attrs σ !! y); simpl; auto.
  - by rewrite lookup_alter_ne.
Qed.

Lemma spec_ready_prio x σ y : prio (spec_ready x σ).2 y = prio σ y.
Proof. unfold spec_ready. case_match; simpl; by rewrite !attr_upd_ne. Qed.

Lemma spec_ready_list x σ : ready (spec_ready x σ).2 = pinsert (prio σ) x (ready σ).
Proof. unfold spec_ready. case_match; apply set_list_eq. Qed.

Lemma spec_ready_lists x σ q : q <> g_readytorun -> lists (spec_ready x σ).2 q = lists σ q.
Proof. intros. unfold spec_ready. case_match; by apply set_list_ne. Qed.

Lemma spec_ready_some x σ y : is_Some (attrs σ !! y) -> is_Some (attrs (spec_ready x σ).2 !! y).
Proof. intros. unfold spec_ready. case_match; cbn [snd]; repeat apply upd_attr_is_Some; done. Qed.

(** Inserting from a position before which there are only tasks of the same
    or higher priority is inserting from the start. *)
Lemma pinsert_from pr x k1 k2 :
  (forall y, y ∈ k1 -> pr x <= pr y) -> (exists y, y ∈ k2 /\ pr y < pr x) ->
  exists k3 b l2, k2 = k3 ++ b :: l2 /\ pinsert pr x (k1 ++ k2) = (k1 ++ k3) ++ x :: b :: l2 /\
    (forall y, y ∈ k1 ++ k3 -> pr x <= pr y) /\ pr b < pr x.
Proof.
  intros H1 (y & Hy & Hlt). induction k1 as [|z k1 IH]; simpl.
  - destruct (pinsert_split pr x k2) as (l1 & l2 & -> & Hp & Hge & Hl2).
    destruct l2 as [|b l2]; [exfalso; rewrite app_nil_r in Hy; specialize (Hge y Hy); lia|].
    exists l1, b, l2. eauto.
  - destruct IH as (k3 & b & l2 & E & Hp & ? & ?); [set_solver|].
    destruct (Z.leb_spec (pr x) (pr z)) as [|Hz].
    + exists k3, b, l2. rewrite Hp. split_and!; auto. set_solver.
    + specialize (H1 z). exfalso. set_solver by lia.
Qed.

Lemma srep_put_state Qs m σ x n st :
  srep Qs m σ -> nodes m !! x = Some n -> srep Qs (put_state x st m) (upd_attr x (set_state st) σ).
Proof.
  intros Hr Hx. pose proof (srep_upd _ _ _ _ _ (set_state st) Hr Hx) as H.
  assert (wp (upd_node x (set_state st)) (fun _ m' => m' = put_state x st m) m) as Hw
    by by eapply wp_put_state.
  unfold wp, upd_node, bind, node, getso in Hw. rewrite Hx in Hw. simpl in Hw. by rewrite <- Hw.
Qed.

Lemma upd_attr_comm x y f g σ : x <> y -> upd_attr x f (upd_attr y g σ) = upd_attr y g (upd_attr x f σ).
Proof. intros. unfold upd_attr. simpl. f_equal. apply map_eq. intros z.
  rewrite !lookup_alter. repeat case_decide; congruence. Qed.

Lemma put_state_ne x st m y : y <> x -> nodes (put_state x st m) !! y = nodes m !! y.
Proof. intros. simpl. by rewrite lookup_alter_ne. Qed.

Lemma swp_merge_one Qs m σ x k1 k2 (Q : bool -> tmem_t -> Prop) :
  srep Qs m σ -> g_readytorun ∈ Qs -> is_Some (attrs σ !! x) -> unlisted Qs σ x ->
  ready σ = k1 ++ k2 -> (forall y, y ∈ k1 -> prio σ x <= prio σ y) ->
  (exists y, y ∈ k2 /\ prio σ y < prio σ x) ->
  (forall m', srep Qs m' (spec_ready x σ).2 ->
     (forall y, y <> x -> y ∉ ready σ -> nodes m' !! y = nodes m !! y) ->
     (forall q, q <> g_readytorun -> queues m' !! q = queues m !! q) ->
     Q (spec_ready x σ).1 m') ->
  wp (merge_one x (hd_or NULL k2)) Q m.
Proof.
  intros Hr Hq [a Ha] Hu E H1 H2 HQ. pose proof Hr as (_ & Hl & _). specialize (Hl _ Hq).
  fold (ready σ) in Hl. specialize (Hu g_readytorun Hq) as Hxr. fold (ready σ) in Hxr.
  destruct (srep_lookup _ _ _ _ _ Hr Ha) as (n & Hn & Hna).
  destruct (pinsert_from (prio σ) x k1 k2 H1 H2) as (k3 & b & l2 & -> & Hp & Hge & Hlt).
  assert (prio σ x = sched_priority n) as Hpx by (rewrite (srep_prio _ _ _ _ Hr); by apply mprio_lookup).
  rewrite <- E in Hp. rewrite app_assoc in E. rewrite E in Hl, Hxr.
  eapply wp_merge_one; [exact Hl|done|exact Hn|done| | |].
  { intros y Hy. rewrite <- Hpx, <- (srep_prio _ _ _ _ Hr). set_solver. }
  { by rewrite <- Hpx, <- (srep_prio _ _ _ _ Hr). }
  intros m1 Hl1 Hf.
  assert (srep Qs m1 (set_list g_readytorun (pinsert (prio σ) x (ready σ)) σ)) as Hr1.
  { rewrite Hp. eapply srep_frame; eauto; [|set_solver].
    fold (ready σ). rewrite E. intros y [->|?]%elem_of_cons; auto. }
  destruct (dq_rep_elem _ _ _ x Hl1 ltac:(set_solver)) as [nx Hnx].
  destruct (dq_rep_elem _ _ _ b Hl1 ltac:(set_solver)) as [nb Hnb].
  unfold spec_ready in HQ. split; intros Hnil.
  - rewrite Hnil in *. assert (running σ = b) as Hb by (unfold running; by rewrite E).
    rewrite Hb in HQ. destruct (Z.leb_spec (prio σ x) (prio σ b)); [lia|].
    assert (x <> b) by (intros ->; apply Hxr; left). rewrite upd_attr_comm in HQ by done.
    destruct (put_state_some b TSTATE_TASK_READYTORUN _ _ _ Hnx) as [nx' Hnx'].
    apply HQ.
    + by eapply srep_put_state, Hnx'; eapply srep_put_state.
    + intros y Hy1 Hy2. assert (y <> b) by (intros ->; apply Hy2; rewrite E; apply elem_of_app; right; left).
      rewrite !put_state_ne by congruence. apply Hf.
      rewrite not_elem_of_cons. split; [done|]. by rewrite <- E.
    + intros q ?. apply Hf. by rewrite list_elem_of_singleton.
  - assert (running σ ∈ k1 ++ k3) as Hin.
    { unfold running. rewrite E. destruct (k1 ++ k3); [done|]. simpl. set_solver. }
    apply Hge in Hin. destruct (Z.leb_spec (prio σ x) (prio σ (running σ))); [|lia].
    apply HQ.
    + by eapply srep_put_state.
    + intros y Hy1 Hy2. assert (y <> b) by (intros ->; apply Hy2; rewrite E; apply elem_of_app; right; left).
      rewrite !put_state_ne by congruence. apply Hf.
      rewrite not_elem_of_cons. split; [done|]. by rewrite <- E.
    + intros q ?. apply Hf. by rewrite list_elem_of_singleton.
Qed.

(** Priority order: highest first. *)
Definition sorted_desc (pr : ptr -> Z) (l : list ptr) : Prop :=
  StronglySorted (fun x y => pr y <= pr x) l.

Lemma sorted_desc_ext pr pr' l :
  (forall x, x ∈ l -> pr x = pr' x) -> sorted_desc pr l -> sorted_desc pr' l.
Proof.
  intros He. induction 1 as [|x l Hs IH Hf]; constructor.
  - apply IH. set_solver.
  - rewrite Forall_forall in Hf |- *. intros y Hy. rewrite <- !He by set_solver. auto.
Qed.

Definition merge_body : ptr * ptr * bool -> M tmem_t ((ptr * ptr * bool) + bool) :=
  fun '(ptcb, rtcb, r) =>
    if is_null ptcb then ret (inr r)
    else
      pnext <- get_flink ptcb ;;
      b <- merge_one ptcb rtcb ;;
      ret (inl (pnext, ptcb, r || b)).

Lemma spec_ready_all_cons x l σ :
  spec_ready_all (x :: l) σ =
  ((spec_ready x (set_list g_pendingtasks l σ)).1
     || (spec_ready_all l (spec_ready x (set_list g_pendingtasks l σ)).2).1,
   (spec_ready_all l (spec_ready x (set_list g_pendingtasks l σ)).2).2).
Proof. simpl. destruct (spec_ready x (set_list g_pendingtasks l σ)) as [b σ1]. simpl. by destruct (spec_ready_all l σ1). Qed.

Lemma srep_unlisted_queue Qs m σ q l : q ∉ Qs -> srep Qs m σ -> srep Qs m (set_list q l σ).
Proof.
  intros Hq (Ha & Hl & Hd). split_and!; [done| |].
  - intros q' Hq'. rewrite set_list_ne by congruence. auto.
  - intros q1 q2 x H1 H2 Hne. rewrite !set_list_ne by congruence. by apply Hd.
Qed.

Lemma swp_merge_loop Qs P : forall m σ k1 k2 r fuel (Q : bool -> tmem_t -> Prop),
  srep Qs m σ -> g_readytorun ∈ Qs -> g_pendingtasks ∉ Qs -> nodes m !! NULL = None -> NoDup P -> lseg (nodes m) P NULL ->
  (forall x, x ∈ P -> is_Some (attrs σ !! x) /\ unlisted Qs σ x) ->
  ready σ = k1 ++ k2 -> (forall x y, x ∈ P -> y ∈ k1 -> prio σ x <= prio σ y) ->
  sorted_desc (prio σ) P -> (exists i, i ∈ ready σ /\ forall x, x ∈ P -> prio σ i < prio σ x) ->
  (length P < fuel)%nat ->
  (forall m', srep Qs m' (spec_ready_all P σ).2 -> nodes m' !! NULL = None ->
     (forall q, q <> g_readytorun -> queues m' !! q = queues m !! q) ->
     Q (r || (spec_ready_all P σ).1) m') ->
  wp (loop fuel merge_body (hd_or NULL P, hd_or NULL k2, r)) Q m.
Proof.
  induction P as [|x P IH]; intros m σ k1 k2 r fuel Q Hr Hq Hqp HN Hnd Hl Hu E H1 Hs (i & Hi & Hlow) Hfuel HQ;
    (destruct fuel as [|fuel]; [simpl in Hfuel; lia|]); apply wp_loop_step; unfold merge_body.
  { cbn [hd_or]. null_simpl. apply wp_ret. specialize (HQ m Hr HN (fun _ _ => eq_refl)).
    by rewrite orb_false_r in HQ. }
  destruct Hl as (n & Hn & Hf & Hl). apply NoDup_cons in Hnd as [Hx Hnd].
  destruct (Hu x) as [Hxa Hxu]; [left|]. apply StronglySorted_inv in Hs as [Hs Hsx].
  rewrite Forall_forall in Hsx. pose proof (Hlow x ltac:(left)) as Hix.
  assert (forall y, y ∈ k1 -> prio σ x <= prio σ y) as Hk1 by (intros; apply H1; [left|done]).
  assert (exists y, y ∈ k2 /\ prio σ y < prio σ x) as Hk2.
  { exists i. split; [|done]. rewrite E in Hi. apply elem_of_app in Hi as [Hi|]; [|done].
    specialize (Hk1 i Hi). lia. }
  destruct (pinsert_from (prio σ) x k1 k2 Hk1 Hk2) as (k3 & b & l2 & Ek2 & Hp & Hge & Hlt).
  cbn [hd_or]. rewrite is_null_ne by congruence. unfold get_flink. qrun.
  apply (srep_unlisted_queue _ _ _ _ P Hqp) in Hr. set (τ := set_list g_pendingtasks P σ) in *.
  assert (forall y, unlisted Qs σ y -> unlisted Qs τ y) as Hτ.
  { intros y Hy q Hin. unfold τ. rewrite set_list_ne by congruence. by apply Hy. }
  assert (ready τ = ready σ) as Eτ by by apply set_list_ne.
  eapply (swp_merge_one Qs m τ); [done|done|done|auto|by rewrite Eτ|done|done|].
  intros m' Hr' Hnodes Hqs. qrun. rewrite Eτ in Hnodes.
  rewrite <- E in Hp. set (σ' := (spec_ready x τ).2) in *.
  assert (unlisted Qs τ NULL) as HNu.
  { intros q Hin Hnull. by apply (srep_ne _ _ _ _ _ Hr Hin Hnull). }
  apply (IH m' σ' (k1 ++ k3) (x :: b :: l2)); try done.
  - rewrite Hnodes; [done|congruence|]. rewrite <- Eτ. by apply HNu.
  - eapply lseg_ext; [|done]. intros y Hy. apply Hnodes; [congruence|].
    by apply (Hu y); [right|].
  - intros y Hy. destruct (Hu y) as [Hya Hyu]; [by right|]. split; [by apply spec_ready_some|].
    intros q Hin. destruct (decide (q = g_readytorun)) as [->|].
    + change (y ∉ ready σ'). unfold σ'. rewrite spec_ready_list, pinsert_elem.
      rewrite Eτ. intros [->|Hy']; [done|]. by apply (Hyu _ Hq).
    + unfold σ'. rewrite spec_ready_lists by done. by apply (Hτ y Hyu).
  - unfold σ'. by rewrite spec_ready_list, Eτ.
  - intros y z Hy Hz. unfold σ'. rewrite !spec_ready_prio. specialize (Hge z Hz).
    specialize (Hsx y Hy). change (prio τ) with (prio σ). simpl in Hsx. lia.
  - eapply sorted_desc_ext, Hs. intros. by unfold σ'; rewrite spec_ready_prio.
  - exists i. unfold σ'. rewrite spec_ready_list, pinsert_elem, Eτ. split; [by right|].
    intros y Hy. rewrite !spec_ready_prio. apply Hlow. by right.
  - simpl in Hfuel. lia.
  - intros m2 Hr2 HN2 Hq2. rewrite spec_ready_all_cons in HQ. cbn [fst snd] in HQ. rewrite <- orb_assoc.
    apply HQ; [done..|]. intros q Hne. rewrite Hq2 by done. by apply Hqs.
Qed.

Lemma srep_sub Qs Qs' m σ : srep Qs m σ -> Qs' ⊆ Qs -> srep Qs' m σ.
Proof. intros (? & Hq & Hd) Hs. split_and!; [done|by intros q ?%Hs; apply Hq|].
  intros q1 q2 x ?%Hs ?%Hs. by apply Hd. Qed.

Lemma spec_ready_all_lists l σ q :
  q <> g_readytorun -> q <> g_pendingtasks -> lists (spec_ready_all l σ).2 q = lists σ q.
Proof.
  intros Hq Hp. revert σ. induction l as [|x l IH]; intros σ; [done|].
  rewrite spec_ready_all_cons. cbn [snd]. by rewrite IH, spec_ready_lists, set_list_ne.
Qed.

Lemma spec_merge_pending_empty σ : pending (spec_merge_pending σ).2 = [].
Proof.
  unfold spec_merge_pending. generalize (eq_refl (pending σ)). generalize (pending σ) at 1 3 as l.
  intros l. revert σ. induction l as [|x l IH]; intros σ E; [by simpl|].
  rewrite spec_ready_all_cons. cbn [snd]. apply IH.
  unfold pending. rewrite spec_ready_lists by done. by rewrite set_list_eq.
Qed.

Lemma swp_merge_pending m σ (Q : bool -> tmem_t -> Prop) :
  srep tasklists m σ -> sorted_desc (prio σ) (pending σ) ->
  (exists i, i ∈ ready σ /\ forall x, x ∈ pending σ -> prio σ i < prio σ x) ->
  (forall m', srep tasklists m' (spec_merge_pending σ).2 -> Q (spec_merge_pending σ).1 m') ->
  wp nxsched_merge_pending Q m.
Proof.
  intros Hr Hs Hi HQ. pose proof Hr as (_ & Hl & Hd).
  destruct (Hl g_pendingtasks ltac:(set_solver)) as (HN & Hnd & Hpq & Hseg%dseg_lseg).
  fold (pending σ) in *. set (Qs := filter (fun q => q <> g_pendingtasks) tasklists).
  assert (Qs ⊆ tasklists) as Hsub by (intros q; unfold Qs; rewrite list_elem_of_filter; tauto).
  unfold nxsched_merge_pending. apply wp_bind. eapply swp_this_task; [done|set_solver|].
  apply wp_bind. eapply wp_head; [done|]. apply wp_bind, wp_with_fuel. cbn [qhead].
  change (wp (loop (qfuel m) merge_body (hd_or NULL (pending σ), running σ, false))
    (fun r s => wp (set_head g_pendingtasks NULL;; set_tail g_pendingtasks NULL;; ret r) Q s) m).
  apply (swp_merge_loop Qs (pending σ) m σ [] (ready σ)); try done.
  - by eapply srep_sub.
  - apply list_elem_of_filter. split; [done|left].
  - by intros [? _]%list_elem_of_filter.
  - intros x Hx. split; [|].
    { eapply (srep_listed_attr _ _ _ g_pendingtasks) in Hr as [a Ha]; [|set_solver|exact Hx]. by exists a. }
    intros q [Hne Hin]%list_elem_of_filter Hx2. apply (Hd q g_pendingtasks x); [done|set_solver|done..].
  - intros x y _ Hy. by apply not_elem_of_nil in Hy.
  - by eapply lseg_length.
  - intros m' Hr' HN' Hqs. assert (queues m' !! g_pendingtasks = Some (mkqueue (hd_or NULL (pending σ))
      (last_or NULL (pending σ)))) as Hpq' by by rewrite Hqs. qrun.
    apply HQ. pose proof (spec_merge_pending_empty σ) as Hemp. change (spec_ready_all (pending σ) σ)
      with (spec_merge_pending σ) in Hr'. set (σ' := (spec_merge_pending σ).2) in *.
    destruct Hr' as (Ha' & Hl' & Hd'). unfold pending in Hemp.
    assert (forall q, q ∈ tasklists -> q <> g_pendingtasks -> q ∈ Qs) as HQs
      by (intros; by unfold Qs; rewrite list_elem_of_filter).
    split_and!; [done| |].
    + intros q Hin. destruct (decide (q = g_pendingtasks)) as [->|Hne].
      * rewrite Hemp. split_and!; simpl; [done|apply NoDup_nil_2| |done].
        by rewrite lookup_insert_eq.
      * destruct (Hl' q (HQs q Hin Hne)) as (? & ? & ? & ?).
        split_and!; simpl; auto. by rewrite !lookup_insert_ne by done.
    + intros q1 q2 x Hq1 Hq2 Hne. destruct (decide (q1 = g_pendingtasks)) as [->|];
        [rewrite Hemp; set_solver|]. destruct (decide (q2 = g_pendingtasks)) as [->|];
        [rewrite Hemp; set_solver|]. by apply Hd'; auto.
Qed.
End Ready.
