(* ===== verification/SchedInv.v ===== *)
(** SchedInv: the scheduler invariant and its preservation; what blocking,
    unblocking, priority changes, the preemption lock and the time slices do. *)

From stdpp Require Import options.
From Stdlib Require Import Sorting.Sorted.
From S2P Require Import Prelude Queue Sched.

(** * The invariant *)

Record sinv (σ : sst) : Prop := {
  (** every task is in the list that its state names, and in no other *)
  inv_where : forall x q, q ∈ tasklists -> x ∈ lists σ q <-> TLIST_BLOCKED (state σ x) = q;
  (** exactly the first ready task is in the running state *)
  inv_run : forall x, state σ x = TSTATE_TASK_RUNNING <-> x = running σ;
  inv_nodup : forall q, q ∈ tasklists -> NoDup (lists σ q);
  (** the prioritized lists are in priority order *)
  inv_sorted : forall st, TLIST_ISPRIORITIZED st = true ->
                 sorted_desc (prio σ) (lists σ (TLIST_BLOCKED st));
  (** the IDLE task is the last ready task; every other task has a higher priority *)
  inv_idle : exists R i, ready σ = R ++ [i] /\ prio σ i = 0 /\
               forall x, is_Some (attrs σ !! x) -> x <> i -> SCHED_PRIORITY_MIN <= prio σ x <= SCHED_PRIORITY_MAX;
  inv_lock : forall x, 0 <= lock σ x <= MAX_LOCK_COUNT;
}.

(** Two abstract schedulers with the same tasks and the same lists. *)
#[export] Instance sst_equiv : Equiv sst := fun σ σ' =>
  attrs σ = attrs σ' /\ forall q, lists σ q = lists σ' q.
#[export] Instance sst_equivalence : Equivalence (≡@{sst}).
Proof.
  split.
  - done.
  - intros σ σ' [? ?]. split; auto.
  - intros σ1 σ2 σ3 [E1 H1] [E2 H2]. split; [congruence|]. intros. by rewrite H1.
Qed.
#[export] Instance sinv_proper : Proper ((≡) ==> iff) sinv.
Proof.
  assert (forall σ σ', σ ≡ σ' -> sinv σ -> sinv σ') as H; [|by intros ???; split; apply H].
  intros [L A] [L' A'] [Ha Hl]. simpl in Ha. subst A'. intros [Hw Hr Hn Hs Hi Hk].
  assert (forall q, L' q = L q) as Hq by (intros; symmetry; apply Hl).
  split; simpl in *; unfold running, ready in *; simpl in *; try done.
  - intros. rewrite Hq. by apply Hw.
  - intros. rewrite Hq. by apply Hr.
  - intros. rewrite Hq. auto.
  - intros. rewrite Hq. by apply Hs.
  - rewrite Hq. done.
Qed.
#[export] Instance srep_proper Qs m : Proper ((≡) ==> iff) (srep Qs m).
Proof.
  assert (forall σ σ', σ ≡ σ' -> srep Qs m σ -> srep Qs m σ') as H; [|by intros ???; split; apply H].
  intros σ σ' [Ha Hl] (H1 & H2 & H3). split_and!.
  - by rewrite H1.
  - intros. rewrite <- Hl. auto.
  - intros q1 q2 x. rewrite <- !Hl. apply H3.
Qed.

(** Tasks are kept pending only while the running task holds the preemption lock. *)
Definition pinv (σ : sst) : Prop := pending σ <> [] -> 0 < lock σ (running σ).

(** A task that exists and is not the IDLE task. *)
Definition user_task (σ : sst) (x : ptr) : Prop :=
  is_Some (attrs σ !! x) /\ prio σ x <> 0.

Section Pure.
Implicit Types (σ : sst) (x y q : ptr).

Lemma attr_upd_eq {B} (p : tcb_s -> B) d x f σ :
  is_Some (attrs σ !! x) -> attr p d (upd_attr x f σ) x = attr (fun a => p (f a)) d σ x.
Proof. intros [a Ha]. unfold attr. simpl. by rewrite lookup_alter_eq, Ha. Qed.

Lemma attr_upd_other {B} (p : tcb_s -> B) d x f σ y :
  y <> x -> attr p d (upd_attr x f σ) y = attr p d σ y.
Proof. intros. unfold attr. simpl. by rewrite lookup_alter_ne. Qed.

Lemma attr_const {B} (b d : B) σ x : is_Some (attrs σ !! x) -> attr (fun _ => b) d σ x = b.
Proof. intros [a Ha]. unfold attr. by rewrite Ha. Qed.

Lemma state_upd x st σ y :
  is_Some (attrs σ !! x) ->
  state (upd_attr x (set_state st) σ) y = if decide (y = x) then st else state σ y.
Proof.
  intros Hx. case_decide as E; [subst y|by apply attr_upd_other].
  rewrite attr_upd_eq by done. simpl. by apply attr_const.
Qed.

Lemma upd_attr_exists x f σ y : is_Some (attrs (upd_attr x f σ) !! y) <-> is_Some (attrs σ !! y).
Proof.
  simpl. destruct (decide (x = y)) as [->|].
  - rewrite lookup_alter_eq. by rewrite fmap_is_Some.
  - by rewrite lookup_alter_ne.
Qed.

Lemma attr_some {B} (p : tcb_s -> B) d σ x : attr p d σ x <> d -> is_Some (attrs σ !! x).
Proof. unfold attr. destruct (attrs σ !! x); simpl; [by eexists|done]. Qed.

Lemma pinsert_sorted pr x l : sorted_desc pr l -> sorted_desc pr (pinsert pr x l).
Proof.
  induction 1 as [|y l Hs IH Hf]; simpl; [by repeat constructor|].
  destruct (Z.leb_spec (pr x) (pr y)); constructor; try done.
  - rewrite Forall_forall in Hf |- *. intros z [->|?]%pinsert_elem; auto.
  - by constructor.
  - constructor; [lia|]. eapply Forall_impl; [done|]. simpl. lia.
Qed.

Lemma pinsert_nodup pr x l : x ∉ l -> NoDup l -> NoDup (pinsert pr x l).
Proof.
  intros Hx Hnd. destruct (pinsert_split pr x l) as (l1 & l2 & -> & -> & _).
  apply NoDup_mid. set_solver.
Qed.

Lemma lremove_sorted pr x l : sorted_desc pr l -> sorted_desc pr (lremove x l).
Proof.
  induction 1 as [|y l Hs IH Hf]; [constructor|]. unfold lremove. rewrite filter_cons.
  case_decide; [|done]. constructor; [done|].
  rewrite Forall_forall in Hf |- *. intros z [_ ?]%lremove_elem. auto.
Qed.

Lemma lremove_nodup x l : NoDup l -> NoDup (lremove x l).
Proof. apply NoDup_filter. Qed.

Lemma sorted_desc_prio σ σ' l :
  (forall x, prio σ' x = prio σ x) -> sorted_desc (prio σ) l -> sorted_desc (prio σ') l.
Proof. intros He. apply sorted_desc_ext. intros. by rewrite He. Qed.

Lemma set_list_lists q l σ q' : lists (set_list q l σ) q' = if decide (q' = q) then l else lists σ q'.
Proof. done. Qed.

(** A task enters or leaves a list other than the ready-to-run list. *)
Lemma sinv_move σ x st q l :
  sinv σ -> is_Some (attrs σ !! x) -> q ∈ tasklists -> q <> g_readytorun ->
  (TLIST_BLOCKED (state σ x) = NULL \/ TLIST_BLOCKED (state σ x) = q) ->
  (TLIST_BLOCKED st = NULL \/ TLIST_BLOCKED st = q) ->
  (forall y, y ∈ l <-> (y = x /\ TLIST_BLOCKED st = q) \/ (y <> x /\ y ∈ lists σ q)) ->
  NoDup l ->
  (forall st', TLIST_BLOCKED st' = q -> TLIST_ISPRIORITIZED st' = true -> sorted_desc (prio σ) l) ->
  sinv (upd_attr x (set_state st) (set_list q l σ)).
Proof.
  intros [Hw Hr Hn Hs Hi Hl] Hx Hq Hne Hst Hst' Hin Hnd Hso.
  set (σ' := upd_attr x (set_state st) (set_list q l σ)).
  assert (forall y, prio σ' y = prio σ y) as Hp
    by exact (fun y => attr_upd_ne sched_priority 0 x (set_state st) (set_list q l σ) y (fun _ => eq_refl)).
  assert (forall y, state σ' y = if decide (y = x) then st else state σ y) as Hs'
    by exact (fun y => state_upd x st (set_list q l σ) y Hx).
  assert (ready σ' = ready σ) as Hrd by by apply set_list_ne.
  assert (running σ' = running σ) as Hrun by (unfold running; by rewrite Hrd).
  assert (NULL ∉ tasklists) as HNull by (unfold tasklists; set_solver).
  split.
  - intros y q' Hq'. change (lists σ' q') with (lists (set_list q l σ) q').
    rewrite set_list_lists, Hs'. specialize (Hw y q' Hq').
    destruct (decide (q' = q)) as [->|Hq2], (decide (y = x)) as [->|]; rewrite ?Hin.
    + naive_solver.
    + naive_solver.
    + rewrite Hw. assert (q' <> NULL) by (by intros ->). split; intros; destruct Hst, Hst'; congruence.
    + done.
  - intros y. rewrite Hs', Hrun, <- Hr. case_decide; [subst y|done]. split; intros E.
    + subst st. by destruct Hst' as [[=]|<-].
    + rewrite E in Hst. by destruct Hst as [[=]|<-].
  - intros q' Hq'. change (lists σ' q') with (lists (set_list q l σ) q').
    rewrite set_list_lists. case_decide; auto.
  - intros st' Hpr. change (lists σ' (TLIST_BLOCKED st')) with (lists (set_list q l σ) (TLIST_BLOCKED st')).
    eapply sorted_desc_prio; [done|]. rewrite set_list_lists. case_decide; eauto.
  - rewrite Hrd. destruct Hi as (R & i & ? & ? & Hi). exists R, i. rewrite Hp. split_and!; auto.
    intros y. unfold σ'. rewrite upd_attr_exists. fold σ'. rewrite Hp. apply Hi.
  - intros y. unfold σ'. rewrite attr_upd_ne by done. apply Hl.
Qed.

Lemma tlist_blocked st :
  is_blocked st = true -> TLIST_BLOCKED st ∈ tasklists /\ TLIST_BLOCKED st <> g_readytorun.
Proof. destruct st; (discriminate || (intros _; split; [unfold tasklists; set_solver|done])). Qed.

Lemma tlist_prioritized_in st : TLIST_ISPRIORITIZED st = true -> TLIST_BLOCKED st ∈ tasklists.
Proof. destruct st; (discriminate || (intros _; cbn; unfold tasklists; repeat first [by left|right])). Qed.

Lemma tlist_prioritized st st' :
  TLIST_BLOCKED st = TLIST_BLOCKED st' -> TLIST_ISPRIORITIZED st = TLIST_ISPRIORITIZED st'.
Proof. by destruct st, st'. Qed.

Lemma sinv_unlisted σ x :
  sinv σ -> state σ x = TSTATE_TASK_INVALID -> unlisted tasklists σ x.
Proof.
  intros Hi Hx q Hq Hin. apply (inv_where _ Hi _ _ Hq) in Hin. rewrite Hx in Hin. subst q.
  unfold tasklists in Hq. set_solver.
Qed.

Lemma sinv_insert σ x st :
  sinv σ -> is_Some (attrs σ !! x) -> state σ x = TSTATE_TASK_INVALID ->
  TLIST_BLOCKED st ∈ tasklists -> TLIST_BLOCKED st <> g_readytorun ->
  sinv (upd_attr x (set_state st) (set_list (TLIST_BLOCKED st)
    (if TLIST_ISPRIORITIZED st then pinsert (prio σ) x (lists σ (TLIST_BLOCKED st))
     else lists σ (TLIST_BLOCKED st) ++ [x]) σ)).
Proof.
  intros Hi Hx Hst Hq Hne. pose proof (sinv_unlisted _ _ Hi Hst _ Hq) as Hu.
  pose proof (inv_nodup _ Hi _ Hq) as Hnd.
  apply sinv_move; auto.
  - rewrite Hst. by left.
  - intros y. destruct (TLIST_ISPRIORITIZED st); [rewrite pinsert_elem|]; set_solver.
  - destruct (TLIST_ISPRIORITIZED st); [by apply pinsert_nodup|]. apply NoDup_app.
    split_and!; [done| |apply NoDup_singleton]. intros y ? ->%list_elem_of_singleton. done.
  - intros st' E1 E2. rewrite (tlist_prioritized st' st) in E2 by done. rewrite E2.
    by apply pinsert_sorted, (inv_sorted _ Hi).
Qed.

Lemma sinv_remove_blocked σ x :
  sinv σ -> is_blocked (state σ x) = true -> sinv (spec_remove_blocked x σ).
Proof.
  intros Hi Hst. destruct (tlist_blocked _ Hst) as [Hq Hne].
  assert (is_Some (attrs σ !! x)) by (apply (attr_some task_state TSTATE_TASK_INVALID); by intros E; rewrite E in Hst).
  apply sinv_move; auto.
  - intros y. rewrite lremove_elem. assert (NULL <> TLIST_BLOCKED (state σ x)) by by destruct (state σ x).
    naive_solver.
  - by apply lremove_nodup, inv_nodup.
  - intros st' <- Hp. by apply lremove_sorted, inv_sorted.
Qed.

Lemma ready_where σ x : sinv σ -> x ∈ ready σ <-> TLIST_BLOCKED (state σ x) = g_readytorun.
Proof. intros Hi. apply (inv_where _ Hi). left. Qed.

Lemma ready_split σ x :
  sinv σ -> x ∈ ready σ -> prio σ x <> 0 ->
  exists R1 R2 i, ready σ = R1 ++ x :: R2 ++ [i] /\ prio σ i = 0.
Proof.
  intros Hi Hx Hp. destruct (inv_idle _ Hi) as (R & i & E & Hpi & _). rewrite E in Hx.
  apply elem_of_app in Hx as [Hx|Hx%list_elem_of_singleton]; [|congruence].
  apply list_elem_of_split in Hx as (R1 & R2 & ->). exists R1, R2, i.
  by rewrite E, <- app_assoc.
Qed.

Lemma ready_ne σ : sinv σ -> ready σ <> [].
Proof. intros Hi E. destruct (inv_idle _ Hi) as (R & i & E' & _). rewrite E in E'. by destruct R. Qed.

(** The state after [spec_remove_readytorun]. *)
Lemma remove_ready_next σ x :
  sinv σ -> x ∈ ready σ -> prio σ x <> 0 ->
  let nx := hd_or NULL (lremove x (ready σ)) in
  nx ∈ ready σ /\ nx <> x /\ (x = running σ -> nx = hd_or NULL (List.tl (ready σ))) /\
  (x <> running σ -> nx = running σ).
Proof.
  intros Hi Hx Hp. destruct (ready_split _ _ Hi Hx Hp) as (R1 & R2 & i & E & Hpi).
  pose proof (inv_nodup _ Hi g_readytorun ltac:(left)) as Hnd. fold (ready σ) in Hnd.
  rewrite E in Hnd |- *. rewrite lremove_mid by done. unfold running. rewrite E.
  destruct R1 as [|y R1]; simpl in *.
  - split_and!; [destruct R2; simpl; set_solver| |done|done].
    nodup_simpl. destruct R2; simpl; [congruence|]. nodup_simpl. done.
  - nodup_simpl. split_and!; [left|done|congruence|done].
Qed.

(** A change of the ready-to-run list alone. *)
Lemma sinv_ready_change σ σ' :
  sinv σ -> (forall y, prio σ' y = prio σ y) -> (forall y, lock σ' y = lock σ y) ->
  (forall y, is_Some (attrs σ' !! y) -> is_Some (attrs σ !! y)) ->
  (forall q, q <> g_readytorun -> lists σ' q = lists σ q) ->
  (forall y q, q ∈ tasklists -> q <> g_readytorun ->
     TLIST_BLOCKED (state σ' y) = q <-> TLIST_BLOCKED (state σ y) = q) ->
  (forall y, y ∈ ready σ' <-> TLIST_BLOCKED (state σ' y) = g_readytorun) ->
  (forall y, state σ' y = TSTATE_TASK_RUNNING <-> y = running σ') ->
  NoDup (ready σ') -> sorted_desc (prio σ) (ready σ') ->
  (forall R i, ready σ = R ++ [i] -> prio σ i = 0 -> exists R', ready σ' = R' ++ [i]) ->
  sinv σ'.
Proof.
  intros [Hw Hr Hn Hs (R & i & Hi1 & Hi2 & Hi3) Hl] Hp Hlk Hex Hls Hst Hin Hrun Hnd Hso Hid.
  split.
  - intros y q Hq. destruct (decide (q = g_readytorun)) as [->|]; [apply Hin|].
    rewrite Hls, Hw, Hst by done. done.
  - done.
  - intros q Hq. destruct (decide (q = g_readytorun)) as [->|]; [done|]. rewrite Hls by done. auto.
  - intros st Hpr. eapply sorted_desc_prio; [done|].
    destruct (decide (TLIST_BLOCKED st = g_readytorun)) as [->|]; [done|]. rewrite Hls by done. auto.
  - destruct (Hid R i Hi1 Hi2) as [R' ->]. exists R', i. rewrite Hp. split_and!; [done..|].
    intros x Hx%Hex. rewrite Hp. auto.
  - intros x. by rewrite Hlk.
Qed.

Lemma sinv_remove_ready σ x :
  sinv σ -> x ∈ ready σ -> prio σ x <> 0 -> sinv (spec_remove_readytorun x σ).2.
Proof.
  intros Hi Hx Hp. pose proof (remove_ready_next _ _ Hi Hx Hp) as (Hnx & Hne & Hh & Hh').
  set (nx := hd_or NULL (lremove x (ready σ))) in *. set (σ' := (spec_remove_readytorun x σ).2).
  assert (forall y, y ∈ ready σ -> is_Some (attrs σ !! y)) as Hsome.
  { intros y Hy%(ready_where _ _ Hi). apply (attr_some task_state TSTATE_TASK_INVALID). intros E. by rewrite E in Hy. }
  assert (forall y, prio σ' y = prio σ y) as Hpr.
  { intros y. unfold σ', spec_remove_readytorun. cbn [snd]. rewrite attr_upd_ne by done.
    change (attr ?p ?d (set_list ?q ?l ?s)) with (attr p d s). case_decide; [by rewrite attr_upd_ne|done]. }
  assert (forall y, state σ' y = if decide (y = x) then TSTATE_TASK_INVALID else
            if decide (y = nx) then TSTATE_TASK_RUNNING else state σ y) as Hst.
  { intros y. unfold σ', spec_remove_readytorun. cbn [snd].
    rewrite state_upd by (cbn [attrs set_list]; case_decide; [apply upd_attr_exists|]; auto).
    change (attr ?p ?d (set_list ?q ?l ?s)) with (attr p d s). case_decide; [done|].
    destruct (decide (x = running σ)) as [Hr|Hr].
    - rewrite <- (Hh Hr), state_upd by auto. done.
    - case_decide; [|done]. subst y. rewrite (Hh' Hr). by apply (inv_run _ Hi). }
  assert (ready σ' = lremove x (ready σ)) as Hrd by apply set_list_eq.
  assert (forall q, q <> g_readytorun -> lists σ' q = lists σ q) as Hls.
  { intros q Hq. unfold σ', spec_remove_readytorun. cbn [snd lists upd_attr].
    rewrite set_list_ne by done. by case_decide. }
  assert (running σ' = nx) as Hrun by (unfold running; by rewrite Hrd).
  apply (sinv_ready_change σ); try done.
  - intros y. unfold σ', spec_remove_readytorun. cbn [snd]. rewrite attr_upd_ne by done.
    change (attr ?p ?d (set_list ?q ?l ?s)) with (attr p d s). case_decide; [by rewrite attr_upd_ne|done].
  - intros y. unfold σ', spec_remove_readytorun. cbn [snd]. rewrite upd_attr_exists. cbn [attrs set_list].
    case_decide; [by rewrite upd_attr_exists|done].
  - intros y q Hq Hqr. rewrite Hst. assert (NULL <> q) by (intros <-; unfold tasklists in Hq; set_solver).
    apply (ready_where _ _ Hi) in Hx, Hnx. case_decide; [subst y|case_decide; [subst y|done]];
      cbn; split; congruence.
  - intros y. rewrite Hrd, Hst, lremove_elem, (ready_where _ _ Hi).
    apply (ready_where _ _ Hi) in Hnx. case_decide; [naive_solver|]. case_decide; [subst; naive_solver|naive_solver].
  - intros y. rewrite Hst, Hrun. case_decide; [subst; naive_solver|]. case_decide; [naive_solver|].
    split; [|done]. intros Hy%(inv_run _ Hi). destruct (decide (x = running σ)); [congruence|].
    exfalso. rewrite <- Hh' in Hy by done. done.
  - rewrite Hrd. apply lremove_nodup, (inv_nodup _ Hi). left.
  - rewrite Hrd. apply lremove_sorted, (inv_sorted _ Hi TSTATE_TASK_RUNNING). done.
  - intros R i E Hpi. rewrite Hrd, E. exists (lremove x R). unfold lremove.
    rewrite filter_app, (filter_cons_True _ i) by congruence. done.
Qed.

(** The states after [spec_ready]. *)
Lemma spec_ready_state x σ y :
  is_Some (attrs σ !! x) -> is_Some (attrs σ !! running σ) -> x <> running σ ->
  state (spec_ready x σ).2 y =
    if decide (y = x)
    then if prio σ x <=? prio σ (running σ) then TSTATE_TASK_READYTORUN else TSTATE_TASK_RUNNING
    else if decide (y = running σ /\ prio σ (running σ) < prio σ x) then TSTATE_TASK_READYTORUN
    else state σ y.
Proof.
  intros Hx Hr Hne. unfold spec_ready. destruct (Z.leb_spec (prio σ x) (prio σ (running σ))); cbn [snd].
  - rewrite state_upd by done. case_decide; [done|]. rewrite decide_False by lia. done.
  - rewrite !state_upd by (rewrite ?upd_attr_exists; done).
    repeat case_decide; try done; try congruence; naive_solver.
Qed.

Lemma spec_ready_lock x σ y : lock (spec_ready x σ).2 y = lock σ y.
Proof. unfold spec_ready. case_match; cbn [snd]; by rewrite !attr_upd_ne. Qed.

Lemma spec_ready_exists x σ y : is_Some (attrs (spec_ready x σ).2 !! y) <-> is_Some (attrs σ !! y).
Proof. unfold spec_ready. case_match; cbn [snd]; by rewrite !upd_attr_exists. Qed.

Lemma spec_ready_running x σ :
  ready σ <> [] ->
  running (spec_ready x σ).2 = if prio σ x <=? prio σ (running σ) then running σ else x.
Proof. intros. unfold running at 1. by rewrite spec_ready_list, pinsert_hd. Qed.

Lemma pinsert_last pr x R i : pr i < pr x -> exists R', pinsert pr x (R ++ [i]) = R' ++ [i].
Proof.
  intros Hlt. induction R as [|y R [R' IH]]; simpl.
  - destruct (Z.leb_spec (pr x) (pr i)); [lia|]. by exists [x].
  - destruct (Z.leb_spec (pr x) (pr y)); [rewrite IH; by exists (y :: R')|by exists (x :: y :: R)].
Qed.

Lemma user_prio σ x : sinv σ -> user_task σ x -> SCHED_PRIORITY_MIN <= prio σ x <= SCHED_PRIORITY_MAX.
Proof.
  intros Hi [Hx Hp]. destruct (inv_idle _ Hi) as (R & i & _ & Hpi & Hall). apply Hall; congruence.
Qed.

(** Making ready a task that is in no list, or is about to leave its list. *)
Lemma sinv_ready σ x :
  sinv (upd_attr x (set_state TSTATE_TASK_INVALID) σ) -> user_task σ x -> sinv (spec_ready x σ).2.
Proof.
  intros Hi Hu. pose proof Hu as [Hx Hp]. set (τ := upd_attr x (set_state TSTATE_TASK_INVALID) σ) in *.
  assert (forall y, prio τ y = prio σ y) as Hpr by (intros; by apply attr_upd_ne).
  assert (forall y, state τ y = if decide (y = x) then TSTATE_TASK_INVALID else state σ y) as Hst
    by (intros; by apply state_upd).
  assert (x ∉ ready σ) as Hxr.
  { change (x ∉ ready τ). rewrite (ready_where _ _ Hi), Hst, decide_True by done. done. }
  pose proof (ready_ne _ Hi) as Hne. change (ready τ) with (ready σ) in Hne.
  pose proof (running_elem _ Hne) as Hre.
  assert (x <> running σ) as Hxn by congruence.
  assert (state σ (running σ) = TSTATE_TASK_RUNNING) as Hrs.
  { pose proof (Hst (running σ)) as Hsr. rewrite decide_False in Hsr by congruence.
    rewrite <- Hsr. by apply (inv_run _ Hi). }
  assert (is_Some (attrs σ !! running σ)) as Hrx by (apply (attr_some task_state TSTATE_TASK_INVALID); congruence).
  assert (1 <= prio σ x) as Hpx.
  { rewrite <- Hpr. apply (user_prio _ _ Hi). split; [by apply upd_attr_exists|by rewrite Hpr]. }
  apply (sinv_ready_change τ); try done.
  - intros y. by rewrite spec_ready_prio, Hpr.
  - intros y. rewrite spec_ready_lock. symmetry. by apply attr_upd_ne.
  - intros y. rewrite spec_ready_exists. unfold τ. by rewrite upd_attr_exists.
  - intros q Hq. by rewrite spec_ready_lists.
  - intros y q Hq Hqr. rewrite spec_ready_state, Hst by done. 
    assert (NULL <> q) by (intros <-; unfold tasklists in Hq; set_solver).
    case_decide; [case_match; cbn; split; congruence|].
    case_decide as E; [|done]. destruct E as [-> _]. rewrite Hrs. cbn. split; congruence.
  - intros y. rewrite spec_ready_list, pinsert_elem. change (ready σ) with (ready τ).
    rewrite (ready_where _ _ Hi), Hst, spec_ready_state by done.
    case_decide; [case_match; naive_solver|]. case_decide as E; [|naive_solver].
    destruct E as [-> _]. rewrite Hrs. naive_solver.
  - intros y. rewrite spec_ready_running, spec_ready_state by done.
    pose proof (inv_run _ Hi y) as Hy. change (running τ) with (running σ) in Hy. rewrite Hst in Hy.
    destruct (Z.leb_spec (prio σ x) (prio σ (running σ))).
    + case_decide; [naive_solver|]. rewrite decide_False by lia. done.
    + case_decide; [done|]. case_decide; naive_solver.
  - rewrite spec_ready_list. apply pinsert_nodup; [done|]. apply (inv_nodup _ Hi g_readytorun). left.
  - rewrite spec_ready_list. apply (sorted_desc_prio σ τ); [done|]. apply pinsert_sorted.
    eapply (sorted_desc_prio τ); [done|]. by apply (inv_sorted _ Hi TSTATE_TASK_RUNNING).
  - intros R i E Hpi. rewrite spec_ready_list. change (ready σ) with (ready τ). rewrite E.
    apply pinsert_last. rewrite <- Hpr. lia.
Qed.

(** The list operations change no attribute but the state. *)
Definition keeps_attrs σ σ' : Prop :=
  (forall y, is_Some (attrs σ' !! y) <-> is_Some (attrs σ !! y)) /\
  (forall B (p : tcb_s -> B) d y, (forall a st, p (set_state st a) = p a) ->
     attr p d σ' y = attr p d σ y).

Lemma keeps_refl σ : keeps_attrs σ σ.
Proof. done. Qed.
Lemma keeps_trans σ1 σ2 σ3 : keeps_attrs σ1 σ2 -> keeps_attrs σ2 σ3 -> keeps_attrs σ1 σ3.
Proof.
  intros [E1 A1] [E2 A2]. split; [intros; by rewrite E2, E1|]. intros. by rewrite A2, A1.
Qed.
Lemma keeps_upd σ0 σ x st : keeps_attrs σ0 σ -> keeps_attrs σ0 (upd_attr x (set_state st) σ).
Proof.
  intros [E A]. split; [intros; by rewrite upd_attr_exists|]. intros. by rewrite attr_upd_ne, A.
Qed.
Lemma keeps_list σ0 σ q l : keeps_attrs σ0 σ -> keeps_attrs σ0 (set_list q l σ).
Proof. done. Qed.

Lemma keeps_spec_ready σ x : keeps_attrs σ (spec_ready x σ).2.
Proof. unfold spec_ready. case_match; cbn [snd]; repeat apply keeps_upd; done. Qed.
Lemma keeps_add_readytorun σ x : keeps_attrs σ (spec_add_readytorun x σ).2.
Proof.
  unfold spec_add_readytorun. case_match; cbn [snd]; [by apply keeps_upd|apply keeps_spec_ready].
Qed.
Lemma keeps_remove_readytorun σ x : keeps_attrs σ (spec_remove_readytorun x σ).2.
Proof. apply keeps_upd. case_decide; [by apply keeps_upd|done]. Qed.
Lemma keeps_ready_all l σ : keeps_attrs σ (spec_ready_all l σ).2.
Proof.
  revert σ. induction l as [|x l IH]; intros σ; [apply keeps_refl|]. rewrite spec_ready_all_cons.
  cbn [snd]. eapply keeps_trans, IH. apply (keeps_spec_ready (set_list g_pendingtasks l σ)).
Qed.

Lemma keeps_merge_pending σ : keeps_attrs σ (spec_merge_pending σ).2.
Proof. apply keeps_ready_all. Qed.

Lemma pending_state σ x : sinv σ -> x ∈ pending σ <-> state σ x = TSTATE_TASK_PENDING.
Proof.
  intros Hi. unfold pending. rewrite (inv_where _ Hi) by (unfold tasklists; set_solver).
  by destruct (state σ x).
Qed.

Lemma pending_user σ x : sinv σ -> x ∈ pending σ -> user_task σ x.
Proof.
  intros Hi Hx. assert (state σ x = TSTATE_TASK_PENDING) as E by by apply pending_state.
  split; [apply (attr_some task_state TSTATE_TASK_INVALID); congruence|].
  destruct (inv_idle _ Hi) as (R & i & Hr & Hp & Hall). intros Hpx.
  assert (is_Some (attrs σ !! x)) as Hs by (apply (attr_some task_state TSTATE_TASK_INVALID); congruence).
  destruct (decide (x = i)) as [->|Hxi]; [|specialize (Hall x Hs Hxi); unfold SCHED_PRIORITY_MIN in *; lia].
  assert (i ∈ ready σ) as Hin by (rewrite Hr; set_solver).
  apply (ready_where _ _ Hi) in Hin. rewrite E in Hin. done.
Qed.

Lemma keeps_user σ σ' x : keeps_attrs σ σ' -> user_task σ' x <-> user_task σ x.
Proof. intros [E A]. unfold user_task. rewrite E, A by done. done. Qed.

Lemma sinv_ready_all l σ : pending σ = l -> sinv σ -> sinv (spec_ready_all l σ).2.
Proof.
  revert σ. induction l as [|x l IH]; intros σ El Hi; [done|].
  assert (x ∈ pending σ) as Hx by (rewrite El; left).
  pose proof (pending_user _ _ Hi Hx) as Hu. pose proof (proj1 (pending_state _ _ Hi) Hx) as Hst.
  rewrite spec_ready_all_cons. cbn [snd]. apply IH.
  { unfold pending. rewrite spec_ready_lists by done. by apply set_list_eq. }
  assert (g_pendingtasks ∈ tasklists) as Hq by (unfold tasklists; set_solver).
  pose proof (inv_nodup _ Hi _ Hq) as Hnd. fold (pending σ) in Hnd. rewrite El in Hnd.
  apply NoDup_cons in Hnd as [Hxl Hnd].
  apply sinv_ready; [|done]. apply sinv_move; auto.
  - apply Hu.
  - rewrite Hst. by right.
  - intros y. fold (pending σ). rewrite El. cbn. set_solver.
  - intros st E Hp. pose proof (inv_sorted _ Hi st Hp) as Hs. rewrite E in Hs. fold (pending σ) in Hs.
    rewrite El in Hs. by apply StronglySorted_inv in Hs as [? _].
Qed.

Lemma sinv_merge_pending σ : sinv σ -> sinv (spec_merge_pending σ).2.
Proof. by apply sinv_ready_all. Qed.

Lemma upd_attr_id x f σ a : attrs σ !! x = Some a -> f a = a -> upd_attr x f σ = σ.
Proof.
  intros Ha Hf. destruct σ as [L A]. unfold upd_attr. simpl in *. f_equal. apply map_eq. intros y.
  destruct (decide (x = y)) as [->|]; [|by rewrite lookup_alter_ne].
  rewrite lookup_alter_eq, Ha. simpl. by rewrite Hf.
Qed.

Lemma upd_invalid_id σ x :
  is_Some (attrs σ !! x) -> state σ x = TSTATE_TASK_INVALID ->
  upd_attr x (set_state TSTATE_TASK_INVALID) σ = σ.
Proof.
  intros [a Ha] Hs. apply (upd_attr_id _ _ _ a Ha). unfold attr in Hs. rewrite Ha in Hs.
  destruct a. simpl in Hs. by subst.
Qed.

Lemma sinv_add_readytorun σ x :
  sinv σ -> user_task σ x -> state σ x = TSTATE_TASK_INVALID -> sinv (spec_add_readytorun x σ).2.
Proof.
  intros Hi Hu Hs. unfold spec_add_readytorun. case_match.
  - apply (sinv_insert σ x TSTATE_TASK_PENDING); auto; [apply Hu|unfold tasklists; set_solver].
  - apply sinv_ready; [|done]. rewrite upd_invalid_id; [done|apply Hu|done].
Qed.

Lemma add_readytorun_running σ x :
  ready σ <> [] ->
  running (spec_add_readytorun x σ).2 = (if (spec_add_readytorun x σ).1 then x else running σ) /\
  (0 < lock σ (running σ) -> (spec_add_readytorun x σ).1 = false).
Proof.
  intros Hne. unfold spec_add_readytorun. case_match eqn:E; [done|]. split.
  - rewrite spec_ready_running by done. unfold spec_ready. by case_match.
  - intros Hl. unfold spec_ready. destruct (Z.leb_spec (prio σ x) (prio σ (running σ))); [done|].
    apply andb_false_iff in E. rewrite !Z.ltb_ge in E. lia.
Qed.

Lemma add_readytorun_pending σ x :
  (spec_add_readytorun x σ).1 = true \/ lock σ (running σ) <= 0 ->
  pending (spec_add_readytorun x σ).2 = pending σ.
Proof.
  intros Hb. unfold spec_add_readytorun in *. case_match eqn:E.
  - destruct Hb as [[=]|Hb]. apply andb_true_iff in E as [E _]. apply Z.ltb_lt in E. lia.
  - by apply spec_ready_lists.
Qed.

Lemma pinv_add_readytorun σ x :
  ready σ <> [] -> pinv σ -> pinv (spec_add_readytorun x σ).2.
Proof.
  intros Hne Hp Hn. destruct (add_readytorun_running σ x Hne) as [-> Hb].
  rewrite (proj2 (keeps_add_readytorun σ x)) by done.
  destruct (Z.lt_ge_cases 0 (lock σ (running σ))) as [Hl|Hl]; [by rewrite Hb|].
  rewrite add_readytorun_pending in Hn by auto. specialize (Hp Hn). lia.
Qed.

(** * Context switches *)

(** What saving the context of [r] and loading that of the running task does. *)
Definition spec_switch (r : ptr) (σ : sst) (ρ : Z) : sst * Z :=
  let σ' := upd_attr r (set_regs ρ)
              (upd_attr (running σ) (set_timeslice (MSEC2TICK CONFIG_RR_INTERVAL)) σ) in
  (σ', attr xcp_regs 0 σ' (running σ)).
Definition resched (b : bool) (r : ptr) (σ : sst) (ρ : Z) : sst * Z :=
  if b then spec_switch r σ ρ else (σ, ρ).

(** The register context of a task: in the CPU if it is running, saved otherwise. *)
Definition context (σ : sst) (ρ : Z) (t : ptr) : Z :=
  if decide (t = running σ) then ρ else attr xcp_regs 0 σ t.

(** An update of the save area or of the time slice. *)
Lemma sinv_upd_attr σ x f :
  (forall a, sched_priority (f a) = sched_priority a) -> (forall a, task_state (f a) = task_state a) ->
  (forall y, 0 <= lock (upd_attr x f σ) y <= MAX_LOCK_COUNT) ->
  sinv σ -> sinv (upd_attr x f σ).
Proof.
  intros Hfp Hfs Hfl [Hw Hr Hn Hs (R & i & Hi1 & Hi2 & Hi3) Hl].
  assert (forall y, prio (upd_attr x f σ) y = prio σ y) as Hp by (intros; by apply attr_upd_ne).
  assert (forall y, state (upd_attr x f σ) y = state σ y) as Hst by (intros; by apply attr_upd_ne).
  split; try done.
  - intros y q. rewrite Hst. apply Hw.
  - intros y. rewrite Hst. apply Hr.
  - intros st ?. eapply sorted_desc_prio; [done|]. by apply Hs.
  - exists R, i. rewrite Hp. split_and!; [done..|]. intros y. rewrite upd_attr_exists, Hp. apply Hi3.
Qed.

Lemma spec_switch_lock r σ ρ y : lock (spec_switch r σ ρ).1 y = lock σ y.
Proof. unfold spec_switch. cbn [fst]. by rewrite !attr_upd_ne. Qed.

Lemma sinv_resched b r σ ρ : sinv σ -> sinv (resched b r σ ρ).1.
Proof.
  intros Hi. unfold resched. destruct b; [|done].
  apply sinv_upd_attr; [done|done| |].
  - intros y. change (0 <= lock (spec_switch r σ ρ).1 y <= MAX_LOCK_COUNT). rewrite spec_switch_lock.
    by apply inv_lock.
  - apply sinv_upd_attr; [done|done| |done]. intros y. rewrite attr_upd_ne by done. by apply inv_lock.
Qed.

Lemma pinv_resched b r σ ρ : pinv σ -> pinv (resched b r σ ρ).1.
Proof.
  unfold resched. destruct b; [|done]. intros Hp Hn. rewrite spec_switch_lock. by apply Hp.
Qed.

Lemma context_resched b σ σ' ρ t :
  (forall y, is_Some (attrs σ' !! y) <-> is_Some (attrs σ !! y)) ->
  (forall y, attr xcp_regs 0 σ' y = attr xcp_regs 0 σ y) ->
  is_Some (attrs σ !! running σ) -> (b = false -> running σ' = running σ) ->
  context (resched b (running σ) σ' ρ).1 (resched b (running σ) σ' ρ).2 t = context σ ρ t.
Proof.
  intros E A Hr Hb. unfold resched, context. destruct b; cbn [fst snd].
  - change (running (spec_switch (running σ) σ' ρ).1) with (running σ').
    assert (forall y, attr xcp_regs 0 (spec_switch (running σ) σ' ρ).1 y =
              if decide (y = running σ) then ρ else attr xcp_regs 0 σ y) as Hx.
    { intros y. unfold spec_switch. cbn [fst]. case_decide as Ey.
      - subst y. rewrite attr_upd_eq by (rewrite upd_attr_exists, E; done). cbn.
        apply attr_const. by rewrite upd_attr_exists, E.
      - rewrite attr_upd_other by done. rewrite attr_upd_ne by done. by apply A. }
    change (spec_switch (running σ) σ' ρ).2 with
      (attr xcp_regs 0 (spec_switch (running σ) σ' ρ).1 (running σ')).
    rewrite !Hx. repeat case_decide; congruence.
  - rewrite (Hb eq_refl). case_decide; [done|]. by apply A.
Qed.
End Pure.

(** * The operations on the abstract scheduler *)

Definition spec_unblock (x : ptr) (σ : sst) (ρ : Z) : bool * (sst * Z) :=
  let '(b, σ') := spec_add_readytorun x (spec_remove_blocked x σ) in
  (b, resched b (running σ) σ' ρ).

Definition spec_block (x : ptr) (st : tstate_e) (σ : sst) (ρ : Z) : bool * (sst * Z) :=
  let '(b1, σ1) := spec_remove_readytorun x σ in
  let '(b2, σ2) := spec_merge_pending (spec_add_blocked x st σ1) in
  (b1 || b2, resched (b1 || b2) (running σ) σ2 ρ).

Definition spec_release (σ : sst) (ρ : Z) : bool * (sst * Z) :=
  let '(b, σ') := spec_merge_pending σ in (b, resched b (running σ) σ' ρ).

Definition spec_reprio (x : ptr) (p : Z) (σ : sst) (ρ : Z) : bool * (sst * Z) :=
  let '(b1, σ1) := spec_remove_readytorun x σ in
  let '(b2, σ2) := spec_add_readytorun x (upd_attr x (set_priority p) σ1) in
  let b := xorb b1 b2 in
  (b, resched b (running σ) (if b then (spec_merge_pending σ2).2 else σ2) ρ).

(** A task that is not ready keeps its list, at its new place if the list is prioritized. *)
Definition spec_requeue (x : ptr) (p : Z) (σ : sst) : sst :=
  let q := TLIST_BLOCKED (state σ x) in
  if TLIST_ISPRIORITIZED (state σ x) then
    let τ := upd_attr x (set_priority p) (set_list q (lremove x (lists σ q)) σ) in
    set_list q (pinsert (prio τ) x (lists τ q)) τ
  else upd_attr x (set_priority p) σ.

Definition spec_set_priority (x : ptr) (p : Z) (σ : sst) (ρ : Z) : bool * (sst * Z) :=
  match state σ x with
  | TSTATE_TASK_RUNNING =>
      if p <=? prio σ (hd_or NULL (List.tl (ready σ))) then spec_reprio x p σ ρ
      else (false, (upd_attr x (set_priority p) σ, ρ))
  | TSTATE_TASK_READYTORUN =>
      if prio σ (running σ) <? p then spec_reprio x p σ ρ
      else (false, ((spec_add_readytorun x
                       (upd_attr x (set_priority p) (spec_remove_readytorun x σ).2)).2, ρ))
  | _ => (false, (spec_requeue x p σ, ρ))
  end.

(** The scheduler state represents [σ], which satisfies the invariant. *)
Definition sched_ok {K} (s : kernel K) (σ : sst) : Prop := srep tasklists (tmem s) σ /\ sinv σ /\ pinv σ.

Section Top.
Context {K : Type}.
#[local] Abbreviation sched_t := (kernel K).
Variable others : M sched_t unit.
Implicit Types (σ : sst) (x y q : ptr) (s : sched_t).

Lemma wp_onm {A} (c : M tmem_t A) (Q : A -> sched_t -> Prop) s :
  wp c (fun a m => Q a (mksched m (cpu_regs s) (env s))) (tmem s) -> wp (onm c) Q s.
Proof. unfold wp, onm. by destruct (c (tmem s)) as [[a m]|]. Qed.

(** The rest of a switch: a thread that gave up the CPU waits for it. *)
Definition after (b : bool) (σρ : sst * Z) (i : kenv K) (Q : unit -> sched_t -> Prop) : Prop :=
  forall m, srep tasklists m σρ.1 ->
    wp (if b && negb (in_irq i) then others else ret tt) Q (mksched m σρ.2 i).

Lemma swp_switch r s σ Q :
  srep tasklists (tmem s) σ -> is_Some (attrs σ !! r) -> ready σ <> [] ->
  after true (spec_switch r σ (cpu_regs s)) (env s) Q -> wp (switch_from others r) Q s.
Proof.
  intros Hr Hx Hne HQ. unfold switch_from. assert (g_readytorun ∈ tasklists) as Hq by left.
  pose proof (running_elem _ Hne) as Hre.
  destruct (srep_listed_attr _ _ _ _ _ Hr Hq Hre) as [ra Hra].
  apply wp_bind, wp_onm. eapply swp_this_task; [done..|]. 
  apply wp_bind, wp_onm. unfold nxsched_resume_scheduler. sstep.
  apply wp_bind, wp_gets. cbn [cpu_regs]. apply wp_bind, wp_onm. cbn [tmem]. sstep.
  apply wp_bind, wp_onm. cbn [tmem]. sstep. apply wp_bind, wp_modify. cbn [tmem].
  apply wp_bind, wp_gets. unfold intr. cbn [env]. specialize (HQ _ Hr1). by destruct (in_irq (env s)).
Qed.

Lemma swp_when_switch b r s σ Q :
  srep tasklists (tmem s) σ -> is_Some (attrs σ !! r) -> ready σ <> [] ->
  after b (resched b r σ (cpu_regs s)) (env s) Q -> wp (when b (switch_from others r)) Q s.
Proof.
  intros Hr Hx Hne HQ. destruct b; [by eapply swp_switch|]. unfold when. specialize (HQ _ Hr).
  by destruct s.
Qed.

Lemma sinv_insertable σ x :
  sinv σ -> user_task σ x -> state σ x = TSTATE_TASK_INVALID -> insertable tasklists σ x.
Proof.
  intros Hi Hu Hs. pose proof (user_prio _ _ Hi Hu) as Hp. destruct Hu as [[a Ha] _].
  exists a. split; [done|]. split; [by apply sinv_unlisted|]. unfold attr in Hp. rewrite Ha in Hp.
  apply Hp.
Qed.

Lemma keeps_remove_blocked σ x : keeps_attrs σ (spec_remove_blocked x σ).
Proof. by apply keeps_upd. Qed.
Lemma keeps_add_blocked σ x st : keeps_attrs σ (spec_add_blocked x st σ).
Proof. by apply keeps_upd. Qed.

Lemma remove_blocked_state σ x :
  is_Some (attrs σ !! x) -> state (spec_remove_blocked x σ) x = TSTATE_TASK_INVALID.
Proof. intros. unfold spec_remove_blocked. rewrite state_upd by done. by rewrite decide_True. Qed.

Lemma remove_ready_state σ x :
  is_Some (attrs σ !! x) -> state (spec_remove_readytorun x σ).2 x = TSTATE_TASK_INVALID.
Proof.
  intros Hx. unfold spec_remove_readytorun. cbn [snd]. rewrite state_upd; [by rewrite decide_True|].
  cbn [attrs set_list]. case_decide; [by rewrite upd_attr_exists|done].
Qed.

Lemma remove_blocked_ready σ x :
  is_blocked (state σ x) = true -> ready (spec_remove_blocked x σ) = ready σ.
Proof. intros Hb. apply set_list_ne. by apply not_eq_sym, tlist_blocked. Qed.

Lemma running_exists σ : sinv σ -> is_Some (attrs σ !! running σ).
Proof.
  intros Hi. apply (attr_some task_state TSTATE_TASK_INVALID). by rewrite (proj2 (inv_run _ Hi _)).
Qed.

Lemma swp_unblock x s σ Q :
  srep tasklists (tmem s) σ -> sinv σ -> user_task σ x -> is_blocked (state σ x) = true ->
  after (spec_unblock x σ (cpu_regs s)).1 (spec_unblock x σ (cpu_regs s)).2 (env s) Q ->
  wp (up_unblock_task others x) Q s.
Proof.
  intros Hr Hi Hu Hb HQ. pose proof Hu as [Hx _]. assert (g_readytorun ∈ tasklists) as Hq by left.
  assert (g_pendingtasks ∈ tasklists) as Hq2 by (unfold tasklists; set_solver).
  destruct (tlist_blocked _ Hb) as [Hql Hqn].
  pose proof (sinv_remove_blocked _ _ Hi Hb) as Hi1. pose proof (keeps_remove_blocked σ x) as Hk.
  pose proof (remove_blocked_state _ _ Hx) as Hs1.
  unfold up_unblock_task. apply wp_bind, wp_onm. sstep. apply wp_bind, wp_onm. cbn [tmem]. sstep.
  apply wp_bind, wp_assert; [done|]. apply wp_bind, wp_onm. cbn [tmem].
  apply (swp_remove_blocked tasklists _ σ); [done..|by apply (inv_where _ Hi)|done|]. intros m1 Hr1.
  apply wp_bind, wp_onm. cbn [tmem]. eapply swp_add_readytorun; [done..| | | |].
  - apply sinv_insertable; [done| |done]. by apply (keeps_user _ _ _ Hk).
  - by apply ready_ne.
  - by apply inv_lock.
  - intros m2 Hr2. unfold spec_unblock in HQ.
    destruct (spec_add_readytorun x (spec_remove_blocked x σ)) as [b σ'] eqn:E.
    eapply swp_when_switch; cbn [fst snd tmem] in *; [done| | |done].
    + pose proof (keeps_add_readytorun (spec_remove_blocked x σ) x) as [Hk2 _]. rewrite E in Hk2.
      apply Hk2, Hk, running_exists, Hi.
    + apply ready_ne. pose proof (sinv_add_readytorun (spec_remove_blocked x σ) x) as H. rewrite E in H.
      apply H; [done| |done]. by apply (keeps_user _ _ _ Hk).
Qed.

(** The outcome of an operation keeps the invariant and every task's context. *)
Definition outcome_ok σ (ρ : Z) (σρ : sst * Z) : Prop :=
  sinv σρ.1 /\ pinv σρ.1 /\ (forall y, is_Some (attrs σρ.1 !! y) <-> is_Some (attrs σ !! y)) /\
  (forall t, context σρ.1 σρ.2 t = context σ ρ t).

Lemma resched_exists b r σ ρ y : is_Some (attrs (resched b r σ ρ).1 !! y) <-> is_Some (attrs σ !! y).
Proof. destruct b; [|done]. cbn [resched spec_switch fst]. by rewrite !upd_attr_exists. Qed.

(** Deferred switches are right when the head of the list changes only with a switch. *)
Lemma outcome_resched b σ ρ σ' :
  sinv σ -> sinv σ' -> pinv σ' -> (forall y, is_Some (attrs σ' !! y) <-> is_Some (attrs σ !! y)) ->
  (forall y, attr xcp_regs 0 σ' y = attr xcp_regs 0 σ y) -> (b = false -> running σ' = running σ) ->
  outcome_ok σ ρ (resched b (running σ) σ' ρ).
Proof.
  intros Hi Hi' Hp Hex Hreg Hrun. split; [by apply sinv_resched|]. split; [by apply pinv_resched|].
  split; [intros; by rewrite resched_exists|]. intros t. apply context_resched; auto using running_exists.
Qed.

Lemma unblock_ok x σ ρ :
  sinv σ -> pinv σ -> user_task σ x -> is_blocked (state σ x) = true ->
  outcome_ok σ ρ (spec_unblock x σ ρ).2.
Proof.
  intros Hi Hp Hu Hb. pose proof Hu as [Hx _].
  pose proof (sinv_remove_blocked _ _ Hi Hb) as Hi1. pose proof (keeps_remove_blocked σ x) as Hk.
  pose proof (remove_blocked_state _ _ Hx) as Hs1. pose proof (remove_blocked_ready _ _ Hb) as Hrd.
  set (σ1 := spec_remove_blocked x σ) in *.
  assert (running σ1 = running σ) as Hrun by (unfold running; by rewrite Hrd).
  assert (user_task σ1 x) as Hu1 by by apply (keeps_user _ _ _ Hk).
  pose proof (sinv_add_readytorun σ1 x Hi1 Hu1 Hs1) as Hi2.
  pose proof (keeps_trans _ _ _ Hk (keeps_add_readytorun σ1 x)) as [Hk1 Hk2].
  pose proof (add_readytorun_running σ1 x (ready_ne _ Hi1)) as [Hrun2 Hlk].
  assert (pinv σ1) as Hp1.
  { intros Hne. rewrite Hrun, (proj2 Hk) by done. apply Hp. intros E. apply Hne. rewrite <- E.
    apply set_list_ne. by destruct (state σ x). }
  pose proof (pinv_add_readytorun σ1 x (ready_ne _ Hi1) Hp1) as Hp2.
  unfold spec_unblock. fold σ1. destruct (spec_add_readytorun x σ1) as [b σ'] eqn:E. cbn [fst snd] in *.
  apply outcome_resched; try done; [by intros; apply Hk2|]. intros ->. congruence.
Qed.

Lemma swp_merge σ m (Q : bool -> tmem_t -> Prop) :
  srep tasklists m σ -> sinv σ ->
  (forall m', srep tasklists m' (spec_merge_pending σ).2 -> Q (spec_merge_pending σ).1 m') ->
  wp nxsched_merge_pending Q m.
Proof.
  intros Hr Hi HQ. apply (swp_merge_pending _ σ); [done|by apply (inv_sorted _ Hi TSTATE_TASK_PENDING)| |done].
  destruct (inv_idle _ Hi) as (R & i & E & Hp & _). exists i. split; [rewrite E; set_solver|].
  intros x Hx%(pending_user _ _ Hi)%(user_prio _ _ Hi). unfold SCHED_PRIORITY_MIN in *. lia.
Qed.

(** [if (g_pendingtasks.head) nxsched_merge_pending();] *)
Lemma swp_merge_if {B C} σ s (b : B) (g : bool -> B) (k : B -> M sched_t C) (Q : C -> sched_t -> Prop) :
  srep tasklists (tmem s) σ -> sinv σ -> (pending σ = [] -> wp (k b) Q s) ->
  (forall m', srep tasklists m' (spec_merge_pending σ).2 ->
     wp (k (g (spec_merge_pending σ).1)) Q (mksched m' (cpu_regs s) (env s))) ->
  wp (h <- onm (head g_pendingtasks) ;;
      y <- (if is_null h then ret b else x <- onm nxsched_merge_pending ;; ret (g x)) ;; k y) Q s.
Proof.
  intros Hr Hi H1 H2. assert (g_pendingtasks ∈ tasklists) as Hq2 by (unfold tasklists; set_solver).
  apply wp_bind, wp_onm. eapply wp_list_head; [done..|]. fold (pending σ). apply wp_bind.
  destruct (pending σ) as [|p l] eqn:E; cbn [hd_or].
  - replace (mksched (tmem s) (cpu_regs s) (env s)) with s by by destruct s. by apply H1.
  - rewrite is_null_ne.
    2: { eapply (srep_ne _ _ _ _ p Hr Hq2). fold (pending σ). rewrite E. left. }
    apply wp_bind, wp_onm. cbn [tmem]. apply (swp_merge σ); [done|done|]. intros m' Hm. by apply wp_ret, H2.
Qed.

Lemma merge_pending_nil σ : pending σ = [] -> spec_merge_pending σ = (false, σ).
Proof. unfold spec_merge_pending. by intros ->. Qed.

Lemma ready_tl σ x : sinv σ -> x ∈ ready σ -> prio σ x <> 0 -> List.tl (ready σ) <> [].
Proof.
  intros Hi Hx Hp. destruct (ready_split _ _ Hi Hx Hp) as (R1 & R2 & i & -> & _).
  destruct R1 as [|a R1]; simpl; [destruct R2|destruct R1]; done.
Qed.

Lemma is_ready_elem σ x : sinv σ -> is_ready (state σ x) = true -> x ∈ ready σ.
Proof. intros Hi Hs. apply (ready_where _ _ Hi). by destruct (state σ x). Qed.

Lemma sinv_add_blocked σ x st :
  sinv σ -> is_Some (attrs σ !! x) -> state σ x = TSTATE_TASK_INVALID -> is_blocked st = true ->
  sinv (spec_add_blocked x st σ).
Proof. intros ??? Hb. destruct (tlist_blocked _ Hb). by apply sinv_insert. Qed.

(** After a task has left the ready-to-run list and been blocked. *)
Lemma block_mid x st σ :
  sinv σ -> user_task σ x -> is_ready (state σ x) = true -> is_blocked st = true ->
  let σ1 := (spec_remove_readytorun x σ).2 in
  let σ2 := spec_add_blocked x st σ1 in
  sinv σ1 /\ insertable tasklists σ1 x /\ sinv σ2 /\ keeps_attrs σ σ2 /\
  ready σ2 = lremove x (ready σ) /\ pending σ2 = pending σ.
Proof.
  intros Hi Hu Hs Hb σ1 σ2. pose proof Hu as [Hx Hp]. pose proof (is_ready_elem _ _ Hi Hs) as Hxr.
  pose proof (sinv_remove_ready _ _ Hi Hxr Hp) as Hi1. fold σ1 in Hi1.
  pose proof (keeps_remove_readytorun σ x) as Hk. fold σ1 in Hk.
  pose proof (remove_ready_state _ _ Hx) as Hs1. fold σ1 in Hs1.
  assert (user_task σ1 x) as Hu1 by by apply (keeps_user _ _ _ Hk).
  destruct (tlist_blocked _ Hb) as [Hql Hqn].
  split; [done|]. split; [by apply sinv_insertable|]. split; [apply sinv_add_blocked; [done|apply Hu1|done..]|].
  split; [eapply keeps_trans, keeps_add_blocked; done|]. split.
  - unfold ready at 1. unfold σ2, spec_add_blocked. cbn [lists upd_attr]. rewrite set_list_ne by done.
    apply set_list_eq.
  - unfold pending, σ2, spec_add_blocked. cbn [lists upd_attr]. rewrite set_list_ne by by destruct st.
    unfold σ1, spec_remove_readytorun. cbn [snd lists upd_attr]. rewrite set_list_ne by done. by case_decide.
Qed.

Lemma swp_block x st s σ Q :
  srep tasklists (tmem s) σ -> sinv σ -> user_task σ x ->
  is_ready (state σ x) = true -> is_blocked st = true ->
  after (spec_block x st σ (cpu_regs s)).1 (spec_block x st σ (cpu_regs s)).2 (env s) Q ->
  wp (up_block_task others x st) Q s.
Proof.
  intros Hr Hi Hu Hs Hb HQ. pose proof Hu as [Hx Hp]. assert (g_readytorun ∈ tasklists) as Hq by left.
  pose proof (is_ready_elem _ _ Hi Hs) as Hxr.
  destruct (block_mid x st σ Hi Hu Hs Hb) as (Hi1 & Hins & Hi2 & Hk & Hrd & Hpd).
  unfold up_block_task. apply wp_bind, wp_onm. sstep. apply wp_bind, wp_onm. cbn [tmem]. sstep.
  apply wp_bind, wp_assert; [done|]. apply wp_bind, wp_onm. cbn [tmem].
  apply (swp_remove_readytorun tasklists _ σ); [done..|by intros _; apply (ready_tl _ x)|]. intros m1 Hr1.
  unfold spec_block in HQ. destruct (spec_remove_readytorun x σ) as [b1 σ1] eqn:E1. cbn [fst snd] in *.
  apply wp_bind, wp_onm. cbn [tmem]. apply (swp_add_blocked tasklists _ σ1); [done|by apply tlist_blocked|done..|].
  intros m2 Hr2. set (σ2 := spec_add_blocked x st σ1) in *.
  assert (is_Some (attrs σ2 !! running σ)) as Hrx by apply (proj1 Hk), running_exists, Hi.
  apply (swp_merge_if σ2 _ b1 (orb b1)); cbn [tmem cpu_regs env]; [done..| |].
  - intros Hnil. rewrite merge_pending_nil, orb_false_r in HQ by done.
    eapply swp_when_switch; [done|done|by apply ready_ne|done].
  - intros m3 Hr3. pose proof (sinv_merge_pending σ2 Hi2) as Hi3.
    pose proof (proj1 (keeps_merge_pending σ2)) as Hk3.
    destruct (spec_merge_pending σ2) as [b2 σ3]. cbn [fst snd] in *.
    eapply swp_when_switch; [done|by apply Hk3|by apply ready_ne|done].
Qed.

Lemma ready_all_running l σ :
  ready σ <> [] -> (spec_ready_all l σ).1 = false -> running (spec_ready_all l σ).2 = running σ.
Proof.
  revert σ. induction l as [|x l IH]; intros σ Hne; [done|]. rewrite spec_ready_all_cons. cbn [fst snd].
  set (τ := set_list g_pendingtasks l σ). assert (ready τ = ready σ) as Eτ by by apply set_list_ne.
  intros [H1 H2]%orb_false_iff. rewrite IH; [|by rewrite spec_ready_list, Eτ; destruct (ready σ); [|simpl; case_match]|done].
  rewrite spec_ready_running by by rewrite Eτ. unfold spec_ready in H1. case_match; [|done].
  unfold running. by rewrite Eτ.
Qed.

Lemma merge_pending_pinv σ : pinv (spec_merge_pending σ).2.
Proof. intros Hn. by rewrite spec_merge_pending_empty in Hn. Qed.

Lemma block_ok x st σ ρ :
  sinv σ -> user_task σ x -> is_ready (state σ x) = true -> is_blocked st = true ->
  outcome_ok σ ρ (spec_block x st σ ρ).2.
Proof.
  intros Hi Hu Hs Hb. pose proof Hu as [Hx Hp]. pose proof (is_ready_elem _ _ Hi Hs) as Hxr.
  destruct (block_mid x st σ Hi Hu Hs Hb) as (Hi1 & Hins & Hi2 & Hk & Hrd & Hpd).
  pose proof (remove_ready_next _ _ Hi Hxr Hp) as (_ & _ & _ & Hh).
  assert ((spec_remove_readytorun x σ).1 = bool_decide (x = running σ)) as Eb1 by done.
  unfold spec_block. destruct (spec_remove_readytorun x σ) as [b1 σ1]. cbn [fst snd] in *.
  set (σ2 := spec_add_blocked x st σ1) in *.
  pose proof (sinv_merge_pending σ2 Hi2) as Hi3. pose proof (merge_pending_pinv σ2) as Hp3.
  pose proof (keeps_trans _ _ _ Hk (keeps_merge_pending σ2)) as [Hk1 Hk2].
  pose proof (ready_all_running (pending σ2) σ2 (ready_ne _ Hi2)) as Hrun.
  fold (spec_merge_pending σ2) in *. destruct (spec_merge_pending σ2) as [b2 σ3]. cbn [fst snd] in *.
  apply outcome_resched; try done; [by intros; apply Hk2|].
  intros [-> ->]%orb_false_iff. rewrite Hrun by done. unfold running at 1. rewrite Hrd.
  apply Hh. symmetry in Eb1. by apply bool_decide_eq_false in Eb1.
Qed.

Lemma prio_set x p σ y :
  is_Some (attrs σ !! x) ->
  prio (upd_attr x (set_priority p) σ) y = if decide (y = x) then p else prio σ y.
Proof.
  intros Hx. case_decide as E; [subst y|by apply attr_upd_other].
  rewrite attr_upd_eq by done. simpl. by apply attr_const.
Qed.

(** Changing the priority of a task that is in no prioritized list. *)
Lemma sinv_set_prio σ x p :
  sinv σ -> user_task σ x -> TLIST_ISPRIORITIZED (state σ x) = false ->
  SCHED_PRIORITY_MIN <= p <= SCHED_PRIORITY_MAX -> sinv (upd_attr x (set_priority p) σ).
Proof.
  intros Hi [Hx Hp] Hs Hr. destruct Hi as [Hw Hrun Hn Hso (R & i & Hi1 & Hi2 & Hi3) Hl].
  assert (forall y, state (upd_attr x (set_priority p) σ) y = state σ y) as Hst
    by (intros; by apply attr_upd_ne).
  split; try done.
  - intros y q. rewrite Hst. apply Hw.
  - intros y. rewrite Hst. apply Hrun.
  - intros st Hpr. eapply sorted_desc_ext; [|by apply Hso].
    intros y Hy. rewrite prio_set by done. case_decide; [|done]. subst y.
    apply Hw in Hy; [|by apply tlist_prioritized_in].
    apply tlist_prioritized in Hy. congruence.
  - exists R, i. split; [done|]. rewrite prio_set by done. assert (i <> x) by congruence.
    rewrite decide_False by done. split; [done|]. intros y. rewrite upd_attr_exists, prio_set by done.
    case_decide; [done|]. apply Hi3.
  - intros y. rewrite attr_upd_ne by done. apply Hl.
Qed.

Lemma user_set_prio σ x p :
  user_task σ x -> SCHED_PRIORITY_MIN <= p -> user_task (upd_attr x (set_priority p) σ) x.
Proof.
  intros [Hx _] Hp. split; [by rewrite upd_attr_exists|]. rewrite prio_set, decide_True by done.
  unfold SCHED_PRIORITY_MIN in Hp. lia.
Qed.

(** After a ready task has been taken out and given its new priority. *)
Lemma reprio_mid x p σ :
  sinv σ -> user_task σ x -> is_ready (state σ x) = true ->
  SCHED_PRIORITY_MIN <= p <= SCHED_PRIORITY_MAX ->
  let σ1 := (spec_remove_readytorun x σ).2 in
  let σ2 := upd_attr x (set_priority p) σ1 in
  is_Some (attrs σ1 !! x) /\ sinv σ2 /\ user_task σ2 x /\ state σ2 x = TSTATE_TASK_INVALID /\
  ready σ2 = lremove x (ready σ) /\ pending σ2 = pending σ /\
  (forall y, is_Some (attrs σ2 !! y) <-> is_Some (attrs σ !! y)) /\
  (forall y, lock σ2 y = lock σ y) /\ (forall y, attr xcp_regs 0 σ2 y = attr xcp_regs 0 σ y).
Proof.
  intros Hi Hu Hs Hpr σ1 σ2. pose proof Hu as [Hx Hp]. pose proof (is_ready_elem _ _ Hi Hs) as Hxr.
  pose proof (sinv_remove_ready _ _ Hi Hxr Hp) as Hi1. fold σ1 in Hi1.
  pose proof (keeps_remove_readytorun σ x) as Hk. fold σ1 in Hk.
  pose proof (remove_ready_state _ _ Hx) as Hs1. fold σ1 in Hs1.
  assert (user_task σ1 x) as Hu1 by by apply (keeps_user _ _ _ Hk).
  split; [apply Hu1|]. split; [apply sinv_set_prio; try done; by rewrite Hs1|].
  split; [apply user_set_prio; [done|apply Hpr]|]. split; [by unfold σ2; rewrite attr_upd_ne|].
  split; [apply set_list_eq|]. split.
  { unfold pending, σ2, σ1, spec_remove_readytorun. cbn [snd lists upd_attr]. rewrite set_list_ne by done.
    by case_decide. }
  destruct Hk as [Hk1 Hk2]. split_and!; intros y; unfold σ2.
  - by rewrite upd_attr_exists.
  - rewrite attr_upd_ne by done. by apply Hk2.
  - rewrite attr_upd_ne by done. by apply Hk2.
Qed.

Lemma swp_reprio x p s σ Q :
  srep tasklists (tmem s) σ -> sinv σ -> user_task σ x -> is_ready (state σ x) = true ->
  SCHED_PRIORITY_MIN <= p <= SCHED_PRIORITY_MAX ->
  after (spec_reprio x p σ (cpu_regs s)).1 (spec_reprio x p σ (cpu_regs s)).2 (env s) Q ->
  wp (up_reprioritize_rtr others x p) Q s.
Proof.
  intros Hr Hi Hu Hs Hp HQ. pose proof Hu as [Hx Hp0]. assert (g_readytorun ∈ tasklists) as Hq by left.
  assert (g_pendingtasks ∈ tasklists) as Hq2 by (unfold tasklists; set_solver).
  pose proof (is_ready_elem _ _ Hi Hs) as Hxr.
  destruct (reprio_mid x p σ Hi Hu Hs Hp) as (Hx1 & Hi2 & Hu2 & Hs2 & _ & _ & Hex & _ & _).
  unfold up_reprioritize_rtr. apply wp_bind, wp_onm. sstep. rewrite Hs.
  destruct (Z.ltb_spec p SCHED_PRIORITY_MIN); [lia|]. cbn [negb orb].
  apply wp_bind, wp_onm. cbn [tmem]. sstep. apply wp_bind, wp_onm. cbn [tmem].
  apply (swp_remove_readytorun tasklists _ σ); [done..|by intros _; apply (ready_tl _ x)|]. intros m1 Hr1.
  unfold spec_reprio in HQ. destruct (spec_remove_readytorun x σ) as [b1 σ1] eqn:E1. cbn [fst snd] in *.
  rewrite (wrapu_small 8 p) by (unfold SCHED_PRIORITY_MIN, SCHED_PRIORITY_MAX in *; lia).
  apply wp_bind, wp_onm. cbn [tmem]. sstep. set (σ2 := upd_attr x (set_priority p) σ1) in *.
  apply wp_bind, wp_onm. cbn [tmem]. apply (swp_add_readytorun tasklists _ σ2); [done..| | | |].
  { by apply sinv_insertable. } { by apply ready_ne. } { by apply inv_lock. }
  intros m3 Hr3. pose proof (sinv_add_readytorun σ2 x Hi2 Hu2 Hs2) as Hi3.
  pose proof (proj1 (keeps_add_readytorun σ2 x)) as Hk3.
  destruct (spec_add_readytorun x σ2) as [b2 σ3] eqn:E2. cbn [fst snd] in *.
  assert (is_Some (attrs σ3 !! running σ)) as Hrx by apply Hk3, Hex, running_exists, Hi.
  destruct (xorb b1 b2); [|exact (HQ m3 Hr3)]. unfold when.
  apply (swp_merge_if σ3 _ tt (fun _ => tt)); cbn [tmem cpu_regs env]; [done..| |].
  - intros Hnil. rewrite merge_pending_nil in HQ by done.
    eapply swp_switch; [done|done|by apply ready_ne|done].
  - intros m4 Hr4. pose proof (sinv_merge_pending σ3 Hi3) as Hi4.
    pose proof (proj1 (keeps_merge_pending σ3)) as Hk4.
    eapply swp_switch; [done|by apply Hk4|by apply ready_ne|done].
Qed.

Lemma reprio_ok x p σ ρ :
  sinv σ -> pinv σ -> user_task σ x -> is_ready (state σ x) = true ->
  SCHED_PRIORITY_MIN <= p <= SCHED_PRIORITY_MAX ->
  outcome_ok σ ρ (spec_reprio x p σ ρ).2.
Proof.
  intros Hi Hpi Hu Hs Hp. pose proof (is_ready_elem _ _ Hi Hs) as Hxr.
  pose proof (remove_ready_next _ _ Hi Hxr (proj2 Hu)) as (_ & _ & _ & Hh).
  destruct (reprio_mid x p σ Hi Hu Hs Hp) as (Hx1 & Hi2 & Hu2 & Hs2 & Hrd & Hpd & Hex & Hlk & Hreg).
  assert ((spec_remove_readytorun x σ).1 = bool_decide (x = running σ)) as Eb1 by done.
  unfold spec_reprio. destruct (spec_remove_readytorun x σ) as [b1 σ1]. cbn [fst snd] in *.
  set (σ2 := upd_attr x (set_priority p) σ1) in *.
  assert (b1 = false -> running σ2 = running σ) as Hr2.
  { intros ->. symmetry in Eb1. apply bool_decide_eq_false in Eb1. unfold running at 1. rewrite Hrd. auto. }
  pose proof (sinv_add_readytorun σ2 x Hi2 Hu2 Hs2) as Hi3.
  pose proof (keeps_add_readytorun σ2 x) as [Hk1 Hk2].
  pose proof (pinv_add_readytorun σ2 x (ready_ne _ Hi2)) as Hp3.
  pose proof (add_readytorun_running σ2 x (ready_ne _ Hi2)) as [Hr3 Hl3].
  pose proof (add_readytorun_pending σ2 x) as Hpd3.
  destruct (spec_add_readytorun x σ2) as [b2 σ3]. cbn [fst snd] in *.
  apply outcome_resched; [done|..].
  - destruct (xorb b1 b2); [by apply sinv_merge_pending|done].
  - destruct (xorb b1 b2) eqn:Eb; [by apply merge_pending_pinv|].
    destruct b1, b2; try discriminate.
    + intros Hn. rewrite Hpd3, Hpd in Hn by auto. rewrite Hr3, Hk2, Hlk by done.
      symmetry in Eb1. apply bool_decide_eq_true in Eb1. rewrite Eb1. by apply Hpi.
    + apply Hp3. intros Hn. rewrite Hr2, Hlk by done. apply Hpi. by rewrite <- Hpd.
  - intros y. destruct (xorb b1 b2); [rewrite (proj1 (keeps_merge_pending _))|]; by rewrite Hk1.
  - intros y. rewrite <- Hreg, <- Hk2 by done. destruct (xorb b1 b2); [|done].
    by apply (proj2 (keeps_merge_pending _)).
  - intros Eb. rewrite Eb. destruct b1, b2; try discriminate; rewrite Hr3; auto.
    symmetry in Eb1. by apply bool_decide_eq_true in Eb1.
Qed.

Lemma reprio_keeps x p σ ρ y :
  sinv σ -> user_task σ x -> is_ready (state σ x) = true -> SCHED_PRIORITY_MIN <= p <= SCHED_PRIORITY_MAX ->
  prio (spec_reprio x p σ ρ).2.1 y = if decide (y = x) then p else prio σ y.
Proof.
  intros Hi Hu Hs Hp. destruct (reprio_mid x p σ Hi Hu Hs Hp) as (Hx1 & _).
  pose proof (keeps_remove_readytorun σ x) as [_ Hk].
  unfold spec_reprio. destruct (spec_remove_readytorun x σ) as [b1 σ1]. cbn [fst snd] in *.
  pose proof (keeps_add_readytorun (upd_attr x (set_priority p) σ1) x) as [_ Hk2].
  destruct (spec_add_readytorun x _) as [b2 σ3]. cbn [fst snd] in *.
  rewrite <- (Hk _ sched_priority 0 y) by done. rewrite <- prio_set by done.
  rewrite <- (Hk2 _ sched_priority 0 y) by done.
  unfold resched. destruct (xorb b1 b2); [|done]. cbn [spec_switch fst].
  rewrite !attr_upd_ne by done. by apply (proj2 (keeps_merge_pending _)).
Qed.

(** * Priorities *)

Lemma tl_next σ x l : ready σ = x :: l -> hd_or NULL (List.tl (ready σ)) = hd_or NULL l.
Proof. by intros ->. Qed.

(** The running task is given a priority above that of the next one. *)
Lemma sinv_raise σ x p :
  sinv σ -> user_task σ x -> x = running σ -> prio σ (hd_or NULL (List.tl (ready σ))) < p ->
  SCHED_PRIORITY_MIN <= p <= SCHED_PRIORITY_MAX -> sinv (upd_attr x (set_priority p) σ).
Proof.
  intros Hi [Hx Hp] Hrun Hnext Hr. pose proof (inv_nodup _ Hi g_readytorun ltac:(left)) as Hnd.
  pose proof (inv_sorted _ Hi TSTATE_TASK_RUNNING eq_refl) as Hsr.
  change (lists σ _) with (ready σ) in Hnd, Hsr. pose proof (ready_ne _ Hi) as Hne. unfold running in Hrun.
  destruct (ready σ) as [|x' l] eqn:El; [done|]. simpl in Hrun, Hnext. subst x'.
  destruct Hi as [Hw Hrun Hn Hso (R & i & Hi1 & Hi2 & Hi3) Hl].
  assert (forall y, state (upd_attr x (set_priority p) σ) y = state σ y) as Hst
    by (intros; by apply attr_upd_ne).
  apply NoDup_cons in Hnd as [Hxl Hnd]. apply StronglySorted_inv in Hsr as [Hsl Hsx].
  assert (sorted_desc (prio (upd_attr x (set_priority p) σ)) l) as Hsl'.
  { eapply sorted_desc_ext; [|done]. intros y Hy. rewrite prio_set, decide_False by (done || congruence). done. }
  split; try done.
  - intros y q. rewrite Hst. apply Hw.
  - intros y. rewrite Hst. apply Hrun.
  - intros st Hpr. destruct (decide (TLIST_BLOCKED st = g_readytorun)) as [E|E].
    + change (lists (upd_attr x (set_priority p) σ) (TLIST_BLOCKED st)) with (lists σ (TLIST_BLOCKED st)).
      rewrite E. fold (ready σ). rewrite El. constructor; [done|]. rewrite Forall_forall. intros y Hy.
      assert (y <> x) by congruence. rewrite !prio_set by done. rewrite decide_False, decide_True by done.
      destruct l as [|z l]; [by apply not_elem_of_nil in Hy|]. apply StronglySorted_inv in Hsl as [_ Hz].
      rewrite Forall_forall in Hz. simpl in Hnext. apply elem_of_cons in Hy as [->|Hy]; [lia|].
      specialize (Hz y Hy). simpl in Hz. lia.
    + eapply sorted_desc_ext; [|by apply Hso]. intros y Hy. rewrite prio_set by done.
      case_decide; [|done]. subst y. apply Hw in Hy; [|by apply tlist_prioritized_in].
      assert (x ∈ ready σ) as Hxr by (rewrite El; left).
      pose proof (proj1 (Hw x g_readytorun ltac:(left)) Hxr). congruence.
  - exists R, i. split; [done|]. rewrite prio_set by done. assert (i <> x) by congruence.
    rewrite decide_False by done. split; [done|]. intros y. rewrite upd_attr_exists, prio_set by done.
    case_decide; [done|]. apply Hi3.
  - intros y. rewrite attr_upd_ne by done. apply Hl.
Qed.

Lemma sinv_requeue σ x p :
  sinv σ -> user_task σ x -> is_ready (state σ x) = false ->
  SCHED_PRIORITY_MIN <= p <= SCHED_PRIORITY_MAX -> sinv (spec_requeue x p σ).
Proof.
  intros Hi Hu Hs Hp. unfold spec_requeue.
  destruct (TLIST_ISPRIORITIZED (state σ x)) eqn:Epr; [|by apply sinv_set_prio].
  pose proof (tlist_prioritized_in _ Epr) as Hq. set (q := TLIST_BLOCKED (state σ x)) in *.
  assert (q <> g_readytorun) as Hqr by (unfold q; by destruct (state σ x)).
  pose proof Hu as [[a Ha] _].
  assert (sinv (upd_attr x (set_state TSTATE_TASK_INVALID) (set_list q (lremove x (lists σ q)) σ))) as Hi1.
  { apply sinv_move; [done|by eexists|done|done|by right|by left|..].
    - intros y. rewrite lremove_elem. assert (NULL <> q) by (unfold q; by destruct (state σ x)). naive_solver.
    - by apply lremove_nodup, inv_nodup.
    - intros st' <- ?. by apply lremove_sorted, inv_sorted. }
  set (σ1 := upd_attr x _ _) in *.
  assert (user_task σ1 x) as Hu1 by (eapply keeps_user, Hu; by apply keeps_upd).
  assert (state σ1 x = TSTATE_TASK_INVALID) as Hs1
    by (unfold σ1; rewrite state_upd by (by eexists); by rewrite decide_True).
  pose proof (sinv_set_prio σ1 x p Hi1 Hu1 ltac:(by rewrite Hs1) Hp) as Hi2.
  pose proof (sinv_insert _ x (state σ x) Hi2) as Hi3. fold q in Hi3. rewrite Epr in Hi3.
  eapply sinv_proper; [|apply Hi3; [by rewrite upd_attr_exists; apply Hu1|by rewrite attr_upd_ne|done..]].
  split.
  - cbn [attrs upd_attr set_list σ1]. apply map_eq. intros y. unfold σ1. cbn [attrs upd_attr set_list].
    destruct (decide (x = y)) as [<-|]; [|by rewrite !lookup_alter_ne].
    rewrite !lookup_alter_eq, Ha. cbn. f_equal. assert (state σ x = task_state a) as -> by (unfold attr; by rewrite Ha). done.
  - intros q'. change (lists (upd_attr ?y ?f ?s) ?k) with (lists s k).
    destruct (decide (q' = q)) as [->|].
    2: { unfold σ1. by rewrite !set_list_ne by done. }
    rewrite !set_list_eq. change (lists (upd_attr ?y ?f ?s) ?k) with (lists s k).
    change (lists σ1 q) with (lists (set_list q (lremove x (lists σ q)) σ) q).
    rewrite !set_list_eq. apply pinsert_ext. intros y.
    pose proof (proj1 Hu1). rewrite !prio_set by (done || by eexists). case_decide; [done|].
    unfold σ1. by rewrite attr_upd_ne.
Qed.

(** Lowering, or raising within its place, a ready task that is not running:
    it is requeued and nothing is switched. *)
Lemma requeue_ready x p σ :
  sinv σ -> user_task σ x -> state σ x = TSTATE_TASK_READYTORUN ->
  SCHED_PRIORITY_MIN <= p <= SCHED_PRIORITY_MAX -> p <= prio σ (running σ) ->
  (spec_remove_readytorun x σ).1 = false /\
  (spec_add_readytorun x (upd_attr x (set_priority p) (spec_remove_readytorun x σ).2)).1 = false /\
  running (upd_attr x (set_priority p) (spec_remove_readytorun x σ).2) = running σ.
Proof.
  intros Hi Hu Hs Hp Hle. assert (is_ready (state σ x) = true) as Hs' by by rewrite Hs.
  assert (x <> running σ) as Hne by (intros E%(inv_run _ Hi); congruence).
  destruct (reprio_mid x p σ Hi Hu Hs' Hp) as (Hx1 & Hi2 & _ & _ & Hrd & _).
  pose proof (remove_ready_next _ _ Hi (is_ready_elem _ _ Hi Hs') (proj2 Hu)) as (_ & _ & _ & Hh).
  set (σ2 := upd_attr x _ _) in *.
  assert (running σ2 = running σ) as Hrun by (unfold running at 1; rewrite Hrd; auto).
  split; [by apply bool_decide_eq_false_2|]. split; [|done].
  unfold spec_add_readytorun, spec_ready. case_match; [done|]. rewrite Hrun.
  unfold σ2. rewrite !prio_set, decide_True by done. rewrite decide_False by done.
  rewrite (proj2 (keeps_remove_readytorun σ x)) by done.
  by destruct (Z.leb_spec p (prio σ (running σ))); [|lia].
Qed.

Lemma after_ret b σρ i Q r s :
  s = mksched (tmem s) σρ.2 i -> srep tasklists (tmem s) σρ.1 -> b = false ->
  after b σρ i (fun _ s' => Q r s') -> Q (r : Z) s.
Proof. intros -> Hr -> HQ. by apply (HQ _ Hr). Qed.

Lemma swp_running_setpriority x p s σ Q :
  srep tasklists (tmem s) σ -> sinv σ -> user_task σ x -> state σ x = TSTATE_TASK_RUNNING ->
  SCHED_PRIORITY_MIN <= p <= SCHED_PRIORITY_MAX ->
  after (spec_set_priority x p σ (cpu_regs s)).1 (spec_set_priority x p σ (cpu_regs s)).2 (env s) Q ->
  wp (nxsched_running_setpriority others x p) Q s.
Proof.
  intros Hr Hi Hu Hs Hp HQ. assert (g_readytorun ∈ tasklists) as Hq by left.
  assert (is_ready (state σ x) = true) as Hs' by by rewrite Hs.
  pose proof (is_ready_elem _ _ Hi Hs') as Hxr. pose proof (ready_tl _ _ Hi Hxr (proj2 Hu)) as Htl.
  pose proof (proj1 (inv_run _ Hi x) Hs) as Hrun. unfold running in Hrun.
  unfold spec_set_priority in HQ. rewrite Hs in HQ.
  destruct (ready σ) as [|x' [|z l]] eqn:El; [done|done|]. simpl in Hrun, HQ. subst x'.
  assert (z ∈ lists σ g_readytorun) as Hz by (fold (ready σ); rewrite El; set_solver).
  destruct (srep_listed_attr _ _ _ _ _ Hr Hq Hz) as [za Hza]. pose proof Hu as [Hx _].
  unfold nxsched_running_setpriority. apply wp_bind, wp_onm.
  eapply (swp_flink _ _ _ _ [] x (z :: l)); [done|done|exact El|]. cbn [hd_or].
  apply wp_bind, wp_assert; [by rewrite is_null_ne by exact (srep_ne _ _ _ _ _ Hr Hq Hz)|].
  apply wp_bind, wp_onm. cbn [tmem]. sstep.
  assert (u8 p = p) as -> by (apply wrapu_small; unfold SCHED_PRIORITY_MIN, SCHED_PRIORITY_MAX in *; lia).
  destruct (p <=? prio σ z).
  - by eapply swp_reprio.
  - apply wp_onm. cbn [tmem]. sstep. exact (HQ _ Hr0).
Qed.

Lemma swp_readytorun_setpriority x p s σ Q :
  srep tasklists (tmem s) σ -> sinv σ -> user_task σ x -> state σ x = TSTATE_TASK_READYTORUN ->
  SCHED_PRIORITY_MIN <= p <= SCHED_PRIORITY_MAX ->
  after (spec_set_priority x p σ (cpu_regs s)).1 (spec_set_priority x p σ (cpu_regs s)).2 (env s) Q ->
  wp (nxsched_readytorun_setpriority others x p) Q s.
Proof.
  intros Hr Hi Hu Hs Hp HQ. assert (g_readytorun ∈ tasklists) as Hq by left.
  assert (g_pendingtasks ∈ tasklists) as Hq2 by (right; left).
  assert (is_ready (state σ x) = true) as Hs' by by rewrite Hs.
  pose proof (is_ready_elem _ _ Hi Hs') as Hxr. pose proof (running_exists _ Hi).
  unfold spec_set_priority in HQ. rewrite Hs in HQ.
  unfold nxsched_readytorun_setpriority. apply wp_bind, wp_onm. sstep.
  apply wp_bind, wp_onm. cbn [tmem]. sstep.
  assert (u8 p = p) as -> by (apply wrapu_small; unfold SCHED_PRIORITY_MIN, SCHED_PRIORITY_MAX in *; lia).
  destruct (Z.ltb_spec (prio σ (running σ)) p); [by eapply swp_reprio|].
  destruct (requeue_ready x p σ Hi Hu Hs Hp ltac:(lia)) as (Hb1 & Hb2 & Hrun).
  destruct (reprio_mid x p σ Hi Hu Hs' Hp) as (Hx1 & Hi2 & Hu2 & Hs2 & _).
  apply wp_bind, wp_onm. cbn [tmem].
  apply (swp_remove_readytorun tasklists _ σ); [done..|by intros _; apply (ready_tl _ x Hi Hxr), Hu|].
  intros m1 Hr1. rewrite Hb1. apply wp_bind, wp_assert; [done|].
  apply wp_bind, wp_onm. cbn [tmem]. sstep. apply wp_bind, wp_onm. cbn [tmem].
  eapply swp_add_readytorun; [done..|by apply sinv_insertable|by apply ready_ne|by apply inv_lock|].
  intros m3 Hr3. rewrite Hb2. apply wp_assert; [done|]. exact (HQ _ Hr3).
Qed.

Lemma swp_blocked_setpriority x p s σ Q :
  srep tasklists (tmem s) σ -> sinv σ -> user_task σ x ->
  SCHED_PRIORITY_MIN <= p <= SCHED_PRIORITY_MAX ->
  after false (spec_requeue x p σ, cpu_regs s) (env s) Q ->
  wp (nxsched_blocked_setpriority x p) Q s.
Proof.
  intros Hr Hi Hu Hp HQ. pose proof Hu as [Hx _]. unfold nxsched_blocked_setpriority.
  assert (u8 p = p) as -> by (apply wrapu_small; unfold SCHED_PRIORITY_MIN, SCHED_PRIORITY_MAX in *; lia).
  apply wp_bind, wp_onm. sstep. cbv zeta. unfold spec_requeue in HQ.
  destruct (TLIST_ISPRIORITIZED (state σ x)) eqn:Epr.
  2: { apply wp_onm. cbn [tmem]. sstep. exact (HQ _ Hr0). }
  pose proof (tlist_prioritized_in _ Epr) as Hq. set (q := TLIST_BLOCKED (state σ x)) in *.
  apply wp_bind, wp_onm. cbn [tmem]. eapply swp_dq_rem; [done..|by apply (inv_where _ Hi)|]. intros m1 Hr1.
  apply wp_bind, wp_onm. cbn [tmem]. sstep. set (τ := upd_attr x _ _) in *.
  apply wp_bind, wp_onm. cbn [tmem]. destruct Hx as [a Ha].
  assert (attrs τ !! x = Some (set_priority p a)) as Hτ by (cbn; by rewrite lookup_alter_eq, Ha).
  eapply swp_add_prioritized; [done|done|exact Hτ| |apply Hp|].
  - intros q' Hq'. change (lists τ q') with (lists (set_list q (lremove x (lists σ q)) σ) q').
    rewrite set_list_lists. case_decide as E; [rewrite lremove_elem; tauto|].
    intros Hin%(inv_where _ Hi); [|done]. apply E. by rewrite <- Hin.
  - intros m3 Hr3. exact (HQ _ Hr3).
Qed.

Lemma swp_set_priority x p s σ Q :
  srep tasklists (tmem s) σ -> sinv σ -> user_task σ x ->
  SCHED_PRIORITY_MIN <= p <= SCHED_PRIORITY_MAX ->
  after (spec_set_priority x p σ (cpu_regs s)).1 (spec_set_priority x p σ (cpu_regs s)).2 (env s)
    (fun _ => Q OK) ->
  wp (nxsched_set_priority others x p) Q s.
Proof.
  intros Hr Hi Hu Hp HQ. pose proof Hu as [Hx _]. unfold nxsched_set_priority.
  destruct (Z.ltb_spec p SCHED_PRIORITY_MIN); [lia|]. destruct (Z.ltb_spec SCHED_PRIORITY_MAX p); [lia|].
  cbn [orb]. apply wp_bind, wp_onm. sstep. replace (mksched (tmem s) (cpu_regs s) (env s)) with s by by destruct s.
  apply wp_bind, (wp_mono _ (fun _ => Q OK)); [|by intros [] s' ?].
  destruct (state σ x) eqn:Hs; try (eapply swp_blocked_setpriority; [done..|];
    unfold spec_set_priority in HQ; rewrite Hs in HQ; exact HQ).
  - by eapply swp_readytorun_setpriority.
  - by eapply swp_running_setpriority.
Qed.

Lemma requeue_lists x p σ q :
  q <> TLIST_BLOCKED (state σ x) -> lists (spec_requeue x p σ) q = lists σ q.
Proof.
  intros Hq. unfold spec_requeue. case_match; [|done]. rewrite set_list_ne by done.
  change (lists (upd_attr ?y ?f ?s) ?k) with (lists s k). by apply set_list_ne.
Qed.

Lemma requeue_attr {B} (f : tcb_s -> B) d x p σ y :
  (forall a, f (set_priority p a) = f a) -> attr f d (spec_requeue x p σ) y = attr f d σ y.
Proof.
  intros Hf. unfold spec_requeue. case_match; change (attr ?p ?d (set_list ?q ?l ?s)) with (attr p d s);
    by rewrite attr_upd_ne.
Qed.

Lemma requeue_exists x p σ y :
  is_Some (attrs (spec_requeue x p σ) !! y) <-> is_Some (attrs σ !! y).
Proof.
  unfold spec_requeue. case_match; [|by rewrite upd_attr_exists].
  change (attrs (set_list ?q ?l ?s)) with (attrs s). by rewrite upd_attr_exists.
Qed.

(** What keeps the scheduler in order without a switch. *)
Lemma outcome_still σ σ' ρ :
  sinv σ' -> running σ' = running σ -> (pending σ = [] -> pending σ' = []) -> pinv σ ->
  (forall y, is_Some (attrs σ' !! y) <-> is_Some (attrs σ !! y)) ->
  (forall y, lock σ' y = lock σ y) -> (forall y, attr xcp_regs 0 σ' y = attr xcp_regs 0 σ y) ->
  outcome_ok σ ρ (σ', ρ).
Proof.
  intros Hi Hrun Hpd Hp Hex Hlk Hreg. split_and!; try done; cbn [fst snd].
  - intros Hn. rewrite Hrun, Hlk. apply Hp. auto.
  - intros t. unfold context. by rewrite Hrun, Hreg.
Qed.

Lemma set_priority_ok x p σ ρ :
  sinv σ -> pinv σ -> user_task σ x -> SCHED_PRIORITY_MIN <= p <= SCHED_PRIORITY_MAX ->
  outcome_ok σ ρ (spec_set_priority x p σ ρ).2.
Proof.
  intros Hi Hpi Hu Hp. unfold spec_set_priority.
  destruct (decide (is_ready (state σ x) = true)) as [Hrd|Hrd%not_true_is_false].
  - destruct (state σ x) eqn:Hs; try discriminate.
    + destruct (Z.ltb_spec (prio σ (running σ)) p); [apply reprio_ok; try done; by rewrite Hs|].
      destruct (requeue_ready x p σ Hi Hu Hs Hp ltac:(lia)) as (Hb1 & Hb2 & Hrun).
      rewrite <- Hs in Hrd. destruct (reprio_mid x p σ Hi Hu Hrd Hp) as (_ & Hi2 & Hu2 & Hs2 & _ & Hpd & Hex & Hlk & Hreg).
      set (σ2 := upd_attr x _ _) in *. destruct (keeps_add_readytorun σ2 x) as [Hk1 Hk2].
      destruct (add_readytorun_running σ2 x (ready_ne _ Hi2)) as [Hr3 _]. rewrite Hb2 in Hr3.
      pose proof (sinv_add_readytorun σ2 x Hi2 Hu2 Hs2) as Hi3.
      assert (pinv (spec_add_readytorun x σ2).2) as Hp3.
      { apply pinv_add_readytorun; [by apply ready_ne|]. intros Hn. rewrite Hrun, Hlk. apply Hpi. by rewrite <- Hpd. }
      split_and!; cbn [fst snd]; [done|done|by intros; rewrite Hk1|]. intros t. unfold context.
      rewrite Hr3, Hrun. by rewrite Hk2, Hreg.
    + destruct (Z.leb_spec p (prio σ (hd_or NULL (List.tl (ready σ))))); [apply reprio_ok; try done; by rewrite Hs|].
      apply outcome_still; try done.
      * apply sinv_raise; try done. by apply (inv_run _ Hi).
      * intros y. by rewrite upd_attr_exists.
      * intros y. by apply attr_upd_ne.
      * intros y. by apply attr_upd_ne.
  - assert (outcome_ok σ ρ (spec_requeue x p σ, ρ)); [|by destruct (state σ x)].
    apply outcome_still; try done.
    + by apply sinv_requeue.
    + unfold running, ready. rewrite requeue_lists; [done|]. by destruct (state σ x).
    + intros Hnil. unfold pending. rewrite requeue_lists; [done|]. intros E.
      assert (x ∈ pending σ) as Hx; [|rewrite Hnil in Hx; by apply not_elem_of_nil in Hx].
      apply pending_state; [done|]. by destruct (state σ x).
    + intros y. by rewrite requeue_exists.
    + intros y. by apply requeue_attr.
    + intros y. by apply requeue_attr.
Qed.
End Top.
