(* ===== verification/SchedSys.v ===== *)
(** SchedSys: the scheduler as a whole: the preemption lock, the time slices,
    and the theorems about every sequence of scheduler operations. *)

From stdpp Require Import options.
From Stdlib Require Import Sorting.Sorted.
From S2P Require Import Prelude Queue Sched SchedInv.

(** The same tasks exist. *)
Definition same_tasks (σ σ' : sst) : Prop :=
  forall y, is_Some (attrs σ !! y) -> is_Some (attrs σ' !! y).

(** What a suspended thread relies on: the rest of the system keeps the
    scheduler in order, deletes no task, and eventually resumes the thread. *)
Definition env_ok {K} (others : M (kernel K) unit) : Prop :=
  forall s σ, sched_ok s σ -> wp others (fun _ s' => exists σ', sched_ok s' σ' /\ same_tasks σ σ') s.

(** The abstract effect of the lock operations in a thread. *)
Definition spec_unlock (σ : sst) (ρ : Z) : bool * (sst * Z) :=
  let r := running σ in
  let l := Z.max 0 (lock σ r - 1) in
  let σ1 := upd_attr r (set_lockcount l) σ in
  if l =? 0 then spec_release σ1 ρ else (false, (σ1, ρ)).

(** The time slice after one more tick, as the mixed signed and unsigned
    arithmetic of the code computes it. *)
Definition rr_slice (ts : Z) : Z := s32 (ts - s32 (if u32 ts <? 1 then u32 ts else 1)).

(** A tick of the running task, which is scheduled round robin.  When its
    time slice is over it goes behind the ready tasks of its priority. *)
Definition spec_roundrobin (σ : sst) (ρ : Z) : bool * (sst * Z) :=
  let r := running σ in
  let slice := rr_slice (attr timeslice 0 σ r) in
  let next := hd_or NULL (List.tl (ready σ)) in
  if (slice <=? 0) && negb (0 <? lock σ r) then
    let σ1 := upd_attr r (set_timeslice (MSEC2TICK CONFIG_RR_INTERVAL)) σ in
    if negb (is_null next) && (prio σ r <=? prio σ next) then spec_reprio r (prio σ r) σ1 ρ
    else (false, (σ1, ρ))
  else (false, (upd_attr r (set_timeslice slice) σ, ρ)).

Section Sys.
Context {K : Type}.
#[local] Abbreviation sched_t := (kernel K).
Variable others : M sched_t unit.
Implicit Types (σ : sst) (x y : ptr) (s : sched_t).

Lemma sched_eta s : mksched (tmem s) (cpu_regs s) (env s) = s.
Proof. by destruct s. Qed.

(** An update of a lock count or time slice. *)
Lemma outcome_attr x f σ ρ :
  (forall a, sched_priority (f a) = sched_priority a) -> (forall a, task_state (f a) = task_state a) ->
  (forall a, xcp_regs (f a) = xcp_regs a) ->
  (forall y, 0 <= lock (upd_attr x f σ) y <= MAX_LOCK_COUNT) ->
  (pending σ <> [] -> 0 < lock (upd_attr x f σ) (running σ)) ->
  sinv σ -> outcome_ok σ ρ (upd_attr x f σ, ρ).
Proof.
  intros Hp Hs Hx Hl Hpd Hi. split_and!; cbn [fst snd].
  - by apply sinv_upd_attr.
  - done.
  - intros y. by rewrite upd_attr_exists.
  - intros t. unfold context. change (running (upd_attr x f σ)) with (running σ).
    by rewrite attr_upd_ne.
Qed.

Lemma lock_set x l σ y :
  is_Some (attrs σ !! x) -> lock (upd_attr x (set_lockcount l) σ) y = if decide (y = x) then l else lock σ y.
Proof.
  intros Hx. case_decide as E; [subst y|by apply attr_upd_other].
  rewrite attr_upd_eq by done. simpl. by apply attr_const.
Qed.

Lemma outcome_trans σ ρ σ1 ρ1 σρ :
  outcome_ok σ ρ (σ1, ρ1) -> outcome_ok σ1 ρ1 σρ -> outcome_ok σ ρ σρ.
Proof.
  intros (_ & _ & E1 & C1) (I2 & P2 & E2 & C2). split_and!; [done|done| |].
  - intros y. by rewrite E2, E1.
  - intros t. by rewrite C2, C1.
Qed.

Lemma swp_release s σ Q :
  srep tasklists (tmem s) σ -> sinv σ ->
  after others (spec_release σ (cpu_regs s)).1 (spec_release σ (cpu_regs s)).2 (env s) Q ->
  wp (up_release_pending others) Q s.
Proof.
  intros Hr Hi HQ. unfold up_release_pending. assert (g_readytorun ∈ tasklists) as Hq by left.
  apply wp_bind, wp_onm. sstep. rewrite sched_eta. apply wp_bind, wp_onm. apply (swp_merge σ); [done..|].
  intros m' Hr'. unfold spec_release in HQ. pose proof (sinv_merge_pending σ Hi) as Hi'.
  pose proof (proj1 (keeps_merge_pending σ)) as Hk. destruct (spec_merge_pending σ) as [b σ'].
  cbn [fst snd] in *. eapply swp_when_switch; [done|by apply Hk, running_exists|by apply ready_ne|done].
Qed.

Lemma release_outcome σ ρ : sinv σ -> outcome_ok σ ρ (spec_release σ ρ).2.
Proof.
  intros Hi. unfold spec_release. pose proof (sinv_merge_pending σ Hi) as Hi'.
  pose proof (keeps_merge_pending σ) as [Hk1 Hk2]. pose proof (merge_pending_pinv σ) as Hp.
  pose proof (ready_all_running (pending σ) σ (ready_ne _ Hi)) as Hrun. fold (spec_merge_pending σ) in Hrun.
  destruct (spec_merge_pending σ) as [b σ']. cbn [fst snd] in *. apply outcome_resched; auto.
Qed.

Lemma swp_lock s σ Q :
  srep tasklists (tmem s) σ -> sinv σ -> lock σ (running σ) < MAX_LOCK_COUNT ->
  (forall m', srep tasklists m' (if intr s then σ else
     upd_attr (running σ) (set_lockcount (lock σ (running σ) + 1)) σ) ->
     Q OK (mksched m' (cpu_regs s) (env s))) ->
  wp sched_lock Q s.
Proof.
  intros Hr Hi Hl HQ. unfold sched_lock. assert (g_readytorun ∈ tasklists) as Hq by left.
  pose proof (running_exists _ Hi) as Hx. pose proof (running_elem _ (ready_ne _ Hi)) as Hre.
  pose proof (inv_lock _ Hi (running σ)) as Hb.
  assert (s16 (lock σ (running σ) + 1) = lock σ (running σ) + 1) as E
    by (apply wraps_small; unfold MAX_LOCK_COUNT in *; lia).
  destruct s as [m ρ i]. cbn [tmem cpu_regs env] in *.
  apply wp_bind, wp_onm. sstep. apply wp_bind, wp_gets. unfold intr in *. cbn [env in_irq] in *. apply wp_bind.
  rewrite is_null_ne by exact (srep_ne _ _ _ _ _ Hr Hq Hre). destruct i as [[] k]; cbn [in_irq negb andb] in *.
  - do 2 apply wp_ret. by apply HQ.
  - apply wp_bind, wp_onm. cbn [tmem]. sstep. apply wp_bind, wp_assert; [by apply Z.ltb_lt|].
    apply wp_onm. cbn [tmem]. rewrite E. sstep. apply wp_ret. by apply HQ.
Qed.

(** The tail of [sched_unlock]: a new time slice for a task that lost the CPU. *)
Definition unlock_tail (rtcb : ptr) : M sched_t unit :=
  r <- onm (node rtcb) ;;
  if is_rr r && (timeslice r =? 0) then
    cur <- onm this_task ;;
    when (negb (rtcb =? cur)) (onm (upd_node rtcb (set_timeslice (MSEC2TICK CONFIG_RR_INTERVAL))))
  else ret tt.

Lemma swp_unlock_tail r s σ Q :
  srep tasklists (tmem s) σ -> is_Some (attrs σ !! r) ->
  (forall m' σ', srep tasklists m' σ' ->
     σ' = σ \/ σ' = upd_attr r (set_timeslice (MSEC2TICK CONFIG_RR_INTERVAL)) σ ->
     Q tt (mksched m' (cpu_regs s) (env s))) ->
  wp (unlock_tail r) Q s.
Proof.
  intros Hr Hx HQ. unfold unlock_tail. assert (g_readytorun ∈ tasklists) as Hq by left.
  destruct s as [m ρ i]. cbn [tmem cpu_regs env] in *.
  apply wp_bind, wp_onm. sstep. case_match; [|by apply wp_ret, (HQ m σ); auto].
  apply wp_bind, wp_onm. cbn [tmem]. sstep. destruct (negb (r =? running σ)); unfold when;
    [|by apply wp_ret, (HQ m σ); auto].
  apply wp_onm. cbn [tmem]. sstep. eapply HQ; [exact Hr0|auto].
Qed.

Lemma sched_ok_slice m ρ (i : kenv K) σ x z :
  sinv σ -> pinv σ -> srep tasklists m (upd_attr x (set_timeslice z) σ) ->
  sched_ok (mksched m ρ i) (upd_attr x (set_timeslice z) σ).
Proof.
  intros Hi Hp Hr. split; [exact Hr|].
  destruct (outcome_attr x (set_timeslice z) σ 0) as (? & ? & _); try done.
  - intros y. rewrite attr_upd_ne by done. by apply inv_lock.
  - intros Hn. rewrite attr_upd_ne by done. by apply Hp.
Qed.

(** The tail of [sched_unlock] keeps the scheduler in order, whatever
    happened while the thread was suspended. *)
Lemma unlock_tail_ok r s σ :
  sched_ok s σ -> is_Some (attrs σ !! r) ->
  wp (unlock_tail r) (fun _ s' => exists σ', sched_ok s' σ' /\ same_tasks σ σ') s.
Proof.
  intros (Hr & Hi & Hp) Hx. eapply swp_unlock_tail; [done..|]. intros m' σ' Hr' [->|Hσ].
  - exists σ. split; [by split_and!|by intros y].
  - subst σ'. eexists. split; [by apply sched_ok_slice|]. intros y Hy. by apply upd_attr_exists.
Qed.

Lemma upd_attr_upd x f g σ : (forall a, f (g a) = f a) -> upd_attr x f (upd_attr x g σ) = upd_attr x f σ.
Proof.
  intros Hf. unfold upd_attr. simpl. f_equal. apply map_eq. intros y.
  destruct (decide (x = y)) as [<-|]; [|by rewrite !lookup_alter_ne].
  rewrite !lookup_alter_eq. destruct (attrs σ !! x); simpl; [by rewrite Hf|done].
Qed.

Lemma release_nil σ ρ : pending σ = [] -> spec_release σ ρ = (false, (σ, ρ)).
Proof. intros Hn. unfold spec_release. by rewrite merge_pending_nil. Qed.

(** [if (g_pendingtasks.head != NULL) up_release_pending();] *)
Lemma swp_release_if m ρ i σ (k : M sched_t unit) Q :
  srep tasklists m σ -> sinv σ ->
  after others (spec_release σ ρ).1 (spec_release σ ρ).2 i (fun _ s' => wp k Q s') ->
  wp (h <- onm (head g_pendingtasks) ;; (if is_null h then ret tt else up_release_pending others) ;; k)
     Q (mksched m ρ i).
Proof.
  intros Hr Hi HQ. assert (g_pendingtasks ∈ tasklists) as Hq2 by (right; left).
  apply wp_bind, wp_onm. eapply wp_list_head; [done..|]. fold (pending σ). cbn [cpu_regs env].
  apply wp_bind. destruct (pending σ) as [|p l] eqn:E; cbn [hd_or].
  - rewrite release_nil in HQ by done. apply wp_ret. exact (HQ _ Hr).
  - rewrite is_null_ne.
    2: { eapply (srep_ne _ _ _ _ p Hr Hq2). fold (pending σ). rewrite E. left. }
    by apply (swp_release _ σ).
Qed.

Lemma sinv_lock σ x l : sinv σ -> is_Some (attrs σ !! x) -> 0 <= l <= MAX_LOCK_COUNT ->
  sinv (upd_attr x (set_lockcount l) σ).
Proof.
  intros Hi Hx Hl. apply sinv_upd_attr; try done. intros y. rewrite lock_set by done.
  case_decide; [done|by apply inv_lock].
Qed.

Lemma swp_unlock m ρ k σ Q :
  srep tasklists m σ -> sinv σ ->
  after others (spec_unlock σ ρ).1 (spec_unlock σ ρ).2 (mkenv false k)
    (fun _ s' => wp (when (lock σ (running σ) <=? 1) (unlock_tail (running σ))) (fun _ => Q OK) s') ->
  wp (sched_unlock others) Q (mksched m ρ (mkenv false k)).
Proof.
  intros Hr Hi HQ. unfold sched_unlock. assert (g_readytorun ∈ tasklists) as Hq by left.
  pose proof (running_exists _ Hi) as Hx. pose proof (running_elem _ (ready_ne _ Hi)) as Hre.
  pose proof (inv_lock _ Hi (running σ)) as Hb. set (r := running σ) in *.
  assert (forall l, 0 <= l <= MAX_LOCK_COUNT -> s16 l = l) as Hs16
    by (intros; apply wraps_small; unfold MAX_LOCK_COUNT in *; lia).
  apply wp_bind, wp_onm. sstep. apply wp_bind, wp_gets. unfold intr. cbn [tmem cpu_regs env in_irq].
  fold r. rewrite is_null_ne by exact (srep_ne _ _ _ _ _ Hr Hq Hre). cbn [negb andb].
  apply wp_bind, (wp_mono _ (fun _ => Q OK)); [|by intros [] s' ?].
  apply wp_bind, wp_onm. cbn [tmem]. sstep. cbn [cpu_regs env].
  unfold spec_unlock in HQ. fold r in HQ.
  assert (forall m1, srep tasklists m1 (upd_attr r (set_lockcount 0) σ) -> lock σ r <= 1 ->
    wp (h <- onm (head g_pendingtasks) ;; (if is_null h then ret tt else up_release_pending others) ;;
        unlock_tail r) (fun _ => Q OK) (mksched m1 ρ (mkenv false k))) as Hrel.
  { intros m1 Hr1 Hl. replace (Z.max 0 (lock σ r - 1)) with 0 in HQ by lia.
    replace (lock σ r <=? 1) with true in HQ by lia. eapply swp_release_if; [done| |done].
    apply sinv_lock; [done..|]. unfold MAX_LOCK_COUNT. lia. }
  destruct (Z.ltb_spec 0 (lock σ r)) as [Hpos|Hzero].
  - rewrite Hs16 by lia. apply wp_bind, wp_onm. cbn [tmem]. sstep. cbn [cpu_regs env].
    apply wp_bind, wp_onm. cbn [tmem]. sstep. rewrite lock_set, decide_True by done. cbn [cpu_regs env].
    destruct (Z.leb_spec (lock σ r - 1) 0) as [Hz|Hnz].
    + apply wp_bind, wp_onm. cbn [tmem]. sstep. rewrite upd_attr_upd in Hr1 by done. apply Hrel; [done|lia].
    + replace (Z.max 0 (lock σ r - 1)) with (lock σ r - 1) in HQ by lia.
      replace (lock σ r - 1 =? 0) with false in HQ by lia. apply wp_ret. specialize (HQ _ Hr0).
      replace (lock σ r <=? 1) with false in HQ by lia. exact HQ.
  - apply wp_bind, wp_ret. apply wp_bind, wp_onm. cbn [tmem]. sstep. cbn [cpu_regs env].
    replace (lock σ r <=? 0) with true by lia.
    apply wp_bind, wp_onm. cbn [tmem]. sstep. apply Hrel; [done|lia].
Qed.

Lemma unlock_outcome σ ρ : sinv σ -> pinv σ -> outcome_ok σ ρ (spec_unlock σ ρ).2.
Proof.
  intros Hi Hp. unfold spec_unlock. pose proof (running_exists _ Hi) as Hx.
  pose proof (inv_lock _ Hi (running σ)) as Hb. set (r := running σ) in *.
  set (l := Z.max 0 (lock σ r - 1)). assert (0 <= l <= MAX_LOCK_COUNT) as Hl by (unfold MAX_LOCK_COUNT in *; lia).
  pose proof (sinv_lock σ r l Hi Hx Hl) as Hi1. destruct (Z.eqb_spec l 0) as [Hz|Hnz].
  - destruct (release_outcome (upd_attr r (set_lockcount l) σ) ρ Hi1) as (H1 & H2 & H3 & H4).
    split_and!; [done|done| |].
    + intros y. rewrite H3. apply upd_attr_exists.
    + intros t. rewrite H4. unfold context. change (running (upd_attr ?x ?f σ)) with (running σ).
      by rewrite attr_upd_ne.
  - apply outcome_attr; try done; [apply Hi1|]. intros _. rewrite lock_set, decide_True by done. lia.
Qed.

Lemma sinv_slice σ x z : sinv σ -> sinv (upd_attr x (set_timeslice z) σ).
Proof.
  intros Hi. apply sinv_upd_attr; try done. intros y. rewrite attr_upd_ne by done. by apply inv_lock.
Qed.

(** The IDLE task runs only alone. *)
Lemma running_user σ : sinv σ -> hd_or NULL (List.tl (ready σ)) <> NULL -> user_task σ (running σ).
Proof.
  intros Hi Hn. split; [by apply running_exists|]. destruct (inv_idle _ Hi) as (R & i & E & Hp & Hall).
  pose proof (inv_nodup _ Hi g_readytorun ltac:(left)) as Hnd. fold (ready σ) in Hnd.
  pose proof (running_exists _ Hi) as Hx. unfold running in *. rewrite E in Hn, Hnd, Hx |- *.
  destruct R as [|a R]; simpl in *; [done|]. nodup_simpl.
  assert (a <> i) as Hai by set_solver. specialize (Hall a Hx Hai). unfold SCHED_PRIORITY_MIN in *. lia.
Qed.

Lemma swp_roundrobin s σ Q :
  srep tasklists (tmem s) σ -> sinv σ ->
  after others (spec_roundrobin σ (cpu_regs s)).1 (spec_roundrobin σ (cpu_regs s)).2 (env s)
    (fun _ s' => forall v, Q v s') ->
  wp (nxsched_process_roundrobin others (running σ) 1 false) Q s.
Proof.
  intros Hr Hi HQ. unfold nxsched_process_roundrobin. assert (g_readytorun ∈ tasklists) as Hq by left.
  pose proof (running_exists _ Hi) as Hx. pose proof (running_elem _ (ready_ne _ Hi)) as Hre.
  unfold spec_roundrobin in HQ. set (r := running σ) in *. destruct s as [m ρ i]. cbn [tmem cpu_regs env] in *.
  apply wp_bind, wp_assert; [by rewrite is_null_ne by exact (srep_ne _ _ _ _ _ Hr Hq Hre)|].
  apply wp_bind, wp_onm. sstep. cbv zeta. fold (rr_slice (attr timeslice 0 σ r)). cbn [cpu_regs env].
  set (slice := rr_slice (attr timeslice 0 σ r)) in *.
  apply wp_bind, wp_onm. cbn [tmem]. sstep. cbn [cpu_regs env].
  destruct ((slice <=? 0) && negb (0 <? lock σ r)) eqn:Ec.
  2: { apply wp_ret. exact (HQ _ Hr0 _). }
  apply wp_bind, wp_onm. cbn [tmem]. sstep. rewrite upd_attr_upd in Hr1 by done.
  set (σ1 := upd_attr r _ σ) in *. cbn [cpu_regs env].
  assert (exists l, ready σ = r :: l) as [l El].
  { unfold r, running. pose proof (ready_ne _ Hi). destruct (ready σ); [done|]. eauto. }
  apply wp_bind, wp_onm. cbn [tmem]. eapply (swp_flink _ _ _ g_readytorun [] r l); [done|done|exact El|].
  rewrite (tl_next _ _ _ El) in HQ. cbn [cpu_regs env].
  destruct l as [|z l]; cbn [hd_or] in *.
  { apply wp_bind, wp_ret, wp_ret. exact (HQ _ Hr1 _). }
  assert (z ∈ lists σ g_readytorun) as Hz by (fold (ready σ); rewrite El; set_solver).
  pose proof (srep_ne _ _ _ _ _ Hr Hq Hz) as Hzn. rewrite is_null_ne in * by done. cbn [negb andb] in HQ.
  destruct (srep_listed_attr _ _ _ _ _ Hr Hq Hz) as [za Hza].
  apply wp_bind, wp_bind, wp_onm. cbn [tmem]. sstep. unfold σ1. rewrite attr_upd_ne by done. fold σ1. cbn [cpu_regs env].
  destruct (Z.leb_spec (prio σ r) (prio σ z)) as [Hle|Hlt]; unfold when.
  - assert (user_task σ r) as Hu by (apply running_user; [done|]; by rewrite El).
    pose proof (user_prio _ _ Hi Hu) as Hpr.
    apply (swp_reprio others r (prio σ r) (mksched m1 ρ i) σ1); try done.
    + by apply sinv_slice.
    + split; [apply upd_attr_exists, Hu|]. unfold σ1. rewrite attr_upd_ne by done. apply Hu.
    + unfold σ1. rewrite attr_upd_ne by done. by rewrite (proj2 (inv_run _ Hi r) eq_refl).
    + intros m2 Hm2. specialize (HQ m2 Hm2). eapply wp_mono; [exact HQ|]. intros [] s' Hs'. apply wp_ret, Hs'.
  - apply wp_ret, wp_ret. exact (HQ _ Hr1 _).
Qed.

Lemma roundrobin_outcome σ ρ : sinv σ -> pinv σ -> outcome_ok σ ρ (spec_roundrobin σ ρ).2.
Proof.
  intros Hi Hp. unfold spec_roundrobin. set (r := running σ).
  assert (forall z, outcome_ok σ ρ (upd_attr r (set_timeslice z) σ, ρ)) as Hs.
  { intros z. apply outcome_attr; try done.
    - intros y. rewrite attr_upd_ne by done. by apply inv_lock.
    - intros Hn. rewrite attr_upd_ne by done. by apply Hp. }
  case_match; [|apply Hs]. case_match eqn:E; [|apply Hs].
  apply andb_true_iff in E as [E _]. apply negb_true_iff, Z.eqb_neq in E.
  pose proof (running_user _ Hi E) as Hu. pose proof (user_prio _ _ Hi Hu) as Hpr.
  eapply outcome_trans; [apply (Hs (MSEC2TICK CONFIG_RR_INTERVAL))|]. apply reprio_ok; try done.
  - by apply sinv_slice.
  - apply (Hs (MSEC2TICK CONFIG_RR_INTERVAL)).
  - split; [apply upd_attr_exists, Hu|]. rewrite attr_upd_ne by done. apply Hu.
  - rewrite attr_upd_ne by done. by rewrite (proj2 (inv_run _ Hi r) eq_refl).
Qed.
End Sys.

(** * Merging is stable *)

Definition pmerge (pr : ptr -> Z) (P R : list ptr) : list ptr :=
  foldl (fun R x => pinsert pr x R) R P.

Lemma ready_all_list l σ :
  ready (spec_ready_all l σ).2 = pmerge (prio σ) l (ready σ).
Proof.
  revert σ. induction l as [|x l IH]; intros σ; [done|]. rewrite spec_ready_all_cons. cbn [snd pmerge foldl].
  rewrite IH, spec_ready_list. unfold ready. rewrite set_list_ne by done.
  change (prio (set_list ?q ?l ?s)) with (prio s). unfold pmerge. generalize (pinsert (prio σ) x (lists σ g_readytorun)).
  set (pr := prio _). assert (forall y, pr y = prio σ y) as Hpr by exact (spec_ready_prio x (set_list g_pendingtasks l σ)).
  clearbody pr. clear IH. induction l as [|y l IH]; intros R; [done|]. simpl. by rewrite (pinsert_ext pr (prio σ)).
Qed.

Lemma pmerge_sorted pr P R : sorted_desc pr R -> sorted_desc pr (pmerge pr P R).
Proof. revert R. induction P as [|x P IH]; intros R HR; [done|]. by apply IH, pinsert_sorted. Qed.

(** The tasks of one priority keep their order; a newcomer comes last. *)
Lemma pinsert_filter pr x R k :
  sorted_desc pr R ->
  filter (fun y => pr y = k) (pinsert pr x R) =
  filter (fun y => pr y = k) R ++ (if decide (pr x = k) then [x] else []).
Proof.
  induction 1 as [|y R HR IH Hf]; simpl.
  - by rewrite filter_cons.
  - destruct (Z.leb_spec (pr x) (pr y)).
    + rewrite !(filter_cons _ y), IH. by repeat case_decide.
    + rewrite (filter_cons _ x). case_decide as Ek; [|by rewrite app_nil_r].
      assert (filter (fun z => pr z = k) (y :: R) = []) as ->; [|done].
      apply filter_none. constructor; [lia|]. eapply Forall_impl; [done|]. simpl. lia.
Qed.

Lemma pmerge_filter pr P R k :
  sorted_desc pr R ->
  filter (fun y => pr y = k) (pmerge pr P R) = filter (fun y => pr y = k) R ++ filter (fun y => pr y = k) P.
Proof.
  revert R. induction P as [|x P IH]; intros R HR; [by rewrite app_nil_r|].
  change (pmerge pr (x :: P) R) with (pmerge pr P (pinsert pr x R)).
  rewrite IH by by apply pinsert_sorted. rewrite pinsert_filter by done. rewrite (filter_cons _ x).
  case_decide; by rewrite <- app_assoc.
Qed.

Lemma pmerge_elem pr P R y : y ∈ pmerge pr P R <-> y ∈ R \/ y ∈ P.
Proof.
  revert R. induction P as [|x P IH]; intros R; [set_solver|].
  change (pmerge pr (x :: P) R) with (pmerge pr P (pinsert pr x R)). rewrite IH, pinsert_elem. set_solver.
Qed.

(** * Sequences of operations *)

Inductive sched_op :=
| OpUnblock (tcb : ptr)
| OpBlock (tcb : ptr) (st : tstate_e)
| OpSetPriority (tcb : ptr) (prio : Z)
| OpYield
| OpLock
| OpUnlock
| OpTick.

Definition exec {K} (others : M (kernel K) unit) (op : sched_op) : M (kernel K) Z :=
  match op with
  | OpUnblock tcb => up_unblock_task others tcb ;; ret OK
  | OpBlock tcb st => up_block_task others tcb st ;; ret OK
  | OpSetPriority tcb p => nxsched_set_priority others tcb p
  | OpYield => sched_yield others
  | OpLock => sched_lock
  | OpUnlock => sched_unlock others
  | OpTick => nxsched_cpu_scheduler others ;; ret OK
  end.

(** When an operation may be called. *)
Definition op_pre (σ : sst) (op : sched_op) : Prop :=
  match op with
  | OpUnblock x => user_task σ x /\ is_blocked (state σ x) = true
  | OpBlock x st => user_task σ x /\ is_ready (state σ x) = true /\ is_blocked st = true
  | OpSetPriority x p => user_task σ x
  | OpYield => user_task σ (running σ)
  | OpLock => lock σ (running σ) < MAX_LOCK_COUNT
  | OpUnlock => True
  | OpTick => True
  end.

Inductive reachable {K} (others : M (kernel K) unit) (s0 : kernel K) : kernel K -> Prop :=
| reach_init : reachable others s0 s0
| reach_step s op σ v s' :
    reachable others s0 s -> sched_ok s σ -> op_pre σ op -> exec others op s = Some (v, s') ->
    reachable others s0 s'.

Section Steps.
Context {K : Type}.
#[local] Abbreviation sched_t := (kernel K).
Variable others : M sched_t unit.
Hypothesis Henv : env_ok others.
Implicit Types (σ : sst) (x y : ptr) (s : sched_t).

Lemma after_ok b σ ρ σρ i :
  outcome_ok σ ρ σρ ->
  after others b σρ i (fun _ s' => exists σ', sched_ok s' σ' /\ same_tasks σ σ').
Proof using All.
  intros (Hi & Hp & He & _) m Hm. assert (sched_ok (mksched m σρ.2 i) σρ.1) as Hok by done.
  assert (same_tasks σ σρ.1) as Hs by by intros y ?%He.
  destruct (b && negb (in_irq i)); [|by eapply wp_ret; eauto].
  eapply wp_mono; [by apply (Henv _ _ Hok)|]. intros [] s' (σ' & ? & Hs'). exists σ'. split; [done|].
  intros y ?%Hs. by apply Hs'.
Qed.

Lemma step_ok s σ op :
  sched_ok s σ -> op_pre σ op ->
  wp (exec others op) (fun _ s' => exists σ', sched_ok s' σ' /\ same_tasks σ σ') s.
Proof using All.
  intros (Hr & Hi & Hp) Hop.
  assert (forall c : M sched_t unit, wp c (fun _ s' => exists σ', sched_ok s' σ' /\ same_tasks σ σ') s ->
    wp (c ;; ret OK) (fun _ s' => exists σ', sched_ok s' σ' /\ same_tasks σ σ') s) as Hunit.
  { intros c Hc. apply wp_bind. eapply wp_mono; [exact Hc|]. by intros [] s' ?. }
  assert (forall x p, user_task σ x ->
    wp (nxsched_set_priority others x p) (fun _ s' => exists σ', sched_ok s' σ' /\ same_tasks σ σ') s) as Hset.
  { intros x p Hu. destruct (decide (SCHED_PRIORITY_MIN <= p <= SCHED_PRIORITY_MAX)).
    - eapply swp_set_priority; [done..|]. by eapply after_ok, set_priority_ok.
    - unfold nxsched_set_priority. destruct ((p <? _) || _) eqn:E.
      + apply wp_ret. exists σ. split; [done|by intros y].
      + apply orb_false_iff in E. rewrite !Z.ltb_ge in E. lia. }
  destruct op as [x|x st|x p| | | |]; cbn [op_pre exec] in *.
  - destruct Hop. apply Hunit. eapply swp_unblock; [done..|]. by eapply after_ok, unblock_ok.
  - destruct Hop as (? & ? & ?). apply Hunit. eapply swp_block; [done..|]. by eapply after_ok, block_ok.
  - by apply Hset.
  - unfold sched_yield. assert (g_readytorun ∈ tasklists) as Hq by left.
    pose proof (proj1 Hop) as Hx. apply wp_bind, wp_onm. sstep. rewrite sched_eta.
    apply wp_bind, wp_onm. sstep. rewrite sched_eta. apply wp_bind. eapply wp_mono; [by apply Hset|].
    intros v s' ?. by apply wp_ret.
  - eapply swp_lock; [done..|]. intros m Hm. destruct (intr s).
    { exists σ. split; [by split_and!|by intros y]. }
    pose proof (running_exists _ Hi) as Hx. pose proof (inv_lock _ Hi (running σ)) as Hb.
    eexists. split; [split; [exact Hm|]|intros y Hy; by apply upd_attr_exists].
    split; [apply sinv_lock; [done..|lia]|]. intros _.
    change (running (upd_attr ?x ?f σ)) with (running σ). rewrite lock_set, decide_True by done. lia.
  - destruct s as [m ρ [[] k]].
    { unfold sched_unlock. assert (g_readytorun ∈ tasklists) as Hq by left.
      apply wp_bind, wp_onm. sstep. apply wp_bind, wp_gets. unfold intr in *. cbn [env in_irq] in *. rewrite andb_false_r.
      apply wp_bind, wp_ret, wp_ret. exists σ. split; [by split_and!|by intros y]. }
    eapply swp_unlock; [done..|]. intros m' Hm'.
    eapply wp_mono; [by eapply (after_ok _ σ ρ), Hm'; apply unlock_outcome|].
    intros [] s' (σ' & Hok & Hs). destruct (lock σ (running σ) <=? 1); unfold when; [|by apply wp_ret; eauto].
    eapply wp_mono; [eapply unlock_tail_ok; [done|by apply Hs, running_exists]|].
    intros [] s2 (σ2 & ? & Hs2). exists σ2. split; [done|]. intros y ?%Hs. by apply Hs2.
  - apply Hunit. unfold nxsched_cpu_scheduler. assert (g_readytorun ∈ tasklists) as Hq by left.
    pose proof (running_exists _ Hi) as Hx. apply wp_bind, wp_onm. sstep. rewrite sched_eta.
    apply wp_bind, wp_onm. sstep. rewrite sched_eta. destruct (attr is_rr false σ (running σ)); unfold when.
    + apply wp_bind. eapply swp_roundrobin; [done..|]. intros m Hm.
      eapply wp_mono; [by eapply (after_ok _ σ (cpu_regs s)), Hm; apply roundrobin_outcome|].
      intros [] s' ? v. by apply wp_ret.
    + apply wp_ret. exists σ. split; [by split_and!|by intros y].
Qed.
End Steps.

(** * Theorems *)

(** The end of an operation from [s1] on: a thread that was switched out is
    suspended while the others run; then the result is returned. *)
Definition finish {K B} (others : M (kernel K) unit) (b : bool) (v : B) (s1 : kernel K) : option (B * kernel K) :=
  ((if b && negb (intr s1) then others else ret tt) ;; ret v) s1.

Lemma after_elim {K B} others (c : M (kernel K) B) (v : B) s b σ σρ :
  env_ok others -> outcome_ok σ (cpu_regs s) σρ ->
  (forall Q : B -> kernel K -> Prop, after others b σρ (env s) (fun _ => Q v) -> wp c Q s) ->
  exists s1, c s = finish others b v s1 /\ sched_ok s1 σρ.1 /\ cpu_regs s1 = σρ.2 /\ env s1 = env s.
Proof.
  intros Henv Hout Hc.
  assert (wp c (fun v' s' => exists m, srep tasklists m σρ.1 /\
            finish others b v (mksched m σρ.2 (env s)) = Some (v', s')) s) as Hw.
  { apply Hc. intros m Hm. pose proof (after_ok others Henv b σ _ σρ (env s) Hout m Hm) as Hk.
    apply wp_run in Hk as ([] & s' & Hk & _).
    apply wp_run. exists tt, s'. split; [done|]. exists m. split; [done|]. unfold finish, intr. cbn [env].
    unfold bind. by rewrite Hk. }
  apply wp_run in Hw as (v' & s' & Hcs & m & Hm & Hf). exists (mksched m σρ.2 (env s)).
  rewrite Hf. destruct Hout as (? & ? & _). by split_and!.
Qed.

Lemma after_tt {K} others b σρ i (Q : unit -> kernel K -> Prop) :
  after others b σρ i (fun _ => Q tt) -> after others b σρ i Q.
Proof. intros HQ m Hm. eapply wp_mono; [exact (HQ m Hm)|]. by intros [] s ?. Qed.

(** Whether the running task was replaced. *)
Lemma ready_all_switched l σ :
  ready σ <> [] -> (forall x, x ∈ l -> x <> running σ) ->
  (spec_ready_all l σ).1 = true <-> running (spec_ready_all l σ).2 <> running σ.
Proof.
  intros Hne Hl. split.
  - intros Hb. assert (running (spec_ready_all l σ).2 ∈ l \/
      running (spec_ready_all l σ).2 = running σ /\ (spec_ready_all l σ).1 = false) as [H|[_ H]];
      [|by apply Hl|congruence].
    clear Hl Hb. revert σ Hne. induction l as [|x l IH]; intros σ Hne; [by right|]. rewrite spec_ready_all_cons.
    cbn [fst snd]. set (τ := set_list g_pendingtasks l σ).
    assert (ready τ = ready σ) as Eτ by by apply set_list_ne.
    destruct (IH (spec_ready x τ).2) as [H|[H1 H2]].
    + rewrite spec_ready_list, Eτ. destruct (ready σ); [done|]. simpl. by case_match.
    + left. by right.
    + rewrite H1, H2, spec_ready_running by by rewrite Eτ. unfold spec_ready. case_match; [|left; left].
      right. split; [|done]. unfold running. by rewrite Eτ.
  - intros Hn. destruct ((spec_ready_all l σ).1) eqn:E; [done|]. by rewrite ready_all_running in Hn.
Qed.

Lemma reachable_ok {K} (others : M (kernel K) unit) s0 σ0 s :
  env_ok others -> sched_ok s0 σ0 -> reachable others s0 s -> exists σ, sched_ok s σ.
Proof.
  intros Henv H0 Hreach. destruct Hreach as [|s1 op σ v s' _ Hok Hpre Hex]; [by eexists|].
  pose proof (step_ok others Henv s1 σ op Hok Hpre) as Hw. unfold wp in Hw. rewrite Hex in Hw.
  destruct Hw as (σ' & ? & _). by exists σ'.
Qed.

(** C1: Over any sequence of scheduler calls -- tasks blocked and unblocked,
    priorities changed, preemption locked and unlocked, timer ticks -- the
    task lists stay consistent: every task is in exactly the list that its
    state names, the prioritized lists are in priority order, the first ready
    task is the running one and tasks are pending only under a preemption
    lock; and no legal call runs into a failed assertion, a bad pointer or an
    endless loop. *)
Theorem sched_invariant {K} (others : M (kernel K) unit) s0 σ0 s :
  env_ok others -> sched_ok s0 σ0 -> reachable others s0 s ->
  exists σ, sched_ok s σ /\
    forall op, op_pre σ op -> exists v s', exec others op s = Some (v, s').
Proof.
  intros Henv H0 Hreach. destruct (reachable_ok _ _ _ _ Henv H0 Hreach) as [σ Hok].
  exists σ. split; [done|]. intros op Hpre. pose proof (step_ok others Henv s σ op Hok Hpre) as Hw.
  apply wp_run in Hw as (v & s' & ? & _). eauto.
Qed.

(** C11: Priority scheduling: whenever the running task does not hold the
    preemption lock, no task that is ready to run -- in the ready list or
    pending -- has a higher priority than it, and it alone is in the running
    state. *)
Theorem sched_highest_priority {K} (others : M (kernel K) unit) s0 σ0 s :
  env_ok others -> sched_ok s0 σ0 -> reachable others s0 s ->
  exists σ, srep tasklists (tmem s) σ /\
    (forall x, state σ x = TSTATE_TASK_RUNNING <-> x = running σ) /\
    (lock σ (running σ) = 0 ->
     forall x, is_ready (state σ x) = true \/ state σ x = TSTATE_TASK_PENDING ->
       prio σ x <= prio σ (running σ)).
Proof.
  intros Henv H0 Hreach. destruct (reachable_ok _ _ _ _ Henv H0 Hreach) as [σ Hok].
  destruct Hok as (Hr & Hi & Hp). exists σ. split; [done|]. split; [apply (inv_run _ Hi)|].
  intros Hl x [Hx|Hx].
  - apply (is_ready_elem _ _ Hi) in Hx. pose proof (inv_sorted _ Hi TSTATE_TASK_RUNNING eq_refl) as Hs.
    change (lists σ _) with (ready σ) in Hs. unfold running.
    destruct (ready σ) as [|y l]; [by apply not_elem_of_nil in Hx|]. apply StronglySorted_inv in Hs as [Hs Hf].
    simpl. rewrite Forall_forall in Hf. apply elem_of_cons in Hx as [->|Hx]; [lia|auto].
  - apply (pending_state _ _ Hi) in Hx. exfalso. assert (pending σ <> []) as Hn by (intros E; rewrite E in Hx; set_solver).
    specialize (Hp Hn). lia.
Qed.

Lemma remove_blocked_pending x σ :
  is_blocked (state σ x) = true -> pending (spec_remove_blocked x σ) = pending σ.
Proof. intros Hb. apply set_list_ne. by destruct (state σ x). Qed.

Lemma resched_lists b r σ ρ q : lists (resched b r σ ρ).1 q = lists σ q.
Proof. by destruct b. Qed.

(** The lists after [spec_unblock]. *)
Lemma unblock_lists x σ ρ :
  is_blocked (state σ x) = true ->
  let b := (spec_unblock x σ ρ).1 in let σ' := (spec_unblock x σ ρ).2.1 in
  lists σ' (TLIST_BLOCKED (state σ x)) = lremove x (lists σ (TLIST_BLOCKED (state σ x))) /\
  if (0 <? lock σ (running σ)) && (prio σ (running σ) <? prio σ x)
  then b = false /\ ready σ' = ready σ /\ pending σ' = pinsert (prio σ) x (pending σ)
  else b = (prio σ (running σ) <? prio σ x) /\
       ready σ' = pinsert (prio σ) x (ready σ) /\ pending σ' = pending σ.
Proof.
  intros Hb. unfold spec_unblock. destruct (tlist_blocked _ Hb) as [Hq Hqr].
  assert (TLIST_BLOCKED (state σ x) <> g_pendingtasks) as Hqp by by destruct (state σ x).
  pose proof (remove_blocked_ready _ _ Hb) as Hrd. pose proof (remove_blocked_pending _ _ Hb) as Hpd.
  assert (lists (spec_remove_blocked x σ) (TLIST_BLOCKED (state σ x)) = lremove x (lists σ (TLIST_BLOCKED (state σ x)))) as Hls
    by apply set_list_eq.
  destruct (keeps_remove_blocked σ x) as [_ Hk]. set (σ1 := spec_remove_blocked x σ) in *.
  assert (running σ1 = running σ) as Hrun by (unfold running; by rewrite Hrd).
  assert (pinsert (prio σ1) x (ready σ1) = pinsert (prio σ) x (ready σ)) as Hins1
    by (rewrite Hrd; apply pinsert_ext; intros; by apply Hk).
  assert (pinsert (prio σ1) x (pending σ1) = pinsert (prio σ) x (pending σ)) as Hins2
    by (rewrite Hpd; apply pinsert_ext; intros; by apply Hk).
  unfold spec_add_readytorun. rewrite Hrun, !(Hk _ sched_priority), (Hk _ lockcount) by done.
  destruct ((0 <? lock σ (running σ)) && (prio σ (running σ) <? prio σ x)) eqn:E.
  - cbn [fst snd resched]. split; [by rewrite <- Hls; apply set_list_ne|]. split; [done|].
    rewrite <- Hrd, <- Hins2. split; [by apply set_list_ne|apply set_list_eq].
  - pose proof (spec_ready_list x σ1) as Hl. pose proof (spec_ready_lists x σ1) as Hl2.
    assert ((spec_ready x σ1).1 = (prio σ (running σ) <? prio σ x)) as Hbb.
    { unfold spec_ready. rewrite Hrun, !(Hk _ sched_priority) by done.
      destruct (Z.leb_spec (prio σ x) (prio σ (running σ))); cbn [fst]; symmetry;
        [apply Z.ltb_ge|apply Z.ltb_lt]; lia. }
    destruct (spec_ready x σ1) as [b σ']. cbn [fst snd] in *. unfold ready, pending in *.
    rewrite !resched_lists, Hl, !Hl2, Hins1, Hls, Hpd by done. done.
Qed.

Lemma pmerge_ext pr pr' P R : (forall y, pr y = pr' y) -> pmerge pr P R = pmerge pr' P R.
Proof.
  intros He. revert R. induction P as [|y l IH]; intros R; [done|].
  change (pmerge ?f (y :: l) R) with (pmerge f l (pinsert f y R)). by rewrite IH, (pinsert_ext pr pr').
Qed.

(** The lists after [spec_block]. *)
Lemma block_lists x st σ ρ :
  sinv σ -> user_task σ x -> is_ready (state σ x) = true -> is_blocked st = true ->
  let σ' := (spec_block x st σ ρ).2.1 in
  lists σ' (TLIST_BLOCKED st) =
    (if TLIST_ISPRIORITIZED st then pinsert (prio σ) x (lists σ (TLIST_BLOCKED st))
     else lists σ (TLIST_BLOCKED st) ++ [x]) /\
  ready σ' = pmerge (prio σ) (pending σ) (lremove x (ready σ)) /\ pending σ' = [].
Proof.
  intros Hi Hu Hs Hb. destruct (block_mid x st σ Hi Hu Hs Hb) as (Hi1 & _ & Hi2 & [_ Hk] & Hrd & Hpd).
  destruct (tlist_blocked _ Hb) as [Hq Hqr].
  assert (TLIST_BLOCKED st <> g_pendingtasks) as Hqp by by destruct st.
  pose proof (keeps_remove_readytorun σ x) as [_ Hk1].
  assert (lists (spec_remove_readytorun x σ).2 (TLIST_BLOCKED st) = lists σ (TLIST_BLOCKED st)) as Hl1.
  { unfold spec_remove_readytorun. cbn [snd lists upd_attr]. rewrite set_list_ne by done. by case_decide. }
  unfold spec_block. destruct (spec_remove_readytorun x σ) as [b1 σ1]. cbn [fst snd] in *.
  set (σ2 := spec_add_blocked x st σ1) in *.
  pose proof (spec_merge_pending_empty σ2) as Hemp. pose proof (ready_all_list (pending σ2) σ2) as Hrl.
  pose proof (spec_ready_all_lists (pending σ2) σ2 _ Hqr Hqp) as Hls.
  fold (spec_merge_pending σ2) in *. destruct (spec_merge_pending σ2) as [b2 σ3]. cbn [fst snd] in *.
  unfold ready, pending in *. rewrite !resched_lists, Hls, Hrl, Hemp, Hrd, Hpd. split_and!; [| |done].
  - unfold σ2, spec_add_blocked. cbn [lists upd_attr]. rewrite set_list_eq, Hl1.
    case_match; [|done]. apply pinsert_ext; intros; by apply Hk1.
  - apply pmerge_ext. intros. by apply Hk.
Qed.

(** C20: Unblocking a task: it leaves its waiting list; if the running task
    holds the preemption lock and has a lower priority the task is queued as
    pending and nothing is switched; otherwise it is queued as ready behind
    the tasks of its priority, and the CPU switches to it exactly if its
    priority is higher than that of the running task.  The register context
    of every task is kept. *)
Theorem unblock_task_spec {K} (others : M (kernel K) unit) s σ x :
  env_ok others -> sched_ok s σ -> user_task σ x -> is_blocked (state σ x) = true ->
  exists s1 σ' b,
    up_unblock_task others x s = finish others b tt s1 /\ sched_ok s1 σ' /\
    (lists σ' (TLIST_BLOCKED (state σ x)) = lremove x (lists σ (TLIST_BLOCKED (state σ x))) /\
     if (0 <? lock σ (running σ)) && (prio σ (running σ) <? prio σ x)
     then b = false /\ ready σ' = ready σ /\ pending σ' = pinsert (prio σ) x (pending σ)
     else b = (prio σ (running σ) <? prio σ x) /\
          ready σ' = pinsert (prio σ) x (ready σ) /\ pending σ' = pending σ) /\
    (forall t, context σ' (cpu_regs s1) t = context σ (cpu_regs s) t).
Proof.
  intros Henv (Hr & Hi & Hp) Hu Hb. pose proof (unblock_ok x σ (cpu_regs s) Hi Hp Hu Hb) as Hout.
  set (r := spec_unblock x σ (cpu_regs s)) in *.
  destruct (after_elim others (up_unblock_task others x) tt s r.1 σ r.2 Henv Hout) as (s1 & Hc & Hok & Hreg & _).
  { intros Q HQ. eapply swp_unblock; [done..|]. by apply after_tt. }
  exists s1, r.2.1, r.1. rewrite Hreg. split; [done|]. split; [done|].
  split; [by apply unblock_lists|apply Hout].
Qed.

(** C21: Blocking a ready task: it goes to the waiting list of its new state,
    in priority order where the list is prioritized and last otherwise; all
    pending tasks become ready, merged in priority order behind the ready
    tasks of their priority; and the CPU then runs the first ready task, with
    every task's register context kept. *)
Theorem block_task_spec {K} (others : M (kernel K) unit) s σ x st :
  env_ok others -> sched_ok s σ -> user_task σ x -> is_ready (state σ x) = true ->
  is_blocked st = true ->
  exists s1 σ' b,
    up_block_task others x st s = finish others b tt s1 /\ sched_ok s1 σ' /\
    (lists σ' (TLIST_BLOCKED st) =
       (if TLIST_ISPRIORITIZED st then pinsert (prio σ) x (lists σ (TLIST_BLOCKED st))
        else lists σ (TLIST_BLOCKED st) ++ [x]) /\
     ready σ' = pmerge (prio σ) (pending σ) (lremove x (ready σ)) /\ pending σ' = []) /\
    (forall t, context σ' (cpu_regs s1) t = context σ (cpu_regs s) t).
Proof.
  intros Henv (Hr & Hi & Hp) Hu Hs Hb. pose proof (block_ok x st σ (cpu_regs s) Hi Hu Hs Hb) as Hout.
  set (r := spec_block x st σ (cpu_regs s)) in *.
  destruct (after_elim others (up_block_task others x st) tt s r.1 σ r.2 Henv Hout) as (s1 & Hc & Hok & Hreg & _).
  { intros Q HQ. eapply swp_block; [done..|]. by apply after_tt. }
  exists s1, r.2.1, r.1. rewrite Hreg. split; [done|]. split; [done|].
  split; [by apply block_lists|apply Hout].
Qed.

Lemma set_priority_prio x p σ ρ y :
  sinv σ -> user_task σ x -> SCHED_PRIORITY_MIN <= p <= SCHED_PRIORITY_MAX ->
  prio (spec_set_priority x p σ ρ).2.1 y = if decide (y = x) then p else prio σ y.
Proof.
  intros Hi Hu Hp. pose proof Hu as [Hx _]. unfold spec_set_priority.
  assert (prio (spec_requeue x p σ) y = if decide (y = x) then p else prio σ y) as Hrq.
  { unfold spec_requeue. case_match; change (attr ?p ?d (set_list ?q ?l ?s)) with (attr p d s);
      by rewrite prio_set. }
  destruct (state σ x) eqn:Hs; try done.
  - destruct (prio σ (running σ) <? p); [apply reprio_keeps; try done; by rewrite Hs|]. cbn [fst snd]. rewrite (proj2 (keeps_add_readytorun _ x)) by done.
    destruct (keeps_remove_readytorun σ x) as [He Hk]. rewrite prio_set by by apply He. by rewrite Hk.
  - destruct (p <=? _); [apply reprio_keeps; try done; by rewrite Hs|]. by apply prio_set.
Qed.

(** Setting a priority: a value outside [1, 255] is refused with
    [-EINVAL] and changes nothing; otherwise the task, whatever its state,
    has the new priority and every other task its old one, and all lists are
    in priority order again with the highest priority task running. *)
Theorem set_priority_spec {K} (others : M (kernel K) unit) s σ x p :
  env_ok others -> sched_ok s σ -> user_task σ x ->
  if decide (SCHED_PRIORITY_MIN <= p <= SCHED_PRIORITY_MAX)
  then exists s1 σ' b,
    nxsched_set_priority others x p s = finish others b OK s1 /\ sched_ok s1 σ' /\
    (forall y, prio σ' y = if decide (y = x) then p else prio σ y) /\
    (forall t, context σ' (cpu_regs s1) t = context σ (cpu_regs s) t)
  else nxsched_set_priority others x p s = Some (- EINVAL, s).
Proof.
  intros Henv (Hr & Hi & Hp) Hu. case_decide as Hpr.
  - pose proof (set_priority_ok x p σ (cpu_regs s) Hi Hp Hu Hpr) as Hout.
    set (r := spec_set_priority x p σ (cpu_regs s)) in *.
    destruct (after_elim others (nxsched_set_priority others x p) OK s r.1 σ r.2 Henv Hout)
      as (s1 & Hc & Hok & Hreg & _).
    { intros Q HQ. by eapply swp_set_priority. }
    exists s1, r.2.1, r.1. rewrite Hreg. split; [done|]. split; [done|]. split; [|apply Hout].
    intros y. by apply set_priority_prio.
  - unfold nxsched_set_priority. replace (_ || _) with true; [done|].
    symmetry. apply orb_true_iff. rewrite !Z.ltb_lt. lia.
Qed.

(** Merging the pending tasks is a stable merge: afterwards no task is
    pending, the ready list is in priority order, among the tasks of one
    priority the ready ones come first and all keep their order, and the
    result tells whether the running task was replaced. *)
Theorem merge_pending_stable m σ :
  srep tasklists m σ -> sinv σ ->
  wp nxsched_merge_pending (fun b m' => exists σ',
    srep tasklists m' σ' /\ sinv σ' /\ pending σ' = [] /\
    (forall k, filter (fun y => prio σ y = k) (ready σ') =
               filter (fun y => prio σ y = k) (ready σ) ++ filter (fun y => prio σ y = k) (pending σ)) /\
    (b = true <-> running σ' <> running σ)) m.
Proof.
  intros Hr Hi. eapply swp_merge; [done..|]. intros m' Hm. eexists. split; [exact Hm|].
  split; [by apply sinv_merge_pending|]. split; [apply spec_merge_pending_empty|]. split.
  - intros k. unfold spec_merge_pending. rewrite ready_all_list. apply pmerge_filter.
    by apply (inv_sorted _ Hi TSTATE_TASK_RUNNING).
  - apply ready_all_switched; [by apply ready_ne|]. intros x Hx ->.
    apply (pending_state _ _ Hi) in Hx. by rewrite (proj2 (inv_run _ Hi _)) in Hx.
Qed.

Lemma unlock_lists σ ρ :
  sinv σ ->
  let σ' := (spec_unlock σ ρ).2.1 in let l := lock σ (running σ) in
  lock σ' (running σ) = Z.max 0 (l - 1) /\
  if l <=? 1 then ready σ' = pmerge (prio σ) (pending σ) (ready σ) /\ pending σ' = []
  else ready σ' = ready σ /\ pending σ' = pending σ.
Proof.
  intros Hi. pose proof (running_exists _ Hi) as Hx. unfold spec_unlock.
  set (r := running σ) in *. set (l := Z.max 0 (lock σ r - 1)). set (σ1 := upd_attr r (set_lockcount l) σ).
  assert (lock σ1 r = l) as Hl by (unfold σ1; by rewrite lock_set, decide_True).
  destruct (Z.leb_spec (lock σ r) 1); destruct (Z.eqb_spec l 0); try lia; [|done].
  unfold spec_release. pose proof (keeps_merge_pending σ1) as [_ Hk].
  pose proof (spec_merge_pending_empty σ1) as Hemp. pose proof (ready_all_list (pending σ1) σ1) as Hrl.
  fold (spec_merge_pending σ1) in Hrl. destruct (spec_merge_pending σ1) as [b σ2]. cbn [fst snd] in *.
  split; [|split].
  - rewrite <- Hl, <- Hk by done. unfold resched. destruct b; [|done]. apply spec_switch_lock.
  - unfold ready in *. rewrite resched_lists, Hrl. apply pmerge_ext. intros. unfold σ1. by rewrite attr_upd_ne.
  - unfold pending in *. by rewrite resched_lists.
Qed.

(** The preemption lock nests: in a thread [sched_lock] adds one level,
    [sched_unlock] takes one away, and when the last level goes all pending
    tasks are merged into the ready list and the CPU runs the first ready
    task; with levels left nothing changes but the count. *)
Theorem sched_lock_nesting {K} (others : M (kernel K) unit) m ρ k σ :
  env_ok others -> sched_ok (mksched m ρ (mkenv false k)) σ ->
  (lock σ (running σ) < MAX_LOCK_COUNT ->
   wp sched_lock (fun v s' => v = OK /\ cpu_regs s' = ρ /\ srep tasklists (tmem s')
     (upd_attr (running σ) (set_lockcount (lock σ (running σ) + 1)) σ)) (mksched m ρ (mkenv false k))) /\
  exists s1 σ' (b : bool),
    sched_unlock others (mksched m ρ (mkenv false k)) =
      ((if b then others else ret tt) ;;
       when (lock σ (running σ) <=? 1) (unlock_tail (running σ)) ;; ret OK) s1 /\
    sched_ok s1 σ' /\ lock σ' (running σ) = Z.max 0 (lock σ (running σ) - 1) /\
    (if lock σ (running σ) <=? 1 then ready σ' = pmerge (prio σ) (pending σ) (ready σ) /\ pending σ' = []
     else ready σ' = ready σ /\ pending σ' = pending σ) /\
    (forall t, context σ' (cpu_regs s1) t = context σ ρ t).
Proof.
  intros Henv (Hr & Hi & Hp). split; [intros Hl; eapply swp_lock; [done..|]; by intros m' Hm|].
  pose proof (unlock_outcome σ ρ Hi Hp) as Hout. destruct (unlock_lists σ ρ Hi) as [Hl1 Hl2].
  set (r := spec_unlock σ ρ) in *.
  set (tail := (when (lock σ (running σ) <=? 1) (unlock_tail (running σ)) ;; ret OK) : M (kernel K) Z).
  assert (wp (sched_unlock others) (fun v s' => exists m1, srep tasklists m1 r.2.1 /\
    ((if r.1 && negb false then others else ret tt) ;; tail) (mksched m1 r.2.2 (mkenv false k)) = Some (v, s'))
    (mksched m ρ (mkenv false k))) as Hw.
  { eapply swp_unlock; [done..|]. intros m1 Hm1.
    pose proof (after_ok others Henv r.1 σ ρ r.2 (mkenv false k) Hout m1 Hm1) as Hk. eapply wp_run in Hk as ([] & s2 & Hs2 & σ2 & Hok & Hst).
    apply wp_run. exists tt, s2. split; [done|]. unfold tail.
    assert (wp (when (lock σ (running σ) <=? 1) (unlock_tail (running σ))) (fun _ _ => True) s2) as Htail.
    { destruct (lock σ (running σ) <=? 1); [|done]. eapply wp_mono; [eapply unlock_tail_ok; [done|]|done].
      by apply Hst, running_exists. }
    apply wp_run in Htail as ([] & s3 & Hs3 & _). apply wp_run. exists tt, s3. split; [done|].
    exists m1. split; [done|]. unfold bind. cbn [in_irq] in Hs2. rewrite Hs2. by rewrite Hs3. }
  apply wp_run in Hw as (v & s' & Hs' & m1 & Hm1 & Hf). rewrite andb_true_r in Hf.
  exists (mksched m1 r.2.2 (mkenv false k)), r.2.1, r.1. rewrite Hs', <- Hf. destruct Hout as (? & ? & _ & Hctx).
  by split_and!.
Qed.

Lemma rr_slice_spec ts : 0 <= ts <= INT32_MAX -> rr_slice ts = Z.max 0 (ts - 1).
Proof.
  unfold INT32_MAX. intros Hts. unfold rr_slice. rewrite wrapu_small by lia.
  destruct (Z.ltb_spec ts 1).
  - by assert (ts = 0) as -> by lia.
  - rewrite (s32_small 1), s32_small by (unfold INT32_MIN, INT32_MAX; lia). lia.
Qed.

(** The running task, put back behind the tasks of its priority. *)
Lemma reprio_rotate σ ρ r :
  sinv σ -> pinv σ -> r = running σ -> user_task σ r -> lock σ r = 0 ->
  prio σ r <= prio σ (hd_or NULL (List.tl (ready σ))) ->
  ready (spec_reprio r (prio σ r) σ ρ).2.1 = pinsert (prio σ) r (List.tl (ready σ)) /\
  pending (spec_reprio r (prio σ r) σ ρ).2.1 = [].
Proof.
  intros Hi Hp Hr Hu Hl Hle. pose proof (proj2 (inv_run _ Hi r) Hr) as Hs.
  assert (is_ready (state σ r) = true) as Hs' by by rewrite Hs.
  pose proof (user_prio _ _ Hi Hu) as Hpr.
  destruct (reprio_mid r (prio σ r) σ Hi Hu Hs' Hpr) as (Hx1 & Hi2 & _ & _ & Hrd & Hpd & _ & _ & _).
  assert (lremove r (ready σ) = List.tl (ready σ)) as Htl.
  { pose proof (inv_nodup _ Hi g_readytorun ltac:(left)) as Hnd. fold (ready σ) in Hnd. subst r. unfold running.
    pose proof (ready_ne _ Hi). destruct (ready σ) as [|y l]; [done|]. by apply (lremove_mid y []). }
  assert (pending σ = []) as Hnil.
  { destruct (pending σ) as [|y l] eqn:E; [done|]. assert (0 < lock σ (running σ)); [apply Hp; by rewrite E|].
    subst r. lia. }
  assert (forall y, prio (upd_attr r (set_priority (prio σ r)) (spec_remove_readytorun r σ).2) y = prio σ y) as Hpp.
  { intros y. rewrite prio_set by done. destruct (keeps_remove_readytorun σ r) as [_ Hk]. rewrite Hk by done.
    case_decide; congruence. }
  unfold spec_reprio. destruct (spec_remove_readytorun r σ) as [b1 σ1] eqn:E1. cbn [fst snd] in *.
  set (σ2 := upd_attr r _ σ1) in *. rewrite Htl in Hrd.
  assert (spec_add_readytorun r σ2 = spec_ready r σ2) as Ea.
  { unfold spec_add_readytorun. rewrite !Hpp. unfold running. rewrite Hrd.
    destruct (Z.ltb_spec (prio σ (hd_or NULL (List.tl (ready σ)))) (prio σ r)); [lia|]. by rewrite andb_false_r. }
  rewrite Ea. pose proof (spec_ready_list r σ2) as Hl2. pose proof (spec_ready_lists r σ2 g_pendingtasks ltac:(done)) as Hl3.
  destruct (spec_ready r σ2) as [b2 σ3]. cbn [fst snd] in *. fold (pending σ3) (pending σ2) in Hl3.
  rewrite Hpd, Hnil in Hl3. rewrite merge_pending_nil by done. cbn [snd].
  assert ((if xorb b1 b2 then σ3 else σ3) = σ3) as -> by by destruct (xorb b1 b2).
  unfold ready, pending in *. rewrite !resched_lists, Hl2, Hrd. split; [|done]. by apply pinsert_ext.
Qed.

Lemma roundrobin_lists σ ρ :
  sinv σ -> pinv σ -> NULL ∉ ready σ -> 0 <= attr timeslice 0 σ (running σ) <= INT32_MAX ->
  let σ' := (spec_roundrobin σ ρ).2.1 in
  if decide (attr timeslice 0 σ (running σ) <= 1 /\ lock σ (running σ) = 0)
  then ready σ' = pinsert (prio σ) (running σ) (List.tl (ready σ))
  else ready σ' = ready σ /\
       attr timeslice 0 σ' (running σ) = Z.max 0 (attr timeslice 0 σ (running σ) - 1).
Proof.
  intros Hi Hp HN Hts. pose proof (running_exists _ Hi) as Hx. pose proof (inv_lock _ Hi (running σ)) as Hb.
  unfold spec_roundrobin. rewrite rr_slice_spec by done. set (r := running σ) in *.
  case_decide as Hd.
  - destruct Hd as [Hd1 Hd2]. replace (Z.max 0 (attr timeslice 0 σ r - 1) <=? 0) with true by lia.
    rewrite Hd2. cbn [Z.ltb Z.compare negb andb]. set (σ1 := upd_attr r _ σ).
    assert (forall y, prio σ1 y = prio σ y) as Hpp by (intros; by apply attr_upd_ne).
    assert (exists l, ready σ = r :: l) as [l El].
    { unfold r, running. pose proof (ready_ne _ Hi). destruct (ready σ); [done|]. eauto. }
    rewrite El in *. cbn [List.tl]. destruct l as [|z l]; cbn [hd_or]; [exact El|].
    rewrite is_null_ne by set_solver. cbn [negb andb].
    destruct (Z.leb_spec (prio σ r) (prio σ z)) as [Hle|Hlt].
    + assert (user_task σ r) as Hu by (apply running_user; [done|rewrite El; cbn; set_solver]).
      assert (user_task σ1 r) as Hu1 by (split; [apply upd_attr_exists, Hu|rewrite Hpp; apply Hu]).
      destruct (reprio_rotate σ1 ρ r) as [Hrd _]; try done.
      * by apply sinv_slice.
      * intros Hn. unfold σ1. rewrite attr_upd_ne by done. by apply Hp.
      * unfold σ1. by rewrite attr_upd_ne.
      * change (ready σ1) with (ready σ). rewrite El, !Hpp. done.
      * rewrite !Hpp in Hrd. change (ready σ1) with (ready σ) in Hrd. rewrite El in Hrd. rewrite Hrd.
        by apply pinsert_ext.
    + cbn [fst snd]. change (ready σ1) with (ready σ). rewrite El. cbn [pinsert].
      by destruct (Z.leb_spec (prio σ r) (prio σ z)); [lia|].
  - destruct ((Z.max 0 (attr timeslice 0 σ r - 1) <=? 0) && negb (0 <? lock σ r)) eqn:Ec.
    + apply andb_true_iff in Ec as [E1 E2]. apply negb_true_iff, Z.ltb_ge in E2. apply Z.leb_le in E1. lia.
    + cbn [fst snd]. split; [done|]. rewrite attr_upd_eq by done. simpl. by apply attr_const.
Qed.

(** A timer tick on a running round-robin task: its time slice shrinks;
    when the slice is used up and preemption is not locked the task goes
    behind the ready tasks of its own priority, so that the next of them
    runs; otherwise the ready list is unchanged.  Contexts are kept. *)
Theorem roundrobin_spec {K} (others : M (kernel K) unit) s σ :
  env_ok others -> sched_ok s σ -> attr is_rr false σ (running σ) = true ->
  0 <= attr timeslice 0 σ (running σ) <= INT32_MAX ->
  exists s1 σ' b,
    nxsched_cpu_scheduler others s = finish others b tt s1 /\ sched_ok s1 σ' /\
    (if decide (attr timeslice 0 σ (running σ) <= 1 /\ lock σ (running σ) = 0)
     then ready σ' = pinsert (prio σ) (running σ) (List.tl (ready σ))
     else ready σ' = ready σ /\
          attr timeslice 0 σ' (running σ) = Z.max 0 (attr timeslice 0 σ (running σ) - 1)) /\
    (forall t, context σ' (cpu_regs s1) t = context σ (cpu_regs s) t).
Proof.
  intros Henv (Hr & Hi & Hp) Hrr Hts. pose proof (roundrobin_outcome σ (cpu_regs s) Hi Hp) as Hout.
  assert (g_readytorun ∈ tasklists) as Hq by left. pose proof (running_exists _ Hi) as Hx.
  assert (NULL ∉ ready σ) as HN by (intros Hn; by apply (srep_ne _ _ _ _ _ Hr Hq) in Hn).
  set (r := spec_roundrobin σ (cpu_regs s)) in *.
  destruct (after_elim others (nxsched_cpu_scheduler others) tt s r.1 σ r.2 Henv Hout)
    as (s1 & Hc & Hok & Hreg & _).
  { intros Q HQ. unfold nxsched_cpu_scheduler. apply wp_bind, wp_onm. sstep. rewrite sched_eta.
    apply wp_bind, wp_onm. sstep. rewrite sched_eta, Hrr. unfold when. apply wp_bind.
    eapply swp_roundrobin; [done..|]. intros m Hm. eapply wp_mono; [exact (HQ m Hm)|].
    intros [] s' ? v. by apply wp_ret. }
  exists s1, r.2.1, r.1. rewrite Hreg. split; [done|]. split; [done|].
  split; [by apply roundrobin_lists|apply Hout].
Qed.

(** * Concrete instances *)

(** Two tasks of priority 50 and the IDLE task are ready; a task of priority
    80 waits for a semaphore. *)
Definition ex_tcb (f b p : Z) (st : tstate_e) (ts regs : Z) : tcb_s :=
  mktcb f b p st TCB_FLAG_SCHED_RR 0 0 ts NULL regs.
Definition ex_tmem : tmem_t := mkqmem
  {[ 100 := ex_tcb 0 400 0 TSTATE_TASK_READYTORUN 20 11;
     200 := ex_tcb 400 0 50 TSTATE_TASK_RUNNING 1 22;
     300 := ex_tcb 0 0 80 TSTATE_WAIT_SEM 20 33;
     400 := ex_tcb 100 200 50 TSTATE_TASK_READYTORUN 20 44 ]}
  {[ g_readytorun := mkqueue 200 100; g_pendingtasks := mkqueue 0 0; g_inactivetasks := mkqueue 0 0;
     g_waitingforsemaphore := mkqueue 300 300; g_waitingforsignal := mkqueue 0 0;
     g_waitingformqnotempty := mkqueue 0 0; g_waitingformqnotfull := mkqueue 0 0 ]}.
Definition ex_sched : kernel unit := mksched ex_tmem 7 (mkenv true tt).
Definition ex_lists (q : ptr) : list ptr :=
  if q =? g_readytorun then [200; 400; 100] else if q =? g_waitingforsemaphore then [300] else [].
Definition ex_sst : sst := mksst ex_lists (dstrip <$> nodes ex_tmem).

Lemma ex_attrs x :
  (x = 100 \/ x = 200 \/ x = 300 \/ x = 400) \/ attrs ex_sst !! x = None.
Proof.
  destruct (decide (x = 100)); [auto|]. destruct (decide (x = 200)); [auto|].
  destruct (decide (x = 300)); [auto|]. destruct (decide (x = 400)); [auto 6|]. right.
  cbn [attrs ex_sst ex_tmem nodes]. rewrite lookup_fmap, !lookup_insert_ne by done. by rewrite lookup_singleton_ne.
Qed.

Ltac in_tasks H := unfold tasklists in H;
  repeat (apply elem_of_cons in H as [->|H]); [..|by apply not_elem_of_nil in H].

Lemma ex_sinv : sinv ex_sst.
Proof.
  split.
  - intros x q Hq. destruct (ex_attrs x) as [H4|Hn].
    + destruct H4 as [->|[->|[->| ->]]]; in_tasks Hq; apply (bool_decide_unpack _); by vm_compute.
    + assert (state ex_sst x = TSTATE_TASK_INVALID) as -> by (unfold attr; by rewrite Hn).
      split; intros H; [exfalso|by in_tasks Hq]. in_tasks Hq; cbn in H;
        repeat (apply elem_of_cons in H as [->|H]; [by vm_compute in Hn|]); by apply not_elem_of_nil in H.
  - intros x. destruct (ex_attrs x) as [[->|[->|[->| ->]]]|Hn]; try (by vm_compute).
    unfold attr. rewrite Hn. split; [done|]. intros ->. by vm_compute in Hn.
  - intros q Hq. in_tasks Hq; vm_compute; repeat (constructor; [set_solver|]); constructor.
  - intros st Hst. destruct st; try discriminate; vm_compute;
      repeat first [constructor | intros [=]].
  - exists [200; 400], 100. split_and!; [done|done|]. intros x [a Ha] Hne.
    destruct (ex_attrs x) as [[->|[->|[->| ->]]]|Hn]; [done|vm_compute; intuition discriminate..|congruence].
  - intros x. destruct (ex_attrs x) as [[->|[->|[->| ->]]]|Hn]; try (vm_compute; intuition discriminate).
    unfold attr. rewrite Hn. vm_compute. intuition discriminate.
Qed.

Lemma ex_ok : sched_ok ex_sched ex_sst.
Proof.
  split; [|split; [exact ex_sinv|by intros []]]. split; [done|]. split.
  - intros q Hq. in_tasks Hq; cbn; concrete_rep.
  - intros q1 q2 x H1 H2 Hne. in_tasks H1; in_tasks H2; try done; cbn; set_solver.
Qed.

Lemma ret_env : env_ok (K := unit) (ret tt).
Proof. intros s σ Hok. exists σ. split; [done|by intros y]. Qed.

Lemma ex_waiting : user_task ex_sst 300 /\ is_blocked (state ex_sst 300) = true.
Proof. split; [split; [by eexists|done]|done]. Qed.
Lemma ex_running : user_task ex_sst 200 /\ is_ready (state ex_sst 200) = true.
Proof. split; [split; [by eexists|done]|done]. Qed.

(** The state after the waiting task was unblocked. *)
Definition ex_after : kernel unit :=
  match exec (ret tt) (OpUnblock 300) ex_sched with Some (_, s) => s | None => ex_sched end.

Lemma ex_reachable : reachable (ret tt) ex_sched ex_after.
Proof.
  apply (reach_step _ _ ex_sched (OpUnblock 300) ex_sst OK); [apply reach_init|exact ex_ok|exact ex_waiting|].
  by vm_compute.
Qed.

Lemma sched_invariant_witness :
  exists σ, sched_ok ex_after σ /\
    forall op, op_pre σ op -> exists v s', exec (ret tt) op ex_after = Some (v, s').
Proof. exact (sched_invariant (ret tt) ex_sched ex_sst ex_after ret_env ex_ok ex_reachable). Defined.

Lemma sched_highest_priority_witness :
  exists σ, srep tasklists (tmem ex_after) σ /\
    (lock σ (running σ) = 0 ->
     forall x, state σ x = TSTATE_TASK_PENDING -> prio σ x <= prio σ (running σ)).
Proof.
  destruct (sched_highest_priority (ret tt) ex_sched ex_sst ex_after ret_env ex_ok ex_reachable)
    as (σ & Hr & _ & Hp). exists σ. split; [exact Hr|]. intros Hl x Hx. apply Hp; auto.
Defined.

Lemma unblock_task_spec_witness :
  exists s1 σ', up_unblock_task (ret tt) 300 ex_sched = finish (ret tt) true tt s1 /\
    ready σ' = [300; 200; 400; 100] /\ context σ' (cpu_regs s1) 300 = 33.
Proof.
  destruct (unblock_task_spec (ret tt) ex_sched ex_sst 300 ret_env ex_ok (proj1 ex_waiting) (proj2 ex_waiting))
    as (s1 & σ' & b & Hc & _ & (_ & Hb & Hrd & _) & Hctx).
  exists s1, σ'. rewrite Hb in Hc. split; [exact Hc|]. split; [exact Hrd|]. rewrite Hctx. reflexivity.
Defined.

Lemma block_task_spec_witness :
  exists s1 σ' b, up_block_task (ret tt) 200 TSTATE_WAIT_SEM ex_sched = finish (ret tt) b tt s1 /\
    lists σ' g_waitingforsemaphore = [300; 200] /\ ready σ' = [400; 100].
Proof.
  destruct (block_task_spec (ret tt) ex_sched ex_sst 200 TSTATE_WAIT_SEM ret_env ex_ok
    (proj1 ex_running) (proj2 ex_running) eq_refl) as (s1 & σ' & b & Hc & _ & (Hw & Hrd & _) & _).
  exists s1, σ', b. split; [exact Hc|]. split; [exact Hw|exact Hrd].
Defined.

Lemma set_priority_spec_witness :
  nxsched_set_priority (ret tt) 200 256 ex_sched = Some (- EINVAL, ex_sched) /\
  exists s1 σ' b, nxsched_set_priority (ret tt) 200 10 ex_sched = finish (ret tt) b OK s1 /\
    prio σ' 200 = 10 /\ prio σ' 400 = 50.
Proof.
  split.
  - exact (set_priority_spec (ret tt) ex_sched ex_sst 200 256 ret_env ex_ok (proj1 ex_running)).
  - destruct (set_priority_spec (ret tt) ex_sched ex_sst 200 10 ret_env ex_ok (proj1 ex_running))
      as (s1 & σ' & b & Hc & _ & Hp & _).
    exists s1, σ', b. split; [exact Hc|]. split; [exact (Hp 200)|exact (Hp 400)].
Defined.

Lemma merge_pending_stable_witness :
  wp nxsched_merge_pending (fun b m' => exists σ', srep tasklists m' σ' /\ pending σ' = []) ex_tmem.
Proof.
  eapply wp_mono; [exact (merge_pending_stable ex_tmem ex_sst (proj1 ex_ok) ex_sinv)|].
  intros b m' (σ' & Hr & _ & Hp & _). exists σ'. split; [exact Hr|exact Hp].
Defined.

Lemma ex_thread_ok : sched_ok (mksched ex_tmem 7 (mkenv false tt)) ex_sst.
Proof. exact ex_ok. Qed.

Lemma sched_lock_nesting_witness :
  wp sched_lock (fun v s' => v = OK) (mksched ex_tmem 7 (mkenv false tt)) /\
  exists s1 σ' b, sched_unlock (ret tt) (mksched ex_tmem 7 (mkenv false tt)) =
    ((if b : bool then ret tt else ret tt) ;; when true (unlock_tail 200) ;; ret OK) s1 /\
    lock σ' 200 = 0.
Proof.
  destruct (sched_lock_nesting (ret tt) ex_tmem 7 tt ex_sst ret_env ex_thread_ok) as [Hlock (s1 & σ' & b & Hc & _ & Hl & _)].
  split.
  - eapply wp_mono; [apply Hlock; reflexivity|]. intros v s' [Hv _]. exact Hv.
  - exists s1, σ', b. split; [exact Hc|exact Hl].
Defined.

Lemma roundrobin_spec_witness :
  exists s1 σ' b, nxsched_cpu_scheduler (ret tt) ex_sched = finish (ret tt) b tt s1 /\
    ready σ' = [400; 200; 100].
Proof.
  destruct (roundrobin_spec (ret tt) ex_sched ex_sst ret_env ex_ok eq_refl ltac:(split; discriminate))
    as (s1 & σ' & b & Hc & _ & Hrd & _).
  exists s1, σ', b. split; [exact Hc|exact Hrd].
Defined.
