(* ===== verification/SchedMerge.v ===== *)
(** SchedMerge: [nxsched_merge_prioritized], which merges one prioritized
    task list into another, on the store. *)

From stdpp Require Import options.
From Stdlib Require Import Sorting.Sorted.
From S2P Require Import Prelude Queue Sched SchedInv SchedSys.

Section Merge.
Implicit Types (m : tmem_t) (x y q : ptr) (l P : list ptr).

Lemma pinsert_at pr x k1 b k2 :
  (forall y, y ∈ k1 -> pr x <= pr y) -> pr b < pr x ->
  pinsert pr x (k1 ++ b :: k2) = k1 ++ x :: b :: k2.
Proof.
  intros H1 Hb. induction k1 as [|y k1 IH]; simpl.
  - by destruct (Z.leb_spec (pr x) (pr b)); [lia|].
  - specialize (H1 y ltac:(left)) as Hy. destruct (Z.leb_spec (pr x) (pr y)); [|lia].
    rewrite IH; [done|]. intros z Hz. apply H1. by right.
Qed.

Lemma pinsert_end pr x k1 : (forall y, y ∈ k1 -> pr x <= pr y) -> pinsert pr x k1 = k1 ++ [x].
Proof.
  intros H1. induction k1 as [|y k1 IH]; simpl; [done|].
  specialize (H1 y ltac:(left)) as Hy. destruct (Z.leb_spec (pr x) (pr y)); [|lia].
  rewrite IH; [done|]. intros z Hz. apply H1. by right.
Qed.

(** A list whose tasks are no higher than those of another is appended to it. *)
Lemma pmerge_tail pr P : forall k1,
  sorted_desc pr P -> (forall x y, x ∈ P -> y ∈ k1 -> pr x <= pr y) -> pmerge pr P k1 = k1 ++ P.
Proof.
  induction P as [|x P IH]; intros k1 Hs H1; [by rewrite app_nil_r|].
  change (pmerge pr (x :: P) k1) with (pmerge pr P (pinsert pr x k1)).
  apply StronglySorted_inv in Hs as [Hs Hx]. rewrite Forall_forall in Hx.
  rewrite pinsert_end, IH; [by rewrite <- app_assoc|done| |].
  - intros y z Hy [Hz|Hz%list_elem_of_singleton]%elem_of_app; [apply H1; [by right|done]|].
    subst z. by apply Hx.
  - intros y Hy. apply H1; [left|done].
Qed.

Lemma mprio_frame Q T m m' x : frame dstrip Q T m m' -> mprio m' x = mprio m x.
Proof.
  intros (_ & _ & Hf). specialize (Hf x). unfold mprio.
  destruct (nodes m' !! x) as [n'|], (nodes m !! x) as [n|]; try done. simpl in *.
  apply (inj Some) in Hf. by apply (f_equal sched_priority) in Hf.
Qed.

Lemma merge_nodup (k1 : list ptr) x b k2 P :
  NoDup (k1 ++ b :: k2) -> (forall y, y ∈ k1 ++ b :: k2 -> y ∉ x :: P) -> x ∉ P -> NoDup P ->
  x ∉ k1 ++ b :: k2 -> NoDup (((k1 ++ [x]) ++ b :: k2) ++ P).
Proof.
  intros HL Hdis HxP HP HxL. apply NoDup_app. rewrite <- app_assoc. split_and!; [|set_solver|done].
  by apply NoDup_mid, conj; [set_solver|split; [set_solver|]].
Qed.

Definition merge_step (list2 : ptr) : ptr * ptr -> M tmem_t ((ptr * ptr) + unit) :=
  fun '(tcb1, tcb2) =>
    if is_null tcb2 then DQ.dq_cat clone list2 ;; ret (inr tt)
    else
      t1 <- node tcb1 ;;
      t2 <- node tcb2 ;;
      tt' <- (if sched_priority t2 <? sched_priority t1 then
        tmp <- DQ.dq_remfirst clone ;;
        assert_ (tmp =? tcb1) ;;
        DQ.dq_addbefore tcb2 tmp list2 ;;
        tcb1 <- q_peek clone ;; ret (tcb1, tcb2)
      else
        tcb2 <- get_flink tcb2 ;; ret (tcb1, tcb2)) ;;
      if is_null (fst tt') then ret (inr tt) else ret (inl tt').

Lemma wp_merge_steps q n : forall m P k1 k2 fuel,
  (length P + length k2 < n)%nat -> (n <= fuel)%nat -> q <> clone ->
  dq_rep m clone P -> dq_rep m q (k1 ++ k2) -> NoDup ((k1 ++ k2) ++ P) -> P <> [] ->
  sorted_desc (mprio m) P -> (forall x y, x ∈ P -> y ∈ k1 -> mprio m x <= mprio m y) ->
  wp (loop fuel (merge_step q) (hd_or NULL P, hd_or NULL k2))
     (fun _ m' => dq_rep m' q (pmerge (mprio m) P (k1 ++ k2)) /\ dq_rep m' clone [] /\
                  frame dstrip [clone; q] ((k1 ++ k2) ++ P) m m') m.
Proof.
  induction n as [|n IH]; intros m P k1 k2 fuel Hn Hfuel Hq HP HL Hnd Hne Hs H1; [lia|].
  destruct fuel as [|fuel]; [lia|]. apply wp_loop_step. unfold merge_step.
  destruct k2 as [|b k2]; cbn [hd_or].
  { null_simpl. apply wp_bind. rewrite app_nil_r in *. eapply wp_mono; [by eapply wp_dq_cat|].
    intros [] m' (? & ? & ?). apply wp_ret. rewrite pmerge_tail by done. done. }
  destruct P as [|x P]; [done|]. cbn [hd_or].
  pose proof (dq_rep_ne _ _ _ b HL ltac:(set_solver)) as Hb. rewrite is_null_ne by done.
  destruct (dq_rep_elem _ _ _ b HL ltac:(set_solver)) as [nb Hnb].
  destruct (dq_rep_elem _ _ _ x HP ltac:(left)) as [nx Hnx].
  apply wp_bind. eapply wp_node; [done|]. apply wp_bind. eapply wp_node; [done|].
  rewrite <- (mprio_lookup _ _ _ Hnb), <- (mprio_lookup _ _ _ Hnx).
  pose proof (StronglySorted_inv Hs) as [Hs' Hx]. rewrite Forall_forall in Hx.
  assert (forall y, y ∈ k1 -> mprio m x <= mprio m y) as Hk1 by (intros; apply H1; [left|done]).
  apply wp_bind. destruct (Z.ltb_spec (mprio m b) (mprio m x)) as [Hlt|Hge].
  - apply NoDup_app in Hnd as (HndL & Hdis & HndP). apply NoDup_cons in HndP as [HxP HndP].
    assert (x ∉ k1 ++ b :: k2) as HxL by (intros Hin; apply (Hdis x Hin); left).
    apply wp_bind. eapply wp_mono; [by apply wp_dq_remfirst|]. intros r m1 (-> & HP1 & Hf1). cbn [hd_or List.tl] in *.
    apply wp_bind, wp_assert; [by apply Z.eqb_refl|].
    assert (dq_rep m1 q (k1 ++ b :: k2)) as HL1.
    { eapply dq_rep_frame; [exact Hf1|set_solver| |done]. intros y Hy. by apply Hdis. }
    destruct (proj2 (frame_dom _ _ _ _ _ x Hf1) (ex_intro _ _ Hnx)) as [nx1 Hnx1].
    apply wp_bind. eapply wp_mono; [by eapply wp_dq_addbefore|]. intros [] m2 [HL2 Hf2].
    assert (dq_rep m2 clone P) as HP2.
    { eapply dq_rep_frame; [exact Hf2|set_solver| |done]. intros y Hy. rewrite not_elem_of_cons.
      split; [congruence|]. intros Hin. apply (Hdis y Hin). by right. }
    assert (frame dstrip [clone; q] ((k1 ++ b :: k2) ++ x :: P) m m2) as Hf
      by (eapply frame_trans; [exact Hf1|exact Hf2|set_solver..]).
    pose proof (proj1 (proj2 (proj2 HP2))) as Hqc. apply wp_bind. unfold q_peek. eapply wp_head; [done|].
    cbn [qhead]. apply wp_ret. cbn [fst]. change (pmerge ?f (x :: P) ?R) with (pmerge f P (pinsert f x R)).
    rewrite pinsert_at by done. destruct P as [|y P]; cbn [hd_or].
    { null_simpl. apply wp_ret. done. }
    rewrite is_null_ne by (eapply (dq_rep_ne _ _ _ y HP2); left). apply wp_ret.
    eapply wp_mono; [apply (IH m2 (y :: P) (k1 ++ [x]) (b :: k2)); try done|].
    + simpl in *. lia.
    + lia.
    + by rewrite <- app_assoc.
    + apply (merge_nodup _ _ _ _ (y :: P)); done.
    + eapply sorted_desc_ext; [|exact Hs']. intros. symmetry. by eapply mprio_frame.
    + intros z w Hz Hw. rewrite !(mprio_frame _ _ _ _ _ Hf).
      apply elem_of_app in Hw as [Hw|Hw%list_elem_of_singleton]; [apply H1; [by right|done]|].
      subst w. by apply Hx.
    + intros [] m3 (HL3 & HP3 & Hf3). rewrite <- app_assoc in HL3, Hf3. split_and!; [|done|].
      * rewrite (pmerge_ext (mprio m) (mprio m2)); [done|]. intros. symmetry. by eapply mprio_frame.
      * eapply frame_trans; [exact Hf|exact Hf3|done..|]. set_solver.
  - apply wp_bind. pose proof HL as (_ & _ & _ & Hseg). dseg_simpl.
    match goal with H : nodes m !! b = Some ?n |- _ => rename n into nb'; rename H into Hnb' end.
    unfold get_flink. apply wp_bind. eapply wp_node; [exact Hnb'|]. apply wp_ret, wp_ret. cbn [fst].
    rewrite is_null_ne by (eapply (dq_rep_ne _ _ _ x HP); left). apply wp_ret.
    match goal with H : flink nb' = _ |- _ => rewrite H end.
    replace (k1 ++ b :: k2) with ((k1 ++ [b]) ++ k2) in * by by rewrite <- app_assoc.
    apply (IH m (x :: P)); try done; [simpl in *; lia|lia|].
    intros y z Hy [Hz|Hz%list_elem_of_singleton]%elem_of_app; [by apply H1|]. subst z.
    apply elem_of_cons in Hy as [->|Hy]; [done|]. specialize (Hx y Hy). simpl in Hx. lia.
Qed.

(** Changing the states of tasks leaves the lists alone. *)
Definition put_states (st : tstate_e) l m : tmem_t := foldl (fun m x => put_state x st m) m l.

Lemma put_state_lookup x st m y :
  nodes (put_state x st m) !! y = (fun n => if decide (y = x) then set_state st n else n) <$> nodes m !! y.
Proof.
  simpl. destruct (decide (x = y)) as [->|].
  - rewrite lookup_alter_eq. destruct (nodes m !! y); simpl; [by rewrite decide_True|done].
  - rewrite lookup_alter_ne by done. destruct (nodes m !! y); simpl; [by rewrite decide_False by done|done].
Qed.

Lemma put_states_lookup st l m y :
  NoDup l ->
  nodes (put_states st l m) !! y = (fun n => if decide (y ∈ l) then set_state st n else n) <$> nodes m !! y.
Proof.
  intros Hnd. revert m. induction Hnd as [|x l Hx Hnd IH]; intros m.
  { simpl. destruct (nodes m !! y); simpl; [|done]. first [done | by rewrite decide_False by set_solver]. }
  change (put_states st (x :: l) m) with (put_states st l (put_state x st m)). rewrite IH, put_state_lookup.
  destruct (nodes m !! y) as [n|]; simpl; [|done]. f_equal.
  destruct (decide (y = x)) as [->|]; [by rewrite decide_False, decide_True by set_solver|].
  destruct (decide (y ∈ l)); [by rewrite decide_True by set_solver|by rewrite decide_False by set_solver].
Qed.

Lemma put_states_queues st l m q : queues (put_states st l m) !! q = queues m !! q.
Proof. revert m. induction l as [|x l IH]; intros m; [done|]. apply (IH (put_state x st m)). Qed.

Lemma dq_rep_put_states st l m q k : NoDup l -> dq_rep m q k -> dq_rep (put_states st l m) q k.
Proof.
  intros Hnd (HN & Hk & Hq & Hs). split; [by rewrite put_states_lookup, HN|]. split; [done|].
  split; [by rewrite put_states_queues|]. revert Hs. generalize NULL at 1 3 as p. clear Hk Hq.
  induction k as [|a k IH]; intros p; simpl; [done|]. intros (n & Hn & Hb & Hf & Hs).
  eexists. rewrite put_states_lookup, Hn by done. split; [done|].
  destruct (decide (a ∈ l)); (split; [exact Hb|]; split; [exact Hf|]; by apply IH).
Qed.

Lemma mprio_put_states st l m x : NoDup l -> mprio (put_states st l m) x = mprio m x.
Proof.
  intros Hnd. unfold mprio. rewrite put_states_lookup by done. destruct (nodes m !! x); simpl; [|done].
  by case_decide.
Qed.

Lemma wp_set_states st l : forall m fuel,
  nodes m !! NULL = None -> NoDup l -> lseg (nodes m) l NULL -> (length l < fuel)%nat ->
  wp (loop fuel (fun tmp => if is_null tmp then ret (inr tt)
        else upd_node tmp (set_state st) ;; next <- get_flink tmp ;; ret (inl next)) (hd_or NULL l))
     (fun _ m' => m' = put_states st l m) m.
Proof.
  induction l as [|x l IH]; intros m fuel HN Hnd Hl Hfuel; (destruct fuel as [|fuel]; [simpl in *; lia|]);
    apply wp_loop_step.
  { cbn [hd_or]. null_simpl. by apply wp_ret. }
  destruct Hl as (n & Hn & Hf & Hl). apply NoDup_cons in Hnd as [Hx Hnd]. cbn [hd_or].
  rewrite is_null_ne by congruence. apply wp_bind. eapply wp_put_state; [done|].
  unfold get_flink. apply wp_bind, wp_bind. eapply wp_node; [by rewrite put_state_lookup, Hn|].
  apply wp_ret, wp_ret. rewrite decide_True by done. change (flink (set_state st n)) with (flink n). rewrite Hf.
  apply IH; [by rewrite put_state_lookup, HN|done| |simpl in *; lia].
  eapply lseg_ext; [|exact Hl]. intros y Hy. apply put_state_ne. congruence.
Qed.

Lemma dq_rep_set_queues m q l Q' : (forall q', q' = q -> queues m !! q = Q' !! q') ->
  dq_rep m q l -> dq_rep (mkqmem (nodes m) Q') q l.
Proof. intros HQ (HN & ? & Hq & ?). split_and!; try done. simpl. by rewrite <- HQ. Qed.

(** Merging one prioritized list into another: the first list ends up
    empty, its tasks have the new state and stand in the second list in
    priority order, each behind the tasks of its priority that were there;
    nothing else about any task changes. *)
Theorem merge_prioritized_spec m q1 q2 l1 l2 st old :
  q1 <> NULL -> q2 <> NULL -> q1 <> q2 -> q1 <> clone -> q2 <> clone ->
  queues m !! clone = Some old -> dq_rep m q1 l1 -> dq_rep m q2 l2 -> NoDup (l2 ++ l1) ->
  sorted_desc (mprio m) l1 ->
  wp (nxsched_merge_prioritized q1 q2 st)
     (fun _ m' => dq_rep m' q1 [] /\ dq_rep m' q2 (pmerge (mprio m) l1 l2) /\
        (forall x, dstrip <$> nodes m' !! x =
           (fun n => dstrip (if decide (x ∈ l1) then set_state st n else n)) <$> nodes m !! x)) m.
Proof.
  intros Hn1 Hn2 H12 Hc1 Hc2 Hc HL1 HL2 Hnd Hs. unfold nxsched_merge_prioritized.
  apply wp_bind, wp_assert; [by rewrite !is_null_ne|].
  apply wp_bind. eapply wp_mono; [by eapply wp_dq_move|]. intros [] m1 (HC & HE & Hf1).
  assert (dq_rep m1 q2 l2) as HL2' by (eapply dq_rep_frame; [exact Hf1|set_solver|set_solver|done]).
  pose proof HC as (HN1 & Hnd1 & Hqc & Hseg1%dseg_lseg).
  assert (forall x, nodes m1 !! x = nodes m !! x) as Hnodes by (intros x; apply Hf1; set_solver).
  apply wp_bind. unfold q_peek. eapply wp_head; [done|]. cbn [qhead].
  destruct l1 as [|x l1]; cbn [hd_or].
  { null_simpl. apply wp_ret. split_and!; [done|done|]. intros y. rewrite Hnodes.
    destruct (nodes m !! y); simpl; [|done]. first [done | by rewrite decide_False by set_solver]. }
  rewrite is_null_ne by (eapply (dq_rep_ne _ _ _ x HC); left).
  set (L := x :: l1) in *. apply wp_bind, wp_with_fuel.
  eapply wp_mono; [apply (wp_set_states st L); try done; by eapply lseg_length|].
  intros [] m2 ->. set (m2 := put_states st L m1).
  pose proof (dq_rep_put_states st L _ _ _ Hnd1 HC) as HC2. pose proof (dq_rep_put_states st L _ _ _ Hnd1 HL2') as HL2''.
  pose proof (dq_rep_put_states st L _ _ _ Hnd1 HE) as HE2. fold m2 in HC2, HL2'', HE2.
  assert (forall y, dstrip <$> nodes m2 !! y =
    (fun n => dstrip (if decide (y ∈ L) then set_state st n else n)) <$> nodes m !! y) as Hst.
  { intros y. unfold m2. rewrite put_states_lookup, Hnodes by done. by destruct (nodes m !! y). }
  assert (forall y, mprio m2 y = mprio m y) as Hpr.
  { intros y. unfold m2. rewrite mprio_put_states by done. unfold mprio. by rewrite Hnodes. }
  pose proof (proj1 (proj2 (proj2 HL2''))) as Hq2. apply wp_bind. eapply wp_head; [done|]. cbn [qhead].
  assert (sorted_desc (mprio m2) L) as Hs2 by (eapply sorted_desc_ext; [|exact Hs]; intros; by rewrite Hpr).
  destruct l2 as [|y l2]; cbn [hd_or].
  - null_simpl. eapply wp_mono; [by eapply wp_dq_move|]. intros [] m3 (HL3 & _ & Hf3).
    split; [eapply dq_rep_frame; [exact Hf3|set_solver|by intros p ?%not_elem_of_nil|done]|].
    split; [by rewrite pmerge_tail by (done || set_solver)|]. intros z. rewrite (proj2 (proj2 Hf3)). apply Hst.
  - rewrite is_null_ne by (eapply (dq_rep_ne _ _ _ y HL2''); left). apply wp_with_fuel.
    eapply wp_mono; [apply (wp_merge_steps q2 (S (length L + length (y :: l2))) m2 L [] (y :: l2)); try done|].
    + lia.
    + pose proof (lseg_length m2 _ _ Hnd1 (dseg_lseg _ _ _ _ (proj2 (proj2 (proj2 HC2))))).
      pose proof (lseg_length m2 _ _ (proj1 (proj2 HL2'')) (dseg_lseg _ _ _ _ (proj2 (proj2 (proj2 HL2''))))). lia.
    + intros z w _ Hw. by apply not_elem_of_nil in Hw.
    + intros [] m3 (HL3 & _ & Hf3). split; [eapply dq_rep_frame; [exact Hf3|set_solver|by intros p ?%not_elem_of_nil|done]|].
      split; [by rewrite (pmerge_ext (mprio m) (mprio m2))|]. intros z. rewrite (proj2 (proj2 Hf3)). apply Hst.
Qed.
End Merge.

(** * A concrete instance *)

Definition ex_merge : tmem_t := mkqmem
  {[ 100 := ex_tcb 0 200 0 TSTATE_TASK_READYTORUN 20 11;
     200 := ex_tcb 100 0 50 TSTATE_TASK_RUNNING 1 22;
     300 := ex_tcb 400 0 80 TSTATE_TASK_PENDING 20 33;
     400 := ex_tcb 0 300 50 TSTATE_TASK_PENDING 20 44 ]}
  {[ g_readytorun := mkqueue 200 100; g_pendingtasks := mkqueue 300 400; clone := mkqueue 0 0 ]}.

Lemma merge_prioritized_spec_witness :
  wp (nxsched_merge_prioritized g_pendingtasks g_readytorun TSTATE_TASK_READYTORUN)
     (fun _ m' => dq_rep m' g_readytorun [300; 200; 400; 100]) ex_merge.
Proof.
  eapply wp_mono.
  - apply (merge_prioritized_spec ex_merge g_pendingtasks g_readytorun [300; 400] [200; 100]
             TSTATE_TASK_READYTORUN (mkqueue 0 0)); try discriminate; try reflexivity.
    + concrete_rep.
    + concrete_rep.
    + nodup_concrete.
    + repeat first [constructor | vm_compute; intros [=]].
  - intros [] m' (_ & H & _). exact H.
Defined.
