(* ===== verification/Semaphore.v ===== *)
(** Semaphore: counting semaphores (sched/semaphore, libs/libc/semaphore) on
    top of the scheduler.  The counts of all semaphores are kept beside the
    task lists; the tasks that wait for one are those of the list
    [g_waitingforsemaphore] whose [waitsem] names it. *)

From stdpp Require Import options.
From Stdlib Require Import Sorting.Sorted.
From S2P Require Import Prelude Queue Sched SchedInv SchedSys.

Definition SEM_VALUE_MAX : Z := 32767.
Definition CONFIG_MAX_TASKS : Z := 16.
Definition ERROR : Z := -1.
Definition EAGAIN : Z := 11.
Definition ETIMEDOUT : Z := 116.
Definition EOVERFLOW : Z := 139.

(** An entry of [g_pidhash]. *)
Record pidhash_s := mkpidhash { ph_tcb : ptr; ph_pid : Z }.

(** The kernel's data for semaphores: [semcount] of every semaphore, the
    [errno] of every thread, and the table of process identifiers. *)
Record semk := mksemk {
  semcount : gmap ptr Z;
  errnos : gmap ptr Z;
  g_pidhash : gmap Z pidhash_s
}.
Abbreviation semst := (kernel semk).

Definition sems (s : semst) : gmap ptr Z := semcount (kdata (env s)).
Definition set_sems (c : gmap ptr Z) (e : kenv semk) : kenv semk :=
  mkenv (in_irq e) (mksemk c (errnos (kdata e)) (g_pidhash (kdata e))).
Definition get_semcount (sem : ptr) : M semst Z := getso (fun s => sems s !! sem).
(** Stores in an [int16_t]. *)
Definition put_semcount (sem : ptr) (v : Z) : M semst unit :=
  get_semcount sem ;;
  modify (fun s => mksched (tmem s) (cpu_regs s) (set_sems (<[sem := s16 v]> (sems s)) (env s))).

Definition set_errno (e : Z) : M semst unit :=
  rtcb <- onm this_task ;;
  modify (fun s => let k := kdata (env s) in
    mksched (tmem s) (cpu_regs s)
      (mkenv (in_irq (env s)) (mksemk (semcount k) (<[rtcb := e]> (errnos k)) (g_pidhash k)))).

(** [pid & (CONFIG_MAX_TASKS - 1)] *)
Definition PIDHASH (pid : Z) : Z := Z.land pid (CONFIG_MAX_TASKS - 1).

Definition nxsched_get_tcb (pid : Z) : M semst ptr :=
  if 0 <=? pid then
    e <- getso (fun s => g_pidhash (kdata (env s)) !! PIDHASH pid) ;;
    ret (if pid =? ph_pid e then ph_tcb e else NULL)
  else ret NULL.

(** The loop of [nxsem_post] that looks for a task waiting for [sem]. *)
Definition find_waiter (sem : ptr) : M tmem_t ptr :=
  h <- head g_waitingforsemaphore ;;
  with_fuel (fun fuel => loop fuel (fun stcb =>
    if is_null stcb then ret (inr stcb)
    else t <- node stcb ;;
         if waitsem t =? sem then ret (inr stcb) else ret (inl (flink t))) h).

Section Code.
Variable others : M semst unit.

Definition nxsem_wait (sem : ptr) : M semst Z :=
  rtcb <- onm this_task ;;
  i <- gets intr ;;
  assert_ (negb (is_null sem) && negb i) ;;
  if is_null sem then ret (- EINVAL)
  else
    c <- get_semcount sem ;;
    if 0 <? c then
      put_semcount sem (c - 1) ;;
      onm (upd_node rtcb (set_waitsem NULL)) ;;
      ret OK
    else
      t <- onm (node rtcb) ;;
      assert_ (is_null (waitsem t)) ;;
      put_semcount sem (c - 1) ;;
      onm (upd_node rtcb (set_waitsem sem)) ;;
      onm (upd_node rtcb (set_errcode OK)) ;;
      f <- onm (get_flink rtcb) ;;
      assert_ (negb (is_null f)) ;;
      up_block_task others rtcb TSTATE_WAIT_SEM ;;
      t <- onm (node rtcb) ;;
      ret (if errcode t =? OK then OK else - errcode t).

Definition nxsem_trywait (sem : ptr) : M semst Z :=
  rtcb <- onm this_task ;;
  i <- gets intr ;;
  assert_ (negb (is_null sem) && negb i) ;;
  if is_null sem then ret (- EINVAL)
  else
    c <- get_semcount sem ;;
    if 0 <? c then
      put_semcount sem (c - 1) ;;
      onm (upd_node rtcb (set_waitsem NULL)) ;;
      ret OK
    else ret (- EAGAIN).

Definition nxsem_post (sem : ptr) : M semst Z :=
  if is_null sem then ret (- EINVAL)
  else
    c <- get_semcount sem ;;
    if SEM_VALUE_MAX <=? c then ret (- EOVERFLOW)
    else
      put_semcount sem (c + 1) ;;
      c <- get_semcount sem ;;
      (if c <=? 0 then
         stcb <- onm (find_waiter sem) ;;
         if is_null stcb then ret tt
         else
           onm (upd_node stcb (set_waitsem NULL)) ;;
           up_unblock_task others stcb
       else ret tt) ;;
      ret OK.

(** [errcode] is stored in an [int16_t]. *)
Definition nxsem_wait_irq (wtcb : ptr) (errcode : Z) : M semst unit :=
  t <- onm (node wtcb) ;;
  if decide (task_state t = TSTATE_WAIT_SEM) then
    let sem := waitsem t in
    c <- get_semcount sem ;;
    assert_ (negb (is_null sem) && (c <? 0)) ;;
    put_semcount sem (c + 1) ;;
    onm (upd_node wtcb (set_waitsem NULL)) ;;
    onm (upd_node wtcb (set_errcode (s16 errcode))) ;;
    up_unblock_task others wtcb
  else ret tt.

Definition nxsem_timeout (pid : Z) : M semst unit :=
  wtcb <- nxsched_get_tcb pid ;;
  if is_null wtcb then ret tt
  else
    t <- onm (node wtcb) ;;
    if decide (task_state t = TSTATE_WAIT_SEM) then nxsem_wait_irq wtcb ETIMEDOUT
    else ret tt.

Definition nxsem_recover (tcb : ptr) : M semst unit :=
  t <- onm (node tcb) ;;
  if decide (task_state t = TSTATE_WAIT_SEM) then
    let sem := waitsem t in
    c <- get_semcount sem ;;
    assert_ (negb (is_null sem) && (c <? 0)) ;;
    put_semcount sem (c + 1) ;;
    onm (upd_node tcb (set_waitsem NULL))
  else ret tt.

(** The loop posts at most [count] times. *)
Definition reset_loop (sem : ptr) (count : Z) : M semst Z :=
  loop (S (Z.to_nat count)) (fun count =>
    c <- get_semcount sem ;;
    if (c <? 0) && (0 <? count) then
      r <- nxsem_post sem ;;
      assert_ (0 <=? r) ;;
      ret (inl (s16 (count - 1)))
    else ret (inr count)) count.

Definition nxsem_reset (sem : ptr) (count : Z) : M semst Z :=
  assert_ (negb (is_null sem) && (0 <=? count)) ;;
  sched_lock ;;
  count <- reset_loop sem count ;;
  c <- get_semcount sem ;;
  when (0 <=? c) (put_semcount sem count) ;;
  sched_unlock others ;;
  ret OK.

Definition nxsem_destroy (sem : ptr) : M semst Z :=
  if is_null sem then ret (- EINVAL)
  else
    c <- get_semcount sem ;;
    when (0 <=? c) (put_semcount sem 1) ;;
    ret OK.

Definition nxsem_init (sem : ptr) (pshared value : Z) : M semst Z :=
  if negb (is_null sem) && (value <=? SEM_VALUE_MAX) then
    put_semcount sem value ;;
    ret OK
  else ret (- EINVAL).

(** The value that is stored through the pointer [sval] is returned beside
    the return code. *)
Definition nxsem_get_value (sem sval : ptr) : M semst (Z * option Z) :=
  if negb (is_null sem) && negb (is_null sval) then
    c <- get_semcount sem ;;
    ret (OK, Some c)
  else ret (- EINVAL, None).

Definition sem_wait (sem : ptr) : M semst Z :=
  r <- nxsem_wait sem ;;
  if r <? 0 then set_errno (- r) ;; ret ERROR else ret OK.

Definition sem_trywait (sem : ptr) : M semst Z :=
  r <- nxsem_trywait sem ;;
  if r <? 0 then set_errno (- r) ;; ret ERROR else ret r.

Definition sem_post (sem : ptr) : M semst Z :=
  r <- nxsem_post sem ;;
  if r <? 0 then set_errno (- r) ;; ret ERROR else ret r.

Definition sem_destroy (sem : ptr) : M semst Z :=
  r <- nxsem_destroy sem ;;
  if r <? 0 then set_errno (- r) ;; ret ERROR else ret r.

Definition sem_init (sem : ptr) (pshared value : Z) : M semst Z :=
  r <- nxsem_init sem pshared value ;;
  if r <? 0 then set_errno (- r) ;; ret ERROR else ret r.

Definition sem_getvalue (sem sval : ptr) : M semst (Z * option Z) :=
  r <- nxsem_get_value sem sval ;;
  if r.1 <? 0 then set_errno (- r.1) ;; ret (ERROR, r.2) else ret r.
End Code.

(** * The invariant *)

Definition waitlist (σ : sst) : list ptr := lists σ g_waitingforsemaphore.
#[local] Abbreviation wsem := (attr waitsem NULL).

(** The tasks of [W] that wait for [sem], in the order of the list. *)
Definition on_sem (ws : ptr -> ptr) (sem : ptr) (W : list ptr) : list ptr :=
  filter (fun x => ws x = sem) W.
Definition waiters (sem : ptr) (σ : sst) : list ptr := on_sem (wsem σ) sem (waitlist σ).

(** A negative count tells how many tasks wait; exactly the tasks in the
    waiting list name a semaphore. *)
Record sem_inv (W : list ptr) (ws : ptr -> ptr) (c : gmap ptr Z) : Prop := {
  sem_null : c !! NULL = None;
  sem_count : forall sem v, c !! sem = Some v ->
    v <= SEM_VALUE_MAX /\ Z.of_nat (length (on_sem ws sem W)) = Z.max 0 (- v);
  sem_waits : forall x, x ∈ W -> is_Some (c !! ws x);
  sem_free : forall x, x ∉ W -> ws x = NULL;
}.

(** Every entry of the table of process identifiers is free or names a task,
    and there are no more tasks than entries. *)
Definition pid_inv (σ : sst) (h : gmap Z pidhash_s) : Prop :=
  Z.of_nat (size (attrs σ)) <= CONFIG_MAX_TASKS /\
  forall n, 0 <= n < CONFIG_MAX_TASKS ->
    exists e, h !! n = Some e /\ (ph_tcb e = NULL \/ is_Some (attrs σ !! ph_tcb e)).

Definition sem_ok (s : semst) (σ : sst) : Prop :=
  sched_ok s σ /\ sem_inv (waitlist σ) (wsem σ) (sems s) /\ pid_inv σ (g_pidhash (kdata (env s))).

(** What a suspended thread relies on: the rest of the system keeps the
    semaphores in order, and deletes neither tasks nor semaphores. *)
Definition sem_kept (σ : sst) (c : gmap ptr Z) (s' : semst) : Prop :=
  exists σ', sem_ok s' σ' /\ same_tasks σ σ' /\ (forall sem, is_Some (c !! sem) -> is_Some (sems s' !! sem)).
Definition sem_env (others : M semst unit) : Prop :=
  forall s σ, sem_ok s σ -> wp others (fun _ s' => sem_kept σ (sems s) s') s.

Section Inv.
Implicit Types (W : list ptr) (ws : ptr -> ptr) (c : gmap ptr Z) (σ : sst) (sem x y : ptr).

Lemma on_sem_elem ws sem W x : x ∈ on_sem ws sem W <-> ws x = sem /\ x ∈ W.
Proof. unfold on_sem. by rewrite list_elem_of_filter. Qed.

Lemma on_sem_ext ws ws' sem W :
  (forall x, x ∈ W -> ws' x = ws x) -> on_sem ws' sem W = on_sem ws sem W.
Proof.
  unfold on_sem. induction W as [|y W IH]; intros He; [done|]. rewrite !filter_cons, He by left.
  rewrite IH; [done|]. intros x Hx. apply He. by right.
Qed.

Lemma on_sem_lremove ws sem W x : on_sem ws sem (lremove x W) = lremove x (on_sem ws sem W).
Proof.
  unfold on_sem, lremove. induction W as [|y W IH]; [done|]. rewrite !filter_cons.
  repeat (case_decide || rewrite filter_cons || rewrite IH); done || congruence.
Qed.

Lemma lremove_length x l : NoDup l -> x ∈ l -> length l = S (length (lremove x l)).
Proof.
  intros Hnd (l1 & l2 & ->)%list_elem_of_split. rewrite lremove_mid by done.
  rewrite !length_app. simpl. lia.
Qed.

Lemma sem_inv_ext W ws ws' c : (forall x, ws' x = ws x) -> sem_inv W ws c -> sem_inv W ws' c.
Proof.
  intros He [H1 H2 H3 H4]. split; [done| | |].
  - intros sem v Hv. rewrite (on_sem_ext ws) by auto. by apply H2.
  - intros x. rewrite He. apply H3.
  - intros x. rewrite He. apply H4.
Qed.

Lemma sem_inv_perm W W' ws c : W ≡ₚ W' -> sem_inv W ws c -> sem_inv W' ws c.
Proof.
  intros Hp [H1 H2 H3 H4]. split; [done| | |].
  - intros sem v Hv. unfold on_sem. rewrite <- Hp. by apply H2.
  - intros x. rewrite <- Hp. apply H3.
  - intros x. rewrite <- Hp. apply H4.
Qed.

(** A task that waits is taken off its semaphore. *)
Lemma sem_inv_wake W ws ws' c x sem v :
  NoDup W -> x ∈ W -> ws x = sem -> c !! sem = Some v ->
  (forall y, ws' y = if decide (y = x) then NULL else ws y) ->
  sem_inv W ws c -> v < 0 /\ sem_inv (lremove x W) ws' (<[sem := v + 1]> c).
Proof.
  intros Hnd Hx Hws Hv Hws' [H1 H2 H3 H4].
  assert (x ∈ on_sem ws sem W) as Hon by by apply on_sem_elem.
  assert (NoDup (on_sem ws sem W)) as Hnd' by by apply NoDup_filter.
  destruct (H2 sem v Hv) as [Hmax Hlen]. pose proof (lremove_length _ _ Hnd' Hon) as Hl.
  split; [lia|].
  assert (forall s', on_sem ws' s' (lremove x W) = lremove x (on_sem ws s' W)) as Hrem.
  { intros s'. rewrite <- on_sem_lremove. apply on_sem_ext. intros y Hy%lremove_elem. rewrite Hws'.
    by rewrite decide_False by apply Hy. }
  split.
  - rewrite lookup_insert_ne; [done|]. intros ->. congruence.
  - intros s' v' Hs. rewrite Hrem. destruct (decide (s' = sem)) as [->|Hne].
    + rewrite lookup_insert_eq in Hs. simplify_eq. unfold SEM_VALUE_MAX. lia.
    + rewrite lookup_insert_ne in Hs by done. destruct (H2 _ _ Hs) as [? Hs'].
      rewrite lremove_notin; [done|]. by intros [? _]%on_sem_elem; subst.
  - intros y [Hyx Hy]%lremove_elem. rewrite Hws', decide_False by done.
    destruct (decide (ws y = sem)) as [->|]; [rewrite lookup_insert_eq; by eexists|].
    rewrite lookup_insert_ne by done. by apply H3.
  - intros y Hy. rewrite Hws'. case_decide; [done|]. apply H4. contradict Hy. by apply lremove_elem.
Qed.

(** A task starts to wait. *)
Lemma sem_inv_sleep W W' ws ws' c x sem v :
  x ∉ W -> W' ≡ₚ x :: W -> sem <> NULL -> c !! sem = Some v -> v <= 0 ->
  (forall y, ws' y = if decide (y = x) then sem else ws y) ->
  sem_inv W ws c -> sem_inv W' ws' (<[sem := v - 1]> c).
Proof.
  intros Hx HW Hn Hv Hle Hws' [H1 H2 H3 H4]. apply (sem_inv_perm (x :: W)); [by symmetry|].
  assert (forall s', on_sem ws' s' (x :: W) = (if decide (sem = s') then [x] else []) ++ on_sem ws s' W) as Hon.
  { intros s'. unfold on_sem at 1. rewrite filter_cons.
    assert (on_sem ws' s' W = on_sem ws s' W) as HW'.
    { apply on_sem_ext. intros y Hy. rewrite Hws', decide_False; [done|]. by intros ->. }
    unfold on_sem in HW'. rewrite HW', (Hws' x), (decide_True (P := x = x)) by done. by case_decide. }
  split.
  - by rewrite lookup_insert_ne.
  - intros s' v' Hs. rewrite Hon, length_app. destruct (decide (sem = s')) as [<-|Hne].
    + rewrite lookup_insert_eq in Hs. simplify_eq. destruct (H2 _ _ Hv). simpl. unfold SEM_VALUE_MAX in *. lia.
    + rewrite lookup_insert_ne in Hs by done. by apply H2.
  - intros y Hy. rewrite Hws'. case_decide as Ey; [rewrite lookup_insert_eq; by eexists|].
    destruct (decide (ws y = sem)) as [->|]; [rewrite lookup_insert_eq; by eexists|].
    rewrite lookup_insert_ne by done. apply H3. by apply elem_of_cons in Hy as [?|?].
  - intros y [Hyx Hy]%not_elem_of_cons. rewrite Hws', decide_False by done. by apply H4.
Qed.

(** The count of a semaphore without waiters changes. *)
Lemma sem_inv_count W ws c sem v v' :
  c !! sem = Some v -> 0 <= v -> 0 <= v' <= SEM_VALUE_MAX -> sem_inv W ws c ->
  sem_inv W ws (<[sem := v']> c).
Proof.
  intros Hv H0 Hv' [H1 H2 H3 H4]. split; [| | |done].
  - rewrite lookup_insert_ne; [done|]. intros ->. congruence.
  - intros s' w Hs. destruct (decide (sem = s')) as [<-|Hne].
    + rewrite lookup_insert_eq in Hs. simplify_eq. destruct (H2 _ _ Hv). split; [lia|]. lia.
    + rewrite lookup_insert_ne in Hs by done. by apply H2.
  - intros y Hy. destruct (decide (ws y = sem)) as [->|]; [rewrite lookup_insert_eq; by eexists|].
    rewrite lookup_insert_ne by done. by apply H3.
Qed.
End Inv.

(** * The operations on the abstract scheduler *)

(** The state from which [x] is woken, with [errcode] left for it if there is one. *)
Definition woken (x : ptr) (err : option Z) (σ : sst) : sst :=
  let σ1 := upd_attr x (set_waitsem NULL) σ in
  match err with Some e => upd_attr x (set_errcode e) σ1 | None => σ1 end.
Definition spec_wake (x : ptr) (err : option Z) (σ : sst) (ρ : Z) : bool * (sst * Z) :=
  spec_unblock x (woken x err σ) ρ.

Definition spec_post (sem : ptr) (v : Z) (σ : sst) (ρ : Z) : bool * (sst * Z) :=
  if v <? 0 then spec_wake (hd_or NULL (waiters sem σ)) None σ ρ else (false, (σ, ρ)).

(** The running task goes to sleep on [sem]. *)
Definition asleep (sem : ptr) (σ : sst) : sst :=
  upd_attr (running σ) (set_errcode OK) (upd_attr (running σ) (set_waitsem sem) σ).
Definition spec_sleep (sem : ptr) (σ : sst) (ρ : Z) : bool * (sst * Z) :=
  spec_block (running σ) TSTATE_WAIT_SEM (asleep sem σ) ρ.

(** Attributes that neither the lists nor the context switch touch. *)
Class SoftAttr {B} (p : tcb_s -> B) := {
  soft_state a st : p (set_state st a) = p a;
  soft_regs a z : p (set_regs z a) = p a;
  soft_slice a z : p (set_timeslice z a) = p a;
}.
#[export] Instance soft_waitsem : SoftAttr waitsem. Proof. by split. Qed.
#[export] Instance soft_errcode : SoftAttr errcode. Proof. by split. Qed.
#[export] Instance soft_lockcount : SoftAttr lockcount. Proof. by split. Qed.
#[export] Instance soft_priority : SoftAttr sched_priority. Proof. by split. Qed.

(** Updates of attributes that the scheduler does not look at. *)
Class SoftUpd (f : tcb_s -> tcb_s) := {
  upd_prio a : sched_priority (f a) = sched_priority a;
  upd_state a : task_state (f a) = task_state a;
  upd_lock a : lockcount (f a) = lockcount a;
  upd_regs a : xcp_regs (f a) = xcp_regs a;
}.
#[export] Instance upd_waitsem z : SoftUpd (set_waitsem z). Proof. by split. Qed.
#[export] Instance upd_errcode z : SoftUpd (set_errcode z). Proof. by split. Qed.

Section Abs.
Implicit Types (σ : sst) (x y sem : ptr).

Lemma resched_soft {B} (p : tcb_s -> B) `{!SoftAttr p} d b r σ ρ y :
  attr p d (resched b r σ ρ).1 y = attr p d σ y.
Proof.
  destruct b; [|done]. unfold resched, spec_switch. cbn [fst].
  rewrite !attr_upd_ne; auto using soft_regs, soft_slice.
Qed.

Lemma unblock_soft {B} (p : tcb_s -> B) `{!SoftAttr p} d x σ ρ y :
  attr p d (spec_unblock x σ ρ).2.1 y = attr p d σ y.
Proof.
  unfold spec_unblock. pose proof (keeps_add_readytorun (spec_remove_blocked x σ) x) as [_ Hk].
  destruct (spec_add_readytorun _ _) as [b σ']. cbn [fst snd] in *.
  rewrite resched_soft by done. rewrite Hk by (intros; apply soft_state).
  apply keeps_remove_blocked. intros. apply soft_state.
Qed.

Lemma block_soft {B} (p : tcb_s -> B) `{!SoftAttr p} d x st σ ρ y :
  attr p d (spec_block x st σ ρ).2.1 y = attr p d σ y.
Proof.
  unfold spec_block. pose proof (keeps_remove_readytorun σ x) as [_ Hk1].
  destruct (spec_remove_readytorun x σ) as [b1 σ1]. cbn [fst snd] in *.
  pose proof (keeps_add_blocked σ1 x st) as [_ Hk2].
  pose proof (keeps_merge_pending (spec_add_blocked x st σ1)) as [_ Hk3].
  destruct (spec_merge_pending _) as [b2 σ2]. cbn [fst snd] in *.
  assert (forall a st, p (set_state st a) = p a) as Hp by (intros; apply soft_state).
  rewrite resched_soft by done. by rewrite Hk3, Hk2, Hk1.
Qed.

Lemma sinv_soft x f `{!SoftUpd f} σ : sinv σ -> sinv (upd_attr x f σ).
Proof.
  intros Hi. apply sinv_upd_attr; auto using upd_prio, upd_state.
  intros y. rewrite attr_upd_ne by apply upd_lock. by apply inv_lock.
Qed.

Lemma soft_outcome x f `{!SoftUpd f} σ ρ : sinv σ -> pinv σ -> outcome_ok σ ρ (upd_attr x f σ, ρ).
Proof.
  intros Hi Hp. apply outcome_attr; auto using upd_prio, upd_state, upd_regs.
  - intros y. rewrite attr_upd_ne by apply upd_lock. by apply inv_lock.
  - intros Hn. rewrite attr_upd_ne by apply upd_lock. by apply Hp.
Qed.

(** Tasks outside the ready list are not the IDLE task. *)
Lemma blocked_user σ x : sinv σ -> is_blocked (state σ x) = true -> user_task σ x.
Proof.
  intros Hi Hb.
  assert (is_Some (attrs σ !! x)) as Hs
    by (apply (attr_some task_state TSTATE_TASK_INVALID); by intros E; rewrite E in Hb).
  split; [done|]. destruct (inv_idle _ Hi) as (R & i & Hr & Hp & Hall). intros Hpx.
  destruct (decide (x = i)) as [->|Hxi]; [|specialize (Hall x Hs Hxi); unfold SCHED_PRIORITY_MIN in *; lia].
  assert (i ∈ ready σ) as Hin by (rewrite Hr; set_solver).
  apply (ready_where _ _ Hi) in Hin. by destruct (tlist_blocked _ Hb) as [_ ?].
Qed.

Lemma waiting_state σ x : sinv σ -> x ∈ waitlist σ <-> state σ x = TSTATE_WAIT_SEM.
Proof.
  intros Hi. unfold waitlist. rewrite (inv_where _ Hi) by (unfold tasklists; set_solver).
  by destruct (state σ x).
Qed.

Lemma soft_user x f `{!SoftUpd f} σ y : user_task (upd_attr x f σ) y <-> user_task σ y.
Proof. unfold user_task. rewrite upd_attr_exists, attr_upd_ne by apply upd_prio. done. Qed.
Lemma soft_state_of x f `{!SoftUpd f} σ y : state (upd_attr x f σ) y = state σ y.
Proof. apply attr_upd_ne, upd_state. Qed.

Lemma wsem_set x sem σ y : is_Some (attrs σ !! x) ->
  wsem (upd_attr x (set_waitsem sem) σ) y = if decide (y = x) then sem else wsem σ y.
Proof.
  intros Hx. case_decide as E; [subst y|by apply attr_upd_other].
  rewrite attr_upd_eq by done. simpl. by apply attr_const.
Qed.

Lemma woken_ok x err σ ρ : sinv σ -> pinv σ -> outcome_ok σ ρ (woken x err σ, ρ).
Proof.
  intros Hi Hp. pose proof (soft_outcome x (set_waitsem NULL) σ ρ Hi Hp) as H1.
  destruct err as [e|]; [|exact H1]. eapply outcome_trans; [exact H1|].
  destruct H1 as (? & ? & _). by apply (soft_outcome x (set_errcode e)).
Qed.

Lemma woken_state x err σ y : state (woken x err σ) y = state σ y.
Proof. destruct err; unfold woken; by rewrite ?soft_state_of by apply _. Qed.

Lemma woken_wsem x err σ y : is_Some (attrs σ !! x) ->
  wsem (woken x err σ) y = if decide (y = x) then NULL else wsem σ y.
Proof.
  intros Hx. destruct err; unfold woken; [rewrite attr_upd_ne by done|]; by apply wsem_set.
Qed.

Lemma wake_ok x err σ ρ :
  sinv σ -> pinv σ -> x ∈ waitlist σ -> outcome_ok σ ρ (spec_wake x err σ ρ).2.
Proof.
  intros Hi Hp Hx%waiting_state; [|done]. pose proof (woken_ok x err σ ρ Hi Hp) as H1.
  eapply outcome_trans; [exact H1|]. destruct H1 as (Hi1 & Hp1 & _).
  assert (is_blocked (state (woken x err σ) x) = true) as Hb by by rewrite woken_state, Hx.
  apply unblock_ok; [done|done| |done]. by apply blocked_user.
Qed.

(** A task is taken off the waiting list and names no semaphore. *)
Lemma wake_lists x err σ ρ :
  sinv σ -> x ∈ waitlist σ ->
  let σ' := (spec_wake x err σ ρ).2.1 in
  waitlist σ' = lremove x (waitlist σ) /\
  (forall y, wsem σ' y = if decide (y = x) then NULL else wsem σ y).
Proof.
  intros Hi Hx. pose proof Hx as Hs%waiting_state; [|done].
  assert (is_Some (attrs σ !! x)) as He
    by (apply (attr_some task_state TSTATE_TASK_INVALID); by rewrite Hs).
  assert (state (woken x err σ) x = TSTATE_WAIT_SEM) as Hs1 by by rewrite woken_state.
  pose proof (unblock_lists x (woken x err σ) ρ) as Hl. rewrite Hs1 in Hl. destruct (Hl eq_refl) as [Hw _].
  cbv zeta. split.
  - change (lists (spec_wake x err σ ρ).2.1 g_waitingforsemaphore = lremove x (waitlist σ)).
    by destruct err.
  - intros y. unfold spec_wake. rewrite unblock_soft by apply _. by apply woken_wsem.
Qed.

Lemma asleep_ok sem σ ρ : sinv σ -> pinv σ -> outcome_ok σ ρ (asleep sem σ, ρ).
Proof.
  intros Hi Hp. pose proof (soft_outcome (running σ) (set_waitsem sem) σ ρ Hi Hp) as H1.
  eapply outcome_trans; [exact H1|]. destruct H1 as (? & ? & _).
  by apply (soft_outcome (running σ) (set_errcode OK)).
Qed.

Lemma asleep_state sem σ y : state (asleep sem σ) y = state σ y.
Proof. unfold asleep. by rewrite !soft_state_of by apply _. Qed.
Lemma asleep_user sem σ y : user_task (asleep sem σ) y <-> user_task σ y.
Proof. unfold asleep. by rewrite !soft_user by apply _. Qed.

Lemma running_ready σ : sinv σ -> is_ready (state σ (running σ)) = true.
Proof. intros Hi. by rewrite (proj2 (inv_run _ Hi _)). Qed.

Lemma sleep_ok sem σ ρ :
  sinv σ -> pinv σ -> user_task σ (running σ) -> outcome_ok σ ρ (spec_sleep sem σ ρ).2.
Proof.
  intros Hi Hp Hu. pose proof (asleep_ok sem σ ρ Hi Hp) as H1. eapply outcome_trans; [exact H1|].
  destruct H1 as (Hi1 & Hp1 & _). apply block_ok; [done|by apply asleep_user| |done].
  rewrite asleep_state. by apply running_ready.
Qed.

Lemma pinsert_perm pr x l : pinsert pr x l ≡ₚ x :: l.
Proof.
  destruct (pinsert_split pr x l) as (l1 & l2 & -> & -> & _). by rewrite Permutation_middle.
Qed.

(** The running task joins the waiting list in priority order. *)
Lemma sleep_lists sem σ ρ :
  sinv σ -> user_task σ (running σ) ->
  let σ' := (spec_sleep sem σ ρ).2.1 in
  waitlist σ' = pinsert (prio σ) (running σ) (waitlist σ) /\
  (forall y, wsem σ' y = if decide (y = running σ) then sem else wsem σ y) /\
  ready σ' = pmerge (prio σ) (pending σ) (lremove (running σ) (ready σ)) /\ pending σ' = [].
Proof.
  intros Hi Hu. assert (forall y, prio (asleep sem σ) y = prio σ y) as Hpr
    by (intros y; unfold asleep; by rewrite !attr_upd_ne).
  assert (sinv (asleep sem σ)) as Hi1.
  { by do 2 (apply sinv_soft; [apply _|]). }
  destruct (block_lists (running σ) TSTATE_WAIT_SEM (asleep sem σ) ρ) as (H1 & H2 & H3);
    [done|by apply asleep_user|by rewrite asleep_state; apply running_ready|done|].
  cbv zeta. split; [|split; [|split; [|exact H3]]].
  - unfold waitlist, spec_sleep. etrans; [exact H1|]. cbn. by apply pinsert_ext.
  - intros y. unfold spec_sleep. rewrite block_soft by apply _. unfold asleep.
    rewrite attr_upd_ne by done. by apply wsem_set, running_exists.
  - etrans; [exact H2|]. by apply pmerge_ext.
Qed.
End Abs.

(** * Refinement *)

Section Wp.
Variable others : M semst unit.
Implicit Types (σ : sst) (x y sem : ptr) (s : semst) (m : tmem_t).

Lemma swp_getsem s sem v (Q : Z -> semst -> Prop) :
  sems s !! sem = Some v -> Q v s -> wp (get_semcount sem) Q s.
Proof. intros. by eapply wp_getso. Qed.

Lemma swp_putsem s sem v w (Q : unit -> semst -> Prop) :
  sems s !! sem = Some v ->
  Q tt (mksched (tmem s) (cpu_regs s) (set_sems (<[sem := s16 w]> (sems s)) (env s))) ->
  wp (put_semcount sem w) Q s.
Proof. intros Hv HQ. apply wp_bind. eapply swp_getsem; [done|]. by apply wp_modify. Qed.

Lemma sems_set m ρ c i : sems (mksched m ρ (set_sems c i)) = c.
Proof. done. Qed.

(** The waiting task that [nxsem_post] finds. *)
Definition mwait m x : ptr := from_option waitsem NULL (nodes m !! x).

Lemma wp_find_loop m sem l : forall fuel,
  nodes m !! NULL = None -> lseg (nodes m) l NULL -> (length l < fuel)%nat ->
  wp (loop fuel (fun stcb => if is_null stcb then ret (inr stcb)
       else t <- node stcb ;; if waitsem t =? sem then ret (inr stcb) else ret (inl (flink t)))
       (hd_or NULL l))
     (fun x m' => x = hd_or NULL (on_sem (mwait m) sem l) /\ m' = m) m.
Proof.
  induction l as [|a l IH]; intros fuel HN Hl Hf; (destruct fuel as [|fuel]; [simpl in *; lia|]);
    apply wp_loop_step; cbn [hd_or].
  - null_simpl. by apply wp_ret.
  - destruct Hl as (n & Hn & Hfl & Hl). qrun. unfold on_sem. rewrite filter_cons.
    assert (mwait m a = waitsem n) as Ew by (unfold mwait; by rewrite Hn). destruct (Z.eqb_spec (waitsem n) sem) as [E|E]; apply wp_ret.
    + by rewrite decide_True by congruence.
    + rewrite decide_False by congruence. apply IH; [done..|simpl in *; lia].
Qed.

Lemma swp_find_waiter m σ sem (Q : ptr -> tmem_t -> Prop) :
  srep tasklists m σ -> Q (hd_or NULL (waiters sem σ)) m -> wp (find_waiter sem) Q m.
Proof.
  intros Hr HQ. assert (g_waitingforsemaphore ∈ tasklists) as Hq by (unfold tasklists; set_solver).
  pose proof Hr as (Ha & Hrep & _). pose proof (Hrep _ Hq) as (HN & Hnd & _ & Hd).
  apply wp_bind. eapply wp_list_head; [done..|]. apply wp_with_fuel.
  pose proof (dseg_lseg _ _ _ _ Hd) as Hl.
  eapply wp_mono; [apply wp_find_loop; [done..|]|].
  - by apply (lseg_length m _ NULL).
  - intros x m' [-> ->]. unfold waiters, waitlist in HQ. rewrite (on_sem_ext (wsem σ)); [done|].
    intros y _. unfold mwait, attr. rewrite <- Ha, lookup_fmap. by destruct (nodes m !! y).
Qed.

Lemma attr_of_waitsem σ x n : attr_of σ x n -> waitsem n = wsem σ x.
Proof. unfold attr_of, attr. by intros ->. Qed.

Lemma sem_env_eta e : set_sems (semcount (kdata e)) e = e.
Proof. by destruct e as [i []]. Qed.

Lemma s16_count z : - CONFIG_MAX_TASKS <= z <= SEM_VALUE_MAX -> s16 z = z.
Proof. unfold CONFIG_MAX_TASKS, SEM_VALUE_MAX. intros. apply wraps_small; lia. Qed.

Lemma list_tasks Qs m σ q : srep Qs m σ -> q ∈ Qs -> NoDup (lists σ q) -> (length (lists σ q) <= size (attrs σ))%nat.
Proof.
  intros Hr Hq Hnd. apply NoDup_length_size; [done|]. intros x Hx.
  destruct (srep_listed_attr _ _ _ _ _ Hr Hq Hx) as [a Ha]. by eexists.
Qed.

(** There are no more waiting tasks than tasks. *)
Lemma sem_range s σ sem v :
  sem_ok s σ -> sems s !! sem = Some v -> - CONFIG_MAX_TASKS <= v <= SEM_VALUE_MAX.
Proof.
  intros ((Hr & Hi & _) & Hinv & Hsz & _) Hv. destruct (sem_count _ _ _ Hinv _ _ Hv) as [? Hc].
  assert (g_waitingforsemaphore ∈ tasklists) as Hq by (unfold tasklists; set_solver).
  pose proof (list_tasks _ _ _ _ Hr Hq (inv_nodup _ Hi _ Hq)) as Hlen.
  assert (length (waiters sem σ) <= length (waitlist σ))%nat as Hfl by apply length_filter.
  unfold waiters, waitlist in *. lia.
Qed.

Lemma waiters_ne s σ sem v :
  sem_ok s σ -> sems s !! sem = Some v -> v < 0 -> waiters sem σ <> [].
Proof.
  intros (_ & Hinv & _) Hv Hlt. destruct (sem_count _ _ _ Hinv _ _ Hv) as [_ Hc].
  unfold waiters. intros E. rewrite E in Hc. simpl in Hc. lia.
Qed.

(** Waking a task whose semaphore has the count [v]. *)
Lemma wake_inv s σ x err v ρ :
  sem_ok s σ -> x ∈ waitlist σ -> sems s !! wsem σ x = Some v ->
  outcome_ok σ ρ (spec_wake x err σ ρ).2 /\
  sem_inv (waitlist (spec_wake x err σ ρ).2.1) (wsem (spec_wake x err σ ρ).2.1)
    (<[wsem σ x := v + 1]> (sems s)).
Proof.
  intros ((Hr & Hi & Hp) & Hinv & Hsz) Hx Hv. split; [by apply wake_ok|].
  destruct (wake_lists x err σ ρ Hi Hx) as [Hl Hw]. rewrite Hl.
  eapply (sem_inv_wake (waitlist σ) (wsem σ)); try done.
  apply inv_nodup; [done|]. unfold tasklists; set_solver.
Qed.

Lemma hd_waiter σ sem : waiters sem σ <> [] ->
  hd_or NULL (waiters sem σ) ∈ waitlist σ /\ wsem σ (hd_or NULL (waiters sem σ)) = sem.
Proof. intros [Hs Hw]%(hd_or_elem NULL)%on_sem_elem. by split. Qed.

Lemma swp_wake m ρ i x err σ (Q : unit -> semst -> Prop) :
  srep tasklists m (woken x err σ) -> sinv σ -> pinv σ -> x ∈ waitlist σ ->
  after others (spec_wake x err σ ρ).1 (spec_wake x err σ ρ).2 i Q ->
  wp (up_unblock_task others x) Q (mksched m ρ i).
Proof.
  intros Hr Hi Hp Hx HQ. pose proof (woken_ok x err σ ρ Hi Hp) as (Hi1 & _).
  assert (is_blocked (state (woken x err σ) x) = true) as Hb.
  { rewrite woken_state. by apply (waiting_state _ _ Hi) in Hx as ->. }
  apply (swp_unblock others x _ (woken x err σ)); [done|done|by apply blocked_user|done|done].
Qed.

Lemma swp_post s σ sem v Q :
  sem_ok s σ -> sems s !! sem = Some v -> v < SEM_VALUE_MAX ->
  after others (spec_post sem v σ (cpu_regs s)).1 (spec_post sem v σ (cpu_regs s)).2
    (set_sems (<[sem := v + 1]> (sems s)) (env s)) (fun _ => Q OK) ->
  wp (nxsem_post others sem) Q s.
Proof.
  intros Hok Hv Hlt HQ. pose proof (sem_range _ _ _ _ Hok Hv) as Hrng.
  pose proof Hok as ((Hr & Hi & Hp) & Hinv & _).
  assert (sem <> NULL) as Hn by (intros ->; by rewrite (sem_null _ _ _ Hinv) in Hv).
  unfold nxsem_post. rewrite is_null_ne by done. apply wp_bind. eapply swp_getsem; [done|].
  replace (SEM_VALUE_MAX <=? v) with false by lia. apply wp_bind. eapply swp_putsem; [done|].
  rewrite s16_count by lia. apply wp_bind. eapply swp_getsem; [by rewrite sems_set, lookup_insert_eq|].
  apply wp_bind. unfold spec_post in HQ. destruct (Z.ltb_spec v 0) as [Hneg|Hpos].
  2: { replace (v + 1 <=? 0) with false by lia. apply wp_ret, wp_ret. exact (HQ _ Hr). }
  replace (v + 1 <=? 0) with true by lia. apply wp_bind, wp_onm. eapply swp_find_waiter; [done|].
  pose proof (waiters_ne _ _ _ _ Hok Hv Hneg) as Hne. destruct (hd_waiter _ _ Hne) as [Hx _].
  set (x := hd_or NULL (waiters sem σ)) in *.
  assert (g_waitingforsemaphore ∈ tasklists) as Hq by (unfold tasklists; set_solver).
  pose proof (srep_listed_attr _ _ _ _ _ Hr Hq Hx) as Hxa.
  rewrite is_null_ne by exact (srep_ne _ _ _ _ _ Hr Hq Hx). cbn [tmem cpu_regs env].
  apply wp_bind, wp_onm. cbn [tmem]. sstep. cbn [tmem cpu_regs env].
  apply (swp_wake _ _ _ x None σ); [exact Hr0|done..|]. intros m' Hm'. eapply wp_mono; [exact (HQ _ Hm')|].
  intros [] s' ?. by apply wp_ret.
Qed.

(** The running task waits for nothing. *)
Lemma running_free σ c :
  sinv σ -> sem_inv (waitlist σ) (wsem σ) c -> running σ ∉ waitlist σ /\ wsem σ (running σ) = NULL.
Proof.
  intros Hi Hinv. assert (running σ ∉ waitlist σ) as Hx.
  { intros Hx%waiting_state; [|done]. by rewrite (proj2 (inv_run _ Hi _)) in Hx. }
  split; [done|]. by apply (sem_free _ _ _ Hinv).
Qed.

Lemma upd_waitsem_id σ x sem : is_Some (attrs σ !! x) -> wsem σ x = sem -> upd_attr x (set_waitsem sem) σ = σ.
Proof.
  intros [a Ha] Hw. eapply upd_attr_id; [done|]. unfold attr in Hw. rewrite Ha in Hw. subst sem. by destruct a.
Qed.

(** What a task that waited returns. *)
Definition wait_result (r : ptr) : M semst Z :=
  t <- onm (node r) ;;
  ret (if errcode t =? OK then OK else - errcode t).

Lemma swp_wait_take s σ sem v Q :
  sem_ok s σ -> intr s = false -> sems s !! sem = Some v -> 0 < v ->
  (forall m', srep tasklists m' σ ->
     Q OK (mksched m' (cpu_regs s) (set_sems (<[sem := v - 1]> (sems s)) (env s)))) ->
  wp (nxsem_wait others sem) Q s /\ wp (nxsem_trywait sem) Q s.
Proof.
  intros Hok Hirq Hv Hpos HQ. pose proof (sem_range _ _ _ _ Hok Hv) as Hrng.
  pose proof Hok as ((Hr & Hi & Hp) & Hinv & _). assert (g_readytorun ∈ tasklists) as Hq by left.
  assert (sem <> NULL) as Hn by (intros ->; by rewrite (sem_null _ _ _ Hinv) in Hv).
  pose proof (running_exists _ Hi) as Hx. destruct (running_free _ _ Hi Hinv) as [_ Hw].
  destruct s as [m ρ i]. unfold intr in Hirq. cbn [tmem cpu_regs env] in *.
  split.
  all: apply wp_bind, wp_onm; sstep; apply wp_bind, wp_gets; unfold intr; cbn [tmem cpu_regs env].
  all: rewrite Hirq, is_null_ne by done; apply wp_bind, wp_assert; [done|].
  all: apply wp_bind; eapply swp_getsem; [done|]; replace (0 <? v) with true by lia.
  all: apply wp_bind; eapply swp_putsem; [done|]; rewrite s16_count by (unfold CONFIG_MAX_TASKS; lia).
  all: apply wp_bind, wp_onm; cbn [tmem]; sstep; apply wp_ret; rewrite upd_waitsem_id in Hr0 by done.
  all: by apply HQ.
Qed.

Lemma swp_wait_sleep s σ sem v Q :
  sem_ok s σ -> intr s = false -> user_task σ (running σ) -> sems s !! sem = Some v -> v <= 0 ->
  after others (spec_sleep sem σ (cpu_regs s)).1 (spec_sleep sem σ (cpu_regs s)).2
    (set_sems (<[sem := v - 1]> (sems s)) (env s)) (fun _ s' => wp (wait_result (running σ)) Q s') ->
  - CONFIG_MAX_TASKS < v -> wp (nxsem_wait others sem) Q s.
Proof.
  intros Hok Hirq Hu Hv Hle HQ Hlow. pose proof (sem_range _ _ _ _ Hok Hv) as Hrng.
  pose proof Hok as ((Hr & Hi & Hp) & Hinv & _). assert (g_readytorun ∈ tasklists) as Hq by left.
  assert (sem <> NULL) as Hn by (intros ->; by rewrite (sem_null _ _ _ Hinv) in Hv).
  pose proof (running_exists _ Hi) as Hx. destruct (running_free _ _ Hi Hinv) as [_ Hw].
  pose proof (asleep_ok sem σ (cpu_regs s) Hi Hp) as (Hi1 & _ & _).
  destruct s as [m ρ i]. unfold intr in Hirq. cbn [tmem cpu_regs env] in *.
  apply wp_bind, wp_onm. sstep. apply wp_bind, wp_gets. unfold intr. cbn [tmem cpu_regs env].
  rewrite Hirq, is_null_ne by done. apply wp_bind, wp_assert; [done|].
  apply wp_bind. eapply swp_getsem; [done|]. replace (0 <? v) with false by lia.
  apply wp_bind, wp_onm. cbn [tmem]. eapply swp_node; [done..|]. intros n Hn'.
  apply wp_bind, wp_assert; [by rewrite (attr_of_waitsem _ _ _ Hn'), Hw|]. clear n Hn'.
  apply wp_bind. eapply swp_putsem; [done|]. rewrite s16_count by lia. cbn [tmem cpu_regs env].
  apply wp_bind, wp_onm. cbn [tmem]. sstep. cbn [cpu_regs env].
  apply wp_bind, wp_onm. cbn [tmem]. sstep. cbn [cpu_regs env]. fold (asleep sem σ) in Hr1.
  assert (exists l, ready σ = running σ :: l /\ l <> []) as (l & El & Hl).
  { pose proof (ready_tl σ _ Hi (running_elem _ (ready_ne _ Hi)) (proj2 Hu)) as Htl.
    unfold running in *. pose proof (ready_ne _ Hi). destruct (ready σ) as [|y l]; [done|]. by exists l. }
  apply wp_bind, wp_onm. cbn [tmem]. eapply (swp_flink _ _ _ g_readytorun []); [exact Hr1|done|exact El|].
  apply wp_bind, wp_assert.
  { assert (hd_or NULL l ∈ lists (asleep sem σ) g_readytorun) as Hin.
    { change (hd_or NULL l ∈ ready σ). rewrite El. right. by apply hd_or_elem. }
    by rewrite is_null_ne by exact (srep_ne _ _ _ _ _ Hr1 Hq Hin). }
  apply wp_bind. apply (swp_block others _ TSTATE_WAIT_SEM _ (asleep sem σ)); try done.
  - by apply asleep_user.
  - rewrite asleep_state. by apply running_ready.
Qed.

Lemma swp_wait_irq s σ x err Q :
  sem_ok s σ -> is_Some (attrs σ !! x) ->
  (forall v, x ∈ waitlist σ -> sems s !! wsem σ x = Some v ->
     after others (spec_wake x (Some (s16 err)) σ (cpu_regs s)).1 (spec_wake x (Some (s16 err)) σ (cpu_regs s)).2
       (set_sems (<[wsem σ x := v + 1]> (sems s)) (env s)) Q) ->
  (x ∉ waitlist σ -> Q tt s) ->
  wp (nxsem_wait_irq others x err) Q s.
Proof.
  intros Hok Hx HQ Hno. pose proof Hok as ((Hr & Hi & Hp) & Hinv & _).
  unfold nxsem_wait_irq. apply wp_bind, wp_onm. eapply swp_node; [done..|]. intros n Hn. rewrite sched_eta.
  rewrite (attr_of_state _ _ _ Hn). rewrite (attr_of_waitsem _ _ _ Hn). clear n Hn.
  destruct (decide (state σ x = TSTATE_WAIT_SEM)) as [Hs|Hs].
  2: { apply wp_ret, Hno. by intros ?%waiting_state. }
  apply (waiting_state _ _ Hi) in Hs as Hw. destruct (sem_waits _ _ _ Hinv x Hw) as [v Hv].
  assert (wsem σ x <> NULL) as Hn by (intros E; rewrite E in Hv; by rewrite (sem_null _ _ _ Hinv) in Hv).
  assert (waiters (wsem σ x) σ <> []) as Hne.
  { intros E. assert (x ∈ waiters (wsem σ x) σ) as Hxx by by apply on_sem_elem. rewrite E in Hxx. set_solver. }
  assert (v < 0) as Hneg.
  { destruct (sem_count _ _ _ Hinv _ _ Hv) as [_ Hc]. unfold waiters in Hne.
    destruct (on_sem _ _ _); [done|]. simpl in Hc. lia. }
  pose proof (sem_range _ _ _ _ Hok Hv) as Hrng.
  cbv zeta. apply wp_bind. eapply swp_getsem; [done|]. apply wp_bind, wp_assert.
  { rewrite is_null_ne by done. apply andb_true_iff. split; [done|]. by apply Z.ltb_lt. }
  apply wp_bind. eapply swp_putsem; [done|]. rewrite (s16_count (v + 1)) by (unfold SEM_VALUE_MAX in *; lia).
  apply wp_bind, wp_onm. cbn [tmem]. sstep. apply wp_bind, wp_onm. cbn [tmem]. sstep. cbn [cpu_regs env].
  apply (swp_wake _ _ _ x (Some (s16 err)) σ); [exact Hr1|done..|]. by apply HQ.
Qed.
End Wp.

(** * Sequences of calls *)

Inductive sem_op :=
| SemWait (sem : ptr) | SemTrywait (sem : ptr) | SemPost (sem : ptr)
| SemWaitIrq (tcb : ptr) (errcode : Z) | SemTimeout (pid : Z)
| SemReset (sem : ptr) (count : Z) | SemDestroy (sem : ptr) | SemInit (sem : ptr) (value : Z).

Definition sem_exec (others : M semst unit) (op : sem_op) : M semst Z :=
  match op with
  | SemWait sem => nxsem_wait others sem
  | SemTrywait sem => nxsem_trywait sem
  | SemPost sem => nxsem_post others sem
  | SemWaitIrq tcb e => nxsem_wait_irq others tcb e ;; ret OK
  | SemTimeout pid => nxsem_timeout others pid ;; ret OK
  | SemReset sem n => nxsem_reset others sem n
  | SemDestroy sem => nxsem_destroy sem
  | SemInit sem v => nxsem_init sem 0 v
  end.

(** What the caller has to see to: semaphores exist; only threads other than
    the IDLE task wait; nobody waits for a semaphore that is initialized. *)
Definition sem_pre (s : semst) (σ : sst) (op : sem_op) : Prop :=
  match op with
  | SemWait sem => is_Some (sems s !! sem) /\ intr s = false /\ user_task σ (running σ)
  | SemTrywait sem => is_Some (sems s !! sem) /\ intr s = false
  | SemPost sem | SemDestroy sem => sem = NULL \/ is_Some (sems s !! sem)
  | SemWaitIrq tcb _ => is_Some (attrs σ !! tcb)
  | SemTimeout pid => True
  | SemReset sem n => is_Some (sems s !! sem) /\ 0 <= n <= SEM_VALUE_MAX /\ lock σ (running σ) < MAX_LOCK_COUNT
  | SemInit sem v => 0 <= v /\ (sem = NULL \/ is_Some (sems s !! sem) /\ waiters sem σ = [])
  end.

Inductive sem_reach (others : M semst unit) (s0 : semst) : semst -> Prop :=
| sreach_init : sem_reach others s0 s0
| sreach_step s op σ v s' :
    sem_reach others s0 s -> sem_ok s σ -> sem_pre s σ op ->
    sem_exec others op s = Some (v, s') -> sem_reach others s0 s'.

Section Pres.
Implicit Types (σ : sst) (x y sem : ptr) (s : semst) (m : tmem_t).

Lemma size_same σ σ' :
  (forall y, is_Some (attrs σ' !! y) <-> is_Some (attrs σ !! y)) -> size (attrs σ') = size (attrs σ).
Proof.
  intros He. rewrite <- !size_dom. f_equal. apply set_eq. intros y. by rewrite !elem_of_dom.
Qed.

Lemma pid_inv_same σ σ' h :
  (forall y, is_Some (attrs σ' !! y) <-> is_Some (attrs σ !! y)) -> pid_inv σ h -> pid_inv σ' h.
Proof.
  intros He [Hsz Hh]. split; [by rewrite (size_same _ _ He)|]. intros n Hn.
  destruct (Hh n Hn) as (e & ? & Ht). exists e. split; [done|]. by rewrite He.
Qed.

(** The state right after an operation, before any other thread runs. *)
Lemma sem_ok_outcome m i σ ρ σρ :
  srep tasklists m σρ.1 -> outcome_ok σ ρ σρ -> pid_inv σ (g_pidhash (kdata i)) ->
  sem_inv (waitlist σρ.1) (wsem σρ.1) (semcount (kdata i)) ->
  sem_ok (mksched m σρ.2 i) σρ.1.
Proof. intros Hm (Hi & Hp & He & _) Hpid Hinv. split_and!; [done..|]. by apply (pid_inv_same σ). Qed.

Lemma sem_kept_mono σ c c' s' :
  (forall sem, is_Some (c !! sem) -> is_Some (c' !! sem)) -> sem_kept σ c' s' -> sem_kept σ c s'.
Proof. intros Hc (σ' & ? & ? & ?). exists σ'. split_and!; auto. Qed.

Lemma sem_kept_insert σ c sem v s' : sem_kept σ (<[sem := v]> c) s' -> sem_kept σ c s'.
Proof.
  apply sem_kept_mono. intros s1 [w Hw]. destruct (decide (sem = s1)) as [->|].
  - rewrite lookup_insert_eq. by eexists.
  - rewrite lookup_insert_ne by done. by eexists.
Qed.

Lemma sem_kept_refl s σ : sem_ok s σ -> sem_kept σ (sems s) s.
Proof. intros Hok. exists σ. split_and!; [done|by intros y|done]. Qed.
Lemma sem_kept_trans σ1 c1 σ2 s2 s3 :
  same_tasks σ1 σ2 -> (forall sem, is_Some (c1 !! sem) -> is_Some (sems s2 !! sem)) ->
  sem_kept σ2 (sems s2) s3 -> sem_kept σ1 c1 s3.
Proof.
  intros Hs Hc (σ3 & ? & Hs3 & Hc3). exists σ3. split_and!; [done| |auto].
  intros y ?%Hs. by apply Hs3.
Qed.

(** A task can only wait if another task runs in its place. *)
Lemma sem_low s σ sem v :
  sem_ok s σ -> sems s !! sem = Some v -> - CONFIG_MAX_TASKS < v.
Proof.
  intros ((Hr & Hi & _) & Hinv & Hsz & _) Hv. destruct (sem_count _ _ _ Hinv _ _ Hv) as [_ Hc].
  assert (g_waitingforsemaphore ∈ tasklists) as Hq by (unfold tasklists; set_solver).
  destruct (running_free _ _ Hi Hinv) as [Hx _].
  assert (length (running σ :: waitlist σ) <= size (attrs σ))%nat as Hlen.
  { apply NoDup_length_size.
    - apply NoDup_cons. split; [done|by apply inv_nodup].
    - intros y [->|Hy]%elem_of_cons; [by apply running_exists|].
      destruct (srep_listed_attr _ _ _ _ _ Hr Hq Hy) as [a Ha]. by eexists. }
  assert (length (on_sem (wsem σ) sem (waitlist σ)) <= length (waitlist σ))%nat as Hfl by apply length_filter.
  simpl in Hlen. unfold CONFIG_MAX_TASKS in Hsz |- *. lia.
Qed.

Lemma post_inv s σ sem v :
  sem_ok s σ -> sems s !! sem = Some v -> v < SEM_VALUE_MAX ->
  let σρ := (spec_post sem v σ (cpu_regs s)).2 in
  outcome_ok σ (cpu_regs s) σρ /\ sem_inv (waitlist σρ.1) (wsem σρ.1) (<[sem := v + 1]> (sems s)).
Proof.
  intros Hok Hv Hlt. pose proof Hok as ((Hr & Hi & Hp) & Hinv & _). unfold spec_post.
  destruct (Z.ltb_spec v 0) as [Hneg|Hpos].
  - destruct (hd_waiter σ sem (waiters_ne _ _ _ _ Hok Hv Hneg)) as [Hx Hw].
    rewrite <- Hw in Hv. pose proof (wake_inv s σ _ None v (cpu_regs s) Hok Hx Hv) as H. by rewrite Hw in H.
  - cbn [fst snd]. split; [split_and!; done|].
    apply (sem_inv_count _ _ _ _ v); [done|done|lia|done].
Qed.

Lemma sleep_inv s σ sem v :
  sem_ok s σ -> user_task σ (running σ) -> sems s !! sem = Some v -> v <= 0 ->
  let σρ := (spec_sleep sem σ (cpu_regs s)).2 in
  outcome_ok σ (cpu_regs s) σρ /\ sem_inv (waitlist σρ.1) (wsem σρ.1) (<[sem := v - 1]> (sems s)).
Proof.
  intros Hok Hu Hv Hle. pose proof Hok as ((Hr & Hi & Hp) & Hinv & _).
  split; [by apply sleep_ok|]. destruct (sleep_lists sem σ (cpu_regs s) Hi Hu) as (Hl & Hw & _).
  cbv zeta. rewrite Hl. destruct (running_free _ _ Hi Hinv) as [Hx _].
  eapply (sem_inv_sleep (waitlist σ)); [exact Hx|apply pinsert_perm| |exact Hv|done|exact Hw|done].
  intros ->. by rewrite (sem_null _ _ _ Hinv) in Hv.
Qed.

(** While the running task holds the preemption lock, waking a task does not
    switch. *)
Lemma wake_locked x err σ ρ :
  sinv σ -> pinv σ -> x ∈ waitlist σ -> 0 < lock σ (running σ) ->
  let r := spec_wake x err σ ρ in
  r.1 = false /\ running r.2.1 = running σ /\ (forall y, lock r.2.1 y = lock σ y).
Proof.
  intros Hi Hp Hx Hl. set (τ := woken x err σ). cbv zeta.
  assert (forall y, lock τ y = lock σ y) as Hlk
    by (intros y; unfold τ, woken; destruct err; rewrite ?attr_upd_ne by done; done).
  assert (running τ = running σ) as Hrun by (unfold τ; by destruct err).
  destruct (woken_ok x err σ ρ Hi Hp) as (Hi1 & _).
  assert (is_blocked (state τ x) = true) as Hb.
  { unfold τ. rewrite woken_state. by apply (waiting_state _ _ Hi) in Hx as ->. }
  destruct (unblock_lists x τ ρ Hb) as [_ Hu]. rewrite Hrun, Hlk in Hu.
  replace (0 <? lock σ (running σ)) with true in Hu by lia. cbn [andb] in Hu. unfold spec_wake. fold τ.
  assert (forall y, lock (spec_unblock x τ ρ).2.1 y = lock σ y) as Hlk'
    by (intros y; rewrite unblock_soft by apply _; apply Hlk).
  destruct (prio τ (running σ) <? prio τ x) eqn:E; destruct Hu as (Hb1 & Hrd & _); (split; [done|]); (split; [|done]).
  - unfold running in *. by rewrite Hrd.
  - unfold running. rewrite Hrd, pinsert_hd by by apply ready_ne. fold (running τ). rewrite Hrun.
    apply Z.ltb_ge in E. by destruct (Z.leb_spec (prio τ x) (prio τ (running σ))); [|lia].
Qed.

Lemma wake_waiters x err σ ρ sem :
  sinv σ -> x ∈ waitlist σ ->
  waiters sem (spec_wake x err σ ρ).2.1 = lremove x (waiters sem σ).
Proof.
  intros Hi Hx. destruct (wake_lists x err σ ρ Hi Hx) as [Hl Hw]. unfold waiters. rewrite Hl.
  rewrite <- on_sem_lremove. apply on_sem_ext. intros y [Hy _]%lremove_elem. by rewrite Hw, decide_False.
Qed.

Lemma lremove_hd l : NoDup l -> l <> [] -> lremove (hd_or NULL l) l = List.tl l.
Proof. intros Hnd Hl. destruct l as [|x l]; [done|]. by apply (lremove_mid x []). Qed.

Lemma waiters_nodup σ sem : sinv σ -> NoDup (waiters sem σ).
Proof. intros Hi. apply NoDup_filter, inv_nodup; [done|]. unfold tasklists; set_solver. Qed.

(** No other thread can run. *)
Definition still s σ : Prop := intr s = true \/ 0 < lock σ (running σ).

(** What the posts of [nxsem_reset] have done so far. *)
Definition posted s σ sem v (k : nat) s' σ' : Prop :=
  sem_ok s' σ' /\ still s' σ' /\ intr s' = intr s /\ same_tasks σ σ' /\
  sems s' = <[sem := v + Z.of_nat k]> (sems s) /\ waiters sem σ' = drop k (waiters sem σ) /\
  (forall t, context σ' (cpu_regs s') t = context σ (cpu_regs s) t).

Lemma post_still others s σ sem v :
  sem_ok s σ -> still s σ -> sems s !! sem = Some v -> v < 0 ->
  wp (nxsem_post others sem) (fun r s' => r = OK /\ exists σ', posted s σ sem v 1 s' σ') s.
Proof.
  intros Hok Hst Hv Hneg. pose proof Hok as ((Hr & Hi & Hp) & Hinv & Hpid).
  assert (v < SEM_VALUE_MAX) as Hlt by (unfold SEM_VALUE_MAX; lia).
  destruct (post_inv s σ sem v Hok Hv Hlt) as [Hout Hinv'].
  pose proof (waiters_ne _ _ _ _ Hok Hv Hneg) as Hne. destruct (hd_waiter _ _ Hne) as [Hx Hw].
  eapply swp_post; [done..|]. intros m Hm. unfold spec_post in *. replace (v <? 0) with true in * by lia.
  set (x := hd_or NULL (waiters sem σ)) in *. set (r := spec_wake x None σ (cpu_regs s)) in *.
  set (i := set_sems (<[sem := v + 1]> (sems s)) (env s)) in *.
  pose proof (sem_ok_outcome m i σ (cpu_regs s) r.2 Hm Hout Hpid Hinv') as Hok'.
  assert (r.1 && negb (in_irq i) = false /\ (still s σ -> still (mksched m r.2.2 i) r.2.1)) as [-> Hst'].
  { destruct Hst as [Hirq|Hl].
    - unfold still, intr in *. change (in_irq i) with (in_irq (env s)). rewrite Hirq, andb_false_r. by auto.
    - destruct (wake_locked x None σ (cpu_regs s) Hi Hp Hx Hl) as (Hb & Hrun & Hlk). fold r in Hb, Hrun, Hlk.
      rewrite Hb. split; [done|]. intros _. right. by rewrite Hrun, Hlk. }
  apply wp_ret. split; [done|]. exists r.2.1. destruct Hout as (_ & _ & He & Hctx).
  split_and!; [done|by apply Hst'|done|by intros y ?%He|done| |done].
  unfold r, x. rewrite wake_waiters by done. rewrite lremove_hd by auto using waiters_nodup.
  by destruct (waiters sem σ).
Qed.

Lemma posted_trans s σ sem v k s1 σ1 s2 σ2 :
  posted s σ sem v 1 s1 σ1 -> posted s1 σ1 sem (v + 1) k s2 σ2 -> posted s σ sem v (S k) s2 σ2.
Proof.
  intros (_ & _ & I1 & T1 & S1 & W1 & C1) (H1 & H2 & I2 & T2 & S2 & W2 & C2).
  split_and!; [done|done|congruence| | | |].
  - intros y ?%T1. by apply T2.
  - rewrite S2, S1, insert_insert_eq. f_equal. lia.
  - rewrite W2, W1, drop_drop. done.
  - intros t. by rewrite C2, C1.
Qed.

Lemma posted_refl s σ sem v : sem_ok s σ -> still s σ -> sems s !! sem = Some v -> posted s σ sem v 0 s σ.
Proof.
  intros. split_and!; [done|done|done|by intros y| |done|done]. by rewrite Z.add_0_r, insert_id.
Qed.

Lemma wp_reset_loop others sem : forall fuel s σ v count,
  sem_ok s σ -> still s σ -> sems s !! sem = Some v -> 0 <= count <= SEM_VALUE_MAX ->
  (Z.to_nat count < fuel)%nat ->
  let k := Nat.min (length (waiters sem σ)) (Z.to_nat count) in
  wp (loop fuel (fun count => c <- get_semcount sem ;;
       if (c <? 0) && (0 <? count) then
         r <- nxsem_post others sem ;; assert_ (0 <=? r) ;; ret (inl (s16 (count - 1)))
       else ret (inr count)) count)
     (fun r s' => r = count - Z.of_nat k /\ exists σ', posted s σ sem v k s' σ') s.
Proof.
  induction fuel as [|fuel IH]; intros s σ v count Hok Hst Hv Hc Hf; [lia|]. apply wp_loop_step, wp_bind.
  eapply swp_getsem; [done|]. cbv zeta.
  destruct (sem_count _ _ _ (proj1 (proj2 Hok)) _ _ Hv) as [_ Hlen]. fold (waiters sem σ) in Hlen.
  destruct ((v <? 0) && (0 <? count)) eqn:E.
  2: { apply wp_ret. replace (Nat.min (length (waiters sem σ)) (Z.to_nat count)) with 0%nat.
       - split; [lia|]. exists σ. by apply posted_refl.
       - apply andb_false_iff in E. rewrite !Z.ltb_ge in E. lia. }
  apply andb_true_iff in E as [E1%Z.ltb_lt E2%Z.ltb_lt].
  apply wp_bind. eapply wp_mono; [by apply post_still|]. intros r s1 (-> & σ1 & Hp1).
  apply wp_bind, wp_assert; [done|]. apply wp_ret. rewrite s16_count by (unfold CONFIG_MAX_TASKS; lia).
  pose proof Hp1 as (Hok1 & Hst1 & _ & _ & S1 & W1 & _). assert (sems s1 !! sem = Some (v + 1)) as Hv1.
  { rewrite S1, lookup_insert_eq. done. }
  eapply wp_mono; [by apply (IH s1 σ1 (v + 1) (count - 1)); [..|lia|lia]|]. cbv zeta.
  intros r s2 (-> & σ2 & Hp2). rewrite W1, length_drop in *.
  set (k := Nat.min (length (waiters sem σ) - 1) (Z.to_nat (count - 1))) in *.
  replace (Nat.min (length (waiters sem σ)) (Z.to_nat count)) with (S k) by lia.
  split; [lia|]. exists σ2. by eapply posted_trans.
Qed.

(** The preemption lock. *)
Lemma sem_ok_lock m ρ i σ l :
  sem_ok (mksched m ρ i) σ -> 0 < l <= MAX_LOCK_COUNT ->
  forall m', srep tasklists m' (upd_attr (running σ) (set_lockcount l) σ) ->
  sem_ok (mksched m' ρ i) (upd_attr (running σ) (set_lockcount l) σ).
Proof.
  intros ((Hr & Hi & Hp) & Hinv & Hpid) Hl m' Hm. pose proof (running_exists _ Hi) as Hx.
  assert (forall y, wsem (upd_attr (running σ) (set_lockcount l) σ) y = wsem σ y) as Hw
    by (intros y; by apply attr_upd_ne).
  split; [split; [done|]; split|split].
  - apply sinv_lock; [done..|]. lia.
  - intros _. change (running (upd_attr ?x ?f σ)) with (running σ). rewrite lock_set, decide_True by done. lia.
  - by apply (sem_inv_ext _ (wsem σ)).
  - eapply pid_inv_same, Hpid. intros y. apply upd_attr_exists.
Qed.

Lemma lock_waiters σ l sem : waiters sem (upd_attr (running σ) (set_lockcount l) σ) = waiters sem σ.
Proof. unfold waiters. apply on_sem_ext. intros y _. by apply attr_upd_ne. Qed.

Lemma context_lock σ l ρ t : context (upd_attr (running σ) (set_lockcount l) σ) ρ t = context σ ρ t.
Proof. unfold context. change (running (upd_attr ?x ?f σ)) with (running σ). by rewrite attr_upd_ne. Qed.

(** [nxsem_reset] up to the call of [sched_unlock]. *)
Definition reset_done s σ sem (count : Z) s' σ' : Prop :=
  sem_ok s' σ' /\ intr s' = intr s /\ same_tasks σ σ' /\
  sems s' = <[sem := count - Z.of_nat (length (waiters sem σ))]> (sems s) /\
  waiters sem σ' = drop (Z.to_nat count) (waiters sem σ) /\
  (forall t, context σ' (cpu_regs s') t = context σ (cpu_regs s) t).

Lemma swp_reset_core others s σ sem v count Q :
  sem_ok s σ -> still s σ -> sems s !! sem = Some v -> 0 <= count <= SEM_VALUE_MAX ->
  (forall s' σ', reset_done s σ sem count s' σ' -> Q tt s') ->
  wp (count <- reset_loop others sem count ;;
      c <- get_semcount sem ;; when (0 <=? c) (put_semcount sem count)) Q s.
Proof.
  intros Hok Hst Hv Hc HQ. apply wp_bind. eapply wp_mono; [apply wp_reset_loop; [done..|lia]|].
  cbv zeta. intros r s1 (-> & σ1 & Hok1 & _ & I1 & T1 & S1 & W1 & C1).
  destruct (sem_count _ _ _ (proj1 (proj2 Hok)) _ _ Hv) as [_ Hlen]. fold (waiters sem σ) in Hlen.
  set (n := length (waiters sem σ)) in *. set (k := Nat.min n (Z.to_nat count)) in *.
  assert (sems s1 !! sem = Some (v + Z.of_nat k)) as Hv1 by by rewrite S1, lookup_insert_eq.
  assert (drop k (waiters sem σ) = drop (Z.to_nat count) (waiters sem σ)) as Hdrop.
  { destruct (Nat.le_ge_cases n (Z.to_nat count)); [|f_equal; lia]. rewrite !drop_ge; [done|lia..]. }
  apply wp_bind. eapply swp_getsem; [done|]. destruct (Z.leb_spec 0 (v + Z.of_nat k)) as [Hge|Hlt]; unfold when.
  - eapply swp_putsem; [done|]. rewrite s16_count by (unfold CONFIG_MAX_TASKS; lia).
    apply (HQ _ σ1). destruct Hok1 as (? & Hinv1 & ?). split_and!; try done.
    + split_and!; try done. rewrite sems_set. eapply sem_inv_count; [done|lia| |done]. lia.
    + rewrite sems_set, S1, insert_insert_eq. f_equal. lia.
    + congruence.
  - apply wp_ret, (HQ _ σ1). split_and!; try done; [|congruence]. rewrite S1. f_equal. lia.
Qed.

Lemma swp_reset others s σ sem v count Q :
  sem_ok s σ -> sems s !! sem = Some v -> 0 <= count <= SEM_VALUE_MAX -> lock σ (running σ) < MAX_LOCK_COUNT ->
  (forall s' σ', reset_done s σ sem count s' σ' -> wp (sched_unlock others ;; ret OK) Q s') ->
  wp (nxsem_reset others sem count) Q s.
Proof.
  intros Hok Hv Hc Hl HQ. pose proof Hok as ((Hr & Hi & Hp) & Hinv & Hpid).
  assert (sem <> NULL) as Hn by (intros ->; by rewrite (sem_null _ _ _ Hinv) in Hv).
  pose proof (inv_lock _ Hi (running σ)) as Hb.
  apply wp_bind, wp_assert; [rewrite is_null_ne by done; cbn [negb andb]; lia|].
  apply wp_bind. eapply swp_lock; [done..|]. intros m' Hm'.
  set (s1 := mksched m' (cpu_regs s) (env s)).
  assert (exists σ1, sem_ok s1 σ1 /\ still s1 σ1 /\ same_tasks σ σ1 /\ waiters sem σ1 = waiters sem σ /\
    forall t, context σ1 (cpu_regs s1) t = context σ (cpu_regs s) t) as (σ1 & Hok1 & Hst & T1 & W1 & C1).
  { destruct (intr s) eqn:Hirq.
    - exists σ. split_and!; [split_and!; done|by left|by intros y|done|done].
    - eexists. split; [eapply (sem_ok_lock (tmem s) _ _ σ (lock σ (running σ) + 1)), Hm'; [by destruct s|lia]|].
      split; [right|split; [|split; [apply lock_waiters|intros t; apply context_lock]]].
      + change (running (upd_attr ?x ?f σ)) with (running σ).
        rewrite lock_set, decide_True by (done || by apply running_exists). lia.
      + intros y. by rewrite upd_attr_exists. }
  apply (wp_mono _ Q); [|done].
  assert (wp (count <- reset_loop others sem count ;;
      c <- get_semcount sem ;; when (0 <=? c) (put_semcount sem count))
      (fun _ s' => wp (sched_unlock others ;; ret OK) Q s') s1) as Hw.
  { eapply swp_reset_core; [exact Hok1|done|done|done|]. intros s' σ' (H1 & H2 & H3 & H4 & H5 & H6).
    apply (HQ s' σ'). rewrite W1 in *. split_and!; try done; [by intros y ?%T1; apply H3|].
    intros t. by rewrite H6, C1. }
  clear -Hw. unfold wp, bind in *. destruct (reset_loop others sem count s1) as [[c2 s2]|]; [|done].
  destruct (get_semcount sem s2) as [[c3 s3]|]; [|done].
  by destruct (when (0 <=? c3) (put_semcount sem c2) s3) as [[[] s4]|].
Qed.
End Pres.

Section Steps.
Variable others : M semst unit.
Hypothesis Henv : sem_env others.
Implicit Types (σ : sst) (x y sem : ptr) (s : semst) (m : tmem_t).

Lemma sem_after b σ ρ σρ i :
  outcome_ok σ ρ σρ -> pid_inv σ (g_pidhash (kdata i)) ->
  sem_inv (waitlist σρ.1) (wsem σρ.1) (semcount (kdata i)) ->
  after others b σρ i (fun _ s' => sem_kept σ (semcount (kdata i)) s').
Proof using All.
  intros Hout Hpid Hinv m Hm. pose proof (sem_ok_outcome m i σ ρ σρ Hm Hout Hpid Hinv) as Hok.
  destruct Hout as (_ & _ & He & _). assert (same_tasks σ σρ.1) as Hs by by intros y ?%He.
  destruct (b && negb (in_irq i)); [|apply wp_ret; by exists σρ.1].
  eapply wp_mono; [by apply (Henv _ _ Hok)|]. intros [] s' (σ' & ? & Hs' & Hc). exists σ'. split; [done|].
  split; [|done]. intros y ?%Hs. by apply Hs'.
Qed.

(** [sched_unlock] changes neither the waiting tasks nor the semaphores. *)
Lemma unlock_waits σ ρ :
  waitlist (spec_unlock σ ρ).2.1 = waitlist σ /\ (forall y, wsem (spec_unlock σ ρ).2.1 y = wsem σ y).
Proof.
  unfold spec_unlock. set (σ1 := upd_attr _ _ σ).
  assert (forall y, wsem σ1 y = wsem σ y) as Hw by (intros; by apply attr_upd_ne).
  destruct (_ =? 0); [|by split]. unfold spec_release, spec_merge_pending.
  pose proof (spec_ready_all_lists (pending σ1) σ1 g_waitingforsemaphore) as Hl.
  pose proof (keeps_ready_all (pending σ1) σ1) as [_ Hk].
  destruct (spec_ready_all _ σ1) as [b σ2]. cbn [fst snd] in *. unfold waitlist. rewrite resched_lists. split.
  - by apply Hl.
  - intros y. rewrite resched_soft by apply _. rewrite Hk by done. apply Hw.
Qed.

Lemma unlock_kept s σ :
  sem_ok s σ -> wp (sched_unlock others) (fun _ s' => sem_kept σ (sems s) s') s.
Proof using All.
  intros Hok. pose proof Hok as ((Hr & Hi & Hp) & Hinv & Hpid). destruct s as [m ρ [irq k]].
  destruct irq.
  { unfold sched_unlock. assert (g_readytorun ∈ tasklists) as Hq by left.
    apply wp_bind, wp_onm. sstep. apply wp_bind, wp_gets. unfold intr. cbn [env in_irq tmem cpu_regs].
    rewrite andb_false_r. do 2 apply wp_ret. by apply sem_kept_refl. }
  eapply swp_unlock; [done..|]. destruct (unlock_waits σ ρ) as [Hl Hw].
  assert (sem_inv (waitlist (spec_unlock σ ρ).2.1) (wsem (spec_unlock σ ρ).2.1) (semcount k)) as Hinv1.
  { rewrite Hl. by apply (sem_inv_ext _ (wsem σ)). }
  intros m1 Hm1. eapply wp_mono.
  { by apply (sem_after (spec_unlock σ ρ).1 σ ρ (spec_unlock σ ρ).2 (mkenv false k)); [apply unlock_outcome|..]. }
  intros [] s2 (σ2 & Hok2 & T2 & C2). destruct (_ <=? 1); unfold when; [|by apply wp_ret; exists σ2].
  pose proof Hok2 as ((Hr2 & Hi2 & Hp2) & Hinv2 & Hpid2).
  eapply swp_unlock_tail; [done|by apply T2, running_exists|]. intros m3 σ3 Hr3 [->|H3].
  - exists σ2. by split_and!.
  - subst σ3. eexists. split; [split; [by apply sched_ok_slice|split]|split; [|done]].
    + eapply sem_inv_ext, Hinv2. intros y. by apply attr_upd_ne.
    + eapply pid_inv_same, Hpid2. intros y. apply upd_attr_exists.
    + intros y Hy. apply upd_attr_exists. by apply T2.
Qed.

Lemma wait_irq_kept s σ x err :
  sem_ok s σ -> is_Some (attrs σ !! x) ->
  wp (nxsem_wait_irq others x err) (fun _ s' => sem_kept σ (sems s) s') s.
Proof using All.
  intros Hok Hx. eapply swp_wait_irq; [done..| |].
  - intros v Hw Hv. destruct (wake_inv s σ x (Some (s16 err)) v (cpu_regs s) Hok Hw Hv) as [Hout Hinv].
    intros m Hm. eapply wp_mono; [eapply sem_after; [exact Hout|apply Hok|exact Hinv|exact Hm]|].
    intros [] s' Hk. exact (sem_kept_insert _ _ (wsem σ x) (v + 1) _ Hk).
  - intros _. by apply sem_kept_refl.
Qed.

Lemma wait_kept s σ sem :
  sem_ok s σ -> sem_pre s σ (SemWait sem) ->
  wp (nxsem_wait others sem) (fun _ s' => sem_kept σ (sems s) s') s.
Proof using All.
  intros Hok ([v Hv] & Hirq & Hu). pose proof Hok as ((Hr & Hi & Hp) & Hinv & Hpid).
  destruct (sem_range _ _ _ _ Hok Hv). destruct (Z.ltb_spec 0 v) as [Hpos|Hneg].
  - eapply swp_wait_take; [done..|]. intros m' Hm'. eapply (sem_kept_insert _ _ sem (v - 1)), sem_kept_refl.
    split_and!; try done. eapply sem_inv_count; [done|lia|lia|done].
  - destruct (sleep_inv s σ sem v Hok Hu Hv Hneg) as [Hout Hinv1].
    eapply swp_wait_sleep; [done..| |by eapply sem_low]. intros m Hm.
    eapply wp_mono; [eapply sem_after; [exact Hout|done|exact Hinv1|exact Hm]|].
    intros [] s' Hk. apply (sem_kept_insert _ (sems s) sem (v - 1)) in Hk. pose proof Hk as (σ' & (Hs' & _) & T & _). destruct Hs' as (Hr' & _).
    apply wp_bind, wp_onm. eapply swp_node; [done|by apply T, running_exists|]. intros n _.
    rewrite sched_eta. by apply wp_ret.
Qed.

Lemma land_bound pid : 0 <= PIDHASH pid < CONFIG_MAX_TASKS.
Proof.
  unfold PIDHASH, CONFIG_MAX_TASKS. change (16 - 1) with (Z.ones 4). rewrite Z.land_ones by lia.
  apply Z.mod_pos_bound. lia.
Qed.

Lemma timeout_kept s σ pid :
  sem_ok s σ -> wp (nxsem_timeout others pid) (fun _ s' => sem_kept σ (sems s) s') s.
Proof using All.
  intros Hok. pose proof (sem_kept_refl _ _ Hok) as Hk. pose proof Hok as ((Hr & _) & _ & _ & Hpid).
  destruct (Hpid _ (land_bound pid)) as (e & He & Ht).
  unfold nxsem_timeout, nxsched_get_tcb. apply wp_bind. destruct (0 <=? pid); [|by do 2 apply wp_ret].
  apply wp_bind. eapply wp_getso; [done|]. apply wp_ret. destruct (pid =? ph_pid e); [|by apply wp_ret].
  destruct (is_null (ph_tcb e)) eqn:En; [by apply wp_ret|].
  assert (is_Some (attrs σ !! ph_tcb e)) as Hx.
  { destruct Ht as [E|E]; [|done]. by rewrite E in En. }
  apply wp_bind, wp_onm. eapply swp_node; [done..|]. intros n Hn. rewrite sched_eta.
  case_decide; [|by apply wp_ret]. by apply wait_irq_kept.
Qed.

Lemma count_kept s σ sem v w :
  sem_ok s σ -> sems s !! sem = Some v -> 0 <= v -> 0 <= w <= SEM_VALUE_MAX ->
  wp (put_semcount sem w) (fun _ s' => sem_kept σ (sems s) s') s.
Proof.
  intros Hok Hv H0 Hw. pose proof Hok as (? & Hinv & ?). eapply swp_putsem; [done|].
  rewrite s16_count by (unfold CONFIG_MAX_TASKS; lia). eapply (sem_kept_insert _ _ sem w), sem_kept_refl.
  split_and!; try done. by eapply sem_inv_count.
Qed.

Lemma sem_step_ok s σ op :
  sem_ok s σ -> sem_pre s σ op ->
  wp (sem_exec others op) (fun _ s' => sem_kept σ (sems s) s') s.
Proof using All.
  intros Hok Hpre. pose proof Hok as ((Hr & Hi & Hp) & Hinv & Hpid). pose proof (sem_kept_refl _ _ Hok) as Hk.
  assert (forall c : M semst unit, wp c (fun _ s' => sem_kept σ (sems s) s') s ->
    wp (c ;; ret OK) (fun _ s' => sem_kept σ (sems s) s') s) as Hunit.
  { intros c Hc. apply wp_bind. eapply wp_mono; [exact Hc|]. by intros [] s' ?. }
  destruct op as [sem|sem|sem|x e|pid|sem n|sem|sem v]; cbn [sem_exec sem_pre] in *.
  - by apply wait_kept.
  - destruct Hpre as [[v Hv] Hirq]. destruct (sem_range _ _ _ _ Hok Hv).
    destruct (Z.ltb_spec 0 v) as [Hpos|Hneg].
    + eapply (swp_wait_take others); [exact Hok|done..|]. intros m' Hm'.
      eapply (sem_kept_insert _ _ sem (v - 1)), sem_kept_refl.
      split_and!; try done. eapply sem_inv_count; [done|lia|lia|done].
    + assert (g_readytorun ∈ tasklists) as Hq by left. apply wp_bind, wp_onm. sstep. rewrite sched_eta.
      apply wp_bind, wp_gets. apply wp_bind, wp_assert.
      { rewrite Hirq, is_null_ne; [done|]. intros ->. by rewrite (sem_null _ _ _ Hinv) in Hv. }
      rewrite is_null_ne by (intros ->; by rewrite (sem_null _ _ _ Hinv) in Hv).
      apply wp_bind. eapply swp_getsem; [done|]. replace (0 <? v) with false by lia. by apply wp_ret.
  - destruct Hpre as [->|[v Hv]]; [by apply wp_ret|]. destruct (Z.ltb_spec v SEM_VALUE_MAX) as [Hlt|Hge].
    + destruct (post_inv s σ sem v Hok Hv Hlt) as [Hout Hinv1]. eapply swp_post; [done..|].
      intros m Hm. eapply wp_mono; [eapply sem_after; [exact Hout|done|exact Hinv1|exact Hm]|].
      intros [] s' Hk'. exact (sem_kept_insert _ _ sem (v + 1) _ Hk').
    + unfold nxsem_post. case_match; [by apply wp_ret|]. apply wp_bind. eapply swp_getsem; [done|].
      replace (SEM_VALUE_MAX <=? v) with true by lia. by apply wp_ret.
  - apply Hunit. by apply wait_irq_kept.
  - apply Hunit. by apply timeout_kept.
  - destruct Hpre as ([v Hv] & Hn & Hl). eapply swp_reset; [done..|].
    intros s' σ' (Hok' & _ & T & S & _). apply wp_bind. eapply wp_mono; [by apply unlock_kept|].
    intros r s2 Hs2. apply wp_ret. eapply sem_kept_insert. rewrite <- S. by eapply sem_kept_trans; [exact T|done|].
  - destruct Hpre as [->|[v Hv]]; [by apply wp_ret|]. unfold nxsem_destroy. case_match; [by apply wp_ret|].
    apply wp_bind. eapply swp_getsem; [done|]. apply Hunit.
    destruct (Z.leb_spec 0 v); unfold when; [|by apply wp_ret]. by eapply count_kept.
  - destruct Hpre as [H0 Hs]. unfold nxsem_init. destruct (negb (is_null sem) && (v <=? SEM_VALUE_MAX)) eqn:E.
    2: by apply wp_ret.
    apply andb_true_iff in E as [E1 E2%Z.leb_le]. destruct Hs as [->|[[w Hw] He]]; [done|]. apply Hunit.
    eapply count_kept; [done..| |lia]. destruct (sem_count _ _ _ Hinv _ _ Hw) as [_ Hc].
    fold (waiters sem σ) in Hc. rewrite He in Hc. simpl in Hc. lia.
Qed.
End Steps.

(** * Theorems *)

Section Elim.
Implicit Types (σ : sst) (x y sem : ptr) (s : semst) (m : tmem_t).

(** Every operation that may switch ends in [after]; this reads its outcome off. *)
Lemma sem_elim {B} others (c : M semst B) (k : M semst B) s b σ ρ σρ i :
  sem_env others -> outcome_ok σ ρ σρ -> pid_inv σ (g_pidhash (kdata i)) ->
  sem_inv (waitlist σρ.1) (wsem σρ.1) (semcount (kdata i)) ->
  (forall s' σ', sem_ok s' σ' -> same_tasks σ σ' -> wp k (fun _ _ => True) s') ->
  (forall Q : B -> semst -> Prop, after others b σρ i (fun _ s' => wp k Q s') -> wp c Q s) ->
  exists m, sem_ok (mksched m σρ.2 i) σρ.1 /\
    c s = ((if b && negb (in_irq i) then others else ret tt) ;; k) (mksched m σρ.2 i).
Proof.
  intros Henv Hout Hpid Hinv Hk Hc.
  assert (wp c (fun v s' => exists m, srep tasklists m σρ.1 /\
    ((if b && negb (in_irq i) then others else ret tt) ;; k) (mksched m σρ.2 i) = Some (v, s')) s) as Hw.
  { apply Hc. intros m Hm. pose proof (sem_after others Henv b σ ρ σρ i Hout Hpid Hinv m Hm) as Ha.
    apply wp_run in Ha as ([] & s1 & Hs1 & σ1 & Hok1 & T1 & _).
    apply wp_run. exists tt, s1. split; [done|]. pose proof (Hk s1 σ1 Hok1 T1) as Hk1.
    apply wp_run in Hk1 as (v & s2 & Hs2 & _). apply wp_run. exists v, s2. split; [done|].
    exists m. split; [done|]. unfold bind. by rewrite Hs1. }
  apply wp_run in Hw as (v & s' & Hcs & m & Hm & Hf). exists m. rewrite Hcs, <- Hf.
  split; [|done]. by apply (sem_ok_outcome m i σ ρ).
Qed.

Lemma sorted_hd_max pr l y : sorted_desc pr l -> y ∈ l -> pr y <= pr (hd_or NULL l).
Proof.
  intros Hs Hy. destruct l as [|x l]; [by apply not_elem_of_nil in Hy|].
  apply StronglySorted_inv in Hs as [_ Hf]. rewrite Forall_forall in Hf. simpl.
  apply elem_of_cons in Hy as [->|Hy]; [lia|auto].
Qed.

Lemma waiters_sorted σ sem : sinv σ -> sorted_desc (prio σ) (waiters sem σ).
Proof.
  intros Hi. pose proof (inv_sorted _ Hi TSTATE_WAIT_SEM eq_refl) as Hs. unfold waiters, waitlist.
  change (lists σ (TLIST_BLOCKED TSTATE_WAIT_SEM)) with (lists σ g_waitingforsemaphore) in Hs.
  induction Hs as [|x l Hs IH Hf]; unfold on_sem; [constructor|]. rewrite filter_cons.
  case_decide; [|done]. constructor; [done|]. rewrite Forall_forall in *. intros y [_ Hy]%list_elem_of_filter. auto.
Qed.

(** Where a woken task goes. *)
Lemma wake_placed x err σ ρ :
  sinv σ -> pinv σ -> x ∈ waitlist σ ->
  let σ' := (spec_wake x err σ ρ).2.1 in x ∈ ready σ' ++ pending σ'.
Proof.
  intros Hi Hp Hx. assert (is_blocked (state (woken x err σ) x) = true) as Hb.
  { rewrite woken_state. by apply (waiting_state _ _ Hi) in Hx as ->. }
  destruct (unblock_lists x (woken x err σ) ρ Hb) as [_ Hu]. cbv zeta. unfold spec_wake.
  apply elem_of_app. case_match; destruct Hu as (_ & H1 & H2).
  - right. rewrite H2. apply pinsert_elem. by left.
  - left. rewrite H1. apply pinsert_elem. by left.
Qed.

Lemma sleep_switches sem σ ρ : sinv σ -> (spec_sleep sem σ ρ).1 = true.
Proof.
  intros Hi. unfold spec_sleep, spec_block, spec_remove_readytorun.
  change (running (asleep sem σ)) with (running σ). rewrite bool_decide_eq_true_2 by done.
  by destruct (spec_merge_pending _).
Qed.
End Elim.

Lemma sem_reach_ok others s0 σ0 s :
  sem_env others -> sem_ok s0 σ0 -> sem_reach others s0 s -> exists σ, sem_ok s σ.
Proof.
  intros Henv H0 Hreach. destruct Hreach as [|s1 op σ v s' _ Hok Hpre Hex]; [by eexists|].
  pose proof (sem_step_ok others Henv s1 σ op Hok Hpre) as Hw. unfold wp in Hw. rewrite Hex in Hw.
  destruct Hw as (σ' & ? & _). by exists σ'.
Qed.

(** C9: Over any sequence of semaphore calls -- waits, posts, timeouts and
    signals, resets, initializations -- the scheduler invariant is kept, and a
    negative count is always the number of tasks that wait for the semaphore,
    so that no wake-up is lost and none invented; and every legal call
    succeeds without a failed assertion or an endless loop. *)
Theorem sem_invariant others s0 σ0 s :
  sem_env others -> sem_ok s0 σ0 -> sem_reach others s0 s ->
  exists σ, sched_ok s σ /\
    (forall sem v, sems s !! sem = Some v -> Z.of_nat (length (waiters sem σ)) = Z.max 0 (- v)) /\
    (forall x, state σ x = TSTATE_WAIT_SEM -> is_Some (sems s !! attr waitsem NULL σ x)) /\
    forall op, sem_pre s σ op -> exists v s', sem_exec others op s = Some (v, s').
Proof.
  intros Henv H0 Hreach. destruct (sem_reach_ok _ _ _ _ Henv H0 Hreach) as [σ Hok].
  pose proof Hok as (Hs & Hinv & _). exists σ. split_and!; [done| | |].
  - intros sem v Hv. by apply (sem_count _ _ _ Hinv).
  - intros x Hx%waiting_state; [|apply Hs]. by apply (sem_waits _ _ _ Hinv).
  - intros op Hpre. pose proof (sem_step_ok others Henv s σ op Hok Hpre) as Hw.
    apply wp_run in Hw as (v & s' & ? & _). eauto.
Qed.

(** C12: Posting a semaphore: at the maximum it fails with [-EOVERFLOW] and
    changes nothing; otherwise the count grows by one and, if tasks wait, the
    first one of the highest priority among them -- and only that one -- stops
    waiting and is ready or pending; nothing else changes. *)
Theorem sem_post_spec others s σ sem v :
  sem_env others -> sem_ok s σ -> sems s !! sem = Some v ->
  if SEM_VALUE_MAX <=? v then nxsem_post others sem s = Some (- EOVERFLOW, s)
  else exists s1 σ' b, nxsem_post others sem s = finish others b OK s1 /\ sem_ok s1 σ' /\
    sems s1 = <[sem := v + 1]> (sems s) /\
    (forall t, context σ' (cpu_regs s1) t = context σ (cpu_regs s) t) /\
    if v <? 0 then
      exists x, waiters sem σ = x :: waiters sem σ' /\ x ∈ ready σ' ++ pending σ' /\
        (forall y, y ∈ waiters sem σ -> prio σ y <= prio σ x) /\
        waitlist σ' = lremove x (waitlist σ)
    else b = false /\ σ' = σ.
Proof.
  intros Henv Hok Hv. pose proof Hok as ((Hr & Hi & Hp) & Hinv & Hpid).
  assert (sem <> NULL) as Hn by (intros ->; by rewrite (sem_null _ _ _ Hinv) in Hv).
  destruct (Z.leb_spec SEM_VALUE_MAX v) as [Hge|Hlt].
  - unfold nxsem_post, get_semcount, getso, bind. rewrite is_null_ne, Hv by done.
    by replace (SEM_VALUE_MAX <=? v) with true by lia.
  - destruct (post_inv s σ sem v Hok Hv Hlt) as [Hout Hinv1].
    set (i := set_sems (<[sem := v + 1]> (sems s)) (env s)).
    destruct (sem_elim others (nxsem_post others sem) (ret OK) s (spec_post sem v σ (cpu_regs s)).1 σ (cpu_regs s)
      (spec_post sem v σ (cpu_regs s)).2 i Henv Hout Hpid Hinv1) as (m & Hok1 & Hc).
    { intros. done. }
    { intros Q HQ. eapply swp_post; [done..|]. intros m Hm. eapply wp_mono; [exact (HQ m Hm)|]. by intros. }
    eexists _, _, _. split; [exact Hc|]. split; [exact Hok1|]. split; [done|]. split; [apply Hout|].
    unfold spec_post. destruct (Z.ltb_spec v 0) as [Hneg|]; [|done].
    pose proof (waiters_ne _ _ _ _ Hok Hv Hneg) as Hne. destruct (hd_waiter _ _ Hne) as [Hx Hw].
    set (x := hd_or NULL (waiters sem σ)) in *. exists x. split_and!.
    + rewrite wake_waiters by done. unfold x. rewrite lremove_hd by auto using waiters_nodup.
      by destruct (waiters sem σ).
    + by apply wake_placed.
    + intros y Hy. by apply sorted_hd_max; [apply waiters_sorted|].
    + by apply wake_lists.
Qed.

(** C13: Waiting in a thread: a positive count is decremented and the call
    returns at once; otherwise the count is decremented all the same, the
    running task joins the waiting list in priority order, naming the
    semaphore, the CPU goes to the first ready task, and when the thread runs
    again the call returns what the waker left. *)
Theorem sem_wait_spec others s σ sem v :
  sem_env others -> sem_ok s σ -> intr s = false -> user_task σ (running σ) -> sems s !! sem = Some v ->
  if 0 <? v then exists s', nxsem_wait others sem s = Some (OK, s') /\ sem_ok s' σ /\
    sems s' = <[sem := v - 1]> (sems s) /\ cpu_regs s' = cpu_regs s
  else exists s1 σ', nxsem_wait others sem s = (others ;; wait_result (running σ)) s1 /\ sem_ok s1 σ' /\
    sems s1 = <[sem := v - 1]> (sems s) /\
    waitlist σ' = pinsert (prio σ) (running σ) (waitlist σ) /\ attr waitsem NULL σ' (running σ) = sem /\
    ready σ' = pmerge (prio σ) (pending σ) (lremove (running σ) (ready σ)) /\ pending σ' = [] /\
    (forall t, context σ' (cpu_regs s1) t = context σ (cpu_regs s) t).
Proof.
  intros Henv Hok Hirq Hu Hv. pose proof Hok as ((Hr & Hi & Hp) & Hinv & Hpid).
  destruct (sem_range _ _ _ _ Hok Hv). destruct (Z.ltb_spec 0 v) as [Hpos|Hneg].
  - assert (wp (nxsem_wait others sem) (fun r s' => r = OK /\ sem_ok s' σ /\
      sems s' = <[sem := v - 1]> (sems s) /\ cpu_regs s' = cpu_regs s) s) as Hw.
    { eapply swp_wait_take; [done..|]. intros m' Hm'. split_and!; try done. split_and!; try done.
      eapply sem_inv_count; [done|lia|lia|done]. }
    apply wp_run in Hw as (r & s' & Hs & -> & ? & ? & ?). by exists s'.
  - destruct (sleep_inv s σ sem v Hok Hu Hv Hneg) as [Hout Hinv1].
    set (i := set_sems (<[sem := v - 1]> (sems s)) (env s)).
    destruct (sem_elim others (nxsem_wait others sem) (wait_result (running σ)) s true σ (cpu_regs s)
      (spec_sleep sem σ (cpu_regs s)).2 i Henv Hout Hpid Hinv1) as (m & Hok1 & Hc).
    { intros s' σ' ((Hr' & _) & _) T. apply wp_bind, wp_onm.
      eapply swp_node; [done|by apply T, running_exists|]. intros n _. by apply wp_ret. }
    { intros Q HQ. eapply swp_wait_sleep; [done..| |by eapply sem_low]. by rewrite sleep_switches. }
    eexists _, _. change (in_irq i) with (intr s) in Hc. rewrite Hirq in Hc. split; [exact Hc|].
    split; [exact Hok1|]. split; [done|].
    destruct (sleep_lists sem σ (cpu_regs s) Hi Hu) as (Hl & Hw & Hrd & Hpd).
    split; [done|]. split; [by rewrite Hw, decide_True|]. split; [done|]. split; [done|]. apply Hout.
Qed.

(** A timeout or a signal ends a wait: the count that the wait had taken
    is given back, the task leaves the waiting list with the error code for
    [nxsem_wait] to return and is ready or pending, and the other waiters
    stay; a task that does not wait for a semaphore is left alone. *)
Theorem sem_wait_irq_spec others s σ x err :
  sem_env others -> sem_ok s σ -> is_Some (attrs σ !! x) -> - 32768 <= err < 32768 ->
  if decide (state σ x = TSTATE_WAIT_SEM) then
    exists s1 σ' b v, nxsem_wait_irq others x err s = finish others b tt s1 /\ sem_ok s1 σ' /\
      sems s !! attr waitsem NULL σ x = Some v /\
      sems s1 = <[attr waitsem NULL σ x := v + 1]> (sems s) /\
      attr errcode 0 σ' x = err /\ x ∈ ready σ' ++ pending σ' /\
      waitlist σ' = lremove x (waitlist σ) /\
      (forall y, y <> x -> attr waitsem NULL σ' y = attr waitsem NULL σ y) /\
      (forall t, context σ' (cpu_regs s1) t = context σ (cpu_regs s) t)
  else nxsem_wait_irq others x err s = Some (tt, s).
Proof.
  intros Henv Hok Hx Herr. pose proof Hok as ((Hr & Hi & Hp) & Hinv & Hpid). case_decide as Hs.
  - apply (waiting_state _ _ Hi) in Hs as Hw. destruct (sem_waits _ _ _ Hinv x Hw) as [v Hv].
    destruct (wake_inv s σ x (Some (s16 err)) v (cpu_regs s) Hok Hw Hv) as [Hout Hinv1].
    set (i := set_sems (<[wsem σ x := v + 1]> (sems s)) (env s)).
    set (r := spec_wake x (Some (s16 err)) σ (cpu_regs s)) in *.
    destruct (sem_elim others (nxsem_wait_irq others x err) (ret tt) s r.1 σ (cpu_regs s) r.2 i
      Henv Hout Hpid Hinv1) as (m & Hok1 & Hc).
    { intros. done. }
    { intros Q HQ. eapply swp_wait_irq; [done..| |done]. intros v' _ Hv'. rewrite Hv' in Hv. simplify_eq.
      intros m Hm. eapply wp_mono; [exact (HQ m Hm)|]. by intros [] ? ?. }
    eexists _, _, _, v. split; [exact Hc|]. split; [exact Hok1|]. split; [done|]. split; [done|].
    destruct (wake_lists x (Some (s16 err)) σ (cpu_regs s) Hi Hw) as [Hl Hws].
    split_and!; [|by apply wake_placed|done| |apply Hout].
    + unfold r, spec_wake. rewrite unblock_soft by apply _. unfold woken.
      rewrite attr_upd_eq by by apply upd_attr_is_Some. rewrite wraps_small by lia.
      apply (attr_const err). by apply upd_attr_is_Some.
    + intros y Hy. by rewrite Hws, decide_False.
  - assert (wp (nxsem_wait_irq others x err) (fun v s' => v = tt /\ s' = s) s) as Hwp.
    { eapply swp_wait_irq; [done..| |done]. intros v Hw _. by apply (waiting_state _ _ Hi) in Hw. }
    by apply wp_run in Hwp as (v & s' & Hs' & -> & ->).
Qed.

(** Resetting a semaphore to [count]: the [count] first waiters by
    priority are released -- all of them if there are no more -- the others
    go on waiting, and the new value is [count] minus the number of tasks that
    waited, before the preemption lock is released and other threads run. *)
Theorem sem_reset_spec others s σ sem v count :
  sem_env others -> sem_ok s σ -> sems s !! sem = Some v -> 0 <= count <= SEM_VALUE_MAX ->
  lock σ (running σ) < MAX_LOCK_COUNT ->
  exists s1 σ1, nxsem_reset others sem count s = (sched_unlock others ;; ret OK) s1 /\ sem_ok s1 σ1 /\
    sems s1 = <[sem := count - Z.of_nat (length (waiters sem σ))]> (sems s) /\
    waiters sem σ1 = drop (Z.to_nat count) (waiters sem σ) /\
    (forall t, context σ1 (cpu_regs s1) t = context σ (cpu_regs s) t).
Proof.
  intros Henv Hok Hv Hc Hl.
  assert (wp (nxsem_reset others sem count) (fun r s' => exists s1 σ1, reset_done s σ sem count s1 σ1 /\
    (sched_unlock others ;; ret OK) s1 = Some (r, s')) s) as Hw.
  { eapply swp_reset; [done..|]. intros s1 σ1 Hd. pose proof (unlock_kept others Henv s1 σ1 (proj1 Hd)) as Hu.
    apply wp_run in Hu as (r & s2 & Hs2 & _). apply wp_run. exists OK, s2.
    assert ((sched_unlock others ;; ret OK) s1 = Some (OK, s2)) as E by (unfold bind; by rewrite Hs2).
    split; [done|]. by exists s1, σ1. }
  apply wp_run in Hw as (r & s' & Hs' & s1 & σ1 & (? & _ & _ & ? & ? & ?) & E). exists s1, σ1.
  rewrite Hs', E. by split_and!.
Qed.

(** [nxsem_get_value] reports the number of waiting tasks, negated, while
    tasks wait; a semaphore initialized with a value up to [SEM_VALUE_MAX]
    reports it back; a destroyed one has the value 1 unless tasks wait. *)
Theorem sem_value_spec s σ sem v sval :
  sem_ok s σ -> sems s !! sem = Some v -> sval <> NULL ->
  nxsem_get_value sem sval s = Some ((OK, Some v), s) /\
  (waiters sem σ <> [] -> v = - Z.of_nat (length (waiters sem σ))) /\
  (forall n, 0 <= n <= SEM_VALUE_MAX ->
     (nxsem_init sem 0 n ;; nxsem_get_value sem sval) s = Some ((OK, Some n),
        mksched (tmem s) (cpu_regs s) (set_sems (<[sem := n]> (sems s)) (env s)))) /\
  wp (nxsem_destroy sem ;; nxsem_get_value sem sval)
     (fun r _ => r = (OK, Some (if 0 <=? v then 1 else v))) s.
Proof.
  intros Hok Hv Hsv. pose proof Hok as (_ & Hinv & _).
  assert (sem <> NULL) as Hn by (intros ->; by rewrite (sem_null _ _ _ Hinv) in Hv).
  assert (forall s' w, sems s' !! sem = Some w -> nxsem_get_value sem sval s' = Some ((OK, Some w), s')) as Hget.
  { intros s' w Hw. unfold nxsem_get_value. rewrite !is_null_ne by done. cbn [negb andb].
    unfold get_semcount, getso, bind. by rewrite Hw. }
  split_and!; [by apply Hget| | |].
  - intros Hne. destruct (sem_count _ _ _ Hinv _ _ Hv) as [_ Hc]. fold (waiters sem σ) in Hc.
    destruct (waiters sem σ); [done|]. simpl in *. lia.
  - intros n Hn'. unfold nxsem_init. rewrite is_null_ne by done. replace (n <=? SEM_VALUE_MAX) with true by lia.
    cbn [negb andb]. unfold put_semcount, get_semcount, getso, modify, bind at 1. unfold bind at 1, bind at 1. rewrite Hv.
    rewrite s16_count by (unfold CONFIG_MAX_TASKS; lia). cbn [ret]. apply Hget. by rewrite sems_set, lookup_insert_eq.
  - apply wp_bind. unfold nxsem_destroy. rewrite is_null_ne by done. apply wp_bind.
    eapply swp_getsem; [done|]. apply wp_bind. destruct (0 <=? v); unfold when.
    + eapply swp_putsem; [done|]. apply wp_ret, wp_run. eexists _, _. split; [|done].
      apply Hget. by rewrite sems_set, lookup_insert_eq.
    + apply wp_ret, wp_ret, wp_run. eexists _, _. split; [by apply Hget|done].
Qed.

(** A failed POSIX call: it returns [ERROR], sets [errno] of the running
    task and changes nothing else. *)
Definition fails_with (c : M semst Z) (s : semst) (σ : sst) (e : Z) : Prop :=
  let k := kdata (env s) in
  c s = Some (ERROR, mksched (tmem s) (cpu_regs s)
    (mkenv (intr s) (mksemk (semcount k) (<[running σ := e]> (errnos k)) (g_pidhash k)))).

Lemma posix_fails (c : M semst Z) s σ e (k : Z -> M semst Z) :
  sem_ok s σ -> 0 < e -> c s = Some (- e, s) ->
  fails_with (r <- c ;; if r <? 0 then set_errno (- r) ;; ret ERROR else k r) s σ e.
Proof.
  intros ((Hr & Hi & _) & _) He Hc. unfold fails_with. cbv zeta. unfold bind at 1. rewrite Hc.
  replace (- e <? 0) with true by lia. rewrite Z.opp_involutive.
  assert (onm this_task s = Some (running σ, s)) as Hrun.
  { unfold onm. assert (wp this_task (fun r m => r = running σ /\ m = tmem s) (tmem s)) as Hw
      by (eapply swp_this_task; [done|by left|done]).
    apply wp_run in Hw as (r & m & -> & -> & ->). by destruct s. }
  unfold set_errno, bind. by rewrite Hrun.
Qed.


(** Recovering from the deletion of a task: if it waits for a semaphore
    the count that its wait had taken is given back, so that the count fits
    the remaining waiters; otherwise nothing happens. *)
Theorem sem_recover_spec s σ x :
  sem_ok s σ -> is_Some (attrs σ !! x) ->
  wp (nxsem_recover x) (fun _ s' =>
    exists σ', srep tasklists (tmem s') σ' /\ sinv σ' /\ lists σ' = lists σ /\ attr waitsem NULL σ' x = NULL /\
    forall sem v, sems s' !! sem = Some v ->
      Z.of_nat (length (lremove x (waiters sem σ))) = Z.max 0 (- v)) s.
Proof.
  intros Hok Hx. pose proof Hok as ((Hr & Hi & Hp) & Hinv & _).
  unfold nxsem_recover. apply wp_bind, wp_onm. eapply swp_node; [done..|]. intros n Hn. rewrite sched_eta.
  rewrite (attr_of_state _ _ _ Hn), (attr_of_waitsem _ _ _ Hn). clear n Hn. case_decide as Hs.
  - apply (waiting_state _ _ Hi) in Hs as Hw. destruct (sem_waits _ _ _ Hinv x Hw) as [v Hv].
    assert (NoDup (waitlist σ)) as Hnd by (apply inv_nodup; [done|]; unfold tasklists; set_solver).
    destruct (sem_inv_wake (waitlist σ) (wsem σ) (fun y => if decide (y = x) then NULL else wsem σ y)
      (sems s) x _ v Hnd Hw eq_refl Hv (fun _ => eq_refl) Hinv) as [Hneg Hinv1].
    assert (wsem σ x <> NULL) as Hnn by (intros E; rewrite E in Hv; by rewrite (sem_null _ _ _ Hinv) in Hv).
    pose proof (sem_range _ _ _ _ Hok Hv).
    cbv zeta. apply wp_bind. eapply swp_getsem; [done|]. apply wp_bind, wp_assert.
    { rewrite is_null_ne by done. cbn [negb andb]. lia. }
    apply wp_bind. eapply swp_putsem; [done|]. rewrite s16_count by (unfold SEM_VALUE_MAX in *; lia).
    apply wp_onm. cbn [tmem]. sstep. eexists. split; [exact Hr0|]. split; [by apply sinv_soft; [apply _|]|].
    split; [done|]. split; [by rewrite wsem_set, decide_True|]. intros sem w Hsem.
    destruct (sem_count _ _ _ Hinv1 sem w Hsem) as [_ <-]. unfold waiters. rewrite <- on_sem_lremove. f_equal.
    f_equal. apply on_sem_ext. intros y [Hy _]%lremove_elem. by rewrite decide_False.
  - apply wp_ret. assert (x ∉ waitlist σ) as Hw by by intros ?%waiting_state. exists σ. split_and!; try done.
    { by apply (sem_free _ _ _ Hinv). }
    intros sem v Hv. rewrite lremove_notin; [by apply (sem_count _ _ _ Hinv)|]. by intros [_ ?]%on_sem_elem.
Qed.

(** * Concrete instances *)

(** The tasks of [ex_sched]; task 300, with process identifier 3, waits for
    the semaphore at 500. *)
Definition exs_mem : tmem_t := mkqmem
  (<[300 := set_waitsem 500 (ex_tcb 0 0 80 TSTATE_WAIT_SEM 20 33)]> (nodes ex_tmem)) (queues ex_tmem).
Definition exs_pids : gmap Z pidhash_s :=
  list_to_map ((fun n => (Z.of_nat n, if (n =? 3)%nat then mkpidhash 300 3 else mkpidhash NULL (-1))) <$> seq 0 16).
Definition exs_sems : gmap ptr Z := {[ 500 := -1; 600 := 3; 700 := SEM_VALUE_MAX ]}.
Definition exs : semst := mksched exs_mem 7 (mkenv false (mksemk exs_sems ∅ exs_pids)).
Definition exs_sst : sst := upd_attr 300 (set_waitsem 500) ex_sst.

Lemma exs_wsem x : attr waitsem NULL exs_sst x = if decide (x = 300) then 500 else NULL.
Proof.
  unfold exs_sst. rewrite wsem_set by by eexists. case_decide; [done|].
  destruct (ex_attrs x) as [[->|[->|[->| ->]]]|Hn]; [done..|]. unfold attr. by rewrite Hn.
Qed.

Lemma exs_sem_cases sem v : exs_sems !! sem = Some v ->
  sem = 500 /\ v = -1 \/ sem = 600 /\ v = 3 \/ sem = 700 /\ v = SEM_VALUE_MAX.
Proof.
  unfold exs_sems. intros [[<- <-]|[_ [[<- <-]|[_ [<- <-]%lookup_singleton_Some]]%lookup_insert_Some]]%lookup_insert_Some;
    auto.
Qed.

Lemma exs_ok : sem_ok exs exs_sst.
Proof.
  pose proof ex_ok as (Hr & Hi & Hp). split; [split; [|split]|split; [split|split]].
  - by apply (srep_upd tasklists ex_tmem ex_sst 300 _ (set_waitsem 500)).
  - by apply sinv_soft; [apply _|].
  - by intros [].
  - by vm_compute.
  - intros sem v [[-> ->]|[[-> ->]|[-> ->]]]%exs_sem_cases; vm_compute; intuition discriminate.
  - intros x Hx. change (x ∈ [300]) in Hx. apply list_elem_of_singleton in Hx as ->. by exists (-1).
  - intros x Hx. rewrite exs_wsem, decide_False; [done|]. intros ->. apply Hx. left.
  - by vm_compute.
  - intros n Hn. assert (exists k, n = Z.of_nat k /\ (k < 16)%nat) as (k & -> & Hk).
    { exists (Z.to_nat n). unfold CONFIG_MAX_TASKS in Hn. lia. }
    exists (if (k =? 3)%nat then mkpidhash 300 3 else mkpidhash NULL (-1)).
    do 16 (destruct k as [|k]; [split; [reflexivity|vm_compute; eauto]|]). lia.
Qed.

Lemma exs_env : sem_env (ret tt).
Proof. intros s σ Hok. apply wp_ret. by apply sem_kept_refl. Qed.

Lemma exs_user : user_task exs_sst (running exs_sst).
Proof. split; [by eexists|done]. Qed.

Definition exs_after : semst :=
  match sem_exec (ret tt) (SemPost 500) exs with Some (_, s) => s | None => exs end.

Lemma exs_reach : sem_reach (ret tt) exs exs_after.
Proof.
  apply (sreach_step _ _ exs (SemPost 500) exs_sst OK); [apply sreach_init|exact exs_ok| |by vm_compute].
  right. by eexists.
Qed.

Lemma sem_invariant_witness :
  exists σ, sched_ok exs_after σ /\
    forall sem v, sems exs_after !! sem = Some v -> Z.of_nat (length (waiters sem σ)) = Z.max 0 (- v).
Proof.
  destruct (sem_invariant (ret tt) exs exs_sst exs_after exs_env exs_ok exs_reach) as (σ & Hs & Hc & _).
  exists σ. split; [exact Hs|exact Hc].
Defined.

Lemma sem_post_spec_witness :
  nxsem_post (ret tt) 700 exs = Some (- EOVERFLOW, exs) /\
  exists s1 σ' b, nxsem_post (ret tt) 500 exs = finish (ret tt) b OK s1 /\
    sems s1 = <[500 := 0]> exs_sems /\ exists x, [300] = x :: waiters 500 σ'.
Proof.
  split; [exact (sem_post_spec (ret tt) exs exs_sst 700 SEM_VALUE_MAX exs_env exs_ok eq_refl)|].
  destruct (sem_post_spec (ret tt) exs exs_sst 500 (-1) exs_env exs_ok eq_refl)
    as (s1 & σ' & b & Hc & _ & Hs & _ & x & Hx & _).
  exists s1, σ', b. split; [exact Hc|]. split; [exact Hs|]. exists x. exact Hx.
Defined.

Lemma sem_wait_spec_witness :
  (exists s', nxsem_wait (ret tt) 600 exs = Some (OK, s') /\ sems s' = <[600 := 2]> exs_sems) /\
  exists s1 σ', nxsem_wait (ret tt) 500 exs = (ret tt ;; wait_result 200) s1 /\
    waitlist σ' = [300; 200] /\ ready σ' = [400; 100].
Proof.
  split.
  - destruct (sem_wait_spec (ret tt) exs exs_sst 600 3 exs_env exs_ok eq_refl exs_user eq_refl)
      as (s' & Hc & _ & Hs & _). exists s'. split; [exact Hc|exact Hs].
  - destruct (sem_wait_spec (ret tt) exs exs_sst 500 (-1) exs_env exs_ok eq_refl exs_user eq_refl)
      as (s1 & σ' & Hc & _ & _ & Hw & _ & Hr & _). exists s1, σ'. split; [exact Hc|]. split; [exact Hw|exact Hr].
Defined.

Lemma sem_wait_irq_spec_witness :
  exists s1 σ' b, nxsem_wait_irq (ret tt) 300 ETIMEDOUT exs = finish (ret tt) b tt s1 /\
    attr errcode 0 σ' 300 = ETIMEDOUT /\ waitlist σ' = [].
Proof.
  destruct (sem_wait_irq_spec (ret tt) exs exs_sst 300 ETIMEDOUT exs_env exs_ok ltac:(eexists; reflexivity)
    ltac:(split; [discriminate|reflexivity])) as (s1 & σ' & b & v & Hc & _ & _ & _ & He & _ & Hw & _).
  exists s1, σ', b. split; [exact Hc|]. split; [exact He|exact Hw].
Defined.

Lemma sem_reset_spec_witness :
  exists s1 σ1, nxsem_reset (ret tt) 500 5 exs = (sched_unlock (ret tt) ;; ret OK) s1 /\
    sems s1 = <[500 := 4]> exs_sems /\ waiters 500 σ1 = [].
Proof.
  destruct (sem_reset_spec (ret tt) exs exs_sst 500 (-1) 5 exs_env exs_ok eq_refl
    ltac:(split; discriminate) eq_refl) as (s1 & σ1 & Hc & _ & Hs & Hw & _).
  exists s1, σ1. split; [exact Hc|]. split; [exact Hs|exact Hw].
Defined.

Lemma sem_value_spec_witness :
  nxsem_get_value 500 900 exs = Some ((OK, Some (-1)), exs) /\
  wp (nxsem_destroy 500 ;; nxsem_get_value 500 900) (fun r _ => r = (OK, Some (-1))) exs.
Proof.
  destruct (sem_value_spec exs exs_sst 500 (-1) 900 exs_ok eq_refl ltac:(discriminate)) as (Hg & _ & _ & Hd).
  split; [exact Hg|exact Hd].
Defined.


Lemma sem_recover_spec_witness :
  wp (nxsem_recover 300) (fun _ s' => exists σ', attr waitsem NULL σ' 300 = NULL) exs.
Proof.
  eapply wp_mono; [exact (sem_recover_spec exs exs_sst 300 exs_ok ltac:(eexists; reflexivity))|].
  intros [] s' (σ' & _ & _ & _ & Hw & _). exists σ'. exact Hw.
Defined.
