(* ===== verification/Calendar.v ===== *)
(** Calendar: calendar time (libs/libc/time, without CONFIG_GREGORIAN_TIME)
    and the system clock (sched/clock).  [time_t] is a 32-bit unsigned count
    of seconds since 1970; [int] arithmetic is that of the mathematical
    integers, which stay in range on the dates considered. *)

From stdpp Require Import options.
From S2P Require Import Prelude.

#[local] Open Scope stdpp_scope.
#[local] Open Scope Z_scope.
#[local] Ltac Zify.zify_post_hook ::= Z.to_euclidean_division_equations.

(** * Conversions between days and dates *)

Definition g_daysbeforemonth : list Z := [0; 31; 59; 90; 120; 151; 181; 212; 243; 273; 304; 334; 365].

Definition clock_isleapyear (year : Z) : bool :=
  if Z.rem year 400 =? 0 then true
  else if Z.rem year 100 =? 0 then false
  else Z.rem year 4 =? 0.

(** Undefined outside of the table. *)
Definition clock_daysbeforemonth (month : Z) (leapyear : bool) : option Z :=
  if month <? 0 then None
  else retval ← g_daysbeforemonth !! Z.to_nat month;
       Some (if (2 <=? month) && leapyear then retval + 1 else retval).

Definition clock_calendar2utc (year month day : Z) : option Z :=
  let days := u32 ((year - 1970) * 365) in
  let days := u32 (days + Z.shiftr (year - 1969) 2) in
  before ← clock_daysbeforemonth month (clock_isleapyear year);
  let days := u32 (days + before) in
  Some (u32 (days + (day - 1))).

Definition year_days (year : Z) : Z := if clock_isleapyear year then 366 else 365.

(** The first loop of [clock_utc2calendar]: the year, counted from 1970. *)
Fixpoint utc_year (fuel : nat) (value days : Z) : option (Z * Z) :=
  match fuel with
  | O => None
  | S fuel =>
      let tmp := year_days (value + 1970) in
      if tmp <=? days then utc_year fuel (value + 1) (u32 (days - tmp)) else Some (value, days)
  end.

(** The second loop: a binary search for the month. *)
Fixpoint utc_month (fuel : nat) (leapyear : bool) (days min max : Z) : option Z :=
  match fuel with
  | O => None
  | S fuel =>
      let value := Z.shiftr (min + max) 1 in
      tmp ← clock_daysbeforemonth (value + 1) leapyear;
      if days <? tmp then
        tmp ← clock_daysbeforemonth value leapyear;
        if days <? tmp then
          let max := value - 1 in
          if min <? max then utc_month fuel leapyear days min max else Some min
        else Some value
      else
        let min := value + 1 in
        if min <? max then utc_month fuel leapyear days min max else Some min
  end.

Definition clock_utc2calendar (days : Z) : option (Z * Z * Z) :=
  let value := days / (4 * 365 + 1) in
  let days := u32 (days - value * (4 * 365 + 1)) in
  let value := Z.shiftl value 2 in
  '(value, days) ← utc_year 5 value days;
  let year := 1970 + value in
  let leapyear := clock_isleapyear year in
  value ← utc_month 12 leapyear days 0 11;
  before ← clock_daysbeforemonth value leapyear;
  let days := u32 (days - before) in
  Some (year, value + 1, days + 1).

Definition clock_dayoftheweek (mday month year : Z) : Z :=
  let '(year, month) := if month <=? 2 then (year - 1, month + 12) else (year, month) in
  let month := month - 2 in
  Z.rem (mday + year + Z.quot year 4 - Z.quot year 100 + Z.quot year 400 + Z.quot (31 * month) 12) 7.

(** * Broken-down time *)

Record tm := mktm {
  tm_sec : Z; tm_min : Z; tm_hour : Z; tm_mday : Z; tm_mon : Z; tm_year : Z;
  tm_wday : Z; tm_yday : Z; tm_isdst : Z
}.

Definition SEC_PER_MIN : Z := 60.
Definition SEC_PER_HOUR : Z := 3600.
Definition SEC_PER_DAY : Z := 86400.

Definition gmtime_r (timer : Z) : option tm :=
  let epoch := timer in
  let jdn := epoch / SEC_PER_DAY in
  let epoch := u32 (epoch - SEC_PER_DAY * jdn) in
  let hour := epoch / SEC_PER_HOUR in
  let epoch := u32 (epoch - SEC_PER_HOUR * hour) in
  let min := epoch / SEC_PER_MIN in
  let epoch := u32 (epoch - SEC_PER_MIN * min) in
  let sec := epoch in
  '(year, month, day) ← clock_utc2calendar jdn;
  before ← clock_daysbeforemonth (month - 1) (clock_isleapyear year);
  Some (mktm sec min hour day (month - 1) (year - 1900) (clock_dayoftheweek day month year)
          (day + before) 0).

Definition mktime (tp : tm) : option Z :=
  jdn ← clock_calendar2utc (tm_year tp + 1900) (tm_mon tp) (tm_mday tp);
  Some (u32 (u32 (u32 (jdn * 24 + tm_hour tp) * 60 + tm_min tp) * 60 + tm_sec tp)).

(** * The system clock *)

Record timespec := mkts { tv_sec : Z; tv_nsec : Z }.

Definition NSEC_PER_SEC : Z := 1000000000.
Definition NSEC_PER_MSEC : Z := 1000000.
Definition MSEC_PER_SEC : Z := 1000.
Definition USEC_PER_TICK : Z := 10000.
Definition NSEC_PER_TICK : Z := USEC_PER_TICK * 1000.
Definition TICK_PER_SEC : Z := 1000000 / USEC_PER_TICK.
Definition TICK2MSEC (tick : Z) : Z := tick * (USEC_PER_TICK / 1000).

Definition clock_timespec_add (ts1 ts2 : timespec) : timespec :=
  let sec := u32 (tv_sec ts1 + tv_sec ts2) in
  let nsec := tv_nsec ts1 + tv_nsec ts2 in
  if NSEC_PER_SEC <=? nsec then mkts (u32 (sec + 1)) (nsec - NSEC_PER_SEC) else mkts sec nsec.

Definition clock_timespec_subtract (ts1 ts2 : timespec) : timespec :=
  if tv_sec ts1 <? tv_sec ts2 then mkts 0 0
  else if (tv_sec ts1 =? tv_sec ts2) && (tv_nsec ts1 <=? tv_nsec ts2) then mkts 0 0
  else
    let sec := u32 (tv_sec ts1 - tv_sec ts2) in
    if tv_nsec ts1 <? tv_nsec ts2
    then mkts (u32 (sec - 1)) (tv_nsec ts1 + NSEC_PER_SEC - tv_nsec ts2)
    else mkts sec (tv_nsec ts1 - tv_nsec ts2).

(** [sclock_t] is a signed 32-bit type; the division is that of [int64_t]. *)
Definition clock_time2ticks (reltime : timespec) : Z :=
  let relnsec := tv_sec reltime * NSEC_PER_SEC + tv_nsec reltime in
  s32 (Z.quot (relnsec + NSEC_PER_TICK - 1) NSEC_PER_TICK).

Definition clock_ticks2time (ticks : Z) : timespec :=
  let sec := u32 (Z.quot ticks TICK_PER_SEC) in
  let remainder := s32 (ticks - TICK_PER_SEC * sec) in
  mkts sec (remainder * NSEC_PER_TICK).

Definition clock_timespec_compare (a b : timespec) : Z :=
  if tv_sec a <? tv_sec b then -1
  else if tv_sec b <? tv_sec a then 1
  else tv_nsec a - tv_nsec b.

(** The state of the clock: the tick counter, the time at tick 0 and the
    [errno] of the caller. *)
Record clockst := mkclock { g_system_timer : Z; g_basetime : timespec; clock_errno : Z }.

Definition CLOCK_REALTIME : Z := 0.

Definition clock_systime_ticks (s : clockst) : Z := g_system_timer s.

Definition clock_timer (s : clockst) : clockst :=
  mkclock (u32 (g_system_timer s + 1)) (g_basetime s) (clock_errno s).

Definition clock_systime_timespec (s : clockst) : timespec :=
  let msecs := TICK2MSEC (clock_systime_ticks s) in
  let secs := msecs / MSEC_PER_SEC in
  let nsecs := (msecs - secs * MSEC_PER_SEC) * NSEC_PER_MSEC in
  mkts (u32 secs) nsecs.

Definition clock_gettime (clock_id : Z) (s : clockst) : (Z * option timespec) * clockst :=
  if clock_id =? CLOCK_REALTIME then
    let ts := clock_systime_timespec s in
    let sec := u32 (tv_sec ts + u32 (tv_sec (g_basetime s))) in
    let nsec := s32 (tv_nsec ts + u32 (tv_nsec (g_basetime s))) in
    let '(sec, nsec) :=
      if NSEC_PER_SEC <=? nsec then
        let carry := Z.quot nsec NSEC_PER_SEC in
        (u32 (sec + carry), nsec - carry * NSEC_PER_SEC)
      else (sec, nsec) in
    ((OK, Some (mkts sec nsec)), s)
  else ((-1, None), mkclock (g_system_timer s) (g_basetime s) EINVAL).

Definition clock_settime (clock_id : Z) (tp : timespec) (s : clockst) : Z * clockst :=
  if clock_id =? CLOCK_REALTIME then
    let bias := clock_systime_timespec s in
    let base := tp in
    let base := if tv_nsec base <? tv_nsec bias
                then mkts (u32 (tv_sec base - 1)) (tv_nsec base + NSEC_PER_SEC) else base in
    let base := mkts (u32 (tv_sec base - tv_sec bias)) (tv_nsec base - tv_nsec bias) in
    (OK, mkclock (g_system_timer s) base (clock_errno s))
  else (-1, mkclock (g_system_timer s) (g_basetime s) EINVAL).

(** The ticks until [abstime], or -1 if it has passed. *)
Definition clock_abstime2ticks (clockid : Z) (abstime : timespec) (s : clockst) : (Z * option Z) * clockst :=
  match clock_gettime clockid s with
  | ((_, Some currtime), s) =>
      if clock_timespec_compare abstime currtime <? 0 then ((OK, Some (-1)), s)
      else
        let nsec := tv_nsec abstime - tv_nsec currtime in
        let sec := u32 (tv_sec abstime - tv_sec currtime) in
        let reltime := if nsec <? 0 then mkts (u32 (sec - 1)) (nsec + NSEC_PER_SEC) else mkts sec nsec in
        ((OK, Some (clock_time2ticks reltime)), s)
  | ((_, None), s) => ((EINVAL, None), s)
  end.

(** * The calendar *)

(** The Gregorian calendar, day by day from 1 January 1970. *)
Definition leap (y : Z) : bool := (y mod 4 =? 0) && negb (y mod 100 =? 0) || (y mod 400 =? 0).
Definition days_in_month (y m : Z) : Z :=
  if m =? 2 then if leap y then 29 else 28
  else if (m =? 4) || (m =? 6) || (m =? 9) || (m =? 11) then 30 else 31.
Definition next_day (date : Z * Z * Z) : Z * Z * Z :=
  let '(y, m, d) := date in
  if d <? days_in_month y m then (y, m, d + 1)
  else if m <? 12 then (y, m + 1, 1)
  else (y + 1, 1, 1).
Definition date_of (n : nat) : Z * Z * Z := Nat.iter n next_day (1970, 1, 1).

(** The last day of the year 2100 is the last one that both conversions
    know: the one behind it would be a leap day in their count. *)
Definition END_2100 : Z := 47847.

Definition valid_date (date : Z * Z * Z) : Prop :=
  let '(y, m, d) := date in 1970 <= y <= 2100 /\ 1 <= m <= 12 /\ 1 <= d <= days_in_month y m.

Section Dates.

Lemma isleapyear_spec y : 0 <= y -> clock_isleapyear y = leap y.
Proof.
  intros Hy. unfold clock_isleapyear, leap. rewrite !Z.rem_mod_nonneg by lia.
  destruct (Z.eqb_spec (y mod 400) 0), (Z.eqb_spec (y mod 100) 0), (Z.eqb_spec (y mod 4) 0); try done; exfalso; lia.
Qed.

(** Leap years up to 2100. *)
Lemma leap_range y : 1970 <= y <= 2100 -> leap y = (y mod 4 =? 0) && (y <? 2100).
Proof.
  intros Hy. unfold leap.
  destruct (Z.eqb_spec (y mod 400) 0), (Z.eqb_spec (y mod 100) 0), (Z.eqb_spec (y mod 4) 0), (Z.ltb_spec y 2100);
    try done; exfalso; lia.
Qed.

(** Days before a month, without the bounds check. *)
Definition before (m : Z) (l : bool) : Z := default 0 (clock_daysbeforemonth m l).

(** Every month is one of twelve. *)
Lemma month_cases m : 1 <= m <= 12 ->
  m ∈ [1; 2; 3; 4; 5; 6; 7; 8; 9; 10; 11; 12].
Proof. intros Hm. rewrite !elem_of_cons. lia. Qed.
Ltac each_month Hm := apply month_cases in Hm; repeat (apply elem_of_cons in Hm as [->|Hm]); [..|by apply not_elem_of_nil in Hm].

Lemma daysbeforemonth_some m l : 1 <= m <= 12 -> clock_daysbeforemonth (m - 1) l = Some (before (m - 1) l).
Proof. intros Hm. each_month Hm; by destruct l. Qed.

Lemma before_next y m : 1 <= m < 12 -> before m (leap y) = before (m - 1) (leap y) + days_in_month y m.
Proof.
  intros Hm. assert (1 <= m <= 12) as Hm' by lia. unfold days_in_month.
  each_month Hm'; try lia; by destruct (leap y).
Qed.

Lemma before_last y : before 11 (leap y) + 31 = if leap y then 366 else 365.
Proof. by destruct (leap y). Qed.

(** The days since 1 January 1970. *)
Definition days_of (date : Z * Z * Z) : Z :=
  let '(y, m, d) := date in (y - 1970) * 365 + (y - 1969) / 4 + before (m - 1) (leap y) + (d - 1).

Lemma days_of_next date :
  valid_date date -> days_of date + 1 < END_2100 ->
  valid_date (next_day date) /\ days_of (next_day date) = days_of date + 1.
Proof.
  destruct date as [[y m] d]. intros (Hy & Hm & Hd) Hend. unfold next_day.
  destruct (Z.ltb_spec d (days_in_month y m)) as [Hlt|Hge]; [cbv beta iota delta [valid_date days_of] in *; lia|].
  assert (d = days_in_month y m) as -> by lia. clear Hge Hd.
  destruct (Z.ltb_spec m 12) as [Hlt|Hge].
  - cbv beta iota delta [valid_date days_of] in *. pose proof (before_next y m ltac:(lia)) as Hb.
    replace (m + 1 - 1) with m by lia. split; [|lia]. split; [lia|]. split; [lia|].
    assert (1 <= m + 1 <= 12) as Hm1 by lia. unfold days_in_month. repeat case_match; lia.
  - assert (m = 12) as -> by lia. pose proof (before_last y) as Hb.
    change (days_in_month y 12) with 31 in *. cbv beta iota delta [valid_date days_of] in *.
    change (12 - 1) with 11 in *. change (1 - 1) with 0 in *. change (before 0 (leap (y + 1))) with 0.
    change (days_in_month (y + 1) 1) with 31. rewrite leap_range in * by lia. unfold END_2100 in Hend.
    destruct (Z.eqb_spec (y mod 4) 0), (Z.ltb_spec y 2100); simpl in *; lia.
Qed.

Lemma date_of_spec n : Z.of_nat n < END_2100 ->
  valid_date (date_of n) /\ days_of (date_of n) = Z.of_nat n.
Proof.
  induction n as [|n IH]; intros Hn.
  - split; [|done]. unfold valid_date. cbn. lia.
  - destruct IH as [Hv Hd]; [lia|]. destruct (days_of_next (date_of n)) as [Hv' Hd']; [done|lia|].
    split; [done|]. change (date_of (S n)) with (next_day (date_of n)). lia.
Qed.

Lemma days_of_range date : valid_date date -> 0 <= days_of date < END_2100.
Proof.
  destruct date as [[y m] d]. intros (Hy & Hm & Hd). unfold days_of.
  assert (0 <= before (m - 1) (leap y) /\ before (m - 1) (leap y) + days_in_month y m <= if leap y then 366 else 365).
  { unfold days_in_month. each_month Hm; destruct (leap y); vm_compute; intuition discriminate. }
  rewrite leap_range in * by lia. unfold END_2100.
  destruct (Z.eqb_spec (y mod 4) 0), (Z.ltb_spec y 2100); simpl in *; lia.
Qed.

(** The search for the month finds every day of the year. *)
Lemma utc_month_spec y m d :
  1 <= m <= 12 -> 1 <= d <= days_in_month y m ->
  utc_month 12 (leap y) (before (m - 1) (leap y) + (d - 1)) 0 11 = Some (m - 1).
Proof.
  intros Hm Hd.
  assert (forallb (fun m : Z => forallb (fun d : Z => forallb (fun l : bool =>
            (((if m =? 2 then if l then 29 else 28
               else if (m =? 4) || (m =? 6) || (m =? 9) || (m =? 11) then 30 else 31) <? d)
             || bool_decide (utc_month 12 l (before (m - 1) l + (d - 1)) 0 11 = Some (m - 1))))
            [true; false]) (seqZ 1 31)) (seqZ 1 12) = true) as Hall by by vm_compute.
  rewrite forallb_forall in Hall. specialize (Hall m ltac:(apply list_elem_of_In, elem_of_seqZ; lia)).
  rewrite forallb_forall in Hall.
  assert (days_in_month y m <= 31) as H31 by (unfold days_in_month; repeat case_match; lia).
  specialize (Hall d ltac:(apply list_elem_of_In, elem_of_seqZ; lia)).
  rewrite forallb_forall in Hall. specialize (Hall (leap y) ltac:(destruct (leap y); simpl; auto)).
  fold (days_in_month y m) in Hall. apply orb_true_iff in Hall as [Hall%Z.ltb_lt|Hall%bool_decide_eq_true]; [lia|done].
Qed.

Lemma before_bound y m : 1 <= m <= 12 ->
  0 <= before (m - 1) (leap y) /\ before (m - 1) (leap y) + days_in_month y m <= if leap y then 366 else 365.
Proof. intros Hm. unfold days_in_month. each_month Hm; destruct (leap y); vm_compute; intuition discriminate. Qed.

Lemma u32_small z : 0 <= z < 4294967296 -> u32 z = z.
Proof. intros. apply wrapu_small. lia. Qed.

Lemma calendar2utc_spec y m d :
  valid_date (y, m, d) -> clock_calendar2utc y (m - 1) d = Some (days_of (y, m, d)).
Proof.
  intros Hv. pose proof (days_of_range _ Hv) as Hr. destruct Hv as (Hy & Hm & Hd).
  pose proof (before_bound y m Hm) as Hb. unfold clock_calendar2utc.
  rewrite isleapyear_spec, daysbeforemonth_some by lia. simpl. rewrite Z.shiftr_div_pow2 by lia.
  change (2 ^ 2) with 4. unfold days_of in *. unfold END_2100 in *.
  assert ((if leap y then 366 else 365) <= 366) by (destruct (leap y); lia).
  assert (days_in_month y m <= 31) by (unfold days_in_month; repeat case_match; lia).
  rewrite (u32_small ((y - 1970) * 365)), (u32_small (_ + (y - 1969) / 4)), (u32_small (_ + before _ _)), u32_small
    by lia. done.
Qed.

(** One more year of the first loop. *)
Lemma utc_year_step fuel value days :
  year_days (value + 1970) <= days < 4294967296 ->
  utc_year (S fuel) value days = utc_year fuel (value + 1) (days - year_days (value + 1970)).
Proof.
  intros Hd. cbn [utc_year]. replace (year_days (value + 1970) <=? days) with true by lia.
  rewrite u32_small; [done|]. unfold year_days in *. destruct (clock_isleapyear _); lia.
Qed.
Lemma utc_year_stop fuel value days :
  days < year_days (value + 1970) -> utc_year (S fuel) value days = Some (value, days).
Proof. intros Hd. cbn [utc_year]. by replace (year_days (value + 1970) <=? days) with false by lia. Qed.

Lemma year_days_range y : 1970 <= y <= 2100 ->
  year_days y = if (y mod 4 =? 0) && (y <? 2100) then 366 else 365.
Proof. intros Hy. unfold year_days. by rewrite isleapyear_spec, leap_range by lia. Qed.

Ltac year_len Hj j v := rewrite (Hj j v) by lia; cbn [Z.eqb Pos.eqb andb].
Ltac year_step Hj j v := rewrite utc_year_step by (year_len Hj j v; lia); year_len Hj j v.
Ltac year_stop Hj j v := rewrite utc_year_stop by (year_len Hj j v; lia); do 2 f_equal; lia.

(** The years of a group of four, the third of which is a leap year. *)
Lemma utc_year_spec y doy :
  1970 <= y <= 2100 -> 0 <= doy < year_days y ->
  let n := (y - 1970) * 365 + (y - 1969) / 4 + doy in
  utc_year 5 (4 * (n / 1461)) (n - n / 1461 * 1461) = Some (y - 1970, doy).
Proof.
  intros Hy Hd n. pose proof (year_days_range y Hy) as Hyd.
  set (q := (y - 1970) / 4). set (k := (y - 1970) mod 4). assert (y = 1970 + 4 * q + k) as Ey by lia.
  assert (0 <= k < 4 /\ 0 <= q <= 32) as [Hk Hq] by lia.
  assert (n = 1461 * q + 365 * k + (if k =? 3 then 1 else 0) + doy) as En
    by (unfold n; destruct (Z.eqb_spec k 3); lia).
  assert (n / 1461 = q) as ->.
  { rewrite En. rewrite Hyd in Hd.
    destruct (Z.eqb_spec (y mod 4) 0), (Z.ltb_spec y 2100), (Z.eqb_spec k 3); simpl in Hd; lia. }
  replace (n - q * 1461) with (365 * k + (if k =? 3 then 1 else 0) + doy) by lia. clear En.
  assert (forall j v, 0 <= j <= k -> v = 4 * q + j -> year_days (v + 1970) = if (j =? 2) && (y <? 2100) then 366 else 365) as Hj.
  { intros j v Hj ->. rewrite year_days_range by lia.
    destruct (Z.eqb_spec ((4 * q + j + 1970) mod 4) 0), (Z.eqb_spec j 2), (Z.ltb_spec (4 * q + j + 1970) 2100),
      (Z.ltb_spec y 2100); try done; exfalso; lia. }
  pose proof (Hj k _ ltac:(lia) eq_refl) as Hk'. replace (4 * q + k + 1970) with y in Hk' by lia.
  rewrite Hk' in Hd. clear Hk' Hyd.
  assert (k = 0 \/ k = 1 \/ k = 2 \/ k = 3) as [Ek|[Ek|[Ek|Ek]]] by lia; rewrite Ek in *;
    destruct (Z.ltb_spec y 2100); cbn [Z.eqb Pos.eqb andb] in *; try lia.
  1: year_stop Hj 0 (4 * q).
  1: year_step Hj 0 (4 * q); year_stop Hj 1 (4 * q + 1).
  1, 2: year_step Hj 0 (4 * q); year_step Hj 1 (4 * q + 1); year_stop Hj 2 (4 * q + 1 + 1).
  year_step Hj 0 (4 * q). year_step Hj 1 (4 * q + 1). year_step Hj 2 (4 * q + 1 + 1). year_stop Hj 3 (4 * q + 1 + 1 + 1).
Qed.
End Dates.

Lemma bind_some {A B} (a : A) (f : A -> option B) : (Some a ≫= f) = f a.
Proof. done. Qed.

Lemma utc2calendar_days y m d :
  valid_date (y, m, d) -> clock_utc2calendar (days_of (y, m, d)) = Some (y, m, d).
Proof.
  intros Hv. pose proof (days_of_range _ Hv) as Hr. destruct Hv as (Hy & Hm & Hd).
  pose proof (before_bound y m Hm) as Hb. set (n := days_of (y, m, d)) in *.
  set (doy := before (m - 1) (leap y) + (d - 1)).
  assert (0 <= doy < year_days y) as Hdoy.
  { unfold year_days. rewrite isleapyear_spec by lia. unfold doy. destruct (leap y); lia. }
  pose proof (utc_year_spec y doy Hy Hdoy) as Hyear.
  replace ((y - 1970) * 365 + (y - 1969) / 4 + doy) with n in Hyear by (unfold n, days_of, doy; lia).
  assert (utc_month 12 (leap y) doy 0 11 = Some (m - 1)) as Hmon by by apply utc_month_spec.
  unfold clock_utc2calendar. replace (4 * 365 + 1) with 1461 by lia. unfold END_2100 in *.
  rewrite (u32_small (n - _)) by lia. rewrite Z.shiftl_mul_pow2 by lia. replace (2 ^ 2) with 4 by done.
  rewrite (Z.mul_comm (n / 1461) 4), Hyear. rewrite bind_some. replace (1970 + (y - 1970)) with y by lia.
  rewrite isleapyear_spec by lia. rewrite Hmon. rewrite bind_some.
  rewrite daysbeforemonth_some by done. rewrite bind_some.
  assert (days_in_month y m <= 31) by (unfold days_in_month; repeat case_match; lia).
  rewrite u32_small by (unfold doy; lia). do 2 f_equal; [f_equal; lia|unfold doy; lia].
Qed.

(** 1 January 1970 was a Thursday. *)
Lemma dayoftheweek_spec y m d :
  valid_date (y, m, d) -> clock_dayoftheweek d m y = (days_of (y, m, d) + 4) mod 7.
Proof.
  intros (Hy & Hm & Hd). unfold clock_dayoftheweek, days_of.
  assert (forall y', 1969 <= y' <= 2100 ->
    Z.quot y' 4 - Z.quot y' 100 + Z.quot y' 400 = y' / 4 - (if y' <? 2000 then 15 else if y' <? 2100 then 15 else 16)) as Hq.
  { intros y' Hy'. rewrite !Z.quot_div_nonneg by lia.
    destruct (Z.ltb_spec y' 2000); [lia|]. destruct (Z.ltb_spec y' 2100); lia. }
  rewrite leap_range by lia. apply month_cases in Hm.
  repeat (apply elem_of_cons in Hm as [->|Hm]; [
    cbn [Z.leb Z.compare Pos.compare Pos.compare_cont];
    match goal with |- context [Z.quot (31 * ?e) 12] =>
      let v := eval vm_compute in (Z.quot (31 * e) 12) in change (Z.quot (31 * e) 12) with v end;
    match goal with |- context [?a - Z.quot ?u 100 + Z.quot ?u 400] => idtac end;
    destruct (Z.eqb_spec (y mod 4) 0), (Z.ltb_spec y 2100);
    match goal with |- context [before ?a ?b] =>
      let v := eval vm_compute in (before a b) in change (before a b) with v end
    |]); [..|by apply not_elem_of_nil in Hm].
  all: match goal with |- Z.rem (?a + ?u + Z.quot ?u 4 - Z.quot ?u 100 + Z.quot ?u 400 + ?c) 7 = _ =>
    replace (a + u + Z.quot u 4 - Z.quot u 100 + Z.quot u 400 + c) with
      (a + u + (Z.quot u 4 - Z.quot u 100 + Z.quot u 400) + c) by lia; rewrite (Hq u) by lia end.
  all: rewrite Z.rem_mod_nonneg by (repeat case_match; lia).
  all: repeat case_match; lia.
Qed.

(** * Theorems about dates *)

(** C27: Up to the end of the year 2100 [clock_utc2calendar] gives the date of
    the Gregorian calendar, counted day by day from 1 January 1970,
    [clock_calendar2utc] is its inverse, and [clock_dayoftheweek] gives the
    day of the week, Thursday on the first day. *)
Theorem calendar_equivalence n :
  0 <= n < END_2100 ->
  let '(y, m, d) := date_of (Z.to_nat n) in
  clock_utc2calendar n = Some (y, m, d) /\ clock_calendar2utc y (m - 1) d = Some n /\
  clock_dayoftheweek d m y = (n + 4) mod 7.
Proof.
  intros Hn. destruct (date_of_spec (Z.to_nat n)) as [Hv Hd]; [lia|].
  destruct (date_of (Z.to_nat n)) as [[y m] d]. rewrite Z2Nat.id in Hd by lia. rewrite <- Hd.
  auto using utc2calendar_days, calendar2utc_spec, dayoftheweek_spec.
Qed.

(** The fields of a broken-down time that [gmtime_r] delivers. *)
Definition tm_ok (t : tm) : Prop :=
  0 <= tm_sec t < 60 /\ 0 <= tm_min t < 60 /\ 0 <= tm_hour t < 24 /\
  valid_date (tm_year t + 1900, tm_mon t + 1, tm_mday t) /\ 0 <= tm_wday t < 7 /\
  tm_yday t = before (tm_mon t) (leap (tm_year t + 1900)) + tm_mday t.


(** The day behind the last one of the year 2100 is off by one in
    [clock_calendar2utc], which takes 2100 for a leap year; and
    [clock_utc2calendar] gives the same date to two days. *)
Lemma calendar_after_2100 :
  clock_calendar2utc 2101 0 1 = Some (END_2100 + 1) /\
  clock_utc2calendar (END_2100 + 365) = Some (2102, 1, 1) /\
  clock_utc2calendar (END_2100 + 366) = Some (2102, 1, 1).
Proof. by vm_compute. Qed.

(** [tm_yday] of 1 January 1970. *)
Lemma gmtime_first_day : tm_yday <$> gmtime_r 0 = Some 1.
Proof. by vm_compute. Qed.

(** * Theorems about the clock *)

Definition ns_of (ts : timespec) : Z := tv_sec ts * NSEC_PER_SEC + tv_nsec ts.
Definition ts_ok (ts : timespec) : Prop := 0 <= tv_sec ts < 2 ^ 32 /\ 0 <= tv_nsec ts < NSEC_PER_SEC.
Definition ticks (n : nat) (s : clockst) : clockst := Nat.iter n clock_timer s.

Section Clock.
Implicit Types (s : clockst) (ts : timespec).

Lemma u32_idemp_l a b : u32 (u32 a + b) = u32 (a + b).
Proof. apply Zplus_mod_idemp_l. Qed.
Lemma u32_idemp_r a b : u32 (a + u32 b) = u32 (a + b).
Proof. apply Zplus_mod_idemp_r. Qed.
Lemma u32_idemp_sub a b : u32 (u32 a - b) = u32 (a - b).
Proof. apply Zminus_mod_idemp_l. Qed.

Lemma ticks_spec n s : 0 <= g_system_timer s -> g_system_timer s + Z.of_nat n < 2 ^ 32 ->
  ticks n s = mkclock (g_system_timer s + Z.of_nat n) (g_basetime s) (clock_errno s).
Proof.
  intros H0. induction n as [|n IH]; intros Hn; [destruct s; cbn; f_equal; lia|].
  change (ticks (S n) s) with (clock_timer (ticks n s)). rewrite IH by lia. unfold clock_timer. cbn [g_system_timer].
  rewrite wrapu_small by lia. cbn [g_basetime clock_errno]. f_equal. lia.
Qed.

Lemma systime_spec s : 0 <= g_system_timer s < 2 ^ 32 ->
  clock_systime_timespec s = mkts (g_system_timer s / 100) (g_system_timer s mod 100 * 10000000).
Proof.
  intros Hs. unfold clock_systime_timespec, TICK2MSEC, clock_systime_ticks, MSEC_PER_SEC, NSEC_PER_MSEC.
  replace (USEC_PER_TICK / 1000) with 10 by done. rewrite wrapu_small by lia. f_equal; lia.
Qed.

(** What the clock shows, as nanoseconds modulo the range of [time_t]. *)
Lemma gettime_spec s :
  0 <= g_system_timer s < 2 ^ 32 -> ts_ok (g_basetime s) ->
  let now := ns_of (g_basetime s) + g_system_timer s * NSEC_PER_TICK in
  clock_gettime CLOCK_REALTIME s = ((OK, Some (mkts (u32 (now / NSEC_PER_SEC)) (now mod NSEC_PER_SEC))), s).
Proof.
  intros Hs [Hb1 Hb2]. unfold clock_gettime. rewrite systime_spec by done. cbn [tv_sec tv_nsec Z.eqb CLOCK_REALTIME].
  unfold ns_of, NSEC_PER_TICK, USEC_PER_TICK, NSEC_PER_SEC in *. set (T := g_system_timer s) in *.
  set (b := tv_sec (g_basetime s)) in *. set (bn := tv_nsec (g_basetime s)) in *. change (10000 * 1000) with 10000000.
  rewrite u32_idemp_r. rewrite (wrapu_small 32 bn) by lia. rewrite (s32_small (_ + bn)) by (unfold INT32_MIN, INT32_MAX; lia).
  assert (0 <= T mod 100 * 10000000 + bn < 2000000000) as Hsum by lia.
  destruct (Z.leb_spec 1000000000 (T mod 100 * 10000000 + bn)) as [Hc|Hc].
  - rewrite (Z.quot_div_nonneg) by lia. rewrite u32_idemp_l.
    replace ((T mod 100 * 10000000 + bn) / 1000000000) with 1 by lia. do 4 f_equal; [f_equal|]; lia.
  - do 4 f_equal; [f_equal|]; lia.
Qed.

Lemma settime_spec tp s :
  0 <= g_system_timer s < 2 ^ 32 -> ts_ok tp ->
  exists base, clock_settime CLOCK_REALTIME tp s = (OK, mkclock (g_system_timer s) base (clock_errno s)) /\
    ts_ok base /\ tv_nsec base = (ns_of tp - g_system_timer s * NSEC_PER_TICK) mod NSEC_PER_SEC /\
    tv_sec base = u32 ((ns_of tp - g_system_timer s * NSEC_PER_TICK) / NSEC_PER_SEC).
Proof.
  intros Hs [H1 H2]. unfold clock_settime. rewrite systime_spec by done. cbn [tv_sec tv_nsec Z.eqb CLOCK_REALTIME].
  unfold ts_ok, ns_of, NSEC_PER_TICK, USEC_PER_TICK, NSEC_PER_SEC in *. set (T := g_system_timer s) in *.
  set (b := tv_sec tp) in *. set (bn := tv_nsec tp) in *. change (10000 * 1000) with 10000000.
  eexists. split; [done|]. cbn [tv_sec tv_nsec].
  destruct (Z.ltb_spec bn (T mod 100 * 10000000)) as [Hc|Hc]; cbn [tv_sec tv_nsec].
  - rewrite u32_idemp_sub. split_and!; try (apply wrapu_range; lia); try lia. f_equal. lia.
  - fold b bn. split_and!; try (apply wrapu_range; lia); try lia. f_equal. lia.
Qed.
End Clock.

(** Setting the clock to a time and reading it [n] ticks of 10 ms later
    gives that time plus [n] ticks, in normalized form, as long as the 32-bit
    tick counter does not overflow. *)
Theorem clock_set_get tp s n :
  ts_ok tp -> 0 <= g_system_timer s -> g_system_timer s + Z.of_nat n < 2 ^ 32 ->
  let now := ns_of tp + Z.of_nat n * NSEC_PER_TICK in
  (clock_gettime CLOCK_REALTIME (ticks n (clock_settime CLOCK_REALTIME tp s).2)).1 =
    (OK, Some (mkts (u32 (now / NSEC_PER_SEC)) (now mod NSEC_PER_SEC))).
Proof.
  intros Htp H0 Hn. destruct (settime_spec tp s) as (base & -> & Hb & Hbn & Hbs); [lia|done|].
  cbn [snd]. rewrite ticks_spec by done. cbn [g_system_timer g_basetime clock_errno].
  rewrite gettime_spec by (cbn; done || lia). cbn [fst g_system_timer g_basetime]. cbv zeta. do 3 f_equal.
  - unfold ns_of at 1. rewrite Hbn, Hbs. unfold NSEC_PER_TICK, USEC_PER_TICK, NSEC_PER_SEC in *.
    set (x := ns_of tp - _). set (T := g_system_timer s) in *.
    replace ((u32 (x / 1000000000) * 1000000000 + x mod 1000000000 + (T + Z.of_nat n) * (10000 * 1000)) / 1000000000)
      with (u32 (x / 1000000000) + (x mod 1000000000 + (T + Z.of_nat n) * (10000 * 1000)) / 1000000000) by lia.
    rewrite u32_idemp_l. f_equal. unfold x. lia.
  - unfold ns_of at 1. rewrite Hbn, Hbs. unfold NSEC_PER_TICK, USEC_PER_TICK, NSEC_PER_SEC in *.
    set (x := ns_of tp - _). unfold x at 1. lia.
Qed.

(** Times add and subtract as numbers of nanoseconds, subtraction ending
    at zero, with normalized results; the comparison has the sign of the
    difference; and a time that is a number of ticks converts to that number
    and back. *)
Theorem timespec_arith a b n :
  ts_ok a -> ts_ok b -> ns_of a + ns_of b < 2 ^ 32 * NSEC_PER_SEC -> 0 <= n <= INT32_MAX ->
  ts_ok (clock_timespec_add a b) /\ ns_of (clock_timespec_add a b) = ns_of a + ns_of b /\
  ts_ok (clock_timespec_subtract a b) /\ ns_of (clock_timespec_subtract a b) = Z.max 0 (ns_of a - ns_of b) /\
  Z.sgn (clock_timespec_compare a b) = Z.sgn (ns_of a - ns_of b) /\
  ns_of (clock_ticks2time n) = n * NSEC_PER_TICK /\ clock_time2ticks (clock_ticks2time n) = n.
Proof.
  intros [Ha1 Ha2] [Hb1 Hb2] Hsum Hn. unfold ts_ok, ns_of, NSEC_PER_SEC in *.
  split_and!.
  - unfold clock_timespec_add, NSEC_PER_SEC. case_match; apply wrapu_range; lia.
  - unfold clock_timespec_add, NSEC_PER_SEC. case_match; apply wrapu_range; lia.
  - unfold clock_timespec_add, NSEC_PER_SEC. case_match; cbn; lia.
  - unfold clock_timespec_add, NSEC_PER_SEC. case_match; cbn; lia.
  - unfold clock_timespec_add, NSEC_PER_SEC. rewrite (wrapu_small 32 (tv_sec a + tv_sec b)) by lia.
    case_match; cbn [tv_sec tv_nsec]; rewrite ?wrapu_small by lia; lia.
  - unfold clock_timespec_subtract, NSEC_PER_SEC. repeat case_match; cbn; try lia; apply wrapu_range; lia.
  - unfold clock_timespec_subtract, NSEC_PER_SEC. repeat case_match; cbn; try lia; apply wrapu_range; lia.
  - unfold clock_timespec_subtract, NSEC_PER_SEC. repeat case_match; cbn; lia.
  - unfold clock_timespec_subtract, NSEC_PER_SEC. repeat case_match; cbn; lia.
  - unfold clock_timespec_subtract, NSEC_PER_SEC.
    destruct (Z.ltb_spec (tv_sec a) (tv_sec b)); [cbn; lia|].
    destruct (Z.eqb_spec (tv_sec a) (tv_sec b)), (Z.leb_spec (tv_nsec a) (tv_nsec b)); cbn [andb]; try (cbn; lia).
    all: rewrite (wrapu_small 32 (tv_sec a - _)) by lia.
    all: destruct (Z.ltb_spec (tv_nsec a) (tv_nsec b)); cbn [tv_sec tv_nsec]; rewrite ?wrapu_small by lia; lia.
  - unfold clock_timespec_compare. repeat case_match; lia.
  - unfold clock_ticks2time, TICK_PER_SEC, NSEC_PER_TICK, USEC_PER_TICK, INT32_MAX in *.
    change (1000000 / 10000) with 100. rewrite Z.quot_div_nonneg, wrapu_small, s32_small
      by (unfold INT32_MIN, INT32_MAX; lia). cbn [tv_sec tv_nsec]. lia.
  - unfold clock_time2ticks, clock_ticks2time, TICK_PER_SEC, NSEC_PER_TICK, USEC_PER_TICK, NSEC_PER_SEC, INT32_MAX in *.
    change (1000000 / 10000) with 100. rewrite (Z.quot_div_nonneg n), wrapu_small, (s32_small (n - _))
      by (unfold INT32_MIN, INT32_MAX; lia). cbn [tv_sec tv_nsec]. rewrite Z.quot_div_nonneg by lia.
    rewrite s32_small by (unfold INT32_MIN, INT32_MAX; lia). lia.
Qed.

(** The delay until an absolute time, in ticks: -1 if the time has
    passed, and otherwise the least number of ticks after which the clock
    shows that time or a later one. *)
Theorem abstime2ticks_spec abstime s :
  ts_ok abstime -> ts_ok (g_basetime s) -> 0 <= g_system_timer s < 2 ^ 32 ->
  let now := ns_of (g_basetime s) + g_system_timer s * NSEC_PER_TICK in
  now < 2 ^ 32 * NSEC_PER_SEC -> ns_of abstime - now <= INT32_MAX * NSEC_PER_TICK ->
  exists k, clock_abstime2ticks CLOCK_REALTIME abstime s = ((OK, Some k), s) /\
    if ns_of abstime <? now then k = -1
    else 0 <= k /\ now + (k - 1) * NSEC_PER_TICK < ns_of abstime <= now + k * NSEC_PER_TICK.
Proof.
  intros [Ha1 Ha2] Hb Hs now Hnow Hmax. unfold clock_abstime2ticks. rewrite gettime_spec by done.
  fold now. assert (0 <= now) as H0.
  { unfold now, ns_of, NSEC_PER_TICK, USEC_PER_TICK, NSEC_PER_SEC. destruct Hb. lia. }
  unfold ts_ok, NSEC_PER_SEC in *. rewrite (wrapu_small 32 (now / _)) by lia.
  set (c := mkts (now / 1000000000) (now mod 1000000000)).
  assert (ns_of c = now) as Hc by (unfold ns_of, c, NSEC_PER_SEC; cbn; lia).
  assert ((clock_timespec_compare abstime c <? 0) = (ns_of abstime <? now)) as ->.
  { rewrite <- Hc. unfold clock_timespec_compare, ns_of, NSEC_PER_SEC, c. cbn [tv_sec tv_nsec]. repeat case_match; lia. }
  destruct (Z.ltb_spec (ns_of abstime) now) as [Hlt|Hge]; [eauto|]. eexists. split; [done|].
  unfold clock_time2ticks. match goal with |- context [tv_sec ?r * NSEC_PER_SEC] => set (rel := r) end.
  assert (tv_sec rel * NSEC_PER_SEC + tv_nsec rel = ns_of abstime - now) as ->.
  { rewrite <- Hc in Hge |- *. unfold rel, ns_of, NSEC_PER_SEC, c in *. cbn [tv_sec tv_nsec] in *.
    rewrite (wrapu_small 32 (tv_sec abstime - _)) by lia.
    destruct (Z.ltb_spec (tv_nsec abstime - now mod 1000000000) 0); cbn [tv_sec tv_nsec];
      rewrite ?wrapu_small by lia; lia. }
  unfold NSEC_PER_TICK, USEC_PER_TICK, INT32_MAX in *. rewrite Z.quot_div_nonneg by lia.
  rewrite s32_small by (unfold INT32_MIN, INT32_MAX; lia). lia.
Qed.

(** * Concrete instances *)

Lemma calendar_equivalence_witness :
  clock_utc2calendar 59 = Some (1970, 3, 1) /\ clock_calendar2utc 1970 2 1 = Some 59.
Proof.
  destruct (calendar_equivalence 59 ltac:(split; [discriminate|reflexivity])) as (H1 & H2 & _).
  split; [exact H1|exact H2].
Defined.


Definition ex_clock : clockst := mkclock 150 (mkts 7 900000000) 0.

Lemma clock_set_get_witness :
  (clock_gettime CLOCK_REALTIME (ticks 30 (clock_settime CLOCK_REALTIME (mkts 1000 800000000) ex_clock).2)).1
  = (OK, Some (mkts 1001 100000000)).
Proof.
  exact (clock_set_get (mkts 1000 800000000) ex_clock 30
    ltac:(split; split; (discriminate || reflexivity)) ltac:(discriminate) ltac:(reflexivity)).
Defined.

Lemma timespec_arith_witness :
  ns_of (clock_timespec_add (mkts 1 600000000) (mkts 2 700000000)) = 4300000000 /\
  clock_time2ticks (clock_ticks2time 1234) = 1234.
Proof.
  destruct (timespec_arith (mkts 1 600000000) (mkts 2 700000000) 1234
    ltac:(split; split; (discriminate || reflexivity)) ltac:(split; split; (discriminate || reflexivity))
    ltac:(reflexivity) ltac:(split; discriminate)) as (_ & H1 & _ & _ & _ & _ & H2).
  split; [exact H1|exact H2].
Defined.

Lemma abstime2ticks_spec_witness :
  exists k, clock_abstime2ticks CLOCK_REALTIME (mkts 9 425000000) ex_clock = ((OK, Some k), ex_clock) /\ 0 <= k.
Proof.
  destruct (abstime2ticks_spec (mkts 9 425000000) ex_clock
    ltac:(split; split; (discriminate || reflexivity)) ltac:(split; split; (discriminate || reflexivity))
    ltac:(split; (discriminate || reflexivity)) ltac:(reflexivity) ltac:(discriminate)) as (k & Hc & Hk).
  exists k. split; [exact Hc|exact (proj1 Hk)].
Defined.
