(* ===== verification/Heap.v ===== *)
(** Heap: the memory manager (mm/mm_heap), one region, 32-bit sizes.  Memory
    is a map from word addresses to 32-bit words; a chunk's header and links
    are words of it, at the offsets of [struct mm_freenode_s], and so is the
    data of the blocks handed out.  [memcpy] and [memset] are libc's byte
    loops, whole words at a time.  A call that would have to wait for the
    heap's semaphore is outside of the model: it is undefined. *)

From stdpp Require Import options.
From S2P Require Import Prelude.

Definition MM_MIN_SHIFT : Z := 4.
Definition MM_MAX_SHIFT : Z := 22.
Definition MM_MIN_CHUNK : Z := Z.shiftl 1 MM_MIN_SHIFT.
Definition MM_MAX_CHUNK : Z := Z.shiftl 1 MM_MAX_SHIFT.
Definition MM_NNODES : Z := MM_MAX_SHIFT - MM_MIN_SHIFT + 1.
Definition MM_GRAN_MASK : Z := MM_MIN_CHUNK - 1.
Definition MM_ALIGN_UP (a : Z) : Z := Z.land (u32 (a + MM_GRAN_MASK)) (Z.lnot MM_GRAN_MASK).
Definition MM_ALIGN_DOWN (a : Z) : Z := Z.land a (Z.lnot MM_GRAN_MASK).
Definition MM_ALLOC_BIT : Z := 0x80000000.
Definition SIZEOF_MM_ALLOCNODE : Z := 8.
Definition SIZEOF_MM_FREENODE : Z := 16.
Definition SIZE_MAX : Z := 0xffffffff.
Definition NO_HOLDER : Z := -1.
Definition ESRCH : Z := 3.
Definition EAGAIN : Z := 11.

(** Memory and the members of [struct mm_heap_s]; of the semaphore only the
    count is kept.  The array [mm_nodelist] lies in memory. *)
Record mm_heap_s := MMheap {
  mem : gmap Z Z;
  mm_semaphore : Z;
  mm_holder : Z;
  mm_counts_held : Z;
  mm_heapsize : Z;
  mm_heapstart : ptr;
  mm_heapend : ptr;
  mm_delaylist : ptr
}.

Definition set_mem (f : gmap Z Z -> gmap Z Z) (s : mm_heap_s) : mm_heap_s :=
  MMheap (f (mem s)) (mm_semaphore s) (mm_holder s) (mm_counts_held s)
    (mm_heapsize s) (mm_heapstart s) (mm_heapend s) (mm_delaylist s).
Definition set_sem (count holder held : Z) (s : mm_heap_s) : mm_heap_s :=
  MMheap (mem s) count holder held
    (mm_heapsize s) (mm_heapstart s) (mm_heapend s) (mm_delaylist s).
Definition set_heapsize (size : Z) (s : mm_heap_s) : mm_heap_s :=
  MMheap (mem s) (mm_semaphore s) (mm_holder s) (mm_counts_held s)
    size (mm_heapstart s) (mm_heapend s) (mm_delaylist s).
Definition set_heapstart (p : ptr) (s : mm_heap_s) : mm_heap_s :=
  MMheap (mem s) (mm_semaphore s) (mm_holder s) (mm_counts_held s)
    (mm_heapsize s) p (mm_heapend s) (mm_delaylist s).
Definition set_heapend (p : ptr) (s : mm_heap_s) : mm_heap_s :=
  MMheap (mem s) (mm_semaphore s) (mm_holder s) (mm_counts_held s)
    (mm_heapsize s) (mm_heapstart s) p (mm_delaylist s).
Definition set_delaylist (p : ptr) (s : mm_heap_s) : mm_heap_s :=
  MMheap (mem s) (mm_semaphore s) (mm_holder s) (mm_counts_held s)
    (mm_heapsize s) (mm_heapstart s) (mm_heapend s) p.

(** What the calls [getpid], [up_interrupt_context] and [sched_idletask]
    return to the caller of the memory manager. *)
Record caller := Caller {
  getpid : Z;
  up_interrupt_context : bool;
  sched_idletask : bool
}.

(** [struct mallinfo]. *)
Record mallinfo := Mallinfo {
  arena : Z;
  ordblks : Z;
  mxordblk : Z;
  uordblks : Z;
  fordblks : Z
}.

(** * Memory access *)

Abbreviation MM := (M mm_heap_s).

Definition rd (a : Z) : MM Z := getso (fun s => mem s !! a).
Definition wr (a v : Z) : MM unit := rd a ;; modify (set_mem (<[a := v]>)).

(** The members of [struct mm_freenode_s]. *)
Definition f_size (p : ptr) : Z := p.
Definition f_preceding (p : ptr) : Z := p + 4.
Definition f_flink (p : ptr) : Z := p + 8.
Definition f_blink (p : ptr) : Z := p + 12.

(** [memcpy] of [n] words and [memset(p, 0, ..)] of [n] words. *)
Fixpoint memcpy (dest src : ptr) (n : nat) : MM unit :=
  match n with
  | O => ret tt
  | S n => v <- rd src ;; wr dest v ;; memcpy (dest + 4) (src + 4) n
  end.
Fixpoint memset0 (p : ptr) (n : nat) : MM unit :=
  match n with
  | O => ret tt
  | S n => wr p 0 ;; memset0 (p + 4) n
  end.
Definition words (n : Z) : nat := Z.to_nat (n / 4).

(** [memset(p, 0, n)] for any [n]: of a last word that is cleared only in
    part the low [n mod 4] bytes are cleared. *)
Definition memset (p : ptr) (n : Z) : MM unit :=
  memset0 p (words n) ;;
  when (negb (n mod 4 =? 0))
    (let a := p + 4 * (n / 4) in
     v <- rd a ;; wr a (Z.land v (Z.lnot (Z.ones (8 * (n mod 4)))))).

(** * The heap's semaphore *)

Section Debug.
(** Whether CONFIG_DEBUG_ASSERTIONS is set. *)
Variable DEBUG : bool.
(** The address of the array [mm_nodelist]. *)
Variable mm_nodelist : ptr.

Definition DEBUGASSERT (c : MM bool) : MM unit :=
  if DEBUG then b <- c ;; assert_ b else ret tt.

Definition mm_seminitialize : MM unit := modify (set_sem 1 NO_HOLDER 0).

Definition mm_trysemaphore (c : caller) : MM Z :=
  let my_pid := getpid c in
  if my_pid <? 0 then ret my_pid
  else
    holder <- gets mm_holder ;;
    count <- gets mm_semaphore ;;
    held <- gets mm_counts_held ;;
    if holder =? my_pid then modify (set_sem count holder (held + 1)) ;; ret OK
    else if 0 <? count then modify (set_sem (count - 1) my_pid 1) ;; ret OK
    else ret (- EAGAIN).

Definition mm_takesemaphore (c : caller) : MM unit :=
  let my_pid := getpid c in
  holder <- gets mm_holder ;;
  count <- gets mm_semaphore ;;
  held <- gets mm_counts_held ;;
  if holder =? my_pid then modify (set_sem count holder (held + 1))
  else if 0 <? count then modify (set_sem (count - 1) my_pid 1)
  else undef.

Definition mm_givesemaphore (c : caller) : MM unit :=
  DEBUGASSERT (gets (fun s => mm_holder s =? getpid c)) ;;
  holder <- gets mm_holder ;;
  count <- gets mm_semaphore ;;
  held <- gets mm_counts_held ;;
  if 1 <? held then modify (set_sem count holder (held - 1))
  else modify (set_sem (count + 1) NO_HOLDER 0).

(** * Free chunks *)

Definition nodelist (ndx : Z) : ptr := mm_nodelist + SIZEOF_MM_FREENODE * ndx.

(** The loop of [mm_size2ndx], at most 32 times round. *)
Fixpoint size2ndx_loop (fuel : nat) (size ndx : Z) : option Z :=
  match fuel with
  | O => None
  | S fuel => if 1 <? size then size2ndx_loop fuel (Z.shiftr size 1) (ndx + 1) else Some ndx
  end.
Definition mm_size2ndx (size : Z) : option Z :=
  if MM_MAX_CHUNK <=? size then Some (MM_NNODES - 1)
  else size2ndx_loop 32 (Z.shiftr size MM_MIN_SHIFT) 0.

Definition with_fuel {A} (c : nat -> MM A) : MM A := fun s => c (S (size (mem s))) s.

(** The loop that finds the place of a chunk of [size] bytes: [(prev, next)]. *)
Definition add_step (size : Z) (st : ptr * ptr) : MM ((ptr * ptr) + (ptr * ptr)) :=
  let '(prev, next) := st in
  if next =? NULL then ret (inr (prev, next))
  else
    nsize <- rd (f_size next) ;;
    if negb (nsize =? 0) && (nsize <? size) then
      next' <- rd (f_flink next) ;;
      ret (inl (next, next'))
    else ret (inr (prev, next)).

Definition mm_addfreechunk (node : ptr) : MM unit :=
  DEBUGASSERT (sz <- rd (f_size node) ;; ret (SIZEOF_MM_FREENODE <=? sz)) ;;
  DEBUGASSERT (pr <- rd (f_preceding node) ;; ret (Z.land pr MM_ALLOC_BIT =? 0)) ;;
  size <- rd (f_size node) ;;
  ndx <- getso (fun _ => mm_size2ndx size) ;;
  first <- rd (f_flink (nodelist ndx)) ;;
  r <- with_fuel (fun fuel => loop fuel (add_step size) (nodelist ndx, first)) ;;
  let '(prev, next) := r : ptr * ptr in
  wr (f_flink prev) node ;;
  wr (f_blink node) prev ;;
  wr (f_flink node) next ;;
  when (negb (next =? NULL)) (wr (f_blink next) node).

(** The statements by which every routine takes a chunk off the free list. *)
Definition mm_unlink (node : ptr) : MM unit :=
  DEBUGASSERT (b <- rd (f_blink node) ;; ret (negb (b =? NULL))) ;;
  blink <- rd (f_blink node) ;;
  flink <- rd (f_flink node) ;;
  wr (f_flink blink) flink ;;
  flink <- rd (f_flink node) ;;
  when (negb (flink =? NULL)) (blink <- rd (f_blink node) ;; wr (f_blink flink) blink).

(** [p->preceding = size | (p->preceding & MM_ALLOC_BIT)]. *)
Definition set_preceding (p : ptr) (size : Z) : MM unit :=
  pr <- rd (f_preceding p) ;;
  wr (f_preceding p) (Z.lor size (Z.land pr MM_ALLOC_BIT)).

(** [(p->preceding & MM_ALLOC_BIT) == 0]. *)
Definition is_free (p : ptr) : MM bool :=
  pr <- rd (f_preceding p) ;; ret (Z.land pr MM_ALLOC_BIT =? 0).

Definition mm_heapmember (p : ptr) : MM bool :=
  gets (fun s => (mm_heapstart s <? p) && (p <? mm_heapend s)).

(** * Initialization *)

Definition mm_addregion (heapstart heapsize : Z) : MM unit :=
  let heapbase := MM_ALIGN_UP heapstart in
  let heapend := MM_ALIGN_DOWN (u32 (heapstart + heapsize)) in
  let heapsize := u32 (heapend - heapbase) in
  modify (fun s => set_heapsize (u32 (mm_heapsize s + heapsize)) s) ;;
  modify (set_heapstart heapbase) ;;
  wr (f_size heapbase) SIZEOF_MM_ALLOCNODE ;;
  wr (f_preceding heapbase) MM_ALLOC_BIT ;;
  let node := heapbase + SIZEOF_MM_ALLOCNODE in
  wr (f_size node) (u32 (heapsize - 2 * SIZEOF_MM_ALLOCNODE)) ;;
  wr (f_preceding node) SIZEOF_MM_ALLOCNODE ;;
  let fin := heapend - SIZEOF_MM_ALLOCNODE in
  modify (set_heapend fin) ;;
  wr (f_size fin) SIZEOF_MM_ALLOCNODE ;;
  nsize <- rd (f_size node) ;;
  wr (f_preceding fin) (Z.lor nsize MM_ALLOC_BIT) ;;
  mm_addfreechunk node.

(** The loop that links the hooks of [mm_nodelist]: [n] more, from [i] on. *)
Fixpoint link_nodes (i : Z) (n : nat) : MM unit :=
  match n with
  | O => ret tt
  | S n =>
      wr (f_flink (nodelist (i - 1))) (nodelist i) ;;
      wr (f_blink (nodelist i)) (nodelist (i - 1)) ;;
      link_nodes (i + 1) n
  end.

Definition mm_initialize (heapstart heapsize : Z) : MM unit :=
  DEBUGASSERT (ret (f_preceding 0 + 4 =? SIZEOF_MM_ALLOCNODE)) ;;
  DEBUGASSERT (ret (f_blink 0 + 4 =? SIZEOF_MM_FREENODE)) ;;
  DEBUGASSERT (ret (SIZEOF_MM_FREENODE <=? MM_MIN_CHUNK)) ;;
  DEBUGASSERT (ret (SIZEOF_MM_ALLOCNODE <=? MM_MIN_CHUNK)) ;;
  modify (set_heapsize 0) ;;
  modify (set_delaylist NULL) ;;
  memset0 mm_nodelist (words (SIZEOF_MM_FREENODE * MM_NNODES)) ;;
  link_nodes 1 (Z.to_nat (MM_NNODES - 1)) ;;
  mm_seminitialize ;;
  mm_addregion heapstart heapsize.

(** * Free *)

Definition mm_add_delaylist (p : ptr) : MM unit :=
  head <- gets mm_delaylist ;;
  wr p head ;;
  modify (set_delaylist p).

(** The part of [mm_free] that runs with the semaphore held. *)
Definition free_chunk (p : ptr) : MM unit :=
  DEBUGASSERT (mm_heapmember p) ;;
  let node := p - SIZEOF_MM_ALLOCNODE in
  DEBUGASSERT (free <- is_free node ;; ret (negb free)) ;;
  pr <- rd (f_preceding node) ;;
  wr (f_preceding node) (Z.land pr (Z.lnot MM_ALLOC_BIT)) ;;
  size <- rd (f_size node) ;;
  let next := node + size in
  DEBUGASSERT (pr <- rd (f_preceding next) ;; sz <- rd (f_size node) ;;
               ret (Z.land pr (Z.lnot MM_ALLOC_BIT) =? sz)) ;;
  nfree <- is_free next ;;
  next <- (if nfree then
             nsize <- rd (f_size next) ;;
             let andbeyond := next + nsize in
             mm_unlink next ;;
             size <- rd (f_size node) ;;
             nsize <- rd (f_size next) ;;
             wr (f_size node) (u32 (size + nsize)) ;;
             size <- rd (f_size node) ;;
             set_preceding andbeyond size ;;
             ret andbeyond
           else ret next) ;;
  pr <- rd (f_preceding node) ;;
  let prev := node - pr in
  DEBUGASSERT (pr <- rd (f_preceding node) ;; sz <- rd (f_size prev) ;;
               ret (Z.land pr (Z.lnot MM_ALLOC_BIT) =? sz)) ;;
  pfree <- is_free prev ;;
  node <- (if pfree then
             mm_unlink prev ;;
             psize <- rd (f_size prev) ;;
             size <- rd (f_size node) ;;
             wr (f_size prev) (u32 (psize + size)) ;;
             psize <- rd (f_size prev) ;;
             set_preceding next psize ;;
             ret prev
           else ret node) ;;
  mm_addfreechunk node.

Definition mm_free (c : caller) (p : ptr) : MM unit :=
  if p =? NULL then ret tt
  else if up_interrupt_context c then mm_add_delaylist p
  else
    r <- mm_trysemaphore c ;;
    if r =? 0 then free_chunk p ;; mm_givesemaphore c
    else if (r =? - ESRCH) || sched_idletask c then mm_add_delaylist p
    else mm_takesemaphore c ;; free_chunk p ;; mm_givesemaphore c.

(** * Allocation *)

Definition delay_step (c : caller) (tmp : ptr) : MM (ptr + unit) :=
  if tmp =? NULL then ret (inr tt)
  else
    let address := tmp in
    tmp <- rd tmp ;;
    mm_free c address ;;
    ret (inl tmp).

Definition mm_free_delaylist (c : caller) : MM unit :=
  tmp <- gets mm_delaylist ;;
  modify (set_delaylist NULL) ;;
  with_fuel (fun fuel => loop fuel (delay_step c) tmp).

(** The search for a chunk that is large enough. *)
Definition search_step (alignsize : Z) (node : ptr) : MM (ptr + ptr) :=
  if node =? NULL then ret (inr node)
  else
    size <- rd (f_size node) ;;
    if size <? alignsize then
      DEBUGASSERT (b <- rd (f_blink node) ;; bf <- rd (f_flink b) ;; ret (bf =? node)) ;;
      node' <- rd (f_flink node) ;;
      ret (inl node')
    else ret (inr node).

(** The part of [mm_malloc] that runs with the semaphore held. *)
Definition alloc_chunk (alignsize : Z) : MM ptr :=
  ndx <- (if MM_MAX_CHUNK <=? alignsize then ret (MM_NNODES - 1)
          else getso (fun _ => mm_size2ndx alignsize)) ;;
  first <- rd (f_flink (nodelist ndx)) ;;
  node <- with_fuel (fun fuel => loop fuel (search_step alignsize) first) ;;
  if node =? NULL then ret NULL
  else
    mm_unlink node ;;
    size <- rd (f_size node) ;;
    let remaining := u32 (size - alignsize) in
    when (SIZEOF_MM_FREENODE <=? remaining)
      (size <- rd (f_size node) ;;
       let next := node + size in
       let remainder := node + alignsize in
       wr (f_size remainder) remaining ;;
       wr (f_preceding remainder) alignsize ;;
       wr (f_size node) alignsize ;;
       set_preceding next remaining ;;
       mm_addfreechunk remainder) ;;
    pr <- rd (f_preceding node) ;;
    wr (f_preceding node) (Z.lor pr MM_ALLOC_BIT) ;;
    ret (node + SIZEOF_MM_ALLOCNODE).

Definition mm_malloc (c : caller) (size : Z) : MM ptr :=
  mm_free_delaylist c ;;
  if size <? 1 then ret NULL
  else
    let alignsize := MM_ALIGN_UP (u32 (size + SIZEOF_MM_ALLOCNODE)) in
    DEBUGASSERT (ret (size <=? alignsize)) ;;
    DEBUGASSERT (ret (MM_MIN_CHUNK <=? alignsize)) ;;
    DEBUGASSERT (ret (SIZEOF_MM_FREENODE <=? alignsize)) ;;
    mm_takesemaphore c ;;
    r <- alloc_chunk alignsize ;;
    DEBUGASSERT (if r =? NULL then ret true else mm_heapmember r) ;;
    mm_givesemaphore c ;;
    ret r.

Definition mm_zalloc (c : caller) (size : Z) : MM ptr :=
  alloc <- mm_malloc c size ;;
  when (negb (alloc =? NULL)) (memset alloc size) ;;
  ret alloc.

Definition mm_calloc (c : caller) (n elem_size : Z) : MM ptr :=
  if (0 <? n) && (0 <? elem_size) then
    if n <=? SIZE_MAX / elem_size then mm_zalloc c (u32 (n * elem_size)) else ret NULL
  else ret NULL.

(** * Resizing *)

Definition mm_shrinkchunk (node : ptr) (size : Z) : MM unit :=
  DEBUGASSERT (ret (Z.land size MM_GRAN_MASK =? 0)) ;;
  nodesize <- rd (f_size node) ;;
  let next := node + nodesize in
  nfree <- is_free next ;;
  if nfree then
    nsize <- rd (f_size next) ;;
    let andbeyond := next + nsize in
    mm_unlink next ;;
    let newnode := node + size in
    nsize <- rd (f_size next) ;;
    nodesize <- rd (f_size node) ;;
    wr (f_size newnode) (u32 (nsize + nodesize - size)) ;;
    wr (f_preceding newnode) size ;;
    wr (f_size node) size ;;
    newsize <- rd (f_size newnode) ;;
    set_preceding andbeyond newsize ;;
    mm_addfreechunk newnode
  else
    nodesize <- rd (f_size node) ;;
    when (u32 (size + SIZEOF_MM_FREENODE) <=? nodesize)
      (let newnode := node + size in
       wr (f_size newnode) (u32 (nodesize - size)) ;;
       wr (f_preceding newnode) size ;;
       wr (f_size node) size ;;
       newsize <- rd (f_size newnode) ;;
       wr (f_preceding next) (Z.lor newsize MM_ALLOC_BIT) ;;
       mm_addfreechunk newnode).

(** How [mm_realloc] divides the bytes it needs between the free chunks before
    and behind: [(takeprev, takenext)]. *)
Definition realloc_take (needed prevsize nextsize : Z) : Z * Z :=
  let '(takeprev, takenext, needed) :=
    if (0 <? prevsize) && ((prevsize <=? nextsize) || (nextsize <? 1)) then
      if prevsize <? needed then (prevsize, needed - prevsize, 0) else (needed, 0, 0)
    else (0, 0, needed) in
  if (0 <? nextsize) && negb (needed =? 0) then
    if nextsize <? needed then (needed - nextsize, nextsize) else (0, needed)
  else (takeprev, takenext).

(** Extension of the chunk into the previous free chunk: the headers, and
    then the contents; [(newmem, oldnode, oldsize)]. *)
Definition take_prev_headers (newnode prev next oldsize prevsize takeprev : Z) : MM unit :=
  mm_unlink prev ;;
  if takeprev <? prevsize then
    psize <- rd (f_size prev) ;;
    wr (f_size prev) (u32 (psize - takeprev)) ;;
    DEBUGASSERT (psize <- rd (f_size prev) ;; ret (SIZEOF_MM_FREENODE <=? psize)) ;;
    wr (f_size newnode) (u32 (oldsize + takeprev)) ;;
    psize <- rd (f_size prev) ;;
    wr (f_preceding newnode) (Z.lor psize MM_ALLOC_BIT) ;;
    size <- rd (f_size newnode) ;;
    set_preceding next size ;;
    mm_addfreechunk prev
  else
    size <- rd (f_size newnode) ;;
    wr (f_size newnode) (u32 (size + oldsize)) ;;
    pr <- rd (f_preceding newnode) ;;
    wr (f_preceding newnode) (Z.lor pr MM_ALLOC_BIT) ;;
    size <- rd (f_size newnode) ;;
    set_preceding next size.

Definition take_prev (oldmem oldnode prev next oldsize prevsize takeprev : Z) : MM (ptr * ptr * Z) :=
  let newnode := oldnode - takeprev in
  take_prev_headers newnode prev next oldsize prevsize takeprev ;;
  let newmem := newnode + SIZEOF_MM_ALLOCNODE in
  memcpy newmem oldmem (words (u32 (oldsize - SIZEOF_MM_ALLOCNODE))) ;;
  size <- rd (f_size newnode) ;;
  ret (newmem, newnode, size).

(** Extension of the chunk into the next free chunk. *)
Definition take_next (oldnode next oldsize nextsize takenext : Z) : MM unit :=
  let andbeyond := next + nextsize in
  mm_unlink next ;;
  wr (f_size oldnode) (u32 (oldsize + takenext)) ;;
  size <- rd (f_size oldnode) ;;
  let newnode := oldnode + size in
  if takenext <? nextsize then
    wr (f_size newnode) (u32 (nextsize - takenext)) ;;
    DEBUGASSERT (sz <- rd (f_size newnode) ;; ret (SIZEOF_MM_FREENODE <=? sz)) ;;
    size <- rd (f_size oldnode) ;;
    wr (f_preceding newnode) size ;;
    newsize <- rd (f_size newnode) ;;
    set_preceding andbeyond newsize ;;
    mm_addfreechunk newnode
  else
    size <- rd (f_size oldnode) ;;
    set_preceding andbeyond size.

(** The extension of the chunk in place. *)
Definition realloc_grow (oldmem oldnode prev next newsize oldsize prevsize nextsize : Z) : MM ptr :=
  let '(takeprev, takenext) := realloc_take (u32 (newsize - oldsize)) prevsize nextsize in
  r <- (if negb (takeprev =? 0)
        then take_prev oldmem oldnode prev next oldsize prevsize takeprev
        else ret (oldmem, oldnode, oldsize)) ;;
  let '(newmem, oldnode, oldsize) := r : ptr * ptr * Z in
  when (negb (takenext =? 0)) (take_next oldnode next oldsize nextsize takenext) ;;
  ret newmem.

Definition mm_realloc (c : caller) (oldmem : ptr) (size : Z) : MM ptr :=
  if oldmem =? NULL then mm_malloc c size
  else if size <? 1 then mm_free c oldmem ;; ret NULL
  else
    let newsize := MM_ALIGN_UP (u32 (size + SIZEOF_MM_ALLOCNODE)) in
    let oldnode := oldmem - SIZEOF_MM_ALLOCNODE in
    mm_takesemaphore c ;;
    DEBUGASSERT (free <- is_free oldnode ;; ret (negb free)) ;;
    DEBUGASSERT (mm_heapmember oldmem) ;;
    oldsize <- rd (f_size oldnode) ;;
    if newsize <=? oldsize then
      when (newsize <? oldsize) (mm_shrinkchunk oldnode newsize) ;;
      mm_givesemaphore c ;;
      ret oldmem
    else
      let next := oldnode + oldsize in
      nfree <- is_free next ;;
      nextsize <- (if nfree then rd (f_size next) else ret 0) ;;
      pr <- rd (f_preceding oldnode) ;;
      let prev := oldnode - Z.land pr (Z.lnot MM_ALLOC_BIT) in
      pfree <- is_free prev ;;
      prevsize <- (if pfree then rd (f_size prev) else ret 0) ;;
      if newsize <=? u32 (nextsize + prevsize + oldsize) then
        newmem <- realloc_grow oldmem oldnode prev next newsize oldsize prevsize nextsize ;;
        mm_givesemaphore c ;;
        ret newmem
      else
        mm_givesemaphore c ;;
        newmem <- mm_malloc c size ;;
        when (negb (newmem =? NULL))
          (memcpy newmem oldmem (words oldsize) ;;
           mm_free c oldmem) ;;
        ret newmem.

(** [mm_memalign]'s cut of the chunk in two: the part in front of the aligned
    address is freed.  [(alignedchunk, node, allocsize)]. *)
Definition memalign_split (node rawchunk alignedchunk alignment : Z) : MM (Z * ptr * Z) :=
  size <- rd (f_size node) ;;
  let next := node + size in
  DEBUGASSERT (ret (rawchunk + 8 <=? alignedchunk)) ;;
  let newnode := alignedchunk - SIZEOF_MM_ALLOCNODE in
  let precedingsize := newnode - node in
  let '(alignedchunk, newnode, precedingsize) :=
    if precedingsize <? SIZEOF_MM_FREENODE then
      let alignedchunk := alignedchunk + alignment in
      let newnode := alignedchunk - SIZEOF_MM_ALLOCNODE in
      (alignedchunk, newnode, newnode - node)
    else (alignedchunk, newnode, precedingsize) in
  wr (f_size newnode) (u32 (next - newnode)) ;;
  wr (f_preceding newnode) (Z.lor precedingsize MM_ALLOC_BIT) ;;
  wr (f_size node) precedingsize ;;
  pr <- rd (f_preceding node) ;;
  wr (f_preceding node) (Z.land pr (Z.lnot MM_ALLOC_BIT)) ;;
  size <- rd (f_size newnode) ;;
  set_preceding next size ;;
  size <- rd (f_size newnode) ;;
  mm_addfreechunk node ;;
  ret (alignedchunk, newnode, u32 (size - SIZEOF_MM_ALLOCNODE)).

(** The aligned address in the chunk, which gives up what is not needed. *)
Definition memalign_place (rawchunk mask alignment size allocsize : Z) : MM Z :=
  let node := rawchunk - SIZEOF_MM_ALLOCNODE in
  let alignedchunk := Z.land (u32 (rawchunk + mask)) (Z.lnot mask) in
  r <- (if negb (alignedchunk =? rawchunk)
        then memalign_split node rawchunk alignedchunk alignment
        else ret (alignedchunk, node, allocsize)) ;;
  let '(alignedchunk, node, allocsize) := r : Z * ptr * Z in
  let size := MM_ALIGN_UP (u32 (size + SIZEOF_MM_ALLOCNODE)) in
  when (size <? allocsize) (mm_shrinkchunk node size) ;;
  ret alignedchunk.

Definition mm_memalign (c : caller) (alignment size : Z) : MM ptr :=
  let mask := u32 (alignment - 1) in
  if alignment <=? MM_MIN_CHUNK then mm_malloc c size
  else
    let size := MM_ALIGN_UP size in
    let allocsize := u32 (size + 2 * alignment) in
    rawchunk <- mm_malloc c allocsize ;;
    if rawchunk =? 0 then ret NULL
    else
      mm_takesemaphore c ;;
      alignedchunk <- memalign_place rawchunk mask alignment size allocsize ;;
      mm_givesemaphore c ;;
      ret alignedchunk.

(** * Growing the heap *)

Definition mm_brkaddr (region : Z) : MM ptr :=
  DEBUGASSERT (ret (region =? 0)) ;;
  brkaddr <- gets mm_heapend ;;
  ret (if brkaddr =? NULL then NULL else brkaddr + SIZEOF_MM_ALLOCNODE).

Definition MIN_EXTEND : Z := 2 * SIZEOF_MM_ALLOCNODE.

Definition mm_extend (c : caller) (p : ptr) (size region : Z) : MM unit :=
  DEBUGASSERT (ret (negb (p =? NULL))) ;;
  DEBUGASSERT (ret ((MIN_EXTEND <=? size) && (region =? 0))) ;;
  let blockstart := p in
  let blockend := blockstart + size in
  DEBUGASSERT (ret (MM_ALIGN_UP blockstart =? blockstart)) ;;
  DEBUGASSERT (ret (MM_ALIGN_DOWN blockend =? blockend)) ;;
  mm_takesemaphore c ;;
  oldnode <- gets mm_heapend ;;
  DEBUGASSERT (ret (oldnode + SIZEOF_MM_ALLOCNODE =? p)) ;;
  wr (f_size oldnode) size ;;
  DEBUGASSERT (free <- is_free oldnode ;; ret (negb free)) ;;
  let newnode := blockend - SIZEOF_MM_ALLOCNODE in
  wr (f_size newnode) SIZEOF_MM_ALLOCNODE ;;
  osize <- rd (f_size oldnode) ;;
  wr (f_preceding newnode) (Z.lor osize MM_ALLOC_BIT) ;;
  modify (set_heapend newnode) ;;
  mm_givesemaphore c ;;
  mm_free c p.

(** * Statistics *)

(** The debug assertions on a free chunk's links. *)
Definition check_free (node : ptr) : MM unit :=
  DEBUGASSERT (sz <- rd (f_size node) ;; ret (SIZEOF_MM_FREENODE <=? sz)) ;;
  DEBUGASSERT (b <- rd (f_blink node) ;; bf <- rd (f_flink b) ;; ret (bf =? node)) ;;
  DEBUGASSERT (b <- rd (f_blink node) ;; bs <- rd (f_size b) ;;
               sz <- rd (f_size node) ;; ret (bs <=? sz)) ;;
  DEBUGASSERT (f <- rd (f_flink node) ;;
               if f =? NULL then ret true
               else fb <- rd (f_blink f) ;; ret (fb =? node)) ;;
  DEBUGASSERT (f <- rd (f_flink node) ;;
               if f =? NULL then ret true
               else fs <- rd (f_size f) ;; sz <- rd (f_size node) ;;
                    ret ((fs =? 0) || (sz <=? fs))).

(** Loop state: node, prev, mxordblk, ordblks, uordblks, fordblks. *)
Definition mallinfo_step (st : ptr * ptr * Z * Z * Z * Z)
    : MM ((ptr * ptr * Z * Z * Z * Z) + (ptr * Z * Z * Z * Z)) :=
  let '(node, prev, mx, ord, uord, ford) := st in
  fin <- gets mm_heapend ;;
  if node <? fin then
    free <- is_free node ;;
    size <- rd (f_size node) ;;
    (if free then check_free node
     else DEBUGASSERT (ret (SIZEOF_MM_ALLOCNODE <=? size))) ;;
    DEBUGASSERT (if prev =? NULL then ret true
                 else ps <- rd (f_size prev) ;; pr <- rd (f_preceding node) ;;
                      ret (ps =? Z.land pr (Z.lnot MM_ALLOC_BIT))) ;;
    if free then
      ret (inl (node + size, node, Z.max mx size, ord + 1, uord, u32 (ford + size)))
    else
      ret (inl (node + size, node, mx, ord, u32 (uord + size), ford))
  else ret (inr (node, mx, ord, uord, ford)).

Definition mm_mallinfo (c : caller) : MM mallinfo :=
  mm_takesemaphore c ;;
  start <- gets mm_heapstart ;;
  r <- with_fuel (fun fuel => loop fuel mallinfo_step (start, NULL, 0, 0, 0, 0)) ;;
  let '(node, mx, ord, uord, ford) := r : ptr * Z * Z * Z * Z in
  DEBUGASSERT (gets (fun s => node =? mm_heapend s)) ;;
  mm_givesemaphore c ;;
  let uord := u32 (uord + SIZEOF_MM_ALLOCNODE) in
  total <- gets mm_heapsize ;;
  DEBUGASSERT (ret (u32 (uord + ford) =? total)) ;;
  ret (Mallinfo total ord mx uord ford).
End Debug.
