(* ===== verification/HeapRep.v ===== *)
(** HeapRep: what memory holds between the statements of the memory manager -
    the headers of the chunks, the free list through the hooks of
    [mm_nodelist], the delay list - and what each group of statements that
    writes to them does to that. *)

From stdpp Require Import options.
From Stdlib Require Import Sorting.Sorted.
From S2P Require Import Prelude Heap.

#[local] Ltac Zify.zify_post_hook ::= Z.to_euclidean_division_equations.

Create HintDb mm.

(** * Running code that changes memory only *)

Definition upm (m : gmap Z Z) (s : mm_heap_s) : mm_heap_s := set_mem (fun _ => m) s.

(** [c], run in memory [m] with the other members of the heap as in [s],
    changes memory only and leaves it as [Q] says. *)
Definition mwp {A} (c : MM A) (Q : A -> gmap Z Z -> Prop) (s : mm_heap_s) (m : gmap Z Z) : Prop :=
  wp c (fun a s' => exists m', s' = upm m' s /\ Q a m') (upm m s).

Section Mwp.
Context (s : mm_heap_s).
Implicit Types m : gmap Z Z.

Lemma mwp_ret {A} (a : A) Q m : Q a m -> mwp (ret a) Q s m.
Proof. intros. exists m. done. Qed.

Lemma mwp_bind {A B} (c : MM A) (k : A -> MM B) Q m :
  mwp c (fun a m' => mwp (k a) Q s m') s m -> mwp (bind c k) Q s m.
Proof. intros H. apply wp_bind. eapply wp_mono; [exact H|]. by intros a s' (m' & -> & ?). Qed.

Lemma mwp_mono {A} (c : MM A) (P Q : A -> gmap Z Z -> Prop) m :
  mwp c P s m -> (forall a m', P a m' -> Q a m') -> mwp c Q s m.
Proof. intros H ?. eapply wp_mono; [exact H|]. intros a s' (m' & -> & ?). exists m'. auto. Qed.

Lemma mwp_rd a v Q m : m !! a = Some v -> Q v m -> mwp (rd a) Q s m.
Proof. intros H ?. apply (wp_getso _ v); [done|]. exists m. done. Qed.

Lemma mwp_wr a v (Q : unit -> gmap Z Z -> Prop) m :
  is_Some (m !! a) -> Q tt (<[a := v]> m) -> mwp (wr a v) Q s m.
Proof.
  intros [w Hw] ?. apply wp_bind, (wp_getso _ w); [done|]. apply wp_modify.
  exists (<[a := v]> m). done.
Qed.

Lemma mwp_getso {A} (f : mm_heap_s -> option A) a Q m :
  f (upm m s) = Some a -> Q a m -> mwp (getso f) Q s m.
Proof. intros H ?. apply (wp_getso _ a); [done|]. by exists m. Qed.

Lemma mwp_gets {A} (f : mm_heap_s -> A) Q m : Q (f (upm m s)) m -> mwp (gets f) Q s m.
Proof. intros. by exists m. Qed.

Lemma mwp_assert DEBUG (c : MM bool) (Q : unit -> gmap Z Z -> Prop) m :
  mwp c (fun b m' => b = true /\ m' = m) s m -> Q tt m -> mwp (DEBUGASSERT DEBUG c) Q s m.
Proof.
  intros H HQ. unfold DEBUGASSERT. destruct DEBUG; [|by apply mwp_ret].
  apply mwp_bind. eapply mwp_mono; [exact H|]. intros ? ? [-> ->]. by exists m.
Qed.

Lemma mwp_loop_step {A B} fuel (body : A -> MM (A + B)) a Q m :
  mwp (body a) (fun r m' => match r with
                            | inl a' => mwp (loop fuel body a') Q s m'
                            | inr b => Q b m'
                            end) s m ->
  mwp (loop (S fuel) body a) Q s m.
Proof.
  intros H. apply mwp_bind. eapply mwp_mono; [exact H|].
  intros [] m' ?; [done|by apply mwp_ret].
Qed.

Lemma mwp_fuel {A} (c : nat -> MM A) Q m :
  mwp (c (S (size m))) Q s m -> mwp (with_fuel c) Q s m.
Proof. done. Qed.
End Mwp.

(** Steps over the sequencing constructs and over reads whose value is known. *)
Ltac mstep :=
  lazymatch goal with
  | |- mwp (bind _ _) _ _ _ => apply mwp_bind
  | |- mwp (ret _) _ _ _ => apply mwp_ret
  | |- mwp (rd _) _ _ _ => eapply mwp_rd; [solve [eauto with mm]|]
  | |- mwp (wr _ _) _ _ _ => apply mwp_wr; [solve [eauto with mm]|]
  | |- mwp (gets _) _ _ _ => apply mwp_gets
  | |- mwp (DEBUGASSERT _ _) _ _ _ => apply mwp_assert
  | |- mwp (when true _) _ _ _ => unfold when
  | |- mwp (when false _) _ _ _ => unfold when
  end.

(** * The layout of the region *)

(** The heap's region runs from [hs] to the end of the last node, [he]; the
    hooks of the free list are outside of it. *)
Record geom (nl hs he : Z) : Prop := {
  g_hs : 0 < hs /\ hs mod 16 = 0;
  g_he : hs + 8 <= he /\ he mod 16 = 8;
  g_size : he + 8 - hs < 2 ^ 31;
  g_top : he + 8 < 2 ^ 32;
  g_nl : 0 < nl /\ nl mod 4 = 0;
  g_out : nl + 304 <= hs \/ he + 8 <= nl
}.

Definition reg (nl hs he a : Z) : Prop :=
  a mod 4 = 0 /\ (hs <= a < he + 8 \/ nl <= a < nl + 304).

(** An address where a chunk other than the first may start. *)
Definition hslot (hs he x : Z) : Prop := hs + 8 <= x <= he /\ x mod 16 = 8.

(** [o] is the offset of a member of the node at [x] (the first and the last
    node have no links). *)
Definition wd (nl hs he x o : Z) : Prop :=
  (o = 0 \/ o = 4 \/ o = 8 \/ o = 12) /\
  ((hslot hs he x /\ (x < he \/ o < 8)) \/
   (exists i, 0 <= i < 19 /\ x = nl + 16 * i) \/
   (x = hs /\ o < 8)).

Section Geom.
Context (nl hs he : Z) (G : geom nl hs he).

Lemma wd_uniq x o y o' :
  wd nl hs he x o -> wd nl hs he y o' -> x + o = y + o' -> x = y /\ o = o'.
Proof using All.
  destruct G as [[? ?] [? ?] ? ? [? ?] ?]. unfold wd, hslot.
  intros [Ho [[[? ?] ?]|[(i & ? & ->)|[-> ?]]]] [Ho' [[[? ?] ?]|[(j & ? & ->)|[-> ?]]]] ?; lia.
Qed.

Lemma wd_reg x o : wd nl hs he x o -> reg nl hs he (x + o).
Proof using All.
  destruct G as [[? ?] [? ?] ? ? [? ?] ?]. unfold wd, hslot, reg.
  intros [Ho [[[? ?] ?]|[(i & ? & ->)|[-> ?]]]]; lia.
Qed.

Lemma wd_pos x o : wd nl hs he x o -> 0 < x.
Proof using All.
  destruct G as [[? ?] [? ?] ? ? [? ?] ?]. unfold wd, hslot.
  intros [Ho [[[? ?] ?]|[(i & ? & ->)|[-> ?]]]]; lia.
Qed.
End Geom.

(** * Doubly linked segments of memory *)

(** The nodes [l] are linked in this order; the first one's [blink] is [p] and
    the last one's [flink] is [n]. *)
Fixpoint lk (m : gmap Z Z) (p : ptr) (l : list ptr) (n : ptr) : Prop :=
  match l with
  | [] => True
  | x :: l' => m !! (x + 8) = Some (hd_or n l') /\ m !! (x + 12) = Some p /\ lk m x l' n
  end.

(** The singly linked delay list: the chunks whose blocks are linked. *)
Fixpoint dlk (m : gmap Z Z) (l : list ptr) : Prop :=
  match l with
  | [] => True
  | x :: l' => m !! (x + 8) = Some (hd_or NULL (map (Z.add 8) l')) /\ dlk m l'
  end.

Lemma lk_app m p l1 l2 n :
  lk m p (l1 ++ l2) n <-> lk m p l1 (hd_or n l2) /\ lk m (last_or p l1) l2 n.
Proof.
  revert p. induction l1 as [|x l1 IH]; intros p; simpl; [tauto|].
  rewrite IH. destruct l1; simpl; tauto.
Qed.

Lemma lk_frame m m' p l n :
  (forall x, x ∈ l -> m' !! (x + 8) = m !! (x + 8) /\ m' !! (x + 12) = m !! (x + 12)) ->
  lk m p l n -> lk m' p l n.
Proof.
  revert p. induction l as [|x l IH]; intros p Hf; simpl; [done|].
  intros (? & ? & ?). destruct (Hf x) as [-> ->]; [set_solver|].
  split_and!; [done..|]. apply IH; [|done]. intros; apply Hf; set_solver.
Qed.

Lemma dlk_frame m m' l :
  (forall x, x ∈ l -> m' !! (x + 8) = m !! (x + 8)) -> dlk m l -> dlk m' l.
Proof.
  induction l as [|x l IH]; intros Hf; simpl; [done|]. intros [? ?].
  split; [by rewrite Hf by set_solver|]. apply IH; [|done]. intros; apply Hf; set_solver.
Qed.

Lemma lk_flink m p l1 x l2 n : lk m p (l1 ++ x :: l2) n -> m !! (x + 8) = Some (hd_or n l2).
Proof. rewrite lk_app. simpl. tauto. Qed.

Lemma lk_blink m p l1 x l2 n : lk m p (l1 ++ x :: l2) n -> m !! (x + 12) = Some (last_or p l1).
Proof. rewrite lk_app. simpl. tauto. Qed.

(** * Chunks *)

(** A chunk's header. *)
Record chunk := Chunk { csz : Z; cprev : Z; cal : bool }.
Abbreviation chunks := (gmap Z chunk).

Definition prec (c : chunk) : Z := cprev c + if cal c then MM_ALLOC_BIT else 0.
(** The header's numbers fit in it. *)
Definition cwf (c : chunk) : Prop := 0 <= csz c < 2 ^ 31 /\ 0 <= cprev c < 2 ^ 31.
Definition nsz (cs : chunks) (x : ptr) : Z := default 0 (csz <$> cs !! x).

(** ** The allocation bit *)

Lemma bit31 p : 0 <= p < 2 ^ 31 -> Z.land p MM_ALLOC_BIT = 0 /\ Z.lor p MM_ALLOC_BIT = p + MM_ALLOC_BIT.
Proof.
  intros Hp. assert (E : Z.land p MM_ALLOC_BIT = 0).
  { apply Z.bits_inj_0. intros n. rewrite Z.land_spec.
    change MM_ALLOC_BIT with (2 ^ 31). destruct (decide (n = 31)) as [->|].
    - rewrite <- (Z.mod_small p (2 ^ 31)), Z.mod_pow2_bits_high by lia. done.
    - rewrite Z.pow2_bits_false by lia. apply andb_false_r. }
  split; [done|]. by rewrite Z.add_nocarry_lxor, Z.lxor_lor by done.
Qed.

Section Prec.
Context (c : chunk) (W : cwf c).

Lemma prec_lor : prec c = if cal c then Z.lor (cprev c) MM_ALLOC_BIT else cprev c.
Proof using W. unfold prec. destruct (cal c); [|lia]. symmetry. apply bit31, W. Qed.

Lemma prec_bit : Z.land (prec c) MM_ALLOC_BIT = if cal c then MM_ALLOC_BIT else 0.
Proof using W.
  destruct W as [_ H]. rewrite prec_lor. destruct (cal c); [|by apply bit31].
  rewrite Z.land_lor_distr_l, (proj1 (bit31 _ H)). done.
Qed.

Lemma prec_free : (Z.land (prec c) MM_ALLOC_BIT =? 0) = negb (cal c).
Proof using W. rewrite prec_bit. by destruct (cal c). Qed.

Lemma prec_size : Z.land (prec c) (Z.lnot MM_ALLOC_BIT) = cprev c.
Proof using W.
  destruct W as [_ H].
  assert (E : Z.land (cprev c) (Z.lnot MM_ALLOC_BIT) = cprev c).
  { rewrite <- Z.ldiff_land. apply Z.bits_inj'. intros n Hn. rewrite Z.ldiff_spec.
    pose proof (f_equal (fun z => Z.testbit z n) (proj1 (bit31 _ H))) as Hb. simpl in Hb.
    rewrite Z.land_spec, Z.testbit_0_l in Hb. destruct (Z.testbit (cprev c) n); [|done].
    simpl in *. by rewrite Hb. }
  rewrite prec_lor. destruct (cal c); [|done].
  rewrite Z.land_lor_distr_l, E, Z.land_lnot_diag. by rewrite Z.lor_0_r.
Qed.

Lemma prec_clear sz : Z.land (prec c) (Z.lnot MM_ALLOC_BIT) = prec (Chunk sz (cprev c) false).
Proof using W. rewrite prec_size. unfold prec. simpl. lia. Qed.

Lemma prec_alloc sz : Z.lor (prec c) MM_ALLOC_BIT = prec (Chunk sz (cprev c) true).
Proof using W.
  destruct W as [_ H]. rewrite prec_lor. unfold prec at 1. simpl.
  destruct (cal c); [|by apply bit31]. rewrite <- Z.lor_assoc. by apply bit31.
Qed.

Lemma prec_set k sz : 0 <= k < 2 ^ 31 ->
  Z.lor k (Z.land (prec c) MM_ALLOC_BIT) = prec (Chunk sz k (cal c)).
Proof using W.
  intros Hk. rewrite prec_bit. unfold prec. simpl. destruct (cal c); [by apply bit31|].
  rewrite Z.lor_0_r. lia.
Qed.
End Prec.

(** ** The hook for a size *)

Lemma size2ndx_loop_spec fuel size ndx : 0 <= size < 2 ^ Z.of_nat fuel -> (0 < fuel)%nat ->
  size2ndx_loop fuel size ndx = Some (ndx + Z.log2 size).
Proof.
  revert size ndx. induction fuel as [|fuel IH]; intros size ndx Hs Hf; [lia|]. simpl.
  destruct (Z.ltb_spec 1 size) as [Hlt|Hge].
  - rewrite Nat2Z.inj_succ, Z.pow_succ_r in Hs by lia.
    assert (Hd : Z.shiftr size 1 = size / 2) by (by rewrite Z.shiftr_div_pow2 by lia).
    rewrite IH; [|rewrite Hd; lia|].
    + f_equal. rewrite Z.log2_shiftr by lia. pose proof (Z.log2_le_mono 2 size ltac:(lia)) as H2.
      change (Z.log2 2) with 1 in H2. lia.
    + destruct fuel; [simpl in Hs|]; lia.
  - assert (size = 0 \/ size = 1) as [-> | ->] by lia; f_equal; simpl; lia.
Qed.

Lemma mm_size2ndx_spec size : 0 <= size < 2 ^ 32 ->
  mm_size2ndx size = Some (if MM_MAX_CHUNK <=? size then 18 else Z.log2 (size / 16)).
Proof.
  intros. unfold mm_size2ndx. destruct (MM_MAX_CHUNK <=? size); [done|].
  change MM_MIN_SHIFT with 4. rewrite Z.shiftr_div_pow2 by lia. change (2 ^ 4) with 16.
  rewrite size2ndx_loop_spec; [f_equal; lia| |lia]. change (2 ^ Z.of_nat 32) with (2 ^ 32). lia.
Qed.

Lemma mm_size2ndx_mono size size' i j : 0 <= size <= size' -> size' < 2 ^ 32 ->
  mm_size2ndx size = Some i -> mm_size2ndx size' = Some j -> 0 <= i <= j /\ j < 19.
Proof.
  intros H1 H2. rewrite !mm_size2ndx_spec by lia. intros [= <-] [= <-].
  pose proof (Z.log2_nonneg (size / 16)) as H0. change MM_MAX_CHUNK with 4194304.
  destruct (Z.leb_spec 4194304 size), (Z.leb_spec 4194304 size'); try lia.
  - assert (Z.log2 (size / 16) < 18); [|lia].
    destruct (decide (size < 16)); [rewrite Z.div_small by lia; simpl; lia|].
    apply Z.log2_lt_pow2; lia.
  - assert (Z.log2 (size' / 16) < 18).
    { destruct (decide (size' < 16)); [rewrite Z.div_small by lia; simpl; lia|].
      apply Z.log2_lt_pow2; lia. }
    assert (Z.log2 (size / 16) <= Z.log2 (size' / 16)) by (apply Z.log2_le_mono; lia). lia.
Qed.

(** Blocks whose contents are not to be touched. *)
Definition inside (B : gmap Z Z) (a : Z) : Prop :=
  exists p n, B !! p = Some n /\ p <= a < p + n.

(** The free list: the hooks of [mm_nodelist] from the [k]-th on, each
    followed by the free chunks of its sizes. *)
Fixpoint hooks (nl k : Z) (bks : list (list ptr)) : list ptr :=
  match bks with
  | [] => []
  | b :: bks' => nodelist nl k :: b ++ hooks nl (k + 1) bks'
  end.

(** The free chunks of a hook: in ascending order of size, all of the sizes
    that belong to the hook. *)
Definition bucket_ok (cs : chunks) (i : nat) (b : list ptr) : Prop :=
  StronglySorted (fun x y => nsz cs x <= nsz cs y) b /\
  Forall (fun x => 16 <= nsz cs x /\ mm_size2ndx (nsz cs x) = Some (Z.of_nat i)) b.

Lemma bucket_ok_ext cs cs' i b :
  (forall x, x ∈ b -> nsz cs' x = nsz cs x) -> bucket_ok cs i b -> bucket_ok cs' i b.
Proof.
  intros E [Hs Hf]. split.
  - clear Hf. induction Hs as [|y l Hs IH Hy]; constructor; [apply IH; set_solver|].
    apply Forall_forall. intros z Hz. rewrite !E by set_solver. by eapply Forall_forall in Hy.
  - apply Forall_forall. intros y Hy. rewrite E by auto. by eapply Forall_forall in Hf.
Qed.

Lemma elem_concat {A} (ls : list (list A)) i l x : ls !! i = Some l -> x ∈ l -> x ∈ concat ls.
Proof.
  intros Hl Hx. apply list_elem_of_In, in_concat. exists l.
  split; apply list_elem_of_In; [by eapply list_elem_of_lookup_2|done].
Qed.

(** Memory [m] holds the chunks [cs], the free list with the chunks [bks] and
    the delay list [DL]; in the blocks [B] it is as in [m0]. *)
Record brep (nl hs he : Z) (B : gmap Z Z) (m0 m : gmap Z Z) (cs : chunks)
    (bks : list (list ptr)) (DL : list ptr) : Prop := {
  b_dom : forall a, reg nl hs he a -> is_Some (m !! a);
  b_hdr : forall x c, cs !! x = Some c -> m !! x = Some (csz c) /\ m !! (x + 4) = Some (prec c);
  b_cs : forall x c, cs !! x = Some c ->
           (x = hs \/ hslot hs he x) /\ ~ inside B x /\ ~ inside B (x + 4) /\ cwf c;
  b_lk : lk m NULL (hooks nl 0 bks) NULL;
  b_len : length bks = 19%nat;
  b_nd : NoDup (concat bks);
  b_bk : forall i b, bks !! i = Some b -> bucket_ok cs i b;
  b_in : forall x, x ∈ concat bks ->
           is_Some (cs !! x) /\ x <> hs /\ x < he /\ ~ inside B (x + 8) /\ ~ inside B (x + 12);
  b_heads : forall i, 0 <= i < 19 -> m !! nodelist nl i = Some 0;
  b_hout : forall a, nl <= a < nl + 304 -> ~ inside B a;
  b_dl : dlk m DL;
  b_din : forall x, x ∈ DL -> is_Some (cs !! x) /\ x <> hs /\ x < he /\ x ∉ concat bks;
  b_frame : forall a, inside B a -> m !! a = m0 !! a
}.

Lemma elem_hooks nl k bks x :
  x ∈ hooks nl k bks <->
  (exists i, k <= i < k + Z.of_nat (length bks) /\ x = nl + 16 * i) \/ x ∈ concat bks.
Proof.
  revert k. induction bks as [|b bks IH]; intros k; simpl.
  - split; [set_solver|]. intros [(i & ? & _)|?]; [lia|done].
  - rewrite elem_of_cons, !elem_of_app, IH. unfold nodelist, SIZEOF_MM_FREENODE. split.
    + intros [->|[?|[(i & ? & ->)|?]]]; [left; exists k; lia|tauto|left; exists i; lia|tauto].
    + intros [(i & ? & ->)|?]; [|tauto].
      destruct (decide (i = k)) as [->|]; [tauto|]. right. right. left. exists i. lia.
Qed.

Lemma wd_hdr nl hs he x o : x = hs \/ hslot hs he x -> o = 0 \/ o = 4 -> wd nl hs he x o.
Proof.
  unfold wd. intros [->|Hx] ?; (split; [tauto|]); [right; right|left]; split; try done; lia.
Qed.

Lemma wd_head nl hs he i o : 0 <= i < 19 -> o = 0 \/ o = 4 \/ o = 8 \/ o = 12 -> wd nl hs he (nl + 16 * i) o.
Proof. intros ? ?. split; [done|]. right. left. by exists i. Qed.

Lemma StronglySorted_app_r {A} (P : A -> A -> Prop) l1 l2 :
  StronglySorted P (l1 ++ l2) -> StronglySorted P l2.
Proof. induction l1; simpl; [done|]. inversion 1; auto. Qed.

Lemma StronglySorted_mid {A} (P : A -> A -> Prop) l1 x l2 :
  StronglySorted P (l1 ++ x :: l2) -> StronglySorted P (l1 ++ l2).
Proof.
  induction l1 as [|y l1 IH]; simpl; intros H; inversion H as [|? ? Hs Hf]; subst; [done|].
  constructor; [auto|]. rewrite Forall_app, Forall_cons in Hf. rewrite Forall_app. tauto.
Qed.

Lemma StronglySorted_app2 {A} (P : A -> A -> Prop) l1 l2 :
  StronglySorted P l1 -> StronglySorted P l2 -> (forall x y, x ∈ l1 -> y ∈ l2 -> P x y) ->
  StronglySorted P (l1 ++ l2).
Proof.
  induction 1 as [|x l1 H1 IH Hx]; simpl; intros H2 H; [done|].
  constructor; [apply IH; set_solver|]. rewrite Forall_app, !Forall_forall in *.
  split; [done|]. intros. apply H; set_solver.
Qed.

Lemma Permutation_cons_insert {A} (x : A) l1 q l2 : l1 ++ q :: x :: l2 ≡ₚ x :: l1 ++ q :: l2.
Proof. rewrite (Permutation_middle l1 _ x). f_equiv. constructor. Qed.

Lemma elem_concat_split {A} (ls : list (list A)) x :
  x ∈ concat ls -> exists bb1 b1 b2 bb2, ls = bb1 ++ (b1 ++ x :: b2) :: bb2.
Proof.
  intros (b & Hb & Hx)%list_elem_of_In%in_concat.
  apply list_elem_of_In in Hb, Hx.
  apply list_elem_of_split in Hb as (bb1 & bb2 & ->), Hx as (b1 & b2 & ->). eauto.
Qed.

Lemma nsz_insert_ne (cs : chunks) x c y : x <> y -> nsz (<[x := c]> cs) y = nsz cs y.
Proof. intros. unfold nsz. by rewrite lookup_insert_ne. Qed.

Lemma nsz_insert_eq (cs : chunks) x c d y : cs !! x = Some d -> csz c = csz d -> nsz (<[x := c]> cs) y = nsz cs y.
Proof.
  intros Hd E. destruct (decide (x = y)) as [<-|]; [|by apply nsz_insert_ne].
  unfold nsz. rewrite lookup_insert_eq, Hd. simpl. done.
Qed.

Lemma some_insert {A} (cs : gmap Z A) x c y : is_Some (cs !! y) -> is_Some (<[x := c]> cs !! y).
Proof. intros. destruct (decide (x = y)) as [<-|]; [by rewrite lookup_insert_eq|by rewrite lookup_insert_ne]. Qed.

Lemma sorted_insert cs ba bb x :
  StronglySorted (fun y z => nsz cs y <= nsz cs z) (ba ++ bb) ->
  Forall (fun y => nsz cs y < nsz cs x) ba ->
  (forall z, head bb = Some z -> nsz cs x <= nsz cs z) ->
  StronglySorted (fun y z => nsz cs y <= nsz cs z) (ba ++ x :: bb).
Proof.
  induction ba as [|y ba IH]; simpl; intros Hs Hf Hh.
  - constructor; [done|]. destruct Hs as [|z bb Hs Hz]; constructor; [by apply Hh|].
    eapply Forall_impl; [exact Hz|]. intros w ?. simpl in *. specialize (Hh z eq_refl). lia.
  - apply Forall_cons in Hf as [? Hf]. inversion Hs as [|? ? Hs' Hy]; subst.
    constructor; [auto|]. rewrite Forall_app, Forall_cons in *. destruct Hy.
    split_and!; [done|lia|done].
Qed.

Section Rep.
Context (nl hs he : Z) (G : geom nl hs he).
Context (B m0 : gmap Z Z).
#[local] Abbreviation wd := (wd nl hs he).
#[local] Abbreviation brep := (brep nl hs he B m0).

Lemma heap_not_head x i : x = hs \/ hslot hs he x -> 0 <= i < 19 -> x <> nl + 16 * i.
Proof using All.
  destruct G as [[? ?] [? ?] ? ? [? ?] ?]. unfold hslot. intros [->|[? ?]] ?; lia.
Qed.

Section Brep.
Context (m : gmap Z Z) (cs : chunks) (bks : list (list ptr)) (DL : list ptr).
Context (R : brep m cs bks DL).

Lemma brep_in_slot x : is_Some (cs !! x) -> x <> hs -> hslot hs he x.
Proof using R. intros [c Hc] ?. destruct (b_cs _ _ _ _ _ _ _ _ _ R x c Hc) as ([->|?] & _); done. Qed.

Lemma brep_link_wd x o : x ∈ hooks nl 0 bks -> o = 8 \/ o = 12 -> wd x o /\ ~ inside B (x + o).
Proof using G R.
  intros Hx Ho. rewrite elem_hooks, (b_len _ _ _ _ _ _ _ _ _ R) in Hx.
  destruct Hx as [(i & Hi & ->)|Hx].
  - split; [apply wd_head; lia|]. apply (b_hout _ _ _ _ _ _ _ _ _ R). lia.
  - destruct (b_in _ _ _ _ _ _ _ _ _ R x Hx) as (? & ? & ? & ? & ?).
    split; [|by destruct Ho as [->| ->]].
    split; [tauto|]. left. split; [by apply brep_in_slot|lia].
Qed.

Lemma brep_dl_wd x : x ∈ DL -> wd x 8.
Proof using R.
  intros Hx. destruct (b_din _ _ _ _ _ _ _ _ _ R x Hx) as (? & ? & ? & ?).
  split; [lia|]. left. split; [by apply brep_in_slot|lia].
Qed.

Lemma brep_cs_wd x o : is_Some (cs !! x) -> o = 0 \/ o = 4 -> wd x o /\ ~ inside B (x + o).
Proof using G R.
  intros [c Hc] Ho. destruct (b_cs _ _ _ _ _ _ _ _ _ R x c Hc) as (? & H0 & ? & _).
  split; [by apply wd_hdr|]. destruct Ho as [->| ->]; [by rewrite Z.add_0_r|done].
Qed.

Lemma brep_has x o : wd x o -> is_Some (m !! (x + o)).
Proof using G R. intros H. apply (b_dom _ _ _ _ _ _ _ _ _ R). by apply wd_reg. Qed.

Lemma hooks_nodup : NoDup (hooks nl 0 bks).
Proof using G R.
  pose proof (b_nd _ _ _ _ _ _ _ _ _ R) as Hnd.
  assert (Hc : forall x i, x ∈ concat bks -> 0 <= i < 19 -> x <> nl + 16 * i).
  { intros x i Hx Hi. destruct (b_in _ _ _ _ _ _ _ _ _ R x Hx) as (Hs & ? & ?).
    apply heap_not_head; [|done]. right. by apply brep_in_slot. }
  assert (Hl : 0 + Z.of_nat (length bks) <= 19) by (rewrite (b_len _ _ _ _ _ _ _ _ _ R); lia).
  clear R. revert Hnd Hc Hl. assert (H0 : 0 <= 0) by lia. revert H0. generalize 0 at 2 4 5 as k.
  induction bks as [|b l IH]; intros k Hk Hnd Hc Hl; [constructor|]. simpl in *.
  apply NoDup_app in Hnd as (Hb & Hbl & Hnd).
  assert (IH' : NoDup (hooks nl (k + 1) l)).
  { apply IH; [lia|done| |lia]. intros x i ?; apply Hc. set_solver. }
  constructor.
  - rewrite elem_of_app, elem_hooks. unfold nodelist, SIZEOF_MM_FREENODE.
    intros [?|[(i & ? & ?)|?]]; [eapply (Hc _ k); [|lia|done]; set_solver|lia|].
    eapply (Hc _ k); [|lia|done]. set_solver.
  - apply NoDup_app. split_and!; [done| |done]. intros x Hx. rewrite elem_hooks.
    intros [(i & ? & ?)|?]; [|by eapply Hbl]. eapply (Hc x i); [set_solver|lia|done].
Qed.
End Brep.

(** ** Headers *)

Lemma wd_ne (m : gmap Z Z) x o y o' v :
  wd x o -> wd y o' -> x <> y \/ o <> o' -> <[x + o := v]> m !! (y + o') = m !! (y + o').
Proof using G.
  intros Hx Hy Hne. apply lookup_insert_ne. intros E.
  destruct (wd_uniq _ _ _ G _ _ _ _ Hx Hy E). tauto.
Qed.

(** A write to a header. *)
Lemma brep_header m cs bks DL x o v cs' :
  brep m cs bks DL -> x = hs \/ hslot hs he x -> o = 0 \/ o = 4 -> ~ inside B (x + o) ->
  (forall y c, cs' !! y = Some c -> (y = hs \/ hslot hs he y) /\
     (y <> x -> cs !! y = Some c) /\
     (y = x -> (<[x + o := v]> m) !! x = Some (csz c) /\
               (<[x + o := v]> m) !! (x + 4) = Some (prec c) /\
               ~ inside B x /\ ~ inside B (x + 4) /\ cwf c)) ->
  (forall y, y ∈ concat bks \/ y ∈ DL -> is_Some (cs' !! y)) ->
  (forall y, y ∈ concat bks -> nsz cs' y = nsz cs y) ->
  brep (<[x + o := v]> m) cs' bks DL.
Proof using G.
  intros R Hx Ho Hout Hcs Hin Hsz. pose proof (wd_hdr nl hs he x o Hx Ho) as Hw.
  pose proof R as R'.
  destruct R as [Hdom Hhdr Hc Hlk Hlen Hnd Hbk Hin' Hheads Hhout Hdl Hdin Hfr].
  split; try done.
  - intros a Ha. destruct (decide (a = x + o)) as [->|]; [by rewrite lookup_insert_eq|].
    rewrite lookup_insert_ne by done. auto.
  - intros y c Hy. destruct (Hcs y c Hy) as (Hreg & Hne & Heq).
    destruct (decide (y = x)) as [->|n]; [destruct (Heq eq_refl) as (? & ? & _); done|].
    specialize (Hne n). destruct (Hhdr y c Hne).
    rewrite <- (Z.add_0_r y) at 1. rewrite !wd_ne by first [done | by left | by apply wd_hdr; auto].
    by rewrite Z.add_0_r.
  - intros y c Hy. destruct (Hcs y c Hy) as (Hreg & Hne & Heq). split; [done|].
    destruct (decide (y = x)) as [->|n]; [tauto|]. by destruct (Hc y c (Hne n)).
  - eapply lk_frame, Hlk. intros y Hy.
    split; (apply wd_ne; [done|eapply brep_link_wd; eauto|right; lia]).
  - intros i b Hb. eapply bucket_ok_ext; [|by auto]. intros. by eapply Hsz, elem_concat.
  - intros y Hy. split; [auto|]. by destruct (Hin' y Hy) as (_ & ?).
  - intros i Hi. specialize (Hheads i Hi). unfold nodelist, SIZEOF_MM_FREENODE in *.
    rewrite <- (Z.add_0_r (nl + _)), wd_ne; [by rewrite Z.add_0_r|done|by apply wd_head; lia|].
    left. by apply heap_not_head.
  - eapply dlk_frame, Hdl. intros y Hy.
    apply wd_ne; [done|eapply brep_dl_wd; eauto|right; lia].
  - intros y Hy. split; [auto|]. by destruct (Hdin y Hy) as (_ & ?).
  - intros a Ha. rewrite lookup_insert_ne by congruence. auto.
Qed.

Lemma brep_some m cs bks DL y :
  brep m cs bks DL -> y ∈ concat bks \/ y ∈ DL -> is_Some (cs !! y).
Proof using.
  intros R [Hy|Hy]; [by apply (b_in _ _ _ _ _ _ _ _ _ R) in Hy as []|].
  by apply (b_din _ _ _ _ _ _ _ _ _ R) in Hy as [].
Qed.

Lemma brep_size m cs bks DL x c v :
  brep m cs bks DL -> cs !! x = Some c -> x ∉ concat bks -> 0 <= v < 2 ^ 31 ->
  brep (<[x := v]> m) (<[x := Chunk v (cprev c) (cal c)]> cs) bks DL.
Proof using G.
  intros R Hc Hx Hv. destruct (b_cs _ _ _ _ _ _ _ _ _ R x c Hc) as (Hreg & ? & ? & [? ?]).
  destruct (b_hdr _ _ _ _ _ _ _ _ _ R x c Hc).
  rewrite <- (Z.add_0_r x) at 1. apply (brep_header m cs); try done; try lia.
  - by rewrite Z.add_0_r.
  - intros y d. rewrite lookup_insert_Some. intros [[<- <-]|[? Hy]].
    + split_and!; [done..|]. intros _. simpl. rewrite Z.add_0_r, lookup_insert_eq.
      rewrite lookup_insert_ne by lia. done.
    + split_and!; [by apply (b_cs _ _ _ _ _ _ _ _ _ R y d)|done..].
  - intros. by apply some_insert, (brep_some m cs bks DL).
  - intros y Hy. apply nsz_insert_ne. set_solver.
Qed.

Lemma brep_prec m cs bks DL x c c' :
  brep m cs bks DL -> cs !! x = Some c -> csz c' = csz c -> cwf c' ->
  brep (<[x + 4 := prec c']> m) (<[x := c']> cs) bks DL.
Proof using G.
  intros R Hc Hx Hwf. destruct (b_cs _ _ _ _ _ _ _ _ _ R x c Hc) as (Hreg & ? & ? & ?).
  destruct (b_hdr _ _ _ _ _ _ _ _ _ R x c Hc).
  apply (brep_header m cs); try done; try lia.
  - intros y d. rewrite lookup_insert_Some. intros [[<- <-]|[? Hy]].
    + split_and!; [done..|]. intros _. rewrite lookup_insert_ne, lookup_insert_eq by lia.
      by rewrite Hx.
    + split_and!; [by apply (b_cs _ _ _ _ _ _ _ _ _ R y d)|done..].
  - intros. by apply some_insert, (brep_some m cs bks DL).
  - intros y Hy. by eapply nsz_insert_eq.
Qed.

Lemma brep_new1 m cs bks DL x v :
  brep m cs bks DL -> cs !! x = None -> hslot hs he x -> ~ inside B x ->
  brep (<[x := v]> m) cs bks DL.
Proof using G.
  intros R Hc Hreg ?. rewrite <- (Z.add_0_r x). apply (brep_header m cs); try done; try lia; [tauto| | |].
  - by rewrite Z.add_0_r.
  - intros y d Hy. split_and!; [by apply (b_cs _ _ _ _ _ _ _ _ _ R y d)|done|].
    intros ->. congruence.
  - intros y. by apply brep_some with m.
Qed.

Lemma brep_new2 m cs bks DL x c :
  brep m cs bks DL -> cs !! x = None -> hslot hs he x -> ~ inside B x -> ~ inside B (x + 4) -> cwf c ->
  m !! x = Some (csz c) ->
  brep (<[x + 4 := prec c]> m) (<[x := c]> cs) bks DL.
Proof using G.
  intros R Hc Hreg ? ? ? Hm. apply (brep_header _ cs); try done; try lia; [tauto| | |].
  - intros y d. rewrite lookup_insert_Some. intros [[<- <-]|[? Hy]].
    + split_and!; [by right|done|]. intros _.
      rewrite lookup_insert_ne by lia. by rewrite lookup_insert_eq.
    + split_and!; [by apply (b_cs _ _ _ _ _ _ _ _ _ R y d)|done..].
  - intros. by apply some_insert, (brep_some m cs bks DL).
  - intros y Hy. apply nsz_insert_ne. intros ->.
    destruct (brep_some _ _ _ _ y R (or_introl Hy)). congruence.
Qed.

Lemma brep_delete m cs bks DL x :
  brep m cs bks DL -> x ∉ concat bks -> x ∉ DL -> brep m (delete x cs) bks DL.
Proof using G.
  intros R Hx Hd. assert (Hn : forall y, y ∈ concat bks -> nsz (delete x cs) y = nsz cs y).
  { intros y ?. unfold nsz. rewrite lookup_delete_ne; [done|set_solver]. }
  destruct R as [Hdom Hhdr Hc Hlk Hlen Hnd Hbk Hin' Hheads Hhout Hdl Hdin Hfr].
  split; try done.
  - intros y c. rewrite lookup_delete_Some. intros [_ ?]. auto.
  - intros y c. rewrite lookup_delete_Some. intros [_ ?]. eauto.
  - intros i b Hb. eapply bucket_ok_ext; [|by auto]. intros. by eapply Hn, elem_concat.
  - intros y Hy. rewrite lookup_delete_ne by set_solver. auto.
  - intros y Hy. rewrite lookup_delete_ne by set_solver. auto.
Qed.

(** ** Links *)

Definition linked (l : list ptr) : Prop := forall x, x ∈ l -> wd x 8 /\ wd x 12.

Lemma lk_wr_out m x o v p l n :
  wd x o -> linked l -> x ∉ l \/ o = 0 \/ o = 4 -> lk m p l n -> lk (<[x + o := v]> m) p l n.
Proof using G.
  intros Hx Hl Hne. apply lk_frame. intros y Hy. destruct (Hl y Hy).
  assert (x <> y \/ o = 0 \/ o = 4) by (destruct Hne; [left; set_solver|tauto]).
  split; apply wd_ne; (done || lia).
Qed.

Lemma linked_app l1 l2 : linked (l1 ++ l2) <-> linked l1 /\ linked l2.
Proof using. unfold linked. setoid_rewrite elem_of_app. naive_solver. Qed.

Lemma linked_cons x l : linked (x :: l) <-> (wd x 8 /\ wd x 12) /\ linked l.
Proof using. unfold linked. setoid_rewrite elem_of_cons. naive_solver. Qed.

(** The [blink] of the node behind, if there is one. *)
Definition set_blink (l : list ptr) (v : Z) (m : gmap Z Z) : gmap Z Z :=
  match l with [] => m | z :: _ => <[z + 12 := v]> m end.

Lemma lk_set_blink m p q l n :
  linked l -> NoDup l -> lk m p l n -> lk (set_blink l q m) q l n.
Proof using G.
  destruct l as [|z l]; simpl; [done|]. rewrite linked_cons, NoDup_cons.
  intros [[? ?] ?] [? ?] (? & ? & ?). rewrite lookup_insert_eq, wd_ne by (done || lia).
  split_and!; [done..|]. apply lk_wr_out; auto.
Qed.

Lemma lk_set_blink_out m l v p l' n :
  linked l -> linked l' -> (forall x, x ∈ l -> x ∉ l') -> lk m p l' n -> lk (set_blink l v m) p l' n.
Proof using G.
  destruct l as [|z l]; simpl; [done|]. rewrite linked_cons. intros [[? ?] ?] ? Hd ?.
  apply lk_wr_out; try done. left. apply Hd. set_solver.
Qed.

Lemma set_blink_ne l v m y o :
  linked l -> wd y o -> (forall x, x ∈ l -> x <> y) \/ o <> 12 ->
  set_blink l v m !! (y + o) = m !! (y + o).
Proof using G.
  destruct l as [|z l]; simpl; [done|]. rewrite linked_cons. intros [[? ?] ?] ? Hd.
  apply wd_ne; try done. destruct Hd as [Hd|]; [left; apply Hd; set_solver|right; lia].
Qed.

Lemma lk_insert m l1 q l2 x :
  NoDup (l1 ++ q :: x :: l2) -> linked (l1 ++ q :: x :: l2) ->
  lk m NULL (l1 ++ q :: l2) NULL ->
  lk (set_blink l2 x (<[x + 8 := hd_or NULL l2]> (<[x + 12 := q]> (<[q + 8 := x]> m))))
     NULL (l1 ++ q :: x :: l2) NULL.
Proof using G.
  rewrite linked_app, !linked_cons. intros Hnd (Hl1 & (Hq8 & Hq12) & (Hx8 & Hx12) & Hl2).
  rewrite !lk_app. simpl. intros (H1 & Hqf & Hqb & H2).
  apply NoDup_app in Hnd as (Hnd1 & Hd1 & Hnd). rewrite !NoDup_cons in Hnd.
  destruct Hnd as (Hq & Hx & Hnd2).
  assert (q <> x) by set_solver. assert (q ∉ l1 /\ x ∉ l1) as [] by set_solver.
  assert (forall z, z ∈ l2 -> z <> q /\ z <> x /\ z ∉ l1) as Hz by set_solver.
  rewrite !set_blink_ne by (done || (left; intros; apply Hz; done)).
  rewrite lookup_insert_eq, !(wd_ne _ x 8) by (done || (left; done) || (right; lia)).
  rewrite lookup_insert_eq, !(wd_ne _ x 12) by (done || (left; done) || (right; lia)).
  rewrite lookup_insert_eq, !(wd_ne _ q 8) by (done || (left; done) || (right; lia)).
  split_and!; try done.
  - apply lk_set_blink_out; [done|done|naive_solver|].
    do 3 (apply lk_wr_out; [done|done|by left|]). done.
  - apply lk_set_blink with q; [done|done|].
    do 3 (apply lk_wr_out; [done|done|left; set_solver|]). done.
Qed.

Lemma lk_remove m l1 q l2 x :
  NoDup (l1 ++ q :: x :: l2) -> linked (l1 ++ q :: x :: l2) ->
  lk m NULL (l1 ++ q :: x :: l2) NULL ->
  lk (set_blink l2 q (<[q + 8 := hd_or NULL l2]> m)) NULL (l1 ++ q :: l2) NULL.
Proof using G.
  rewrite linked_app, !linked_cons. intros Hnd (Hl1 & (Hq8 & Hq12) & (Hx8 & Hx12) & Hl2).
  rewrite !lk_app. simpl. intros (H1 & Hqf & Hqb & Hxf & Hxb & H2).
  apply NoDup_app in Hnd as (Hnd1 & Hd1 & Hnd). rewrite !NoDup_cons in Hnd.
  destruct Hnd as (Hq & Hx & Hnd2). assert (q ∉ l1) by set_solver.
  assert (forall z, z ∈ l2 -> z <> q /\ z ∉ l1) as Hz by set_solver.
  rewrite !set_blink_ne by (done || (left; intros; apply Hz; done)).
  rewrite lookup_insert_eq, (wd_ne _ q 8) by (done || (right; lia)).
  split_and!; try done.
  - apply lk_set_blink_out; [done|done|naive_solver|].
    apply lk_wr_out; [done|done|by left|]. done.
  - apply lk_set_blink with x; [done|done|].
    apply lk_wr_out; [done|done|left; set_solver|]. done.
Qed.

(** Memory after writes to links. *)
Inductive lchg (DL : list ptr) (m : gmap Z Z) : gmap Z Z -> Prop :=
| lchg_refl : lchg DL m m
| lchg_wr m' y o v :
    lchg DL m m' -> wd y o -> o = 8 \/ o = 12 -> y ∉ DL -> ~ inside B (y + o) ->
    lchg DL m (<[y + o := v]> m').

Lemma lchg_some DL m m' a : lchg DL m m' -> is_Some (m !! a) -> is_Some (m' !! a).
Proof using. induction 1; intros; [done|]. apply some_insert. auto. Qed.

Lemma lchg_same DL m m' y o :
  lchg DL m m' -> wd y o -> o = 0 \/ o = 4 \/ y ∈ DL -> m' !! (y + o) = m !! (y + o).
Proof using G.
  induction 1; intros; [done|]. rewrite wd_ne; [auto|done..|].
  destruct (decide (y = y0)) as [->|]; [right; set_solver by lia|left; done].
Qed.

Lemma lchg_inside DL m m' a : lchg DL m m' -> inside B a -> m' !! a = m !! a.
Proof using. induction 1; intros; [done|]. rewrite lookup_insert_ne; [auto|congruence]. Qed.

Lemma lchg_blink DL m m' l v :
  lchg DL m m' -> linked l -> (forall x, x ∈ l -> x ∉ DL /\ ~ inside B (x + 12)) ->
  lchg DL m (set_blink l v m').
Proof using G.
  intros H Hl Hd. destruct l as [|z l]; simpl; [done|].
  apply linked_cons in Hl as [[_ ?] _]. destruct (Hd z) as []; [set_solver|].
  constructor; auto.
Qed.

(** A change of links. *)
Lemma brep_links m cs bks DL m' bks' :
  brep m cs bks DL ->
  lchg DL m m' ->
  lk m' NULL (hooks nl 0 bks') NULL -> length bks' = 19%nat -> NoDup (concat bks') ->
  (forall i b, bks' !! i = Some b -> bucket_ok cs i b) ->
  (forall x, x ∈ concat bks' ->
     x ∈ concat bks \/
     (is_Some (cs !! x) /\ x <> hs /\ x < he /\ ~ inside B (x + 8) /\ ~ inside B (x + 12) /\ x ∉ DL)) ->
  brep m' cs bks' DL.
Proof using G.
  intros R Hchg Hlk' Hlen' Hnd' Hbk' Hin2.
  pose proof (fun a => lchg_some DL m m' a Hchg) as Hdom'.
  pose proof (fun y o => lchg_same DL m m' y o Hchg) as Hsame.
  pose proof (fun a => lchg_inside DL m m' a Hchg) as Hfr'.
  pose proof R as R'.
  destruct R as [Hdom Hhdr Hc Hlk Hlen Hnd Hbk Hin' Hheads Hhout Hdl Hdin Hfr].
  split; try done.
  - auto.
  - intros x c Hx. destruct (Hhdr x c Hx), (Hc x c Hx) as (? & _).
    rewrite <- (Z.add_0_r x) at 1. rewrite !Hsame by (by apply wd_hdr; auto) || auto.
    by rewrite Z.add_0_r.
  - intros x Hx. destruct (Hin2 x Hx) as [?|?]; [auto|tauto].
  - intros i Hi. rewrite <- (Z.add_0_r (nodelist nl i)), Hsame; [|by apply wd_head; lia|lia].
    rewrite Z.add_0_r. auto.
  - eapply dlk_frame, Hdl. intros. apply Hsame; [by eapply brep_dl_wd|tauto].
  - intros x Hx. destruct (Hdin x Hx) as (? & ? & ? & ?). split_and!; try done.
    intros [?|(_ & _ & _ & _ & _ & ?)]%Hin2; done.
  - intros a Ha. rewrite Hfr' by done. auto.
Qed.

(** ** Hooks and buckets *)

Lemma hooks_split k b1 b b2 :
  hooks nl k (b1 ++ b :: b2) =
  hooks nl k b1 ++ nodelist nl (k + Z.of_nat (length b1)) :: b ++
  hooks nl (k + Z.of_nat (length b1) + 1) b2.
Proof using.
  revert k. induction b1 as [|x b1 IH]; intros k; simpl.
  - by rewrite Z.add_0_r.
  - rewrite IH, <- app_assoc.
    by replace (k + 1 + Z.of_nat (length b1)) with (k + Z.of_nat (S (length b1))) by lia.
Qed.

(** The list in front of a chunk of the free list ends in a node. *)
Lemma hooks_at k bb1 b1 x b2 bb2 : exists l1 q,
  hooks nl k (bb1 ++ (b1 ++ x :: b2) :: bb2) =
    l1 ++ q :: x :: b2 ++ hooks nl (k + Z.of_nat (length bb1) + 1) bb2 /\
  hooks nl k (bb1 ++ (b1 ++ b2) :: bb2) =
    l1 ++ q :: b2 ++ hooks nl (k + Z.of_nat (length bb1) + 1) bb2 /\
  q = last_or (nodelist nl (k + Z.of_nat (length bb1))) b1.
Proof using.
  rewrite !hooks_split, <- !app_assoc. simpl.
  set (h := nodelist nl _). set (r := hooks nl _ bb2). generalize (hooks nl k bb1) as l0.
  destruct b1 as [|y b1'] using rev_ind; intros l0; [by exists l0, h|].
  exists (l0 ++ h :: b1'), y. rewrite last_or_app, <- !app_assoc. done.
Qed.

Lemma buckets_replace cs (bb1 bb2 : list (list ptr)) b b' :
  bucket_ok cs (length bb1) b' ->
  (forall i d, (bb1 ++ b :: bb2) !! i = Some d -> bucket_ok cs i d) ->
  (forall i d, (bb1 ++ b' :: bb2) !! i = Some d -> bucket_ok cs i d).
Proof using.
  intros Hb H i d. rewrite lookup_app_Some. intros [Hi|[Hge Hi]].
  - apply H. rewrite lookup_app_l; [done|]. by eapply lookup_lt_Some.
  - destruct (i - length bb1)%nat as [|k] eqn:E; simpl in Hi.
    + simplify_eq. by replace i with (length bb1) by lia.
    + apply H. rewrite lookup_app_r by done. by rewrite E.
Qed.

(** ** The free list as a set *)

Definition mrep (m : gmap Z Z) (cs : chunks) (F : gset Z) (DL : list ptr) : Prop :=
  exists bks, brep m cs bks DL /\ forall x, x ∈ F <-> x ∈ concat bks.

Context (DEBUG : bool) (s : mm_heap_s).

(** The memory after the statements of [mm_unlink]. *)
Lemma mwp_unlink_mem m cs bks DL l1 q x l2 (Q : unit -> gmap Z Z -> Prop) :
  brep m cs bks DL -> hooks nl 0 bks = l1 ++ q :: x :: l2 ->
  Q tt (set_blink l2 q (<[q + 8 := hd_or NULL l2]> m)) -> mwp (mm_unlink DEBUG x) Q s m.
Proof using G.
  intros R E HQ. pose proof (hooks_nodup m cs bks DL R) as Hnd.
  pose proof (b_lk _ _ _ _ _ _ _ _ _ R) as Hlk.
  assert (Hl : linked (hooks nl 0 bks)).
  { intros y Hy. split; eapply brep_link_wd; eauto. }
  rewrite E in Hnd, Hlk, Hl.
  assert (Hf : m !! (x + 8) = Some (hd_or NULL l2)).
  { apply (lk_flink m NULL (l1 ++ [q]) x l2 NULL). by rewrite <- app_assoc. }
  assert (Hb : m !! (x + 12) = Some q).
  { rewrite (lk_blink m NULL (l1 ++ [q]) x l2 NULL) by (by rewrite <- app_assoc).
    by rewrite last_or_app. }
  rewrite linked_app, !linked_cons in Hl. destruct Hl as (_ & [Hq8 _] & [Hx8 Hx12] & Hl2).
  assert (Hqx : q <> x) by (apply NoDup_app in Hnd as (_ & _ & Hnd); rewrite !NoDup_cons in Hnd; set_solver).
  pose proof (wd_pos _ _ _ G _ _ Hq8).
  unfold mm_unlink, f_blink, f_flink. apply mwp_bind, mwp_assert.
  { apply mwp_bind. eapply mwp_rd; [done|]. apply mwp_ret. split; [|done].
    apply negb_true_iff, Z.eqb_neq. unfold NULL. lia. }
  do 2 (apply mwp_bind; eapply mwp_rd; [done|]).
  apply mwp_bind, mwp_wr; [by apply (brep_has m cs bks DL R)|].
  apply mwp_bind. eapply mwp_rd; [by rewrite wd_ne by first [done | by left]|].
  destruct l2 as [|z l2]; simpl in *; [by apply mwp_ret|].
  apply linked_cons in Hl2 as [[_ Hz] _]. pose proof (wd_pos _ _ _ G _ _ Hz).
  replace (z =? NULL) with false by (unfold NULL; lia). simpl.
  apply mwp_bind. eapply mwp_rd; [by rewrite wd_ne by first [done | by left]|].
  apply mwp_wr; [|done]. apply some_insert. by apply (brep_has m cs bks DL R).
Qed.

Lemma hooks_not_dl m cs bks DL x o :
  brep m cs bks DL -> x ∈ hooks nl 0 bks -> o = 8 \/ o = 12 -> x ∉ DL /\ ~ inside B (x + o).
Proof using G.
  intros R Hx Ho. split; [|by apply (brep_link_wd m cs bks DL R)].
  intros Hd. destruct (b_din _ _ _ _ _ _ _ _ _ R x Hd) as (Hs & Hh & _ & Hc).
  rewrite elem_hooks, (b_len _ _ _ _ _ _ _ _ _ R) in Hx. destruct Hx as [(i & Hi & ->)|]; [|done].
  eapply (heap_not_head _ i); [right|lia|done]. by eapply brep_in_slot.
Qed.

Lemma mwp_unlink m cs F DL x (Q : unit -> gmap Z Z -> Prop) :
  mrep m cs F DL -> x ∈ F ->
  (forall m', mrep m' cs (F ∖ {[x]}) DL -> Q tt m') -> mwp (mm_unlink DEBUG x) Q s m.
Proof using G.
  intros (bks & R & HF) Hx HQ. apply HF, elem_concat_split in Hx as (bb1 & b1 & b2 & bb2 & ->).
  destruct (hooks_at 0 bb1 b1 x b2 bb2) as (l1 & q & E & E' & _).
  eapply mwp_unlink_mem; [done..|]. apply HQ.
  exists (bb1 ++ (b1 ++ b2) :: bb2).
  pose proof (b_nd _ _ _ _ _ _ _ _ _ R) as Hnd.
  rewrite concat_app in Hnd, HF. simpl in Hnd, HF. rewrite <- app_assoc in Hnd, HF. simpl in Hnd, HF.
  assert (Hc : concat (bb1 ++ (b1 ++ b2) :: bb2) = concat bb1 ++ b1 ++ b2 ++ concat bb2).
  { rewrite concat_app. simpl. by rewrite <- !app_assoc. }
  rewrite app_assoc in Hnd.
  assert (Hx : x ∉ concat bb1 ++ b1 ++ b2 ++ concat bb2).
  { apply NoDup_app in Hnd as (_ & Hd & [? _]%NoDup_cons). set_solver. }
  split; [|intros y; rewrite Hc; set_solver].
  assert (Hl : linked (l1 ++ q :: x :: b2 ++ hooks nl (0 + Z.of_nat (length bb1) + 1) bb2)).
  { rewrite <- E. intros y Hy. split; eapply brep_link_wd; eauto. }
  assert (Hh : forall y o, y ∈ l1 ++ q :: x :: b2 ++ hooks nl (0 + Z.of_nat (length bb1) + 1) bb2 ->
                 o = 8 \/ o = 12 -> y ∉ DL /\ ~ inside B (y + o)).
  { rewrite <- E. intros. by eapply hooks_not_dl. }
  pose proof Hl as Hl'. rewrite linked_app, !linked_cons in Hl'. destruct Hl' as (_ & [? _] & _ & ?).
  eapply (brep_links _ _ _ _ _ _ R).
  - apply lchg_blink; [|done|intros y Hy; apply (Hh y 12); [set_solver|tauto]].
    constructor; [constructor|done|tauto|apply (Hh q 8)..]; (set_solver || tauto).
  - rewrite E'. apply lk_remove with x; [|done|rewrite <- E; apply R].
    rewrite <- E. eapply hooks_nodup, R.
  - pose proof (b_len _ _ _ _ _ _ _ _ _ R) as Hlen. rewrite !length_app in *. done.
  - rewrite Hc, app_assoc. by eapply NoDup_mid.
  - eapply buckets_replace, R.
    destruct (b_bk _ _ _ _ _ _ _ _ _ R (length bb1) (b1 ++ x :: b2)) as [Hs Hf]; [by apply list_lookup_middle|].
    split; [by eapply StronglySorted_mid|].
    rewrite Forall_app, Forall_cons in Hf. rewrite Forall_app. tauto.
  - intros y Hy. left. rewrite concat_app. simpl. rewrite Hc in Hy. set_solver.
Qed.

(** ** Adding a free chunk *)

Lemma mwp_add_loop m cs size b R prev fuel Q :
  lk m prev (b ++ R) NULL ->
  (forall y, y ∈ b -> 0 < y /\ m !! y = Some (nsz cs y) /\ 0 < nsz cs y) ->
  (forall z, head R = Some z -> 0 < z /\ m !! z = Some 0) ->
  (length b < fuel)%nat ->
  (forall ba bb, b = ba ++ bb -> Forall (fun y => nsz cs y < size) ba ->
     (forall z, head bb = Some z -> size <= nsz cs z) ->
     Q (last_or prev ba, hd_or NULL (bb ++ R)) m) ->
  mwp (loop fuel (add_step size) (prev, hd_or NULL (b ++ R))) Q s m.
Proof using G.
  revert prev fuel Q. induction b as [|y b IH]; intros prev fuel Q Hlk Hb HR Hf HQ.
  - destruct fuel as [|fuel]; [simpl in Hf; lia|]. apply mwp_loop_step. unfold add_step.
    specialize (HQ [] [] eq_refl (Forall_nil_2 _) ltac:(done)). simpl in *.
    destruct R as [|z R]; [by apply mwp_ret|]. destruct (HR z eq_refl). simpl in *.
    replace (z =? NULL) with false by (unfold NULL; lia).
    apply mwp_bind. eapply mwp_rd; [done|]. simpl. by apply mwp_ret.
  - destruct fuel as [|fuel]; [simpl in Hf; lia|]. apply mwp_loop_step. unfold add_step.
    destruct (Hb y) as (? & Hy & ?); [set_solver|]. simpl in *.
    destruct Hlk as (Hfl & Hbl & Hlk).
    replace (y =? NULL) with false by (unfold NULL; lia).
    apply mwp_bind. eapply mwp_rd; [done|].
    replace (nsz cs y =? 0) with false by lia. simpl.
    destruct (Z.ltb_spec (nsz cs y) size).
    + apply mwp_bind. eapply mwp_rd; [done|]. apply mwp_ret.
      apply IH; [done|set_solver|done|lia|].
      intros ba bb -> ? ?. apply (HQ (y :: ba) bb); [done|by constructor|done].
    + apply mwp_ret. apply (HQ [] (y :: b)); [done|done|]. by intros z [= <-].
Qed.

Lemma brep_nsz m cs bks DL x c : brep m cs bks DL -> cs !! x = Some c -> m !! x = Some (nsz cs x).
Proof using. intros R Hc. destruct (b_hdr _ _ _ _ _ _ _ _ _ R x c Hc). unfold nsz. by rewrite Hc. Qed.

Lemma hooks_fuel m cs bks DL : brep m cs bks DL -> (length (hooks nl 0 bks) <= size m)%nat.
Proof using G.
  intros R. rewrite <- (length_map (fun x => x + 8)). apply NoDup_length_size.
  - apply NoDup_fmap_2; [intros ? ? ?; lia|]. eapply hooks_nodup, R.
  - intros p Hp. apply list_elem_of_In, in_map_iff in Hp as (x & <- & Hx).
    apply list_elem_of_In in Hx. eapply brep_has; [exact R|]. eapply brep_link_wd; eauto.
Qed.

(** The state after a chunk has been linked in at its place. *)
Lemma brep_add m cs bb1 ba bb bb2 DL x c :
  brep m cs (bb1 ++ (ba ++ bb) :: bb2) DL -> cs !! x = Some c -> x ∉ concat (bb1 ++ (ba ++ bb) :: bb2) ->
  x ∉ DL -> x <> hs -> x < he -> ~ inside B (x + 8) -> ~ inside B (x + 12) ->
  16 <= nsz cs x -> mm_size2ndx (nsz cs x) = Some (Z.of_nat (length bb1)) ->
  Forall (fun y => nsz cs y < nsz cs x) ba ->
  (forall z, head bb = Some z -> nsz cs x <= nsz cs z) ->
  forall l1 q l2, hooks nl 0 (bb1 ++ (ba ++ x :: bb) :: bb2) = l1 ++ q :: x :: l2 ->
  hooks nl 0 (bb1 ++ (ba ++ bb) :: bb2) = l1 ++ q :: l2 ->
  brep (set_blink l2 x (<[x + 8 := hd_or NULL l2]> (<[x + 12 := q]> (<[q + 8 := x]> m)))) cs
    (bb1 ++ (ba ++ x :: bb) :: bb2) DL.
Proof using G.
  intros R Hc Hx Hd Hxs Hxe Ho8 Ho12 H16 Hndx Hba Hbb l1 q l2 E E'.
  assert (Hxw : wd x 8 /\ wd x 12).
  { assert (hslot hs he x) by (eapply brep_in_slot; eauto).
    split; (split; [lia|]; left; split; [done|lia]). }
  assert (Hl : linked (l1 ++ q :: l2)).
  { rewrite <- E'. intros y Hy. split; eapply brep_link_wd; eauto. }
  assert (Hh : forall y o, y ∈ l1 ++ q :: l2 -> o = 8 \/ o = 12 -> y ∉ DL /\ ~ inside B (y + o)).
  { rewrite <- E'. intros. by eapply hooks_not_dl. }
  assert (Hxl : x ∉ l1 ++ q :: l2).
  { rewrite <- E', elem_hooks, (b_len _ _ _ _ _ _ _ _ _ R). intros [(i & Hi & ->)|?]; [|done].
    eapply (heap_not_head _ i); [right; eapply brep_in_slot; eauto|lia|done]. }
  pose proof Hl as Hl'. rewrite linked_app, linked_cons in Hl'. destruct Hl' as (? & [? ?] & ?).
  pose proof (hooks_nodup m cs _ DL R) as Hnd. rewrite E' in Hnd.
  assert (Hcc : concat (bb1 ++ (ba ++ x :: bb) :: bb2) ≡ₚ x :: concat (bb1 ++ (ba ++ bb) :: bb2)).
  { rewrite !concat_app. simpl. rewrite <- !app_assoc. simpl.
    rewrite (Permutation_middle (concat bb1)), <- (Permutation_middle ba). done. }
  eapply (brep_links _ _ _ _ _ _ R).
  - apply lchg_blink; [|done|intros y Hy; apply (Hh y 12); [set_solver|tauto]].
    destruct Hxw. destruct (Hh q 8) as [? ?]; [set_solver|tauto|].
    do 3 (apply lchg_wr; [|done|tauto|done|done]). apply lchg_refl.
  - rewrite E. apply lk_insert; [|by rewrite linked_app, !linked_cons|rewrite <- E'; apply R].
    rewrite (Permutation_cons_insert x l1 q l2). by constructor.
  - pose proof (b_len _ _ _ _ _ _ _ _ _ R) as Hlen. rewrite !length_app in *. done.
  - rewrite Hcc. constructor; [done|]. apply R.
  - eapply buckets_replace, R.
    destruct (b_bk _ _ _ _ _ _ _ _ _ R (length bb1) (ba ++ bb)) as [Hs Hf]; [by apply list_lookup_middle|].
    split; [by apply sorted_insert|].
    rewrite Forall_app in *. rewrite Forall_cons. tauto.
  - intros y Hy. rewrite Hcc, elem_of_cons in Hy. destruct Hy as [->|]; [right|by left].
    split_and!; done.
Qed.

Lemma mwp_link_in m q x l2 (Q : unit -> gmap Z Z -> Prop) :
  is_Some (m !! (q + 8)) -> is_Some (m !! (x + 12)) -> is_Some (m !! (x + 8)) ->
  (forall z, head l2 = Some z -> 0 < z /\ is_Some (m !! (z + 12))) ->
  Q tt (set_blink l2 x (<[x + 8 := hd_or NULL l2]> (<[x + 12 := q]> (<[q + 8 := x]> m)))) ->
  mwp (wr (f_flink q) x ;; wr (f_blink x) q ;; wr (f_flink x) (hd_or NULL l2) ;;
       when (negb (hd_or NULL l2 =? NULL)) (wr (f_blink (hd_or NULL l2)) x)) Q s m.
Proof using.
  unfold f_flink, f_blink. intros ? ? ? Hz HQ.
  do 3 (apply mwp_bind, mwp_wr; [by repeat apply some_insert|]).
  destruct l2 as [|z l2]; simpl in *; [by apply mwp_ret|]. destruct (Hz z eq_refl).
  replace (z =? NULL) with false by (unfold NULL; lia).
  apply mwp_wr; [by repeat apply some_insert|done].
Qed.

Lemma size2ndx_bucket (bks : list (list ptr)) sz :
  length bks = 19%nat -> 0 <= sz < 2 ^ 32 ->
  exists bb1 b bb2, bks = bb1 ++ b :: bb2 /\ mm_size2ndx sz = Some (Z.of_nat (length bb1)).
Proof using.
  intros Hl Hs. destruct (mm_size2ndx sz) as [i|] eqn:E; [|by rewrite mm_size2ndx_spec in E].
  destruct (mm_size2ndx_mono sz sz i i) as [? ?]; [lia|lia|done..|].
  destruct (lookup_lt_is_Some_2 bks (Z.to_nat i)) as [b Hb]; [lia|].
  exists (take (Z.to_nat i) bks), b, (drop (S (Z.to_nat i)) bks).
  rewrite take_drop_middle by done. split; [done|]. rewrite length_take. f_equal. lia.
Qed.

Lemma bucket_members m cs bks DL i b y :
  brep m cs bks DL -> bks !! i = Some b -> y ∈ b ->
  0 < y /\ m !! y = Some (nsz cs y) /\ 16 <= nsz cs y /\ mm_size2ndx (nsz cs y) = Some (Z.of_nat i) /\
  exists c, cs !! y = Some c /\ nsz cs y = csz c /\ cwf c.
Proof using G.
  intros R Hb Hy. assert (Hc : y ∈ concat bks) by (by eapply elem_concat).
  destruct (b_in _ _ _ _ _ _ _ _ _ R y Hc) as ([c Hcs] & ? & _).
  destruct (b_bk _ _ _ _ _ _ _ _ _ R i b Hb) as [_ Hf]. eapply Forall_forall in Hf as [? ?]; [|done].
  destruct (b_cs _ _ _ _ _ _ _ _ _ R y c Hcs) as (_ & _ & _ & ?).
  split_and!; [|by eapply brep_nsz|done|done|exists c; split_and!; [done|unfold nsz; by rewrite Hcs|done]].
  assert (Hs : hslot hs he y) by (eapply brep_in_slot; eauto).
  destruct G, Hs. lia.
Qed.

(** The node that follows a bucket is a hook, whose size is 0. *)
Lemma hooks_head m cs bks DL bb1 b bb2 z :
  brep m cs bks DL -> bks = bb1 ++ b :: bb2 ->
  head (hooks nl (Z.of_nat (length bb1) + 1) bb2) = Some z ->
  0 < z /\ m !! z = Some 0.
Proof using G.
  intros R -> Hz. destruct bb2 as [|b2 bb2]; [done|]. simpl in Hz. injection Hz as <-.
  pose proof (b_len _ _ _ _ _ _ _ _ _ R) as Hl. rewrite length_app in Hl. simpl in Hl.
  split; [|apply (b_heads _ _ _ _ _ _ _ _ _ R); lia].
  destruct G as [_ _ _ _ [? _] _]. unfold nodelist, SIZEOF_MM_FREENODE. lia.
Qed.

Lemma mwp_addfree m cs F DL x c (Q : unit -> gmap Z Z -> Prop) :
  mrep m cs F DL -> cs !! x = Some c -> 16 <= csz c -> cal c = false ->
  x ∉ F -> x ∉ DL -> x <> hs -> x < he -> ~ inside B (x + 8) -> ~ inside B (x + 12) ->
  (forall m', mrep m' cs ({[x]} ∪ F) DL -> Q tt m') ->
  mwp (mm_addfreechunk DEBUG nl x) Q s m.
Proof using G.
  intros (bks & R & HF) Hc Hsz Hal Hx Hd Hxs Hxe Ho8 Ho12 HQ. rewrite HF in Hx.
  destruct (b_hdr _ _ _ _ _ _ _ _ _ R x c Hc) as [Hms Hmp].
  destruct (b_cs _ _ _ _ _ _ _ _ _ R x c Hc) as (_ & _ & _ & Hwf).
  destruct (size2ndx_bucket bks (csz c) (b_len _ _ _ _ _ _ _ _ _ R)) as (bb1 & b & bb2 & -> & Hndx).
  { destruct Hwf. lia. }
  unfold mm_addfreechunk, f_size, f_preceding. apply mwp_bind, mwp_assert.
  { apply mwp_bind. eapply mwp_rd; [done|]. apply mwp_ret. split; [|done]. unfold SIZEOF_MM_FREENODE. lia. }
  apply mwp_bind, mwp_assert.
  { apply mwp_bind. eapply mwp_rd; [done|]. apply mwp_ret. split; [|done]. by rewrite prec_free, Hal. }
  apply mwp_bind. eapply mwp_rd; [done|].
  apply mwp_bind. eapply mwp_getso; [done|]. apply mwp_bind.
  pose proof (b_lk _ _ _ _ _ _ _ _ _ R) as Hlk. rewrite hooks_split, Z.add_0_l in Hlk.
  eapply mwp_rd; [by eapply lk_flink|]. apply mwp_bind, mwp_fuel.
  pose proof (hooks_fuel m cs _ DL R) as Hfuel. rewrite hooks_split, !length_app in Hfuel.
  simpl in Hfuel. rewrite length_app in Hfuel.
  assert (Hb : (bb1 ++ b :: bb2) !! length bb1 = Some b) by by apply list_lookup_middle.
  apply lk_app in Hlk as [_ (_ & _ & Hlk)].
  apply (mwp_add_loop m cs (csz c) b (hooks nl (Z.of_nat (length bb1) + 1) bb2)); [done| | |lia|].
  { intros y Hy. destruct (bucket_members m cs _ DL _ b y R Hb Hy) as (? & ? & ? & _).
    split_and!; [done..|lia]. }
  { intros z Hz. by eapply hooks_head. }
  intros ba bb -> Hba Hbb.
  destruct (hooks_at 0 bb1 ba x bb bb2) as (l1 & q & E & E' & Hq). rewrite Z.add_0_l in *.
  rewrite <- Hq.
  assert (Hl : linked (hooks nl 0 (bb1 ++ (ba ++ bb) :: bb2))).
  { intros y Hy. split; eapply brep_link_wd; eauto. }
  rewrite E', linked_app, linked_cons in Hl. destruct Hl as (_ & [Hq8 _] & Hl2).
  assert (Hs : hslot hs he x) by (eapply brep_in_slot; eauto).
  assert (wd x 8 /\ wd x 12) as [? ?] by (split; (split; [lia|]; left; split; [done|lia])).
  apply mwp_link_in; [by apply (brep_has m cs _ DL R)..| |].
  { intros z Hz. destruct (bb ++ _) as [|z' l]; [done|]. injection Hz as ->.
    apply linked_cons in Hl2 as [[_ Hz] _]. split; [by eapply wd_pos|by apply (brep_has m cs _ DL R)]. }
  assert (En : nsz cs x = csz c) by (unfold nsz; by rewrite Hc).
  apply HQ. exists (bb1 ++ (ba ++ x :: bb) :: bb2). split.
  - eapply brep_add; try done; by rewrite En.
  - intros y. rewrite elem_of_union, elem_of_singleton, HF, !concat_app. simpl.
    rewrite <- !app_assoc. simpl. rewrite !elem_of_app, elem_of_cons, !elem_of_app. tauto.
Qed.

(** ** Searching the free list *)

Lemma head_not_chunk m cs bks DL i : brep m cs bks DL -> 0 <= i < 19 -> cs !! nodelist nl i = None.
Proof using G.
  intros R Hi. destruct (cs !! nodelist nl i) as [c|] eqn:E; [|done].
  destruct (b_cs _ _ _ _ _ _ _ _ _ R _ c E) as (Hs & _). by eapply heap_not_head in Hs.
Qed.

Lemma hooks_nsz m cs bks DL y : brep m cs bks DL -> y ∈ hooks nl 0 bks ->
  0 < y /\ m !! y = Some (nsz cs y).
Proof using G.
  intros R Hy. split; [eapply wd_pos; [exact G|]; eapply (brep_link_wd _ _ _ _ R y 8); auto|].
  rewrite elem_hooks, (b_len _ _ _ _ _ _ _ _ _ R) in Hy. destruct Hy as [(i & Hi & ->)|Hy].
  - change (nl + 16 * i) with (nodelist nl i).
    rewrite (b_heads _ _ _ _ _ _ _ _ _ R i) by lia. f_equal. unfold nsz.
    by rewrite (head_not_chunk m cs bks DL i R) by lia.
  - destruct (b_in _ _ _ _ _ _ _ _ _ R y Hy) as ([c Hc] & _). by eapply brep_nsz.
Qed.

Lemma mwp_search_loop m cs asz l0 q l fuel Q :
  lk m NULL (l0 ++ q :: l) NULL ->
  (forall y, y ∈ l -> 0 < y /\ m !! y = Some (nsz cs y)) -> (length l < fuel)%nat ->
  (Forall (fun y => nsz cs y < asz) l -> Q NULL m) ->
  (forall la x lb, l = la ++ x :: lb -> Forall (fun y => nsz cs y < asz) la ->
     asz <= nsz cs x -> Q x m) ->
  mwp (loop fuel (search_step DEBUG asz) (hd_or NULL l)) Q s m.
Proof using G.
  revert l0 q fuel Q. induction l as [|y l IH]; intros l0 q fuel Q Hlk Hl Hf HQ0 HQ.
  - destruct fuel; [simpl in Hf; lia|]. apply mwp_loop_step, mwp_ret. by apply HQ0.
  - destruct fuel as [|fuel]; [simpl in Hf; lia|]. apply mwp_loop_step. unfold search_step.
    destruct (Hl y) as (? & Hy); [set_solver|]. simpl.
    replace (y =? NULL) with false by (unfold NULL; lia).
    apply mwp_bind. eapply mwp_rd; [done|].
    assert (Hlk' : lk m NULL ((l0 ++ [q]) ++ y :: l) NULL) by (by rewrite <- app_assoc).
    destruct (Z.ltb_spec (nsz cs y) asz).
    + apply mwp_bind, mwp_assert.
      { apply mwp_bind. eapply mwp_rd; [by eapply lk_blink|]. apply mwp_bind.
        rewrite last_or_app. eapply mwp_rd; [by eapply lk_flink|]. apply mwp_ret. simpl.
        split; [lia|done]. }
      apply mwp_bind. eapply mwp_rd; [by eapply lk_flink|]. apply mwp_ret.
      apply (IH (l0 ++ [q]) y); [done|set_solver|simpl in Hf; lia| |].
      * intros. apply HQ0. by constructor.
      * intros la x lb -> ? ?. apply (HQ (y :: la) x lb); [done|by constructor|done].
    + apply mwp_ret. by apply (HQ [] y l).
Qed.

(** The free chunks of the list, hook after hook, ascend in size. *)
Lemma sorted_concat cs k bks :
  (forall i b, bks !! i = Some b -> bucket_ok cs (k + i) b) ->
  (forall x, x ∈ concat bks -> nsz cs x < 2 ^ 32) ->
  StronglySorted (fun x y => nsz cs x <= nsz cs y) (concat bks) /\
  (forall x, x ∈ concat bks ->
     16 <= nsz cs x /\ exists i, Z.of_nat k <= i /\ mm_size2ndx (nsz cs x) = Some i).
Proof using G.
  revert k. induction bks as [|b bks IH]; intros k Hb H32; simpl; [by split; [constructor|intros x ?%elem_of_nil]|].
  simpl in H32. destruct (IH (S k)) as [IHs IHi].
  { intros i c Hc. replace (S k + i)%nat with (k + S i)%nat by lia. by apply Hb. }
  { intros. apply H32, elem_of_app. auto. }
  destruct (Hb 0%nat b eq_refl) as [Hs Hf]. rewrite Nat.add_0_r in Hf. rewrite Forall_forall in Hf.
  split.
  - apply StronglySorted_app2; [done..|]. intros x y Hx Hy.
    destruct (Hf x Hx) as [? Hnx], (IHi y Hy) as (? & i & ? & Hi).
    destruct (Z.le_gt_cases (nsz cs x) (nsz cs y)) as [|Hgt]; [done|].
    destruct (mm_size2ndx_mono (nsz cs y) (nsz cs x) i (Z.of_nat k)); [lia|apply H32, elem_of_app; auto|done|done|lia].
  - intros x [Hx|Hx]%elem_of_app.
    + destruct (Hf x Hx). split; [done|]. exists (Z.of_nat k). done.
    + destruct (IHi x Hx) as (? & i & ? & ?). split; [done|]. exists i. split; [lia|done].
Qed.

Lemma filter_hooks cs k bks :
  0 <= k -> k + Z.of_nat (length bks) <= 19 ->
  (forall i, 0 <= i < 19 -> cs !! nodelist nl i = None) ->
  (forall x, x ∈ concat bks -> 16 <= nsz cs x) ->
  filter (fun x => 16 <= nsz cs x) (hooks nl k bks) = concat bks.
Proof using G.
  revert k. induction bks as [|b bks IH]; intros k Hk Hl Hh H16; simpl; [done|]. simpl in *.
  rewrite filter_cons_False by (unfold nsz; rewrite Hh by lia; simpl; lia).
  rewrite filter_app, IH by (done || lia || (intros; apply H16, elem_of_app; auto)).
  f_equal. apply filter_all, Forall_forall. intros. apply H16, elem_of_app. auto.
Qed.

Lemma brep_32 m cs bks DL x : brep m cs bks DL -> nsz cs x < 2 ^ 32.
Proof using G.
  intros R. unfold nsz. destruct (cs !! x) as [c|] eqn:E; simpl; [|lia].
  destruct (b_cs _ _ _ _ _ _ _ _ _ R x c E) as (_ & _ & _ & [? _]). lia.
Qed.

(** The search finds the smallest free chunk that is large enough. *)
Lemma mwp_search m cs F DL asz : mrep m cs F DL -> 16 <= asz < 2 ^ 32 ->
  exists ndx first, mm_size2ndx asz = Some ndx /\ m !! (nodelist nl ndx + 8) = Some first /\
  forall Q,
    ((forall y, y ∈ F -> nsz cs y < asz) -> Q NULL m) ->
    (forall x, x ∈ F -> 0 < x -> asz <= nsz cs x ->
       (forall y, y ∈ F -> asz <= nsz cs y -> nsz cs x <= nsz cs y) -> Q x m) ->
    mwp (with_fuel (fun fuel => loop fuel (search_step DEBUG asz) first)) Q s m.
Proof using G.
  intros (bks & R & HF) Hasz.
  destruct (size2ndx_bucket bks asz (b_len _ _ _ _ _ _ _ _ _ R)) as (bb1 & b & bb2 & -> & Hndx); [lia|].
  pose proof (b_lk _ _ _ _ _ _ _ _ _ R) as Hlk. rewrite hooks_split, Z.add_0_l in Hlk.
  set (k := Z.of_nat (length bb1)) in *. set (l := b ++ hooks nl (k + 1) bb2) in *.
  exists k, (hd_or NULL l). split_and!; [done|by eapply lk_flink|]. intros Q HQ0 HQ.
  pose proof (b_len _ _ _ _ _ _ _ _ _ R) as Hlen. rewrite length_app in Hlen. simpl in Hlen.
  assert (Hbk : forall i c, (b :: bb2) !! i = Some c -> bucket_ok cs (length bb1 + i) c).
  { intros i c Hc. apply (b_bk _ _ _ _ _ _ _ _ _ R). rewrite lookup_app_r by lia.
    by replace (length bb1 + i - length bb1)%nat with i by lia. }
  destruct (sorted_concat cs _ _ Hbk) as [Hs Hi].
  { intros. by eapply brep_32. }
  assert (Hl : filter (fun x => 16 <= nsz cs x) l = concat (b :: bb2)).
  { rewrite <- (filter_hooks cs k (b :: bb2)); [| |simpl; lia| |by intros x [? _]%Hi].
    - simpl. rewrite filter_cons_False; [done|].
      unfold nsz. rewrite (head_not_chunk m cs _ DL k R) by lia. simpl. lia.
    - lia.
    - intros. by eapply head_not_chunk. }
  assert (Hy : forall y, y ∈ F -> asz <= nsz cs y -> y ∈ concat (b :: bb2)).
  { intros y Hy Hle. apply HF in Hy. rewrite concat_app, elem_of_app in Hy.
    destruct Hy as [Hy|]; [|done].
    apply elem_concat_split in Hy as (c1 & b1 & b2 & c2 & ->).
    destruct (bucket_members m cs _ DL (length c1) (b1 ++ y :: b2) y R) as (_ & _ & _ & Hn & _);
      [by rewrite <- app_assoc; apply list_lookup_middle|apply elem_of_app; right; left|].
    pose proof (brep_32 _ _ _ _ y R).
    destruct (mm_size2ndx_mono asz (nsz cs y) k (Z.of_nat (length c1))) as [? _]; [lia|done..|].
    unfold k in *. rewrite length_app in *. simpl in *. lia. }
  pose proof (hooks_fuel m cs _ DL R) as Hfuel. rewrite hooks_split, !length_app in Hfuel.
  simpl in Hfuel. rewrite Z.add_0_l in Hfuel. fold k in Hfuel. fold l in Hfuel.
  apply mwp_fuel. eapply mwp_search_loop; [exact Hlk| |lia| |].
  - intros y Hy'. eapply hooks_nsz; [exact R|]. rewrite hooks_split, Z.add_0_l. fold k. fold l.
    apply elem_of_app. right. by right.
  - intros Hall. apply HQ0. intros y Hy'. destruct (Z.lt_ge_cases (nsz cs y) asz) as [|Hge]; [done|].
    specialize (Hy y Hy' Hge). rewrite <- Hl in Hy. apply list_elem_of_filter in Hy as [_ Hy].
    rewrite Forall_forall in Hall. auto.
  - intros la x lb E Hla Hge.
    assert (Hx : x ∈ concat (b :: bb2)) by (rewrite <- Hl, list_elem_of_filter, E, elem_of_app, elem_of_cons; split; [lia|tauto]).
    apply HQ; [apply HF; rewrite concat_app, elem_of_app; tauto| |done|].
    + eapply hooks_nsz; [exact R|]. rewrite hooks_split, Z.add_0_l. fold k. fold l. rewrite E.
      rewrite elem_of_app, elem_of_cons, elem_of_app, elem_of_cons. tauto.
    + intros y Hy' Hle. specialize (Hy y Hy' Hle).
      rewrite <- Hl, E, filter_app, filter_cons_True in Hy, Hs by lia.
      apply elem_of_app in Hy as [[_ Hy]%list_elem_of_filter|[->|Hy]%elem_of_cons]; [|done|].
      * rewrite Forall_forall in Hla. specialize (Hla y Hy). simpl in Hla. lia.
      * apply StronglySorted_app_r in Hs. inversion Hs as [|? ? _ Hf]; subst.
        rewrite Forall_forall in Hf. auto.
Qed.

(** ** Single statements *)

Section Mrep.
Context (m : gmap Z Z) (cs : chunks) (F : gset Z) (DL : list ptr).
Context (R : mrep m cs F DL).

Lemma mrep_size x c : cs !! x = Some c -> m !! x = Some (csz c).
Proof using R. destruct R as (bks & Rb & _). intros Hc. by apply (b_hdr _ _ _ _ _ _ _ _ _ Rb). Qed.

Lemma mrep_prec x c : cs !! x = Some c -> m !! (x + 4) = Some (prec c).
Proof using R. destruct R as (bks & Rb & _). intros Hc. by apply (b_hdr _ _ _ _ _ _ _ _ _ Rb). Qed.

Lemma mrep_wf x c : cs !! x = Some c -> cwf c.
Proof using R. destruct R as (bks & Rb & _). intros Hc. by apply (b_cs _ _ _ _ _ _ _ _ _ Rb) in Hc as (_ & _ & _ & ?). Qed.

Lemma mrep_pos x c : cs !! x = Some c -> 0 < x.
Proof using R G.
  destruct R as (bks & Rb & _). intros Hc.
  apply (b_cs _ _ _ _ _ _ _ _ _ Rb) in Hc as ([->|[? _]] & _); destruct G; lia.
Qed.

Lemma mrep_reg a : reg nl hs he a -> is_Some (m !! a).
Proof using R. destruct R as (bks & Rb & _). apply (b_dom _ _ _ _ _ _ _ _ _ Rb). Qed.

Lemma mrep_frame a : inside B a -> m !! a = m0 !! a.
Proof using R. destruct R as (bks & Rb & _). apply (b_frame _ _ _ _ _ _ _ _ _ Rb). Qed.

Lemma mwp_rd_size x c Q : cs !! x = Some c -> Q (csz c) m -> mwp (rd (f_size x)) Q s m.
Proof using R. intros. eapply mwp_rd; [|done]. by apply mrep_size. Qed.

Lemma mwp_rd_prec x c Q : cs !! x = Some c -> Q (prec c) m -> mwp (rd (f_preceding x)) Q s m.
Proof using R. intros. eapply mwp_rd; [|done]. by apply mrep_prec. Qed.

Lemma mwp_is_free x c Q : cs !! x = Some c -> Q (negb (cal c)) m -> mwp (is_free x) Q s m.
Proof using R.
  intros Hc HQ. apply mwp_bind. eapply mwp_rd_prec; [done|]. apply mwp_ret.
  by rewrite (prec_free _ (mrep_wf _ _ Hc)).
Qed.

Lemma mwp_wr_size x c v (Q : unit -> gmap Z Z -> Prop) :
  cs !! x = Some c -> x ∉ F -> 0 <= v < 2 ^ 31 ->
  (forall m', mrep m' (<[x := Chunk v (cprev c) (cal c)]> cs) F DL -> Q tt m') ->
  mwp (wr (f_size x) v) Q s m.
Proof using R G.
  intros Hc Hx Hv HQ. apply mwp_wr; [unfold f_size; rewrite (mrep_size _ _ Hc); eauto|].
  destruct R as (bks & Rb & HF). apply HQ. exists bks. split; [|done].
  apply brep_size; [done..|by rewrite <- HF|done].
Qed.

Lemma mwp_wr_prec x c v c' (Q : unit -> gmap Z Z -> Prop) :
  cs !! x = Some c -> v = prec c' -> csz c' = csz c -> 0 <= cprev c' < 2 ^ 31 ->
  (forall m', mrep m' (<[x := c']> cs) F DL -> Q tt m') ->
  mwp (wr (f_preceding x) v) Q s m.
Proof using R G.
  intros Hc -> Hsz Hp HQ. pose proof (mrep_wf _ _ Hc) as [? ?].
  apply mwp_wr; [unfold f_preceding; rewrite (mrep_prec _ _ Hc); eauto|].
  destruct R as (bks & Rb & HF). apply HQ. exists bks. split; [|done].
  eapply brep_prec; [done..|]. split; [by rewrite Hsz|done].
Qed.

Lemma mwp_set_preceding x c k (Q : unit -> gmap Z Z -> Prop) :
  cs !! x = Some c -> 0 <= k < 2 ^ 31 ->
  (forall m', mrep m' (<[x := Chunk (csz c) k (cal c)]> cs) F DL -> Q tt m') ->
  mwp (set_preceding x k) Q s m.
Proof using R G.
  intros Hc Hk HQ. apply mwp_bind. eapply mwp_rd_prec; [done|].
  eapply mwp_wr_prec; [done|by apply (prec_set _ (mrep_wf _ _ Hc))|done..].
Qed.

Lemma mwp_new_size x v (Q : unit -> gmap Z Z -> Prop) :
  cs !! x = None -> hslot hs he x -> ~ inside B x ->
  (forall m', mrep m' cs F DL -> m' !! x = Some v -> Q tt m') ->
  mwp (wr (f_size x) v) Q s m.
Proof using R G.
  intros Hc Hx Hb HQ. apply mwp_wr.
  { apply mrep_reg. rewrite <- (Z.add_0_r (f_size x)). eapply wd_reg; [done|]. apply wd_hdr; auto. }
  destruct R as (bks & Rb & HF). apply HQ; [|by rewrite lookup_insert_eq]. exists bks.
  split; [|done]. by apply brep_new1.
Qed.

Lemma mwp_new_prec x v c (Q : unit -> gmap Z Z -> Prop) :
  cs !! x = None -> hslot hs he x -> ~ inside B x -> ~ inside B (x + 4) -> m !! x = Some (csz c) ->
  v = prec c -> cwf c ->
  (forall m', mrep m' (<[x := c]> cs) F DL -> Q tt m') ->
  mwp (wr (f_preceding x) v) Q s m.
Proof using R G.
  intros Hc Hx Hb Hb4 Hm -> Hwf HQ. apply mwp_wr.
  { apply mrep_reg. eapply wd_reg; [done|]. apply wd_hdr; auto. }
  destruct R as (bks & Rb & HF). apply HQ. exists bks.
  split; [|done]. by apply brep_new2.
Qed.

Lemma mrep_delete x : x ∉ F -> x ∉ DL -> mrep m (delete x cs) F DL.
Proof using R G.
  destruct R as (bks & Rb & HF). intros Hx Hd. exists bks. split; [|done].
  apply brep_delete; [done|by rewrite <- HF|done].
Qed.
End Mrep.
End Rep.
