(* ===== verification/HeapInv.v ===== *)
(** HeapInv: the invariant of the heap - the chunks tile the region, a free
    chunk is on the free list and has allocated neighbours - and the ways in
    which chunks are split and joined. *)

From stdpp Require Import options.
From S2P Require Import Prelude Heap HeapRep.

#[local] Ltac Zify.zify_post_hook ::= Z.to_euclidean_division_equations.

(** * Chunks that tile the region *)

Record tile (hs he : Z) (cs : chunks) : Prop := {
  t_start : cs !! hs = Some (Chunk 8 0 true);
  t_end : exists p, cs !! he = Some (Chunk 8 p true);
  t_next : forall x c, cs !! x = Some c -> x <> he ->
             exists d, cs !! (x + csz c) = Some d /\ cprev d = csz c;
  t_prev : forall x c, cs !! x = Some c -> x <> hs ->
             exists d, cs !! (x - cprev c) = Some d /\ csz d = cprev c;
  t_mid : forall x c, cs !! x = Some c -> x <> hs -> x <> he ->
            hslot hs he x /\ 16 <= csz c /\ csz c mod 16 = 0
}.

Section Tile.
Context (hs he : Z) (Hhe : hs + 8 <= he /\ hs mod 16 = 0 /\ he mod 16 = 8).
Context (cs : chunks) (T : tile hs he cs).

Lemma tile_range x c : cs !! x = Some c -> hs <= x <= he /\ 8 <= csz c.
Proof using All.
  intros Hc. destruct (decide (x = hs)) as [->|].
  { rewrite (t_start _ _ _ T) in Hc. injection Hc as <-. simpl. lia. }
  destruct (decide (x = he)) as [->|].
  { destruct (t_end _ _ _ T) as [p E]. rewrite E in Hc. injection Hc as <-. simpl. lia. }
  destruct (t_mid _ _ _ T x c Hc) as ([? _] & ? & _); [done..|]. lia.
Qed.

(** Chunks do not overlap. *)
Lemma tile_disjoint x c y d : cs !! x = Some c -> cs !! y = Some d -> x < y -> x + csz c <= y.
Proof using All.
  intros Hc Hd Hlt. revert x c d Hc Hd Hlt.
  induction (Z.lt_wf hs y) as [y _ IH]. intros x c d Hc Hd Hlt.
  pose proof (tile_range x c Hc) as [? ?].
  destruct (t_prev _ _ _ T y d Hd) as (e & He & Hsz); [lia|].
  pose proof (tile_range _ e He) as [? ?].
  destruct (Z.lt_trichotomy x (y - cprev d)) as [Hl|[->|Hg]].
  - enough (x + csz c <= y - cprev d) by lia. eapply IH; [|exact Hc|exact He|done]. lia.
  - rewrite Hc in He. injection He as ->. lia.
  - enough (y - cprev d + csz e <= x) by lia. eapply IH; [|exact He|exact Hc|done]. lia.
Qed.

Lemma tile_inside x c y d a :
  cs !! x = Some c -> cs !! y = Some d -> x <= a < x + csz c -> y <= a < y + csz d -> x = y.
Proof using All.
  intros Hc Hd Hx Hy. destruct (Z.lt_trichotomy x y) as [Hl|[?|Hl]]; [|done|].
  - pose proof (tile_disjoint x c y d Hc Hd Hl). lia.
  - pose proof (tile_disjoint y d x c Hd Hc Hl). lia.
Qed.

(** No chunk starts inside of another one. *)
Lemma tile_interior x c y : cs !! x = Some c -> x < y < x + csz c -> cs !! y = None.
Proof using All.
  intros Hc Hy. destruct (cs !! y) as [d|] eqn:Hd; [|done].
  pose proof (tile_disjoint x c y d Hc Hd). lia.
Qed.

Lemma tile_slot x c : cs !! x = Some c -> x <> hs -> hslot hs he x.
Proof using All.
  intros Hc ?. pose proof (tile_range x c Hc). destruct (decide (x = he)) as [->|].
  - split; lia.
  - by destruct (t_mid _ _ _ T x c Hc) as (? & _).
Qed.

Lemma tile_lt x c : cs !! x = Some c -> x <> he -> x + csz c <= he.
Proof using All.
  intros Hc ?. destruct (t_next _ _ _ T x c Hc) as (d & Hd & _); [done|].
  pose proof (tile_range _ d Hd). lia.
Qed.

Lemma tile_wf x c : he + 8 - hs < 2 ^ 31 -> cs !! x = Some c -> cwf c.
Proof using All.
  intros Hsz Hc. pose proof (tile_range x c Hc) as [? ?]. split.
  - destruct (decide (x = he)) as [->|].
    + destruct (t_end _ _ _ T) as [p E]. rewrite E in Hc. injection Hc as <-. simpl. lia.
    + pose proof (tile_lt x c Hc). lia.
  - destruct (decide (x = hs)) as [->|].
    + rewrite (t_start _ _ _ T) in Hc. injection Hc as <-. simpl. lia.
    + destruct (t_prev _ _ _ T x c Hc) as (e & He & Hs); [done|].
      pose proof (tile_range _ e He) as [? ?]. lia.
Qed.

(** The chunk in front of a chunk is the only one that ends there. *)
Lemma tile_back x c y d : cs !! x = Some c -> cs !! y = Some d -> x + csz c = y -> x <> he ->
  cprev d = csz c.
Proof using All.
  intros Hc Hd <- ?. destruct (t_next _ _ _ T x c Hc) as (e & He & ?); [done|].
  rewrite Hd in He. by injection He as ->.
Qed.

Lemma tile_same_end x c y d : cs !! x = Some c -> cs !! y = Some d ->
  x + csz c = y + csz d -> x = y.
Proof using All.
  intros Hc Hd E. pose proof (tile_range x c Hc). pose proof (tile_range y d Hd).
  apply (tile_inside x c y d (x + csz c - 1)); try done; lia.
Qed.

(** Which of the updates of a chunk map a chunk comes from. *)
Ltac chunk_at Hy :=
  repeat lazymatch type of Hy with
  | <[_ := _]> _ !! _ = Some _ => apply lookup_insert_Some in Hy as [[<- <-]|[? Hy]]
  | delete _ _ !! _ = Some _ => apply lookup_delete_Some in Hy as [? Hy]
  end; simpl in *.

(** The header of an allocated or free chunk is turned into the other. *)
Lemma tile_setal x c a : cs !! x = Some c -> x <> hs -> x <> he ->
  tile hs he (<[x := Chunk (csz c) (cprev c) a]> cs).
Proof using All.
  intros Hc Hxs Hxe.
  assert (L : forall y d, cs !! y = Some d -> exists d',
            <[x := Chunk (csz c) (cprev c) a]> cs !! y = Some d' /\ csz d' = csz d /\ cprev d' = cprev d).
  { intros y d Hd. rewrite lookup_insert. case_decide; simplify_eq; eauto. }
  split.
  - rewrite lookup_insert_ne by done. apply T.
  - rewrite lookup_insert_ne by done. apply T.
  - intros y d Hy Hye. assert (exists d', cs !! y = Some d' /\ csz d' = csz d) as (d' & Hd' & E).
    { chunk_at Hy; eauto. }
    destruct (t_next _ _ _ T y d' Hd' Hye) as (e & He & ?). destruct (L _ _ He) as (e' & He' & ? & ?).
    exists e'. rewrite <- E. split; [done|congruence].
  - intros y d Hy Hys. assert (exists d', cs !! y = Some d' /\ cprev d' = cprev d) as (d' & Hd' & E).
    { chunk_at Hy; eauto. }
    destruct (t_prev _ _ _ T y d' Hd' Hys) as (e & He & ?). destruct (L _ _ He) as (e' & He' & ? & ?).
    exists e'. rewrite <- E. split; [done|congruence].
  - intros y d Hy ? ?. chunk_at Hy; [apply (t_mid _ _ _ T x c)|apply (t_mid _ _ _ T y d)]; done.
Qed.

(** A chunk is cut in two. *)
Definition split_at (x k a1 a2 : _) (c d : chunk) (g : chunks) : chunks :=
  <[x + csz c := Chunk (csz d) (csz c - k) (cal d)]>
    (<[x + k := Chunk (csz c - k) k a2]> (<[x := Chunk k (cprev c) a1]> g)).

Lemma tile_split x k a1 a2 c d :
  cs !! x = Some c -> x <> hs -> x <> he -> cs !! (x + csz c) = Some d ->
  0 < k < csz c -> k mod 16 = 0 ->
  tile hs he (split_at x k a1 a2 c d cs).
Proof using All.
  intros Hc Hxs Hxe Hd Hk Hk16. pose proof (tile_interior x c (x + k) Hc ltac:(lia)) as Hn.
  pose proof (tile_range x c Hc). pose proof (tile_range _ d Hd).
  pose proof (tile_back x c _ d Hc Hd eq_refl Hxe) as Hdp.
  destruct (t_mid _ _ _ T x c Hc Hxs Hxe) as ([? ?] & ? & ?).
  unfold split_at. split.
  - rewrite !lookup_insert_ne by lia. apply T.
  - destruct (t_end _ _ _ T) as [p Hp].
    destruct (decide (x + csz c = he)) as [E|]; [|exists p; by rewrite !lookup_insert_ne by lia].
    rewrite E in Hd |- *. rewrite Hp in Hd. injection Hd as <-. exists (csz c - k). by rewrite lookup_insert_eq.
  - intros y e Hy Hye. chunk_at Hy.
    + destruct (t_next _ _ _ T _ d Hd Hye) as (f & Hf & ?). exists f.
      by rewrite !lookup_insert_ne by lia.
    + exists (Chunk (csz d) (csz c - k) (cal d)).
      replace (x + k + (csz c - k)) with (x + csz c) by lia. by rewrite lookup_insert_eq.
    + exists (Chunk (csz c - k) k a2). rewrite lookup_insert_ne, lookup_insert_eq by lia. done.
    + destruct (t_next _ _ _ T y e Hy Hye) as (f & Hf & Hfp). rewrite lookup_insert_ne, lookup_insert_ne.
      * rewrite lookup_insert. case_decide as E; [|by exists f]. eexists. split; [done|]. simpl. congruence.
      * intros E. rewrite <- E, Hn in Hf. done.
      * intros E. destruct (tile_same_end x c y e Hc Hy E). done.
  - intros y e Hy Hys. chunk_at Hy.
    + exists (Chunk (csz c - k) k a2). replace (x + csz c - (csz c - k)) with (x + k) by lia.
      by rewrite lookup_insert_ne, lookup_insert_eq by lia.
    + exists (Chunk k (cprev c) a1). replace (x + k - k) with x by lia.
      by rewrite !lookup_insert_ne, lookup_insert_eq by lia.
    + destruct (t_prev _ _ _ T x c Hc Hxs) as (f & Hf & ?). pose proof (tile_range _ f Hf).
      exists f. by rewrite !lookup_insert_ne by lia.
    + destruct (t_prev _ _ _ T y e Hy Hys) as (f & Hf & Hfs). pose proof (tile_range _ f Hf).
      assert (y - cprev e <> x) by (intros E; rewrite E, Hc in Hf; simplify_eq; lia).
      rewrite lookup_insert, !lookup_insert_ne; [|done|congruence].
      case_decide as E; [|by exists f]. eexists. split; [done|]. simpl.
      rewrite <- E, Hd in Hf. congruence.
  - intros y e Hy ? ?. pose proof (tile_lt x c Hc Hxe). chunk_at Hy.
    + by apply (t_mid _ _ _ T _ d).
    + unfold hslot. lia.
    + unfold hslot. lia.
    + by apply (t_mid _ _ _ T y e).
Qed.

(** A chunk is joined with the next one. *)
Definition join_at (x a : _) (c d e : chunk) (g : chunks) : chunks :=
  <[x + csz c + csz d := Chunk (csz e) (csz c + csz d) (cal e)]>
    (<[x := Chunk (csz c + csz d) (cprev c) a]> (delete (x + csz c) g)).

Lemma tile_join x a c d e :
  cs !! x = Some c -> x <> hs -> x <> he -> cs !! (x + csz c) = Some d -> x + csz c <> he ->
  cs !! (x + csz c + csz d) = Some e ->
  tile hs he (join_at x a c d e cs).
Proof using All.
  intros Hc Hxs Hxe Hd Hye He.
  pose proof (tile_range x c Hc). pose proof (tile_range _ d Hd). pose proof (tile_range _ e He).
  pose proof (tile_back x c _ d Hc Hd eq_refl Hxe) as Hdp.
  pose proof (tile_back _ d _ e Hd He eq_refl Hye) as Hep.
  destruct (t_mid _ _ _ T x c Hc Hxs Hxe) as ([? ?] & ? & ?).
  destruct (t_mid _ _ _ T _ d Hd) as ([? ?] & ? & ?); [lia|done|].
  unfold join_at. split.
  - rewrite !lookup_insert_ne, lookup_delete_ne by lia. apply T.
  - destruct (t_end _ _ _ T) as [p Hp].
    destruct (decide (x + csz c + csz d = he)) as [E|];
      [|exists p; by rewrite !lookup_insert_ne, lookup_delete_ne by lia].
    rewrite E in He |- *. rewrite Hp in He. injection He as <-.
    exists (csz c + csz d). by rewrite lookup_insert_eq.
  - intros y f Hy Hyn. chunk_at Hy.
    + destruct (t_next _ _ _ T _ e He Hyn) as (f & Hf & ?). exists f.
      by rewrite !lookup_insert_ne, lookup_delete_ne by lia.
    + exists (Chunk (csz e) (csz c + csz d) (cal e)).
      rewrite Z.add_assoc. by rewrite lookup_insert_eq.
    + destruct (t_next _ _ _ T y f Hy Hyn) as (g & Hg & Hgp). rewrite lookup_insert_ne.
      * rewrite lookup_insert. case_decide as E; [eexists; split; [done|]; simpl; congruence|].
        rewrite lookup_delete_ne; [by exists g|].
        intros E'. destruct (tile_same_end x c y f Hc Hy E'). done.
      * intros E. destruct (tile_same_end _ d y f Hd Hy E). done.
  - intros y f Hy Hys. chunk_at Hy.
    + exists (Chunk (csz c + csz d) (cprev c) a).
      replace (x + csz c + csz d - (csz c + csz d)) with x by lia.
      by rewrite lookup_insert_ne, lookup_insert_eq by lia.
    + destruct (t_prev _ _ _ T x c Hc Hxs) as (g & Hg & ?). pose proof (tile_range _ g Hg).
      exists g. rewrite !lookup_insert_ne, lookup_delete_ne by lia. done.
    + destruct (t_prev _ _ _ T y f Hy Hys) as (g & Hg & Hgs). pose proof (tile_range _ g Hg).
      assert (y - cprev f <> x + csz c).
      { intros E. rewrite E, Hd in Hg. simplify_eq. lia. }
      assert (y - cprev f <> x).
      { intros E. rewrite E, Hc in Hg. simplify_eq. lia. }
      rewrite lookup_insert, lookup_insert_ne, lookup_delete_ne by done.
      case_decide as E; [|by exists g]. eexists. split; [done|]. simpl.
      rewrite <- E, He in Hg. congruence.
  - intros y f Hy ? ?. pose proof (tile_lt _ d Hd Hye). chunk_at Hy.
    + by apply (t_mid _ _ _ T _ e).
    + unfold hslot. lia.
    + by apply (t_mid _ _ _ T y f).
Qed.
End Tile.

(** * The invariant *)

Definition fr (cs : chunks) (x : ptr) : Prop := exists c, cs !! x = Some c /\ cal c = false.
Definition al (cs : chunks) (x : ptr) : Prop := exists c, cs !! x = Some c /\ cal c = true.
(** [y] is the chunk behind [x]. *)
Definition adj (cs : chunks) (x y : ptr) : Prop :=
  exists c d, cs !! x = Some c /\ cs !! y = Some d /\ y = x + csz c.

(** The chunks [cs] tile the region and [F] are the free ones, of which no two
    are adjacent; [DL] are the chunks whose release is delayed.  At most one
    free chunk, [L], is not on the free list, and may have free neighbours. *)
Record linv (hs he : Z) (cs : chunks) (F : gset Z) (DL : list ptr) (L : option ptr) : Prop := {
  l_tile : tile hs he cs;
  l_free : forall x, fr cs x <-> x ∈ F \/ L = Some x;
  l_lim : forall x, L = Some x -> x ∉ F;
  l_coal : forall x y, adj cs x y -> fr cs x -> fr cs y -> L = Some x \/ L = Some y;
  l_nd : NoDup DL;
  l_dl : forall x, x ∈ DL -> x <> hs /\ x <> he /\ al cs x
}.
Abbreviation hinv hs he cs F DL := (linv hs he cs F DL None).

Lemma fr_al cs x : fr cs x -> al cs x -> False.
Proof. intros (c & ? & ?) (d & ? & ?). congruence. Qed.

Section Inv.
Context (hs he : Z) (Hhe : hs + 8 <= he /\ hs mod 16 = 0 /\ he mod 16 = 8).
Context (cs : chunks) (F : gset Z) (DL : list ptr).

Lemma fr_mid L x : linv hs he cs F DL L -> fr cs x -> x <> hs /\ x <> he.
Proof using Hhe.
  intros I (c & Hc & Ha). split; intros ->.
  - rewrite (t_start _ _ _ (l_tile _ _ _ _ _ _ I)) in Hc. by simplify_eq.
  - destruct (t_end _ _ _ (l_tile _ _ _ _ _ _ I)) as [p Hp]. by simplify_eq.
Qed.

Lemma free_in_F L x c : linv hs he cs F DL L -> cs !! x = Some c -> cal c = false ->
  L <> Some x -> x ∈ F.
Proof using Hhe.
  intros I Hc Ha Hx. destruct (proj1 (l_free _ _ _ _ _ _ I x)) as [|]; [by exists c|done..].
Qed.

Lemma F_chunk L x : linv hs he cs F DL L -> x ∈ F -> exists c, cs !! x = Some c /\ cal c = false.
Proof using Hhe. intros I Hx. apply (l_free _ _ _ _ _ _ I). by left. Qed.

Lemma al_not_F L x c : linv hs he cs F DL L -> cs !! x = Some c -> cal c = true -> x ∉ F /\ L <> Some x.
Proof using Hhe.
  intros I Hc Ha. assert (~ fr cs x) as Hn by (intros (d & ? & ?); congruence).
  split; intros ?; apply Hn, (l_free _ _ _ _ _ _ I); auto.
Qed.

Lemma fr_not_DL L x : linv hs he cs F DL L -> fr cs x -> x ∉ DL.
Proof using Hhe. intros I Hx (_ & _ & Ha)%(l_dl _ _ _ _ _ _ I). by eapply fr_al. Qed.

(** A chunk is taken off the free list, or put on it. *)
Lemma linv_take x : hinv hs he cs F DL -> x ∈ F -> linv hs he cs (F ∖ {[x]}) DL (Some x).
Proof using Hhe.
  intros [Ht Hf Hl Hc Hnd Hd] Hx. split; try done.
  - intros y. rewrite Hf. destruct (decide (x = y)) as [->|]; set_solver.
  - intros y [= <-]. set_solver.
  - intros y z H1 H2 H3. destruct (Hc y z H1 H2 H3); done.
Qed.

Lemma linv_add x : linv hs he cs F DL (Some x) ->
  (forall y, adj cs x y -> ~ fr cs y) -> (forall y, adj cs y x -> ~ fr cs y) ->
  hinv hs he cs ({[x]} ∪ F) DL.
Proof using Hhe.
  intros [Ht Hf Hl Hc Hnd Hd] Hn Hp. split; try done.
  - intros y. rewrite Hf. set_solver.
  - intros y z H1 H2 H3. destruct (Hc y z H1 H2 H3); simplify_eq; [by destruct (Hn z)|by destruct (Hp y)].
Qed.

Lemma setal_fr x c a y : cs !! x = Some c ->
  fr (<[x := Chunk (csz c) (cprev c) a]> cs) y <-> (y = x /\ a = false) \/ (y <> x /\ fr cs y).
Proof using Hhe.
  intros Hc. unfold fr. destruct (decide (y = x)) as [->|].
  - rewrite lookup_insert_eq. naive_solver.
  - rewrite lookup_insert_ne by done. naive_solver.
Qed.

Lemma setal_adj x c a y z : cs !! x = Some c ->
  adj (<[x := Chunk (csz c) (cprev c) a]> cs) y z <-> adj cs y z.
Proof using Hhe.
  intros Hc. assert (E : forall y, csz <$> <[x := Chunk (csz c) (cprev c) a]> cs !! y = csz <$> cs !! y).
  { intros w. rewrite lookup_insert. case_decide; simplify_eq; [by rewrite Hc|done]. }
  assert (A : forall g, adj g y z <-> exists k l, csz <$> g !! y = Some k /\ csz <$> g !! z = Some l /\ z = y + k).
  { intros g. unfold adj. setoid_rewrite fmap_Some. naive_solver. }
  rewrite !A. by setoid_rewrite E.
Qed.

(** The chunk off the list is allocated, or an allocated one released. *)
Lemma linv_alloc x c : linv hs he cs F DL (Some x) -> cs !! x = Some c ->
  hinv hs he (<[x := Chunk (csz c) (cprev c) true]> cs) F DL.
Proof using Hhe.
  intros I Hc. assert (Hx : fr cs x) by (apply I; by right).
  destruct (fr_mid _ _ I Hx). pose proof (fr_not_DL _ _ I Hx) as Hxd.
  destruct I as [Ht Hf Hl Hco Hnd Hd]. split; try done.
  - by apply tile_setal.
  - intros y. rewrite setal_fr by done. rewrite Hf. specialize (Hl x eq_refl). naive_solver.
  - intros y z. rewrite setal_adj, !setal_fr by done. intros ? [[_ ?]|[? ?]] [[_ ?]|[? ?]]; try done.
    destruct (Hco y z); naive_solver.
  - intros y Hy. destruct (Hd y Hy) as (? & ? & d & Hyc & ?). split_and!; [done..|].
    exists d. rewrite lookup_insert_ne; [done|]. congruence.
Qed.

Lemma linv_release x c : hinv hs he cs F DL -> cs !! x = Some c -> cal c = true ->
  x <> hs -> x <> he -> x ∉ DL ->
  linv hs he (<[x := Chunk (csz c) (cprev c) false]> cs) F DL (Some x).
Proof using Hhe.
  intros I Hc Ha Hxs Hxe Hxd. destruct (al_not_F _ _ _ I Hc Ha) as [HxF _].
  destruct I as [Ht Hf Hl Hco Hnd Hd]. split; try done.
  - by apply tile_setal.
  - intros y. rewrite setal_fr by done. rewrite Hf. naive_solver.
  - by intros y [= <-].
  - intros y z. rewrite setal_adj, !setal_fr by done. intros ? [[-> _]|[? ?]] [[-> _]|[? ?]]; auto.
    destruct (Hco y z); naive_solver.
  - intros y Hy. destruct (Hd y Hy) as (? & ? & d & Hyc & ?). split_and!; [done..|].
    exists d. rewrite lookup_insert_ne; [done|]. congruence.
Qed.

(** ** Splitting *)

Section Split.
Context (x k : Z) (c d : chunk) (T : tile hs he cs).
Context (Hc : cs !! x = Some c) (Hxs : x <> hs) (Hxe : x <> he).
Context (Hd : cs !! (x + csz c) = Some d) (Hk : 0 < k < csz c) (Hk16 : k mod 16 = 0).

Lemma split_lookup a1 a2 y : split_at x k a1 a2 c d cs !! y =
  if decide (y = x) then Some (Chunk k (cprev c) a1)
  else if decide (y = x + k) then Some (Chunk (csz c - k) k a2)
  else if decide (y = x + csz c) then Some (Chunk (csz d) (csz c - k) (cal d))
  else cs !! y.
Proof using Hhe T Hc Hxs Hxe Hd Hk Hk16. unfold split_at. rewrite !lookup_insert. repeat case_decide; (done || lia). Qed.

Lemma split_fr a1 a2 y : fr (split_at x k a1 a2 c d cs) y <->
  (y = x /\ a1 = false) \/ (y = x + k /\ a2 = false) \/ (y <> x /\ y <> x + k /\ fr cs y).
Proof using Hhe T Hc Hxs Hxe Hd Hk Hk16.
  unfold fr. rewrite split_lookup. repeat case_decide; subst; rewrite ?Hd; naive_solver lia.
Qed.

Lemma split_al a1 a2 y : y <> x -> y <> x + k -> al cs y -> al (split_at x k a1 a2 c d cs) y.
Proof using Hhe T Hc Hxs Hxe Hd Hk Hk16.
  intros. unfold al in *. rewrite split_lookup.
  repeat case_decide; subst; rewrite ?Hd in *; naive_solver.
Qed.

Lemma split_adj a1 a2 u v : adj (split_at x k a1 a2 c d cs) u v ->
  (u = x /\ v = x + k) \/ (u = x + k /\ v = x + csz c) \/ (u <> x /\ u <> x + k /\ v <> x + k /\ adj cs u v).
Proof using Hhe T Hc Hxs Hxe Hd Hk Hk16.
  intros (e & f & He & Hf & ->). rewrite split_lookup in He, Hf.
  destruct (decide (u = x)) as [->|]; [simplify_eq; by left|].
  destruct (decide (u = x + k)) as [->|]; [simplify_eq; simpl; right; left; split; [done|lia]|].
  right. right.
  assert (exists e', cs !! u = Some e' /\ csz e' = csz e) as (e' & He' & E).
  { clear Hf. destruct (decide (u = x + csz c)) as [Eu|]; [rewrite Eu; injection He as <-; by exists d|by exists e]. }
  rewrite <- E in *.
  assert (u + csz e' <> x + k).
  { intros E'. pose proof (tile_range hs he Hhe cs T u e' He').
    destruct (tile_inside hs he Hhe cs T x c u e' (x + k - 1) Hc He'); [lia|lia|done]. }
  split_and!; try done.
  destruct (decide (u + csz e' = x)) as [Ex|]; [exists e', c; by rewrite Ex|].
  destruct (decide (u + csz e' = x + k)) as [Ex|]; [done|].
  destruct (decide (u + csz e' = x + csz c)) as [Ex|]; [exists e', d; by rewrite Ex|].
  by exists e', f.
Qed.

(** The rest of an allocated chunk behind its first [k] bytes is released. *)
Lemma linv_carve : hinv hs he cs F DL -> cal c = true ->
  linv hs he (split_at x k true false c d cs) F DL (Some (x + k)).
Proof using Hhe T Hc Hxs Hxe Hd Hk Hk16.
  intros I Ha. destruct (al_not_F _ _ _ I Hc Ha) as [HxF _].
  pose proof (tile_interior hs he Hhe cs T x c (x + k) Hc ltac:(lia)) as Hn.
  assert (HkF : x + k ∉ F) by (intros Hin; destruct (F_chunk _ _ I Hin) as (? & ? & _); congruence).
  destruct I as [_ Hf Hl Hco Hnd Hdl]. split; try done.
  - by apply tile_split.
  - intros y. rewrite split_fr, Hf. naive_solver.
  - by intros y [= <-].
  - intros u v. rewrite !split_fr. intros [[-> ->]|[[-> ->]|(? & ? & ? & Hadj)]]%split_adj Hu Hv.
    + by right.
    + by left.
    + destruct Hu as [[? _]|[[? _]|(_ & _ & Hu)]]; [done..|].
      destruct Hv as [[_ ?]|[[? _]|(_ & _ & Hv)]]; [done..|].
      destruct (Hco u v Hadj Hu Hv); done.
  - intros y Hy. destruct (Hdl y Hy) as (? & ? & Hal). split_and!; [done..|].
    destruct (decide (y = x)) as [->|]; [eexists; rewrite split_lookup, decide_True; done|].
    apply split_al; [done| |done]. intros ->. destruct Hal as (? & ? & _). congruence.
Qed.

(** The first [k] bytes of an allocated chunk are released. *)
Lemma linv_carve_front : hinv hs he cs F DL -> cal c = true -> x ∉ DL ->
  linv hs he (split_at x k false true c d cs) F DL (Some x).
Proof using Hhe T Hc Hxs Hxe Hd Hk Hk16.
  intros I Ha HxD. destruct (al_not_F _ _ _ I Hc Ha) as [HxF _].
  pose proof (tile_interior hs he Hhe cs T x c (x + k) Hc ltac:(lia)) as Hn.
  assert (HkF : x + k ∉ F) by (intros Hin; destruct (F_chunk _ _ I Hin) as (? & ? & _); congruence).
  destruct I as [_ Hf Hl Hco Hnd Hdl]. split; try done.
  - by apply tile_split.
  - intros y. rewrite split_fr, Hf. naive_solver.
  - by intros y [= <-].
  - intros u v. rewrite !split_fr. intros [[-> ->]|[[-> ->]|(? & ? & ? & Hadj)]]%split_adj Hu Hv.
    + by left.
    + destruct Hu as [[? _]|[[_ ?]|(_ & ? & _)]]; [lia|done..].
    + destruct Hu as [[? _]|[[? _]|(_ & _ & Hu)]]; [done..|].
      destruct Hv as [[-> _]|[[? _]|(_ & _ & Hv)]]; [by right|done|].
      destruct (Hco u v Hadj Hu Hv); done.
  - intros y Hy. destruct (Hdl y Hy) as (? & ? & Hal). split_and!; [done..|].
    apply split_al; [congruence| |done]. intros ->. destruct Hal as (? & ? & _). congruence.
Qed.
End Split.

(** ** Joining *)

Section Join.
Context (x : Z) (c d e : chunk) (T : tile hs he cs).
Context (Hc : cs !! x = Some c) (Hxs : x <> hs) (Hxe : x <> he).
Context (Hd : cs !! (x + csz c) = Some d) (Hye : x + csz c <> he).
Context (He : cs !! (x + csz c + csz d) = Some e).

Lemma join_lookup a y : join_at x a c d e cs !! y =
  if decide (y = x) then Some (Chunk (csz c + csz d) (cprev c) a)
  else if decide (y = x + csz c) then None
  else if decide (y = x + csz c + csz d) then Some (Chunk (csz e) (csz c + csz d) (cal e))
  else cs !! y.
Proof using Hhe T Hc Hxs Hxe Hd Hye He.
  pose proof (tile_range hs he Hhe cs T x c Hc). pose proof (tile_range hs he Hhe cs T _ d Hd).
  unfold join_at. rewrite !lookup_insert, lookup_delete. repeat case_decide; (done || lia).
Qed.

Lemma join_fr a y : fr (join_at x a c d e cs) y <->
  (y = x /\ a = false) \/ (y <> x /\ y <> x + csz c /\ fr cs y).
Proof using Hhe T Hc Hxs Hxe Hd Hye He.
  pose proof (tile_range hs he Hhe cs T x c Hc).
  unfold fr. rewrite join_lookup. repeat case_decide; subst; rewrite ?He; naive_solver lia.
Qed.

Lemma join_al a y : y <> x -> y <> x + csz c -> al cs y -> al (join_at x a c d e cs) y.
Proof using Hhe T Hc Hxs Hxe Hd Hye He.
  intros. unfold al in *. rewrite join_lookup. repeat case_decide; subst; rewrite ?He in *; naive_solver.
Qed.

Lemma join_adj a u v : adj (join_at x a c d e cs) u v ->
  (u = x /\ v = x + csz c + csz d) \/ (u <> x /\ u <> x + csz c /\ v <> x + csz c /\ adj cs u v).
Proof using Hhe T Hc Hxs Hxe Hd Hye He.
  pose proof (tile_range hs he Hhe cs T x c Hc). pose proof (tile_range hs he Hhe cs T _ d Hd).
  intros (f & g & Hf & Hg & ->). rewrite join_lookup in Hf, Hg.
  destruct (decide (u = x)) as [->|]; [left; simplify_eq; simpl; lia|].
  destruct (decide (u = x + csz c)) as [->|]; [done|]. right.
  assert (exists f', cs !! u = Some f' /\ csz f' = csz f) as (f' & Hf' & E).
  { clear Hg. destruct (decide (u = x + csz c + csz d)) as [Eu|];
      [rewrite Eu; injection Hf as <-; by exists e|by exists f]. }
  rewrite <- E in *.
  assert (u + csz f' <> x + csz c).
  { intros E'. by destruct (tile_same_end hs he Hhe cs T u f' x c Hf' Hc E'). }
  split_and!; try done.
  destruct (decide (u + csz f' = x)) as [Ex|]; [exists f', c; by rewrite Ex|].
  destruct (decide (u + csz f' = x + csz c)) as [Ex|]; [done|].
  destruct (decide (u + csz f' = x + csz c + csz d)) as [Ex|]; [exists f', e; by rewrite Ex|].
  by exists f', g.
Qed.

Lemma adj_here : adj cs x (x + csz c) /\ adj cs (x + csz c) (x + csz c + csz d).
Proof using Hhe T Hc Hxs Hxe Hd Hye He. split; [exists c, d|exists d, e]; done. Qed.

(** The free chunk off the list is joined with a free one behind it, and
    becomes the one in front of it. *)
Lemma linv_join_next : linv hs he cs F DL (Some x) -> cal d = false ->
  linv hs he (join_at x false c d e cs) (F ∖ {[x + csz c]}) DL (Some x).
Proof using Hhe T Hc Hxs Hxe Hd Hye He.
  pose proof (tile_range hs he Hhe cs T x c Hc).
  intros I Ha. assert (Hy : fr cs (x + csz c)) by (by exists d).
  pose proof (fr_not_DL _ _ I Hy) as HyD. assert (Hx : fr cs x) by (apply I; by right).
  pose proof (fr_not_DL _ _ I Hx) as HxD.
  destruct I as [_ Hf Hl Hco Hnd Hdl]. split; try done.
  - by apply tile_join.
  - intros y. rewrite join_fr, Hf, elem_of_difference, elem_of_singleton.
    assert (x <> x + csz c) by lia. naive_solver.
  - intros y [= <-]. specialize (Hl x eq_refl). set_solver.
  - intros u v. rewrite !join_fr. intros [[-> ->]|(? & ? & ? & Hadj)]%join_adj Hu Hv; [by left|].
    destruct Hu as [[? _]|(_ & _ & Hu)]; [done|]. destruct Hv as [[-> _]|(_ & _ & Hv)]; [by right|].
    by apply Hco.
  - intros y Hy'. destruct (Hdl y Hy') as (? & ? & Hal). split_and!; [done..|].
    apply join_al; [congruence..|done].
Qed.

(** The free chunk in front of the chunk off the list takes it in. *)
Lemma linv_join_prev : linv hs he cs F DL (Some (x + csz c)) -> cal c = false ->
  linv hs he (join_at x false c d e cs) (F ∖ {[x]}) DL (Some x).
Proof using Hhe T Hc Hxs Hxe Hd Hye He.
  pose proof (tile_range hs he Hhe cs T x c Hc).
  intros I Ha. assert (Hx : fr cs x) by (by exists c).
  pose proof (fr_not_DL _ _ I Hx) as HxD.
  assert (Hy : fr cs (x + csz c)) by (apply I; by right).
  pose proof (fr_not_DL _ _ I Hy) as HyD.
  destruct I as [_ Hf Hl Hco Hnd Hdl]. split; try done.
  - by apply tile_join.
  - intros y. rewrite join_fr, Hf, elem_of_difference, elem_of_singleton.
    specialize (Hl _ eq_refl). naive_solver.
  - intros y [= <-]. set_solver.
  - intros u v. rewrite !join_fr. intros [[-> ->]|(? & ? & ? & Hadj)]%join_adj Hu Hv; [by left|].
    destruct Hu as [[? _]|(_ & _ & Hu)]; [done|]. destruct Hv as [[-> _]|(_ & _ & Hv)]; [by right|].
    destruct (Hco u v Hadj Hu Hv); simplify_eq.
  - intros y Hy'. destruct (Hdl y Hy') as (? & ? & Hal). split_and!; [done..|].
    apply join_al; [congruence..|done].
Qed.

(** An allocated chunk takes in the chunk off the list behind it, or is taken
    in by the one in front of it. *)
Lemma linv_absorb_next : linv hs he cs F DL (Some (x + csz c)) -> cal c = true ->
  hinv hs he (join_at x true c d e cs) F DL.
Proof using Hhe T Hc Hxs Hxe Hd Hye He.
  intros I Ha. destruct (al_not_F _ _ _ I Hc Ha) as [HxF HxL].
  assert (Hy : fr cs (x + csz c)) by (apply I; by right).
  pose proof (fr_not_DL _ _ I Hy) as HyD.
  destruct I as [_ Hf Hl Hco Hnd Hdl]. split; try done.
  - by apply tile_join.
  - intros y. rewrite join_fr, Hf. specialize (Hl _ eq_refl). naive_solver.
  - intros u v. rewrite !join_fr. intros [[-> ->]|(? & ? & ? & Hadj)]%join_adj Hu Hv;
      [by destruct Hu as [[_ ?]|[? _]]|].
    destruct Hu as [[? _]|(_ & _ & Hu)]; [done|]. destruct Hv as [[_ ?]|(_ & _ & Hv)]; [done|].
    destruct (Hco u v Hadj Hu Hv); simplify_eq.
  - intros y Hy'. destruct (Hdl y Hy') as (? & ? & Hal). split_and!; [done..|].
    destruct (decide (y = x)) as [->|]; [eexists; rewrite join_lookup, decide_True; done|].
    apply join_al; [congruence..|done].
Qed.

Lemma linv_absorb_prev : linv hs he cs F DL (Some x) -> cal d = true -> x + csz c ∉ DL ->
  hinv hs he (join_at x true c d e cs) F DL.
Proof using Hhe T Hc Hxs Hxe Hd Hye He.
  intros I Ha HyD. destruct (al_not_F _ _ _ I Hd Ha) as [HyF HyL].
  assert (Hx : fr cs x) by (apply I; by right).
  pose proof (fr_not_DL _ _ I Hx) as HxD.
  destruct I as [_ Hf Hl Hco Hnd Hdl]. split; try done.
  - by apply tile_join.
  - intros y. rewrite join_fr, Hf. specialize (Hl _ eq_refl). naive_solver.
  - intros u v. rewrite !join_fr. intros [[-> ->]|(? & ? & ? & Hadj)]%join_adj Hu Hv;
      [by destruct Hu as [[_ ?]|[? _]]|].
    destruct Hu as [[? _]|(_ & _ & Hu)]; [done|]. destruct Hv as [[_ ?]|(Hvx & _ & Hv)]; [done|].
    destruct (Hco u v Hadj Hu Hv); congruence.
  - intros y Hy'. destruct (Hdl y Hy') as (? & ? & Hal). split_and!; [done..|].
    apply join_al; [congruence..|done].
Qed.
End Join.
End Inv.
