(* ===== verification/HeapOps.v ===== *)
(** HeapOps: what the routines of the memory manager do to the chunks, with
    the heap's semaphore held. *)

From stdpp Require Import options.
From S2P Require Import Prelude Heap HeapRep HeapInv.

#[local] Ltac Zify.zify_post_hook ::= Z.to_euclidean_division_equations.

(** * Allocated and free chunks, by size *)

Definition asz (cs : chunks) (x : ptr) : option Z :=
  c ← cs !! x; if cal c then Some (csz c) else None.
Definition fsz (cs : chunks) (x : ptr) : option Z :=
  c ← cs !! x; if cal c then None else Some (csz c).

Lemma fsz_fr cs x : is_Some (fsz cs x) <-> fr cs x.
Proof.
  unfold fsz, fr. destruct (cs !! x) as [c|]; simpl; [|by split; [intros [? ?]|intros (? & ? & _)]].
  destruct (cal c) eqn:E; split; [by intros [? ?]|intros (d & ? & ?); congruence|eauto|eauto].
Qed.

Lemma asz_insert cs x c y : asz (<[x := c]> cs) y =
  if decide (y = x) then if cal c then Some (csz c) else None else asz cs y.
Proof. unfold asz. rewrite lookup_insert. repeat case_decide; simplify_eq; done. Qed.

Lemma fsz_insert cs x c y : fsz (<[x := c]> cs) y =
  if decide (y = x) then if cal c then None else Some (csz c) else fsz cs y.
Proof. unfold fsz. rewrite lookup_insert. repeat case_decide; simplify_eq; done. Qed.

Section Sizes.
Context (hs he : Z) (Hhe : hs + 8 <= he /\ hs mod 16 = 0 /\ he mod 16 = 8).
Context (cs : chunks) (T : tile hs he cs) (x : Z) (c d : chunk).
Context (Hc : cs !! x = Some c) (Hxs : x <> hs) (Hxe : x <> he) (Hd : cs !! (x + csz c) = Some d).

Lemma sz_split k a1 a2 y : 0 < k < csz c -> k mod 16 = 0 ->
  asz (split_at x k a1 a2 c d cs) y =
    (if decide (y = x) then if a1 then Some k else None
     else if decide (y = x + k) then if a2 then Some (csz c - k) else None else asz cs y) /\
  fsz (split_at x k a1 a2 c d cs) y =
    (if decide (y = x) then if a1 then None else Some k
     else if decide (y = x + k) then if a2 then None else Some (csz c - k) else fsz cs y).
Proof using All.
  intros. unfold asz, fsz. rewrite (split_lookup hs he Hhe cs x k c d) by done.
  repeat case_decide; subst; rewrite ?Hd; done.
Qed.

Lemma sz_join e a y : x + csz c <> he -> cs !! (x + csz c + csz d) = Some e ->
  asz (join_at x a c d e cs) y =
    (if decide (y = x) then if a then Some (csz c + csz d) else None
     else if decide (y = x + csz c) then None else asz cs y) /\
  fsz (join_at x a c d e cs) y =
    (if decide (y = x) then if a then None else Some (csz c + csz d)
     else if decide (y = x + csz c) then None else fsz cs y).
Proof using All.
  intros Hye He. unfold asz, fsz. rewrite (join_lookup hs he Hhe cs x c d e) by done.
  repeat case_decide; subst; rewrite ?He; done.
Qed.
End Sizes.

(** Two chunk maps written in different ways. *)
Ltac chunk_map :=
  unfold split_at, join_at; cbn [csz cprev cal]; apply map_eq; intros ?i;
  repeat first [rewrite lookup_insert | rewrite lookup_delete | case_decide];
  subst; (done || lia || congruence).

(** * Blocks that are to be kept *)

(** [B] are parts of blocks of allocated chunks. *)
Definition keeps (cs : chunks) (B : gmap Z Z) : Prop :=
  forall p n, B !! p = Some n -> exists c, cs !! (p - 8) = Some c /\ cal c = true /\ n <= csz c - 8.

Lemma keeps_outside hs he cs B x c a :
  hs + 8 <= he /\ hs mod 16 = 0 /\ he mod 16 = 8 -> tile hs he cs -> keeps cs B ->
  cs !! x = Some c -> x <= a < x + csz c -> default 0 (B !! (x + 8)) <= a - (x + 8) \/ a < x + 8 ->
  ~ inside B a.
Proof.
  intros Hhe T K Hc Ha Hx (p & n & Hp & Hin). destruct (K p n Hp) as (d & Hd & _ & ?).
  assert (x = p - 8) as -> by (eapply (tile_inside hs he); eauto; lia).
  replace (p - 8 + 8) with p in Hx by lia. rewrite Hp in Hx. simpl in Hx. lia.
Qed.

Lemma keeps_free hs he cs B x c a :
  hs + 8 <= he /\ hs mod 16 = 0 /\ he mod 16 = 8 -> tile hs he cs -> keeps cs B ->
  cs !! x = Some c -> cal c = false \/ B !! (x + 8) = None -> x <= a < x + csz c -> ~ inside B a.
Proof.
  intros Hhe T K Hc Ha Hx. eapply keeps_outside; eauto.
  assert (B !! (x + 8) = None) as ->; [|simpl; lia].
  destruct Ha as [Ha|]; [|done]. destruct (B !! (x + 8)) as [n|] eqn:E; [|done].
  destruct (K _ _ E) as (d & Hd & ? & _). replace (x + 8 - 8) with x in Hd by lia. congruence.
Qed.

Section Ops.
Context (DEBUG : bool) (nl hs he : Z) (G : geom nl hs he) (s : mm_heap_s).
Context (Hstart : mm_heapstart s = hs) (Hend : mm_heapend s = he).
Context (B m0 : gmap Z Z).
#[local] Abbreviation mrep := (mrep nl hs he B m0).
#[local] Abbreviation linv := (linv hs he).

Lemma geom_ends : hs + 8 <= he /\ hs mod 16 = 0 /\ he mod 16 = 8.
Proof using G. destruct G. tauto. Qed.
#[local] Abbreviation GE := geom_ends.

Lemma adj_next cs x c y : cs !! x = Some c -> adj cs x y -> y = x + csz c.
Proof using. intros Hc (c' & d & Hc' & _ & ->). congruence. Qed.

Lemma adj_prev cs x c y : tile hs he cs -> cs !! x = Some c -> adj cs y x -> y = x - cprev c.
Proof using G.
  intros T Hc (d & c' & Hd & Hc' & E). rewrite Hc in Hc'. injection Hc' as <-.
  assert (y <> he).
  { intros ->. destruct (t_end _ _ _ T) as [p Hp]. rewrite Hp in Hd. injection Hd as <-. simpl in *.
    destruct (tile_range hs he GE cs T x c Hc). lia. }
  pose proof (tile_back hs he GE cs T y d x c Hd Hc (eq_sym E) ltac:(done)). lia.
Qed.

Lemma mid_chunk cs x c : tile hs he cs -> cs !! x = Some c -> x <> hs -> x <> he ->
  hslot hs he x /\ 16 <= csz c /\ csz c mod 16 = 0 /\ hs + 8 <= x /\ x + csz c <= he /\ he - hs < 2 ^ 31 /\
  exists d, cs !! (x + csz c) = Some d /\ cprev d = csz c.
Proof using G.
  intros T Hc Hxs Hxe. destruct (t_mid _ _ _ T x c Hc Hxs Hxe) as (H & ? & ?).
  pose proof (tile_lt hs he GE cs T x c Hc Hxe). pose proof (g_size _ _ _ G).
  destruct (t_next _ _ _ T x c Hc Hxe) as (d & ? & ?).
  split_and!; [done..|by destruct H as [[? _] _]|done|lia|by exists d].
Qed.

(** ** Release of a chunk *)

(** The chunk [x] off the free list is joined with a free chunk behind it. *)
Lemma mwp_free_next m cs F DL x c d (Q : ptr -> gmap Z Z -> Prop) :
  mrep m cs F DL -> linv cs F DL (Some x) -> cs !! x = Some c -> cs !! (x + csz c) = Some d ->
  (forall m' cs' F' c',
     mrep m' cs' F' DL -> linv cs' F' DL (Some x) -> cs' !! x = Some c' ->
     cprev c' = cprev c -> cal c' = false ->
     (forall y, adj cs' x y -> ~ fr cs' y) ->
     (forall y, asz cs' y = asz cs y) ->
     csz c' = csz c + default 0 (fsz cs (x + csz c)) ->
     (forall y, fsz cs' y = if decide (y = x) then Some (csz c')
                            else if decide (y = x + csz c) then None else fsz cs y) ->
     Q (x + csz c') m') ->
  mwp (let next := x + csz c in
       if negb (cal d) then
         nsize <- rd (f_size next) ;;
         let andbeyond := next + nsize in
         mm_unlink DEBUG next ;;
         size <- rd (f_size x) ;;
         nsize <- rd (f_size next) ;;
         wr (f_size x) (u32 (size + nsize)) ;;
         size <- rd (f_size x) ;;
         set_preceding andbeyond size ;;
         ret andbeyond
       else ret next) Q s m.
Proof using G Hstart Hend.
  intros R I Hc Hd HQ. simpl. pose proof (l_tile _ _ _ _ _ _ I) as T.
  assert (Hx : fr cs x) by (apply I; by right). destruct (fr_mid _ _ GE _ _ _ _ _ I Hx) as [Hxs Hxe].
  pose proof (g_hs _ _ _ G).
  assert (Hca : cal c = false) by (destruct Hx as (? & ? & ?); congruence).
  destruct (mid_chunk _ _ _ T Hc Hxs Hxe) as (Hslot & Hc16 & _ & Hlo & Hle & Hsz & _).
  destruct (cal d) eqn:Hda; simpl.
  { apply mwp_ret. assert (Hf : fsz cs (x + csz c) = None) by (unfold fsz; by rewrite Hd; simpl; rewrite Hda).
    apply (HQ m cs F c); try done.
    - intros y Hy (d' & Hd' & ?). rewrite (adj_next _ _ _ _ Hc Hy) in Hd'. congruence.
    - rewrite Hf. simpl. lia.
    - intros y. repeat case_decide; subst; [|done..]. unfold fsz. by rewrite Hc; simpl; rewrite Hca. }
  assert (Hn : fr cs (x + csz c)) by (by exists d).
  destruct (fr_mid _ _ GE _ _ _ _ _ I Hn) as [Hns Hne].
  destruct (mid_chunk _ _ _ T Hd Hns Hne) as (_ & Hd16 & _ & _ & Hle' & _ & e & He & _).
  assert (HnF : x + csz c ∈ F) by (eapply free_in_F; eauto; [apply GE|intros [= ?]; lia]).
  assert (HxF : x ∉ F) by (by apply (l_lim _ _ _ _ _ _ I)).
  apply mwp_bind. eapply mwp_rd_size; [done..|].
  apply mwp_bind. eapply mwp_unlink; [done..|]. intros m1 R1.
  apply mwp_bind. eapply mwp_rd_size; [done..|].
  apply mwp_bind. eapply mwp_rd_size; [done..|].
  rewrite wrapu_small by lia.
  apply mwp_bind. eapply mwp_wr_size; [done..|set_solver|lia|]. intros m2 R2.
  apply mwp_bind. eapply mwp_rd_size; [done|by rewrite lookup_insert_eq|]. simpl.
  apply mwp_bind. eapply mwp_set_preceding; [done|exact R2|rewrite lookup_insert_ne by lia; done|lia|].
  intros m3 R3. apply mwp_ret.
  pose proof (mrep_delete _ _ _ G _ _ _ _ _ _ R3 (x + csz c) ltac:(set_solver)
    (fr_not_DL _ _ GE _ _ _ _ _ I Hn)) as R4.
  pose proof (linv_join_next _ _ GE _ _ _ _ _ _ _ T Hc Hxs Hxe Hd Hne He I Hda) as I'.
  rewrite Hca in R4. replace (delete (x + csz c) _) with (join_at x false c d e cs) in R4 by chunk_map.
  replace (x + csz c + csz d) with (x + csz (Chunk (csz c + csz d) (cprev c) false)) by (simpl; lia).
  apply (HQ m3 _ _ _ R4 I'); try done.
  - rewrite (join_lookup hs he GE cs x c d e) by done. by rewrite decide_True.
  - intros y Hy%(join_adj hs he GE cs x c d e) Hf; try done.
    rewrite (join_fr hs he GE cs x c d e) in Hf by done.
    destruct Hy as [[_ ->]|(? & _)]; [|done]. destruct Hf as [[? _]|(_ & _ & Hf)]; [lia|].
    destruct (l_coal _ _ _ _ _ _ I (x + csz c) (x + csz c + csz d)); [by exists d, e|done..|simplify_eq; lia|simplify_eq; lia].
  - intros y. rewrite (proj1 (sz_join hs he GE cs T x c d Hc Hxs Hxe Hd e false y Hne He)).
    unfold asz. repeat case_decide; subst; [rewrite Hc; simpl; by rewrite Hca|rewrite Hd; simpl; by rewrite Hda|done].
  - simpl. unfold fsz. rewrite Hd. simpl. by rewrite Hda.
  - intros y. by rewrite (proj2 (sz_join hs he GE cs T x c d Hc Hxs Hxe Hd e false y Hne He)).
Qed.

(** The chunk [x] off the free list is joined with a free chunk [p] in front. *)
Lemma mwp_free_prev m cs F DL x c p (Q : ptr -> gmap Z Z -> Prop) :
  mrep m cs F DL -> linv cs F DL (Some x) -> cs !! x = Some c ->
  cs !! (x - cprev c) = Some p -> (forall y, adj cs x y -> ~ fr cs y) ->
  (forall m' cs' F' w k,
     mrep m' cs' F' DL -> linv cs' F' DL (Some w) ->
     (forall y, adj cs' w y -> ~ fr cs' y) -> (forall y, adj cs' y w -> ~ fr cs' y) ->
     (forall y, asz cs' y = asz cs y) -> w + k = x + csz c ->
     (w = x /\ fsz cs (x - cprev c) = None \/ w = x - cprev c /\ fsz cs w = Some (x - w)) ->
     (forall y, fsz cs' y = if decide (y = w) then Some k
                            else if decide (y = x) then None else fsz cs y) ->
     Q w m') ->
  mwp (let prev := x - cprev c in
       if negb (cal p) then
         mm_unlink DEBUG prev ;;
         psize <- rd (f_size prev) ;;
         size <- rd (f_size x) ;;
         wr (f_size prev) (u32 (psize + size)) ;;
         psize <- rd (f_size prev) ;;
         set_preceding (x + csz c) psize ;;
         ret prev
       else ret x) Q s m.
Proof using G Hstart Hend.
  intros R I Hc Hp Hnext HQ. simpl. pose proof (l_tile _ _ _ _ _ _ I) as T.
  assert (Hx : fr cs x) by (apply I; by right). destruct (fr_mid _ _ GE _ _ _ _ _ I Hx) as [Hxs Hxe].
  pose proof (g_hs _ _ _ G).
  assert (Hca : cal c = false) by (destruct Hx as (? & ? & ?); congruence).
  destruct (mid_chunk _ _ _ T Hc Hxs Hxe) as (Hslot & Hc16 & _ & Hlo & Hle & Hsz & e & He & _).
  assert (Hfx : fsz cs x = Some (csz c)) by (unfold fsz; rewrite Hc; simpl; by rewrite Hca).
  destruct (cal p) eqn:Hpa; simpl.
  { apply mwp_ret. apply (HQ m cs F x (csz c)); try done.
    - intros y Hy (d' & Hd' & ?). rewrite (adj_prev _ _ _ _ T Hc Hy) in Hd'. congruence.
    - left. split; [done|]. unfold fsz. rewrite Hp. simpl. by rewrite Hpa.
    - intros y. repeat case_decide; subst; done. }
  assert (Hps : csz p = cprev c).
  { destruct (t_prev _ _ _ T x c Hc Hxs) as (p' & Hp' & ?). congruence. }
  set (w := x - cprev c) in *. assert (Ew : w + csz p = x) by lia.
  assert (Hw : w = x - cprev c) by done. clearbody w.
  assert (Hn : fr cs w) by (by exists p).
  destruct (fr_mid _ _ GE _ _ _ _ _ I Hn) as [Hws Hwe].
  destruct (mid_chunk _ _ _ T Hp Hws Hwe) as (_ & Hp16 & _ & ? & _).
  assert (HwF : w ∈ F) by (eapply free_in_F; eauto; [apply GE|intros [= ?]; lia]).
  assert (HxF : x ∉ F) by (by apply (l_lim _ _ _ _ _ _ I)).
  apply mwp_bind. eapply mwp_unlink; [done..|]. intros m1 R1.
  apply mwp_bind. eapply mwp_rd_size; [done..|].
  apply mwp_bind. eapply mwp_rd_size; [done..|].
  rewrite wrapu_small by lia.
  apply mwp_bind. eapply mwp_wr_size; [done..|set_solver|lia|]. intros m2 R2.
  apply mwp_bind. eapply mwp_rd_size; [done|by rewrite lookup_insert_eq|]. simpl.
  apply mwp_bind. eapply mwp_set_preceding; [done|exact R2|rewrite lookup_insert_ne by lia; done|lia|].
  intros m3 R3. apply mwp_ret.
  pose proof (mrep_delete _ _ _ G _ _ _ _ _ _ R3 x ltac:(set_solver)
    (fr_not_DL _ _ GE _ _ _ _ _ I Hx)) as R4.
  rewrite <- Ew in Hc, He, I, Hxe. rewrite Hpa in R4.
  pose proof (linv_join_prev _ _ GE _ _ _ _ _ _ _ T Hp Hws Hwe Hc Hxe He I Hpa) as I'.
  replace (delete x _) with (join_at w false p c e cs) in R4 by (rewrite <- Ew at 1; chunk_map).
  apply (HQ m3 _ _ _ (csz p + csz c) R4 I').
  - intros y Hy%(join_adj hs he GE cs w p c e) Hf; try done.
    rewrite (join_fr hs he GE cs w p c e) in Hf by done.
    destruct Hy as [[_ ->]|(? & _)]; [|done]. destruct Hf as [[? _]|(_ & _ & Hf)]; [lia|].
    eapply Hnext, Hf. rewrite <- Ew. by exists c, e.
  - intros y Hy%(join_adj hs he GE cs w p c e) Hf; try done.
    rewrite (join_fr hs he GE cs w p c e) in Hf by done.
    destruct Hy as [[-> ?]|(? & ? & ? & Hy)]; [lia|]. destruct Hf as [[? _]|(_ & _ & Hf)]; [done|].
    destruct (l_coal _ _ _ _ _ _ I y w Hy Hf Hn); simplify_eq; lia.
  - intros y. rewrite (proj1 (sz_join hs he GE cs T w p c Hp Hws Hwe Hc e false y Hxe He)).
    unfold asz. repeat case_decide; subst; [rewrite Hp; simpl; by rewrite Hpa|rewrite Hc; simpl; by rewrite Hca|done].
  - lia.
  - right. split; [done|]. unfold fsz. rewrite Hp. simpl. rewrite Hpa. f_equal. lia.
  - intros y. rewrite (proj2 (sz_join hs he GE cs T w p c Hp Hws Hwe Hc e false y Hxe He)). by rewrite Ew.
Qed.

(** [x], of [sz] bytes, with the free chunks next to it becomes the free chunk
    from [lo] to [hi]. *)
Definition coalesced (cs : chunks) (x sz lo hi : Z) : Prop :=
  hi = x + sz + default 0 (fsz cs (x + sz)) /\
  (lo = x /\ (forall y k, fsz cs y = Some k -> y + k <> x) \/ fsz cs lo = Some (x - lo)).

Lemma mwp_free_chunk m cs F DL x c (Q : unit -> gmap Z Z -> Prop) :
  mrep m cs F DL -> linv cs F DL None -> keeps cs B -> cs !! x = Some c -> cal c = true ->
  x <> hs -> x <> he -> x ∉ DL -> B !! (x + 8) = None ->
  (forall m' cs' F' lo hi,
     mrep m' cs' F' DL -> linv cs' F' DL None ->
     (forall y, asz cs' y = if decide (y = x) then None else asz cs y) ->
     coalesced cs x (csz c) lo hi ->
     (forall y, fsz cs' y = if decide (y = lo) then Some (hi - lo)
                            else if decide (y = x + csz c) then None else fsz cs y) ->
     Q tt m') ->
  mwp (free_chunk DEBUG nl (x + 8)) Q s m.
Proof using G Hstart Hend.
  intros R I K Hc Hca Hxs Hxe HxD HxB HQ. pose proof (l_tile _ _ _ _ _ _ I) as T.
  destruct (mid_chunk _ _ _ T Hc Hxs Hxe) as (Hslot & Hc16 & Hcm & Hlo & Hle & Hsz & d & Hd & Hdp).
  pose proof (mrep_wf _ _ _ _ _ _ _ _ _ R _ _ Hc) as Hwf.
  unfold free_chunk, SIZEOF_MM_ALLOCNODE. replace (x + 8 - 8) with x by lia.
  apply mwp_bind, mwp_assert.
  { apply mwp_gets. simpl. rewrite Hstart, Hend. split; [|done].
    apply andb_true_iff. split; lia. }
  apply mwp_bind, mwp_assert.
  { apply mwp_bind. eapply mwp_is_free; [done..|]. apply mwp_ret. by rewrite Hca. }
  apply mwp_bind. eapply mwp_rd_prec; [done..|].
  apply mwp_bind. eapply mwp_wr_prec with (c' := Chunk (csz c) (cprev c) false);
    [done..|by apply prec_clear|done|apply Hwf|]. intros m1 R1.
  pose proof (linv_release _ _ GE _ _ _ _ _ I Hc Hca Hxs Hxe HxD) as I1.
  set (cs1 := <[x := _]> cs) in *.
  assert (Hc1 : cs1 !! x = Some (Chunk (csz c) (cprev c) false)) by apply lookup_insert_eq.
  assert (Hd1 : cs1 !! (x + csz c) = Some d) by (unfold cs1; by rewrite lookup_insert_ne by lia).
  assert (Ha1 : forall y, asz cs1 y = if decide (y = x) then None else asz cs y).
  { intros y. unfold cs1. by rewrite asz_insert. }
  assert (Hf1 : forall y, fsz cs1 y = if decide (y = x) then Some (csz c) else fsz cs y).
  { intros y. unfold cs1. by rewrite fsz_insert. }
  apply mwp_bind. eapply mwp_rd_size; [done|exact Hc1|]. simpl csz.
  apply mwp_bind, mwp_assert.
  { apply mwp_bind. eapply mwp_rd_prec; [done|exact Hd1|].
    apply mwp_bind. eapply mwp_rd_size; [done|exact Hc1|]. apply mwp_ret. simpl.
    rewrite prec_size by (by eapply mrep_wf). split; [lia|done]. }
  apply mwp_bind. eapply mwp_is_free; [done|exact Hd1|]. apply mwp_bind.
  apply (mwp_free_next m1 cs1 F DL x _ d _ R1 I1 Hc1 Hd1). simpl.
  intros m2 cs2 F2 c2 R2 I2 Hc2 Hp2 Hca2 Hn2 Ha2 Hs2 Hf2.
  pose proof (l_tile _ _ _ _ _ _ I2) as T2.
  destruct (t_prev _ _ _ T2 x c2 Hc2 Hxs) as (p & Hp & Hps).
  apply mwp_bind. eapply mwp_rd_prec; [done|exact Hc2|].
  assert (Ep : prec c2 = cprev c2) by (unfold prec; rewrite Hca2; lia). rewrite Ep.
  apply mwp_bind, mwp_assert.
  { apply mwp_bind. eapply mwp_rd_prec; [done|exact Hc2|].
    apply mwp_bind. eapply mwp_rd_size; [done|exact Hp|]. apply mwp_ret.
    rewrite prec_size by (by eapply mrep_wf). split; [lia|done]. }
  apply mwp_bind. eapply mwp_is_free; [done|exact Hp|]. apply mwp_bind.
  apply (mwp_free_prev m2 cs2 F2 DL x c2 p _ R2 I2 Hc2 Hp Hn2).
  intros m3 cs3 F3 w k R3 I3 Hn3 Hp3 Ha3 Hk3 Hw3 Hf3.
  assert (Hwfr : fr cs3 w) by (apply I3; by right).
  destruct (fr_mid _ _ GE _ _ _ _ _ I3 Hwfr) as [Hws Hwe].
  pose proof (fr_not_DL _ _ GE _ _ _ _ _ I3 Hwfr) as HwD.
  destruct Hwfr as (cw & Hcw & Hcwa).
  destruct (mid_chunk _ _ _ (l_tile _ _ _ _ _ _ I3) Hcw Hws Hwe) as (_ & Hcw16 & _).
  assert (Hco : coalesced cs x (csz c) w (w + k)).
  { split.
    - rewrite Hk3, Hs2, Hf1, decide_False by lia. lia.
    - destruct Hw3 as [[-> Hnone]|[-> Hw]].
      + left. split; [done|]. intros y k' Hy E.
        assert (fr cs y) as (cy & Hcy & Hcya) by (apply fsz_fr; rewrite Hy; eauto).
        assert (csz cy = k') by (unfold fsz in Hy; rewrite Hcy in Hy; simpl in Hy; rewrite Hcya in Hy; congruence).
        assert (y <> he) by (apply (fr_mid _ _ GE _ _ _ _ y I); by exists cy).
        assert (cprev c = csz cy) by (eapply (tile_back hs he GE cs T y cy x c); eauto; lia).
        rewrite Hp2, Hf2, Hf1 in Hnone. destruct (tile_range hs he GE cs T y cy Hcy).
        assert (x - cprev c = y) as Ey by lia. rewrite Ey in Hnone.
        rewrite !decide_False in Hnone by lia. congruence.
      + right. destruct (tile_range hs he GE _ T2 _ p Hp). rewrite <- Hw, Hf2, Hf1, !decide_False by lia. done. }
  assert (Hout : forall a, a = w + 8 \/ a = w + 12 -> ~ inside B a).
  { intros a Ha. destruct Hco as [_ [[-> _]|Hw]].
    - eapply (keeps_free hs he cs B x c); [apply GE|done..|by right|lia].
    - assert (fr cs w) as Hwfr by (apply fsz_fr; rewrite Hw; eauto).
      destruct (fr_mid _ _ GE _ _ _ _ _ I Hwfr) as [? ?]. destruct Hwfr as (cw0 & Hcw0 & ?).
      destruct (mid_chunk _ _ _ T Hcw0) as (_ & ? & _); [done..|].
      eapply (keeps_free hs he cs B w cw0); [apply GE|done..|by left|lia]. }
  assert (w < he) by (destruct (tile_range hs he GE _ (l_tile _ _ _ _ _ _ I3) _ _ Hcw); lia).
  eapply mwp_addfree; try done; [by apply (l_lim _ _ _ _ _ _ I3)|auto|auto|].
  intros m4 R4. eapply (HQ m4 cs3 _ w (w + k) R4); [|by intros; rewrite Ha3, Ha2|done|].
  - by apply (linv_add _ _ GE).
  - intros y. rewrite Hf3, Hf2, Hf1. replace (w + k - w) with k by lia.
    assert (fsz cs x = None) by (unfold fsz; rewrite Hc; simpl; by rewrite Hca).
    repeat case_decide; subst; (done || lia).
Qed.

(** ** Allocation of a chunk *)

Lemma fsz_nsz cs F DL L x c : linv cs F DL L -> cs !! x = Some c -> cal c = false ->
  fsz cs x = Some (csz c) /\ nsz cs x = csz c.
Proof using. intros I Hc Ha. unfold fsz, nsz. rewrite Hc. simpl. by rewrite Ha. Qed.

(** The rest of the chunk [x] behind its first [n] bytes becomes free: the
    statements of [alloc_chunk], [x] being off the free list. *)
Lemma mwp_split_off m cs F DL x c d n (Q : unit -> gmap Z Z -> Prop) :
  mrep m cs F DL -> tile hs he cs -> (forall y, y ∈ F -> fr cs y) -> keeps cs B ->
  cs !! x = Some c -> x <> hs -> x <> he -> cal c = false -> x ∉ F ->
  (forall y, y ∈ DL -> al cs y) ->
  cs !! (x + csz c) = Some d -> 16 <= n < csz c -> n mod 16 = 0 ->
  (forall m', mrep m' (split_at x n false false c d cs) ({[x + n]} ∪ F) DL -> Q tt m') ->
  mwp (size <- rd (f_size x) ;;
       let next := x + size in
       let remainder := x + n in
       wr (f_size remainder) (csz c - n) ;;
       wr (f_preceding remainder) n ;;
       wr (f_size x) n ;;
       set_preceding next (csz c - n) ;;
       mm_addfreechunk DEBUG nl remainder) Q s m.
Proof using G Hstart Hend.
  intros R T HF K Hc Hxs Hxe Hca HxF HD Hd Hn Hnm HQ.
  destruct (mid_chunk _ _ _ T Hc Hxs Hxe) as ([_ Hxm] & Hc16 & Hcm & Hlo & Hle & Hsz & _).
  pose proof (tile_interior hs he GE cs T x c (x + n) Hc ltac:(lia)) as Hnone.
  assert (Hrslot : hslot hs he (x + n)) by (split; lia).
  assert (Hout : forall a, x + n <= a < x + csz c -> ~ inside B a).
  { intros a Ha. eapply (keeps_free hs he cs B x c); [apply GE|done..|by left|lia]. }
  apply mwp_bind. eapply mwp_rd_size; [done..|]. cbv zeta.
  apply mwp_bind. eapply mwp_new_size; [done..|apply Hout; lia|]. intros m1 R1 Hm1.
  apply mwp_bind. eapply mwp_new_prec with (c := Chunk (csz c - n) n false);
    [done..|apply Hout; lia|apply Hout; lia|done| |split; simpl; lia|].
  { unfold prec. simpl. lia. }
  intros m2 R2. apply mwp_bind. eapply mwp_wr_size; [done|exact R2|by rewrite lookup_insert_ne by lia|done|lia|].
  intros m3 R3. apply mwp_bind.
  eapply mwp_set_preceding; [done|exact R3|by rewrite !lookup_insert_ne by lia|lia|].
  intros m4 R4. rewrite Hca in R4.
  assert (Hnfr : x + n ∉ F) by (intros (? & ? & _)%HF; congruence).
  assert (HnD : x + n ∉ DL) by (intros (? & ? & _)%HD; congruence).
  replace (<[x + csz c := _]> _) with (split_at x n false false c d cs) in R4 by chunk_map.
  eapply mwp_addfree with (c := Chunk (csz c - n) n false); try done.
  - rewrite (split_lookup hs he GE cs x n c d), decide_False, decide_True by (done || lia). done.
  - simpl. lia.
  - lia.
  - lia.
  - apply Hout. lia.
  - apply Hout. lia.
Qed.

(** The rest of an allocated chunk whose successor is not free becomes free. *)
Lemma hinv_split_rest cs F DL x c d n :
  linv cs F DL None -> cs !! x = Some c -> cal c = true -> cs !! (x + csz c) = Some d ->
  x <> hs -> x <> he -> 0 < n < csz c -> n mod 16 = 0 -> cal d = true ->
  linv (split_at x n true false c d cs) ({[x + n]} ∪ F) DL None.
Proof using G Hstart Hend.
  intros I Hc Hca Hd Hxs Hxe Hn Hnm Hda. pose proof (l_tile _ _ _ _ _ _ I) as T.
  apply (linv_add _ _ GE).
  - by apply (linv_carve _ _ GE).
  - intros y Hy%(split_adj hs he GE cs x n _ d) Hf; try done.
    rewrite (split_fr hs he GE cs x n _ d) in Hf by done.
    destruct Hy as [[? _]|[[_ ->]|(_ & ? & _)]]; [lia| |done].
    destruct Hf as [[? _]|[[? _]|(_ & _ & (d' & ? & ?))]]; [lia|lia|]. congruence.
  - intros y Hy%(split_adj hs he GE cs x n _ d) Hf; try done.
    rewrite (split_fr hs he GE cs x n _ d) in Hf by done.
    destruct Hy as [[-> _]|[[_ ?]|(_ & _ & ? & _)]]; [|lia|done].
    destruct Hf as [[_ ?]|[[? _]|(? & _ & _)]]; [done|lia|done].
Qed.

(** The chunk [x] off the free list is allocated but for a rest. *)
Lemma linv_split_rest cs F DL x c d n :
  linv cs F DL (Some x) -> cs !! x = Some c -> cs !! (x + csz c) = Some d ->
  x <> hs -> x <> he -> 0 < n < csz c -> n mod 16 = 0 -> cal d = true ->
  let g := <[x := Chunk (csz c) (cprev c) true]> cs in
  let g' := split_at x n true false (Chunk (csz c) (cprev c) true) d g in
  <[x := Chunk n (cprev c) true]> (split_at x n false false c d cs) = g' /\
  linv g' ({[x + n]} ∪ F) DL None.
Proof using G Hstart Hend.
  intros I Hc Hd Hxs Hxe Hn Hnm Hda g g'.
  pose proof (linv_alloc _ _ GE _ _ _ _ _ I Hc) as I2. fold g in I2.
  split; [unfold g', g; chunk_map|]. apply hinv_split_rest; try done.
  - apply lookup_insert_eq.
  - simpl. unfold g. by rewrite lookup_insert_ne by lia.
Qed.

Lemma mwp_alloc_chunk m cs F DL n (Q : ptr -> gmap Z Z -> Prop) :
  mrep m cs F DL -> linv cs F DL None -> keeps cs B -> 16 <= n < 2 ^ 32 -> n mod 16 = 0 ->
  ((forall y k, fsz cs y = Some k -> k < n) -> Q NULL m) ->
  (forall m' cs' F' x k,
     mrep m' cs' F' DL -> linv cs' F' DL None ->
     fsz cs x = Some k -> n <= k -> (forall y k', fsz cs y = Some k' -> n <= k' -> k <= k') ->
     (forall y, asz cs' y = if decide (y = x) then Some n else asz cs y) ->
     (forall y, fsz cs' y = if decide (y = x) then None
                            else if decide (y = x + n /\ n < k) then Some (k - n) else fsz cs y) ->
     (forall y, adj cs' y x -> ~ fr cs' y) ->
     Q (x + 8) m') ->
  mwp (alloc_chunk DEBUG nl n) Q s m.
Proof using G Hstart Hend.
  intros R I K Hn Hnm HQ0 HQ. pose proof (l_tile _ _ _ _ _ _ I) as T.
  assert (HFf : forall y k, fsz cs y = Some k -> y ∈ F /\ nsz cs y = k).
  { intros y k Hy. assert (fr cs y) as (c & Hc & Ha) by (apply fsz_fr; rewrite Hy; eauto).
    destruct (fsz_nsz _ _ _ _ _ _ I Hc Ha). split; [|congruence]. by eapply free_in_F; [apply GE|..]. }
  destruct (mwp_search nl hs he G B m0 DEBUG s m cs F DL n R Hn) as (ndx & first & Hndx & Hfirst & Hsearch).
  unfold alloc_chunk. apply mwp_bind.
  assert (Hif : forall Q', Q' ndx m ->
    mwp (if MM_MAX_CHUNK <=? n then ret (MM_NNODES - 1) else getso (fun _ => mm_size2ndx n)) Q' s m).
  { intros Q' HQ'. unfold mm_size2ndx in Hndx. destruct (MM_MAX_CHUNK <=? n) eqn:E.
    - injection Hndx as <-. by apply mwp_ret.
    - eapply mwp_getso; [|exact HQ']. unfold mm_size2ndx. by rewrite E. }
  apply Hif. apply mwp_bind. eapply mwp_rd; [exact Hfirst|]. apply mwp_bind. apply Hsearch.
  { intros Hno. simpl. apply mwp_ret. apply HQ0. intros y k Hy. destruct (HFf y k Hy) as [? <-]. auto. }
  intros x HxF Hxpos Hge Hbest. replace (x =? NULL) with false by (unfold NULL; lia).
  destruct (F_chunk _ _ GE _ _ _ _ _ I HxF) as (c & Hc & Hca).
  destruct (fsz_nsz _ _ _ _ _ _ I Hc Hca) as [Hfx Hnx]. rewrite Hnx in *.
  assert (Hxfr : fr cs x) by (by exists c).
  destruct (fr_mid _ _ GE _ _ _ _ _ I Hxfr) as [Hxs Hxe].
  pose proof (fr_not_DL _ _ GE _ _ _ _ _ I Hxfr) as HxD.
  destruct (mid_chunk _ _ _ T Hc Hxs Hxe) as ([_ Hxm] & Hc16 & Hcm & Hlo & Hle & Hsz & d & Hd & Hdp).
  apply mwp_bind. eapply mwp_unlink; [done..|]. intros m1 R1.
  pose proof (linv_take _ _ GE _ _ _ _ I HxF) as I1.
  pose proof (linv_alloc _ _ GE _ _ _ _ _ I1 Hc) as I2.
  assert (Hprev : forall y, adj cs y x -> ~ fr cs y).
  { intros y Hy Hf. by destruct (l_coal _ _ _ _ _ _ I y x Hy Hf Hxfr). }
  assert (Hb' : forall y k', fsz cs y = Some k' -> n <= k' -> csz c <= k').
  { intros y k' Hy ?. destruct (HFf y k' Hy) as [? <-]. auto. }
  apply mwp_bind. eapply mwp_rd_size; [done..|]. rewrite wrapu_small by lia.
  unfold SIZEOF_MM_FREENODE. apply mwp_bind. destruct (Z.leb_spec 16 (csz c - n)) as [Hbig|Hsmall]; simpl.
  - eapply mwp_split_off with (c := c) (d := d); try done; try lia.
    { intros y Hy. apply (l_free _ _ _ _ _ _ I1). by left. }
    { set_solver. }
    { intros y Hy. by apply (l_dl _ _ _ _ _ _ I). }
    intros m2 R2. set (g := split_at x n false false c d cs) in *.
    assert (Hg : g !! x = Some (Chunk n (cprev c) false)).
    { unfold g. rewrite (split_lookup hs he GE cs x n c d), decide_True by (done || lia). done. }
    apply mwp_bind. eapply mwp_rd_prec; [done|exact Hg|].
    pose proof (mrep_wf _ _ _ _ _ _ _ _ _ R2 _ _ Hg) as Hwf.
    apply mwp_bind. eapply mwp_wr_prec with (c' := Chunk n (cprev c) true);
      [done|exact R2|exact Hg|by apply (prec_alloc _ Hwf)|done|apply Hwf|].
    intros m3 R3. apply mwp_ret.
    destruct (linv_split_rest cs (F ∖ {[x]}) DL x c d n I1) as [E I3]; try done; try lia.
    { destruct (cal d) eqn:Hda; [done|]. destruct (l_coal _ _ _ _ _ _ I x (x + csz c)); [by exists c, d|done|by exists d|done..]. }
    fold g in E. rewrite E in R3. eapply (HQ m3 _ _ x (csz c) R3 I3); try done.
    + intros y. rewrite <- E, (asz_insert g x (Chunk n (cprev c) true)). simpl. case_decide; [done|].
      unfold g. rewrite (proj1 (sz_split hs he GE cs T x c d Hc Hxs Hxe Hd n false false y ltac:(lia) Hnm)).
      rewrite decide_False by done. case_decide as Ey; [|done]. rewrite Ey. unfold asz.
      by rewrite (tile_interior hs he GE cs T x c (x + n) Hc) by lia.
    + intros y. rewrite <- E, (fsz_insert g x (Chunk n (cprev c) true)). simpl. case_decide; [done|].
      unfold g. rewrite (proj2 (sz_split hs he GE cs T x c d Hc Hxs Hxe Hd n false false y ltac:(lia) Hnm)).
      rewrite decide_False by done. repeat case_decide; (done || lia).
    + assert (E2 : <[x := Chunk n (cprev c) true]> g = split_at x n true false c d cs) by (unfold g; chunk_map).
      intros y Hy Hf. rewrite <- E, E2 in Hy, Hf. assert (Hk : 0 < n < csz c) by lia.
      apply (split_adj hs he GE cs x n c d) in Hy; try done.
      destruct Hy as [[_ ?]|[[_ ?]|(? & ? & _ & Hy)]]; [lia|lia|].
      rewrite (split_fr hs he GE cs x n c d) in Hf by done.
      destruct Hf as [[? _]|[[? _]|(_ & _ & Hf)]]; [done..|]. by eapply Hprev.
  - apply mwp_ret. assert (csz c = n) as Ek by lia.
    pose proof (mrep_wf _ _ _ _ _ _ _ _ _ R1 _ _ Hc) as Hwf.
    apply mwp_bind. eapply mwp_rd_prec; [done..|].
    apply mwp_bind. eapply mwp_wr_prec with (c' := Chunk (csz c) (cprev c) true);
      [done|exact R1|exact Hc|by apply prec_alloc|done|apply Hwf|].
    intros m2 R2. apply mwp_ret. eapply (HQ m2 _ _ x (csz c) R2 I2); try done.
    + intros y. by rewrite asz_insert; simpl; rewrite Ek.
    + intros y. rewrite fsz_insert; simpl. repeat case_decide; (done || lia).
    + intros y Hy. rewrite (setal_adj _ _ GE) in Hy by done. rewrite (setal_fr _ _ GE) by done.
      intros [[_ ?]|[_ Hf]]; [done|]. by eapply Hprev.
Qed.

(** ** Shrinking a chunk *)

(** The invariant when the allocated chunk [x] gives up what is behind its
    first [n] bytes to the free chunk behind it. *)
Lemma hinv_shift cs F DL x c d e n :
  linv cs F DL None -> cs !! x = Some c -> cal c = true -> cs !! (x + csz c) = Some d -> cal d = false ->
  cs !! (x + csz c + csz d) = Some e -> x <> hs -> x <> he -> 0 < n < csz c + csz d -> n mod 16 = 0 ->
  let c' := Chunk (csz c + csz d) (cprev c) true in
  let e' := Chunk (csz e) (csz c + csz d) (cal e) in
  linv (split_at x n true false c' e' (join_at x true c d e cs)) ({[x + n]} ∪ F ∖ {[x + csz c]}) DL None /\
  (forall y, asz (split_at x n true false c' e' (join_at x true c d e cs)) y =
     if decide (y = x) then Some n else asz cs y) /\
  (forall y, fsz (split_at x n true false c' e' (join_at x true c d e cs)) y =
     if decide (y = x + n) then Some (csz c + csz d - n)
     else if decide (y = x + csz c) then None else fsz cs y).
Proof using G Hstart Hend.
  intros I Hc Hca Hd Hda He Hxs Hxe Hn Hnm c' e'. pose proof (l_tile _ _ _ _ _ _ I) as T.
  assert (Hy : fr cs (x + csz c)) by (by exists d).
  destruct (fr_mid _ _ GE _ _ _ _ _ I Hy) as [Hys Hye].
  destruct (mid_chunk _ _ _ T Hc Hxs Hxe) as (_ & Hc16 & _).
  destruct (mid_chunk _ _ _ T Hd Hys Hye) as (_ & Hd16 & _).
  assert (HyF : x + csz c ∈ F) by (eapply free_in_F; eauto; apply GE).
  pose proof (linv_take _ _ GE _ _ _ _ I HyF) as I1.
  pose proof (linv_absorb_next _ _ GE _ _ _ _ _ _ _ T Hc Hxs Hxe Hd Hye He I1 Hca) as I2.
  set (g := join_at x true c d e cs) in *. pose proof (l_tile _ _ _ _ _ _ I2) as T2.
  assert (Hgx : g !! x = Some c') by (unfold g; rewrite (join_lookup hs he GE cs x c d e) by done; by rewrite decide_True).
  assert (Hge : g !! (x + csz c') = Some e').
  { simpl. rewrite Z.add_assoc. unfold g. rewrite (join_lookup hs he GE cs x c d e) by done.
    by rewrite !decide_False, decide_True by lia. }
  assert (Hea : cal e = true).
  { destruct (cal e) eqn:Hea; [done|].
    destruct (l_coal _ _ _ _ _ _ I (x + csz c) (x + csz c + csz d)); [by exists d, e|by exists d|by exists e|done..]. }
  assert (Hsz : forall y, asz g y = (if decide (y = x) then Some (csz c + csz d)
                    else if decide (y = x + csz c) then None else asz cs y) /\
                  fsz g y = (if decide (y = x) then None
                    else if decide (y = x + csz c) then None else fsz cs y)).
  { intros y. by apply (sz_join hs he GE cs T x c d Hc Hxs Hxe Hd e true y). }
  assert (Hfx : fsz cs x = None) by (unfold fsz; rewrite Hc; simpl; by rewrite Hca).
  assert (Hay : asz cs (x + csz c) = None) by (unfold asz; rewrite Hd; simpl; by rewrite Hda).
  assert (Hn' : 0 < n < csz c') by (simpl; lia).
  assert (Hnone : asz g (x + n) = None).
  { unfold asz. by rewrite (tile_interior hs he GE g T2 x c' (x + n) Hgx) by lia. }
  split_and!.
  - by apply hinv_split_rest.
  - intros y. rewrite (proj1 (sz_split hs he GE g T2 x c' e' Hgx Hxs Hxe Hge n true false y Hn' Hnm)).
    case_decide; [done|]. case_decide as Ey; [rewrite Ey in *|].
    + rewrite (proj1 (Hsz (x + n))), !decide_False in Hnone by lia. case_decide; congruence.
    + rewrite (proj1 (Hsz y)), decide_False by done. case_decide; congruence.
  - intros y. rewrite (proj2 (sz_split hs he GE g T2 x c' e' Hgx Hxs Hxe Hge n true false y Hn' Hnm)).
    rewrite (proj2 (Hsz y)). repeat case_decide; subst; (done || lia || congruence).
Qed.

Lemma mwp_shrinkchunk m cs F DL x c n (Q : unit -> gmap Z Z -> Prop) :
  mrep m cs F DL -> linv cs F DL None -> keeps cs B -> cs !! x = Some c -> cal c = true ->
  x <> hs -> x <> he -> 16 <= n < csz c -> n mod 16 = 0 -> default 0 (B !! (x + 8)) <= n - 8 ->
  (forall m' cs' F',
     mrep m' cs' F' DL -> linv cs' F' DL None ->
     (forall y, asz cs' y = if decide (y = x) then Some n else asz cs y) ->
     (forall y, fsz cs' y = if decide (y = x + n) then Some (csz c - n + default 0 (fsz cs (x + csz c)))
                            else if decide (y = x + csz c) then None else fsz cs y) ->
     Q tt m') ->
  mwp (mm_shrinkchunk DEBUG nl x n) Q s m.
Proof using G Hstart Hend.
  intros R I K Hc Hca Hxs Hxe Hn Hnm HxB HQ. pose proof (l_tile _ _ _ _ _ _ I) as T.
  destruct (mid_chunk _ _ _ T Hc Hxs Hxe) as ([_ Hxm] & Hc16 & Hcm & Hlo & Hle & Hsz & d & Hd & Hdp).
  destruct (al_not_F _ _ GE _ _ _ _ _ _ I Hc Hca) as [HxF _].
  pose proof (tile_interior hs he GE cs T x c (x + n) Hc ltac:(lia)) as Hnone.
  assert (Hrslot : hslot hs he (x + n)) by (split; lia).
  assert (HnF : x + n ∉ F).
  { intros Hin. destruct (F_chunk _ _ GE _ _ _ _ _ I Hin) as (? & ? & _). congruence. }
  assert (HnD : x + n ∉ DL).
  { intros (_ & _ & ? & ? & _)%(l_dl _ _ _ _ _ _ I). congruence. }
  assert (Hout : forall a, x + n <= a < x + csz c -> ~ inside B a).
  { intros a Ha. eapply (keeps_outside hs he cs B x c); [apply GE|done..|lia|left; lia]. }
  unfold mm_shrinkchunk. apply mwp_bind, mwp_assert.
  { apply mwp_ret. split; [|done]. change MM_GRAN_MASK with (Z.ones 4). rewrite Z.land_ones by lia.
    change (2 ^ 4) with 16. lia. }
  apply mwp_bind. eapply mwp_rd_size; [done..|].
  apply mwp_bind. eapply mwp_is_free; [done..|]. destruct (cal d) eqn:Hda; simpl.
  - apply mwp_bind. eapply mwp_rd_size; [done..|].
    unfold SIZEOF_MM_FREENODE. rewrite wrapu_small by lia.
    destruct (Z.leb_spec (n + 16) (csz c)) as [_|?]; [|lia]. simpl. rewrite wrapu_small by lia.
    apply mwp_bind. eapply mwp_new_size; [done..|apply Hout; lia|]. intros m1 R1 Hm1.
    apply mwp_bind. eapply mwp_new_prec with (c := Chunk (csz c - n) n false);
      [done..|apply Hout; lia|apply Hout; lia|done|unfold prec; simpl; lia|split; simpl; lia|].
    intros m2 R2. apply mwp_bind.
    eapply mwp_wr_size; [done|exact R2|by rewrite lookup_insert_ne by lia|done|lia|]. intros m3 R3.
    apply mwp_bind. eapply mwp_rd_size; [exact R3|by rewrite lookup_insert_ne, lookup_insert_eq by lia|].
    simpl. apply mwp_bind. eapply mwp_wr_prec with (c' := Chunk (csz d) (csz c - n) true);
      [done|exact R3|by rewrite !lookup_insert_ne by lia|unfold prec; simpl; apply bit31; lia|done|simpl; lia|].
    intros m4 R4. rewrite Hca in R4. rewrite <- Hda in R4.
    replace (<[x + csz c := _]> _) with (split_at x n true false c d cs) in R4 by chunk_map.
    eapply mwp_addfree with (c := Chunk (csz c - n) n false); try done; try (apply Hout; lia); try lia.
    { rewrite (split_lookup hs he GE cs x n c d), decide_False, decide_True by (done || lia). done. }
    { simpl. lia. }
    intros m5 R5. assert (Hk : 0 < n < csz c) by lia.
    apply (HQ m5 _ _ R5); [by apply hinv_split_rest| |]; intros y.
    + rewrite (proj1 (sz_split hs he GE cs T x c d Hc Hxs Hxe Hd n true false y Hk Hnm)).
      case_decide; [done|]. case_decide as Ey; [|done]. rewrite Ey. unfold asz. by rewrite Hnone.
    + rewrite (proj2 (sz_split hs he GE cs T x c d Hc Hxs Hxe Hd n true false y Hk Hnm)).
      assert (fsz cs (x + csz c) = None) as E by (unfold fsz; rewrite Hd; simpl; by rewrite Hda).
      assert (fsz cs x = None) as E' by (unfold fsz; rewrite Hc; simpl; by rewrite Hca).
      rewrite E. simpl. repeat case_decide; subst; try done; try lia. f_equal. lia.
  - assert (Hy : fr cs (x + csz c)) by (by exists d).
    destruct (fr_mid _ _ GE _ _ _ _ _ I Hy) as [Hys Hye].
    destruct (mid_chunk _ _ _ T Hd Hys Hye) as (_ & Hd16 & Hdm & _ & Hle' & _ & e & He & _).
    assert (HyF : x + csz c ∈ F) by (eapply free_in_F; eauto; apply GE).
    pose proof (fr_not_DL _ _ GE _ _ _ _ _ I Hy) as HyD.
    apply mwp_bind. eapply mwp_rd_size; [done..|].
    apply mwp_bind. eapply mwp_unlink; [done..|]. intros m1 R1.
    apply mwp_bind. eapply mwp_rd_size; [done..|].
    apply mwp_bind. eapply mwp_rd_size; [done..|].
    rewrite wrapu_small by lia.
    apply mwp_bind. eapply mwp_new_size; [done..|apply Hout; lia|]. intros m2 R2 Hm2.
    apply mwp_bind. eapply mwp_new_prec with (c := Chunk (csz d + csz c - n) n false);
      [done..|apply Hout; lia|apply Hout; lia|done|unfold prec; simpl; lia|split; simpl; lia|].
    intros m3 R3. apply mwp_bind.
    eapply mwp_wr_size; [done|exact R3|by rewrite lookup_insert_ne by lia|set_solver|lia|]. intros m4 R4.
    apply mwp_bind. eapply mwp_rd_size; [exact R4|by rewrite lookup_insert_ne, lookup_insert_eq by lia|].
    simpl. apply mwp_bind.
    eapply mwp_set_preceding; [done|exact R4|by rewrite !lookup_insert_ne by lia|lia|]. intros m5 R5.
    pose proof (mrep_delete _ _ _ G _ _ _ _ _ _ R5 (x + csz c) ltac:(set_solver) HyD) as R6.
    destruct (hinv_shift cs F DL x c d e n) as (I' & Ha' & Hf'); try done; [lia|].
    set (g := split_at _ _ _ _ _ _ _) in I', Ha', Hf'. rewrite Hca in R6.
    replace (delete (x + csz c) _) with g in R6.
    2: { unfold g. replace (csz d + csz c - n) with (csz c + csz d - n) by lia. chunk_map. }
    eapply mwp_addfree with (c := Chunk (csz c + csz d - n) n false); try done; try (apply Hout; lia); try lia.
    { unfold g, split_at. simpl. by rewrite lookup_insert_ne, lookup_insert_eq by lia. }
    { simpl. lia. }
    { set_solver. }
    intros m7 R7. apply (HQ m7 _ _ R7); [done..|]. intros y. rewrite Hf'.
    assert (fsz cs (x + csz c) = Some (csz d)) as -> by (unfold fsz; rewrite Hd; simpl; by rewrite Hda).
    simpl. case_decide; [|done]. f_equal. lia.
Qed.

(** ** Growing a chunk *)

Lemma mwp_take_next m cs F DL x c d t (Q : unit -> gmap Z Z -> Prop) :
  mrep m cs F DL -> linv cs F DL None -> keeps cs B -> cs !! x = Some c -> cal c = true ->
  x <> hs -> x <> he -> cs !! (x + csz c) = Some d -> cal d = false -> 0 < t <= csz d -> t mod 16 = 0 ->
  (forall m' cs' F',
     mrep m' cs' F' DL -> linv cs' F' DL None ->
     (forall y, asz cs' y = if decide (y = x) then Some (csz c + t) else asz cs y) ->
     (forall y, fsz cs' y = if decide (y = x + csz c) then None
                            else if decide (y = x + csz c + t /\ t < csz d) then Some (csz d - t)
                            else fsz cs y) ->
     Q tt m') ->
  mwp (take_next DEBUG nl x (x + csz c) (csz c) (csz d) t) Q s m.
Proof using G Hstart Hend.
  intros R I K Hc Hca Hxs Hxe Hd Hda Ht Htm HQ. pose proof (l_tile _ _ _ _ _ _ I) as T.
  destruct (mid_chunk _ _ _ T Hc Hxs Hxe) as ([_ Hxm] & Hc16 & Hcm & Hlo & Hle & Hsz & _).
  destruct (al_not_F _ _ GE _ _ _ _ _ _ I Hc Hca) as [HxF _].
  assert (Hy : fr cs (x + csz c)) by (by exists d).
  destruct (fr_mid _ _ GE _ _ _ _ _ I Hy) as [Hys Hye].
  destruct (mid_chunk _ _ _ T Hd Hys Hye) as (_ & Hd16 & Hdm & _ & Hle' & _ & e & He & _).
  assert (HyF : x + csz c ∈ F) by (eapply free_in_F; eauto; apply GE).
  pose proof (fr_not_DL _ _ GE _ _ _ _ _ I Hy) as HyD.
  assert (Hout : forall a, x + csz c <= a < x + csz c + csz d -> ~ inside B a).
  { intros a Ha. eapply (keeps_free hs he cs B (x + csz c) d); [apply GE|done..|by left|lia]. }
  unfold take_next. cbv zeta. apply mwp_bind. eapply mwp_unlink; [done..|]. intros m1 R1.
  rewrite wrapu_small by lia.
  apply mwp_bind. eapply mwp_wr_size; [done..|set_solver|lia|]. intros m2 R2.
  apply mwp_bind. eapply mwp_rd_size; [exact R2|by rewrite lookup_insert_eq|]. simpl.
  destruct (Z.ltb_spec t (csz d)) as [Hlt|Hge].
  - pose proof (tile_interior hs he GE cs T _ d (x + csz c + t) Hd ltac:(lia)) as Hnone.
    rewrite wrapu_small by lia. rewrite (Z.add_assoc x).
    apply mwp_bind. eapply mwp_new_size; [done|exact R2|by rewrite lookup_insert_ne by lia|split; lia|apply Hout; lia|].
    intros m3 R3 Hm3. apply mwp_bind, mwp_assert.
    { apply mwp_bind. eapply mwp_rd; [exact Hm3|]. apply mwp_ret. split; [|done]. unfold SIZEOF_MM_FREENODE. lia. }
    apply mwp_bind. eapply mwp_rd_size; [exact R3|by rewrite lookup_insert_eq|]. simpl.
    apply mwp_bind. eapply mwp_new_prec with (c := Chunk (csz d - t) (csz c + t) false);
      [done|exact R3|by rewrite lookup_insert_ne by lia|split; lia|apply Hout; lia|apply Hout; lia|done|unfold prec; simpl; lia|split; simpl; lia|].
    intros m4 R4. apply mwp_bind. eapply mwp_rd_size; [exact R4|by rewrite lookup_insert_eq|]. simpl.
    apply mwp_bind. eapply mwp_set_preceding; [done|exact R4|by rewrite !lookup_insert_ne by lia|lia|]. intros m5 R5.
    pose proof (mrep_delete _ _ _ G _ _ _ _ _ _ R5 (x + csz c) ltac:(set_solver) HyD) as R6.
    destruct (hinv_shift cs F DL x c d e (csz c + t)) as (I' & Ha' & Hf'); try done; [lia|lia|].
    set (g := split_at _ _ _ _ _ _ _) in I', Ha', Hf'. rewrite Hca in R6.
    replace (delete (x + csz c) _) with g in R6.
    2: { unfold g. replace (csz d - t) with (csz c + csz d - (csz c + t)) by lia.
         rewrite <- (Z.add_assoc x (csz c) t). chunk_map. }
    eapply mwp_addfree with (c := Chunk (csz c + csz d - (csz c + t)) (csz c + t) false);
      try done; try (apply Hout; lia); try lia.
    { rewrite <- (Z.add_assoc x (csz c) t). unfold g, split_at. simpl. by rewrite lookup_insert_ne, lookup_insert_eq by lia. }
    { simpl. lia. }
    { intros [Hin _]%elem_of_difference. destruct (F_chunk _ _ GE _ _ _ _ _ I Hin) as (? & ? & _). congruence. }
    { intros (_ & _ & ? & ? & _)%(l_dl _ _ _ _ _ _ I). congruence. }
    intros m7 R7. rewrite <- (Z.add_assoc x) in R7. apply (HQ m7 _ _ R7); [done..|]. intros y. rewrite Hf'.
    repeat case_decide; subst; try done; try lia. f_equal. lia.
  - assert (t = csz d) as -> by lia.
    apply mwp_bind. eapply mwp_rd_size; [exact R2|by rewrite lookup_insert_eq|]. simpl.
    eapply mwp_set_preceding; [done|exact R2|by rewrite lookup_insert_ne by lia|lia|]. intros m3 R3.
    pose proof (mrep_delete _ _ _ G _ _ _ _ _ _ R3 (x + csz c) ltac:(set_solver) HyD) as R4.
    pose proof (linv_take _ _ GE _ _ _ _ I HyF) as I1.
    pose proof (linv_absorb_next _ _ GE _ _ _ _ _ _ _ T Hc Hxs Hxe Hd Hye He I1 Hca) as I2.
    rewrite Hca in R4. replace (delete (x + csz c) _) with (join_at x true c d e cs) in R4 by chunk_map.
    assert (fsz cs x = None) as E' by (unfold fsz; rewrite Hc; simpl; by rewrite Hca).
    assert (asz cs (x + csz c) = None) as E by (unfold asz; rewrite Hd; simpl; by rewrite Hda).
    apply (HQ m3 _ _ R4 I2); intros y.
    + rewrite (proj1 (sz_join hs he GE cs T x c d Hc Hxs Hxe Hd e true y Hye He)).
      repeat case_decide; congruence.
    + rewrite (proj2 (sz_join hs he GE cs T x c d Hc Hxs Hxe Hd e true y Hye He)).
      repeat case_decide; subst; try done; lia.
Qed.

(** The invariant when the allocated chunk [x] takes the last [t] bytes of the
    free chunk [w] in front of it. *)
Lemma hinv_shift_front cs F DL w p c e t :
  let x := w + csz p in
  linv cs F DL None -> cs !! w = Some p -> cal p = false -> cs !! x = Some c -> cal c = true ->
  cs !! (x + csz c) = Some e -> x <> he -> x ∉ DL -> 0 < t < csz p -> t mod 16 = 0 ->
  let c' := Chunk (csz p + csz c) (cprev p) true in
  let e' := Chunk (csz e) (csz p + csz c) (cal e) in
  let g := split_at w (csz p - t) false true c' e' (join_at w true p c e cs) in
  linv g ({[w]} ∪ F ∖ {[w]}) DL None /\
  (forall y, asz g y = if decide (y = x - t) then Some (csz c + t)
                       else if decide (y = x) then None else asz cs y) /\
  (forall y, fsz g y = if decide (y = w) then Some (csz p - t) else fsz cs y).
Proof using G Hstart Hend.
  intros x I Hp Hpa Hc Hca He Hxe HxD Ht Htm c' e' g. pose proof (l_tile _ _ _ _ _ _ I) as T.
  assert (Hw : fr cs w) by (by exists p).
  destruct (fr_mid _ _ GE _ _ _ _ _ I Hw) as [Hws Hwe].
  destruct (mid_chunk _ _ _ T Hp Hws Hwe) as (_ & Hp16 & Hpm & _).
  pose proof (tile_range hs he GE cs T x c Hc) as [_ Hc8].
  assert (HwF : w ∈ F) by (eapply free_in_F; eauto; apply GE).
  pose proof (linv_take _ _ GE _ _ _ _ I HwF) as I1.
  pose proof (linv_absorb_prev _ _ GE _ _ _ _ _ _ _ T Hp Hws Hwe Hc Hxe He I1 Hca HxD) as I2.
  pose proof (l_tile _ _ _ _ _ _ I2) as T2.
  assert (Hgx : join_at w true p c e cs !! w = Some c')
    by (rewrite (join_lookup hs he GE cs w p c e) by done; by rewrite decide_True).
  assert (Hge : join_at w true p c e cs !! (w + csz c') = Some e').
  { simpl. rewrite Z.add_assoc, (join_lookup hs he GE cs w p c e) by done.
    by rewrite !decide_False, decide_True by (unfold x in *; lia). }
  assert (Hsz : forall y, asz (join_at w true p c e cs) y = (if decide (y = w) then Some (csz p + csz c)
                    else if decide (y = x) then None else asz cs y) /\
                  fsz (join_at w true p c e cs) y = (if decide (y = w) then None
                    else if decide (y = x) then None else fsz cs y)).
  { intros y. by apply (sz_join hs he GE cs T w p c Hp Hws Hwe Hc e true y). }
  assert (Hfx : fsz cs x = None) by (unfold fsz; rewrite Hc; simpl; by rewrite Hca).
  assert (Haw : asz cs w = None) by (unfold asz; rewrite Hp; simpl; by rewrite Hpa).
  assert (Hn' : 0 < csz p - t < csz c') by (simpl; lia).
  assert (Hnm : (csz p - t) mod 16 = 0) by lia.
  assert (Hnone : cs !! (x - t) = None).
  { eapply (tile_interior hs he GE cs T w p); [done|]. unfold x. lia. }
  split_and!.
  - apply (linv_add _ _ GE); [apply (linv_carve_front _ _ GE); try done; apply (fr_not_DL _ _ GE _ _ _ _ _ I Hw)| |].
    + intros y Hy%(split_adj hs he GE _ w _ c' e') Hf; try done.
      unfold g in Hf. rewrite (split_fr hs he GE _ w _ c' e') in Hf by done.
      destruct Hy as [[_ ->]|[[? _]|(? & _)]]; [|lia|done].
      destruct Hf as [[? _]|[[_ ?]|(_ & ? & _)]]; [lia|done..].
    + intros y Hy%(split_adj hs he GE _ w _ c' e') Hf; try done.
      unfold g in Hf. rewrite (split_fr hs he GE _ w _ c' e') in Hf by done.
      destruct Hy as [[_ ?]|[[_ ?]|(Hyw & Hyk & _ & Hy)]]; [lia|simpl in *; lia|].
      destruct Hf as [[? _]|[[? _]|(_ & _ & Hf)]]; [done..|].
      apply (join_adj hs he GE cs w p c e) in Hy; try done.
      destruct Hy as [[? _]|(_ & ? & _ & Hy)]; [done|].
      rewrite (join_fr hs he GE cs w p c e) in Hf by done. destruct Hf as [[_ ?]|(_ & _ & Hf)]; [done|].
      by destruct (l_coal _ _ _ _ _ _ I y w Hy Hf Hw).
  - intros y. unfold g. rewrite (proj1 (sz_split hs he GE _ T2 w c' e' Hgx Hws Hwe Hge _ false true y Hn' Hnm)).
    rewrite (proj1 (Hsz y)). simpl. unfold x in *.
    repeat case_decide; subst; try done; try lia; try congruence. f_equal. lia.
  - intros y. unfold g. rewrite (proj2 (sz_split hs he GE _ T2 w c' e' Hgx Hws Hwe Hge _ false true y Hn' Hnm)).
    rewrite (proj2 (Hsz y)). unfold x in *.
    repeat case_decide; subst; try done; try lia; try congruence.
    unfold fsz. by replace (w + (csz p - t)) with (w + csz p - t) by lia; rewrite Hnone.
Qed.

Lemma mwp_take_prev_headers m cs F DL w p c t (Q : unit -> gmap Z Z -> Prop) :
  let x := w + csz p in
  mrep m cs F DL -> linv cs F DL None -> keeps cs B -> cs !! w = Some p -> cal p = false ->
  cs !! x = Some c -> cal c = true -> x <> he -> x ∉ DL -> 0 < t <= csz p -> t mod 16 = 0 ->
  (forall m' cs' F' c',
     mrep m' cs' F' DL -> linv cs' F' DL None -> cs' !! (x - t) = Some c' ->
     csz c' = csz c + t -> cal c' = true ->
     (forall y, asz cs' y = if decide (y = x - t) then Some (csz c + t)
                            else if decide (y = x) then None else asz cs y) ->
     (forall y, fsz cs' y = if decide (y = w) then if decide (t < csz p) then Some (csz p - t) else None
                            else fsz cs y) ->
     Q tt m') ->
  mwp (take_prev_headers DEBUG nl (x - t) w (x + csz c) (csz c) (csz p) t) Q s m.
Proof using G Hstart Hend.
  intros x R I K Hp Hpa Hc Hca Hxe HxD Ht Htm HQ. pose proof (l_tile _ _ _ _ _ _ I) as T.
  assert (Hw : fr cs w) by (by exists p).
  destruct (fr_mid _ _ GE _ _ _ _ _ I Hw) as [Hws Hwe].
  destruct (mid_chunk _ _ _ T Hp Hws Hwe) as ([_ Hwm] & Hp16 & Hpm & Hlo & Hle & Hsz & _).
  assert (Hxs : x <> hs) by (unfold x; lia).
  destruct (mid_chunk _ _ _ T Hc Hxs Hxe) as (_ & Hc16 & Hcm & _ & Hle' & _ & e & He & _).
  assert (HwF : w ∈ F) by (eapply free_in_F; eauto; apply GE).
  destruct (al_not_F _ _ GE _ _ _ _ _ _ I Hc Hca) as [HxF _].
  pose proof (fr_not_DL _ _ GE _ _ _ _ _ I Hw) as HwD.
  assert (Hout : forall a, w <= a < w + csz p -> ~ inside B a).
  { intros a Ha. eapply (keeps_free hs he cs B w p); [apply GE|done..|by left|lia]. }
  unfold take_prev_headers. apply mwp_bind. eapply mwp_unlink; [done..|]. intros m1 R1.
  destruct (Z.ltb_spec t (csz p)) as [Hlt|Hge].
  - assert (Hnone : cs !! (x - t) = None).
    { eapply (tile_interior hs he GE cs T w p); [done|]. unfold x. lia. }
    apply mwp_bind. eapply mwp_rd_size; [done..|]. rewrite !wrapu_small by (unfold x in *; lia).
    apply mwp_bind. eapply mwp_wr_size; [done..|set_solver|lia|]. intros m2 R2.
    apply mwp_bind, mwp_assert.
    { apply mwp_bind. eapply mwp_rd_size; [exact R2|by rewrite lookup_insert_eq|]. apply mwp_ret.
      split; [|done]. unfold SIZEOF_MM_FREENODE. simpl. lia. }
    assert (Hslot : hslot hs he (x - t)) by (unfold x; split; lia).
    apply mwp_bind. eapply mwp_new_size; [done|exact R2|rewrite lookup_insert_ne by (unfold x; lia); done|done|apply Hout; unfold x; lia|].
    intros m3 R3 Hm3.
    apply mwp_bind. eapply mwp_rd_size; [exact R3|by rewrite lookup_insert_eq|]. simpl.
    apply mwp_bind. eapply mwp_new_prec with (c := Chunk (csz c + t) (csz p - t) true);
      [done|exact R3|rewrite lookup_insert_ne by (unfold x; lia); done|done|apply Hout; unfold x; lia|apply Hout; unfold x; lia|done| |split; simpl; unfold x in *; lia|].
    { unfold prec. simpl. apply bit31. lia. }
    intros m4 R4. apply mwp_bind. eapply mwp_rd_size; [exact R4|by rewrite lookup_insert_eq|]. simpl.
    apply mwp_bind. eapply mwp_set_preceding;
      [done|exact R4|rewrite !lookup_insert_ne by (unfold x; lia); done|unfold x in *; lia|].
    intros m5 R5.
    pose proof (mrep_delete _ _ _ G _ _ _ _ _ _ R5 x ltac:(set_solver) HxD) as R6.
    destruct (hinv_shift_front cs F DL w p c e t) as (I' & Ha' & Hf'); try done; [lia|].
    set (g := split_at _ _ _ _ _ _ _) in I', Ha', Hf'. rewrite Hpa in R6.
    replace (delete x _) with g in R6.
    2: { unfold g. replace (csz c + t) with (csz p + csz c - (csz p - t)) by lia.
         replace (x - t) with (w + (csz p - t)) by (unfold x; lia). unfold x. chunk_map. }
    eapply mwp_addfree with (c := Chunk (csz p - t) (cprev p) false); try done; try (apply Hout; lia); try lia.
    { unfold g, split_at. simpl. by rewrite !lookup_insert_ne, lookup_insert_eq by lia. }
    { simpl. lia. }
    { set_solver. }
    intros m7 R7. eapply (HQ m7 _ _ (Chunk (csz c + t) (csz p - t) true) R7); try done.
    + unfold g, split_at. simpl. replace (x - t) with (w + (csz p - t)) by (unfold x; lia).
      rewrite lookup_insert_ne, lookup_insert_eq by lia. do 2 f_equal. lia.
    + intros y. rewrite Hf'. repeat case_decide; (done || lia).
  - assert (t = csz p) as -> by lia. replace (x - csz p) with w in * by (unfold x; lia).
    apply mwp_bind. eapply mwp_rd_size; [done..|]. rewrite !wrapu_small by (unfold x in *; lia).
    apply mwp_bind. eapply mwp_wr_size; [done..|set_solver|unfold x in *; lia|]. intros m2 R2.
    assert (Hg : (<[w := Chunk (csz p + csz c) (cprev p) (cal p)]> cs) !! w = Some (Chunk (csz p + csz c) (cprev p) (cal p)))
      by apply lookup_insert_eq.
    pose proof (mrep_wf _ _ _ _ _ _ _ _ _ R2 _ _ Hg) as Hwf.
    apply mwp_bind. eapply mwp_rd_prec; [exact R2|exact Hg|].
    apply mwp_bind. eapply mwp_wr_prec with (c' := Chunk (csz p + csz c) (cprev p) true);
      [done|exact R2|exact Hg|by apply (prec_alloc _ Hwf)|done|apply Hwf|]. intros m3 R3.
    apply mwp_bind. eapply mwp_rd_size; [exact R3|by rewrite lookup_insert_eq|]. simpl.
    eapply mwp_set_preceding;
      [done|exact R3|rewrite !lookup_insert_ne by (unfold x; lia); done|unfold x in *; lia|]. intros m4 R4.
    pose proof (mrep_delete _ _ _ G _ _ _ _ _ _ R4 x ltac:(set_solver) HxD) as R5.
    pose proof (linv_take _ _ GE _ _ _ _ I HwF) as I1.
    pose proof (linv_absorb_prev _ _ GE _ _ _ _ _ _ _ T Hp Hws Hwe Hc Hxe He I1 Hca HxD) as I2.
    replace (delete x _) with (join_at w true p c e cs) in R5 by (unfold x; chunk_map).
    assert (asz cs w = None) as E by (unfold asz; rewrite Hp; simpl; by rewrite Hpa).
    assert (fsz cs x = None) as E' by (unfold fsz; rewrite Hc; simpl; by rewrite Hca).
    apply (HQ m4 _ _ (Chunk (csz p + csz c) (cprev p) true) R5 I2); try done.
    + rewrite (join_lookup hs he GE cs w p c e) by done. by rewrite decide_True.
    + simpl. lia.
    + intros y. rewrite (proj1 (sz_join hs he GE cs T w p c Hp Hws Hwe Hc e true y Hxe He)).
      fold x. repeat case_decide; first [done | lia | f_equal; lia].
    + intros y. rewrite (proj2 (sz_join hs he GE cs T w p c Hp Hws Hwe Hc e true y Hxe He)).
      fold x. repeat case_decide; subst; (done || lia || congruence).
Qed.

(** ** Cutting off the front of a chunk *)

Lemma mwp_memalign_split m cs F DL x c k alignment (Q : Z * ptr * Z -> gmap Z Z -> Prop) :
  mrep m cs F DL -> linv cs F DL None -> keeps cs B -> cs !! x = Some c -> cal c = true ->
  x <> hs -> x <> he -> x ∉ DL -> B !! (x + 8) = None -> 16 <= k < csz c -> k mod 16 = 0 ->
  (forall y, adj cs y x -> ~ fr cs y) ->
  (forall m' cs' F' c',
     mrep m' cs' F' DL -> linv cs' F' DL None -> cs' !! (x + k) = Some c' ->
     csz c' = csz c - k -> cal c' = true ->
     (forall y, asz cs' y = if decide (y = x) then None
                            else if decide (y = x + k) then Some (csz c - k) else asz cs y) ->
     (forall y, fsz cs' y = if decide (y = x) then Some k else fsz cs y) ->
     Q (x + k + 8, x + k, csz c - k - 8) m') ->
  mwp (memalign_split DEBUG nl x (x + 8) (x + k + 8) alignment) Q s m.
Proof using G Hstart Hend.
  intros R I K Hc Hca Hxs Hxe HxD HxB Hk Hkm Hprev HQ. pose proof (l_tile _ _ _ _ _ _ I) as T.
  destruct (mid_chunk _ _ _ T Hc Hxs Hxe) as ([_ Hxm] & Hc16 & Hcm & Hlo & Hle & Hsz & d & Hd & Hdp).
  destruct (al_not_F _ _ GE _ _ _ _ _ _ I Hc Hca) as [HxF _].
  pose proof (tile_interior hs he GE cs T x c (x + k) Hc ltac:(lia)) as Hnone.
  assert (Hout : forall a, x <= a < x + csz c -> ~ inside B a).
  { intros a Ha. eapply (keeps_free hs he cs B x c); [apply GE|done..|by right|lia]. }
  unfold memalign_split, SIZEOF_MM_ALLOCNODE, SIZEOF_MM_FREENODE.
  apply mwp_bind. eapply mwp_rd_size; [done..|].
  apply mwp_bind, mwp_assert; [apply mwp_ret; split; [lia|done]|]. cbv zeta.
  replace (x + k + 8 - 8) with (x + k) by lia. replace (x + k - x) with k by lia.
  destruct (Z.ltb_spec k 16); [lia|]. replace (x + csz c - (x + k)) with (csz c - k) by lia.
  rewrite wrapu_small by lia.
  apply mwp_bind. eapply mwp_new_size; [done..|split; lia|apply Hout; lia|]. intros m1 R1 Hm1.
  apply mwp_bind. eapply mwp_new_prec with (c := Chunk (csz c - k) k true);
    [done..|split; lia|apply Hout; lia|apply Hout; lia|done|unfold prec; simpl; apply bit31; lia|split; simpl; lia|].
  intros m2 R2.
  apply mwp_bind. eapply mwp_wr_size; [done|exact R2|by rewrite lookup_insert_ne by lia|done|lia|]. intros m3 R3.
  assert (Hg : (<[x := Chunk k (cprev c) (cal c)]> (<[x + k := Chunk (csz c - k) k true]> cs)) !! x
               = Some (Chunk k (cprev c) (cal c))) by apply lookup_insert_eq.
  pose proof (mrep_wf _ _ _ _ _ _ _ _ _ R3 _ _ Hg) as Hwf.
  apply mwp_bind. eapply mwp_rd_prec; [exact R3|exact Hg|].
  apply mwp_bind. eapply mwp_wr_prec with (c' := Chunk k (cprev c) false);
    [done|exact R3|exact Hg|by apply (prec_clear _ Hwf)|done|apply Hwf|]. intros m4 R4.
  apply mwp_bind. eapply mwp_rd_size; [exact R4|by rewrite !lookup_insert_ne, lookup_insert_eq by lia|]. simpl.
  apply mwp_bind. eapply mwp_set_preceding; [done|exact R4|by rewrite !lookup_insert_ne by lia|lia|]. intros m5 R5.
  replace (<[x + csz c := _]> _) with (split_at x k false true c d cs) in R5 by chunk_map.
  assert (Hk' : 0 < k < csz c) by lia.
  assert (Hgr : split_at x k false true c d cs !! (x + k) = Some (Chunk (csz c - k) k true)).
  { rewrite (split_lookup hs he GE cs x k c d), decide_False, decide_True by (done || lia). done. }
  apply mwp_bind. eapply mwp_rd_size; [exact R5|exact Hgr|]. simpl.
  apply mwp_bind. eapply mwp_addfree with (c := Chunk k (cprev c) false); try done; try (apply Hout; lia); try lia.
  { rewrite (split_lookup hs he GE cs x k c d), decide_True by done. done. }
  intros m6 R6. apply mwp_ret. rewrite wrapu_small by lia.
  apply (HQ m6 _ _ (Chunk (csz c - k) k true) R6); try done.
  - apply (linv_add _ _ GE); [by apply (linv_carve_front _ _ GE)| |].
    + intros y Hy%(split_adj hs he GE cs x k c d) Hf; try done.
      rewrite (split_fr hs he GE cs x k c d) in Hf by done.
      destruct Hy as [[_ ->]|[[? _]|(? & _)]]; [|lia|done].
      destruct Hf as [[? _]|[[_ ?]|(_ & ? & _)]]; [lia|done..].
    + intros y Hy%(split_adj hs he GE cs x k c d) Hf; try done.
      rewrite (split_fr hs he GE cs x k c d) in Hf by done.
      destruct Hy as [[_ ?]|[[_ ?]|(? & ? & _ & Hy)]]; [lia|lia|].
      destruct Hf as [[? _]|[[? _]|(_ & _ & Hf)]]; [done..|]. by eapply Hprev.
  - intros y. by rewrite (proj1 (sz_split hs he GE cs T x c d Hc Hxs Hxe Hd k false true y Hk' Hkm)).
  - intros y. rewrite (proj2 (sz_split hs he GE cs T x c d Hc Hxs Hxe Hd k false true y Hk' Hkm)).
    case_decide; [done|]. case_decide as E; [|done]. rewrite E. unfold fsz. by rewrite Hnone.
Qed.
End Ops.
