(* ===== verification/HeapSys.v ===== *)
(** HeapSys: the calls of the memory manager, as operations on blocks.  A heap
    is described by the live blocks, the free chunks and the blocks whose
    release is delayed. *)

From stdpp Require Import options.
From S2P Require Import Prelude Heap HeapRep HeapInv HeapOps.

#[local] Ltac Zify.zify_post_hook ::= Z.to_euclidean_division_equations.

(** * Memory of blocks *)

Section User.
Context (nl hs he : Z) (G : geom nl hs he).

Lemma linv_dl_mid cs F DL L y : linv hs he cs F DL L -> y ∈ DL ->
  exists d, cs !! y = Some d /\ cal d = true /\ y <> hs /\ y <> he /\ 16 <= csz d.
Proof using G.
  intros I Hy. destruct (l_dl _ _ _ _ _ _ I y Hy) as (? & ? & d & Hd & ?).
  destruct (mid_chunk nl hs he G cs y d (l_tile _ _ _ _ _ _ I) Hd) as (_ & ? & _); [done..|].
  by exists d.
Qed.

Lemma linv_F_mid cs F DL L y : linv hs he cs F DL L -> y ∈ F ->
  exists d, cs !! y = Some d /\ cal d = false /\ y <> hs /\ y <> he /\ 16 <= csz d.
Proof using G.
  intros I Hy. destruct (F_chunk hs he (geom_ends nl hs he G) _ _ _ _ _ I Hy) as (d & Hd & ?).
  destruct (fr_mid hs he (geom_ends nl hs he G) _ _ _ _ y I) as [? ?]; [by exists d|].
  destruct (mid_chunk nl hs he G cs y d (l_tile _ _ _ _ _ _ I) Hd) as (_ & ? & _); [done..|].
  by exists d.
Qed.

(** The blocks to be kept are chosen anew. *)
Lemma mrep_rebase B B' m0 m cs F DL : mrep nl hs he B m0 m cs F DL -> hinv hs he cs F DL ->
  keeps cs B' -> (forall x, x ∈ DL -> B' !! (x + 8) = None) ->
  (forall p n, B' !! p = Some n -> p - 8 <> hs /\ p - 8 <> he) -> mrep nl hs he B' m m cs F DL.
Proof using G.
  intros (bks & R & HF) I K HD Hmid. pose proof (l_tile _ _ _ _ _ _ I) as T.
  pose proof (geom_ends nl hs he G) as GE. exists bks. split; [|done].
  destruct R as [Hdom Hhdr Hc Hlk Hlen Hnd Hbk Hin' Hheads Hhout Hdl Hdin Hfr]. split; try done.
  - intros x c Hx. destruct (Hc x c Hx) as (? & _ & _ & ?).
    destruct (tile_range hs he GE cs T x c Hx) as [_ ?].
    split_and!; [done| | |done]; (eapply (keeps_outside hs he cs B' x c); [done..|lia|right; lia]).
  - intros x Hx. destruct (Hin' x Hx) as (Hs & ? & ? & _). split_and!; try done;
      apply HF in Hx; destruct (linv_F_mid _ _ _ _ _ I Hx) as (d & Hd & ? & _ & _ & ?);
      (eapply (keeps_free hs he cs B' x d); [done..|by left|lia]).
  - intros a Ha (p & n & Hp & ?). destruct (K p n Hp) as (c & Hpc & _ & ?).
    destruct (Hmid p n Hp) as [? ?].
    destruct (mid_chunk nl hs he G cs _ c T Hpc) as (_ & _ & _ & ? & ? & _); [done..|].
    destruct (g_out _ _ _ G); lia.
Qed.

(** A change inside the block of an allocated chunk. *)
Lemma mrep_user B m0 m m' cs F DL x c : mrep nl hs he B m0 m cs F DL -> hinv hs he cs F DL ->
  cs !! x = Some c -> cal c = true -> x <> hs -> x <> he -> x ∉ DL ->
  keeps cs B -> B !! (x + 8) = None ->
  (forall a, ~ (x + 8 <= a < x + csz c) -> m' !! a = m !! a) ->
  (forall a, is_Some (m !! a) -> is_Some (m' !! a)) -> mrep nl hs he B m0 m' cs F DL.
Proof using G.
  intros (bks & R & HF) I Hx Hxa Hxs Hxe HxD K HxB Hsame Hsome.
  pose proof (l_tile _ _ _ _ _ _ I) as T. pose proof (geom_ends nl hs he G) as GE.
  destruct (mid_chunk nl hs he G cs x c T Hx Hxs Hxe) as (_ & ? & _ & ? & ? & _).
  assert (Hother : forall y d a, cs !! y = Some d -> y <= a < y + csz d -> y <> x \/ a < x + 8 -> m' !! a = m !! a).
  { intros y d a Hy Ha Hne. apply Hsame. intros Ha'.
    destruct Hne as [Hne|]; [|lia]. apply Hne. eapply (tile_inside hs he); eauto; lia. }
  assert (Hxfr : x ∉ F).
  { by destruct (al_not_F hs he GE _ _ _ _ _ _ I Hx Hxa). }
  exists bks. split; [|done].
  destruct R as [Hdom Hhdr Hc Hlk Hlen Hnd Hbk Hin' Hheads Hhout Hdl Hdin Hfr].
  assert (Hhead : forall a, nl <= a < nl + 304 -> m' !! a = m !! a).
  { intros a Ha. apply Hsame. destruct (g_out _ _ _ G); lia. }
  split; try done.
  - intros a Ha. auto.
  - intros y d Hy. destruct (tile_range hs he GE cs T y d Hy).
    rewrite !(Hother y d) by (done || lia || (destruct (decide (y = x)); [right|left]; (done || lia))). auto.
  - eapply lk_frame, Hlk. intros y Hy. rewrite elem_hooks, Hlen in Hy. destruct Hy as [(i & Hi & ->)|Hy].
    + split; apply Hhead; lia.
    + apply HF in Hy. destruct (linv_F_mid _ _ _ _ _ I Hy) as (d & Hd & ? & _ & _ & ?).
      assert (y <> x) by congruence. split; apply (Hother y d); (done || lia || by left).
  - intros i Hi. rewrite Hhead; [auto|]. unfold nodelist, SIZEOF_MM_FREENODE. lia.
  - eapply dlk_frame, Hdl. intros y Hy. destruct (linv_dl_mid _ _ _ _ _ I Hy) as (d & Hd & _ & _ & _ & ?).
    apply (Hother y d); [done|lia|left; congruence].
  - intros a (p & n & Hp & Ha). destruct (K p n Hp) as (d & Hd & _ & ?).
    rewrite (Hother (p - 8) d); [apply Hfr; by exists p, n|done|lia|left].
    intros E. rewrite <- E in HxB. replace (p - 8 + 8) with p in HxB by lia. congruence.
Qed.

(** A block is put on the delay list, and taken off it. *)
Lemma mrep_delay B m0 m cs F DL x c : mrep nl hs he B m0 m cs F DL -> hinv hs he cs F DL ->
  cs !! x = Some c -> cal c = true -> x <> hs -> x <> he -> x ∉ DL ->
  keeps cs B -> B !! (x + 8) = None ->
  mrep nl hs he B m0 (<[x + 8 := hd_or NULL (map (Z.add 8) DL)]> m) cs F (x :: DL).
Proof using G.
  intros R I Hx Hxa Hxs Hxe HxD K HxB. pose proof (geom_ends nl hs he G) as GE.
  pose proof (l_tile _ _ _ _ _ _ I) as T.
  destruct (mid_chunk nl hs he G cs x c T Hx Hxs Hxe) as (_ & ? & _ & ? & ? & _).
  destruct (al_not_F hs he GE _ _ _ _ _ _ I Hx Hxa) as [HxF _].
  destruct (mrep_user B m0 m (<[x + 8 := hd_or NULL (map (Z.add 8) DL)]> m) cs F DL x c)
    as (bks & R' & HF); try done.
  - intros a Ha. rewrite lookup_insert_ne by lia. done.
  - intros a Ha. by apply some_insert.
  - exists bks. split; [|done]. clear R. rename R' into R.
    destruct R as [Hdom Hhdr Hc Hlk Hlen Hnd Hbk Hin' Hheads Hhout Hdl Hdin Hfr]. split; try done.
    + simpl. split; [by rewrite lookup_insert_eq|done].
    + intros y [->|Hy]%elem_of_cons; [|auto]. split_and!; [eauto|done|lia|by rewrite <- HF].
Qed.

Lemma mrep_undelay B m0 m cs F DL x : mrep nl hs he B m0 m cs F (x :: DL) -> mrep nl hs he B m0 m cs F DL.
Proof using.
  intros (bks & R & HF). exists bks. split; [|done].
  destruct R as [Hdom Hhdr Hc Hlk Hlen Hnd Hbk Hin' Hheads Hhout Hdl Hdin Hfr]. split; try done.
  - apply Hdl.
  - intros y Hy. apply Hdin. by right.
Qed.

Lemma mrep_delayed B m0 m cs F DL x : mrep nl hs he B m0 m cs F (x :: DL) ->
  m !! (x + 8) = Some (hd_or NULL (map (Z.add 8) DL)).
Proof using. intros (bks & R & HF). apply (b_dl _ _ _ _ _ _ _ _ _ R). Qed.
End User.

(** [memcpy] copies from below, which is right when no word is written before
    it is read. *)
Lemma mwp_memcpy s dest src n m (Q : unit -> gmap Z Z -> Prop) :
  (forall i, 0 <= i < Z.of_nat n -> is_Some (m !! (dest + 4 * i)) /\ is_Some (m !! (src + 4 * i))) ->
  (forall i j, 0 <= i < j -> j < Z.of_nat n -> dest + 4 * i <> src + 4 * j) ->
  (forall m',
     (forall i, 0 <= i < Z.of_nat n -> m' !! (dest + 4 * i) = m !! (src + 4 * i)) ->
     (forall a, ~ (dest <= a < dest + 4 * Z.of_nat n) -> m' !! a = m !! a) ->
     (forall a, is_Some (m !! a) -> is_Some (m' !! a)) -> Q tt m') ->
  mwp (memcpy dest src n) Q s m.
Proof.
  revert dest src m. induction n as [|n IH]; intros dest src m Hsome Hne HQ; simpl.
  - apply mwp_ret. apply HQ; [lia|done..].
  - destruct (Hsome 0) as [Hd [v Hv]]; [lia|]. rewrite Z.add_0_r in Hd, Hv.
    apply mwp_bind. eapply mwp_rd; [done|]. apply mwp_bind, mwp_wr; [done|].
    assert (Hs : forall j, 0 <= j < Z.of_nat n -> <[dest := v]> m !! (src + 4 + 4 * j) = m !! (src + 4 * (j + 1))).
    { intros j Hj. specialize (Hne 0 (j + 1)). rewrite lookup_insert_ne by lia. f_equal. lia. }
    apply IH.
    + intros i Hi. rewrite Hs by done. destruct (Hsome (i + 1)) as [H1 H2]; [lia|]. split; [|done].
      apply some_insert. by replace (dest + 4 + 4 * i) with (dest + 4 * (i + 1)) by lia.
    + intros i j Hi Hj. specialize (Hne (i + 1) (j + 1)). lia.
    + intros m' H1 H2 H3. apply HQ.
      * intros i Hi. destruct (decide (i = 0)) as [->|].
        -- rewrite !Z.add_0_r, H2 by lia. by rewrite lookup_insert_eq, Hv.
        -- specialize (H1 (i - 1)). rewrite Hs in H1 by lia.
           replace (dest + 4 * i) with (dest + 4 + 4 * (i - 1)) by lia.
           rewrite H1 by lia. f_equal. lia.
      * intros a Ha. rewrite H2 by lia. rewrite lookup_insert_ne by lia. done.
      * intros a Ha. by apply H3, some_insert.
Qed.

Lemma mwp_memset0 s p n m (Q : unit -> gmap Z Z -> Prop) :
  (forall i, 0 <= i < Z.of_nat n -> is_Some (m !! (p + 4 * i))) ->
  (forall m',
     (forall i, 0 <= i < Z.of_nat n -> m' !! (p + 4 * i) = Some 0) ->
     (forall a, ~ (p <= a < p + 4 * Z.of_nat n) -> m' !! a = m !! a) ->
     (forall a, is_Some (m !! a) -> is_Some (m' !! a)) -> Q tt m') ->
  mwp (memset0 p n) Q s m.
Proof.
  revert p m. induction n as [|n IH]; intros p m Hsome HQ; simpl.
  - apply mwp_ret. apply HQ; [lia|done..].
  - apply mwp_bind, mwp_wr; [specialize (Hsome 0); rewrite Z.add_0_r in Hsome; apply Hsome; lia|].
    apply IH.
    + intros i Hi. apply some_insert.
      replace (p + 4 + 4 * i) with (p + 4 * (i + 1)) by lia. apply Hsome. lia.
    + intros m' H1 H2 H3. apply HQ.
      * intros i Hi. destruct (decide (i = 0)) as [->|].
        -- rewrite Z.add_0_r, H2 by lia. by rewrite lookup_insert_eq.
        -- replace (p + 4 * i) with (p + 4 + 4 * (i - 1)) by lia. apply H1. lia.
      * intros a Ha. rewrite H2 by lia. by rewrite lookup_insert_ne by lia.
      * intros a Ha. by apply H3, some_insert.
Qed.

Lemma wp_dassert DEBUG (k : MM bool) (P : unit -> mm_heap_s -> Prop) s :
  wp k (fun b s' => b = true /\ s' = s) s -> P tt s -> wp (DEBUGASSERT DEBUG k) P s.
Proof.
  intros H HP. unfold DEBUGASSERT. destruct DEBUG; [|by apply wp_ret]. apply wp_bind.
  eapply wp_mono; [exact H|]. intros b s' [-> ->]. by apply wp_assert.
Qed.

Lemma wp_dassert_ret DEBUG b (P : unit -> mm_heap_s -> Prop) s :
  b = true -> P tt s -> wp (DEBUGASSERT DEBUG (ret b)) P s.
Proof. intros. by apply wp_dassert; [apply wp_ret|]. Qed.

(** * The semaphore *)

(** The heap is not in use. *)
Definition sem_free (s : mm_heap_s) : Prop :=
  mm_semaphore s = 1 /\ mm_holder s = NO_HOLDER /\ mm_counts_held s = 0.

(** A task, not an interrupt handler, that is really running. *)
Definition task (c : caller) : Prop := up_interrupt_context c = false /\ 0 <= getpid c.

Definition held (c : caller) (s : mm_heap_s) : mm_heap_s := set_sem 0 (getpid c) 1 s.

Lemma upm_mem s : upm (mem s) s = s.
Proof. by destruct s. Qed.

Lemma set_sem_free s : sem_free s -> set_sem 1 NO_HOLDER 0 s = s.
Proof. destruct s. intros (? & ? & ?). simpl in *. by subst. Qed.

Section Sem.
Context (DEBUG : bool) (c : caller) (s : mm_heap_s) (Hs : sem_free s) (Hc : task c).

Lemma wp_take (Q : unit -> mm_heap_s -> Prop) m :
  Q tt (upm m (held c s)) -> wp (mm_takesemaphore c) Q (upm m s).
Proof using Hs Hc.
  destruct Hs as (H1 & H2 & H3), Hc as [_ Hpid]. intros HQ. unfold mm_takesemaphore, NO_HOLDER in *.
  wp_seq. simpl. rewrite H1, H2. destruct (Z.eqb_spec (-1) (getpid c)); [lia|]. simpl. apply wp_modify.
  exact HQ.
Qed.

Lemma wp_try (Q : Z -> mm_heap_s -> Prop) m :
  Q OK (upm m (held c s)) -> wp (mm_trysemaphore c) Q (upm m s).
Proof using Hs Hc.
  destruct Hs as (H1 & H2 & H3), Hc as [_ Hpid]. intros HQ. unfold mm_trysemaphore, NO_HOLDER in *.
  destruct (Z.ltb_spec (getpid c) 0); [lia|].
  wp_seq. simpl. rewrite H1, H2. destruct (Z.eqb_spec (-1) (getpid c)); [lia|]. simpl. wp_seq. exact HQ.
Qed.

Lemma wp_give (Q : unit -> mm_heap_s -> Prop) m :
  Q tt (upm m s) -> wp (mm_givesemaphore DEBUG c) Q (upm m (held c s)).
Proof using Hs Hc.
  intros HQ. unfold mm_givesemaphore.
  assert (E : set_sem (0 + 1) NO_HOLDER 0 (upm m (held c s)) = upm m s).
  { rewrite <- (set_sem_free s Hs) at 2. done. }
  apply wp_bind, wp_dassert; [apply wp_gets; simpl; split; [lia|done]|].
  wp_seq. simpl. unfold wp, modify. by rewrite E.
Qed.
End Sem.

Lemma wp_mwp {A} (k : MM A) s m Q (P : A -> mm_heap_s -> Prop) :
  mwp k Q s m -> (forall a m', Q a m' -> P a (upm m' s)) -> wp k P (upm m s).
Proof. intros H HP. eapply wp_mono; [exact H|]. intros a s' (m' & -> & ?). auto. Qed.

(** * The calls, on chunks *)

Lemma keeps_asz cs B : keeps cs B <->
  (forall p n, B !! p = Some n -> exists k, asz cs (p - 8) = Some k /\ n <= k - 8).
Proof.
  unfold keeps, asz. split; intros K p n Hp.
  - destruct (K p n Hp) as (c & Hc & Ha & ?). exists (csz c). rewrite Hc. simpl. by rewrite Ha.
  - destruct (K p n Hp) as (k & Hk & ?). destruct (cs !! (p - 8)) as [c|]; [|done].
    simpl in Hk. destruct (cal c) eqn:E; [|done]. injection Hk as <-. by exists c.
Qed.

Lemma asz_chunk cs x k : asz cs x = Some k <-> exists c, cs !! x = Some c /\ cal c = true /\ csz c = k.
Proof.
  unfold asz. destruct (cs !! x) as [c|]; simpl; [|naive_solver].
  destruct (cal c) eqn:E; naive_solver congruence.
Qed.

Section Calls.
Context (DEBUG : bool) (nl hs he : Z) (G : geom nl hs he) (s : mm_heap_s).
Context (Hstart : mm_heapstart s = hs) (Hend : mm_heapend s = he) (Hs : sem_free s).
Context (c : caller) (Hc : task c) (B m0 : gmap Z Z).
#[local] Abbreviation mrep := (mrep nl hs he B m0).
#[local] Abbreviation linv := (linv hs he).

Lemma wp_free_now m cs F DL x k (Q : unit -> mm_heap_s -> Prop) :
  mrep m cs F DL -> linv cs F DL None -> keeps cs B -> asz cs x = Some k ->
  x <> hs -> x <> he -> x ∉ DL -> B !! (x + 8) = None ->
  (forall m' cs' F' lo hi,
     mrep m' cs' F' DL -> linv cs' F' DL None ->
     (forall y, asz cs' y = if decide (y = x) then None else asz cs y) ->
     coalesced cs x k lo hi ->
     (forall y, fsz cs' y = if decide (y = lo) then Some (hi - lo)
                            else if decide (y = x + k) then None else fsz cs y) ->
     Q tt (upm m' s)) ->
  wp (mm_free DEBUG nl c (x + 8)) Q (upm m s).
Proof using G Hstart Hend Hs Hc.
  intros R I K Ha Hxs Hxe HxD HxB HQ. apply asz_chunk in Ha as (cx & Hcx & Hca & <-).
  destruct (mid_chunk nl hs he G cs x cx (l_tile _ _ _ _ _ _ I) Hcx Hxs Hxe) as (_ & _ & _ & Hlo & _).
  pose proof (g_hs _ _ _ G). unfold mm_free.
  destruct (Z.eqb_spec (x + 8) NULL) as [E|]; [unfold NULL in E; lia|].
  rewrite (proj1 Hc). apply wp_bind, (wp_try c s Hs Hc). simpl. apply wp_bind.
  eapply wp_mwp.
  - eapply (mwp_free_chunk DEBUG nl hs he G (held c s)) with (x := x) (c := cx) (Q := fun _ m' => Q tt (upm m' s));
      done.
  - intros [] m' HQ'. by apply (wp_give DEBUG c s Hs Hc).
Qed.

Lemma linv_undelay cs F DL x : linv cs F (x :: DL) None ->
  linv cs F DL None /\ x ∉ DL /\ x <> hs /\ x <> he /\ al cs x.
Proof using.
  intros [Ht Hf Hl Hco Hnd Hd]. apply NoDup_cons in Hnd as [? ?].
  destruct (Hd x) as (? & ? & ?); [left|].
  split_and!; try done. split; try done. intros y Hy. apply Hd. by right.
Qed.

Lemma wp_delay_loop DL fuel m cs F (Q : unit -> mm_heap_s -> Prop) :
  mrep m cs F DL -> linv cs F DL None -> keeps cs B -> (forall x, x ∈ DL -> B !! (x + 8) = None) ->
  (length DL < fuel)%nat ->
  (forall m' cs' F',
     mrep m' cs' F' [] -> linv cs' F' [] None ->
     (forall y, asz cs' y = if decide (y ∈ DL) then None else asz cs y) ->
     (DL = [] -> cs' = cs) -> Q tt (upm m' s)) ->
  wp (loop fuel (delay_step DEBUG nl c) (hd_or NULL (map (Z.add 8) DL))) Q (upm m s).
Proof using G Hstart Hend Hs Hc.
  revert fuel m cs F. induction DL as [|x DL IH]; intros fuel m cs F R I K HB Hf HQ.
  - destruct fuel; [simpl in Hf; lia|]. apply wp_loop_step. unfold delay_step. simpl. wp_seq.
    by eapply HQ.
  - destruct fuel as [|fuel]; [simpl in Hf; lia|]. apply wp_loop_step. unfold delay_step. simpl.
    pose proof (mrep_delayed nl hs he _ _ _ _ _ _ _ R) as Hm.
    destruct (linv_undelay _ _ _ _ I) as (I' & HxD & Hxs & Hxe & cx & Hcx & Hca).
    destruct (mid_chunk nl hs he G cs x cx (l_tile _ _ _ _ _ _ I) Hcx Hxs Hxe) as (_ & _ & _ & Hlo & _).
    pose proof (g_hs _ _ _ G). rewrite (Z.add_comm 8 x) in *.
    destruct (Z.eqb_spec (x + 8) NULL) as [E|_]; [unfold NULL in E; lia|].
    apply wp_bind. eapply wp_getso; [exact Hm|]. apply wp_bind.
    eapply (wp_free_now m cs F DL x (csz cx)); try done.
    + by apply mrep_undelay in R.
    + apply asz_chunk. by exists cx.
    + apply HB. left.
    + intros m' cs' F' lo hi R' I1 Ha' _ _. apply wp_ret.
      eapply (IH fuel m' cs' F'); try done.
      * rewrite keeps_asz in K |- *. intros p n Hp. destruct (K p n Hp) as (k & Hk & ?). exists k.
        rewrite Ha', decide_False; [done|]. intros E. rewrite <- E in HB.
        specialize (HB (p - 8)). replace (p - 8 + 8) with p in HB by lia. rewrite HB in Hp; [done|left].
      * intros y Hy. apply HB. by right.
      * simpl in Hf. lia.
      * intros m'' cs'' F'' R'' I'' Ha'' Hnil. eapply HQ; try done. intros y. rewrite Ha'', Ha'.
        repeat case_decide; set_solver.
Qed.

Lemma wp_free_delaylist DL m cs F (Q : unit -> mm_heap_s -> Prop) :
  mrep m cs F DL -> linv cs F DL None -> keeps cs B -> (forall x, x ∈ DL -> B !! (x + 8) = None) ->
  (forall m' cs' F',
     mrep m' cs' F' [] -> linv cs' F' [] None ->
     (forall y, asz cs' y = if decide (y ∈ DL) then None else asz cs y) ->
     (DL = [] -> cs' = cs) -> Q tt (upm m' s)) ->
  wp (loop (S (size m)) (delay_step DEBUG nl c) (hd_or NULL (map (Z.add 8) DL))) Q (upm m s).
Proof using G Hstart Hend Hs Hc.
  intros R I K HB HQ. eapply (wp_delay_loop DL); try done.
  apply Nat.lt_succ_r. rewrite <- (length_map (fun x => x + 8) DL). apply NoDup_length_size.
  - apply NoDup_fmap_2; [intros ? ? ?; lia|apply I].
  - intros p (x & <- & Hx)%list_elem_of_In%in_map_iff. apply list_elem_of_In in Hx.
    destruct (linv_dl_mid nl hs he G _ _ _ _ _ I Hx) as (d & Hd & _ & ? & ? & ?).
    destruct (mid_chunk nl hs he G cs x d (l_tile _ _ _ _ _ _ I) Hd) as ([? ?] & _ & _ & ? & ? & _); [done..|].
    eapply mrep_reg; [exact R|]. pose proof (g_hs _ _ _ G). pose proof (g_he _ _ _ G). unfold reg. lia.
Qed.
End Calls.

(** The size of the chunk for a block of [size] bytes. *)
Definition chunk_size (size : Z) : Z := (size + 23) / 16 * 16.

Lemma MM_ALIGN_UP_small a : 0 <= a -> a + 15 < 2 ^ 32 -> MM_ALIGN_UP a = (a + 15) / 16 * 16.
Proof.
  intros. unfold MM_ALIGN_UP. change MM_GRAN_MASK with (Z.ones 4). rewrite wrapu_small by (change (Z.ones 4) with 15; lia).
  change (Z.ones 4) with 15 at 1. rewrite <- Z.ldiff_land, Z.ldiff_ones_r by lia.
  by rewrite Z.shiftl_mul_pow2, Z.shiftr_div_pow2 by lia.
Qed.

Lemma align_chunk size : 0 <= size -> size + 23 < 2 ^ 32 ->
  MM_ALIGN_UP (u32 (size + SIZEOF_MM_ALLOCNODE)) = chunk_size size.
Proof.
  intros. unfold SIZEOF_MM_ALLOCNODE, chunk_size. rewrite wrapu_small by lia.
  rewrite MM_ALIGN_UP_small by lia. do 2 f_equal. lia.
Qed.

Section Malloc.
Context (DEBUG : bool) (nl hs he : Z) (G : geom nl hs he) (s : mm_heap_s).
Context (Hstart : mm_heapstart s = hs) (Hend : mm_heapend s = he) (Hs : sem_free s).
Context (c : caller) (Hc : task c) (B m0 : gmap Z Z).
#[local] Abbreviation mrep := (mrep nl hs he B m0).
#[local] Abbreviation linv := (linv hs he).

(** The chunks once the delayed releases have been done. *)
Definition settled (cs : chunks) (DL : list ptr) (cs1 : chunks) : Prop :=
  (forall y, asz cs1 y = if decide (y ∈ DL) then None else asz cs y) /\ (DL = [] -> cs1 = cs).

Lemma settled_keeps cs DL cs1 : settled cs DL cs1 -> keeps cs B ->
  (forall x, x ∈ DL -> B !! (x + 8) = None) -> keeps cs1 B.
Proof using.
  intros [Ha _] K HB. rewrite keeps_asz in K |- *. intros p n Hp. destruct (K p n Hp) as (k & Hk & ?).
  exists k. rewrite Ha, decide_False; [done|]. intros Hin. specialize (HB _ Hin).
  replace (p - 8 + 8) with p in HB by lia. congruence.
Qed.

Lemma wp_malloc m cs F DL size (Q : ptr -> mm_heap_s -> Prop) :
  let n := chunk_size size in let s1 := set_delaylist NULL s in
  mrep m cs F DL -> linv cs F DL None -> keeps cs B -> (forall x, x ∈ DL -> B !! (x + 8) = None) ->
  mm_delaylist s = hd_or NULL (map (Z.add 8) DL) -> 0 <= size -> size + 23 < 2 ^ 32 ->
  (forall m' cs1 F1,
     mrep m' cs1 F1 [] -> linv cs1 F1 [] None -> settled cs DL cs1 ->
     size = 0 \/ (forall y k, fsz cs1 y = Some k -> k < n) -> Q NULL (upm m' s1)) ->
  (forall m' cs1 cs' F' x k,
     mrep m' cs' F' [] -> linv cs' F' [] None -> settled cs DL cs1 -> 0 < size ->
     fsz cs1 x = Some k -> n <= k -> (forall y k', fsz cs1 y = Some k' -> n <= k' -> k <= k') ->
     x <> hs -> x <> he ->
     (forall y, asz cs' y = if decide (y = x) then Some n else asz cs1 y) ->
     (forall y, fsz cs' y = if decide (y = x) then None
                            else if decide (y = x + n /\ n < k) then Some (k - n) else fsz cs1 y) ->
     (forall y, adj cs' y x -> ~ fr cs' y) -> Q (x + 8) (upm m' s1)) ->
  wp (mm_malloc DEBUG nl c size) Q (upm m s).
Proof using G Hstart Hend Hs Hc.
  intros n s1 R I K HB Hdl H0 H32 HQ0 HQ. unfold mm_malloc, mm_free_delaylist, with_fuel.
  apply wp_bind, wp_bind, wp_gets, wp_bind, wp_modify. simpl. rewrite Hdl.
  change (set_delaylist NULL (upm m s)) with (upm m s1).
  assert (Hs1 : sem_free s1) by apply Hs.
  eapply (wp_free_delaylist DEBUG nl hs he G s1); try done. intros m1 cs1 F1 R1 I1 Ha1 Hnil.
  assert (St : settled cs DL cs1) by done. pose proof (settled_keeps _ _ _ St K HB) as K1.
  destruct (Z.ltb_spec size 1).
  { apply wp_ret. eapply HQ0; try done. left. lia. }
  rewrite align_chunk by lia. fold n.
  assert (Hn : size + 8 <= n /\ 16 <= n < 2 ^ 32 /\ n mod 16 = 0) by (unfold n, chunk_size; lia).
  do 3 (apply wp_bind, wp_dassert_ret; [change MM_MIN_CHUNK with 16; unfold SIZEOF_MM_FREENODE; lia|]).
  apply wp_bind, (wp_take c s1 Hs1 Hc). apply wp_bind.
  eapply wp_mwp with (Q := fun r m' => (r = NULL \/ hs < r < he) /\ Q r (upm m' s1)).
  - eapply (mwp_alloc_chunk DEBUG nl hs he G (held c s1)) with (n := n); try done; try lia.
    + intros Hno. split; [by left|]. eapply HQ0; try done. by right.
    + intros m2 cs2 F2 x k R2 I2 Hfx Hk Hbest Ha2 Hf2 Hadj.
      assert (fr cs1 x) as Hxfr by (apply fsz_fr; rewrite Hfx; eauto).
      pose proof (geom_ends nl hs he G) as GE.
      destruct (fr_mid hs he GE _ _ _ _ _ I1 Hxfr) as [Hxs Hxe]. destruct Hxfr as (cx & Hcx & _).
      destruct (mid_chunk nl hs he G _ x cx (l_tile _ _ _ _ _ _ I1) Hcx Hxs Hxe) as (_ & ? & _ & ? & ? & _).
      split; [right; lia|]. eapply HQ; try done. lia.
  - intros r m' [Hr HQr]. apply wp_bind.
    apply wp_dassert.
    + unfold mm_heapmember. destruct (Z.eqb_spec r NULL); [by apply wp_ret|]. apply wp_gets. simpl.
      rewrite Hstart, Hend. split; [|done]. destruct Hr as [|[? ?]]; [done|]. lia.
    + apply wp_bind, (wp_give DEBUG c s1 Hs1 Hc). by apply wp_ret.
Qed.
End Malloc.

(** * The heap as blocks *)

(** The block at [p], if it is live: its chunk is allocated, is not one of the
    two ends of the region and does not wait for its release. *)
Definition live (hs he : Z) (cs : chunks) (DL : list ptr) (p : ptr) : option Z :=
  if decide (p - 8 = hs \/ p - 8 = he \/ p - 8 ∈ DL) then None
  else (fun k => k - 8) <$> asz cs (p - 8).

(** [A] are the live blocks with their sizes, [Fr] the free chunks with their
    sizes, [D] the blocks on the delay list. *)
Definition heap_rep (nl : ptr) (s : mm_heap_s) (A Fr : gmap Z Z) (D : list ptr) : Prop :=
  let hs := mm_heapstart s in
  let he := mm_heapend s in
  exists cs F DL,
    geom nl hs he /\ mrep nl hs he ∅ (mem s) (mem s) cs F DL /\ hinv hs he cs F DL /\
    D = map (Z.add 8) DL /\ mm_delaylist s = hd_or NULL D /\
    (forall p, A !! p = live hs he cs DL p) /\ (forall x, Fr !! x = fsz cs x).

(** The contents of the blocks [A] are the same. *)
Definition kept (A : gmap Z Z) (m m' : gmap Z Z) : Prop :=
  forall p n a, A !! p = Some n -> p <= a < p + n -> m' !! a = m !! a.

Definition free_map (cs : chunks) : gmap Z Z :=
  omap (fun c => if cal c then None else Some (csz c)) cs.

Lemma free_map_lookup cs x : free_map cs !! x = fsz cs x.
Proof. unfold free_map, fsz. rewrite lookup_omap. by destruct (cs !! x). Qed.

Lemma live_Some hs he cs DL p n : live hs he cs DL p = Some n <->
  p - 8 <> hs /\ p - 8 <> he /\ p - 8 ∉ DL /\ asz cs (p - 8) = Some (n + 8).
Proof.
  unfold live. case_decide as E; [naive_solver|]. rewrite fmap_Some. split.
  - intros (k & ? & ->). replace (k - 8 + 8) with k by lia. tauto.
  - intros (_ & _ & _ & ?). exists (n + 8). split; [done|lia].
Qed.

(** [B] are some of the live blocks, or parts of them. *)
Definition among (A B : gmap Z Z) : Prop :=
  forall p n, B !! p = Some n -> exists k, A !! p = Some k /\ n <= k.

Lemma heap_open nl s A Fr D B : heap_rep nl s A Fr D -> among A B ->
  let hs := mm_heapstart s in
  let he := mm_heapend s in
  exists cs F DL,
    geom nl hs he /\ mrep nl hs he B (mem s) (mem s) cs F DL /\ hinv hs he cs F DL /\
    keeps cs B /\ (forall x, x ∈ DL -> B !! (x + 8) = None) /\
    D = map (Z.add 8) DL /\ mm_delaylist s = hd_or NULL (map (Z.add 8) DL) /\
    (forall p, A !! p = live hs he cs DL p) /\ (forall x, Fr !! x = fsz cs x).
Proof.
  intros (cs & F & DL & G & R & I & HD & Hdl & HA & HF) HB hs he. exists cs, F, DL.
  assert (K : forall p n, B !! p = Some n -> p - 8 <> hs /\ p - 8 <> he /\ p - 8 ∉ DL /\
                exists k, asz cs (p - 8) = Some k /\ n <= k - 8).
  { intros p n Hp. destruct (HB p n Hp) as (k & Hk & ?). rewrite HA, live_Some in Hk.
    destruct Hk as (? & ? & ? & Hk). split_and!; try done. exists (k + 8). split; [done|lia]. }
  assert (Kp : keeps cs B).
  { apply keeps_asz. intros p n Hp. by apply (K p n Hp). }
  assert (Kd : forall x, x ∈ DL -> B !! (x + 8) = None).
  { intros x Hx. destruct (B !! (x + 8)) as [n|] eqn:E; [|done].
    destruct (K _ _ E) as (_ & _ & Hn & _). by replace (x + 8 - 8) with x in Hn by lia. }
  split_and!; try done; [|by rewrite <- HD].
  eapply mrep_rebase; try done. intros p n Hp. destruct (K p n Hp) as (? & ? & _). done.
Qed.

Lemma heap_close nl s s' B m0 m' cs' F' DL' A' Fr' :
  mm_heapstart s' = mm_heapstart s -> mm_heapend s' = mm_heapend s -> mem s' = m' ->
  geom nl (mm_heapstart s) (mm_heapend s) ->
  mrep nl (mm_heapstart s) (mm_heapend s) B m0 m' cs' F' DL' ->
  hinv (mm_heapstart s) (mm_heapend s) cs' F' DL' ->
  mm_delaylist s' = hd_or NULL (map (Z.add 8) DL') ->
  (forall p, A' !! p = live (mm_heapstart s) (mm_heapend s) cs' DL' p) ->
  (forall x, Fr' !! x = fsz cs' x) ->
  heap_rep nl s' A' Fr' (map (Z.add 8) DL').
Proof.
  intros E1 E2 <- G R I Hdl HA HF. unfold heap_rep. rewrite E1, E2. exists cs', F', DL'.
  split_and!; try done. by eapply mrep_rebase.
Qed.

Lemma mrep_kept nl hs he B m cs F DL m' : mrep nl hs he B m m' cs F DL -> kept B m m'.
Proof. intros R p n a Hp Ha. eapply mrep_frame; [exact R|]. by exists p, n. Qed.

(** The live blocks after the chunks have changed. *)
Lemma live_ext hs he cs DL cs' DL' p :
  p - 8 ∈ DL' <-> p - 8 ∈ DL ->
  asz cs' (p - 8) = asz cs (p - 8) -> live hs he cs' DL' p = live hs he cs DL p.
Proof. intros HD Ha. unfold live. rewrite Ha. by erewrite (decide_ext (_ \/ _ \/ _ ∈ DL')) by (rewrite HD; done). Qed.

Lemma settled_live hs he cs DL cs1 p : settled cs DL cs1 -> live hs he cs1 [] p = live hs he cs DL p.
Proof.
  intros [Ha _]. unfold live. rewrite Ha. repeat case_decide; (done || set_solver).
Qed.

(** [x], of [k] bytes, is the smallest free chunk of at least [n] bytes. *)
Definition best_fit (Fr : gmap Z Z) (n x k : Z) : Prop :=
  Fr !! x = Some k /\ n <= k /\ forall y k', Fr !! y = Some k' -> n <= k' -> k <= k'.

(** The free chunks when [n] of the [k] bytes of the free chunk [x] are used. *)
Definition carve (Fr : gmap Z Z) (x n k : Z) : gmap Z Z :=
  if decide (n < k) then <[x + n := k - n]> (delete x Fr) else delete x Fr.

Definition malloc_post (nl : ptr) (s : mm_heap_s) (A Fr : gmap Z Z) (D : list ptr) (size : Z)
    (r : ptr) (s' : mm_heap_s) : Prop :=
  exists Fr1, (D = [] -> Fr1 = Fr) /\
  ((r = NULL /\ (size = 0 \/ forall x k, Fr1 !! x = Some k -> k < chunk_size size) /\
    heap_rep nl s' A Fr1 []) \/
   (exists k, r <> NULL /\ 0 < size /\ best_fit Fr1 (chunk_size size) (r - 8) k /\ A !! r = None /\
    heap_rep nl s' (<[r := chunk_size size - 8]> A) (carve Fr1 (r - 8) (chunk_size size) k) [])).

Lemma map_free cs (Fr : gmap Z Z) : (forall x, Fr !! x = fsz cs x) -> Fr = free_map cs.
Proof. intros H. apply map_eq. intros x. by rewrite H, free_map_lookup. Qed.

Section Top.
Context (DEBUG : bool) (nl : ptr) (c : caller) (s : mm_heap_s) (A Fr : gmap Z Z) (D : list ptr).
Context (Hrep : heap_rep nl s A Fr D) (Hs : sem_free s) (Hc : task c).

Lemma heap_malloc size : 0 <= size -> size + 23 < 2 ^ 32 ->
  wp (mm_malloc DEBUG nl c size) (fun r s' =>
    sem_free s' /\ kept A (mem s) (mem s') /\ malloc_post nl s A Fr D size r s') s.
Proof using Hrep Hs Hc.
  intros H0 H32. destruct (heap_open nl s A Fr D A Hrep) as (cs & F & DL & G & R & I & K & KD & HD & Hdl & HA & HF).
  { intros p n ?. exists n. split; [done|lia]. }
  assert (HFr : forall cs1, settled cs DL cs1 -> D = [] -> free_map cs1 = Fr).
  { intros cs1 [_ E] Hn. rewrite HD in Hn. apply map_eq_nil in Hn. rewrite (E Hn).
    by rewrite <- (map_free cs Fr). }
  rewrite <- (upm_mem s) at 1.
  eapply (wp_malloc DEBUG nl _ _ G s eq_refl eq_refl Hs c Hc A (mem s)); try done.
  - intros m' cs1 F1 R1 I1 St Hno. split_and!; [apply Hs..|by eapply mrep_kept|].
    exists (free_map cs1). split; [by intros; apply HFr|]. left. split_and!; [done| |].
    + destruct Hno as [|Hno]; [by left|right]. intros x k. rewrite free_map_lookup. apply Hno.
    + eapply (heap_close nl s _ A (mem s) m' cs1 F1 []); try done.
      * intros p. by rewrite HA, (settled_live _ _ cs DL cs1 p St).
      * apply free_map_lookup.
  - intros m' cs1 cs' F' x k R' I' St Hsz Hfx Hk Hbest Hxs Hxe Ha' Hf' _.
    split_and!; [apply Hs..|by eapply mrep_kept|].
    exists (free_map cs1). split; [by intros; apply HFr|]. right. exists k.
    assert (Hn : 16 <= chunk_size size) by (unfold chunk_size; lia).
    assert (asz cs' x = Some (chunk_size size)) as (cx & Hcx & _)%asz_chunk
      by (rewrite Ha', decide_True; done).
    pose proof (mrep_pos nl _ _ G A _ _ _ _ _ R' _ _ Hcx).
    assert (Hax : asz cs1 x = None).
    { assert (fr cs1 x) as (d & Hd & Hda) by (apply fsz_fr; rewrite Hfx; eauto).
      unfold asz. rewrite Hd. simpl. by rewrite Hda. }
    replace (x + 8 - 8) with x by lia. split_and!; [unfold NULL; lia|done| | |].
    + split_and!; [by rewrite free_map_lookup|done|]. intros y k'. rewrite free_map_lookup. apply Hbest.
    + rewrite HA, <- (settled_live _ _ cs DL cs1 _ St). unfold live.
      replace (x + 8 - 8) with x by lia. rewrite Hax. by destruct (decide _).
    + eapply (heap_close nl s _ A (mem s) m' cs' F' []); try done.
      * intros p. destruct (decide (p = x + 8)) as [->|Hp].
        -- rewrite lookup_insert_eq. symmetry. apply live_Some. replace (x + 8 - 8) with x by lia.
           split_and!; [done..|apply not_elem_of_nil|]. rewrite Ha', decide_True by done. f_equal. lia.
        -- rewrite lookup_insert_ne by done. rewrite HA, <- (settled_live _ _ cs DL cs1 _ St).
           symmetry. apply live_ext; [done|]. rewrite Ha', decide_False by lia. done.
      * intros y. rewrite Hf'. unfold carve.
        repeat first [rewrite lookup_insert | rewrite lookup_delete | rewrite free_map_lookup | case_decide];
          subst; (done || lia).
Qed.

(** The free chunks once [x], of [sz] bytes, is released: it is merged with the
    free chunks next to it into the chunk from [lo] to [hi]. *)
Definition merged (x sz lo hi : Z) : Prop :=
  hi = x + sz + default 0 (Fr !! (x + sz)) /\
  (lo = x /\ (forall y k, Fr !! y = Some k -> y + k <> x) \/ Fr !! lo = Some (x - lo)).

Lemma among_delete p : among A (delete p A).
Proof using. intros q n [_ ?]%lookup_delete_Some. exists n. split; [done|lia]. Qed.

Lemma heap_free p n : A !! p = Some n ->
  wp (mm_free DEBUG nl c p) (fun _ s' =>
    sem_free s' /\ kept (delete p A) (mem s) (mem s') /\ mm_heapsize s' = mm_heapsize s /\
    mm_heapstart s' = mm_heapstart s /\ mm_heapend s' = mm_heapend s /\
    exists lo hi, merged (p - 8) (n + 8) lo hi /\
      heap_rep nl s' (delete p A) (<[lo := hi - lo]> (delete (p + n) Fr)) D) s.
Proof using Hrep Hs Hc.
  intros Hp. destruct (heap_open nl s A Fr D (delete p A) Hrep (among_delete p))
    as (cs & F & DL & G & R & I & K & KD & HD & Hdl & HA & HF).
  pose proof Hp as Hl. rewrite HA, live_Some in Hl. destruct Hl as (Hxs & Hxe & HxD & Ha).
  rewrite <- (upm_mem s) at 1. replace p with (p - 8 + 8) at 1 by lia.
  eapply (wp_free_now DEBUG nl _ _ G s eq_refl eq_refl Hs c Hc _ _ (mem s) cs F DL (p - 8) (n + 8)); try done.
  { replace (p - 8 + 8) with p by lia. apply lookup_delete_eq. }
  intros m' cs' F' lo hi R' I' Ha' Hco Hf'. split; [apply Hs|].
  split; [by eapply mrep_kept|]. split_and!; [done..|]. exists lo, hi. split.
  - destruct Hco as [H1 H2]. unfold merged. rewrite !HF. split; [done|].
    destruct H2 as [[? H2]|]; [left; split; [done|]; intros y k; by rewrite HF; apply H2|by right].
  - rewrite HD. eapply (heap_close nl s _ _ _ m' cs' F' DL); try done.
    + intros q. destruct (decide (q = p)) as [->|].
      * rewrite lookup_delete_eq. unfold live. rewrite Ha', (decide_True _ _ eq_refl). by destruct (decide _).
      * rewrite lookup_delete_ne by done. rewrite HA. symmetry. apply live_ext; [done|].
        rewrite Ha', decide_False by lia. done.
    + intros y. rewrite Hf'. replace (p - 8 + (n + 8)) with (p + n) by lia.
      repeat first [rewrite lookup_insert | rewrite lookup_delete | rewrite HF | case_decide];
        subst; (done || lia).
Qed.
End Top.

(** Who cannot free a block at once: an interrupt handler, a task that is not
    running while tasks are switched, and the idle task when another task uses
    the heap. *)
Definition must_delay (c : caller) (s : mm_heap_s) : Prop :=
  up_interrupt_context c = true \/ getpid c = - ESRCH \/
  (sched_idletask c = true /\ 0 <= getpid c /\ mm_holder s <> getpid c /\ mm_semaphore s <= 0).

Lemma heap_free_delayed DEBUG nl c s A Fr D p n :
  heap_rep nl s A Fr D -> must_delay c s -> A !! p = Some n ->
  wp (mm_free DEBUG nl c p) (fun _ s' =>
    heap_rep nl s' (delete p A) Fr (p :: D) /\ kept (delete p A) (mem s) (mem s') /\
    s' = set_delaylist p (upm (mem s') s)) s.
Proof.
  intros Hrep Hd Hp. destruct (heap_open nl s A Fr D (delete p A) Hrep (among_delete A p))
    as (cs & F & DL & G & R & I & K & KD & HD & Hdl & HA & HF).
  pose proof Hp as Hl. rewrite HA, live_Some in Hl. destruct Hl as (Hxs & Hxe & HxD & Ha).
  apply asz_chunk in Ha as (cx & Hcx & Hca & Hsz).
  destruct (mid_chunk nl _ _ G cs _ cx (l_tile _ _ _ _ _ _ I) Hcx Hxs Hxe) as ([? ?] & ? & _ & ? & ? & _).
  pose proof (g_hs _ _ _ G). pose proof (g_he _ _ _ G).
  assert (Hdelay : wp (mm_add_delaylist p) (fun _ s' =>
    heap_rep nl s' (delete p A) Fr (p :: D) /\ kept (delete p A) (mem s) (mem s') /\
    s' = set_delaylist p (upm (mem s') s)) s).
  { unfold mm_add_delaylist, wr, rd. apply wp_bind, wp_gets, wp_bind, wp_bind.
    destruct (mrep_reg _ _ _ _ _ _ _ _ _ R p) as [v Hv]; [unfold reg; lia|].
    apply (wp_getso _ v); [done|]. apply wp_modify, wp_modify.
    pose proof (mrep_delay nl _ _ G _ _ _ _ _ _ (p - 8) cx R I Hcx Hca Hxs Hxe HxD K) as R'.
    replace (p - 8 + 8) with p in R' by lia. specialize (R' (lookup_delete_eq _ _)).
    rewrite <- Hdl in R'. split_and!; [|by eapply mrep_kept|by destruct s].
    replace (p :: D) with (map (Z.add 8) ((p - 8) :: DL)) by (simpl; rewrite HD; f_equal; lia).
    assert (I' : hinv (mm_heapstart s) (mm_heapend s) cs F ((p - 8) :: DL)).
    { destruct I as [Ht Hfr Hli Hco Hnd Hdd]. split; try done; [by constructor|].
      intros y [->|Hy]%elem_of_cons; [|auto]. split_and!; try done. by exists cx. }
    eapply (heap_close nl s _ _ _ _ cs F); try done.
    - simpl. lia.
    - intros q. destruct (decide (q = p)) as [->|].
      + rewrite lookup_delete_eq. unfold live. rewrite decide_True; [done|]. right. right. left.
      + rewrite lookup_delete_ne by done. rewrite HA. symmetry. apply live_ext; [|done].
        rewrite elem_of_cons. split; [intros [?|]; [lia|done]|by right]. }
  unfold mm_free, ESRCH, EAGAIN in *.
  destruct (Z.eqb_spec p NULL) as [E|_]; [unfold NULL in E; lia|].
  destruct Hd as [->|[Hpid|(Hidle & Hpid & Hholder & Hsem)]]; [done|..];
    (destruct (up_interrupt_context c); [done|]); apply wp_bind; unfold mm_trysemaphore, ESRCH, EAGAIN, OK in *.
  - rewrite Hpid. simpl. apply wp_ret. simpl. done.
  - destruct (Z.ltb_spec (getpid c) 0); [lia|]. wp_seq.
    destruct (Z.eqb_spec (mm_holder s) (getpid c)); [done|]. destruct (Z.ltb_spec 0 (mm_semaphore s)); [lia|].
    apply wp_ret. simpl. by rewrite Hidle.
Qed.

(** * Growing a block in place *)

Lemma mrep_sub nl hs he B B1 m0 m1 m cs F DL :
  (forall a, inside B a -> inside B1 a /\ m1 !! a = m0 !! a) ->
  mrep nl hs he B1 m1 m cs F DL -> mrep nl hs he B m0 m cs F DL.
Proof.
  intros HB (bks & R & HF). exists bks. split; [|done].
  destruct R as [Hdom Hhdr Hc Hlk Hlen Hnd Hbk Hin' Hheads Hhout Hdl Hdin Hfr]. split; try done.
  - intros x c Hx. destruct (Hc x c Hx) as (? & ? & ? & ?). split_and!; try done; by intros [? _]%HB.
  - intros x Hx. destruct (Hin' x Hx) as (? & ? & ? & ? & ?). split_and!; try done; by intros [? _]%HB.
  - intros a Ha [? _]%HB. by eapply Hhout.
  - intros a [Ha <-]%HB. auto.
Qed.

Lemma inside_insert B p n a : B !! p = None -> inside B a -> inside (<[p := n]> B) a.
Proof. intros Hp (q & k & Hq & Ha). exists q, k. rewrite lookup_insert_ne; [done|congruence]. Qed.

Lemma realloc_take_spec needed prevsize nextsize tp tn :
  realloc_take needed prevsize nextsize = (tp, tn) ->
  0 <= prevsize -> 0 <= nextsize -> 0 < needed <= prevsize + nextsize ->
  needed mod 16 = 0 -> prevsize mod 16 = 0 -> nextsize mod 16 = 0 ->
  tp + tn = needed /\ 0 <= tp <= prevsize /\ 0 <= tn <= nextsize /\ tp mod 16 = 0 /\ tn mod 16 = 0.
Proof.
  unfold realloc_take. intros H ? ? ? ? ? ?.
  destruct ((0 <? prevsize) && ((prevsize <=? nextsize) || (nextsize <? 1))) eqn:E1;
    [destruct (prevsize <? needed) eqn:E2|]; simpl in H; rewrite ?andb_false_r in H;
    [| |destruct ((0 <? nextsize) && negb (needed =? 0)) eqn:E3; [destruct (nextsize <? needed) eqn:E4|]];
    simplify_eq; lia.
Qed.

Section Grow.
Context (DEBUG : bool) (nl hs he : Z) (G : geom nl hs he) (s : mm_heap_s).
Context (Hstart : mm_heapstart s = hs) (Hend : mm_heapend s = he).
Context (B m : gmap Z Z) (cs : chunks) (F : gset Z) (DL : list ptr).
Context (R : mrep nl hs he B m m cs F DL) (I : hinv hs he cs F DL) (K : keeps cs B).
Context (KD : forall x, x ∈ DL -> B !! (x + 8) = None).
Context (KM : forall p n, B !! p = Some n -> p - 8 <> hs /\ p - 8 <> he).
Context (x : Z) (c : chunk) (Hx : cs !! x = Some c) (Hxa : cal c = true).
Context (Hxs : x <> hs) (Hxe : x <> he) (HxD : x ∉ DL) (HxB : B !! (x + 8) = None).
#[local] Abbreviation mrep := (mrep nl hs he).
#[local] Abbreviation hinv := (linv hs he).

(** The same with the block of [x], or a part of it, to be kept too. *)
Lemma rebase_with n : n <= csz c - 8 ->
  mrep (<[x + 8 := n]> B) m m cs F DL /\ keeps cs (<[x + 8 := n]> B).
Proof using G R I K KD KM Hx Hxa Hxs Hxe HxD HxB.
  intros Hn. assert (K' : keeps cs (<[x + 8 := n]> B)).
  { intros p k. rewrite lookup_insert_Some. intros [[<- <-]|[_ Hp]]; [|by apply K].
    exists c. by replace (x + 8 - 8) with x by lia. }
  split; [|done]. eapply mrep_rebase; try done.
  - intros y Hy. rewrite lookup_insert_ne; [by apply KD|]. intros E.
    assert (x = y) as -> by lia. done.
  - intros p k. rewrite lookup_insert_Some. intros [[<- _]|[_ Hp]]; [|by eapply KM].
    by replace (x + 8 - 8) with x by lia.
Qed.

Lemma mwp_take_prev w p t (Q : ptr * ptr * Z -> gmap Z Z -> Prop) :
  cs !! w = Some p -> cal p = false -> x = w + csz p -> 0 < t <= csz p -> t mod 16 = 0 ->
  (forall m' cs' F',
     mrep B m m' cs' F' DL -> hinv cs' F' DL None -> keeps cs' B -> B !! (x - t + 8) = None ->
     (forall y, asz cs' y = if decide (y = x - t) then Some (csz c + t)
                            else if decide (y = x) then None else asz cs y) ->
     (forall y, fsz cs' y = if decide (y = w) then if decide (t < csz p) then Some (csz p - t) else None
                            else fsz cs y) ->
     (forall i, 0 <= i -> 4 * i < csz c - 8 -> m' !! (x - t + 8 + 4 * i) = m !! (x + 8 + 4 * i)) ->
     Q (x - t + 8, x - t, csz c + t) m') ->
  mwp (take_prev DEBUG nl (x + 8) x w (x + csz c) (csz c) (csz p) t) Q s m.
Proof using G Hstart Hend R I K KD KM Hx Hxa Hxs Hxe HxD HxB.
  intros Hw Hpa Ex Ht Htm HQ. pose proof (l_tile _ _ _ _ _ _ I) as T.
  pose proof (geom_ends nl hs he G) as GE.
  destruct (rebase_with (csz c - 8) ltac:(lia)) as [R1 K1].
  destruct (mid_chunk nl hs he G cs x c T Hx Hxs Hxe) as ([_ Hxm] & Hc16 & Hcm & Hlo & Hle & Hsz & _).
  destruct (tile_range hs he GE cs T w p Hw) as [? _].
  assert (Hwe : w <> he) by lia.
  assert (Hbk : B !! (x - t + 8) = None).
  { destruct (B !! (x - t + 8)) as [k|] eqn:E; [|done]. destruct (K _ _ E) as (d & Hd & Hda & _).
    replace (x - t + 8 - 8) with (x - t) in Hd by lia.
    assert (w = x - t) as Ew by (eapply (tile_inside hs he GE cs T w p (x - t) d (x - t)); eauto;
      [lia|destruct (tile_range hs he GE cs T _ d Hd); lia]). congruence. }
  unfold take_prev. apply mwp_bind. rewrite Ex at 1 2.
  eapply (mwp_take_prev_headers DEBUG nl hs he G s Hstart Hend) with (c := c); try done;
    rewrite <- ?Ex; try done.
  intros m1 cs1 F1 c1 R2 I1 Hc1 Hc1s Hc1a Ha1 Hf1.
  assert (Hold : forall i, 0 <= i -> 4 * i < csz c - 8 -> m1 !! (x + 8 + 4 * i) = m !! (x + 8 + 4 * i)).
  { intros i ? ?. eapply mrep_frame; [exact R2|]. exists (x + 8), (csz c - 8). rewrite lookup_insert_eq.
    split; [done|lia]. }
  assert (R3 : mrep B m m1 cs1 F1 DL).
  { eapply mrep_sub; [|exact R2]. intros a Ha. split; [|done]. by apply inside_insert. }
  assert (Hkeep : keeps cs1 B).
  { rewrite keeps_asz in K |- *. intros q k Hq. destruct (K q k Hq) as (k' & Hk' & ?). exists k'.
    rewrite Ha1, !decide_False; [done|intros E|intros E].
    - replace q with (x + 8) in Hq by lia. congruence.
    - replace q with (x - t + 8) in Hq by lia. congruence. }
  pose proof (l_tile _ _ _ _ _ _ I1) as T1.
  assert (Hrs : x - t <> hs /\ x - t <> he).
  { destruct (fr_mid hs he GE _ _ _ _ w I ltac:(by exists p)).
    destruct (tile_range hs he GE cs T w p Hw). lia. }
  destruct Hrs as [Hrs Hre].
  assert (HrD : x - t ∉ DL).
  { intros Hin. destruct (l_dl _ _ _ _ _ _ I _ Hin) as (_ & _ & d & Hd & Hda).
    assert (w = x - t) as Ew by (eapply (tile_inside hs he GE cs T w p (x - t) d (x - t)); eauto;
      [lia|destruct (tile_range hs he GE cs T _ d Hd); lia]). congruence. }
  unfold SIZEOF_MM_ALLOCNODE. rewrite wrapu_small by lia.
  assert (Ew : 4 * Z.of_nat (words (csz c - 8)) = csz c - 8) by (unfold words; lia).
  destruct (mid_chunk nl hs he G cs1 _ c1 T1 Hc1 Hrs Hre) as ([_ Hrm] & _ & _ & Hrlo & _).
  apply mwp_bind. apply mwp_memcpy.
  - intros i Hi. split; (eapply mrep_reg; [exact R3|]); unfold reg; lia.
  - intros i j ? ?. lia.
  - intros m2 Hcp Hsame Hsome.
    assert (R4 : mrep B m m2 cs1 F1 DL).
    { eapply (mrep_user nl hs he G B m m1 m2 cs1 F1 DL (x - t) c1); try done.
      intros a Ha. apply Hsame. lia. }
    apply mwp_bind. eapply mwp_rd_size; [exact R4|exact Hc1|]. rewrite Hc1s. apply mwp_ret.
    eapply HQ; try done. intros i ? ?. rewrite Hcp by lia. by apply Hold.
Qed.

(** The block ends up at [r], with its contents. *)
Definition moved (r n : Z) (m' : gmap Z Z) (cs' : chunks) (F' : gset Z) : Prop :=
  mrep B m m' cs' F' DL /\ hinv cs' F' DL None /\ r <> hs /\ r <> he /\
  (forall y, asz cs' y = if decide (y = r) then Some n else if decide (y = x) then None else asz cs y) /\
  (r = x \/ asz cs r = None) /\
  (forall i, 0 <= i -> 4 * i < Z.min (csz c) n - 8 -> m' !! (r + 8 + 4 * i) = m !! (x + 8 + 4 * i)).

Lemma mwp_take_next_moved t (Q : unit -> gmap Z Z -> Prop) d :
  cs !! (x + csz c) = Some d -> cal d = false -> 0 < t <= csz d -> t mod 16 = 0 ->
  (forall m' cs' F', moved x (csz c + t) m' cs' F' -> Q tt m') ->
  mwp (take_next DEBUG nl x (x + csz c) (csz c) (csz d) t) Q s m.
Proof using All.
  intros Hd Hda Ht Htm HQ. destruct (rebase_with (csz c - 8) ltac:(lia)) as [R1 K1].
  eapply (mwp_take_next DEBUG nl hs he G s Hstart Hend) with (c := c); try done.
  intros m1 cs1 F1 R2 I1 Ha1 Hf1. eapply HQ. split_and!; try done.
  - eapply mrep_sub; [|exact R2]. intros a Ha. split; [|done]. by apply inside_insert.
  - intros y. rewrite Ha1. repeat case_decide; done.
  - by left.
  - intros i ? ?. eapply mrep_frame; [exact R2|]. exists (x + 8), (csz c - 8). rewrite lookup_insert_eq.
    split; [done|lia].
Qed.
End Grow.

Lemma fsz_chunk cs x k : fsz cs x = Some k <-> exists c, cs !! x = Some c /\ cal c = false /\ csz c = k.
Proof.
  unfold fsz. destruct (cs !! x) as [c|]; simpl; [|naive_solver].
  destruct (cal c) eqn:E; naive_solver congruence.
Qed.

Lemma mwp_realloc_grow DEBUG nl hs he (G : geom nl hs he) s (Hstart : mm_heapstart s = hs)
    (Hend : mm_heapend s = he) B m cs F DL x c p d n (Q : ptr -> gmap Z Z -> Prop) :
  mrep nl hs he B m m cs F DL -> hinv hs he cs F DL -> keeps cs B ->
  (forall y, y ∈ DL -> B !! (y + 8) = None) ->
  (forall q k, B !! q = Some k -> q - 8 <> hs /\ q - 8 <> he) ->
  cs !! x = Some c -> cal c = true -> x <> hs -> x <> he -> x ∉ DL -> B !! (x + 8) = None ->
  cs !! (x - cprev c) = Some p -> cs !! (x + csz c) = Some d ->
  let prevsize := if cal p then 0 else csz p in
  let nextsize := if cal d then 0 else csz d in
  csz c < n <= csz c + prevsize + nextsize -> n mod 16 = 0 ->
  (forall m' cs' F' r, moved nl hs he B m cs DL x c r n m' cs' F' -> Q (r + 8) m') ->
  mwp (realloc_grow DEBUG nl (x + 8) x (x - cprev c) (x + csz c) n (csz c) prevsize nextsize) Q s m.
Proof.
  intros R I K KD KM Hx Hxa Hxs Hxe HxD HxB Hp Hd prevsize nextsize Hn Hnm HQ.
  pose proof (l_tile _ _ _ _ _ _ I) as T. pose proof (geom_ends nl hs he G) as GE.
  destruct (mid_chunk nl hs he G cs x c T Hx Hxs Hxe) as (_ & Hc16 & Hcm & Hlo & Hle & Hsz & _).
  assert (Hps : csz p = cprev c).
  { destruct (t_prev _ _ _ T x c Hx Hxs) as (p' & Hp' & ?). congruence. }
  assert (Hpm : 0 <= prevsize /\ prevsize mod 16 = 0 /\ (0 < prevsize -> cal p = false /\ prevsize = csz p)).
  { unfold prevsize. destruct (cal p) eqn:Ea; [done|].
    destruct (fr_mid hs he GE _ _ _ _ (x - cprev c) I) as [? ?]; [by exists p|].
    destruct (mid_chunk nl hs he G cs _ p T Hp) as (_ & ? & ? & _); [done..|]. split_and!; (done || lia). }
  assert (Hdm : 0 <= nextsize /\ nextsize mod 16 = 0 /\ nextsize < 2 ^ 31 /\ (0 < nextsize -> cal d = false /\ nextsize = csz d)).
  { unfold nextsize. destruct (cal d) eqn:Ea; [done|].
    destruct (fr_mid hs he GE _ _ _ _ (x + csz c) I) as [? ?]; [by exists d|].
    destruct (mid_chunk nl hs he G cs _ d T Hd) as (_ & ? & ? & ? & ? & _); [done..|]. split_and!; (done || lia). }
  destruct (tile_range hs he GE cs T _ p Hp) as [? _].
  unfold realloc_grow. rewrite wrapu_small by lia.
  destruct (realloc_take (n - csz c) prevsize nextsize) as [tp tn] eqn:E.
  apply realloc_take_spec in E as (Esum & Htp & Htn & Htpm & Htnm); [|lia..].
  apply mwp_bind. destruct (Z.eqb_spec tp 0) as [->|Htp0]; simpl.
  - apply mwp_ret. destruct (Z.eqb_spec tn 0) as [->|Htn0]; [lia|]. apply mwp_bind.
    destruct Hdm as (_ & _ & _ & Hd'). destruct Hd' as [Hda Hde]; [lia|]. rewrite Hde in *.
    eapply (mwp_take_next_moved DEBUG nl hs he G s Hstart Hend B m cs F DL); try done; [lia|].
    intros m' cs' F' Hm. apply mwp_ret. eapply HQ. by replace n with (csz c + tn) by lia.
  - destruct Hpm as (_ & _ & Hp'). destruct Hp' as [Hpa Hpe]; [lia|]. rewrite Hpe in *.
    eapply (mwp_take_prev DEBUG nl hs he G s Hstart Hend B m cs F DL); try done; [lia|lia|].
    intros m1 cs1 F1 R1 I1 K1 HB1 Ha1 Hf1 Hcont.
    assert (Hnone : asz cs (x - tp) = None).
    { destruct (asz cs (x - tp)) as [k|] eqn:Ek; [|done]. apply asz_chunk in Ek as (e & He & Hea & _).
      assert (x - cprev c = x - tp) as Ew
        by (eapply (tile_inside hs he GE cs T _ p (x - tp) e (x - tp)); eauto;
            [lia|destruct (tile_range hs he GE cs T _ e He); lia]). congruence. }
    destruct (fr_mid hs he GE _ _ _ _ (x - cprev c) I) as [? ?]; [by exists p|].
    assert (x - tp <> hs /\ x - tp <> he) as [Hrs Hre] by lia.
    destruct (Z.eqb_spec tn 0) as [->|Htn0]; simpl; apply mwp_bind.
    + apply mwp_ret, mwp_ret. eapply HQ. split_and!; try done; [|by right|].
      * by replace n with (csz c + tp) by lia.
      * intros i ? ?. apply Hcont; lia.
    + destruct Hdm as (_ & _ & _ & Hd'). destruct Hd' as [Hda Hde]; [lia|]. rewrite Hde in *.
      assert (asz cs1 (x - tp) = Some (csz c + tp)) as (c1 & Hc1 & Hc1a & Hc1s)%asz_chunk
        by (by rewrite Ha1, decide_True).
      assert (fsz cs1 (x - tp + csz c1) = Some (csz d)) as (d1 & Hd1 & Hd1a & Hd1s)%fsz_chunk.
      { rewrite Hc1s. replace (x - tp + (csz c + tp)) with (x + csz c) by lia.
        rewrite Hf1, decide_False by lia. apply fsz_chunk. by exists d. }
      assert (HrD : x - tp ∉ DL).
      { intros Hin. destruct (l_dl _ _ _ _ _ _ I _ Hin) as (_ & _ & e & He & Hea).
        unfold asz in Hnone. rewrite He in Hnone. simpl in Hnone. by rewrite Hea in Hnone. }
      replace (x + csz c) with (x - tp + csz c1) by lia. rewrite <- Hc1s, <- Hd1s.
      eapply (mwp_take_next_moved DEBUG nl hs he G s Hstart Hend B m1 cs1 F1 DL); try done; [|lia|].
      { eapply mrep_rebase; try done. }
      intros m2 cs2 F2 (R2 & I2 & _ & _ & Ha2 & _ & Hc2). apply mwp_ret. eapply HQ. split_and!; try done.
      * eapply mrep_sub; [|exact R2]. intros a Ha. split; [done|]. by eapply mrep_frame.
      * intros y. rewrite Ha2. replace (csz c1 + tn) with n by lia. rewrite Ha1. repeat case_decide; done.
      * by right.
      * intros i ? ?. rewrite Hc2 by lia. apply Hcont; lia.
Qed.

(** * Reallocation *)

Lemma live_moved hs he cs cs' DL (A : gmap Z Z) p r n :
  (forall q, A !! q = live hs he cs DL q) ->
  (forall y, asz cs' y = if decide (y = r - 8) then Some n
                         else if decide (y = p - 8) then None else asz cs y) ->
  r - 8 <> hs -> r - 8 <> he -> r - 8 ∉ DL ->
  forall q, <[r := n - 8]> (delete p A) !! q = live hs he cs' DL q.
Proof.
  intros HA Ha Hrs Hre HrD q. destruct (decide (q = r)) as [->|].
  - rewrite lookup_insert_eq. symmetry. apply live_Some. split_and!; try done.
    rewrite Ha, decide_True by done. f_equal. lia.
  - rewrite lookup_insert_ne by done. destruct (decide (q = p)) as [->|].
    + rewrite lookup_delete_eq. unfold live. destruct (decide (_ \/ _ \/ _)); [done|].
      by rewrite Ha, decide_False, decide_True by lia.
    + rewrite lookup_delete_ne by done. rewrite HA. symmetry. apply live_ext; [done|].
      rewrite Ha, !decide_False by lia. done.
Qed.

(** Live blocks and free chunks have their places. *)
Lemma heap_block nl s A Fr D p n : heap_rep nl s A Fr D -> A !! p = Some n ->
  p mod 16 = 0 /\ 8 <= n /\ n mod 16 = 8 /\ mm_heapstart s + 16 <= p /\ p + n <= mm_heapend s /\
  (forall a, p <= a < p + n + 8 -> a mod 4 = 0 -> is_Some (mem s !! a)).
Proof.
  intros (cs & F & DL & G & R & I & HD & Hdl & HA & HF) Hp.
  rewrite HA, live_Some in Hp. destruct Hp as (Hxs & Hxe & _ & (c & Hc & Hca & Hsz)%asz_chunk).
  destruct (mid_chunk nl _ _ G cs _ c (l_tile _ _ _ _ _ _ I) Hc Hxs Hxe) as ([_ ?] & ? & ? & ? & ? & _).
  split_and!; try lia. intros a Ha Hm. eapply mrep_reg; [exact R|]. unfold reg. lia.
Qed.

Lemma heap_null nl s A Fr D : heap_rep nl s A Fr D -> A !! NULL = None.
Proof.
  intros Hr. apply eq_None_not_Some. intros [n Hn]. pose proof (heap_block _ _ _ _ _ _ _ Hr Hn) as (_ & _ & _ & H & _).
  destruct Hr as (cs & F & DL & G & _). pose proof (g_hs _ _ _ G). unfold NULL in H. lia.
Qed.

Lemma heap_delay nl s A Fr D : heap_rep nl s A Fr D -> mm_delaylist s = NULL -> D = [].
Proof.
  intros (cs & F & DL & G & R & I & -> & Hdl & _) E. destruct DL as [|x DL]; [done|].
  destruct (l_dl _ _ _ _ _ _ I x) as (_ & _ & c & Hc & _); [left|].
  pose proof (mrep_pos _ _ _ G _ _ _ _ _ _ R _ _ Hc). rewrite Hdl in E. simpl in E. unfold NULL in E. lia.
Qed.

Lemma heap_apart nl s A Fr D p n q k : heap_rep nl s A Fr D -> A !! p = Some n -> A !! q = Some k ->
  p <> q -> p + n + 8 <= q \/ q + k + 8 <= p.
Proof.
  intros (cs & F & DL & G & R & I & HD & Hdl & HA & HF) Hp Hq Hne.
  rewrite HA, live_Some in Hp, Hq. destruct Hp as (_ & _ & _ & (c & Hc & Hca & Hsz)%asz_chunk).
  destruct Hq as (_ & _ & _ & (d & Hd & Hda & Hdz)%asz_chunk).
  pose proof (tile_disjoint _ _ (geom_ends nl _ _ G) cs (l_tile _ _ _ _ _ _ I)) as Hdis.
  destruct (Z.lt_ge_cases p q).
  - specialize (Hdis _ _ _ _ Hc Hd). lia.
  - specialize (Hdis _ _ _ _ Hd Hc). lia.
Qed.

(** The owner of a block may write to it. *)
Lemma heap_write nl s A Fr D p n m' : heap_rep nl s A Fr D -> A !! p = Some n ->
  (forall a, ~ (p <= a < p + n) -> m' !! a = mem s !! a) ->
  (forall a, is_Some (mem s !! a) -> is_Some (m' !! a)) ->
  heap_rep nl (upm m' s) A Fr D.
Proof.
  intros Hrep Hp Hsame Hsome. destruct (heap_open nl s A Fr D ∅ Hrep) as (cs & F & DL & G & R & I & K & KD & HD & Hdl & HA & HF).
  { intros q k Hq. by rewrite lookup_empty in Hq. }
  pose proof Hp as Hl. rewrite HA, live_Some in Hl. destruct Hl as (Hxs & Hxe & HxD & (c & Hc & Hca & Hsz)%asz_chunk).
  rewrite HD. eapply (heap_close nl s _ ∅ (mem s) m' cs F DL); try done.
  eapply (mrep_user nl _ _ G ∅ (mem s) (mem s) m' cs F DL (p - 8) c); try done.
  intros a Ha. apply Hsame. lia.
Qed.

Lemma kept_trans A m1 m2 m3 : kept A m1 m2 -> kept A m2 m3 -> kept A m1 m3.
Proof. intros H1 H2 p n a Hp Ha. rewrite (H2 p n a Hp Ha). eauto. Qed.

Lemma kept_sub A B m m' : (forall p n, B !! p = Some n -> A !! p = Some n) -> kept A m m' -> kept B m m'.
Proof. intros HB H p n a Hp Ha. eapply H; eauto. Qed.

Definition realloc_post (nl : ptr) (s : mm_heap_s) (A : gmap Z Z) (p n size : Z)
    (r : ptr) (s' : mm_heap_s) : Prop :=
  (r = NULL /\ kept A (mem s) (mem s') /\
   exists Fr', heap_rep nl s' A Fr' [] /\ (forall x k, Fr' !! x = Some k -> k < chunk_size size)) \/
  (r <> NULL /\ (r = p \/ A !! r = None) /\ kept (delete p A) (mem s) (mem s') /\
   (forall i, 0 <= i -> 4 * i < Z.min n (chunk_size size - 8) ->
      mem s' !! (r + 4 * i) = mem s !! (p + 4 * i)) /\
   exists Fr' D', heap_rep nl s' (<[r := chunk_size size - 8]> (delete p A)) Fr' D').

Section Realloc.
Context (DEBUG : bool) (nl : ptr) (c : caller) (s : mm_heap_s) (A Fr : gmap Z Z) (D : list ptr).
Context (Hrep : heap_rep nl s A Fr D) (Hs : sem_free s) (Hc : task c).
Context (p n size : Z) (Hp : A !! p = Some n) (Hsize : 0 < size) (H32 : size + 23 < 2 ^ 32).

(** The last resort: a new block, a copy, and the old block is freed. *)
Lemma heap_realloc_move : n + 8 < chunk_size size ->
  wp (newmem <- mm_malloc DEBUG nl c size ;;
      when (negb (newmem =? NULL))
        (memcpy newmem p (words (n + 8)) ;; mm_free DEBUG nl c p) ;;
      ret newmem)
    (fun r s' => sem_free s' /\ realloc_post nl s A p n size r s') s.
Proof using All.
  intros Hn. apply wp_bind. eapply wp_mono; [by apply (heap_malloc DEBUG nl c s A Fr D Hrep Hs Hc size); [lia|]|].
  intros r s1 (Hs1 & Hk & Fr1 & _ & [(-> & Hno & Hr1)|(k & Hr0 & _ & _ & HAr & Hr1)]).
  { simpl. apply wp_bind, wp_ret, wp_ret. split; [done|]. left. split_and!; try done.
    exists Fr1. split; [done|]. destruct Hno as [|Hno]; [lia|done]. }
  destruct (Z.eqb_spec r NULL) as [|_]; [done|]. simpl. apply wp_bind, wp_bind.
  assert (Hrp : r <> p) by congruence.
  assert (Hp1 : <[r := chunk_size size - 8]> A !! p = Some n) by (by rewrite lookup_insert_ne).
  assert (Hr : <[r := chunk_size size - 8]> A !! r = Some (chunk_size size - 8)) by apply lookup_insert_eq.
  destruct (heap_block _ _ _ _ _ _ _ Hr1 Hp1) as (Hpm & ? & Hnm & _ & _ & Hpw).
  destruct (heap_block _ _ _ _ _ _ _ Hr1 Hr) as (Hrm & _ & _ & _ & _ & Hrw).
  pose proof (heap_apart _ _ _ _ _ _ _ _ _ Hr1 Hp1 Hr (not_eq_sym Hrp)) as Hap.
  assert (Ew : 4 * Z.of_nat (words (n + 8)) = n + 8) by (unfold words; lia).
  assert (Hcm : chunk_size size mod 16 = 0) by (unfold chunk_size; lia).
  rewrite <- (upm_mem s1) at 1. eapply wp_mwp with (Q := fun _ m2 =>
    (forall i, 0 <= i < Z.of_nat (words (n + 8)) -> m2 !! (r + 4 * i) = mem s1 !! (p + 4 * i)) /\
    (forall a, ~ (r <= a < r + 4 * Z.of_nat (words (n + 8))) -> m2 !! a = mem s1 !! a) /\
    (forall a, is_Some (mem s1 !! a) -> is_Some (m2 !! a))).
  - apply mwp_memcpy; [|lia|done]. intros i Hi. split; [apply Hrw|apply Hpw]; lia.
  - intros [] m2 (Hcp & Hsame & Hsome).
    pose proof (heap_write nl s1 _ _ [] r _ m2 Hr1 Hr) as Hr2.
    assert (Hfree := heap_free DEBUG nl c (upm m2 s1) _ _ [] (Hr2 ltac:(intros a Ha; apply Hsame; lia) Hsome) Hs1 Hc p n Hp1).
    eapply wp_mono; [exact Hfree|].
    intros [] s3 (Hs3 & Hk3 & _ & _ & _ & lo & hi & _ & Hr3). apply wp_ret. split; [done|]. right.
    assert (Hcomm : delete p (<[r := chunk_size size - 8]> A) = <[r := chunk_size size - 8]> (delete p A))
      by (by rewrite delete_insert_ne).
    rewrite Hcomm in Hr3, Hk3. split_and!; [done|by right| | |eauto].
    + intros q k' a [Hqp Hq]%lookup_delete_Some Ha.
      rewrite (Hk3 q k'); [|rewrite lookup_insert_ne, lookup_delete_ne by congruence; done|done]. simpl.
      assert (Hq1 : <[r := chunk_size size - 8]> A !! q = Some k') by (rewrite lookup_insert_ne by congruence; done).
      pose proof (heap_apart _ _ _ _ _ _ _ _ _ Hr1 Hq1 Hr ltac:(congruence)).
      rewrite Hsame by lia. by apply (Hk q k').
    + intros i ? ?. rewrite (Hk3 r (chunk_size size - 8)); [|apply lookup_insert_eq|lia]. simpl.
      rewrite Hcp by lia. apply (Hk p n); [done|lia].
Qed.

Lemma heap_realloc :
  wp (mm_realloc DEBUG nl c p size)
    (fun r s' => sem_free s' /\ realloc_post nl s A p n size r s') s.
Proof using All.
  destruct (heap_open nl s A Fr D (delete p A) Hrep (among_delete A p))
    as (cs & F & DL & G & R & I & K & KD & HD & Hdl & HA & HF).
  pose proof Hp as Hl. rewrite HA, live_Some in Hl. destruct Hl as (Hxs & Hxe & HxD & Ha).
  apply asz_chunk in Ha as (cx & Hcx & Hca & Hsz).
  pose proof (l_tile _ _ _ _ _ _ I) as T. pose proof (geom_ends nl _ _ G) as GE.
  destruct (mid_chunk nl _ _ G cs _ cx T Hcx Hxs Hxe) as ([_ Hxm] & ? & Hcm & ? & ? & ? & d & Hd & _).
  destruct (t_prev _ _ _ T _ cx Hcx Hxs) as (pc & Hpc & Hpcs).
  destruct (tile_range _ _ GE cs T _ pc Hpc) as [? ?].
  pose proof (g_hs _ _ _ G). pose proof (g_he _ _ _ G).
  set (x := p - 8) in *. assert (Epx : x + 8 = p) by (unfold x; lia).
  assert (HpB : delete p A !! (x + 8) = None) by (rewrite Epx; apply lookup_delete_eq).
  assert (KM : forall q k, delete p A !! q = Some k -> q - 8 <> mm_heapstart s /\ q - 8 <> mm_heapend s).
  { intros q k [_ Hq]%lookup_delete_Some. rewrite HA, live_Some in Hq. by destruct Hq as (? & ? & _). }
  assert (Hn16 : chunk_size size mod 16 = 0 /\ 16 <= chunk_size size < 2 ^ 32) by (unfold chunk_size; lia).
  assert (Hclose : forall m' cs' F' r q, q = r + 8 -> moved nl (mm_heapstart s) (mm_heapend s) (delete p A) (mem s) cs DL x cx r (chunk_size size) m' cs' F' ->
    realloc_post nl s A p n size q (upm m' s)).
  { intros m' cs' F' r q -> (R' & I' & Hrs & Hre & Ha' & Hr & Hcont).
    assert (HrD : r ∉ DL).
    { destruct Hr as [->|Hr]; [done|]. intros (_ & _ & e & He & Hea)%(l_dl _ _ _ _ _ _ I).
      unfold asz in Hr. rewrite He in Hr. simpl in Hr. by rewrite Hea in Hr. }
    assert (asz cs' r = Some (chunk_size size)) as (cr & Hcr & _)%asz_chunk by (by rewrite Ha', decide_True).
    pose proof (mrep_pos nl _ _ G _ _ _ _ _ _ R' _ _ Hcr).
    right. split_and!; [unfold NULL; lia| |by eapply mrep_kept| |].
    - destruct Hr as [->|Hr]; [by left|right]. rewrite HA. unfold live.
      replace (r + 8 - 8) with r by lia. rewrite Hr. by destruct (decide _).
    - intros i ? ?. simpl. rewrite Hcont by lia. by rewrite Epx.
    - exists (free_map cs'), (map (Z.add 8) DL).
      eapply (heap_close nl s _ _ _ m' cs' F' DL); try done; [|apply free_map_lookup].
      apply live_moved with cs; try done; replace (r + 8 - 8) with r by lia; done. }
  unfold mm_realloc. destruct (Z.eqb_spec p NULL) as [E|_]; [unfold NULL in E; lia|].
  destruct (Z.ltb_spec size 1) as [|_]; [lia|]. rewrite align_chunk by lia.
  unfold SIZEOF_MM_ALLOCNODE. fold x. rewrite <- (upm_mem s) at 1.
  apply wp_bind, (wp_take c s Hs Hc).
  assert (Hwp : forall {T'} (k : MM T') Q (P : T' -> mm_heap_s -> Prop), mwp k Q (held c s) (mem s) ->
            (forall a m', Q a m' -> P a (upm m' (held c s))) -> wp k P (upm (mem s) (held c s)))
    by (intros; by eapply wp_mwp).
  assert (Hgive : forall r m', realloc_post nl s A p n size r (upm m' s) ->
    wp (mm_givesemaphore DEBUG c ;; ret r) (fun r s' => sem_free s' /\ realloc_post nl s A p n size r s') (upm m' (held c s))).
  { intros r m' Hr. apply wp_bind, (wp_give DEBUG c s Hs Hc), wp_ret. split; [apply Hs|done]. }
  apply wp_bind, wp_dassert.
  { eapply Hwp with (Q := fun b m' => b = true /\ m' = mem s); [|by intros ? ? [-> ->]].
    apply mwp_bind. eapply mwp_is_free; [done..|]. apply mwp_ret. by rewrite Hca. }
  apply wp_bind, wp_dassert.
  { apply wp_gets. simpl. split; [|done]. unfold x in *. lia. }
  apply wp_bind. eapply wp_getso; [by eapply mrep_size|].
  destruct (Z.leb_spec (chunk_size size) (csz cx)) as [Hle|Hgt].
  - apply wp_bind. destruct (Z.ltb_spec (chunk_size size) (csz cx)) as [Hlt|Hge]; unfold when.
    + destruct (rebase_with nl _ _ G (delete p A) (mem s) cs F DL R I K KD KM x cx Hcx Hca Hxs Hxe HxD HpB
        (chunk_size size - 8)) as [R1 K1]; [lia|].
      eapply Hwp with (Q := fun _ m' => realloc_post nl s A p n size p (upm m' s)); [|by intros; apply Hgive].
      eapply (mwp_shrinkchunk DEBUG nl _ _ G (held c s) eq_refl eq_refl) with (c := cx); try done; [lia|lia|by rewrite lookup_insert_eq; simpl; lia|].
      intros m1 cs1 F1 R2 I2 Ha2 _. eapply (Hclose m1 cs1 F1 x); [done|]. split_and!; try done; [| |by left|].
      * eapply mrep_sub; [|exact R2]. intros a Hin. split; [|done]. by apply inside_insert.
      * intros y. rewrite Ha2. repeat case_decide; done.
      * intros i ? ?. eapply mrep_frame; [exact R2|]. exists (x + 8), (chunk_size size - 8).
        rewrite lookup_insert_eq. split; [done|lia].
    + apply wp_ret. apply Hgive. eapply (Hclose (mem s) cs F x); [done|]. split_and!; try done; [|by left].
      intros y. assert (asz cs x = Some (csz cx)) as E by (apply asz_chunk; by exists cx).
      destruct (decide (y = x)) as [Ey|]; [rewrite Ey, E; f_equal; lia|done].
  - assert (Hfree : forall y e (P : bool -> mm_heap_s -> Prop), cs !! y = Some e ->
              P (negb (cal e)) (upm (mem s) (held c s)) -> wp (is_free y) P (upm (mem s) (held c s))).
    { intros y e P He HP. eapply Hwp with (Q := fun b m' => b = negb (cal e) /\ m' = mem s);
        [by eapply mwp_is_free|by intros ? ? [-> ->]]. }
    assert (Hfsize : forall y e (P : Z -> mm_heap_s -> Prop), cs !! y = Some e ->
              P (if cal e then 0 else csz e) (upm (mem s) (held c s)) ->
              wp (if negb (cal e) then rd (f_size y) else ret 0) P (upm (mem s) (held c s))).
    { intros y e P He HP. destruct (cal e); simpl; [by apply wp_ret|].
      eapply wp_getso; [by eapply mrep_size|done]. }
    apply wp_bind. eapply Hfree; [done|]. apply wp_bind. eapply Hfsize; [done|].
    apply wp_bind. eapply wp_getso; [by eapply mrep_prec|].
    rewrite prec_size by (by eapply mrep_wf).
    apply wp_bind. eapply Hfree; [done|]. apply wp_bind. eapply Hfsize; [done|].
    set (nextsize := if cal d then 0 else csz d). set (prevsize := if cal pc then 0 else csz pc).
    assert (0 <= nextsize + prevsize + csz cx < 2 ^ 32).
    { assert (0 <= nextsize /\ x + csz cx + nextsize <= mm_heapend s).
      { unfold nextsize. destruct (cal d) eqn:Hda; [lia|].
        destruct (fr_mid _ _ GE _ _ _ _ (x + csz cx) I) as [? ?]; [by exists d|].
        destruct (mid_chunk nl _ _ G cs _ d T Hd) as (_ & ? & _ & _ & ? & _); [done..|]. lia. }
      assert (0 <= prevsize <= x - mm_heapstart s) by (unfold prevsize; destruct (cal pc); lia). lia. }
    rewrite wrapu_small by lia.
    destruct (Z.leb_spec (chunk_size size) (nextsize + prevsize + csz cx)) as [Hfit|Hno].
    + apply wp_bind. eapply Hwp with (Q := fun r m' => realloc_post nl s A p n size r (upm m' s));
        [|by intros; apply Hgive].
      rewrite <- Epx at 1.
      eapply (mwp_realloc_grow DEBUG nl _ _ G (held c s) eq_refl eq_refl); try done.
      * unfold nextsize, prevsize in *. lia.
      * lia.
      * intros m' cs' F' r Hm. by eapply Hclose.
    + apply wp_bind, (wp_give DEBUG c s Hs Hc). rewrite (upm_mem s).
      replace (words (csz cx)) with (words (n + 8)) by (f_equal; lia).
      apply heap_realloc_move. lia.
Qed.
End Realloc.

(** * Aligned allocation *)

Lemma align_mask a j : 0 <= a -> 0 <= j -> a + 2 ^ j - 1 < 2 ^ 32 ->
  Z.land (u32 (a + (2 ^ j - 1))) (Z.lnot (2 ^ j - 1)) = (a + 2 ^ j - 1) / 2 ^ j * 2 ^ j.
Proof.
  intros ? ? ?. assert (0 < 2 ^ j) by lia. rewrite wrapu_small by lia.
  replace (2 ^ j - 1) with (Z.ones j) at 2 by (rewrite Z.ones_equiv; lia).
  rewrite <- Z.ldiff_land, Z.ldiff_ones_r, Z.shiftl_mul_pow2, Z.shiftr_div_pow2 by lia.
  do 2 f_equal. lia.
Qed.

(** The block that [mm_memalign] returns for [size] bytes. *)
Definition align_size (size : Z) : Z := (size + 15) / 16 * 16.

Lemma pow2_16 j : 4 < j -> 2 ^ j mod 16 = 0 /\ 32 <= 2 ^ j.
Proof.
  intros Hj. replace (2 ^ j) with (2 ^ (j - 5) * 32).
  - assert (0 < 2 ^ (j - 5)) by (apply Z.pow_pos_nonneg; lia). split; [|lia].
    replace (2 ^ (j - 5) * 32) with (2 ^ (j - 5) * 2 * 16) by lia. by apply Z.mod_mul.
  - change 32 with (2 ^ 5). rewrite <- Z.pow_add_r by lia. f_equal. lia.
Qed.

(** The next multiple of a multiple of 16, from a multiple of 16. *)
Lemma align_up_16 a k : 0 <= a -> a mod 16 = 0 -> k mod 16 = 0 -> 0 < k ->
  let r := (a + k - 1) / k * k in a <= r < a + k /\ (r - a) mod 16 = 0 /\ r mod k = 0.
Proof.
  intros Ha Ham Hkm Hk r. split_and!.
  - unfold r. nia.
  - unfold r. nia.
  - unfold r. rewrite Z.mod_divide in * by lia. apply Z.divide_sub_r; [|done].
    by apply Z.divide_mul_r.
  - unfold r. by apply Z.mod_mul; lia.
Qed.

Section Align.
Context (DEBUG : bool) (nl hs he : Z) (G : geom nl hs he) (s : mm_heap_s).
Context (Hstart : mm_heapstart s = hs) (Hend : mm_heapend s = he).
Context (B m0 m : gmap Z Z) (cs : chunks) (F : gset Z) (DL : list ptr).
Context (R : mrep nl hs he B m0 m cs F DL) (I : hinv hs he cs F DL) (K : keeps cs B).
Context (x : Z) (c : chunk) (Hx : cs !! x = Some c) (Hxa : cal c = true).
Context (Hxs : x <> hs) (Hxe : x <> he) (HxD : x ∉ DL) (HxB : B !! (x + 8) = None).
Context (Hprev : forall y, adj cs y x -> ~ fr cs y).

Lemma mwp_memalign_place j n (Q : Z -> gmap Z Z -> Prop) :
  4 < j -> 0 <= n -> n mod 16 = 0 -> csz c = n + 2 * 2 ^ j + 16 ->
  (forall m' cs' F' r,
     mrep nl hs he B m0 m' cs' F' DL -> linv hs he cs' F' DL None ->
     (r + 8) mod 2 ^ j = 0 -> x <= r -> r <> he -> r ∉ DL -> (r = x \/ asz cs r = None) ->
     (forall y, asz cs' y = if decide (y = r) then Some (n + 16)
                            else if decide (y = x) then None else asz cs y) ->
     Q (r + 8) m') ->
  mwp (memalign_place DEBUG nl (x + 8) (2 ^ j - 1) (2 ^ j) n (n + 2 * 2 ^ j)) Q s m.
Proof using All.
  intros Hj Hn Hnm Hcsz HQ. pose proof (geom_ends nl hs he G) as GE.
  pose proof (l_tile _ _ _ _ _ _ I) as T.
  destruct (mid_chunk nl hs he G cs x c T Hx Hxs Hxe) as ([_ Hxm] & ? & ? & ? & ? & ? & _).
  pose proof (g_hs _ _ _ G). pose proof (g_top _ _ _ G). destruct (pow2_16 j Hj) as [Hpm Hp32].
  unfold memalign_place, SIZEOF_MM_ALLOCNODE. rewrite align_mask by lia.
  replace (x + 8 - 8) with x by lia.
  destruct (align_up_16 (x + 8) (2 ^ j)) as (Hr1 & Hr2 & Hr3); [lia..|].
  set (a := (x + 8 + 2 ^ j - 1) / 2 ^ j * 2 ^ j) in *.
  rewrite (wrapu_small 32 (n + 8)), MM_ALIGN_UP_small by lia.
  replace ((n + 8 + 15) / 16 * 16) with (n + 16) by lia.
  apply mwp_bind. destruct (Z.eqb_spec a (x + 8)) as [Ea|Ea]; simpl negb; cbv iota.
  - apply mwp_ret. destruct (Z.ltb_spec (n + 16) (n + 2 * 2 ^ j)); [|lia]. unfold when. apply mwp_bind.
    eapply (mwp_shrinkchunk DEBUG nl hs he G s Hstart Hend) with (c := c); try done; try lia.
    { rewrite HxB. simpl. lia. }
    intros m1 cs1 F1 R1 I1 Ha1 _. apply mwp_ret. rewrite Ea in *. apply (HQ m1 cs1 F1 x); try done; try lia.
    intros y. rewrite Ha1. repeat case_decide; done.
  - replace a with (x + (a - (x + 8)) + 8) at 1 by lia. set (k := a - (x + 8)) in *.
    assert (Hk : 16 <= k < 2 ^ j) by lia.
    eapply (mwp_memalign_split DEBUG nl hs he G s Hstart Hend) with (c := c); try done; try lia.
    intros m1 cs1 F1 c1 R1 I1 Hc1 Hc1s Hc1a Ha1 _.
    destruct (Z.ltb_spec (n + 16) (csz c - k - 8)); [|lia]. unfold when. apply mwp_bind.
    assert (Hnone : asz cs (x + k) = None).
    { unfold asz. by rewrite (tile_interior hs he GE cs T x c (x + k) Hx) by lia. }
    assert (HkD : x + k ∉ DL).
    { intros (_ & _ & e & He & Hea)%(l_dl _ _ _ _ _ _ I). unfold asz in Hnone. rewrite He in Hnone.
      simpl in Hnone. by rewrite Hea in Hnone. }
    assert (K1 : keeps cs1 B).
    { rewrite keeps_asz in K |- *. intros q v Hq. destruct (K q v Hq) as (v' & Hv' & ?). exists v'.
      rewrite Ha1, !decide_False; [done|intros E; rewrite E, Hnone in Hv'; done|].
      intros E. replace q with (x + 8) in Hq by lia. congruence. }
    assert (HkB : B !! (x + k + 8) = None).
    { destruct (B !! (x + k + 8)) as [v|] eqn:E; [|done]. rewrite keeps_asz in K.
      destruct (K _ _ E) as (v' & Hv' & _). replace (x + k + 8 - 8) with (x + k) in Hv' by lia. congruence. }
    eapply (mwp_shrinkchunk DEBUG nl hs he G s Hstart Hend) with (c := c1); try done; try lia.
    { rewrite HkB. simpl. lia. }
    intros m2 cs2 F2 R2 I2 Ha2 _. apply mwp_ret. apply (HQ m2 cs2 F2 (x + k)); try done; try lia.
    + replace (x + k + 8) with a by lia. done.
    + by right.
    + intros y. rewrite Ha2, Ha1. repeat case_decide; subst; try done; try lia.
Qed.
End Align.
