(* ===== verification/HeapTop.v ===== *)
(** HeapTop: the remaining calls of the memory manager and its theorems. *)

From stdpp Require Import options.
From S2P Require Import Prelude Heap HeapRep HeapInv HeapOps HeapSys.

#[local] Ltac Zify.zify_post_hook ::= Z.to_euclidean_division_equations.

(** * Aligned allocation *)

(** The size of the block that [mm_memalign] returns for an alignment of
    2^[j]. *)
Definition align_block (j size : Z) : Z :=
  if decide (j <= 4) then chunk_size size - 8 else align_size size + 8.

Definition memalign_post (nl : ptr) (s : mm_heap_s) (A : gmap Z Z) (j size : Z) (r : ptr) (s' : mm_heap_s) : Prop :=
  (r = NULL /\ exists Fr', heap_rep nl s' A Fr' []) \/
  (r <> NULL /\ r mod 2 ^ j = 0 /\ A !! r = None /\
   exists Fr', heap_rep nl s' (<[r := align_block j size]> A) Fr' []).

(** A larger alignment than that of every block. *)
Lemma heap_memalign_large DEBUG nl c s A Fr D j n :
  heap_rep nl s A Fr D -> sem_free s -> task c -> 4 < j <= 30 -> 0 <= n -> n mod 16 = 0 ->
  n + 2 * 2 ^ j + 23 < 2 ^ 32 ->
  wp (rawchunk <- mm_malloc DEBUG nl c (n + 2 * 2 ^ j) ;;
      if rawchunk =? 0 then ret NULL
      else
        mm_takesemaphore c ;;
        alignedchunk <- memalign_place DEBUG nl rawchunk (2 ^ j - 1) (2 ^ j) n (n + 2 * 2 ^ j) ;;
        mm_givesemaphore DEBUG c ;;
        ret alignedchunk) (fun r s' =>
    sem_free s' /\ kept A (mem s) (mem s') /\
    ((r = NULL /\ exists Fr', heap_rep nl s' A Fr' []) \/
     (r <> NULL /\ r mod 2 ^ j = 0 /\ A !! r = None /\
      exists Fr', heap_rep nl s' (<[r := n + 8]> A) Fr' []))) s.
Proof.
  intros Hrep Hs Hc Hj Hn Hnm H32. destruct (pow2_16 j) as [Hpm Hp32]; [lia|].
  assert (Ecs : chunk_size (n + 2 * 2 ^ j) = n + 2 * 2 ^ j + 16) by (unfold chunk_size; lia).
  destruct (heap_open nl s A Fr D A Hrep) as (cs & F & DL & G & R & I & K & KD & HD & Hdl & HA & HF).
  { intros p k ?. exists k. split; [done|lia]. }
  apply wp_bind. rewrite <- (upm_mem s) at 1.
  eapply (wp_malloc DEBUG nl _ _ G s eq_refl eq_refl Hs c Hc A (mem s)); try done; [lia| |].
  - intros m' cs1 F1 R1 I1 St _. simpl. apply wp_ret. split; [apply Hs|]. split; [by eapply mrep_kept|].
    left. split; [done|]. exists (free_map cs1).
    eapply (heap_close nl s _ A (mem s) m' cs1 F1 []); try done; [|apply free_map_lookup].
    intros p. by rewrite HA, (settled_live _ _ cs DL cs1 p St).
  - intros m1 cs1 cs' F' x k R' I' St _ Hfx _ _ Hxs Hxe Ha' _ Hadj.
    assert (Hs1 : sem_free (set_delaylist NULL s)) by apply Hs.
    assert (asz cs' x = Some (chunk_size (n + 2 * 2 ^ j))) as (cx & Hcx & Hcxa & Hcxs)%asz_chunk
      by (by rewrite Ha', decide_True).
    pose proof (mrep_pos nl _ _ G _ _ _ _ _ _ R' _ _ Hcx) as Hxpos.
    destruct (Z.eqb_spec (x + 8) 0) as [|_]; [lia|].
    assert (Hax : asz cs1 x = None).
    { apply fsz_chunk in Hfx as (e & He & Hea & _). unfold asz. rewrite He. simpl. by rewrite Hea. }
    assert (HA1 : forall q, A !! q = live (mm_heapstart s) (mm_heapend s) cs1 [] q).
    { intros q. by rewrite HA, (settled_live _ _ cs DL cs1 q St). }
    assert (HAx : A !! (x + 8) = None).
    { rewrite HA1. unfold live. replace (x + 8 - 8) with x by lia. rewrite Hax. by destruct (decide _). }
    assert (K' : keeps cs' A).
    { apply keeps_asz. intros p v Hp. pose proof Hp as Hl. rewrite HA1, live_Some in Hl.
      destruct Hl as (_ & _ & _ & Hl). exists (v + 8). split; [|lia]. rewrite Ha', decide_False; [done|].
      intros E. rewrite E in Hl. congruence. }
    apply wp_bind, (wp_take c _ Hs1 Hc), wp_bind.
    eapply wp_mwp with (Q := fun r m' => let s' := upm m' (set_delaylist NULL s) in
      kept A (mem s) m' /\ r <> NULL /\ r mod 2 ^ j = 0 /\ A !! r = None /\
      exists Fr', heap_rep nl s' (<[r := n + 8]> A) Fr' []).
    + eapply (mwp_memalign_place DEBUG nl _ _ G (held c (set_delaylist NULL s)) eq_refl eq_refl) with (c := cx);
        try done; try lia; [set_solver|].
      intros m2 cs2 F2 r R2 I2 Hmod Hxr Hre _ Hr Ha2. split; [by eapply mrep_kept|].
      split; [unfold NULL; lia|]. split; [done|].
      assert (Hrs : r <> mm_heapstart s).
      { destruct (tile_range _ _ (geom_ends nl _ _ G) cs' (l_tile _ _ _ _ _ _ I') x cx Hcx). lia. }
      split.
      * destruct Hr as [->|Hr]; [done|]. rewrite HA1. unfold live. replace (r + 8 - 8) with r by lia.
        rewrite Ha' in Hr. destruct (decide (r = x)); [done|]. rewrite Hr. by destruct (decide _).
      * exists (free_map cs2).
        eapply (heap_close nl s _ A (mem s) m2 cs2 F2 []); try done; [|apply free_map_lookup].
        replace (n + 8) with (n + 16 - 8) by lia. rewrite <- (delete_id A (x + 8)) by done.
        apply live_moved with cs1; try done; replace (r + 8 - 8) with r by lia; try done; [|set_solver].
        intros y. rewrite Ha2, Ha'. replace (x + 8 - 8) with x by lia. repeat case_decide; done.
    + intros r m' (Hk & Hr). apply wp_bind, (wp_give DEBUG c _ Hs1 Hc), wp_ret.
      split; [apply Hs|]. split; [done|]. by right.
Qed.

Lemma heap_memalign DEBUG nl c s A Fr D j size :
  heap_rep nl s A Fr D -> sem_free s -> task c -> 0 <= j <= 30 -> 0 <= size ->
  align_size size + 2 * 2 ^ j + 23 < 2 ^ 32 ->
  wp (mm_memalign DEBUG nl c (2 ^ j) size) (fun r s' =>
    sem_free s' /\ kept A (mem s) (mem s') /\ memalign_post nl s A j size r s') s.
Proof.
  intros Hrep Hs Hc Hj H0 H32. assert (0 < 2 ^ j) by lia. assert (size <= align_size size) by (unfold align_size; lia).
  assert (2 ^ j <= 2 ^ 30) by (apply Z.pow_le_mono_r; lia).
  unfold mm_memalign, memalign_post, align_block. change MM_MIN_CHUNK with 16.
  destruct (Z.leb_spec (2 ^ j) 16) as [Hle|Hgt].
  - assert (j <= 4) by (apply (Z.pow_le_mono_r_iff 2); [lia..|done]). rewrite decide_True by done.
    eapply wp_mono; [by apply (heap_malloc DEBUG nl c s A Fr D Hrep Hs Hc size); [|lia]|].
    intros r s' (? & ? & Fr1 & _ & [(-> & _ & ?)|(k & ? & _ & _ & ? & Hr)]); split_and!; try done.
    + left. split; [done|]. by exists Fr1.
    + right. split_and!; [done| |done|by eexists].
      destruct (heap_block _ _ _ _ _ _ _ Hr (lookup_insert_eq _ _ _)) as (Hm & _).
      apply Z.mod_divide in Hm; [|lia]. apply Z.mod_divide; [lia|]. etransitivity; [|exact Hm].
      exists (2 ^ (4 - j)). change 16 with (2 ^ 4). rewrite <- Z.pow_add_r by lia. f_equal. lia.
  - assert (4 < j) by (apply (Z.pow_lt_mono_r_iff 2); [lia..|done]). rewrite decide_False by lia.
    rewrite MM_ALIGN_UP_small by (unfold align_size in *; lia). fold (align_size size).
    rewrite !wrapu_small by lia.
    apply (heap_memalign_large DEBUG nl c s A Fr D j (align_size size)); try done; unfold align_size; lia.
Qed.

(** * Cleared allocation *)

(** The byte at an address (the machine is little-endian). *)
Definition byte (m : gmap Z Z) (a : Z) : option Z :=
  (fun v => Z.land (Z.shiftr v (8 * (a mod 4))) 255) <$> m !! (a - a mod 4).

Lemma cleared_byte v k b : 0 <= b -> 8 * b + 8 <= k ->
  Z.land (Z.shiftr (Z.land v (Z.lnot (Z.ones k))) (8 * b)) 255 = 0.
Proof.
  intros Hb Hk. change 255 with (Z.ones 8). apply Z.bits_inj'. intros i Hi.
  rewrite Z.land_spec, Z.shiftr_spec, Z.land_spec, Z.lnot_spec, !Z.testbit_ones_nonneg, Z.testbit_0_l by lia.
  destruct (Z.ltb_spec i 8); [|apply andb_false_r].
  destruct (Z.ltb_spec (i + 8 * b) k); [|lia]. simpl. by rewrite andb_false_r.
Qed.

Lemma mwp_memset s p n m (Q : unit -> gmap Z Z -> Prop) :
  p mod 4 = 0 -> 0 <= n -> (forall a, p <= a < p + n -> a mod 4 = 0 -> is_Some (m !! a)) ->
  (forall m', (forall a, p <= a < p + n -> byte m' a = Some 0) ->
     (forall a, a mod 4 = 0 -> ~ (p <= a < p + n) -> m' !! a = m !! a) ->
     (forall a, ~ (p <= a < p + n) -> m' !! a = m !! a) ->
     (forall a, is_Some (m !! a) -> is_Some (m' !! a)) -> Q tt m') ->
  mwp (memset p n) Q s m.
Proof.
  intros Hp Hn Hsome HQ. unfold memset. apply mwp_bind.
  assert (Ew : Z.of_nat (words n) = n / 4) by (unfold words; lia).
  apply mwp_memset0.
  { intros i Hi. apply Hsome; lia. }
  intros m1 H0 Hsame Hs. rewrite Ew in *.
  assert (Hbyte : forall a, p <= a < p + 4 * (n / 4) -> byte m1 a = Some 0).
  { intros a Ha. unfold byte. specialize (H0 ((a - p) / 4)).
    replace (a - a mod 4) with (p + 4 * ((a - p) / 4)) by lia. rewrite H0 by lia. simpl.
    by rewrite Z.shiftr_0_l. }
  destruct (Z.eqb_spec (n mod 4) 0) as [E|E]; simpl.
  - apply mwp_ret. apply HQ; [|intros; apply Hsame; lia..|done]. intros a Ha. apply Hbyte. lia.
  - set (a0 := p + 4 * (n / 4)) in *.
    destruct (Hs a0) as [v Hv]; [apply Hsome; unfold a0; lia|].
    apply mwp_bind. eapply mwp_rd; [done|]. apply mwp_wr; [eauto|].
    apply HQ.
    + intros a Ha. destruct (decide (a - a mod 4 = a0)) as [Ea|Ea].
      * unfold byte. rewrite Ea, lookup_insert_eq. simpl. f_equal. apply cleared_byte; [lia|].
        unfold a0 in *. lia.
      * unfold byte. rewrite lookup_insert_ne by done. apply Hbyte. unfold a0 in *. lia.
    + intros a Hm Ha. rewrite lookup_insert_ne by (unfold a0; lia). apply Hsame. unfold a0 in *. lia.
    + intros a Ha. rewrite lookup_insert_ne by (unfold a0; lia). apply Hsame. unfold a0 in *. lia.
    + intros a Ha. by apply some_insert, Hs.
Qed.

Lemma heap_zalloc DEBUG nl c s A Fr D size :
  heap_rep nl s A Fr D -> sem_free s -> task c -> 0 <= size -> size + 23 < 2 ^ 32 ->
  wp (mm_zalloc DEBUG nl c size) (fun r s' =>
    sem_free s' /\ kept A (mem s) (mem s') /\ malloc_post nl s A Fr D size r s' /\
    (r <> NULL -> forall a, r <= a < r + size -> byte (mem s') a = Some 0)) s.
Proof.
  intros Hrep Hs Hc H0 H32. unfold mm_zalloc. apply wp_bind.
  eapply wp_mono; [by apply (heap_malloc DEBUG nl c s A Fr D Hrep Hs Hc size)|].
  intros r s1 (Hs1 & Hk & Fr1 & HF1 & [(-> & Hno & Hr1)|(k & Hr0 & Hsz & Hbest & HAr & Hr1)]).
  { simpl. apply wp_bind, wp_ret, wp_ret. split_and!; try done. exists Fr1. split; [done|]. by left. }
  destruct (Z.eqb_spec r NULL) as [|_]; [done|]. simpl. apply wp_bind.
  assert (Hr : <[r := chunk_size size - 8]> A !! r = Some (chunk_size size - 8)) by apply lookup_insert_eq.
  destruct (heap_block _ _ _ _ _ _ _ Hr1 Hr) as (Hrm & _ & _ & _ & _ & Hrw).
  assert (size <= chunk_size size - 8) by (unfold chunk_size; lia).
  rewrite <- (upm_mem s1) at 1. eapply wp_mwp with (Q := fun _ m2 =>
    (forall a, r <= a < r + size -> byte m2 a = Some 0) /\
    (forall a, ~ (r <= a < r + size) -> m2 !! a = mem s1 !! a) /\
    (forall a, is_Some (mem s1 !! a) -> is_Some (m2 !! a))).
  - apply mwp_memset; [lia|lia| |by auto]. intros a Ha Hm. apply Hrw; [lia|done].
  - intros [] m2 (Hz & Hsame & Hsome). apply wp_ret. split; [done|].
    assert (Hr2 : heap_rep nl (upm m2 s1) (<[r := chunk_size size - 8]> A) (carve Fr1 (r - 8) (chunk_size size) k) []).
    { eapply heap_write; try done. intros a Ha. apply Hsame. lia. }
    split_and!; [| |done].
    + intros p n a Hp Ha. simpl.
      assert (Hp1 : <[r := chunk_size size - 8]> A !! p = Some n) by (rewrite lookup_insert_ne by congruence; done).
      pose proof (heap_apart _ _ _ _ _ _ _ _ _ Hr1 Hp1 Hr ltac:(congruence)).
      rewrite Hsame by lia. by apply (Hk p n).
    + exists Fr1. split; [done|]. right. by exists k.
Qed.

Lemma heap_calloc DEBUG nl c s A Fr D n e :
  heap_rep nl s A Fr D -> sem_free s -> task c -> 0 < n <= SIZE_MAX -> 0 < e <= SIZE_MAX ->
  n * e + 23 < 2 ^ 32 \/ SIZE_MAX < n * e ->
  wp (mm_calloc DEBUG nl c n e) (fun r s' =>
    sem_free s' /\ kept A (mem s) (mem s') /\
    (n * e <= SIZE_MAX -> malloc_post nl s A Fr D (n * e) r s' /\
       (r <> NULL -> forall a, r <= a < r + n * e -> byte (mem s') a = Some 0)) /\
    (SIZE_MAX < n * e -> r = NULL /\ s' = s)) s.
Proof.
  intros Hrep Hs Hc Hn He Hsz. unfold mm_calloc.
  destruct (Z.ltb_spec 0 n), (Z.ltb_spec 0 e); try lia. simpl.
  assert (HM : SIZE_MAX = 2 ^ 32 - 1) by done.
  assert (Hdiv : n <= SIZE_MAX / e <-> n * e <= SIZE_MAX).
  { split; intros; [|apply Z.div_le_lower_bound; lia].
    transitivity (SIZE_MAX / e * e); [nia|]. pose proof (Z.mul_div_le SIZE_MAX e). lia. }
  destruct (Z.leb_spec n (SIZE_MAX / e)) as [Hle|Hgt].
  - apply Hdiv in Hle. rewrite wrapu_small by lia.
    eapply wp_mono; [apply (heap_zalloc DEBUG nl c s A Fr D (n * e)); try done; nia|].
    intros r s' (? & ? & ? & ?). split_and!; try done. lia.
  - assert (SIZE_MAX < n * e) by (destruct (Z.lt_ge_cases SIZE_MAX (n * e)); [done|]; apply Hdiv in H1; lia).
    apply wp_ret. split_and!; try done. lia.
Qed.

(** * Statistics *)

(** The chunks from [x] up to the end of the region. *)
Inductive path (he : Z) (cs : chunks) : Z -> list (Z * chunk) -> Prop :=
| path_end : path he cs he []
| path_step x c l : cs !! x = Some c -> x <> he -> path he cs (x + csz c) l -> path he cs x ((x, c) :: l).

Section Path.
Context (hs he : Z) (Hhe : hs + 8 <= he /\ hs mod 16 = 0 /\ he mod 16 = 8).
Context (cs : chunks) (T : tile hs he cs).

Lemma path_exists x c : cs !! x = Some c -> exists l, path he cs x l.
Proof using All.
  revert c. remember (Z.to_nat (he - x)) as k eqn:E. revert x E.
  induction k as [k IH] using lt_wf_ind. intros x E c Hc.
  destruct (decide (x = he)) as [->|Hne]; [by exists []; constructor|].
  destruct (tile_range hs he Hhe cs T x c Hc). destruct (t_next _ _ _ T x c Hc Hne) as (d & Hd & _).
  destruct (IH (Z.to_nat (he - (x + csz c)))) with (x := x + csz c) (c := d) as [l Hl]; [lia|done..|].
  exists ((x, c) :: l). by constructor.
Qed.

Lemma path_low x l y c : path he cs x l -> (y, c) ∈ l -> x <= y < he /\ cs !! y = Some c.
Proof using All.
  induction 1 as [|x d l Hd Hne Hl IH]; [set_solver|]. intros [[= -> ->]|Hin]%elem_of_cons.
  - destruct (tile_range hs he Hhe cs T x d Hd). split; [lia|done].
  - destruct (tile_range hs he Hhe cs T x d Hd). destruct (IH Hin). split; [lia|done].
Qed.

Lemma path_all x l y c : path he cs x l -> cs !! y = Some c -> x <= y -> y <> he -> (y, c) ∈ l.
Proof using All.
  induction 1 as [|x d l Hd Hne Hl IH]; intros Hc Hle Hye.
  - destruct (tile_range hs he Hhe cs T y c Hc). lia.
  - destruct (decide (y = x)) as [->|]; [simplify_eq; left|]. right. apply IH; try done.
    pose proof (tile_disjoint hs he Hhe cs T x d y c Hd Hc). lia.
Qed.

Lemma path_nodup x l : path he cs x l -> NoDup l.*1.
Proof using All.
  induction 1 as [|x d l Hd Hne Hl IH]; [constructor|]. simpl. constructor; [|done].
  intros ((y & e) & -> & Hin)%list_elem_of_fmap. destruct (path_low _ _ _ _ Hl Hin). simpl in *.
  destruct (tile_range hs he Hhe cs T _ d Hd). lia.
Qed.

Lemma path_le x l : path he cs x l -> x <= he.
Proof using All.
  induction 1 as [|x d l Hd Hne Hl IH]; [lia|]. destruct (tile_range hs he Hhe cs T x d Hd). lia.
Qed.
End Path.

(** Number, size of the largest and total size of the free chunks. *)
Definition total (g : gmap Z Z) : Z := foldr Z.add 0 (map_to_list g).*2.
Definition largest (g : gmap Z Z) : Z := foldr Z.max 0 (map_to_list g).*2.

Definition frees (l : list (Z * chunk)) : list (Z * Z) :=
  omap (fun '(x, c) => if cal c then None else Some (x, csz c)) l.

#[local] Arguments frees : simpl never.

Lemma frees_cons x c l : frees ((x, c) :: l) = if cal c then frees l else (x, csz c) :: frees l.
Proof. unfold frees. simpl. by destruct (cal c). Qed.

Lemma elem_frees l x k : (x, k) ∈ frees l <-> exists c, (x, c) ∈ l /\ cal c = false /\ csz c = k.
Proof.
  unfold frees. rewrite list_elem_of_omap. split.
  - intros ([y c] & Hin & E). destruct (cal c) eqn:Ec; [done|]. injection E as -> <-. eauto.
  - intros (c & Hin & Ha & <-). exists (x, c). by rewrite Ha.
Qed.

Lemma frees_fst l : NoDup l.*1 -> NoDup (frees l).*1.
Proof.
  induction l as [|[x c] l IH]; [constructor|]. rewrite fmap_cons, frees_cons. intros [Hx Hnd]%NoDup_cons.
  destruct (cal c); [by apply IH|]. rewrite fmap_cons. constructor; [|by apply IH].
  intros ([y k] & Ey & Hin)%list_elem_of_fmap. simpl in *. subst y. apply Hx.
  apply elem_frees in Hin as (d & Hd & _). apply list_elem_of_fmap. by exists (x, d).
Qed.

Lemma frees_sum hs he cs x l : hs + 8 <= he /\ hs mod 16 = 0 /\ he mod 16 = 8 -> tile hs he cs ->
  path he cs x l -> 0 <= foldr Z.add 0 (frees l).*2 <= he - x.
Proof.
  intros Hhe T. induction 1 as [|x c l Hc Hne Hl IH]; [simpl; lia|].
  destruct (tile_range hs he Hhe cs T x c Hc). rewrite frees_cons. destruct (cal c); [lia|]. rewrite fmap_cons. simpl. lia.
Qed.

Lemma foldr_perm (f : Z -> Z -> Z) l l' :
  (forall a b d, f a (f b d) = f b (f a d)) -> l ≡ₚ l' -> foldr f 0 l = foldr f 0 l'.
Proof. intros Hf. induction 1; simpl; congruence. Qed.

Lemma map_frees (Fr : gmap Z Z) l : NoDup (frees l).*1 ->
  (forall x k, Fr !! x = Some k <-> (x, k) ∈ frees l) -> map_to_list Fr ≡ₚ frees l.
Proof.
  intros Hnd H. apply NoDup_Permutation; [apply NoDup_map_to_list|by eapply NoDup_fmap_1|].
  intros [x k]. by rewrite elem_of_map_to_list, H.
Qed.

(** The neighbours of a chunk in the free list. *)
Lemma mrep_links nl hs he B m0 m cs F DL x : geom nl hs he ->
  mrep nl hs he B m0 m cs F DL -> x ∈ F ->
  (exists b k, m !! (x + 12) = Some b /\ m !! (b + 8) = Some x /\ m !! b = Some k /\ k <= nsz cs x) /\
  (exists f, m !! (x + 8) = Some f /\
     (f = NULL \/ (f <> NULL /\ m !! (f + 12) = Some x /\ exists k, m !! f = Some k /\ (k = 0 \/ nsz cs x <= k)))).
Proof.
  intros G (bks & R & HF) Hx. apply HF, elem_concat_split in Hx as (bb1 & b1 & b2 & bb2 & ->).
  pose proof (b_lk _ _ _ _ _ _ _ _ _ R) as Hlk. rewrite hooks_split, Z.add_0_l in Hlk.
  set (h := nodelist nl (Z.of_nat (length bb1))) in *. set (rest := hooks nl _ bb2) in *.
  destruct (b_bk _ _ _ _ _ _ _ _ _ R (length bb1) (b1 ++ x :: b2)) as [Hs Hf]; [by apply list_lookup_middle|].
  assert (Hmem : forall y, y ∈ hooks nl 0 (bb1 ++ (b1 ++ x :: b2) :: bb2) -> y <> NULL /\ m !! y = Some (nsz cs y)).
  { intros y Hy. destruct (hooks_nsz nl hs he G B m0 _ _ _ _ _ R Hy). split; [unfold NULL; lia|done]. }
  rewrite hooks_split, Z.add_0_l in Hmem. fold h in Hmem. fold rest in Hmem.
  split.
  - destruct b1 as [|y b1] using rev_ind.
    + exists h, 0. simpl in Hlk. split_and!; [|exact (lk_flink _ _ _ _ _ _ Hlk)| |].
      * rewrite (lk_blink m NULL (hooks nl 0 bb1 ++ [h]) x (b2 ++ rest) NULL) by (by rewrite <- app_assoc).
        by rewrite last_or_app.
      * apply (b_heads _ _ _ _ _ _ _ _ _ R). pose proof (b_len _ _ _ _ _ _ _ _ _ R) as Hl.
        rewrite length_app in Hl. simpl in Hl. lia.
      * apply Forall_cons in Hf as [[? _] _]. lia.
    + clear IHb1. exists y, (nsz cs y).
      assert (E : hooks nl 0 bb1 ++ h :: ((b1 ++ [y]) ++ x :: b2) ++ rest =
                  (hooks nl 0 bb1 ++ h :: b1) ++ y :: x :: b2 ++ rest) by (by simplify_list_eq).
      rewrite E in Hlk, Hmem. split_and!.
      * rewrite (lk_blink m NULL ((hooks nl 0 bb1 ++ h :: b1) ++ [y]) x (b2 ++ rest) NULL) by (by rewrite <- app_assoc).
        by rewrite last_or_app.
      * exact (lk_flink _ _ _ _ _ _ Hlk).
      * apply Hmem. rewrite elem_of_app, elem_of_cons. tauto.
      * rewrite <- app_assoc in Hs. apply StronglySorted_app_r in Hs. inversion Hs as [|? ? _ Hy]; subst.
        by apply Forall_cons in Hy as [? _].
  - exists (hd_or NULL (b2 ++ rest)).
    assert (E : hooks nl 0 bb1 ++ h :: (b1 ++ x :: b2) ++ rest =
                (hooks nl 0 bb1 ++ h :: b1) ++ x :: b2 ++ rest) by (by simplify_list_eq).
    rewrite E in Hlk, Hmem. split; [by eapply lk_flink|].
    assert (Hnext : forall z l, b2 ++ rest = z :: l -> z <> NULL /\ m !! (z + 12) = Some x /\ m !! z = Some (nsz cs z)).
    { intros z l Ez. rewrite Ez in Hlk, Hmem. destruct (Hmem z) as [? ?].
      { rewrite elem_of_app, !elem_of_cons. tauto. }
      split_and!; try done.
      rewrite (lk_blink m NULL ((hooks nl 0 bb1 ++ h :: b1) ++ [x]) z l NULL) by (by rewrite <- app_assoc).
      by rewrite last_or_app. }
    destruct b2 as [|z b2]; simpl in *.
    + destruct rest as [|z rest'] eqn:Er; simpl; [by left|right].
      destruct (Hnext z rest' eq_refl) as (? & ? & ?). split_and!; try done. exists 0. split; [|by left].
      eapply (hooks_head nl hs he G B m0 m cs _ DL bb1 (b1 ++ [x]) bb2 z R eq_refl). fold rest. by rewrite Er.
    + right. destruct (Hnext z (b2 ++ rest) eq_refl) as (? & ? & ?). split_and!; try done. exists (nsz cs z).
      split; [done|]. right. apply StronglySorted_app_r in Hs. inversion Hs as [|? ? _ Hy]; subst.
      by apply Forall_cons in Hy as [? _].
Qed.

Lemma mwp_check_free DEBUG nl hs he B m0 m cs F DL x c s (Q : unit -> gmap Z Z -> Prop) :
  geom nl hs he -> mrep nl hs he B m0 m cs F DL -> x ∈ F -> cs !! x = Some c -> 16 <= csz c ->
  Q tt m -> mwp (check_free DEBUG x) Q s m.
Proof.
  intros G R Hx Hc H16 HQ. pose proof (mrep_size _ _ _ _ _ _ _ _ _ R _ _ Hc) as Hsz.
  destruct (mrep_links nl hs he B m0 m cs F DL x G R Hx) as [(b & k & Hb & Hbf & Hbk & Hk) (f & Hf & Hcase)].
  assert (En : nsz cs x = csz c) by (unfold nsz; by rewrite Hc). rewrite En in *.
  unfold check_free, f_size, f_blink, f_flink, SIZEOF_MM_FREENODE.
  apply mwp_bind, mwp_assert.
  { apply mwp_bind. eapply mwp_rd; [done|]. apply mwp_ret. split; [lia|done]. }
  apply mwp_bind, mwp_assert.
  { apply mwp_bind. eapply mwp_rd; [done|]. apply mwp_bind. eapply mwp_rd; [done|]. apply mwp_ret. split; [lia|done]. }
  apply mwp_bind, mwp_assert.
  { apply mwp_bind. eapply mwp_rd; [done|]. apply mwp_bind. eapply mwp_rd; [done|].
    apply mwp_bind. eapply mwp_rd; [done|]. apply mwp_ret. split; [lia|done]. }
  apply mwp_bind, mwp_assert.
  { apply mwp_bind. eapply mwp_rd; [done|]. destruct (Z.eqb_spec f NULL); [by apply mwp_ret|].
    destruct Hcase as [|(_ & ? & _)]; [done|]. apply mwp_bind. eapply mwp_rd; [done|]. apply mwp_ret. split; [lia|done]. }
  apply mwp_assert; [|done].
  apply mwp_bind. eapply mwp_rd; [done|]. destruct (Z.eqb_spec f NULL); [by apply mwp_ret|].
  destruct Hcase as [|(_ & _ & k' & ? & ?)]; [done|]. apply mwp_bind. eapply mwp_rd; [done|].
  apply mwp_bind. eapply mwp_rd; [done|]. apply mwp_ret. split; [|done]. apply orb_true_iff. lia.
Qed.

Lemma foldr_max a b l : foldr Z.max (Z.max a b) l = Z.max b (foldr Z.max a l).
Proof. induction l as [|x l IH]; simpl; [lia|]. rewrite IH. lia. Qed.

Lemma mwp_mallinfo_loop DEBUG nl hs he (G : geom nl hs he) s B m0 m cs F DL :
  mm_heapend s = he -> mrep nl hs he B m0 m cs F DL -> hinv hs he cs F DL ->
  forall l x prev mx ord uord ford fuel (Q : _ -> gmap Z Z -> Prop),
  path he cs x l -> (length l < fuel)%nat ->
  (prev = NULL \/ exists p, cs !! prev = Some p /\ prev + csz p = x /\ prev <> he) ->
  0 <= uord -> 0 <= ford -> uord + ford + (he - x) < 2 ^ 32 ->
  Q (he, foldr Z.max mx (frees l).*2, ord + Z.of_nat (length (frees l)),
     uord + (he - x - foldr Z.add 0 (frees l).*2), ford + foldr Z.add 0 (frees l).*2) m ->
  mwp (loop fuel (mallinfo_step DEBUG) (x, prev, mx, ord, uord, ford)) Q s m.
Proof.
  intros He R I l. pose proof (l_tile _ _ _ _ _ _ I) as T. pose proof (geom_ends nl hs he G) as GE.
  induction l as [|[y c] l IH]; intros x prev mx ord uord ford fuel Q Hp Hf Hprev Hu Hfo H32 HQ;
    (destruct fuel as [|fuel]; [simpl in Hf; lia|]); apply mwp_loop_step; unfold mallinfo_step;
    apply mwp_bind, mwp_gets; simpl; rewrite He.
  - inversion Hp; subst x. destruct (Z.ltb_spec he he); [lia|]. apply mwp_ret. simpl in HQ.
    replace (uord + (he - he - 0)) with uord in HQ by lia. rewrite !Z.add_0_r in HQ. done.
  - inversion Hp as [|x' c' l' Hc Hne Hl]; subst y c' l'.
    destruct (tile_range hs he GE cs T x c Hc) as [? Hc8].
    pose proof (path_le hs he GE cs T _ _ Hl).
    destruct (Z.ltb_spec x he); [|lia].
    assert (Hpa : mwp (if prev =? NULL then ret true
                       else ps <- rd (f_size prev) ;; pr <- rd (f_preceding x) ;;
                            ret (ps =? Z.land pr (Z.lnot MM_ALLOC_BIT)))
                    (fun b m' => b = true /\ m' = m) s m).
    { destruct (Z.eqb_spec prev NULL); [by apply mwp_ret|]. destruct Hprev as [|(p & Hp' & E & Hpe)]; [done|].
      apply mwp_bind. eapply mwp_rd_size; [done..|]. apply mwp_bind. eapply mwp_rd_prec; [done..|].
      apply mwp_ret. rewrite prec_size by (by eapply mrep_wf).
      rewrite (tile_back hs he GE cs T prev p x c Hp' Hc E Hpe). split; [lia|done]. }
    apply mwp_bind. eapply mwp_is_free; [done..|]. apply mwp_bind. eapply mwp_rd_size; [done..|].
    apply mwp_bind. rewrite frees_cons in HQ. destruct (cal c) eqn:Hca; simpl.
    + apply mwp_assert; [apply mwp_ret; unfold SIZEOF_MM_ALLOCNODE; split; [lia|done]|].
      apply mwp_bind, mwp_assert; [done|]. apply mwp_ret. rewrite wrapu_small by lia.
      eapply IH; try done; simpl in Hf; try lia; [right; by exists c|].
      replace (uord + csz c + (he - (x + csz c) - foldr Z.add 0 (frees l).*2))
        with (uord + (he - x - foldr Z.add 0 (frees l).*2)) by lia. done.
    + assert (HxF : x ∈ F) by (by eapply free_in_F; [apply GE|..]).
      destruct (fr_mid hs he GE _ _ _ _ x I) as [Hxs _]; [by exists c|].
      destruct (mid_chunk nl hs he G cs x c T Hc Hxs Hne) as (_ & ? & _).
      eapply mwp_check_free; try done.
      apply mwp_bind, mwp_assert; [done|]. apply mwp_ret. rewrite wrapu_small by lia.
      eapply IH; try done; simpl in Hf; try lia; [right; by exists c|].
      simpl in HQ. rewrite foldr_max.
      replace (ord + 1 + Z.of_nat (length (frees l))) with (ord + Z.of_nat (S (length (frees l)))) by lia.
      replace (uord + (he - (x + csz c) - foldr Z.add 0 (frees l).*2))
        with (uord + (he - x - (csz c + foldr Z.add 0 (frees l).*2))) by lia.
      replace (ford + csz c + foldr Z.add 0 (frees l).*2) with (ford + (csz c + foldr Z.add 0 (frees l).*2)) by lia.
      done.
Qed.

Lemma heap_mallinfo DEBUG nl c s A Fr D :
  heap_rep nl s A Fr D -> sem_free s -> task c ->
  mm_heapsize s = mm_heapend s + 8 - mm_heapstart s ->
  wp (mm_mallinfo DEBUG c) (fun r s' =>
    s' = s /\ arena r = mm_heapsize s /\ ordblks r = Z.of_nat (size Fr) /\ mxordblk r = largest Fr /\
    fordblks r = total Fr /\ uordblks r = mm_heapsize s - total Fr) s.
Proof.
  intros Hrep Hs Hc Hsz.
  destruct (heap_open nl s A Fr D ∅ Hrep) as (cs & F & DL & G & R & I & _ & _ & _ & _ & HA & HF).
  { intros p n Hp. by rewrite lookup_empty in Hp. }
  set (hs := mm_heapstart s) in *. set (he := mm_heapend s) in *.
  pose proof (l_tile _ _ _ _ _ _ I) as T. pose proof (geom_ends nl hs he G) as GE.
  destruct (path_exists hs he GE cs T hs _ (t_start _ _ _ T)) as [l Hl].
  pose proof (path_nodup hs he GE cs T _ _ Hl) as Hnd.
  assert (Hperm : map_to_list Fr ≡ₚ frees l).
  { apply map_frees; [by apply frees_fst|]. intros x k. rewrite HF, fsz_chunk, elem_frees. split.
    - intros (d & Hd & Hda & <-). exists d. split_and!; try done.
      destruct (fr_mid hs he GE _ _ _ _ x I) as [_ ?]; [by exists d|].
      destruct (tile_range hs he GE cs T x d Hd). eapply (path_all hs he GE); eauto. lia.
    - intros (d & Hin & Hda & <-). destruct (path_low hs he GE cs T _ _ _ _ Hl Hin). by exists d. }
  assert (Et : total Fr = foldr Z.add 0 (frees l).*2).
  { apply foldr_perm; [lia|by rewrite Hperm]. }
  assert (Em : largest Fr = foldr Z.max 0 (frees l).*2).
  { apply foldr_perm; [lia|by rewrite Hperm]. }
  assert (Eo : Z.of_nat (size Fr) = Z.of_nat (length (frees l))).
  { rewrite <- Hperm. by rewrite length_map_to_list. }
  unfold mm_mallinfo. rewrite <- (upm_mem s) at 1. apply wp_bind, (wp_take c s Hs Hc).
  apply wp_bind, wp_gets, wp_bind. simpl. fold hs.
  pose proof (g_size _ _ _ G). pose proof (g_he _ _ _ G).
  assert (Hfuel : (length l <= size (mem s))%nat).
  { rewrite <- (length_map fst). apply NoDup_length_size; [done|].
    intros x ([y d] & -> & Hin)%list_elem_of_fmap. destruct (path_low hs he GE cs T _ _ _ _ Hl Hin) as [_ Hd].
    simpl. rewrite (mrep_size _ _ _ _ _ _ _ _ _ R _ _ Hd). eauto. }
  eapply wp_mwp with (Q := fun r m' => r = (he, largest Fr, Z.of_nat (size Fr), he - hs - total Fr, total Fr) /\ m' = mem s).
  - apply mwp_fuel. eapply (mwp_mallinfo_loop DEBUG nl hs he G (held c s)); try done; [lia|by left|lia|].
    rewrite Et, Em, Eo, !Z.add_0_l. done.
  - intros r m' [-> ->]. apply wp_bind, wp_dassert; [apply wp_gets; simpl; fold he; split; [lia|done]|].
    apply wp_bind, (wp_give DEBUG c s Hs Hc). apply wp_bind, wp_gets. rewrite (upm_mem s).
    pose proof (frees_sum hs he cs hs l GE T Hl) as Hsum. rewrite <- Et in Hsum.
    unfold SIZEOF_MM_ALLOCNODE. rewrite (wrapu_small 32 (he - hs - total Fr + 8)), wrapu_small by lia.
    apply wp_bind, wp_dassert_ret; [lia|]. apply wp_ret. simpl. split_and!; (done || lia).
Qed.

(** ** Every byte of the region is accounted for *)

(** The bytes of the chunks of the blocks [A], headers included. *)
Definition owned (A : gmap Z Z) : Z := foldr Z.add 0 ((fun b => snd b + 8) <$> map_to_list A).

Definition flip (l : list (Z * chunk)) : list (Z * chunk) :=
  (fun b => (b.1, Chunk (csz b.2) (cprev b.2) (negb (cal b.2)))) <$> l.

(** The allocated chunks. *)
Definition useds (l : list (Z * chunk)) : list (Z * Z) := frees (flip l).

Lemma elem_useds l x k : (x, k) ∈ useds l <-> exists c, (x, c) ∈ l /\ cal c = true /\ csz c = k.
Proof.
  unfold useds. rewrite elem_frees. split.
  - intros (c & ([y d] & [= -> ->] & Hin)%list_elem_of_fmap & Ha & <-). simpl in *. exists d.
    by destruct (cal d).
  - intros (c & Hin & Ha & <-). exists (Chunk (csz c) (cprev c) (negb (cal c))). rewrite Ha. split; [|done].
    apply list_elem_of_fmap. exists (x, c). simpl. by rewrite Ha.
Qed.

Lemma useds_fst l : NoDup l.*1 -> NoDup (useds l).*1.
Proof.
  intros H. apply frees_fst. unfold flip. by rewrite <- list_fmap_compose.
Qed.

Lemma path_sum he cs x l : path he cs x l ->
  foldr Z.add 0 (frees l).*2 + foldr Z.add 0 (useds l).*2 = he - x.
Proof.
  induction 1 as [|x c l Hc Hne Hl IH]; [simpl; lia|]. unfold useds, flip in *.
  rewrite fmap_cons, !frees_cons. cbn [fst snd csz cal]. destruct (cal c); cbn [negb]; rewrite fmap_cons; simpl; lia.
Qed.

Lemma heap_account nl s A Fr :
  heap_rep nl s A Fr [] -> mm_heapend s - mm_heapstart s = 8 + owned A + total Fr.
Proof.
  intros (cs & F & DL & G & R & I & HD & _ & HA & HF). symmetry in HD. apply map_eq_nil in HD as ->.
  set (hs := mm_heapstart s) in *. set (he := mm_heapend s) in *.
  pose proof (l_tile _ _ _ _ _ _ I) as T. pose proof (geom_ends nl hs he G) as GE.
  destruct (t_next _ _ _ T hs _ (t_start _ _ _ T)) as (d & Hd & _); [lia|]. simpl in Hd.
  destruct (path_exists hs he GE cs T (hs + 8) d Hd) as [l Hl].
  pose proof (path_nodup hs he GE cs T _ _ Hl) as Hnd.
  assert (HFr : map_to_list Fr ≡ₚ frees l).
  { apply map_frees; [by apply frees_fst|]. intros x k. rewrite HF, fsz_chunk, elem_frees.
    split; intros (c & Hc & Ha & <-); exists c; split_and!; try done.
    - destruct (fr_mid hs he GE _ _ _ _ x I) as [? ?]; [by exists c|].
      destruct (tile_slot hs he GE cs T x c Hc) as [? _]; [done|]. eapply (path_all hs he GE); eauto. lia.
    - by destruct (path_low hs he GE cs T _ _ _ _ Hl Hc). }
  assert (HAl : map_to_list A ≡ₚ (fun b => (b.1 + 8, b.2 - 8)) <$> useds l).
  { apply NoDup_Permutation; [apply NoDup_map_to_list| |].
    - apply NoDup_fmap; [intros [x k] [y k'] [= ? ?]; f_equal; lia|]. by eapply NoDup_fmap_1, useds_fst.
    - intros [p n]. rewrite elem_of_map_to_list, HA, live_Some, asz_chunk, list_elem_of_fmap. split.
      + intros (? & ? & _ & c & Hc & Ha & Hn). exists (p - 8, csz c). split; [simpl; f_equal; lia|].
        apply elem_useds. exists c. split_and!; try done. eapply (path_all hs he GE); eauto.
        destruct (tile_slot hs he GE cs T _ c Hc) as [? _]; [done|]. lia.
      + intros ([x k] & [= -> ->] & (c & Hin & Ha & <-)%elem_useds).
        destruct (path_low hs he GE cs T _ _ _ _ Hl Hin) as [? Hc].
        replace (x + 8 - 8) with x by lia. split_and!; [lia|lia|apply not_elem_of_nil|].
        exists c. split_and!; try done. lia. }
  pose proof (path_sum he cs _ l Hl) as Hsum.
  assert (Et : total Fr = foldr Z.add 0 (frees l).*2) by (apply foldr_perm; [lia|by rewrite HFr]).
  assert (Eo : owned A = foldr Z.add 0 (useds l).*2).
  { unfold owned. erewrite (foldr_perm Z.add _ (_ <$> (_ <$> useds l))); [|lia|by rewrite HAl].
    rewrite <- list_fmap_compose. f_equal. apply list_fmap_ext. intros _ [x k] _. simpl. lia. }
  lia.
Qed.

(** When no block is left, the heap is one free chunk again. *)
Lemma heap_empty nl s Fr : heap_rep nl s ∅ Fr [] -> mm_heapstart s + 24 <= mm_heapend s ->
  Fr = {[ mm_heapstart s + 8 := mm_heapend s - mm_heapstart s - 8 ]}.
Proof.
  intros (cs & F & DL & G & R & I & HD & _ & HA & HF) Hroom. symmetry in HD. apply map_eq_nil in HD as ->.
  set (hs := mm_heapstart s) in *. set (he := mm_heapend s) in *.
  pose proof (l_tile _ _ _ _ _ _ I) as T. pose proof (geom_ends nl hs he G) as GE.
  assert (Hfr : forall x, is_Some (cs !! x) -> x <> hs -> x <> he -> fr cs x).
  { intros x [c Hc] ? ?. exists c. split; [done|]. destruct (cal c) eqn:Ha; [|done].
    assert (Hl : live hs he cs [] (x + 8) = Some (csz c - 8)).
    { apply live_Some. replace (x + 8 - 8) with x by lia. split_and!; [done..|apply not_elem_of_nil|].
      apply asz_chunk. exists c. split_and!; [done..|lia]. }
    by rewrite <- HA, lookup_empty in Hl. }
  destruct (t_next _ _ _ T hs _ (t_start _ _ _ T)) as (d & Hd & _); [lia|]. simpl in Hd.
  destruct (t_next _ _ _ T (hs + 8) d Hd) as (e & He & _); [lia|].
  assert (Ee : hs + 8 + csz d = he).
  { destruct (decide (hs + 8 + csz d = he)) as [|Hne]; [done|].
    destruct (tile_range hs he GE cs T _ d Hd).
    destruct (l_coal _ _ _ _ _ _ I (hs + 8) (hs + 8 + csz d)); [|apply Hfr; [eauto|lia..]..|done|done].
    by exists d, e. }
  destruct (Hfr (hs + 8)) as (d' & Hd' & Ha); [eauto|lia..|].
  rewrite Hd in Hd'. injection Hd' as <-.
  apply map_eq. intros x. rewrite HF. apply option_eq. intros k. rewrite fsz_chunk, lookup_singleton_Some. split.
  - intros (c & Hc & Hca & <-). destruct (fr_mid hs he GE _ _ _ _ x I) as [? ?]; [by exists c|].
    destruct (tile_slot hs he GE cs T x c Hc) as [? _]; [done|].
    assert (x = hs + 8) as ->.
    { destruct (decide (x = hs + 8)); [done|]. pose proof (tile_disjoint hs he GE cs T (hs + 8) d x c Hd Hc). lia. }
    rewrite Hd in Hc. injection Hc as <-. split; [done|lia].
  - intros [<- <-]. exists d. split_and!; try done. lia.
Qed.
