(* ===== verification/HeapInit.v ===== *)
(** HeapInit: the heap is set up by [mm_initialize] and grows by [mm_extend]. *)

From stdpp Require Import options.
From Stdlib Require Import Sorting.Sorted.
From S2P Require Import Prelude Heap HeapRep HeapInv HeapOps HeapSys HeapTop.

#[local] Ltac Zify.zify_post_hook ::= Z.to_euclidean_division_equations.

Lemma wp_wr_mem s m a v (Q : unit -> mm_heap_s -> Prop) :
  is_Some (m !! a) -> Q tt (upm (<[a := v]> m) s) -> wp (wr a v) Q (upm m s).
Proof.
  intros Ha HQ. eapply wp_mwp with (Q := fun _ m' => m' = <[a := v]> m); [by apply mwp_wr|by intros [] ? ->].
Qed.

(** * The hooks of the free list *)

(** The hooks, of which the first [i] are linked. *)
Definition hooked (nl i : Z) (m : gmap Z Z) : Prop :=
  forall k, 0 <= k < 19 ->
    m !! (nl + 16 * k) = Some 0 /\
    m !! (nl + 16 * k + 8) = Some (if decide (k + 1 < i) then nl + 16 * (k + 1) else NULL) /\
    m !! (nl + 16 * k + 12) = Some (if decide (0 < k < i) then nl + 16 * (k - 1) else NULL).

Lemma mwp_link_nodes nl s n : forall i m (Q : unit -> gmap Z Z -> Prop),
  0 < i -> i + Z.of_nat n = 19 -> hooked nl i m ->
  (forall m', hooked nl 19 m' -> (forall a, is_Some (m !! a) -> is_Some (m' !! a)) -> Q tt m') ->
  mwp (link_nodes nl i n) Q s m.
Proof.
  induction n as [|n IH]; intros i m Q Hi Hn Hh HQ; simpl.
  { apply mwp_ret. replace i with 19 in * by lia. by apply HQ. }
  unfold f_flink, f_blink, nodelist, SIZEOF_MM_FREENODE.
  apply mwp_bind, mwp_wr; [destruct (Hh (i - 1)) as (_ & E & _); [lia|eauto]|].
  apply mwp_bind, mwp_wr; [apply some_insert; destruct (Hh i) as (_ & _ & E); [lia|eauto]|].
  apply IH; [lia|lia| |].
  - intros k Hk. destruct (Hh k Hk) as (E1 & E2 & E3).
    rewrite !lookup_insert, E1, E2, E3. split_and!; repeat case_decide; (lia || done || f_equal; lia).
  - intros m' Hm' Hsome. apply HQ; [done|]. intros a Ha. by apply Hsome, some_insert, some_insert.
Qed.

Lemma hooks_linked nl m n : hooked nl 19 m -> forall k p, 0 <= k -> k + Z.of_nat n = 19 ->
  p = (if decide (0 < k) then nl + 16 * (k - 1) else NULL) ->
  lk m p (hooks nl k (replicate n [])) NULL.
Proof.
  intros Hh. induction n as [|n IH]; intros k p Hk Hn ->; simpl; [done|].
  unfold nodelist, SIZEOF_MM_FREENODE. destruct (Hh k) as (_ & E2 & E3); [lia|]. split_and!.
  - rewrite E2. f_equal. clear E2 E3 IH. destruct n; case_decide; simpl; (lia || done).
  - rewrite E3. f_equal. clear E2 E3. repeat case_decide; lia.
  - clear E2 E3. apply IH; [lia..|]. case_decide; lia.
Qed.

(** * The first free chunk *)

(** The chunks of an empty heap. *)
Definition chunks0 (hs he : Z) : chunks :=
  {[ hs := Chunk 8 0 true; hs + 8 := Chunk (he - hs - 8) 8 false; he := Chunk 8 (he - hs - 8) true ]}.

Section Init.
Context (DEBUG : bool) (nl hs he : Z) (G : geom nl hs he) (Hroom : hs + 24 <= he).

Lemma chunks0_elem x c : chunks0 hs he !! x = Some c <->
  x = hs /\ c = Chunk 8 0 true \/ x = hs + 8 /\ c = Chunk (he - hs - 8) 8 false \/
  x = he /\ c = Chunk 8 (he - hs - 8) true.
Proof using G Hroom.
  unfold chunks0. rewrite !lookup_insert_Some, lookup_singleton_Some. split; [naive_solver|].
  intros [[-> ->]|[[-> ->]|[-> ->]]]; [by left|right; split; [lia|by left]|].
  right. split; [lia|]. right. split; [lia|done].
Qed.

Lemma tile0 : tile hs he (chunks0 hs he).
Proof using G Hroom.
  destruct G as [[? ?] [? ?] ? ? _ _]. split.
  - apply chunks0_elem. tauto.
  - exists (he - hs - 8). apply chunks0_elem. tauto.
  - intros x c [[-> ->]|[[-> ->]|[-> ->]]]%chunks0_elem Hx; simpl.
    + exists (Chunk (he - hs - 8) 8 false). split; [apply chunks0_elem; tauto|done].
    + exists (Chunk 8 (he - hs - 8) true). split; [|done].
      replace (hs + 8 + (he - hs - 8)) with he by lia. apply chunks0_elem. tauto.
    + done.
  - intros x c [[-> ->]|[[-> ->]|[-> ->]]]%chunks0_elem Hx; simpl; [done| |].
    + exists (Chunk 8 0 true). split; [|done]. replace (hs + 8 - 8) with hs by lia. apply chunks0_elem. tauto.
    + exists (Chunk (he - hs - 8) 8 false). split; [|done].
      replace (he - (he - hs - 8)) with (hs + 8) by lia. apply chunks0_elem. tauto.
  - intros x c [[-> ->]|[[-> ->]|[-> ->]]]%chunks0_elem ? ?; simpl; [done| |done].
    unfold hslot. lia.
Qed.

Lemma fr0 x : fr (chunks0 hs he) x <-> x = hs + 8.
Proof using G Hroom.
  split.
  - intros (c & [[-> ->]|[[-> ->]|[-> ->]]]%chunks0_elem & Ha); done.
  - intros ->. exists (Chunk (he - hs - 8) 8 false). split; [apply chunks0_elem; tauto|done].
Qed.

Lemma hinv0 : hinv hs he (chunks0 hs he) {[hs + 8]} [].
Proof using G Hroom.
  split; [apply tile0| |done| |constructor|intros x Hx; by apply not_elem_of_nil in Hx].
  - intros x. rewrite fr0. set_solver.
  - intros x y (c & d & Hc & _ & ->) ->%fr0 Hy%fr0. apply chunks0_elem in Hc as [[? _]|[[_ ->]|[? _]]];
      [lia| |lia]. simpl in Hy. lia.
Qed.

Lemma mrep0 m : (forall a, reg nl hs he a -> is_Some (m !! a)) -> hooked nl 19 m ->
  (forall x c, chunks0 hs he !! x = Some c -> m !! x = Some (csz c) /\ m !! (x + 4) = Some (prec c)) ->
  mrep nl hs he ∅ m m (chunks0 hs he) ∅ [].
Proof using G Hroom.
  intros Hreg Hh Hhdr. exists (replicate 19 []).
  assert (Hin : forall a, ~ inside ∅ a) by (intros a (p & k & Hp & _); by rewrite lookup_empty in Hp).
  split; [|intros x; change (concat _) with (@nil Z); set_solver]. split; try done.
  - intros x c Hc. split_and!; [|auto..|].
    + destruct (decide (x = hs)) as [->|]; [by left|right].
      eapply tile_slot; [by eapply geom_ends|apply tile0|done..].
    + eapply tile_wf; [by eapply geom_ends|apply tile0|apply (g_size _ _ _ G)|done].
  - by eapply hooks_linked.
  - by apply NoDup_nil.
  - intros i b Hb. apply lookup_replicate in Hb as [-> _]. split; constructor.
  - intros x Hx. by apply not_elem_of_nil in Hx.
  - intros i Hi. by apply Hh.
  - intros x Hx. by apply not_elem_of_nil in Hx.
Qed.

(** Memory with the headers that [mm_addregion] writes. *)
Definition headers (m : gmap Z Z) : gmap Z Z :=
  <[he + 4 := he - hs - 8 + MM_ALLOC_BIT]> (<[he := 8]> (<[hs + 8 + 4 := 8]>
    (<[hs + 8 := he - hs - 8]> (<[hs + 4 := MM_ALLOC_BIT]> (<[hs := 8]> m))))).

Lemma mwp_first_chunk s m (Q : unit -> gmap Z Z -> Prop) :
  (forall a, reg nl hs he a -> is_Some (m !! a)) -> hooked nl 19 m ->
  (forall m', mrep nl hs he ∅ m' m' (chunks0 hs he) {[hs + 8]} [] -> Q tt m') ->
  mwp (mm_addfreechunk DEBUG nl (hs + 8)) Q s (headers m).
Proof using All.
  intros Hreg Hh HQ. pose proof G as [[? ?] [? ?] ? ? [? ?] ?].
  assert (R : mrep nl hs he ∅ (headers m) (headers m) (chunks0 hs he) ∅ []).
  { apply mrep0; unfold headers.
    - intros a Ha. repeat apply some_insert. auto.
    - intros k Hk. rewrite !lookup_insert_ne by lia. by apply Hh.
    - intros x c [[-> ->]|[[-> ->]|[-> ->]]]%chunks0_elem; unfold prec; simpl;
        rewrite !lookup_insert; split; repeat case_decide; (done || lia). }
  assert (Hin : forall a, ~ inside ∅ a) by (intros a (p & k & Hp & _); by rewrite lookup_empty in Hp).
  apply (mwp_addfree nl hs he G ∅ (headers m) DEBUG s (headers m) (chunks0 hs he) ∅ [] (hs + 8)
           (Chunk (he - hs - 8) 8 false));
    try done; [apply chunks0_elem; [done..|tauto]|simpl; lia|apply not_elem_of_nil|lia|lia|].
  intros m' R'. apply HQ. rewrite union_empty_r_L in R'. eapply mrep_rebase; try done. by apply hinv0.
Qed.
End Init.

(** [MM_ALIGN_DOWN]. *)
Lemma align_down a : 0 <= a -> MM_ALIGN_DOWN a = a / 16 * 16.
Proof.
  intros. unfold MM_ALIGN_DOWN. change MM_GRAN_MASK with (Z.ones 4).
  rewrite <- Z.ldiff_land, Z.ldiff_ones_r by lia.
  by rewrite Z.shiftl_mul_pow2, Z.shiftr_div_pow2 by lia.
Qed.

Definition region_start (a : Z) : Z := (a + 15) / 16 * 16.
Definition region_end (a n : Z) : Z := (a + n) / 16 * 16 - 8.

Lemma heap_init DEBUG nl s a n :
  let hs := region_start a in
  let he := region_end a n in
  0 < a -> 0 <= n -> a + n < 2 ^ 32 -> geom nl hs he -> hs + 24 <= he ->
  (forall x, reg nl hs he x -> is_Some (mem s !! x)) ->
  wp (mm_initialize DEBUG nl a n) (fun _ s' =>
    sem_free s' /\ mm_heapstart s' = hs /\ mm_heapend s' = he /\ mm_heapsize s' = he + 8 - hs /\
    heap_rep nl s' ∅ {[hs + 8 := he - hs - 8]} []) s.
Proof.
  intros hs he Ha Hn H32 G Hroom Hreg. pose proof G as [[? ?] [? ?] ? ? [? ?] ?].
  assert (hs = (a + 15) / 16 * 16 /\ he = (a + n) / 16 * 16 - 8) as [Ehs Ehe] by done.
  unfold mm_initialize. do 4 (apply wp_bind, wp_dassert_ret; [done|]).
  do 2 apply wp_bind, wp_modify. set (s1 := set_delaylist _ _). rewrite <- (upm_mem s1).
  change (mem s1) with (mem s). apply wp_bind.
  assert (Hnl : forall i, 0 <= i < 76 -> is_Some (mem s !! (nl + 4 * i))).
  { intros i Hi. apply Hreg. unfold reg. lia. }
  eapply wp_mwp with (Q := fun _ m => hooked nl 1 m /\ forall x, is_Some (mem s !! x) -> is_Some (m !! x)).
  { apply mwp_memset0; [intros i Hi; apply Hnl; change (words _) with 76%nat in Hi; lia|].
    change (Z.of_nat (words _)) with 76. intros m' Hz _ Hsome. split; [|done].
    intros k Hk. rewrite !decide_False by lia.
    pose proof (Hz (4 * k)) as E1. pose proof (Hz (4 * k + 2)) as E2. pose proof (Hz (4 * k + 3)) as E3.
    replace (nl + 4 * (4 * k)) with (nl + 16 * k) in E1 by lia.
    replace (nl + 4 * (4 * k + 2)) with (nl + 16 * k + 8) in E2 by lia.
    replace (nl + 4 * (4 * k + 3)) with (nl + 16 * k + 12) in E3 by lia.
    split_and!; [apply E1|apply E2|apply E3]; lia. }
  intros _ m1 [Hh1 Hs1]. apply wp_bind.
  eapply wp_mwp with (Q := fun _ m => hooked nl 19 m /\ forall x, reg nl hs he x -> is_Some (m !! x)).
  { apply mwp_link_nodes; [lia|done|done|]. intros m' Hh Hsome. split; [done|]. auto. }
  intros _ m2 [Hh2 Hs2]. apply wp_bind, wp_modify. unfold mm_addregion.
  rewrite MM_ALIGN_UP_small, (wrapu_small 32 (a + n)), align_down by lia.
  fold (region_start a). fold hs. unfold SIZEOF_MM_ALLOCNODE. fold (region_end a n). fold he.
  do 2 apply wp_bind, wp_modify.
  rewrite (wrapu_small 32 ((a + n) / 16 * 16 - hs)), !wrapu_small by (simpl; lia).
  replace ((a + n) / 16 * 16 - hs - 2 * 8) with (he - hs - 8) by lia.
  set (s2 := set_heapstart hs (set_heapsize ((a + n) / 16 * 16 - hs) (set_sem 1 NO_HOLDER 0 s1))).
  change (set_heapstart _ _) with (upm m2 s2).
  assert (Hw : forall x, x mod 4 = 0 -> hs <= x < he + 8 -> is_Some (m2 !! x)).
  { intros x ? ?. apply Hs2. unfold reg. lia. }
  unfold f_size, f_preceding.
  do 4 (apply wp_bind, wp_wr_mem; [repeat apply some_insert; apply Hw; lia|]).
  apply wp_bind, wp_modify. set (s3 := set_heapend he s2).
  match goal with |- wp _ _ (set_heapend he (upm ?m s2)) => change (set_heapend he (upm m s2)) with (upm m s3) end.
  apply wp_bind, wp_wr_mem; [repeat apply some_insert; apply Hw; lia|].
  apply wp_bind. eapply wp_getso.
  { simpl. rewrite !lookup_insert_ne by lia. by rewrite lookup_insert_eq. }
  apply wp_bind, wp_wr_mem; [repeat apply some_insert; apply Hw; lia|].
  rewrite (proj2 (bit31 (he - hs - 8) ltac:(lia))). fold (headers hs he m2).
  eapply wp_mwp with (Q := fun _ m => mrep nl hs he ∅ m m (chunks0 hs he) {[hs + 8]} []);
    [by apply (mwp_first_chunk DEBUG nl hs he G Hroom s3 m2 _ Hs2 Hh2)|].
  intros _ m3 R. split_and!; [done..|simpl; lia|].
  exists (chunks0 hs he), {[hs + 8]}, []. split_and!; try done; [by apply (hinv0 nl)| |].
  - intros p. rewrite lookup_empty. symmetry. apply eq_None_not_Some. intros [k Hk].
    apply live_Some in Hk as (? & ? & _ & (c & Hc & Hca & _)%asz_chunk).
    apply (chunks0_elem nl) in Hc as [[? _]|[[_ ->]|[? _]]]; done.
  - intros x. apply option_eq. intros k. rewrite lookup_singleton_Some, fsz_chunk. split.
    + intros [<- <-]. exists (Chunk (he - hs - 8) 8 false). split; [apply (chunks0_elem nl); tauto|done].
    + intros (c & Hc & Hca & <-). by apply (chunks0_elem nl) in Hc as [[_ ->]|[[-> ->]|[_ ->]]].
Qed.

(** * A larger region *)

Section Extend.
Context (nl hs he k : Z) (G : geom nl hs he) (G' : geom nl hs (he + k)).
Context (Hk : 16 <= k /\ k mod 16 = 0).
Context (m : gmap Z Z) (cs : chunks) (F : gset Z) (DL : list ptr) (q : Z).
Context (R : mrep nl hs he ∅ m m cs F DL) (I : hinv hs he cs F DL).
Context (Hend : cs !! he = Some (Chunk 8 q true)).

(** The old last node becomes a chunk of [k] bytes, the new one is behind it. *)
Definition grown : chunks := <[he + k := Chunk 8 k true]> (<[he := Chunk k q true]> cs).

Lemma beyond_None x : he < x -> cs !! x = None.
Proof using All.
  intros Hx. apply eq_None_not_Some. intros [c Hc].
  destruct (tile_range _ _ (geom_ends _ _ _ G) cs (l_tile _ _ _ _ _ _ I) x c Hc). lia.
Qed.

Lemma grown_Some x c : grown !! x = Some c <->
  x = he + k /\ c = Chunk 8 k true \/ x = he /\ c = Chunk k q true \/
  (x < he /\ cs !! x = Some c).
Proof using All.
  unfold grown. rewrite !lookup_insert_Some. split.
  - intros [[? ?]|[? [[? ?]|[? Hc]]]]; [left|right; left|right; right]; [done..|].
    destruct (tile_range _ _ (geom_ends _ _ _ G) cs (l_tile _ _ _ _ _ _ I) x c Hc). split; [lia|done].
  - intros [[-> ->]|[[-> ->]|[? Hc]]]; [by left|right; split; [lia|by left]|].
    right. split; [lia|]. right. split; [lia|done].
Qed.

Lemma grown_same x : x < he -> grown !! x = cs !! x.
Proof using All. intros. unfold grown. rewrite !lookup_insert_ne by lia. done. Qed.

Lemma tile_slot_lt x c : x < he -> cs !! x = Some c -> x + 8 <= he.
Proof using All.
  intros Hx Hc. pose proof (l_tile _ _ _ _ _ _ I) as T. pose proof (geom_ends _ _ _ G) as GE.
  destruct (tile_range _ _ GE cs T x c Hc). pose proof (tile_lt _ _ GE cs T x c Hc ltac:(lia)). lia.
Qed.

Lemma tile_grown : tile hs (he + k) grown.
Proof using All.
  destruct (l_tile _ _ _ _ _ _ I) as [Ts Te Tn Tp Tm]. pose proof (g_hs _ _ _ G). pose proof (g_he _ _ _ G).
  pose proof (l_tile _ _ _ _ _ _ I) as T. pose proof (geom_ends _ _ _ G) as GE. split.
  - rewrite grown_same by lia. done.
  - exists k. apply grown_Some. by left.
  - intros x c [[-> ->]|[[-> ->]|[Hx Hc]]]%grown_Some Hne; simpl; [done| |].
    + exists (Chunk 8 k true). split; [apply grown_Some; by left|done].
    + destruct (Tn x c Hc ltac:(lia)) as (d & Hd & Hdp).
      destruct (decide (x + csz c = he)) as [E|].
      * exists (Chunk k q true). split; [rewrite E; apply grown_Some; by right; left|].
        rewrite E, Hend in Hd. by injection Hd as <-.
      * exists d. split; [|done]. apply grown_Some. right. right.
        destruct (tile_range _ _ GE cs T _ d Hd). split; [lia|done].
  - intros x c [[-> ->]|[[-> ->]|[Hx Hc]]]%grown_Some Hne; simpl.
    + exists (Chunk k q true). replace (he + k - k) with he by lia. split; [apply grown_Some; by right; left|done].
    + destruct (Tp he _ Hend ltac:(lia)) as (d & Hd & Hds). simpl in *. exists d. split; [|done].
      destruct (tile_range _ _ GE cs T _ d Hd). rewrite grown_same by lia. done.
    + destruct (Tp x c Hc Hne) as (d & Hd & Hds). exists d. split; [|done].
      destruct (tile_range _ _ GE cs T _ d Hd). rewrite grown_same by lia. done.
  - intros x c [[-> ->]|[[-> ->]|[Hx Hc]]]%grown_Some Hxs Hxe; simpl; [done| |].
    + unfold hslot. lia.
    + destruct (Tm x c Hc Hxs ltac:(lia)) as ([? ?] & ? & ?). unfold hslot. lia.
Qed.

Lemma fr_grown x : fr grown x <-> fr cs x.
Proof using All.
  split; intros (c & Hc & Ha).
  - apply grown_Some in Hc as [[-> ->]|[[-> ->]|[Hx Hc]]]; [done..|]. by exists c.
  - destruct (fr_mid _ _ (geom_ends _ _ _ G) _ _ _ _ x I) as [_ ?]; [by exists c|].
    destruct (tile_range _ _ (geom_ends _ _ _ G) cs (l_tile _ _ _ _ _ _ I) x c Hc).
    exists c. rewrite grown_same by lia. done.
Qed.

Lemma hinv_grown : hinv hs (he + k) grown F DL.
Proof using All.
  pose proof I as [T Hf Hl Hc Hnd Hd]. pose proof (geom_ends _ _ _ G) as GE.
  split; [apply tile_grown| |done| |done|].
  - intros x. rewrite fr_grown. apply Hf.
  - intros x y (c & d & Hx & Hy & ->) Hfx Hfy. rewrite fr_grown in Hfx, Hfy. apply Hc; [|done..].
    destruct Hfx as (c' & Hx' & _), Hfy as (d' & Hy' & _). exists c', d'. split_and!; try done.
    pose proof (tile_range _ _ GE cs T x c' Hx').
    destruct (decide (x = he)) as [->|]; [rewrite (beyond_None (he + csz c)) in Hy'; [done|]|].
    + apply grown_Some in Hx as [[? _]|[[_ ->]|[? _]]]; simpl; lia.
    + rewrite grown_same in Hx by lia. congruence.
  - intros x Hx. destruct (Hd x Hx) as (? & ? & c & Hc' & Ha).
    pose proof (tile_range _ _ GE cs T x c Hc'). split_and!; [done|lia|].
    exists c. rewrite grown_same by lia. done.
Qed.

Lemma mrep_grown m' : (forall a, reg nl hs (he + k) a -> is_Some (m !! a)) ->
  m' = <[he + k + 4 := k + MM_ALLOC_BIT]> (<[he + k := 8]> (<[he := k]> m)) ->
  mrep nl hs (he + k) ∅ m' m' grown F DL.
Proof using All.
  intros Hreg ->. destruct R as (bks & Rb & HF). exists bks. split; [|done].
  assert (Hin : forall a, ~ inside ∅ a) by (intros a (p & v & Hp & _); by rewrite lookup_empty in Hp).
  assert (Hlt : forall x, is_Some (cs !! x) -> x <= he).
  { intros x [c Hc]. by apply (tile_range _ _ (geom_ends _ _ _ G) cs (l_tile _ _ _ _ _ _ I) x c Hc). }
  assert (Hsame : forall a, a < he \/ he + k + 8 <= a ->
            (<[he + k + 4 := k + MM_ALLOC_BIT]> (<[he + k := 8]> (<[he := k]> m))) !! a = m !! a).
  { intros a Ha. by rewrite !lookup_insert_ne by lia. }
  assert (Hwd : forall x o, wd nl hs he x o -> 8 <= o -> x + o < he \/ he + k + 8 <= x + o).
  { pose proof (g_he _ _ _ G). intros x o [Ho [[[? ?] ?]|[(i & ? & ->)|[-> ?]]]] ?; [lia| |lia]. pose proof (g_out _ _ _ G'). lia. }
  assert (Hns : forall x, x ∈ concat bks -> nsz grown x = nsz cs x).
  { intros x Hx. unfold nsz. destruct (b_in _ _ _ _ _ _ _ _ _ Rb x Hx) as (? & ? & ? & _).
    by rewrite grown_same by lia. }
  split.
  - intros a Ha. repeat apply some_insert. auto.
  - intros x c [[-> ->]|[[-> ->]|[Hx Hc]]]%grown_Some; unfold prec; simpl.
    + rewrite !lookup_insert. split; repeat case_decide; (done || lia).
    + rewrite !lookup_insert_ne by lia. rewrite lookup_insert_eq. split; [done|].
      rewrite !lookup_insert_ne by lia. by apply (b_hdr _ _ _ _ _ _ _ _ _ Rb _ _ Hend).
    + rewrite !Hsame; [by apply (b_hdr _ _ _ _ _ _ _ _ _ Rb)| |lia].
      pose proof (tile_slot_lt x c Hx Hc). lia.
  - intros x c Hc. split_and!; [|apply Hin..|].
    + destruct (decide (x = hs)) as [->|]; [by left|right].
      eapply tile_slot; [by eapply geom_ends|apply tile_grown|done..].
    + eapply tile_wf; [by eapply geom_ends|apply tile_grown|apply (g_size _ _ _ G')|done].
  - eapply lk_frame; [|apply (b_lk _ _ _ _ _ _ _ _ _ Rb)]. intros x Hx.
    rewrite !Hsame; [done|..]; apply Hwd; try lia; eapply brep_link_wd; eauto.
  - apply (b_len _ _ _ _ _ _ _ _ _ Rb).
  - apply (b_nd _ _ _ _ _ _ _ _ _ Rb).
  - intros i b Hb. eapply bucket_ok_ext; [|by apply (b_bk _ _ _ _ _ _ _ _ _ Rb)].
    intros x Hx. apply Hns. by eapply elem_concat.
  - intros x Hx. destruct (b_in _ _ _ _ _ _ _ _ _ Rb x Hx) as (? & ? & ? & ? & ?).
    rewrite grown_same by done. split_and!; (done || lia).
  - intros i Hi. unfold nodelist, SIZEOF_MM_FREENODE. pose proof (g_out _ _ _ G'). pose proof (g_he _ _ _ G).
    rewrite Hsame by lia. by apply (b_heads _ _ _ _ _ _ _ _ _ Rb).
  - intros a _. apply Hin.
  - eapply dlk_frame; [|apply (b_dl _ _ _ _ _ _ _ _ _ Rb)]. intros x Hx.
    apply Hsame, Hwd; [|lia]. by eapply brep_dl_wd.
  - intros x Hx. destruct (b_din _ _ _ _ _ _ _ _ _ Rb x Hx) as (? & ? & ? & ?).
    rewrite grown_same by done. split_and!; (done || lia).
  - done.
Qed.

Lemma fsz_grown x : fsz cs x = fsz grown x.
Proof using All.
  apply option_eq. intros v. rewrite !fsz_chunk. split; intros (c & Hc & Ha & <-).
  - destruct (fr_mid _ _ (geom_ends _ _ _ G) _ _ _ _ x I) as [_ ?]; [by exists c|].
    destruct (tile_range _ _ (geom_ends _ _ _ G) cs (l_tile _ _ _ _ _ _ I) x c Hc).
    exists c. by rewrite grown_same by lia.
  - apply grown_Some in Hc as [[-> ->]|[[-> ->]|[Hx Hc]]]; [done..|]. by exists c.
Qed.

Lemma live_grown (A : gmap Z Z) : (forall p, A !! p = live hs he cs DL p) ->
  forall p, <[he + 8 := k - 8]> A !! p = live hs (he + k) grown DL p.
Proof using All.
  intros HA p. pose proof (g_he _ _ _ G). apply option_eq. intros n. rewrite live_Some, asz_chunk.
  rewrite lookup_insert_Some, HA, live_Some, asz_chunk. split.
  - intros [[<- <-]|(? & ? & ? & ? & c & Hc & Ha & Hn)].
    + replace (he + 8 - 8) with he by lia. split_and!; [lia|lia|by intros (_ & ? & _)%(l_dl _ _ _ _ _ _ I)|].
      exists (Chunk k q true). split; [apply grown_Some; by right; left|]. simpl. split; [done|lia].
    + destruct (tile_range _ _ (geom_ends _ _ _ G) cs (l_tile _ _ _ _ _ _ I) _ c Hc).
      split_and!; [done|lia|done|]. exists c. by rewrite grown_same by lia.
  - intros (? & ? & ? & c & [[? ?]|[[? ->]|[? Hc]]]%grown_Some & Ha & Hn); [done| |].
    + left. simpl in Hn. lia.
    + right. split; [lia|]. split_and!; [done|lia|done|]. by exists c.
Qed.
End Extend.

Lemma heap_extend DEBUG nl c s A Fr D k :
  let hs := mm_heapstart s in
  let he := mm_heapend s in
  heap_rep nl s A Fr D -> sem_free s -> task c ->
  16 <= k -> k mod 16 = 0 -> geom nl hs (he + k) ->
  (forall a, reg nl hs (he + k) a -> is_Some (mem s !! a)) ->
  wp (mm_extend DEBUG nl c (he + 8) k 0) (fun _ s' =>
    sem_free s' /\ kept A (mem s) (mem s') /\
    mm_heapsize s' = mm_heapsize s /\ mm_heapstart s' = hs /\ mm_heapend s' = he + k /\
    exists lo, merged Fr he k lo (he + k) /\ heap_rep nl s' A (<[lo := he + k - lo]> Fr) D) s.
Proof.
  intros hs he (cs & F & DL & G & R & I & HD & Hdl & HA & HF) Hs Hc Hk Hkm G' Hreg. fold hs he in G, R, I, HA.
  pose proof (l_tile _ _ _ _ _ _ I) as T. destruct (t_end _ _ _ T) as [q Hq].
  pose proof (g_hs _ _ _ G). pose proof (g_he _ _ _ G). pose proof (g_size _ _ _ G'). pose proof (g_top _ _ _ G').
  unfold mm_extend, MIN_EXTEND, SIZEOF_MM_ALLOCNODE. apply wp_bind, wp_dassert_ret; [unfold NULL; lia|].
  apply wp_bind, wp_dassert_ret; [lia|].
  apply wp_bind, wp_dassert_ret; [rewrite MM_ALIGN_UP_small by lia; lia|].
  apply wp_bind, wp_dassert_ret; [rewrite align_down by lia; lia|].
  rewrite <- (upm_mem s) at 1. apply wp_bind, (wp_take c s Hs Hc). apply wp_bind, wp_gets. simpl. fold he.
  apply wp_bind, wp_dassert_ret; [lia|].
  replace (he + 8 + k - 8) with (he + k) by lia.
  assert (Hr : forall a, a mod 4 = 0 -> hs <= a < he + k + 8 -> is_Some (mem s !! a)).
  { intros a Ha Hb. apply Hreg. unfold reg. lia. }
  apply wp_bind, wp_wr_mem; [apply Hr; unfold f_size; lia|].
  assert (Hp4 : mem s !! (he + 4) = Some (prec (Chunk 8 q true))) by (by eapply mrep_prec).
  apply wp_bind, wp_dassert.
  { apply wp_bind, wp_bind. eapply wp_getso; [simpl; unfold f_preceding, f_size; rewrite lookup_insert_ne by lia; exact Hp4|].
    apply wp_ret, wp_ret. rewrite prec_free; [done|]. by eapply mrep_wf. }
  apply wp_bind, wp_wr_mem; [apply some_insert, Hr; unfold f_size; lia|].
  apply wp_bind. eapply wp_getso.
  { simpl. unfold f_size. rewrite lookup_insert_ne by lia. by rewrite lookup_insert_eq. }
  apply wp_bind, wp_wr_mem; [repeat apply some_insert; apply Hr; unfold f_preceding; lia|].
  rewrite (proj2 (bit31 k ltac:(lia))). unfold f_size, f_preceding. set (m' := <[he + k + 4 := _]> _).
  apply wp_bind, wp_modify. set (s1 := set_heapend (he + k) s).
  change (set_heapend _ _) with (upm m' (held c s1)). apply wp_bind, (wp_give DEBUG c s1 Hs Hc).
  set (A1 := <[he + 8 := k - 8]> A).
  assert (Hout : forall p n, A !! p = Some n -> p + n <= he).
  { intros p n. rewrite HA, live_Some. intros (? & ? & _ & (d & Hd & _ & ?)%asz_chunk).
    pose proof (tile_lt _ _ (geom_ends _ _ _ G) cs T _ _ Hd ltac:(lia)). lia. }
  assert (HA1 : A1 !! (he + 8) = Some (k - 8)) by apply lookup_insert_eq.
  assert (HAn : A !! (he + 8) = None).
  { rewrite HA. unfold live. rewrite decide_True; [done|]. right. left. lia. }
  assert (Hrep1 : heap_rep nl (upm m' s1) A1 Fr D).
  { exists (grown he k cs q), F, DL. split_and!; try done.
    - by eapply mrep_grown.
    - by eapply hinv_grown.
    - intros p. by eapply live_grown.
    - intros x. rewrite HF. by eapply fsz_grown. }
  eapply wp_mono; [exact (heap_free DEBUG nl c (upm m' s1) A1 Fr D Hrep1 Hs Hc (he + 8) (k - 8) HA1)|].
  unfold A1. rewrite delete_insert_id by done.
  intros _ s' (? & Hkept & ? & ? & ? & lo & hi & Hm & Hr').
  replace (he + 8 - 8) with he in Hm by lia. replace (k - 8 + 8) with k in Hm by lia.
  replace (he + 8 + (k - 8)) with (he + k) in Hr' by lia.
  assert (Hfe : Fr !! (he + k) = None).
  { rewrite HF. unfold fsz. by rewrite (beyond_None nl hs he k G G' (conj Hk Hkm) (mem s) cs F DL q R I Hq) by lia. }
  assert (hi = he + k) as -> by (destruct Hm as [-> _]; rewrite Hfe; simpl; lia).
  rewrite delete_id in Hr' by done. split_and!; try done; [|by exists lo].
  intros p n a Hp Ha. rewrite (Hkept p n a Hp Ha). simpl. specialize (Hout p n Hp). unfold m'.
  by rewrite !lookup_insert_ne by lia.
Qed.
