(* ===== verification/HeapProps.v ===== *)
(** HeapProps: the memory manager as its callers see it - any sequence of calls
    on a heap that [mm_initialize] has set up - and the theorems on each call. *)

From stdpp Require Import options.
From S2P Require Import Prelude Heap HeapRep HeapInv HeapOps HeapSys HeapTop HeapInit.

#[local] Ltac Zify.zify_post_hook ::= Z.to_euclidean_division_equations.

(** * The region stays the same *)

Definition region (s : mm_heap_s) : Z * ptr * ptr := (mm_heapsize s, mm_heapstart s, mm_heapend s).

(** [c] does not change the members that describe the region. *)
Definition steady {A} (c : MM A) : Prop := forall s a s', c s = Some (a, s') -> region s' = region s.

Create HintDb steady.

Lemma steady_ret {A} (a : A) : steady (ret a).
Proof. by intros s b s' [= <- <-]. Qed.

Lemma steady_undef {A} : steady (A := A) undef.
Proof. done. Qed.

Lemma steady_bind {A B} (c : MM A) (k : A -> MM B) : steady c -> (forall a, steady (k a)) -> steady (bind c k).
Proof.
  intros Hc Hk s b s' H. unfold bind in H. destruct (c s) as [[a s1]|] eqn:E; [|done].
  rewrite (Hk a _ _ _ H). by eapply Hc.
Qed.

Lemma steady_gets {A} (f : mm_heap_s -> A) : steady (gets f).
Proof. by intros s a s' [= <- <-]. Qed.

Lemma steady_getso {A} (f : mm_heap_s -> option A) : steady (getso f).
Proof. intros s a s' H. unfold getso in H. destruct (f s); by simplify_eq. Qed.

Lemma steady_modify f : (forall s, region (f s) = region s) -> steady (modify f).
Proof. by intros H s a s' [= <- <-]. Qed.

Lemma steady_when b c : steady c -> steady (when b c).
Proof. destruct b; [done|]. intros _. apply steady_ret. Qed.

Lemma steady_assert b : steady (assert_ b).
Proof. intros s a s' H. unfold assert_ in H. destruct b; by simplify_eq. Qed.

Lemma steady_debug DEBUG c : steady c -> steady (DEBUGASSERT DEBUG c).
Proof.
  intros H. unfold DEBUGASSERT. destruct DEBUG; [|apply steady_ret].
  apply steady_bind; [done|]. apply steady_assert.
Qed.

Lemma steady_loop {A B} fuel (body : A -> MM (A + B)) : (forall a, steady (body a)) -> forall a, steady (loop fuel body a).
Proof.
  intros Hb. induction fuel as [|fuel IH]; intros a; simpl; [apply steady_undef|].
  apply steady_bind; [auto|]. intros []; [auto|apply steady_ret].
Qed.

Lemma steady_fuel {A} (c : nat -> MM A) : (forall n, steady (c n)) -> steady (with_fuel c).
Proof. intros H s a s'. apply H. Qed.

Lemma steady_rd a : steady (rd a).
Proof. apply steady_getso. Qed.

Lemma steady_wr a v : steady (wr a v).
Proof. apply steady_bind; [apply steady_rd|]. intros _. by apply steady_modify. Qed.

Lemma steady_memcpy dest src n : steady (memcpy dest src n).
Proof.
  revert dest src. induction n; intros; simpl; [apply steady_ret|].
  apply steady_bind; [apply steady_rd|]. intros. apply steady_bind; [apply steady_wr|]. auto.
Qed.

Lemma steady_memset0 p n : steady (memset0 p n).
Proof.
  revert p. induction n; intros; simpl; [apply steady_ret|].
  apply steady_bind; [apply steady_wr|]. auto.
Qed.

#[export] Hint Resolve steady_ret steady_undef steady_gets steady_getso steady_rd steady_wr
  steady_memcpy steady_memset0 steady_assert : steady.

(** Goes through a definition statement by statement. *)
Ltac steady :=
  repeat first
    [ progress intros | solve [eauto 2 with steady] | apply steady_bind | apply steady_when | apply steady_debug
    | apply steady_fuel | apply steady_loop | apply steady_modify; done
    | match goal with |- steady (let '(_, _) := ?x in _) => destruct x end
    | match goal with |- steady (if ?b then _ else _) => destruct b end
    | progress cbv beta iota zeta ].

Section Steady.
Context (DEBUG : bool) (nl : ptr).

Lemma steady_take c : steady (mm_takesemaphore c).
Proof using. unfold mm_takesemaphore. steady. Qed.
Lemma steady_try c : steady (mm_trysemaphore c).
Proof using. unfold mm_trysemaphore. steady. Qed.
Lemma steady_give c : steady (mm_givesemaphore DEBUG c).
Proof using. unfold mm_givesemaphore. steady. Qed.
Lemma steady_is_free p : steady (is_free p).
Proof using. unfold is_free. steady. Qed.
Lemma steady_member p : steady (mm_heapmember p).
Proof using. unfold mm_heapmember. steady. Qed.
Lemma steady_set_preceding p n : steady (set_preceding p n).
Proof using. unfold set_preceding. steady. Qed.
Lemma steady_unlink p : steady (mm_unlink DEBUG p).
Proof using. unfold mm_unlink. steady. Qed.
#[local] Hint Resolve steady_take steady_try steady_give steady_is_free steady_member
  steady_set_preceding steady_unlink : steady.
Lemma steady_add p : steady (mm_addfreechunk DEBUG nl p).
Proof using. unfold mm_addfreechunk, add_step. steady. Qed.
#[local] Hint Resolve steady_add : steady.
Lemma steady_free_chunk p : steady (free_chunk DEBUG nl p).
Proof using. unfold free_chunk. steady. Qed.
#[local] Hint Resolve steady_free_chunk : steady.
Lemma steady_free c p : steady (mm_free DEBUG nl c p).
Proof using. unfold mm_free, mm_add_delaylist. steady. Qed.
#[local] Hint Resolve steady_free : steady.
Lemma steady_malloc c n : steady (mm_malloc DEBUG nl c n).
Proof using. unfold mm_malloc, mm_free_delaylist, delay_step, alloc_chunk, search_step. steady. Qed.
#[local] Hint Resolve steady_malloc : steady.
Lemma steady_zalloc c n : steady (mm_zalloc DEBUG nl c n).
Proof using. unfold mm_zalloc, memset. steady. Qed.
#[local] Hint Resolve steady_zalloc : steady.
Lemma steady_calloc c n e : steady (mm_calloc DEBUG nl c n e).
Proof using. unfold mm_calloc. steady. Qed.
Lemma steady_shrink p n : steady (mm_shrinkchunk DEBUG nl p n).
Proof using. unfold mm_shrinkchunk. steady. Qed.
#[local] Hint Resolve steady_shrink : steady.
Lemma steady_realloc c p n : steady (mm_realloc DEBUG nl c p n).
Proof using. unfold mm_realloc, realloc_grow, take_prev, take_prev_headers, take_next. steady. Qed.
Lemma steady_memalign c a n : steady (mm_memalign DEBUG nl c a n).
Proof using. unfold mm_memalign, memalign_place, memalign_split. steady. Qed.
End Steady.

(** * Programs that use the heap *)

Inductive call :=
  | Malloc (c : caller) (n : Z)
  | Zalloc (c : caller) (n : Z)
  | Calloc (c : caller) (n e : Z)
  | Realloc (c : caller) (p : ptr) (n : Z)
  | Memalign (c : caller) (j n : Z)
  | Free (c : caller) (p : ptr).

Definition exec (DEBUG : bool) (nl : ptr) (cl : call) : MM ptr :=
  match cl with
  | Malloc c n => mm_malloc DEBUG nl c n
  | Zalloc c n => mm_zalloc DEBUG nl c n
  | Calloc c n e => mm_calloc DEBUG nl c n e
  | Realloc c p n => mm_realloc DEBUG nl c p n
  | Memalign c j n => mm_memalign DEBUG nl c (2 ^ j) n
  | Free c p => mm_free DEBUG nl c p ;; ret NULL
  end.

(** The sizes whose chunk size can be computed in 32 bits. *)
Definition sized (n : Z) : Prop := 0 <= n /\ n + 23 < 2 ^ 32.

(** Who may free a block: a task, or code that cannot use the heap now. *)
Definition freer (c : caller) : Prop := task c \/ up_interrupt_context c = true \/ getpid c = - ESRCH.

(** The calls that a program that owns the blocks [A] may make. *)
Definition legal (A : gmap Z Z) (cl : call) : Prop :=
  match cl with
  | Malloc c n | Zalloc c n => task c /\ sized n
  | Calloc c n e => task c /\ 0 <= n <= SIZE_MAX /\ 0 <= e <= SIZE_MAX /\ (sized (n * e) \/ SIZE_MAX < n * e)
  | Realloc c p n => task c /\ sized n /\ (p = NULL \/ is_Some (A !! p))
  | Memalign c j n => task c /\ 0 <= j <= 30 /\ 0 <= n /\ align_size n + 2 * 2 ^ j + 23 < 2 ^ 32
  | Free c p => freer c /\ (p = NULL \/ is_Some (A !! p))
  end.

Definition grant (A : gmap Z Z) (r k : Z) : gmap Z Z := if decide (r = NULL) then A else <[r := k]> A.

(** The blocks that the program owns when the call has returned [r]. *)
Definition after (A : gmap Z Z) (cl : call) (r : ptr) : gmap Z Z :=
  match cl with
  | Malloc _ n | Zalloc _ n => grant A r (chunk_size n - 8)
  | Calloc _ n e => grant A r (chunk_size (n * e) - 8)
  | Realloc _ p n =>
      if decide (p = NULL) then grant A r (chunk_size n - 8)
      else if decide (n = 0) then delete p A
      else if decide (r = NULL) then A else <[r := chunk_size n - 8]> (delete p A)
  | Memalign _ j n => grant A r (align_block j n)
  | Free _ p => delete p A
  end.

(** What a caller that owns [A] can rely on. *)

(** [r] is a new block of [k] bytes, at least [n], with its header in front,
    away from the blocks [A]. *)
Definition fresh (A : gmap Z Z) (r n k : Z) : Prop :=
  r mod 16 = 0 /\ n <= k /\ forall q v, A !! q = Some v -> r + k + 8 <= q \/ q + v + 8 <= r.

Definition served (A : gmap Z Z) (m m' : gmap Z Z) (r n k : Z) : Prop :=
  kept A m m' /\ (r <> NULL -> fresh A r n k).

Definition zeroed (m : gmap Z Z) (r n : Z) : Prop :=
  r <> NULL -> forall a, r <= a < r + n -> byte m a = Some 0.

Definition promise (A : gmap Z Z) (cl : call) (m : gmap Z Z) (r : ptr) (m' : gmap Z Z) : Prop :=
  match cl with
  | Malloc _ n => served A m m' r n (chunk_size n - 8)
  | Zalloc _ n => served A m m' r n (chunk_size n - 8) /\ zeroed m' r n
  | Calloc _ n e => served A m m' r (n * e) (chunk_size (n * e) - 8) /\ zeroed m' r (n * e) /\
                    (SIZE_MAX < n * e -> r = NULL)
  | Realloc _ p n =>
      if decide (p = NULL) then served A m m' r n (chunk_size n - 8)
      else if decide (n = 0) then r = NULL /\ kept (delete p A) m m'
      else if decide (r = NULL) then kept A m m'
      else served (delete p A) m m' r n (chunk_size n - 8) /\
           forall i v, A !! p = Some v -> 0 <= i -> 4 * i < Z.min v (chunk_size n - 8) ->
             m' !! (r + 4 * i) = m !! (p + 4 * i)
  | Memalign _ j n => served A m m' r n (align_block j n) /\ (r <> NULL -> r mod 2 ^ j = 0)
  | Free _ p => kept (delete p A) m m'
  end.

Section Client.
Context (DEBUG : bool) (nl : ptr).

(** The heap between two calls. *)
Definition consistent (s : mm_heap_s) (A : gmap Z Z) : Prop :=
  sem_free s /\ mm_heapsize s = mm_heapend s + 8 - mm_heapstart s /\ exists Fr D, heap_rep nl s A Fr D.

Lemma fresh_intro s A Fr D r n k : heap_rep nl s (<[r := k]> A) Fr D -> A !! r = None -> n <= k -> fresh A r n k.
Proof using.
  intros Hr HA Hn. destruct (heap_block _ _ _ _ _ _ _ Hr (lookup_insert_eq _ _ _)) as (? & _).
  split_and!; [done..|]. intros q v Hq.
  eapply (heap_apart nl s _ Fr D r k q v Hr); [apply lookup_insert_eq|rewrite lookup_insert_ne; congruence|congruence].
Qed.

Lemma chunk_fits n : 0 <= n -> n <= chunk_size n - 8.
Proof using. unfold chunk_size. lia. Qed.

(** What [malloc_post] means for the caller. *)
Lemma malloc_served s s' A Fr D n r m : 0 <= n -> kept A m (mem s') -> malloc_post nl s A Fr D n r s' ->
  served A m (mem s') r n (chunk_size n - 8) /\ exists Fr' D', heap_rep nl s' (grant A r (chunk_size n - 8)) Fr' D'.
Proof using.
  intros Hn Hk (Fr1 & _ & [(-> & _ & Hr)|(k & Hr0 & _ & _ & HA & Hr)]); unfold grant.
  - rewrite decide_True by done. split; [by split|eauto].
  - rewrite decide_False by done. split; [|eauto]. split; [done|]. intros _.
    eapply fresh_intro; [done..|]. by apply chunk_fits.
Qed.

Lemma served_self A m n k : served A m m NULL n k.
Proof using. by split; [intros p v a|]. Qed.

Lemma steady_exec cl : steady (exec DEBUG nl cl).
Proof using.
  destruct cl; simpl; [apply steady_malloc|apply steady_zalloc|apply steady_calloc|apply steady_realloc
    |apply steady_memalign|apply steady_bind; [apply steady_free|intros; apply steady_ret]].
Qed.

Definition outcome (A : gmap Z Z) (cl : call) (s : mm_heap_s) (r : ptr) (s' : mm_heap_s) : Prop :=
  sem_free s' /\ promise A cl (mem s) r (mem s') /\ exists Fr D, heap_rep nl s' (after A cl r) Fr D.

Section Calls.
Context (s : mm_heap_s) (A Fr : gmap Z Z) (D : list ptr).
Context (Hrep : heap_rep nl s A Fr D) (Hs : sem_free s).

Lemma call_malloc c n : legal A (Malloc c n) -> wp (mm_malloc DEBUG nl c n) (outcome A (Malloc c n) s) s.
Proof using Hrep Hs.
  intros (Hc & H0 & H32). eapply wp_mono; [by apply (heap_malloc DEBUG nl c s A Fr D Hrep Hs Hc n)|].
  intros r s' (? & Hk & Hp). destruct (malloc_served s s' A Fr D n r (mem s) H0 Hk Hp) as [? ?]. done.
Qed.

Lemma call_zalloc c n : legal A (Zalloc c n) -> wp (mm_zalloc DEBUG nl c n) (outcome A (Zalloc c n) s) s.
Proof using Hrep Hs.
  intros (Hc & H0 & H32). eapply wp_mono; [by apply (heap_zalloc DEBUG nl c s A Fr D n Hrep Hs Hc)|].
  intros r s' (? & Hk & Hp & Hz). destruct (malloc_served s s' A Fr D n r (mem s) H0 Hk Hp) as [? ?]. done.
Qed.

Lemma call_calloc c n e : legal A (Calloc c n e) -> wp (mm_calloc DEBUG nl c n e) (outcome A (Calloc c n e) s) s.
Proof using Hrep Hs.
  intros (Hc & Hn & He & Hne).
  assert (Hnull : outcome A (Calloc c n e) s NULL s).
  { split; [done|]. split; [|exists Fr, D; by unfold after, grant; rewrite decide_True].
    split; [apply served_self|]. split; [by intros []|done]. }
  destruct (decide (n = 0 \/ e = 0)) as [|Hnz].
  { unfold mm_calloc. destruct (Z.ltb_spec 0 n), (Z.ltb_spec 0 e); try lia; by apply wp_ret. }
  eapply wp_mono; [apply (heap_calloc DEBUG nl c s A Fr D n e Hrep Hs Hc); [lia|lia|unfold sized in Hne; tauto]|].
  intros r s' (Hs' & Hk & Hsmall & Hbig). destruct (Z.le_gt_cases (n * e) SIZE_MAX) as [Hle|Hgt].
  - destruct (Hsmall Hle) as [Hp Hz].
    destruct (malloc_served s s' A Fr D (n * e) r (mem s) ltac:(nia) Hk Hp) as [? ?].
    split_and!; [done| |done]. split_and!; [done..|lia].
  - by destruct (Hbig Hgt) as [-> ->].
Qed.

Lemma call_free c p : legal A (Free c p) -> wp (exec DEBUG nl (Free c p)) (outcome A (Free c p) s) s.
Proof using Hrep Hs.
  intros [Hc Hp]. simpl. apply wp_bind. destruct (decide (p = NULL)) as [->|Hp0].
  { apply wp_ret, wp_ret. split; [done|]. assert (HA : A !! NULL = None) by (by eapply heap_null).
    simpl. rewrite delete_id by done. split; [by intros q v a|eauto]. }
  destruct Hp as [|[n Hp]]; [done|]. destruct (decide (task c)) as [Ht|Ht].
  - eapply wp_mono; [by apply (heap_free DEBUG nl c s A Fr D Hrep Hs Ht p n)|].
    intros _ s' (? & ? & _ & _ & _ & lo & hi & _ & ?). apply wp_ret. split_and!; eauto.
  - eapply wp_mono; [apply (heap_free_delayed DEBUG nl c s A Fr D p n Hrep); [|done]|].
    { destruct Hc as [|[|]]; [done|by left|by right; left]. }
    intros _ s' (? & ? & E). apply wp_ret. split; [by rewrite E|]. split; eauto.
Qed.

Lemma call_realloc c p n : legal A (Realloc c p n) -> wp (exec DEBUG nl (Realloc c p n)) (outcome A (Realloc c p n) s) s.
Proof using Hrep Hs.
  intros (Hc & [H0 H32] & Hp). destruct (decide (p = NULL)) as [->|Hp0].
  { eapply wp_mono; [by apply (call_malloc c n)|]. done. }
  destruct Hp as [|[v Hp]]; [done|]. destruct (decide (n = 0)) as [->|Hn].
  - simpl. unfold mm_realloc. destruct (Z.eqb_spec p NULL) as [|_]; [done|]. simpl. apply wp_bind.
    eapply wp_mono; [by apply (heap_free DEBUG nl c s A Fr D Hrep Hs Hc p v)|].
    intros _ s' (? & ? & _ & _ & _ & lo & hi & _ & ?). apply wp_ret. split; [done|]. simpl.
    rewrite !(decide_False (P := p = NULL)) by done. split_and!; eauto.
  - eapply wp_mono; [apply (heap_realloc DEBUG nl c s A Fr D Hrep Hs Hc p v n Hp); lia|].
    intros r s' [Hs' [(-> & Hk & Fr' & Hr & _)|(Hr0 & Hr & Hk & Hcp & Fr' & D' & Hr')]]; split; try done;
      simpl; rewrite !(decide_False (P := p = NULL)), !(decide_False (P := n = 0)) by done.
    + split; [done|eauto].
    + rewrite !decide_False by done. split; [|eauto]. split; [split; [done|]|].
      * intros _. eapply fresh_intro; [done| |by apply chunk_fits].
        destruct Hr as [->|Hr]; [apply lookup_delete_eq|]. apply lookup_delete_None. by right.
      * intros i v' Hv ? ?. apply Hcp; [done|]. congruence.
Qed.

Lemma call_memalign c j n : legal A (Memalign c j n) -> wp (exec DEBUG nl (Memalign c j n)) (outcome A (Memalign c j n) s) s.
Proof using Hrep Hs.
  intros (Hc & Hj & Hn & H32).
  eapply wp_mono; [by apply (heap_memalign DEBUG nl c s A Fr D j n Hrep Hs Hc)|].
  intros r s' (Hs' & Hk & [(-> & Fr' & Hr)|(Hr0 & Hm & HA & Fr' & Hr)]); split; try done; simpl; unfold grant.
  - rewrite decide_True by done. split; [by split; [split|]|eauto].
  - rewrite decide_False by done. split; [|eauto]. split; [|done]. split; [done|]. intros _.
    eapply fresh_intro; [done..|]. unfold align_block, align_size, chunk_size. case_decide; lia.
Qed.
End Calls.

Lemma call_ok s A cl : consistent s A -> legal A cl ->
  wp (exec DEBUG nl cl) (fun r s' =>
    consistent s' (after A cl r) /\ promise A cl (mem s) r (mem s') /\ region s' = region s) s.
Proof using.
  intros (Hs & Hsz & Fr & D & Hrep) Hl.
  assert (H : wp (exec DEBUG nl cl) (outcome A cl s) s).
  { destruct cl; [by eapply call_malloc|by eapply call_zalloc|by eapply call_calloc|by eapply call_realloc
      |by eapply call_memalign|by eapply call_free]. }
  apply wp_run in H as (r & s' & E & Hs' & Hp & Fr' & D' & Hr). apply wp_run. exists r, s'.
  split; [done|]. pose proof (steady_exec cl _ _ _ E) as Est. split_and!; try done.
  split; [done|]. split; [|eauto]. injection Est as -> -> ->. done.
Qed.

(** The states that a program reaches with the blocks that it owns then: the
    heap is set up, calls are made, and the program writes to its blocks. *)
Inductive run (a size : Z) : mm_heap_s -> gmap Z Z -> Prop :=
  | run_init s0 s :
      (forall x, reg nl (region_start a) (region_end a size) x -> is_Some (mem s0 !! x)) ->
      mm_initialize DEBUG nl a size s0 = Some (tt, s) -> run a size s ∅
  | run_call s A cl r s' :
      run a size s A -> legal A cl -> exec DEBUG nl cl s = Some (r, s') ->
      run a size s' (after A cl r)
  | run_write s A p n x v :
      run a size s A -> A !! p = Some n -> p <= x < p + n -> x mod 4 = 0 ->
      run a size (upm (<[x := v]> (mem s)) s) A.

(** A region of at least 32 aligned bytes that does not overlap [mm_nodelist]. *)
Definition valid_region (a size : Z) : Prop :=
  0 < a /\ 0 <= size /\ a + size < 2 ^ 32 /\ region_start a + 24 <= region_end a size /\
  geom nl (region_start a) (region_end a size).

Lemma run_consistent a size s A : valid_region a size -> run a size s A ->
  consistent s A /\ mm_heapstart s = region_start a /\ mm_heapend s = region_end a size.
Proof using.
  intros (Ha & Hn & H32 & Hroom & G). induction 1 as [s0 s Hreg E|s A cl r s' _ (IH & Hst & Hen) Hl E|s A p n x v _ (IH & Hst & Hen) Hp Hx Hm].
  - pose proof (heap_init DEBUG nl s0 a size Ha Hn H32 G Hroom Hreg) as Hi.
    unfold wp in Hi. rewrite E in Hi. destruct Hi as (? & Hst & Hen & Hsz & Hr).
    split_and!; try done. split; [done|]. split; [congruence|eauto].
  - pose proof (call_ok s A cl IH Hl) as Hc. unfold wp in Hc. rewrite E in Hc.
    destruct Hc as (? & _ & [= _ -> ->]). done.
  - destruct IH as (? & ? & Fr & D & Hr). split; [|done]. split; [done|]. split; [done|]. exists Fr, D.
    eapply heap_write; [done..| |].
    + intros y Hy. apply lookup_insert_ne. lia.
    + intros y Hy. by apply some_insert.
Qed.
End Client.

(** * A heap to run the calls on *)

Module Demo.
Fixpoint ram (a : Z) (n : nat) : gmap Z Z :=
  match n with O => ∅ | S n => <[a := 0xdeadbeef]> (ram (a + 4) n) end.

Lemma ram_some a n x : a <= x < a + 4 * Z.of_nat n -> (x - a) mod 4 = 0 -> is_Some (ram a n !! x).
Proof.
  revert a. induction n as [|n IH]; intros a Hx Hm; [lia|]. simpl. destruct (decide (x = a)) as [->|].
  - rewrite lookup_insert_eq. eauto.
  - apply some_insert, IH; lia.
Qed.

Definition nl : ptr := 0x1000.
Definition base : Z := 0x2000.
Definition len : Z := 512.
Definition main : caller := Caller 1 false false.
Definition isr : caller := Caller 1 true false.

(** Memory before the heap is set up, and more of it than the heap gets. *)
Definition s0 : mm_heap_s := MMheap (ram nl 76 ∪ ram base 256) 0 0 0 0 0 0 0.
Definition final {A} (o : option (A * mm_heap_s)) : mm_heap_s :=
  match o with Some (_, s) => s | None => s0 end.
Definition s1 : mm_heap_s := final (mm_initialize true nl base len s0).
Definition s2 : mm_heap_s := final (mm_malloc true nl main 100 s1).
Definition s3 : mm_heap_s := final (mm_malloc true nl main 40 s2).

Lemma words_there he x : he <= base + 1016 -> reg nl base he x -> is_Some (mem s0 !! x).
Proof.
  unfold reg, nl, base. intros Hhe [Hm [Hx|Hx]].
  - apply lookup_union_is_Some. right. apply ram_some; unfold base; lia.
  - apply lookup_union_is_Some. left. apply ram_some; unfold nl; lia.
Qed.

Lemma demo_valid : valid_region nl base len.
Proof. by split_and!; [..|split; vm_compute; repeat split; try discriminate; left]. Qed.

Lemma s1_run : mm_initialize true nl base len s0 = Some (tt, s1).
Proof. by vm_compute. Qed.
Lemma s2_run : mm_malloc true nl main 100 s1 = Some (0x2010, s2).
Proof. by vm_compute. Qed.
Lemma s3_run : mm_malloc true nl main 40 s2 = Some (0x2080, s3).
Proof. by vm_compute. Qed.

Definition A3 : gmap Z Z := {[ 0x2080 := 40; 0x2010 := 104 ]}.

Lemma run1 : run true nl base len s1 ∅.
Proof. eapply run_init; [|exact s1_run]. intros x Hx. eapply words_there; [|exact Hx]. done. Qed.
Lemma run3 : run true nl base len s3 A3.
Proof.
  eapply (run_call true nl base len s2 {[ 0x2010 := 104 ]} (Malloc main 40) 0x2080); [|done|exact s3_run].
  by eapply (run_call true nl base len s1 ∅ (Malloc main 100) 0x2010); [exact run1| |exact s2_run].
Qed.

Lemma rep3 : sem_free s3 /\ exists Fr, heap_rep nl s3 A3 Fr [].
Proof.
  destruct (run_consistent true nl base len s3 A3 demo_valid run3) as [(Hs & _ & Fr & D & Hr) _].
  split; [done|]. exists Fr. by rewrite <- (heap_delay nl s3 A3 Fr D).
Qed.

Lemma s3_region : mm_heapstart s3 = base /\ mm_heapend s3 = base + 504.
Proof. by vm_compute. Qed.

Lemma geom_more : geom nl base (base + 504 + 256).
Proof. by split; vm_compute; repeat split; try discriminate; left. Qed.

Lemma words3 x : reg nl base (base + 504 + 256) x -> is_Some (mem s3 !! x).
Proof.
  assert (H : forall a n, forallb (fun i => bool_decide (is_Some (mem s3 !! (a + 4 * i)))) (seqZ 0 n) = true ->
            a <= x < a + 4 * n -> (x - a) mod 4 = 0 -> is_Some (mem s3 !! x)).
  { intros a n Hb Hx Hm. rewrite forallb_forall in Hb. specialize (Hb ((x - a) / 4)).
    rewrite bool_decide_eq_true, <- list_elem_of_In, elem_of_seqZ in Hb.
    replace (a + 4 * ((x - a) / 4)) with x in Hb by lia. apply Hb. lia. }
  unfold reg. intros [Hm [Hx|Hx]].
  - apply (H base 192); [by vm_compute|unfold base in *; lia..].
  - apply (H nl 76); [by vm_compute|unfold nl in *; lia..].
Qed.
End Demo.

(** * The theorems *)

Section Theorems.
Context (DEBUG : bool) (nl : ptr).

(** C2: The memory manager keeps its promise to any program.  Start from a heap
    set up by [mm_initialize] and make any sequence of legal calls of
    [mm_malloc], [mm_zalloc], [mm_calloc], [mm_realloc], [mm_memalign] and
    [mm_free] (also from an interrupt handler), with writes to the own blocks in
    between.  Then every further legal call returns, it hands out only new
    memory of at least the size asked for, aligned as asked for and apart from
    all the blocks in use, it leaves the contents of these blocks alone,
    [mm_zalloc] and [mm_calloc] clear the block, and [mm_realloc] copies the
    old contents. *)
Theorem heap_refines a size s A cl :
  valid_region nl a size -> run DEBUG nl a size s A -> legal A cl ->
  exists r s', exec DEBUG nl cl s = Some (r, s') /\
    run DEBUG nl a size s' (after A cl r) /\ promise A cl (mem s) r (mem s').
Proof using.
  intros Hv Hr Hl. destruct (run_consistent DEBUG nl a size s A Hv Hr) as [Hc _].
  pose proof (call_ok DEBUG nl s A cl Hc Hl) as H. apply wp_run in H as (r & s' & E & _ & Hp & _).
  exists r, s'. split_and!; [done| |done]. by eapply run_call.
Qed.

(** C15: In every state that a program can reach, each block that it owns is
    aligned to 16 bytes and lies in the region, between the first and the last
    node; different blocks are apart by at least a chunk header; the
    semaphore is free and the region is the one given to [mm_initialize]. *)
Theorem heap_invariant a size s A :
  valid_region nl a size -> run DEBUG nl a size s A ->
  sem_free s /\ mm_heapstart s = region_start a /\ mm_heapend s = region_end a size /\
  (forall p n, A !! p = Some n ->
     p mod 16 = 0 /\ 8 <= n /\ region_start a + 16 <= p /\ p + n <= region_end a size) /\
  (forall p n q k, A !! p = Some n -> A !! q = Some k -> p <> q -> p + n + 8 <= q \/ q + k + 8 <= p).
Proof using.
  intros Hv Hr. destruct (run_consistent DEBUG nl a size s A Hv Hr) as [(Hs & _ & Fr & D & Hrep) [E1 E2]].
  split_and!; try done.
  - intros p n Hp. destruct (heap_block _ _ _ _ _ _ _ Hrep Hp) as (? & ? & _ & ? & ? & _).
    rewrite <- E1, <- E2. done.
  - intros p n q k. by apply (heap_apart _ _ _ _ _ _ _ _ _ Hrep).
Qed.


(** [mm_initialize] makes the memory given to it a heap: one free chunk from
    the first to the last node, no blocks, no delayed release, the semaphore free. *)
Theorem initialize_spec s a size :
  valid_region nl a size ->
  (forall x, reg nl (region_start a) (region_end a size) x -> is_Some (mem s !! x)) ->
  wp (mm_initialize DEBUG nl a size) (fun _ s' =>
    sem_free s' /\ mm_heapstart s' = region_start a /\ mm_heapend s' = region_end a size /\
    mm_heapsize s' = region_end a size + 8 - region_start a /\
    heap_rep nl s' ∅ {[region_start a + 8 := region_end a size - region_start a - 8]} []) s.
Proof using. intros (? & ? & ? & ? & ?) Hreg. by apply heap_init. Qed.


(** [mm_free] of a block: its chunk is merged with the free chunks next to
    it on either side, and the other blocks keep their contents.  A caller that
    cannot use the heap now - an interrupt handler, say - only puts the block
    on the delay list. *)
Theorem free_spec c s A Fr D p n :
  heap_rep nl s A Fr D -> A !! p = Some n ->
  (sem_free s -> task c ->
   wp (mm_free DEBUG nl c p) (fun _ s' =>
     sem_free s' /\ kept (delete p A) (mem s) (mem s') /\
     exists lo hi, merged Fr (p - 8) (n + 8) lo hi /\
       heap_rep nl s' (delete p A) (<[lo := hi - lo]> (delete (p + n) Fr)) D) s) /\
  (must_delay c s ->
   wp (mm_free DEBUG nl c p) (fun _ s' =>
     kept (delete p A) (mem s) (mem s') /\ heap_rep nl s' (delete p A) Fr (p :: D)) s).
Proof using.
  intros Hr Hp. split.
  - intros Hs Hc. eapply wp_mono; [by apply (heap_free DEBUG nl c s A Fr D Hr Hs Hc p n)|].
    intros _ s' (? & ? & _ & _ & _ & ?). done.
  - intros Hd. eapply wp_mono; [by apply (heap_free_delayed DEBUG nl c s A Fr D p n Hr Hd)|].
    intros _ s' (? & ? & _). done.
Qed.


(** [mm_extend] adds the [k] bytes that start at [mm_brkaddr], behind the
    last node, to the heap, merged with the free chunk before it if there is one, and the blocks keep their contents;
    but it does not add [k] to [mm_heapsize], the size of the arena that
    [mm_mallinfo] reports. *)
Theorem extend_spec c s A Fr D k :
  heap_rep nl s A Fr D -> sem_free s -> task c -> 16 <= k -> k mod 16 = 0 ->
  geom nl (mm_heapstart s) (mm_heapend s + k) ->
  (forall a, reg nl (mm_heapstart s) (mm_heapend s + k) a -> is_Some (mem s !! a)) ->
  wp (p <- mm_brkaddr DEBUG 0 ;; mm_extend DEBUG nl c p k 0) (fun _ s' =>
    sem_free s' /\ kept A (mem s) (mem s') /\ mm_heapend s' = mm_heapend s + k /\
    mm_heapsize s' = mm_heapsize s /\
    exists lo, merged Fr (mm_heapend s) k lo (mm_heapend s + k) /\
      heap_rep nl s' A (<[lo := mm_heapend s + k - lo]> Fr) D) s.
Proof using.
  intros Hr ? ? ? ? Hg ?. apply wp_bind, wp_bind, wp_dassert_ret; [done|]. apply wp_bind, wp_gets, wp_ret.
  pose proof (g_hs _ _ _ Hg). destruct Hr as (cs & F & DL & G & Hr'). pose proof (g_he _ _ _ G).
  destruct (Z.eqb_spec (mm_heapend s) NULL) as [E|_]; [unfold NULL in E; lia|].
  eapply wp_mono; [apply (heap_extend DEBUG nl c s A Fr D k); try done; by exists cs, F, DL|].
  intros _ s' (? & ? & ? & _ & ? & ?). done.
Qed.

End Theorems.

(** * The theorems at work *)

Import Demo.
#[local] Opaque s0 s1 s2 s3.

(** The program owns two blocks and grows the first one. *)
Lemma heap_refines_witness :
  exists r s', exec true nl (Realloc main 0x2010 200) s3 = Some (r, s') /\
    run true nl base len s' (after A3 (Realloc main 0x2010 200) r) /\
    promise A3 (Realloc main 0x2010 200) (mem s3) r (mem s').
Proof.
  apply heap_refines; [exact demo_valid|exact run3|]. split; [done|]. split; [done|]. right. by exists 104.
Defined.

Lemma heap_invariant_witness :
  A3 !! 0x2080 = Some 40 /\ region_start base + 16 <= 0x2080 /\ 0x2080 + 40 <= region_end base len.
Proof.
  destruct (heap_invariant true nl base len s3 A3 demo_valid run3) as (_ & _ & _ & H & _).
  split; [done|]. by apply (H 0x2080 40).
Defined.


Lemma initialize_spec_witness :
  wp (mm_initialize true nl base len) (fun _ s' => heap_rep nl s' ∅ {[0x2008 := 496]} []) s0.
Proof.
  eapply wp_mono; [apply (initialize_spec true nl s0 base len demo_valid)|].
  - intros x Hx. by eapply words_there; [|exact Hx].
  - intros _ s' (_ & _ & _ & _ & H). exact H.
Defined.


Lemma free_spec_witness : exists Fr,
  wp (mm_free true nl main 0x2010) (fun _ s' => sem_free s') s3 /\
  wp (mm_free true nl isr 0x2010) (fun _ s' => heap_rep nl s' (delete 0x2010 A3) Fr [0x2010]) s3.
Proof.
  destruct rep3 as [Hs [Fr Hr]]. exists Fr. split.
  - destruct (free_spec true nl main s3 A3 Fr [] 0x2010 104 Hr eq_refl) as [H _].
    eapply wp_mono; [exact (H Hs (conj eq_refl (Z.le_0_1)))|]. intros _ s' [Hs' _]. exact Hs'.
  - destruct (free_spec true nl isr s3 A3 Fr [] 0x2010 104 Hr eq_refl) as [_ H].
    eapply wp_mono; [exact (H (or_introl eq_refl))|]. intros _ s' [_ Hr']. exact Hr'.
Defined.


Lemma extend_spec_witness :
  wp (p <- mm_brkaddr true 0 ;; mm_extend true nl main p 256 0) (fun _ s' =>
    mm_heapend s' = mm_heapend s3 + 256 /\ mm_heapsize s' = mm_heapsize s3) s3.
Proof.
  destruct rep3 as [Hs [Fr Hr]]. pose proof s3_region as Es.
  eapply wp_mono; [apply (extend_spec true nl main s3 A3 Fr [] 256 Hr Hs); [done..| |]|].
  - destruct Es as [-> ->]. exact geom_more.
  - destruct Es as [-> ->]. exact words3.
  - intros _ s' (_ & _ & He & Hz & _). exact (conj He Hz).
Defined.

