(* ===== verification/Gc.v ===== *)
(** Gc: the garbage collector of the Python interpreter (py/gc.c), its
    allocation functions (py/malloc.c) and the port's [gc_collect]
    (nx_gccollect.c), in the configuration of the port: no finalisers, the
    whole of a new block is cleared, and one global interpreter lock.  Memory
    is a map from addresses to bytes that holds the allocation table, the pool
    and everything that is scanned for roots. *)

From stdpp Require Import options.
From S2P Require Import Prelude.

Definition BYTES_PER_BLOCK : Z := 16.
Definition BLOCKS_PER_ATB : Z := 4.
Definition BITS_PER_BYTE : Z := 8.
Definition MICROPY_ALLOC_GC_STACK_SIZE : Z := 64.
Definition AT_FREE : Z := 0.
Definition AT_HEAD : Z := 1.
Definition AT_TAIL : Z := 2.
Definition AT_MARK : Z := 3.
Definition ATB_MASK_0 : Z := 0x03.
Definition ATB_MASK_1 : Z := 0x0c.
Definition ATB_MASK_2 : Z := 0x30.
Definition ATB_MASK_3 : Z := 0xc0.

(** Memory and the members of [mp_state_mem_t]; the entries of [gc_stack] that
    were written. *)
Record mp_state_mem_t := MPmem {
  bytes : gmap Z Z;
  gc_alloc_table_start : ptr;
  gc_alloc_table_byte_len : Z;
  gc_pool_start : ptr;
  gc_pool_end : ptr;
  gc_stack_overflow : Z;
  gc_stack : gmap Z Z;
  gc_lock_depth : Z;
  gc_auto_collect_enabled : Z;
  gc_alloc_amount : Z;
  gc_alloc_threshold : Z;
  gc_last_free_atb_index : Z
}.

Definition set_bytes (f : gmap Z Z -> gmap Z Z) (s : mp_state_mem_t) : mp_state_mem_t :=
  MPmem (f (bytes s)) (gc_alloc_table_start s) (gc_alloc_table_byte_len s) (gc_pool_start s)
    (gc_pool_end s) (gc_stack_overflow s) (gc_stack s) (gc_lock_depth s)
    (gc_auto_collect_enabled s) (gc_alloc_amount s) (gc_alloc_threshold s) (gc_last_free_atb_index s).
Definition set_layout (start : ptr) (len : Z) (pool fin : ptr) (s : mp_state_mem_t) : mp_state_mem_t :=
  MPmem (bytes s) start len pool fin (gc_stack_overflow s) (gc_stack s) (gc_lock_depth s)
    (gc_auto_collect_enabled s) (gc_alloc_amount s) (gc_alloc_threshold s) (gc_last_free_atb_index s).
Definition set_overflow (v : Z) (s : mp_state_mem_t) : mp_state_mem_t :=
  MPmem (bytes s) (gc_alloc_table_start s) (gc_alloc_table_byte_len s) (gc_pool_start s)
    (gc_pool_end s) v (gc_stack s) (gc_lock_depth s)
    (gc_auto_collect_enabled s) (gc_alloc_amount s) (gc_alloc_threshold s) (gc_last_free_atb_index s).
Definition set_stack (f : gmap Z Z -> gmap Z Z) (s : mp_state_mem_t) : mp_state_mem_t :=
  MPmem (bytes s) (gc_alloc_table_start s) (gc_alloc_table_byte_len s) (gc_pool_start s)
    (gc_pool_end s) (gc_stack_overflow s) (f (gc_stack s)) (gc_lock_depth s)
    (gc_auto_collect_enabled s) (gc_alloc_amount s) (gc_alloc_threshold s) (gc_last_free_atb_index s).
Definition set_lock_depth (f : Z -> Z) (s : mp_state_mem_t) : mp_state_mem_t :=
  MPmem (bytes s) (gc_alloc_table_start s) (gc_alloc_table_byte_len s) (gc_pool_start s)
    (gc_pool_end s) (gc_stack_overflow s) (gc_stack s) (u16 (f (gc_lock_depth s)))
    (gc_auto_collect_enabled s) (gc_alloc_amount s) (gc_alloc_threshold s) (gc_last_free_atb_index s).
Definition set_auto_collect (v : Z) (s : mp_state_mem_t) : mp_state_mem_t :=
  MPmem (bytes s) (gc_alloc_table_start s) (gc_alloc_table_byte_len s) (gc_pool_start s)
    (gc_pool_end s) (gc_stack_overflow s) (gc_stack s) (gc_lock_depth s)
    v (gc_alloc_amount s) (gc_alloc_threshold s) (gc_last_free_atb_index s).
Definition set_amount (f : Z -> Z) (s : mp_state_mem_t) : mp_state_mem_t :=
  MPmem (bytes s) (gc_alloc_table_start s) (gc_alloc_table_byte_len s) (gc_pool_start s)
    (gc_pool_end s) (gc_stack_overflow s) (gc_stack s) (gc_lock_depth s)
    (gc_auto_collect_enabled s) (u32 (f (gc_alloc_amount s))) (gc_alloc_threshold s) (gc_last_free_atb_index s).
Definition set_threshold (v : Z) (s : mp_state_mem_t) : mp_state_mem_t :=
  MPmem (bytes s) (gc_alloc_table_start s) (gc_alloc_table_byte_len s) (gc_pool_start s)
    (gc_pool_end s) (gc_stack_overflow s) (gc_stack s) (gc_lock_depth s)
    (gc_auto_collect_enabled s) (gc_alloc_amount s) v (gc_last_free_atb_index s).
Definition set_last_free (v : Z) (s : mp_state_mem_t) : mp_state_mem_t :=
  MPmem (bytes s) (gc_alloc_table_start s) (gc_alloc_table_byte_len s) (gc_pool_start s)
    (gc_pool_end s) (gc_stack_overflow s) (gc_stack s) (gc_lock_depth s)
    (gc_auto_collect_enabled s) (gc_alloc_amount s) (gc_alloc_threshold s) v.

(** [gc_info_t]. *)
Record gc_info_t := GCinfo {
  i_total : Z; i_used : Z; i_free : Z; i_max_free : Z;
  i_num_1block : Z; i_num_2block : Z; i_max_block : Z
}.

(** * Memory *)

Abbreviation GC := (M mp_state_mem_t).

Definition rdb (a : Z) : GC Z := getso (fun s => bytes s !! a).
Definition wrb (a v : Z) : GC unit := rdb a ;; modify (set_bytes (<[a := v]>)).

(** A pointer in memory: four bytes, the least significant one first. *)
Definition rdp (a : Z) : GC ptr :=
  b0 <- rdb a ;; b1 <- rdb (a + 1) ;; b2 <- rdb (a + 2) ;; b3 <- rdb (a + 3) ;;
  ret (b0 + 2 ^ 8 * b1 + 2 ^ 16 * b2 + 2 ^ 24 * b3).

(** [memset(p, 0, n)] and [memcpy]. *)
Fixpoint clear (p : ptr) (n : nat) : GC unit :=
  match n with O => ret tt | S n => wrb p 0 ;; clear (p + 1) n end.
Fixpoint copy (dest src : ptr) (n : nat) : GC unit :=
  match n with O => ret tt | S n => v <- rdb src ;; wrb dest v ;; copy (dest + 1) (src + 1) n end.

Definition gc_fuel {A} (c : nat -> GC A) : GC A := fun s => c (S (S (size (bytes s)))) s.

(** * The allocation table *)

Definition BLOCK_SHIFT (block : Z) : Z := 2 * Z.land block (BLOCKS_PER_ATB - 1).
Definition ATB_FROM_BLOCK (block : Z) : Z := block / BLOCKS_PER_ATB.

Definition ATB_GET_KIND (block : Z) : GC Z :=
  start <- gets gc_alloc_table_start ;;
  b <- rdb (start + block / BLOCKS_PER_ATB) ;;
  ret (Z.land (Z.shiftr b (BLOCK_SHIFT block)) 3).

(** [gc_alloc_table_start[block / BLOCKS_PER_ATB] = f(..)]. *)
Definition atb_update (block : Z) (f : Z -> Z) : GC unit :=
  start <- gets gc_alloc_table_start ;;
  b <- rdb (start + block / BLOCKS_PER_ATB) ;;
  wrb (start + block / BLOCKS_PER_ATB) (f b).

Definition ATB_ANY_TO_FREE (block : Z) : GC unit :=
  atb_update block (fun b => Z.land b (Z.lnot (Z.shiftl AT_MARK (BLOCK_SHIFT block)))).
Definition ATB_FREE_TO_HEAD (block : Z) : GC unit :=
  atb_update block (fun b => Z.lor b (Z.shiftl AT_HEAD (BLOCK_SHIFT block))).
Definition ATB_FREE_TO_TAIL (block : Z) : GC unit :=
  atb_update block (fun b => Z.lor b (Z.shiftl AT_TAIL (BLOCK_SHIFT block))).
Definition ATB_HEAD_TO_MARK (block : Z) : GC unit :=
  atb_update block (fun b => Z.lor b (Z.shiftl AT_MARK (BLOCK_SHIFT block))).
Definition ATB_MARK_TO_HEAD (block : Z) : GC unit :=
  atb_update block (fun b => Z.land b (Z.lnot (Z.shiftl AT_TAIL (BLOCK_SHIFT block)))).

Definition VERIFY_PTR (p : ptr) (s : mp_state_mem_t) : bool :=
  (Z.land p (BYTES_PER_BLOCK - 1) =? 0) && (gc_pool_start s <=? p) && (p <? gc_pool_end s).
Definition BLOCK_FROM_PTR (p : ptr) (s : mp_state_mem_t) : Z := (p - gc_pool_start s) / BYTES_PER_BLOCK.
Definition PTR_FROM_BLOCK (block : Z) (s : mp_state_mem_t) : ptr := block * BYTES_PER_BLOCK + gc_pool_start s.

(** [gc_alloc_table_byte_len * BLOCKS_PER_ATB]. *)
Definition max_block (s : mp_state_mem_t) : Z := gc_alloc_table_byte_len s * BLOCKS_PER_ATB.

(** The number of blocks of the chain that starts at [block]. *)
Definition chain_step (block n : Z) : GC (Z + Z) :=
  k <- ATB_GET_KIND (block + n) ;;
  if k =? AT_TAIL then ret (inl (n + 1)) else ret (inr n).
Definition n_blocks_of (block : Z) : GC Z := gc_fuel (fun fuel => loop fuel (chain_step block) 1).

(** * Set-up and locking *)

Definition gc_init (start fin : ptr) : GC unit :=
  let fin := Z.land fin (Z.lnot (BYTES_PER_BLOCK - 1)) in
  let total_byte_len := fin - start in
  let len := total_byte_len / (1 + BITS_PER_BYTE / 2 * BYTES_PER_BLOCK) in
  let gc_pool_block_len := len * BLOCKS_PER_ATB in
  modify (set_layout start len (fin - gc_pool_block_len * BYTES_PER_BLOCK) fin) ;;
  clear start (Z.to_nat len) ;;
  modify (set_last_free 0) ;;
  modify (set_lock_depth (fun _ => 0)) ;;
  modify (set_auto_collect 1) ;;
  modify (set_threshold 0xffffffff) ;;
  modify (set_amount (fun _ => 0)).

Definition gc_lock : GC unit := modify (set_lock_depth (fun d => d + 1)).
Definition gc_unlock : GC unit := modify (set_lock_depth (fun d => d - 1)).
Definition gc_is_locked : GC bool := gets (fun s => negb (gc_lock_depth s =? 0)).

(** * Marking *)

(** A pointer found in an object: an unmarked head that it points to is marked
    and put on [gc_stack], which has [sp] entries; the new number of entries. *)
Definition mark_child (p : ptr) (sp : Z) : GC Z :=
  valid <- gets (VERIFY_PTR p) ;;
  if valid : bool then
    childblock <- gets (BLOCK_FROM_PTR p) ;;
    k <- ATB_GET_KIND childblock ;;
    if k =? AT_HEAD then
      ATB_HEAD_TO_MARK childblock ;;
      if sp <? MICROPY_ALLOC_GC_STACK_SIZE then
        modify (set_stack (<[sp := childblock]>)) ;; ret (sp + 1)
      else modify (set_overflow 1) ;; ret sp
    else ret sp
  else ret sp.

(** The loop over the words of an object: [n] more from [ptrs] on. *)
Fixpoint mark_ptrs (n : nat) (ptrs sp : Z) : GC Z :=
  match n with
  | O => ret sp
  | S n => p <- rdp ptrs ;; sp <- mark_child p sp ;; mark_ptrs n (ptrs + 4) sp
  end.

Definition mark_step (st : Z * Z) : GC ((Z * Z) + unit) :=
  let '(block, sp) := st in
  n_blocks <- n_blocks_of block ;;
  ptrs <- gets (PTR_FROM_BLOCK block) ;;
  sp <- mark_ptrs (Z.to_nat (n_blocks * BYTES_PER_BLOCK / 4)) ptrs sp ;;
  if sp =? 0 then ret (inr tt)
  else
    let sp := sp - 1 in
    block <- getso (fun s => gc_stack s !! sp) ;;
    ret (inl (block, sp)).
Definition gc_mark_subtree (block : Z) : GC unit := gc_fuel (fun fuel => loop fuel mark_step (block, 0)).

(** [for (block = ..; block < max; block++)], [n] times. *)
Fixpoint for_blocks (n : nat) (block : Z) (body : Z -> GC unit) : GC unit :=
  match n with O => ret tt | S n => body block ;; for_blocks n (block + 1) body end.

Definition retrace (block : Z) : GC unit :=
  k <- ATB_GET_KIND block ;;
  when (k =? AT_MARK) (gc_mark_subtree block).
Definition overflow_step (_ : unit) : GC (unit + unit) :=
  o <- gets gc_stack_overflow ;;
  if o =? 0 then ret (inr tt)
  else
    modify (set_overflow 0) ;;
    n <- gets max_block ;;
    for_blocks (Z.to_nat n) 0 retrace ;;
    ret (inl tt).
Definition gc_deal_with_stack_overflow : GC unit := gc_fuel (fun fuel => loop fuel overflow_step tt).

(** * Sweeping *)

(** The loop of [gc_sweep], [n] blocks from [block] on. *)
Fixpoint sweep_blocks (n : nat) (block : Z) (free_tail : bool) : GC unit :=
  match n with
  | O => ret tt
  | S n =>
      k <- ATB_GET_KIND block ;;
      free_tail <- (if k =? AT_HEAD then ATB_ANY_TO_FREE block ;; ret true
                    else if k =? AT_TAIL then when free_tail (ATB_ANY_TO_FREE block) ;; ret free_tail
                    else if k =? AT_MARK then ATB_MARK_TO_HEAD block ;; ret false
                    else ret free_tail) ;;
      sweep_blocks n (block + 1) free_tail
  end.
Definition gc_sweep : GC unit := n <- gets max_block ;; sweep_blocks (Z.to_nat n) 0 false.

(** * Collection *)

(** A pointer found in a root. *)
Definition collect_ptr (p : ptr) : GC unit :=
  valid <- gets (VERIFY_PTR p) ;;
  if valid : bool then
    block <- gets (BLOCK_FROM_PTR p) ;;
    k <- ATB_GET_KIND block ;;
    when (k =? AT_HEAD) (ATB_HEAD_TO_MARK block ;; gc_mark_subtree block)
  else ret tt.

Fixpoint collect_root (n : nat) (ptrs : Z) : GC unit :=
  match n with
  | O => ret tt
  | S n => p <- rdp ptrs ;; collect_ptr p ;; collect_root n (ptrs + 4)
  end.
Definition gc_collect_root (ptrs : ptr) (len : Z) : GC unit := collect_root (Z.to_nat len) ptrs.

(** Memory that holds roots: the address of the first word and the number of
    words. *)
Definition area : Type := ptr * Z.

(** What is scanned: the root pointer section of [mp_state_ctx], the stack of
    the running thread and those of the other threads. *)
Record roots := Roots { ctx_roots : area; stack_roots : area; thread_roots : list area }.

Definition gc_collect_start (R : roots) : GC unit :=
  modify (set_lock_depth (fun d => d + 1)) ;;
  modify (set_amount (fun _ => 0)) ;;
  modify (set_overflow 0) ;;
  gc_collect_root (fst (ctx_roots R)) (snd (ctx_roots R)).

Definition gc_collect_end : GC unit :=
  gc_deal_with_stack_overflow ;;
  gc_sweep ;;
  modify (set_last_free 0) ;;
  modify (set_lock_depth (fun d => d - 1)).

Definition gc_sweep_all : GC unit :=
  modify (set_lock_depth (fun d => d + 1)) ;;
  modify (set_overflow 0) ;;
  gc_collect_end.

Fixpoint mp_thread_gc_others (l : list area) : GC unit :=
  match l with [] => ret tt | a :: l => gc_collect_root (fst a) (snd a) ;; mp_thread_gc_others l end.

Definition gc_collect (R : roots) : GC unit :=
  gc_collect_start R ;;
  gc_collect_root (fst (stack_roots R)) (snd (stack_roots R)) ;;
  mp_thread_gc_others (thread_roots R) ;;
  gc_collect_end.

(** * Statistics *)

(** Loop state: block, len, len_free and the counts so far. *)
Definition info_step (st : Z * Z * Z * gc_info_t) : GC ((Z * Z * Z * gc_info_t) + gc_info_t) :=
  let '(block, len, len_free, i) := st in
  kind <- ATB_GET_KIND block ;;
  let '(len, len_free, used, free) :=
    if kind =? AT_FREE then (0, len_free + 1, i_used i, i_free i + 1)
    else if kind =? AT_HEAD then (1, len_free, i_used i + 1, i_free i)
    else if kind =? AT_TAIL then (len + 1, len_free, i_used i + 1, i_free i)
    else (len, len_free, i_used i, i_free i) in
  let block := block + 1 in
  n <- gets max_block ;;
  let finish := block =? n in
  kind <- (if negb finish then ATB_GET_KIND block else ret kind) ;;
  let '(len_free, i) :=
    if finish || (kind =? AT_FREE) || (kind =? AT_HEAD) then
      let n1 := if len =? 1 then i_num_1block i + 1 else i_num_1block i in
      let n2 := if len =? 1 then i_num_2block i else if len =? 2 then i_num_2block i + 1 else i_num_2block i in
      let mb := if i_max_block i <? len then len else i_max_block i in
      let '(mf, len_free) :=
        if finish || (kind =? AT_HEAD)
        then (if i_max_free i <? len_free then len_free else i_max_free i, 0)
        else (i_max_free i, len_free) in
      (len_free, GCinfo (i_total i) used free mf n1 n2 mb)
    else (len_free, GCinfo (i_total i) used free (i_max_free i) (i_num_1block i) (i_num_2block i) (i_max_block i)) in
  if finish then ret (inr i) else ret (inl (block, len, len_free, i)).

Definition gc_info : GC gc_info_t :=
  total <- gets (fun s => gc_pool_end s - gc_pool_start s) ;;
  i <- gc_fuel (fun fuel => loop fuel info_step (0, 0, 0, GCinfo total 0 0 0 0 0 0)) ;;
  ret (GCinfo (i_total i) (i_used i * BYTES_PER_BLOCK) (i_free i * BYTES_PER_BLOCK)
         (i_max_free i) (i_num_1block i) (i_num_2block i) (i_max_block i)).

(** * Allocation *)

(** One of the four tests of an allocation table byte [a], the [i]-th one: a run
    that is long enough, with its last block, or the length of the run so far. *)
Definition scan_bit (n_blocks i j mask a n_free : Z) : (Z * Z) + Z :=
  if Z.land a mask =? 0 then
    let n_free := n_free + 1 in
    if n_blocks <=? n_free then inl (i * BLOCKS_PER_ATB + j, n_free) else inr n_free
  else inr 0.
Definition scan_byte (n_blocks i a n_free : Z) : (Z * Z) + Z :=
  match scan_bit n_blocks i 0 ATB_MASK_0 a n_free with
  | inl r => inl r
  | inr n_free =>
    match scan_bit n_blocks i 1 ATB_MASK_1 a n_free with
    | inl r => inl r
    | inr n_free =>
      match scan_bit n_blocks i 2 ATB_MASK_2 a n_free with
      | inl r => inl r
      | inr n_free => scan_bit n_blocks i 3 ATB_MASK_3 a n_free
      end
    end
  end.
Definition scan_step (n_blocks : Z) (st : Z * Z) : GC ((Z * Z) + option (Z * Z)) :=
  let '(i, n_free) := st in
  len <- gets gc_alloc_table_byte_len ;;
  if i <? len then
    start <- gets gc_alloc_table_start ;;
    a <- rdb (start + i) ;;
    match scan_byte n_blocks i a n_free with
    | inl r => ret (inr (Some r))
    | inr n_free => ret (inl (i + 1, n_free))
    end
  else ret (inr None).
Definition scan (n_blocks : Z) : GC (option (Z * Z)) :=
  i <- gets gc_last_free_atb_index ;;
  gc_fuel (fun fuel => loop fuel (scan_step n_blocks) (i, 0)).

(** The label [found]: the run of [n_free] blocks that ends with block [i]
    becomes an object. *)
Definition found (n_blocks i n_free : Z) : GC ptr :=
  let end_block := i in
  let start_block := i - n_free + 1 in
  when (n_free =? 1) (modify (set_last_free ((i + 1) / BLOCKS_PER_ATB))) ;;
  ATB_FREE_TO_HEAD start_block ;;
  for_blocks (Z.to_nat (end_block - start_block)) (start_block + 1) ATB_FREE_TO_TAIL ;;
  pool <- gets gc_pool_start ;;
  let ret_ptr := pool + start_block * BYTES_PER_BLOCK in
  modify (set_amount (fun a => a + n_blocks)) ;;
  clear ret_ptr (Z.to_nat ((end_block - start_block + 1) * BYTES_PER_BLOCK)) ;;
  ret ret_ptr.

Section Collecting.
Variable R : roots.

(** The search for a run of free blocks, with a collection when there is none. *)
Definition find_step (n_blocks : Z) (collected : bool) : GC (bool + option (Z * Z)) :=
  r <- scan n_blocks ;;
  match r with
  | Some r => ret (inr (Some r))
  | None => if collected then ret (inr None) else gc_collect R ;; ret (inl true)
  end.

Definition gc_alloc (n_bytes alloc_flags : Z) : GC ptr :=
  let n_blocks := Z.land (u32 (n_bytes + BYTES_PER_BLOCK - 1)) (Z.lnot (BYTES_PER_BLOCK - 1)) / BYTES_PER_BLOCK in
  if n_blocks =? 0 then ret NULL
  else
    d <- gets gc_lock_depth ;;
    if 0 <? d then ret NULL
    else
      collected <- gets (fun s => gc_auto_collect_enabled s =? 0) ;;
      amount <- gets gc_alloc_amount ;;
      threshold <- gets gc_alloc_threshold ;;
      collected <- (if negb collected && (threshold <=? amount) then gc_collect R ;; ret true
                    else ret collected) ;;
      r <- loop 2 (find_step n_blocks) collected ;;
      match r with
      | None => ret NULL
      | Some (i, n_free) => found n_blocks i n_free
      end.

(** [do .. while]: frees the chain that starts at [block]. *)
Definition free_step (block : Z) : GC (Z + unit) :=
  ATB_ANY_TO_FREE block ;;
  let block := block + 1 in
  k <- ATB_GET_KIND block ;;
  if k =? AT_TAIL then ret (inl block) else ret (inr tt).

Definition gc_free (p : ptr) : GC unit :=
  d <- gets gc_lock_depth ;;
  if 0 <? d then ret tt
  else if p =? NULL then ret tt
  else
    v <- gets (VERIFY_PTR p) ;;
    assert_ v ;;
    block <- gets (BLOCK_FROM_PTR p) ;;
    k <- ATB_GET_KIND block ;;
    assert_ (k =? AT_HEAD) ;;
    lf <- gets gc_last_free_atb_index ;;
    when (block / BLOCKS_PER_ATB <? lf) (modify (set_last_free (block / BLOCKS_PER_ATB))) ;;
    gc_fuel (fun fuel => loop fuel free_step block).

Definition gc_nbytes (p : ptr) : GC Z :=
  v <- gets (VERIFY_PTR p) ;;
  if v : bool then
    block <- gets (BLOCK_FROM_PTR p) ;;
    k <- ATB_GET_KIND block ;;
    if k =? AT_HEAD then n <- n_blocks_of block ;; ret (n * BYTES_PER_BLOCK)
    else ret 0
  else ret 0.

(** The loop that counts the blocks of the chain and the free blocks behind:
    [(bl, n_blocks, n_free)]. *)
Definition count_step (new_blocks : Z) (st : Z * Z * Z) : GC ((Z * Z * Z) + (Z * Z)) :=
  let '(bl, n_blocks, n_free) := st in
  n <- gets max_block ;;
  if bl <? n then
    k <- ATB_GET_KIND bl ;;
    if k =? AT_TAIL then ret (inl (bl + 1, n_blocks + 1, n_free))
    else if k =? AT_FREE then
      let n_free := n_free + 1 in
      if new_blocks <=? n_blocks + n_free then ret (inr (n_blocks, n_free))
      else ret (inl (bl + 1, n_blocks, n_free))
    else ret (inr (n_blocks, n_free))
  else ret (inr (n_blocks, n_free)).

(** [assert(ATB_GET_KIND(bl) == AT_FREE); ATB_FREE_TO_TAIL(bl)]. *)
Definition take_free (bl : Z) : GC unit :=
  k <- ATB_GET_KIND bl ;;
  assert_ (k =? AT_FREE) ;;
  ATB_FREE_TO_TAIL bl.

Definition gc_realloc (ptr_in : ptr) (n_bytes : Z) (allow_move : bool) : GC ptr :=
  if ptr_in =? NULL then gc_alloc n_bytes 0
  else if n_bytes =? 0 then gc_free ptr_in ;; ret NULL
  else
    d <- gets gc_lock_depth ;;
    if 0 <? d then ret NULL
    else
      v <- gets (VERIFY_PTR ptr_in) ;;
      assert_ v ;;
      block <- gets (BLOCK_FROM_PTR ptr_in) ;;
      k <- ATB_GET_KIND block ;;
      assert_ (k =? AT_HEAD) ;;
      let new_blocks := u32 (n_bytes + BYTES_PER_BLOCK - 1) / BYTES_PER_BLOCK in
      r <- gc_fuel (fun fuel => loop fuel (count_step new_blocks) (block + 1, 1, 0)) ;;
      let '(n_blocks, n_free) := r : Z * Z in
      if new_blocks =? n_blocks then ret ptr_in
      else if new_blocks <? n_blocks then
        for_blocks (Z.to_nat (n_blocks - new_blocks)) (block + new_blocks) ATB_ANY_TO_FREE ;;
        lf <- gets gc_last_free_atb_index ;;
        when ((block + new_blocks) / BLOCKS_PER_ATB <? lf)
          (modify (set_last_free ((block + new_blocks) / BLOCKS_PER_ATB))) ;;
        ret ptr_in
      else if new_blocks <=? n_blocks + n_free then
        for_blocks (Z.to_nat (new_blocks - n_blocks)) (block + n_blocks) take_free ;;
        clear (ptr_in + n_blocks * BYTES_PER_BLOCK) (Z.to_nat ((new_blocks - n_blocks) * BYTES_PER_BLOCK)) ;;
        ret ptr_in
      else if negb allow_move then ret NULL
      else
        ptr_out <- gc_alloc n_bytes 0 ;;
        if ptr_out =? NULL then ret NULL
        else
          copy ptr_out ptr_in (Z.to_nat (n_blocks * BYTES_PER_BLOCK)) ;;
          gc_free ptr_in ;;
          ret ptr_out.

(** * py/modgc.c *)

Definition gc_disable : GC unit := modify (set_auto_collect 0).
Definition gc_enable : GC unit := modify (set_auto_collect 1).
Definition gc_isenabled : GC bool := gets (fun s => negb (gc_auto_collect_enabled s =? 0)).
Definition gc_mem_free : GC Z := info <- gc_info ;; ret (i_free info).
Definition gc_mem_alloc : GC Z := info <- gc_info ;; ret (i_used info).

(** [None]: no argument. *)
Definition gc_threshold (arg : option Z) : GC (option Z) :=
  match arg with
  | None =>
      t <- gets gc_alloc_threshold ;;
      if t =? 0xffffffff then ret (Some (-1)) else ret (Some (u32 (t * BYTES_PER_BLOCK)))
  | Some val =>
      modify (set_threshold (if val <? 0 then 0xffffffff else val / BYTES_PER_BLOCK)) ;; ret None
  end.

(** * py/malloc.c *)

(** The [MemoryError] that [m_malloc_fail] raises. *)
Inductive memory_error := HeapLocked | AllocationFailed (num_bytes : Z).

Definition m_malloc_fail (num_bytes : Z) : GC (ptr + memory_error) :=
  locked <- gc_is_locked ;;
  if locked : bool then ret (inr HeapLocked) else ret (inr (AllocationFailed num_bytes)).

Definition m_malloc (num_bytes : Z) : GC (ptr + memory_error) :=
  p <- gc_alloc num_bytes 0 ;;
  if (p =? NULL) && negb (num_bytes =? 0) then m_malloc_fail num_bytes else ret (inl p).
Definition m_malloc_maybe (num_bytes : Z) : GC ptr := gc_alloc num_bytes 0.
Definition m_malloc0 (num_bytes : Z) : GC (ptr + memory_error) := m_malloc num_bytes.
Definition m_realloc (p : ptr) (new_num_bytes : Z) : GC (ptr + memory_error) :=
  new_ptr <- gc_realloc p new_num_bytes true ;;
  if (new_ptr =? NULL) && negb (new_num_bytes =? 0) then m_malloc_fail new_num_bytes else ret (inl new_ptr).
Definition m_realloc_maybe (p : ptr) (new_num_bytes : Z) (allow_move : bool) : GC ptr :=
  gc_realloc p new_num_bytes allow_move.
Definition m_free (p : ptr) : GC unit := gc_free p.
End Collecting.
