(* ===== verification/GcRep.v ===== *)
(** GcRep: the allocation table as a map from blocks to their kinds, the chains
    of blocks in it, and the number of blocks that are not marked yet. *)

From stdpp Require Import options.
From S2P Require Import Prelude Gc.

#[local] Ltac Zify.zify_post_hook ::= Z.to_euclidean_division_equations.

(** Contradictions and equations between kinds. *)
Ltac kinds := unfold AT_FREE, AT_HEAD, AT_TAIL, AT_MARK in *; (lia || congruence).

(** * Two bits of a byte *)

Definition field (v j : Z) : Z := Z.land (Z.shiftr v (2 * j)) 3.

Lemma field_range v j : 0 <= field v j <= 3.
Proof.
  unfold field. change 3 with (Z.ones 2). rewrite Z.land_ones by lia.
  pose proof (Z.mod_pos_bound (Z.shiftr v (2 * j)) (2 ^ 2)). change (Z.ones 2) with 3. lia.
Qed.

(** [f] changes the [j]-th field of a byte from [old] to [new]. *)
Definition sets (f : Z -> Z) (j old new : Z) : Prop :=
  forall v, 0 <= v < 256 -> field v j = old ->
    0 <= f v < 256 /\ forall i, 0 <= i < 4 -> field (f v) i = if decide (i = j) then new else field v i.

(** The same for all bytes and fields, as a computation. *)
Definition sets_test (f : Z -> Z -> Z) (old new : Z) : bool :=
  forallb (fun v => forallb (fun j =>
    negb (field v j =? old) ||
    ((0 <=? f j v) && (f j v <? 256) &&
     forallb (fun i => field (f j v) i =? (if decide (i = j) then new else field v i)) (seqZ 0 4)))
    (seqZ 0 4)) (seqZ 0 256).

Lemma forallb_seqZ (P : Z -> bool) n : forallb P (seqZ 0 n) = true -> forall v, 0 <= v < n -> P v = true.
Proof.
  intros H v Hv. rewrite forallb_forall in H. apply H, list_elem_of_In, elem_of_seqZ. lia.
Qed.

Lemma sets_spec f old new j : sets_test f old new = true -> 0 <= j < 4 -> sets (f j) j old new.
Proof.
  intros H Hj v Hv Ho. apply (forallb_seqZ _ _) with (v := v) in H; [|done].
  apply (forallb_seqZ _ _) with (v := j) in H; [|done]. cbv beta in H.
  apply orb_true_iff in H as [H|H]; [lia|]. apply andb_true_iff in H as [H H']. split; [lia|].
  intros i Hi. apply (forallb_seqZ _ _) with (v := i) in H'; [|done]. cbv beta in H'. by apply Z.eqb_eq.
Qed.

Lemma sets_free j old : 0 <= j < 4 -> sets (fun b => Z.land b (Z.lnot (Z.shiftl AT_MARK (2 * j)))) j old AT_FREE.
Proof.
  intros Hj v Hv Ho.
  destruct (decide (field v j = 0)); [|destruct (decide (field v j = 1)); [|destruct (decide (field v j = 2))]].
  1: eapply (sets_spec (fun j b => Z.land b (Z.lnot (Z.shiftl AT_MARK (2 * j)))) 0); done.
  1: eapply (sets_spec (fun j b => Z.land b (Z.lnot (Z.shiftl AT_MARK (2 * j)))) 1); done.
  1: eapply (sets_spec (fun j b => Z.land b (Z.lnot (Z.shiftl AT_MARK (2 * j)))) 2); done.
  eapply (sets_spec (fun j b => Z.land b (Z.lnot (Z.shiftl AT_MARK (2 * j)))) 3); try done.
  pose proof (field_range v j). lia.
Qed.

Lemma sets_head j : 0 <= j < 4 -> sets (fun b => Z.lor b (Z.shiftl AT_HEAD (2 * j))) j AT_FREE AT_HEAD.
Proof. intros. by apply (sets_spec (fun j b => Z.lor b (Z.shiftl AT_HEAD (2 * j)))). Qed.

Lemma sets_tail j : 0 <= j < 4 -> sets (fun b => Z.lor b (Z.shiftl AT_TAIL (2 * j))) j AT_FREE AT_TAIL.
Proof. intros. by apply (sets_spec (fun j b => Z.lor b (Z.shiftl AT_TAIL (2 * j)))). Qed.

Lemma sets_mark j : 0 <= j < 4 -> sets (fun b => Z.lor b (Z.shiftl AT_MARK (2 * j))) j AT_HEAD AT_MARK.
Proof. intros. by apply (sets_spec (fun j b => Z.lor b (Z.shiftl AT_MARK (2 * j)))). Qed.

Lemma sets_unmark j : 0 <= j < 4 -> sets (fun b => Z.land b (Z.lnot (Z.shiftl AT_TAIL (2 * j)))) j AT_MARK AT_HEAD.
Proof. intros. by apply (sets_spec (fun j b => Z.land b (Z.lnot (Z.shiftl AT_TAIL (2 * j))))). Qed.

(** * The table *)

Definition kind_at (s : mp_state_mem_t) (b : Z) : option Z :=
  (fun v => field v (b mod 4)) <$> bytes s !! (gc_alloc_table_start s + b / 4).

(** The allocation table says that the kind of each block [b] is [k b].  The
    byte behind the table, which the loops over chains read when a chain ends
    with the last block, does not look like a tail. *)
Record tab (s : mp_state_mem_t) (k : Z -> Z) : Prop := {
  t_geo : 0 < gc_alloc_table_start s /\ 0 <= gc_alloc_table_byte_len s /\
          gc_alloc_table_start s + gc_alloc_table_byte_len s < gc_pool_start s /\
          gc_pool_start s mod 16 = 0 /\
          gc_pool_end s = gc_pool_start s + 64 * gc_alloc_table_byte_len s /\ gc_pool_end s < 2 ^ 32;
  t_bytes : forall a v, bytes s !! a = Some v -> 0 <= v < 256;
  t_kind : forall b, 0 <= b < max_block s -> kind_at s b = Some (k b);
  t_end : exists g, kind_at s (max_block s) = Some g /\ g <> AT_TAIL;
  t_pool : forall a, gc_pool_start s <= a < gc_pool_end s -> is_Some (bytes s !! a)
}.

Definition in_table (s : mp_state_mem_t) (a : Z) : Prop :=
  gc_alloc_table_start s <= a < gc_alloc_table_start s + gc_alloc_table_byte_len s.

Definition layout (s : mp_state_mem_t) : Z * Z * Z * Z :=
  (gc_alloc_table_start s, gc_alloc_table_byte_len s, gc_pool_start s, gc_pool_end s).
Definition control (s : mp_state_mem_t) : Z * Z * Z * Z * Z :=
  (gc_lock_depth s, gc_auto_collect_enabled s, gc_alloc_amount s, gc_alloc_threshold s, gc_last_free_atb_index s).

(** Only the allocation table, the mark stack and its overflow flag may differ. *)
Definition gframe (s s' : mp_state_mem_t) : Prop :=
  layout s' = layout s /\ control s' = control s /\
  (forall a, ~ in_table s a -> bytes s' !! a = bytes s !! a).

Lemma gframe_refl s : gframe s s.
Proof. done. Qed.

Lemma in_table_layout s s' a : layout s' = layout s -> in_table s' a <-> in_table s a.
Proof. unfold layout, in_table. intros [= -> -> _ _]. done. Qed.

Lemma gframe_trans s1 s2 s3 : gframe s1 s2 -> gframe s2 s3 -> gframe s1 s3.
Proof.
  intros (L1 & C1 & B1) (L2 & C2 & B2). split_and!; [congruence..|].
  intros a Ha. rewrite B2 by (by rewrite (in_table_layout s1 s2 a L1)). by apply B1.
Qed.

Lemma max_block_layout s s' : layout s' = layout s -> max_block s' = max_block s.
Proof. unfold layout, max_block. intros [= _ -> _ _]. done. Qed.

Lemma tab_bound s k : tab s k -> 0 <= max_block s /\ gc_pool_end s - gc_pool_start s = 16 * max_block s.
Proof. intros T. pose proof (t_geo _ _ T). unfold max_block, BLOCKS_PER_ATB. lia. Qed.

Lemma tab_range s k b : tab s k -> 0 <= b < max_block s -> 0 <= k b <= 3.
Proof.
  intros T Hb. pose proof (t_kind _ _ T b Hb) as E. unfold kind_at in E.
  apply fmap_Some in E as (v & _ & ->). apply field_range.
Qed.

(** There are no more blocks than bytes of memory. *)
Lemma tab_fuel s k : tab s k -> max_block s <= Z.of_nat (size (bytes s)).
Proof.
  intros T. destruct (tab_bound s k T) as [H0 Hp].
  assert (H : (length (seqZ (gc_pool_start s) (16 * max_block s)) <= size (bytes s))%nat).
  { apply NoDup_length_size; [apply NoDup_seqZ|]. intros a Ha%elem_of_seqZ. apply (t_pool _ _ T). lia. }
  rewrite length_seqZ in H. lia.
Qed.

Lemma tab_ext s k k' : tab s k -> (forall b, 0 <= b < max_block s -> k' b = k b) -> tab s k'.
Proof.
  intros [Hg Hb Hk He Hp] E. split; try done. intros b Hb'. rewrite E by done. by apply Hk.
Qed.

(** A state that differs in the members that [tab] does not speak of. *)
Lemma tab_control s s' k : tab s k -> layout s' = layout s -> bytes s' = bytes s -> tab s' k.
Proof.
  intros [Hg Hb Hk He Hp] L B. unfold layout in L. injection L as E1 E2 E3 E4.
  split; unfold kind_at, max_block in *; rewrite ?E1, ?E2, ?E3, ?E4, ?B; done.
Qed.

Lemma shift_mod b : 0 <= b -> BLOCK_SHIFT b = 2 * (b mod 4).
Proof.
  intros. unfold BLOCK_SHIFT. change (BLOCKS_PER_ATB - 1) with (Z.ones 2).
  by rewrite Z.land_ones by lia.
Qed.

Definition upd (k : Z -> Z) (b v : Z) : Z -> Z := fun b' => if decide (b' = b) then v else k b'.

Lemma upd_eq k b v : upd k b v b = v.
Proof. unfold upd. by rewrite decide_True. Qed.

Lemma upd_ne k b v b' : b' <> b -> upd k b v b' = k b'.
Proof. intros. unfold upd. by rewrite decide_False. Qed.

Section Table.
Context (s : mp_state_mem_t) (k : Z -> Z) (T : tab s k).

Lemma wp_kind b (Q : Z -> mp_state_mem_t -> Prop) :
  0 <= b < max_block s -> Q (k b) s -> wp (ATB_GET_KIND b) Q s.
Proof using T.
  intros Hb HQ. pose proof (t_kind _ _ T b Hb) as E. apply fmap_Some in E as (v & Hv & E).
  apply wp_bind, wp_gets, wp_bind. eapply wp_getso; [exact Hv|]. apply wp_ret.
  rewrite shift_mod by lia. fold (field v (b mod 4)). by rewrite <- E.
Qed.

(** Also the kind of the block behind the last one can be read. *)
Lemma wp_kind_next b (Q : Z -> mp_state_mem_t -> Prop) :
  0 <= b <= max_block s ->
  (forall v, (b < max_block s -> v = k b) -> (b = max_block s -> v <> AT_TAIL) -> Q v s) ->
  wp (ATB_GET_KIND b) Q s.
Proof using T.
  intros Hb HQ. destruct (decide (b < max_block s)); [apply wp_kind; [lia|apply HQ; [done|lia]]|].
  destruct (t_end _ _ T) as (g & E & Hg). replace (max_block s) with b in E by lia.
  apply fmap_Some in E as (v & Hv & E).
  apply wp_bind, wp_gets, wp_bind. eapply wp_getso; [exact Hv|]. apply wp_ret.
  rewrite shift_mod by lia. fold (field v (b mod 4)). rewrite <- E. apply HQ; [lia|done].
Qed.

Lemma wp_atb_update b f new (Q : unit -> mp_state_mem_t -> Prop) :
  0 <= b < max_block s -> sets f (b mod 4) (k b) new ->
  (forall s', gframe s s' -> tab s' (upd k b new) ->
     gc_stack s' = gc_stack s -> gc_stack_overflow s' = gc_stack_overflow s -> Q tt s') ->
  wp (atb_update b f) Q s.
Proof using T.
  intros Hb Hf HQ. pose proof (t_kind _ _ T b Hb) as E. apply fmap_Some in E as (v & Hv & E).
  pose proof (t_geo _ _ T) as G. assert (HN : max_block s = 4 * gc_alloc_table_byte_len s) by (unfold max_block, BLOCKS_PER_ATB; lia).
  apply wp_bind, wp_gets, wp_bind. eapply wp_getso; [exact Hv|].
  apply wp_bind. eapply wp_getso; [exact Hv|]. apply wp_modify.
  destruct (Hf v (t_bytes _ _ T _ _ Hv) (eq_sym E)) as [Hr Hfield].
  change BLOCKS_PER_ATB with 4. set (a := gc_alloc_table_start s + b / 4) in *.
  apply HQ; try done.
  - split_and!; try done. intros a' Ha'. apply lookup_insert_ne. intros <-. apply Ha'. unfold in_table, a. lia.
  - split; [exact G| | | |].
    + intros a' v'. simpl. intros [[<- <-]|[_ ?]]%lookup_insert_Some; [done|]. by eapply t_bytes.
    + intros b' Hb'. unfold kind_at. simpl. change (max_block _) with (max_block s) in Hb'.
      rewrite lookup_insert. case_decide as Ea.
      * simpl. f_equal. rewrite Hfield by lia. unfold upd. unfold a in Ea.
        destruct (decide (b' mod 4 = b mod 4)); [by rewrite decide_True by lia|].
        rewrite decide_False by (intros ->; done).
        pose proof (t_kind _ _ T b' Hb') as E'. unfold kind_at in E'. fold a in Hv.
        replace (gc_alloc_table_start s + b' / 4) with a in E' by (unfold a; lia). rewrite Hv in E'.
        by injection E' as ->.
      * rewrite upd_ne by (intros ->; done). by apply (t_kind _ _ T).
    + destruct (t_end _ _ T) as (g & Eg & Hg). exists g. split; [|done]. rewrite <- Eg. unfold kind_at. simpl.
      change (max_block (set_bytes _ s)) with (max_block s).
      rewrite lookup_insert_ne by (unfold a; lia). done.
    + intros a' Ha'. simpl in *. apply lookup_insert_is_Some'. right. by apply (t_pool _ _ T).
Qed.

Lemma wp_any_to_free b (Q : unit -> mp_state_mem_t -> Prop) :
  0 <= b < max_block s ->
  (forall s', gframe s s' -> tab s' (upd k b AT_FREE) ->
     gc_stack s' = gc_stack s -> gc_stack_overflow s' = gc_stack_overflow s -> Q tt s') ->
  wp (ATB_ANY_TO_FREE b) Q s.
Proof using T.
  intros Hb. apply wp_atb_update; [done|]. rewrite shift_mod by lia. apply sets_free. lia.
Qed.

Lemma wp_free_to_head b (Q : unit -> mp_state_mem_t -> Prop) :
  0 <= b < max_block s -> k b = AT_FREE ->
  (forall s', gframe s s' -> tab s' (upd k b AT_HEAD) ->
     gc_stack s' = gc_stack s -> gc_stack_overflow s' = gc_stack_overflow s -> Q tt s') ->
  wp (ATB_FREE_TO_HEAD b) Q s.
Proof using T.
  intros Hb Hk. apply wp_atb_update; [done|]. rewrite shift_mod, Hk by lia. apply sets_head. lia.
Qed.

Lemma wp_free_to_tail b (Q : unit -> mp_state_mem_t -> Prop) :
  0 <= b < max_block s -> k b = AT_FREE ->
  (forall s', gframe s s' -> tab s' (upd k b AT_TAIL) ->
     gc_stack s' = gc_stack s -> gc_stack_overflow s' = gc_stack_overflow s -> Q tt s') ->
  wp (ATB_FREE_TO_TAIL b) Q s.
Proof using T.
  intros Hb Hk. apply wp_atb_update; [done|]. rewrite shift_mod, Hk by lia. apply sets_tail. lia.
Qed.

Lemma wp_head_to_mark b (Q : unit -> mp_state_mem_t -> Prop) :
  0 <= b < max_block s -> k b = AT_HEAD ->
  (forall s', gframe s s' -> tab s' (upd k b AT_MARK) ->
     gc_stack s' = gc_stack s -> gc_stack_overflow s' = gc_stack_overflow s -> Q tt s') ->
  wp (ATB_HEAD_TO_MARK b) Q s.
Proof using T.
  intros Hb Hk. apply wp_atb_update; [done|]. rewrite shift_mod, Hk by lia. apply sets_mark. lia.
Qed.

Lemma wp_mark_to_head b (Q : unit -> mp_state_mem_t -> Prop) :
  0 <= b < max_block s -> k b = AT_MARK ->
  (forall s', gframe s s' -> tab s' (upd k b AT_HEAD) ->
     gc_stack s' = gc_stack s -> gc_stack_overflow s' = gc_stack_overflow s -> Q tt s') ->
  wp (ATB_MARK_TO_HEAD b) Q s.
Proof using T.
  intros Hb Hk. apply wp_atb_update; [done|]. rewrite shift_mod, Hk by lia. apply sets_unmark. lia.
Qed.
End Table.

(** * Chains of blocks *)

(** A chain of [n] blocks starts at [h]. *)
Definition chain (k : Z -> Z) (N h n : Z) : Prop :=
  0 <= h /\ 0 < n /\ h + n <= N /\ (forall i, h < i < h + n -> k i = AT_TAIL) /\
  (h + n < N -> k (h + n) <> AT_TAIL).

Lemma chain_inj k N h n n' : chain k N h n -> chain k N h n' -> n = n'.
Proof.
  intros (_ & ? & ? & H1 & H2) (_ & ? & ? & H1' & H2').
  destruct (Z.lt_trichotomy n n') as [Hl|[?|Hl]]; [|done|].
  - destruct H2; [lia|]. apply H1'. lia.
  - destruct H2'; [lia|]. apply H1. lia.
Qed.

Lemma wp_fuel {A} (c : nat -> GC A) Q s : wp (c (S (S (size (bytes s))))) Q s -> wp (gc_fuel c) Q s.
Proof. done. Qed.

Lemma wp_n_blocks_of s k h (Q : Z -> mp_state_mem_t -> Prop) : tab s k -> 0 <= h < max_block s ->
  (forall n, chain k (max_block s) h n -> Q n s) -> wp (n_blocks_of h) Q s.
Proof.
  intros T Hh HQ. apply wp_fuel. pose proof (tab_fuel s k T) as Hf.
  assert (H : forall fuel n, max_block s - (h + n) < Z.of_nat fuel -> 0 < n -> h + n <= max_block s ->
            (forall i, h < i < h + n -> k i = AT_TAIL) -> wp (loop fuel (chain_step h) n) Q s).
  { induction fuel as [|fuel IH]; intros n Hfu Hn Hle Hi; [lia|]. apply wp_loop_step, wp_bind.
    apply (wp_kind_next s k T); [lia|]. intros v Hv1 Hv2. destruct (Z.eqb_spec v AT_TAIL) as [Hv|Hv].
    - apply wp_ret. apply IH; [lia|lia|destruct (decide (h + n = max_block s)); [tauto|lia]|].
      intros i Hi'. destruct (decide (i = h + n)) as [->|]; [|apply Hi; lia].
      rewrite <- Hv1; [done|]. destruct (decide (h + n = max_block s)); [tauto|lia].
    - apply wp_ret. apply HQ. split_and!; try done; [lia|]. intros Hlt. by rewrite <- Hv1. }
  apply H; [lia..|]. intros i Hi. lia.
Qed.

(** * Words *)

Definition word (m : gmap Z Z) (a : Z) : option Z :=
  b0 ← m !! a; b1 ← m !! (a + 1); b2 ← m !! (a + 2); b3 ← m !! (a + 3);
  Some (b0 + 2 ^ 8 * b1 + 2 ^ 16 * b2 + 2 ^ 24 * b3).

Lemma wp_rdp s a p (Q : ptr -> mp_state_mem_t -> Prop) : word (bytes s) a = Some p -> Q p s -> wp (rdp a) Q s.
Proof.
  unfold word. intros E HQ. destruct (bytes s !! a) as [b0|] eqn:E0; [|done].
  destruct (bytes s !! (a + 1)) as [b1|] eqn:E1; [|done]. destruct (bytes s !! (a + 2)) as [b2|] eqn:E2; [|done].
  destruct (bytes s !! (a + 3)) as [b3|] eqn:E3; [|done]. injection E as <-.
  do 4 (apply wp_bind; eapply wp_getso; [done|]). by apply wp_ret.
Qed.

Lemma word_some m a : (forall i, 0 <= i < 4 -> is_Some (m !! (a + i))) -> is_Some (word m a).
Proof.
  intros H. unfold word. destruct (H 0) as [b0 E0]; [lia|]. rewrite Z.add_0_r in E0.
  destruct (H 1) as [b1 E1]; [lia|]. destruct (H 2) as [b2 E2]; [lia|]. destruct (H 3) as [b3 E3]; [lia|].
  rewrite E0, E1, E2, E3. simpl. eauto.
Qed.

Lemma word_ext m m' a : (forall i, 0 <= i < 4 -> m' !! (a + i) = m !! (a + i)) -> word m' a = word m a.
Proof.
  intros H. unfold word. pose proof (H 0) as H0. rewrite Z.add_0_r in H0.
  by rewrite H0, !H by lia.
Qed.

(** * References between objects *)

Definition refers (s : mp_state_mem_t) (p b : Z) : Prop := VERIFY_PTR p s = true /\ b = BLOCK_FROM_PTR p s.

Definition is_head (k : Z -> Z) (b : Z) : Prop := k b = AT_HEAD \/ k b = AT_MARK.

(** The object at [h] holds a reference to the object at [c]. *)
Definition edge (s : mp_state_mem_t) (k : Z -> Z) (h c : Z) : Prop :=
  exists n i p, chain k (max_block s) h n /\ 0 <= i < 4 * n /\
    word (bytes s) (gc_pool_start s + 16 * h + 4 * i) = Some p /\ refers s p c /\ is_head k c.

Lemma refers_range s k p b : tab s k -> refers s p b -> 0 <= b < max_block s.
Proof.
  intros T [Hv ->]. destruct (tab_bound s k T) as [_ Hp]. pose proof (t_geo _ _ T) as G.
  unfold VERIFY_PTR in Hv. apply andb_true_iff in Hv as [Hv ?]. apply andb_true_iff in Hv as [Hv ?].
  apply Z.eqb_eq in Hv. change (BYTES_PER_BLOCK - 1) with (Z.ones 4) in Hv. rewrite Z.land_ones in Hv by lia.
  unfold BLOCK_FROM_PTR, BYTES_PER_BLOCK. lia.
Qed.

(** Some heads have been marked. *)
Definition marks (N : Z) (k k' : Z -> Z) : Prop :=
  forall b, 0 <= b < N -> k' b = k b \/ (k b = AT_HEAD /\ k' b = AT_MARK).

Lemma marks_refl N k : marks N k k.
Proof. by left. Qed.

Lemma marks_trans N k1 k2 k3 : marks N k1 k2 -> marks N k2 k3 -> marks N k1 k3.
Proof.
  intros H1 H2 b Hb. destruct (H1 b Hb) as [E1|[? E1]], (H2 b Hb) as [E2|[? E2]]; unfold AT_HEAD, AT_MARK in *;
    [left; congruence|right; split; congruence|right; split; congruence|congruence].
Qed.

Lemma marks_upd N k b : k b = AT_HEAD -> marks N k (upd k b AT_MARK).
Proof.
  intros Hb c Hc. destruct (decide (c = b)) as [->|]; [right; by rewrite upd_eq|left; by rewrite upd_ne].
Qed.

Lemma marks_tail N k k' b : marks N k k' -> 0 <= b < N -> k' b = AT_TAIL <-> k b = AT_TAIL.
Proof. intros H Hb. destruct (H b Hb) as [->|[-> ->]]; done. Qed.

Lemma marks_head N k k' b : marks N k k' -> 0 <= b < N -> is_head k' b <-> is_head k b.
Proof. intros H Hb. unfold is_head. destruct (H b Hb) as [->|[-> ->]]; naive_solver. Qed.

Lemma marks_mark N k k' b : marks N k k' -> 0 <= b < N -> k b = AT_MARK -> k' b = AT_MARK.
Proof. intros H Hb. destruct (H b Hb) as [->|[-> ->]]; done. Qed.

Lemma chain_marks N k k' h n : marks N k k' -> chain k' N h n <-> chain k N h n.
Proof.
  intros H. unfold chain. split; intros (? & ? & ? & H1 & H2); split_and!; try done.
  - intros i Hi. eapply (marks_tail N k k'); [done|lia|]. apply H1. lia.
  - intros Hl. rewrite <- (marks_tail N k k') by (done || lia). by apply H2.
  - intros i Hi. eapply (marks_tail N k k'); [done|lia|]. apply H1. lia.
  - intros Hl. rewrite (marks_tail N k k') by (done || lia). by apply H2.
Qed.

Lemma refers_layout s s' p b : layout s' = layout s -> refers s' p b <-> refers s p b.
Proof. unfold layout, refers, VERIFY_PTR, BLOCK_FROM_PTR. intros [= _ _ -> ->]. done. Qed.

(** The word at an address of the pool. *)
Lemma pool_word s k h n i : tab s k -> chain k (max_block s) h n -> 0 <= i < 4 * n ->
  is_Some (word (bytes s) (gc_pool_start s + 16 * h + 4 * i)).
Proof.
  intros T (? & ? & ? & _) Hi. destruct (tab_bound s k T). apply word_some. intros j Hj. apply (t_pool _ _ T). lia.
Qed.

Lemma pool_same s s' k h n i : tab s k -> gframe s s' -> chain k (max_block s) h n -> 0 <= i < 4 * n ->
  word (bytes s') (gc_pool_start s + 16 * h + 4 * i) = word (bytes s) (gc_pool_start s + 16 * h + 4 * i).
Proof.
  intros T (_ & _ & B) (? & ? & ? & _) Hi. destruct (tab_bound s k T). pose proof (t_geo _ _ T).
  apply word_ext. intros j Hj. apply B. unfold in_table. lia.
Qed.

Lemma edge_frame s s' k k' h c : tab s k -> gframe s s' -> marks (max_block s) k k' ->
  edge s' k' h c <-> edge s k h c.
Proof.
  intros T F Mk. pose proof F as (L & _ & _). unfold edge. rewrite (max_block_layout s s' L).
  assert (Ep : gc_pool_start s' = gc_pool_start s) by (unfold layout in L; by injection L).
  rewrite Ep. split; intros (n & i & p & Hc & Hi & Hw & Hr & Hh); exists n, i, p.
  - rewrite (chain_marks _ k k') in Hc by done. rewrite (pool_same s s' k h n i) in Hw by done.
    rewrite (refers_layout s s') in Hr by done. split_and!; try (done || lia).
    by rewrite (marks_head _ k k') in Hh by (done || by eapply refers_range).
  - rewrite (chain_marks _ k k') by done. rewrite (pool_same s s' k h n i) by done.
    rewrite (refers_layout s s') by done. split_and!; try (done || lia).
    by rewrite (marks_head _ k k') by (done || by eapply refers_range).
Qed.

(** * Heads that are not marked *)

Definition unmarked (N : Z) (k : Z -> Z) : nat := length (filter (fun b => k b = AT_HEAD) (seqZ 0 N)).

Lemma unmarked_bound N k : 0 <= N -> Z.of_nat (unmarked N k) <= N.
Proof.
  intros. unfold unmarked. pose proof (length_filter (fun b => k b = AT_HEAD) (seqZ 0 N)) as Hl.
  rewrite length_seqZ in Hl. lia.
Qed.

Lemma unmarked_mark N k b : 0 <= b < N -> k b = AT_HEAD -> unmarked N k = S (unmarked N (upd k b AT_MARK)).
Proof.
  intros Hb Hk. unfold unmarked.
  assert (Hin : b ∈ seqZ 0 N) by (apply elem_of_seqZ; lia).
  pose proof (NoDup_seqZ 0 N) as Hnd. apply list_elem_of_split in Hin as (l1 & l2 & E). rewrite E in *.
  apply NoDup_mid in Hnd as (H1 & H2 & _).
  assert (Hsame : forall l : list Z, b ∉ l -> filter (fun c => upd k b AT_MARK c = AT_HEAD) l = filter (fun c => k c = AT_HEAD) l).
  { intros l Hl. apply filter_iff_in. intros c Hc. rewrite upd_ne by (intros ->; done). done. }
  rewrite !filter_app, filter_cons_True, filter_cons_False, !Hsame, !length_app by (try rewrite upd_eq; done). simpl. lia.
Qed.

Lemma unmarked_ext N k k' : (forall b, 0 <= b < N -> k' b = k b) -> unmarked N k' = unmarked N k.
Proof.
  intros H. unfold unmarked. f_equal. apply filter_iff_in.
  intros b Hb%elem_of_seqZ. rewrite H by lia. done.
Qed.
