(* ===== verification/GcMark.v ===== *)
(** GcMark: marking visits exactly the objects that can be reached, however
    small [gc_stack] is, and terminates. *)

From stdpp Require Import options.
From S2P Require Import Prelude Gc GcRep.

#[local] Ltac Zify.zify_post_hook ::= Z.to_euclidean_division_equations.

(** * Progress *)

(** From [s] to [s'] only heads have been marked, some of them if the stack has
    overflowed. *)
Record advance (s : mp_state_mem_t) (k : Z -> Z) (s' : mp_state_mem_t) (k' : Z -> Z) : Prop := {
  a_frame : gframe s s';
  a_tab : tab s' k';
  a_marks : marks (max_block s) k k';
  a_less : (unmarked (max_block s) k' <= unmarked (max_block s) k)%nat;
  a_over : gc_stack_overflow s' = gc_stack_overflow s \/
           (gc_stack_overflow s' = 1 /\ (unmarked (max_block s) k' < unmarked (max_block s) k)%nat)
}.

Lemma advance_refl s k : tab s k -> advance s k s k.
Proof. intros T. split; [apply gframe_refl|done|apply marks_refl|lia|by left]. Qed.

Lemma advance_max s k s' k' : advance s k s' k' -> max_block s' = max_block s.
Proof. intros A. apply max_block_layout, (a_frame _ _ _ _ A). Qed.

Lemma advance_trans s1 k1 s2 k2 s3 k3 : advance s1 k1 s2 k2 -> advance s2 k2 s3 k3 -> advance s1 k1 s3 k3.
Proof.
  intros A1 A2. pose proof (advance_max _ _ _ _ A1) as E.
  destruct A1 as [F1 T1 M1 L1 O1], A2 as [F2 T2 M2 L2 O2]. rewrite E in *. split.
  - by eapply gframe_trans.
  - done.
  - by eapply marks_trans.
  - lia.
  - destruct O2 as [->|[? ?]]; [destruct O1 as [|[? ?]]; [by left|right; split; [done|lia]]|right; split; [done|lia]].
Qed.

Lemma advance_edge s k s' k' h c : tab s k -> advance s k s' k' -> edge s' k' h c <-> edge s k h c.
Proof. intros T A. apply edge_frame; [done|apply A|apply A]. Qed.

Lemma advance_refers s k s' k' p c : advance s k s' k' -> refers s' p c <-> refers s p c.
Proof. intros A. apply refers_layout, (a_frame _ _ _ _ A). Qed.

Lemma advance_head s k s' k' p c : tab s k -> advance s k s' k' -> refers s p c -> is_head k' c <-> is_head k c.
Proof. intros T A Hr. apply (marks_head (max_block s)); [apply A|by eapply refers_range]. Qed.

(** ** The stack *)

Definition stk (s : mp_state_mem_t) (S : list Z) : Prop :=
  forall i x, S !! i = Some x -> gc_stack s !! Z.of_nat i = Some x.

(** ** Pointers that have been followed *)

(** The pointers [W] have been followed: what they point to is marked, and the
    heads that were not marked before are on the stack unless it overflowed. *)
Record traced (W : Z -> Prop) (s : mp_state_mem_t) (k : Z -> Z) (S : list Z)
    (s' : mp_state_mem_t) (k' : Z -> Z) (S' : list Z) : Prop := {
  r_adv : advance s k s' k';
  r_stk : stk s' S';
  r_len : Z.of_nat (length S') <= MICROPY_ALLOC_GC_STACK_SIZE;
  r_less : (length S' + unmarked (max_block s) k' <= length S + unmarked (max_block s) k)%nat;
  r_keep : forall c, c ∈ S -> c ∈ S';
  r_push : forall c, c ∈ S' -> c ∈ S \/ (0 <= c < max_block s /\ k c = AT_HEAD /\ k' c = AT_MARK);
  r_new : forall c, 0 <= c < max_block s -> k c = AT_HEAD -> k' c = AT_MARK ->
            (exists p, W p /\ refers s p c) /\ (gc_stack_overflow s' = 0 -> c ∈ S');
  r_done : forall p c, W p -> refers s p c -> is_head k c -> k' c = AT_MARK
}.

Lemma traced_refl s k S : tab s k -> stk s S -> Z.of_nat (length S) <= MICROPY_ALLOC_GC_STACK_SIZE ->
  traced (fun _ => False) s k S s k S.
Proof. intros T Hs Hl. split; try done; [by apply advance_refl|naive_solver|intros; kinds]. Qed.

Lemma traced_trans W1 W2 s k S s1 k1 S1 s2 k2 S2 : tab s k ->
  traced W1 s k S s1 k1 S1 -> traced W2 s1 k1 S1 s2 k2 S2 ->
  traced (fun p => W1 p \/ W2 p) s k S s2 k2 S2.
Proof.
  intros T R1 R2. pose proof (r_adv _ _ _ _ _ _ _ R1) as A1. pose proof (r_adv _ _ _ _ _ _ _ R2) as A2.
  pose proof (advance_max _ _ _ _ A1) as E. pose proof (a_marks _ _ _ _ A1) as M1.
  pose proof (a_marks _ _ _ _ A2) as M2. rewrite E in M2.
  destruct R1 as [_ St1 Le1 Ls1 Ke1 Pu1 Ne1 Do1], R2 as [_ St2 Le2 Ls2 Ke2 Pu2 Ne2 Do2]. rewrite E in *. split; try done.
  - by eapply advance_trans.
  - lia.
  - auto.
  - intros c [Hc|(Hc & H1 & H2)]%Pu2.
    + destruct (Pu1 c Hc) as [|(? & ? & ?)]; [by left|right]. split_and!; try lia; try done.
      by eapply marks_mark; [exact M2|..].
    + destruct (M1 c Hc) as [E1|[? E1]]; [right; split_and!; kinds|kinds].
  - intros c Hc Hk Hk2. destruct (M1 c Hc) as [E1|[_ E1]].
    + rewrite Hk in E1. destruct (Ne2 c Hc E1 Hk2) as [(p & Hp & Hr) Hin]. split; [|done].
      exists p. split; [by right|]. by rewrite (advance_refers s k s1 k1) in Hr by done.
    + destruct (Ne1 c Hc Hk E1) as [(p & Hp & Hr) Hin]. split; [exists p; split; [by left|done]|].
      intros Ho. apply Ke2, Hin. destruct (a_over _ _ _ _ A2) as [E2|[E2 _]]; [congruence|lia].
  - intros p c [Hp|Hp] Hr Hh.
    + eapply marks_mark; [exact M2|by eapply refers_range|by eapply Do1].
    + eapply Do2; [done|by rewrite (advance_refers s k s1 k1)|].
      by apply (marks_head (max_block s) k k1 c M1 (refers_range s k p c T Hr)).
Qed.

Lemma traced_weaken W W' s k S s' k' S' : (forall p, W p <-> W' p) ->
  traced W s k S s' k' S' -> traced W' s k S s' k' S'.
Proof.
  intros HW [? ? ? ? ? ? Hn Hd]. split; try done.
  - intros c Hc H1 H2. destruct (Hn c Hc H1 H2) as [(p & Hp & Hr) ?]. split; [|done]. exists p. by rewrite <- HW.
  - intros p c Hp. apply (Hd p c). by apply HW.
Qed.

Lemma wp_mark_child s k S p (Q : Z -> mp_state_mem_t -> Prop) :
  tab s k -> stk s S -> Z.of_nat (length S) <= MICROPY_ALLOC_GC_STACK_SIZE ->
  (forall s' k' S', traced (fun q => q = p) s k S s' k' S' -> Q (Z.of_nat (length S')) s') ->
  wp (mark_child p (Z.of_nat (length S))) Q s.
Proof.
  intros T Hs Hl HQ.
  assert (Hskip : (forall c, refers s p c -> k c <> AT_HEAD) -> Q (Z.of_nat (length S)) s).
  { intros Hno. apply (HQ s k S). split; try done; [by apply advance_refl|naive_solver|intros; kinds|].
    intros q c -> Hr [Hh|Hh]; [by destruct (Hno c Hr)|done]. }
  unfold mark_child. apply wp_bind, wp_gets.
  destruct (VERIFY_PTR p s) eqn:Ev; [|apply wp_ret, Hskip; intros c [? _]; congruence].
  apply wp_bind, wp_gets. set (c := BLOCK_FROM_PTR p s) in *.
  assert (Hr : refers s p c) by done. pose proof (refers_range s k p c T Hr) as Hc.
  apply wp_bind, (wp_kind s k T); [done|].
  destruct (Z.eqb_spec (k c) AT_HEAD) as [Hk|Hk]; [|apply wp_ret, Hskip; intros c' [_ ->]; done].
  apply wp_bind, (wp_head_to_mark s k T); [done..|]. intros s1 F T1 Es Eo.
  pose proof (unmarked_mark (max_block s) k c Hc Hk) as Eu.
  assert (Hnew : forall c', 0 <= c' < max_block s -> k c' = AT_HEAD -> upd k c AT_MARK c' = AT_MARK -> c' = c).
  { intros c' _ H1 H2. destruct (decide (c' = c)) as [|Hne]; [done|]. rewrite upd_ne in H2 by done. kinds. }
  assert (Hdone : forall q c', q = p -> refers s q c' -> is_head k c' -> upd k c AT_MARK c' = AT_MARK).
  { intros q c' -> [_ ->] _. apply upd_eq. }
  destruct (Z.ltb_spec (Z.of_nat (length S)) MICROPY_ALLOC_GC_STACK_SIZE) as [Hlt|Hge].
  - apply wp_bind, wp_modify, wp_ret. replace (Z.of_nat (length S) + 1) with (Z.of_nat (length (S ++ [c])))
      by (rewrite length_app; simpl; lia).
    apply (HQ _ (upd k c AT_MARK) (S ++ [c])). split; try done.
    + split; [done|by eapply tab_control|by apply marks_upd|lia|by left].
    + intros i x Hx. simpl. rewrite Es. destruct (decide (i = length S)) as [->|Hi].
      * rewrite lookup_insert_eq. rewrite list_lookup_middle in Hx by done. done.
      * rewrite lookup_insert_ne by lia. apply Hs. rewrite lookup_app_l in Hx; [done|].
        apply lookup_lt_Some in Hx. rewrite length_app in Hx. simpl in Hx. lia.
    + rewrite length_app. simpl. lia.
    + rewrite length_app. simpl. lia.
    + set_solver.
    + intros c2 [Hin|Hin]%elem_of_app; [by left|right]. apply list_elem_of_singleton in Hin as ->. split; [lia|split; [done|apply upd_eq]].
    + intros c' H1 H2 H3. rewrite (Hnew c' H1 H2 H3). split; [by exists p|set_solver].
  - apply wp_bind, wp_modify, wp_ret. apply (HQ _ (upd k c AT_MARK) S). split; try done.
    + split; [done|by eapply tab_control|by apply marks_upd|lia|right; split; [done|lia]].
    + intros i x Hx. simpl. rewrite Es. by apply Hs.
    + lia.
    + by left.
    + intros c' H1 H2 H3. rewrite (Hnew c' H1 H2 H3). split; [by exists p|done].
Qed.

(** The words at [n] addresses from [ptrs] on. *)
Definition words_at (m : gmap Z Z) (ptrs : Z) (n : nat) (p : Z) : Prop :=
  exists i, 0 <= i < Z.of_nat n /\ word m (ptrs + 4 * i) = Some p.

Definition scannable (s : mp_state_mem_t) (ptrs : Z) (n : nat) : Prop :=
  forall a, ptrs <= a < ptrs + 4 * Z.of_nat n -> is_Some (bytes s !! a) /\ ~ in_table s a.

Lemma words_at_cons m ptrs n p q : word m ptrs = Some p ->
  (q = p \/ words_at m (ptrs + 4) n q) <-> words_at m ptrs (S n) q.
Proof.
  intros Hp. split.
  - intros [->|(i & Hi & Hq)]; [exists 0; split; [lia|by rewrite Z.add_0_r]|].
    exists (i + 1). split; [lia|]. rewrite <- Hq. f_equal. lia.
  - intros (i & Hi & Hq). destruct (decide (i = 0)) as [->|].
    + left. rewrite Z.add_0_r in Hq. congruence.
    + right. exists (i - 1). split; [lia|]. rewrite <- Hq. f_equal. lia.
Qed.

Lemma scannable_frame s s' ptrs n : gframe s s' -> scannable s ptrs n ->
  scannable s' ptrs n /\ forall p, words_at (bytes s') ptrs n p <-> words_at (bytes s) ptrs n p.
Proof.
  intros (L & _ & B) H. split.
  - intros a Ha. destruct (H a Ha) as [Hs Ht]. rewrite (in_table_layout s s' a L), B by done. done.
  - intros p. unfold words_at. split; intros (i & Hi & Hw); exists i; split; try done; rewrite <- Hw;
      [symmetry|]; apply word_ext; intros j Hj; apply B; apply H; lia.
Qed.

Lemma wp_mark_ptrs n : forall ptrs s k S (Q : Z -> mp_state_mem_t -> Prop),
  tab s k -> stk s S -> Z.of_nat (length S) <= MICROPY_ALLOC_GC_STACK_SIZE -> scannable s ptrs n ->
  (forall s' k' S', traced (words_at (bytes s) ptrs n) s k S s' k' S' -> Q (Z.of_nat (length S')) s') ->
  wp (mark_ptrs n ptrs (Z.of_nat (length S))) Q s.
Proof.
  induction n as [|n IH]; intros ptrs s k S Q T Hs Hl Hsc HQ; simpl.
  - apply wp_ret, (HQ s k S). eapply traced_weaken; [|by apply traced_refl].
    intros p. split; [done|]. intros (i & Hi & _). lia.
  - destruct (word_some (bytes s) ptrs) as [p Hp]; [intros i Hi; apply Hsc; lia|].
    apply wp_bind, (wp_rdp s ptrs p); [done|]. apply wp_bind, (wp_mark_child s k S p); [done..|].
    intros s1 k1 S1 R1. pose proof (r_adv _ _ _ _ _ _ _ R1) as A1.
    assert (Hsc' : scannable s (ptrs + 4) n) by (intros a Ha; apply Hsc; lia).
    destruct (scannable_frame s s1 (ptrs + 4) n (a_frame _ _ _ _ A1) Hsc') as [Hsc1 Hw1].
    apply (IH (ptrs + 4) s1 k1 S1); [apply A1|apply R1|apply R1|done|].
    intros s2 k2 S2 R2. apply (HQ s2 k2 S2).
    eapply traced_weaken; [|eapply traced_trans; [exact T|exact R1|exact R2]].
    intros q. cbv beta. rewrite Hw1. by apply words_at_cons.
Qed.

(** * One object and what it leads to *)

Definition closed (s : mp_state_mem_t) (k : Z -> Z) (h : Z) : Prop := forall c, edge s k h c -> k c = AT_MARK.

Definition reaches (s : mp_state_mem_t) (k : Z -> Z) : Z -> Z -> Prop := rtc (edge s k).

Lemma edge_range s k h c : tab s k -> edge s k h c -> 0 <= c < max_block s /\ is_head k c.
Proof. intros T (n & i & p & _ & _ & _ & Hr & Hh). split; [by eapply refers_range|done]. Qed.

Lemma closed_advance s k s' k' h : tab s k -> advance s k s' k' -> closed s k h -> closed s' k' h.
Proof.
  intros T A H c Hc. rewrite (advance_edge s k s' k') in Hc by done. pose proof (edge_range _ _ _ _ T Hc) as [? _].
  eapply marks_mark; [apply A|done|by apply H].
Qed.

(** Every block that is marked is one of [X] or closed, unless the stack has
    overflowed. *)
Definition complete (X : Z -> Prop) (s : mp_state_mem_t) (k : Z -> Z) : Prop :=
  gc_stack_overflow s = 0 -> forall m, 0 <= m < max_block s -> k m = AT_MARK -> X m \/ closed s k m.

(** Heads marked since [k] satisfy [Y]. *)
Definition only (Y : Z -> Prop) (s : mp_state_mem_t) (k k' : Z -> Z) : Prop :=
  forall m, 0 <= m < max_block s -> k m = AT_HEAD -> k' m = AT_MARK -> Y m.

Lemma only_trans Y s k s1 k1 k2 : advance s k s1 k1 -> only Y s k k1 -> only Y s1 k1 k2 -> only Y s k k2.
Proof.
  intros A H1 H2 m Hm Hk Hk2. destruct (a_marks _ _ _ _ A m Hm) as [E|[_ E]]; [|by apply H1].
  apply H2; [by rewrite (advance_max s k s1 k1)|congruence|done].
Qed.

Lemma complete_traced X s k S block s' k' S' n : tab s k ->
  complete (fun m => m = block \/ m ∈ S \/ X m) s k -> chain k (max_block s) block n ->
  traced (words_at (bytes s) (PTR_FROM_BLOCK block s) (Z.to_nat (n * BYTES_PER_BLOCK / 4))) s k S s' k' S' ->
  complete (fun m => m ∈ S' \/ X m) s' k'.
Proof.
  intros T Hcm Hch R Ho m Hm Hk. pose proof (r_adv _ _ _ _ _ _ _ R) as A.
  rewrite (advance_max s k s' k') in Hm by done.
  assert (Ho0 : gc_stack_overflow s = 0) by (destruct (a_over _ _ _ _ A) as [|[]]; [congruence|lia]).
  destruct (a_marks _ _ _ _ A m Hm) as [E|[E1 E2]].
  - rewrite E in Hk. destruct (Hcm Ho0 m Hm Hk) as [[->|[Hin|Hx]]|Hcl].
    + right. intros c Hc. rewrite (advance_edge s k s' k') in Hc by done.
      destruct Hc as (n' & i & p & Hch' & Hi & Hw & Hr & Hh). rewrite (chain_inj _ _ _ _ _ Hch' Hch) in Hi.
      eapply (r_done _ _ _ _ _ _ _ R); [|done|done]. exists i. unfold PTR_FROM_BLOCK, BYTES_PER_BLOCK.
      split; [lia|]. rewrite <- Hw. f_equal. lia.
    + left; left. by eapply r_keep.
    + left; by right.
    + right. by eapply closed_advance.
  - left; left. by apply (r_new _ _ _ _ _ _ _ R m).
Qed.

Lemma traced_only s k S block s' k' S' n b : chain k (max_block s) block n ->
  reaches s k b block ->
  traced (words_at (bytes s) (PTR_FROM_BLOCK block s) (Z.to_nat (n * BYTES_PER_BLOCK / 4))) s k S s' k' S' ->
  only (reaches s k b) s k k'.
Proof.
  intros Hch Hb R m Hm Hk Hk'. destruct (r_new _ _ _ _ _ _ _ R m Hm Hk Hk') as [(p & (i & Hi & Hw) & Hr) _].
  unfold reaches in *. eapply rtc_r; [exact Hb|]. exists n, i, p. unfold PTR_FROM_BLOCK, BYTES_PER_BLOCK in *.
  split; [done|]. split; [lia|]. split; [|split; [done|by left]]. rewrite <- Hw. f_equal. lia.
Qed.

Lemma reaches_advance s k s' k' b c : tab s k -> advance s k s' k' -> reaches s' k' b c <-> reaches s k b c.
Proof.
  intros T A. split; apply rtc_subrel; intros x y H; apply (advance_edge s k s' k' x y T A), H.
Qed.

(** What marking from [b] establishes when all but [X] were closed. *)
Definition subtree_post (X : Z -> Prop) (b : Z) (s : mp_state_mem_t) (k : Z -> Z) (s' : mp_state_mem_t) (k' : Z -> Z) : Prop :=
  advance s k s' k' /\ complete X s' k' /\ only (reaches s k b) s k k'.

Lemma chain_scannable s k block n : tab s k -> chain k (max_block s) block n ->
  scannable s (PTR_FROM_BLOCK block s) (Z.to_nat (n * BYTES_PER_BLOCK / 4)).
Proof.
  intros T (? & ? & ? & _) a Ha. destruct (tab_bound s k T). pose proof (t_geo _ _ T).
  unfold PTR_FROM_BLOCK, BYTES_PER_BLOCK, in_table in *. split; [apply (t_pool _ _ T); lia|lia].
Qed.

Lemma mark_loop X b s0 k0 (Q : unit -> mp_state_mem_t -> Prop) : tab s0 k0 ->
  (forall s' k', subtree_post X b s0 k0 s' k' -> Q tt s') ->
  forall fuel s k S block, (length S + unmarked (max_block s) k < fuel)%nat ->
  advance s0 k0 s k -> only (reaches s0 k0 b) s0 k0 k -> stk s S ->
  Z.of_nat (length S) <= MICROPY_ALLOC_GC_STACK_SIZE ->
  (forall c, c = block \/ c ∈ S -> 0 <= c < max_block s /\ reaches s0 k0 b c) ->
  complete (fun m => m = block \/ m ∈ S \/ X m) s k ->
  wp (loop fuel mark_step (block, Z.of_nat (length S))) Q s.
Proof.
  intros T0 HQ. induction fuel as [|fuel IH]; intros s k S block Hf A0 Ho0 Hs Hl HS Hcm; [lia|].
  pose proof (a_tab _ _ _ _ A0) as T. destruct (HS block (or_introl eq_refl)) as [Hb Hrb].
  apply wp_loop_step, wp_bind, (wp_n_blocks_of s k); [done..|]. intros n Hch.
  apply wp_bind, wp_gets, wp_bind, (wp_mark_ptrs _ _ s k S); [done..|by eapply chain_scannable|].
  intros s' k' S' R. pose proof (r_adv _ _ _ _ _ _ _ R) as A. pose proof (advance_max _ _ _ _ A) as En.
  pose proof (complete_traced X s k S block s' k' S' n T Hcm Hch R) as Hcm'.
  assert (Hon : only (reaches s0 k0 b) s k k').
  { intros m Hm H1 H2. apply (reaches_advance s0 k0 s k); [done..|]. eapply traced_only; [exact Hch| |exact R|done..].
    by apply (reaches_advance s0 k0 s k). }
  assert (Ho' : only (reaches s0 k0 b) s0 k0 k') by (by eapply only_trans).
  pose proof (advance_trans _ _ _ _ _ _ A0 A) as A'. pose proof (r_less _ _ _ _ _ _ _ R) as Hls.
  destruct S' as [|x S'' _] using rev_ind.
  - simpl. apply wp_ret, (HQ s' k'). split_and!; try done. intros Ho m Hm Hk. destruct (Hcm' Ho m Hm Hk) as [[Hin|?]|?]; [|by left|by right].
    by apply not_elem_of_nil in Hin.
  - rewrite length_app in *. change (length [x]) with 1%nat in *. destruct (Z.eqb_spec (Z.of_nat (length S'' + 1)) 0); [lia|].
    apply wp_bind, (wp_getso _ x).
    { replace (Z.of_nat (length S'' + 1) - 1) with (Z.of_nat (length S'')) by lia.
      apply (r_stk _ _ _ _ _ _ _ R). by apply list_lookup_middle. }
    apply wp_ret. replace (Z.of_nat (length S'' + 1) - 1) with (Z.of_nat (length S'')) by lia.
    apply (IH s' k' S'' x); try done.
    + rewrite En. lia.
    + intros i y Hy. apply (r_stk _ _ _ _ _ _ _ R). by apply lookup_app_l_Some.
    + pose proof (r_len _ _ _ _ _ _ _ R) as Hl'. rewrite length_app in Hl'. change (length [x]) with 1%nat in *. lia.
    + intros c Hc. rewrite En. destruct (r_push _ _ _ _ _ _ _ R c) as [Hin|(H1 & H2 & H3)]; [set_solver|apply HS; by right|].
      split; [done|by apply Hon].
    + intros Ho m Hm Hk. destruct (Hcm' Ho m Hm Hk) as [[Hin|?]|?]; [left|left|]; set_solver.
Qed.

Lemma wp_gc_mark_subtree X b s k (Q : unit -> mp_state_mem_t -> Prop) : tab s k -> 0 <= b < max_block s ->
  complete (fun m => m = b \/ X m) s k ->
  (forall s' k', subtree_post X b s k s' k' -> Q tt s') ->
  wp (gc_mark_subtree b) Q s.
Proof.
  intros T Hb Hcm HQ. apply wp_fuel. pose proof (tab_fuel s k T). destruct (tab_bound s k T).
  pose proof (unmarked_bound (max_block s) k).
  apply (mark_loop X b s k Q T HQ _ s k [] b); simpl.
  - lia.
  - by apply advance_refl.
  - intros m _ ? ?. kinds.
  - intros i x. rewrite lookup_nil. done.
  - done.
  - intros c [->|Hc]; [split; [done|apply rtc_refl]|by apply not_elem_of_nil in Hc].
  - intros Ho m Hm Hk. destruct (Hcm Ho m Hm Hk) as [[|]|]; set_solver.
Qed.

(** * Roots *)

(** [c] can be reached from one of the pointers [W]. *)
Definition rooted (W : Z -> Prop) (s : mp_state_mem_t) (k : Z -> Z) (c : Z) : Prop :=
  exists p r, W p /\ refers s p r /\ is_head k r /\ reaches s k r c.

(** The pointers [W] have been followed to the end, unless the stack overflowed. *)
Record collected (W : Z -> Prop) (s : mp_state_mem_t) (k : Z -> Z) (s' : mp_state_mem_t) (k' : Z -> Z) : Prop := {
  c_adv : advance s k s' k';
  c_complete : complete (fun _ => False) s' k';
  c_only : only (rooted W s k) s k k';
  c_done : forall p c, W p -> refers s p c -> is_head k c -> k' c = AT_MARK
}.

Lemma collected_refl s k : tab s k -> complete (fun _ => False) s k -> collected (fun _ => False) s k s k.
Proof. intros T C. split; try done; [by apply advance_refl|]. intros m _ ? ?. kinds. Qed.

Lemma rooted_advance W s k s' k' c : tab s k -> advance s k s' k' -> rooted W s' k' c <-> rooted W s k c.
Proof.
  intros T A. unfold rooted. split; intros (p & r & Hp & Hr & Hh & Hc); exists p, r.
  - rewrite (advance_refers s k s' k') in Hr by done. rewrite (reaches_advance s k s' k') in Hc by done.
    split_and!; try done. by apply (advance_head s k s' k' p).
  - rewrite (advance_refers s k s' k') by done. rewrite (reaches_advance s k s' k') by done.
    split_and!; try done. by apply (advance_head s k s' k' p).
Qed.

Lemma collected_trans W1 W2 s k s1 k1 s2 k2 : tab s k -> collected W1 s k s1 k1 -> collected W2 s1 k1 s2 k2 ->
  collected (fun p => W1 p \/ W2 p) s k s2 k2.
Proof.
  intros T [A1 C1 O1 D1] [A2 C2 O2 D2]. pose proof (advance_max _ _ _ _ A1) as E. split; try done.
  - by eapply advance_trans.
  - eapply only_trans; [exact A1| |].
    + intros m Hm H1 H2. destruct (O1 m Hm H1 H2) as (p & r & ? & ?). exists p, r. split; [by left|done].
    + intros m Hm H1 H2. apply O2 in H2; [|done..]. apply (rooted_advance W2 s k s1 k1) in H2; [|done..].
      destruct H2 as (p & r & ? & ?). exists p, r. split; [by right|done].
  - intros p c [Hp|Hp] Hr Hh.
    + eapply marks_mark; [apply A2|rewrite E; by eapply refers_range|by eapply D1].
    + eapply D2; [done|by apply (advance_refers s k s1 k1)|].
      by apply (advance_head s k s1 k1 p).
Qed.

Lemma collected_weaken W W' s k s' k' : (forall p, W p <-> W' p) -> collected W s k s' k' -> collected W' s k s' k'.
Proof.
  intros HW [A C O D]. split; try done.
  - intros m Hm H1 H2. destruct (O m Hm H1 H2) as (p & r & ? & ?). exists p, r. by rewrite <- HW.
  - intros p c Hp. apply (D p c). by apply HW.
Qed.

(** One root. *)
Lemma wp_collect_ptr p s k (Q : unit -> mp_state_mem_t -> Prop) : tab s k -> complete (fun _ => False) s k ->
  (forall s' k', collected (fun q => q = p) s k s' k' -> Q tt s') ->
  wp (collect_ptr p) Q s.
Proof.
  intros T C HQ.
  assert (Hskip : (forall c, refers s p c -> k c <> AT_HEAD) -> Q tt s).
  { intros Hno. apply (HQ s k). split; try done; [by apply advance_refl|intros m _ ? ?; kinds|].
    intros q c -> Hr [Hh|Hh]; [by destruct (Hno c Hr)|done]. }
  apply wp_bind, wp_gets.
  destruct (VERIFY_PTR p s) eqn:Ev; [|apply wp_ret, Hskip; intros c [? _]; congruence].
  apply wp_bind, wp_gets. set (b := BLOCK_FROM_PTR p s) in *.
  assert (Hr : refers s p b) by done. pose proof (refers_range s k p b T Hr) as Hb.
  apply wp_bind, (wp_kind s k T); [done|].
  destruct (Z.eqb_spec (k b) AT_HEAD) as [Hk|Hk]; simpl; [|apply wp_ret, Hskip; intros c' [_ ->]; done].
  apply wp_bind, (wp_head_to_mark s k T); [done..|]. intros s1 F T1 Es Eo.
  pose proof (unmarked_mark (max_block s) k b Hb Hk) as Eu. pose proof (max_block_layout s s1 (proj1 F)) as E1.
  assert (A1 : advance s k s1 (upd k b AT_MARK)) by (split; [done|done|by apply marks_upd|lia|by left]).
  apply (wp_gc_mark_subtree (fun _ => False) b s1 (upd k b AT_MARK)); [done|by rewrite E1| |].
  - intros Ho m Hm Hmk. rewrite E1 in Hm. destruct (decide (m = b)) as [->|Hne]; [left; by left|right].
    rewrite upd_ne in Hmk by done. rewrite Eo in Ho. destruct (C Ho m Hm Hmk) as [[]|Hcl].
    apply (closed_advance s k s1 (upd k b AT_MARK) m T A1 Hcl).
  - intros s2 k2 (A2 & C2 & O2). apply (HQ s2 k2).
    pose proof (marks_mark _ _ _ b (a_marks _ _ _ _ A2) ltac:(by rewrite E1) (upd_eq k b AT_MARK)) as Hk2.
    split; [by eapply advance_trans|done| |].
    + intros m Hm H1 H2. exists p, b. split; [done|]. split; [done|]. split; [by left|].
      destruct (decide (m = b)) as [->|Hne]; [apply rtc_refl|].
      apply (reaches_advance s k s1 (upd k b AT_MARK)); [done..|]. apply O2; [by rewrite E1|by rewrite upd_ne|done].
    + intros q c -> [_ ->] _. done.
Qed.

Lemma wp_collect_root n : forall ptrs s k (Q : unit -> mp_state_mem_t -> Prop),
  tab s k -> complete (fun _ => False) s k -> scannable s ptrs n ->
  (forall s' k', collected (words_at (bytes s) ptrs n) s k s' k' -> Q tt s') ->
  wp (collect_root n ptrs) Q s.
Proof.
  induction n as [|n IH]; intros ptrs s k Q T C Hsc HQ; simpl.
  - apply wp_ret, (HQ s k). eapply collected_weaken; [|by apply collected_refl].
    intros p. split; [done|]. intros (i & Hi & _). lia.
  - destruct (word_some (bytes s) ptrs) as [p Hp]; [intros i Hi; apply Hsc; lia|].
    apply wp_bind, (wp_rdp s ptrs p); [done|]. apply wp_bind, (wp_collect_ptr p s k); [done..|].
    intros s1 k1 R1. pose proof (c_adv _ _ _ _ _ R1) as A1.
    assert (Hsc' : scannable s (ptrs + 4) n) by (intros a Ha; apply Hsc; lia).
    destruct (scannable_frame s s1 (ptrs + 4) n (a_frame _ _ _ _ A1) Hsc') as [Hsc1 Hw1].
    apply (IH (ptrs + 4) s1 k1); [apply A1|apply R1|done|].
    intros s2 k2 R2. apply (HQ s2 k2).
    eapply collected_weaken; [|eapply collected_trans; [exact T|exact R1|exact R2]].
    intros q. cbv beta. rewrite Hw1. by apply words_at_cons.
Qed.
