(* ===== verification/GcSweep.v ===== *)
(** GcSweep: marking again after the mark stack has overflowed, sweeping, and
    the collection that they complete. *)

From stdpp Require Import options.
From S2P Require Import Prelude Gc GcRep GcMark.

#[local] Ltac Zify.zify_post_hook ::= Z.to_euclidean_division_equations.

(** * Marking again *)

(** What is marked when nothing is left to follow: the heads [k] had marked and
    what they lead to. *)
Record all_marked (s : mp_state_mem_t) (k : Z -> Z) (s' : mp_state_mem_t) (k' : Z -> Z) : Prop := {
  m_frame : gframe s s';
  m_tab : tab s' k';
  m_marks : marks (max_block s) k k';
  m_only : forall m, 0 <= m < max_block s -> k' m = AT_MARK ->
             exists b, 0 <= b < max_block s /\ k b = AT_MARK /\ reaches s k b m
}.

Lemma reaches_frame s s' k k' b c : tab s k -> gframe s s' -> marks (max_block s) k k' ->
  reaches s' k' b c <-> reaches s k b c.
Proof. intros T F Mk. split; apply rtc_subrel; intros x y H; apply (edge_frame s s' k k' x y T F Mk), H. Qed.

Lemma all_marked_refl s k : tab s k -> all_marked s k s k.
Proof.
  intros T. split; [apply gframe_refl|done|apply marks_refl|]. intros m Hm Hk. exists m. split; [done|split; [done|apply rtc_refl]].
Qed.

Lemma all_marked_max s k s' k' : all_marked s k s' k' -> max_block s' = max_block s.
Proof. intros A. apply max_block_layout, (m_frame _ _ _ _ A). Qed.

Lemma all_marked_trans s0 k0 s k s' k' : tab s0 k0 -> all_marked s0 k0 s k -> all_marked s k s' k' -> all_marked s0 k0 s' k'.
Proof.
  intros T A0 A. pose proof (all_marked_max _ _ _ _ A0) as E. destruct A0 as [F0 T0 M0 O0], A as [F1 T1 M1 O1].
  rewrite E in *. split; [by eapply gframe_trans|done|by eapply marks_trans|].
  intros m Hm Hk. destruct (O1 m Hm Hk) as (b & Hb & Hkb & Hr). destruct (O0 b Hb Hkb) as (a & Ha & Hka & Hra).
  exists a. split; [done|split; [done|]]. unfold reaches in *. etrans; [exact Hra|].
  by apply (reaches_frame s0 s k0 k).
Qed.

Lemma all_marked_subtree X b s k s' k' : tab s k -> 0 <= b < max_block s -> k b = AT_MARK ->
  subtree_post X b s k s' k' -> all_marked s k s' k'.
Proof.
  intros T Hb Hk (A & C & O). split; try apply A. intros m Hm Hk'. destruct (a_marks _ _ _ _ A m Hm) as [E|[E1 E2]].
  - exists m. split; [done|split; [congruence|apply rtc_refl]].
  - exists b. split; [done|split; [done|by apply O]].
Qed.

(** One pass over the table. *)
Lemma wp_retrace_blocks n : forall i s k (Q : unit -> mp_state_mem_t -> Prop),
  tab s k -> 0 <= i -> i + Z.of_nat n = max_block s -> complete (fun m => i <= m) s k ->
  (forall s' k', advance s k s' k' -> all_marked s k s' k' -> complete (fun _ => False) s' k' -> Q tt s') ->
  wp (for_blocks n i retrace) Q s.
Proof.
  induction n as [|n IH]; intros i s k Q T Hi Hn C HQ; simpl.
  - apply wp_ret, (HQ s k); [by apply advance_refl|by apply all_marked_refl|].
    intros Ho m Hm Hk. destruct (C Ho m Hm Hk) as [?|?]; [lia|by right].
  - apply wp_bind. unfold retrace at 1. apply wp_bind, (wp_kind s k T); [lia|].
    destruct (Z.eqb_spec (k i) AT_MARK) as [Hk|Hk]; simpl.
    + apply (wp_gc_mark_subtree (fun m => i + 1 <= m) i s k); [done|lia| |].
      { intros Ho m Hm Hkm. destruct (C Ho m Hm Hkm) as [?|?]; [left; lia|by right]. }
      intros s1 k1 P. pose proof P as (A1 & C1 & _). pose proof (advance_max _ _ _ _ A1) as E.
      apply (IH (i + 1) s1 k1); [apply A1|lia|lia|done|]. intros s2 k2 A2 M2 C2. apply (HQ s2 k2); [by eapply advance_trans| |done].
      eapply all_marked_trans; [done|eapply all_marked_subtree; [done| |exact Hk|exact P]; lia|done].
    + apply wp_ret, (IH (i + 1) s k); [done|lia|lia| |done].
      intros Ho m Hm Hkm. destruct (C Ho m Hm Hkm) as [?|?]; [left|by right].
      destruct (decide (m = i)) as [->|]; [done|lia].
Qed.

Lemma tab_overflow s k v : tab s k -> tab (set_overflow v s) k.
Proof. intros T. by eapply tab_control. Qed.

(** The loop ends: a pass that overflows the stack again has marked something. *)
Lemma wp_gc_deal_with_stack_overflow s k (Q : unit -> mp_state_mem_t -> Prop) :
  tab s k -> complete (fun _ => False) s k ->
  (forall s' k', all_marked s k s' k' -> (forall m, 0 <= m < max_block s -> k' m = AT_MARK -> closed s' k' m) -> Q tt s') ->
  wp gc_deal_with_stack_overflow Q s.
Proof.
  intros T C HQ. apply wp_fuel.
  assert (H : forall fuel s1 k1,
            (unmarked (max_block s) k1 + (if decide (gc_stack_overflow s1 = 0%Z) then 0 else 1) < fuel)%nat ->
            all_marked s k s1 k1 -> complete (fun _ => False) s1 k1 -> wp (loop fuel overflow_step tt) Q s1).
  { induction fuel as [|fuel IH]; intros s1 k1 Hf M1 C1; [lia|]. pose proof (all_marked_max _ _ _ _ M1) as E1.
    apply wp_loop_step. unfold overflow_step. apply wp_bind, wp_gets. destruct (Z.eqb_spec (gc_stack_overflow s1) 0) as [Ho|Ho].
    - apply wp_ret, (HQ s1 k1 M1). intros m Hm Hk. destruct (C1 Ho m) as [[]|]; [by rewrite E1|done|done].
    - rewrite decide_False in Hf by done. apply wp_bind, wp_modify, wp_bind, wp_gets, wp_bind.
      pose proof (tab_overflow s1 k1 0 (m_tab _ _ _ _ M1)) as T1. destruct (tab_bound _ _ (m_tab _ _ _ _ M1)).
      apply (wp_retrace_blocks _ 0 (set_overflow 0 s1) k1); [done|lia|change (max_block (set_overflow 0 s1)) with (max_block s1); lia| |].
      { intros _ m Hm _. left. lia. }
      intros s2 k2 A2 M2 C2. apply wp_ret. apply (IH s2 k2); [|eapply all_marked_trans; [done|exact M1|by destruct M2]|done].
      pose proof (a_less _ _ _ _ A2) as Hl. change (max_block (set_overflow 0 s1)) with (max_block s1) in Hl. rewrite E1 in Hl.
      destruct (a_over _ _ _ _ A2) as [Ho2|[Ho2 Hl2]]; simpl in Ho2.
      + rewrite decide_True by done. lia.
      + change (max_block (set_overflow 0 s1)) with (max_block s1) in Hl2. rewrite E1 in Hl2.
        rewrite decide_False by lia. lia. }
  pose proof (tab_fuel s k T). destruct (tab_bound s k T). pose proof (unmarked_bound (max_block s) k).
  apply (H _ s k); [destruct (decide _); lia|by apply all_marked_refl|done].
Qed.

(** * Sweeping *)

(** Every tail follows a head, a marked head or another tail. *)
Definition kwf (N : Z) (k : Z -> Z) : Prop := forall b, 0 <= b < N -> k b = AT_TAIL -> 0 < b /\ k (b - 1) <> AT_FREE.

(** Block [b] is of an object whose head is marked. *)
Fixpoint kept (k : Z -> Z) (b : nat) : bool :=
  if k (Z.of_nat b) =? AT_MARK then true
  else if k (Z.of_nat b) =? AT_TAIL then match b with O => false | S b => kept k b end
  else false.

Definition sweep_kind (k : Z -> Z) (b : Z) : Z :=
  if kept k (Z.to_nat b) then (if k b =? AT_MARK then AT_HEAD else AT_TAIL) else AT_FREE.

Lemma kept_tail k b : 0 < b -> k b = AT_TAIL -> kept k (Z.to_nat b) = kept k (Z.to_nat (b - 1)).
Proof.
  intros Hb Hk. replace (Z.to_nat b) with (S (Z.to_nat (b - 1))) by lia. cbn [kept].
  replace (Z.of_nat (S (Z.to_nat (b - 1)))) with b by lia. by rewrite Hk.
Qed.

Lemma kept_other k b : 0 <= b -> k b <> AT_TAIL -> kept k (Z.to_nat b) = (k b =? AT_MARK).
Proof.
  intros Hb Hk. destruct (Z.to_nat b) eqn:E; cbn [kept]; rewrite <- E, Z2Nat.id by done;
    (destruct (Z.eqb_spec (k b) AT_MARK); [done|]; by destruct (Z.eqb_spec (k b) AT_TAIL)).
Qed.

(** The sweep so far: [k'] is the new table below [i] and the old one from [i] on. *)
Definition half_swept (k : Z -> Z) (i : Z) (k' : Z -> Z) : Prop :=
  forall b, 0 <= b -> k' b = if decide (b < i) then sweep_kind k b else k b.

Lemma half_swept_next k i k' v : half_swept k i k' -> v = sweep_kind k i -> half_swept k (i + 1) (upd k' i v).
Proof.
  intros H -> b Hb. destruct (decide (b = i)) as [->|Hne]; [rewrite upd_eq, decide_True by lia; done|].
  rewrite upd_ne, H by done. destruct (decide (b < i)), (decide (b < i + 1)); (done || lia).
Qed.

Lemma half_swept_same k i k' : half_swept k i k' -> k i = sweep_kind k i -> half_swept k (i + 1) k'.
Proof.
  intros H E b Hb. rewrite H by done. destruct (decide (b < i)), (decide (b < i + 1)); try (done || lia).
  by replace b with i by lia.
Qed.

Lemma wp_sweep_blocks k n : forall i ft s k' (Q : unit -> mp_state_mem_t -> Prop),
  tab s k' -> half_swept k i k' -> 0 <= i -> i + Z.of_nat n = max_block s -> kwf (max_block s) k ->
  (0 < n -> k i = AT_TAIL -> ft = negb (kept k (Z.to_nat (i - 1))))%nat ->
  (forall s' k'', gframe s s' -> tab s' k'' -> half_swept k (max_block s) k'' -> Q tt s') ->
  wp (sweep_blocks n i ft) Q s.
Proof.
  induction n as [|n IH]; intros i ft s k' Q T Hh Hi Hn Hw Hft HQ; simpl.
  - apply wp_ret, (HQ s k'); [apply gframe_refl|done|]. by replace (max_block s) with i by lia.
  - assert (Ek : k' i = k i) by (rewrite Hh, decide_False by lia; done).
    assert (Hgo : forall s1 k1 ft1, gframe s s1 -> tab s1 k1 -> half_swept k (i + 1) k1 ->
              (i + 1 < max_block s -> k (i + 1) = AT_TAIL -> ft1 = negb (kept k (Z.to_nat i))) ->
              wp (sweep_blocks n (i + 1) ft1) Q s1).
    { intros s1 k1 ft1 F1 T1 H1 Hf1. pose proof (max_block_layout s s1 (proj1 F1)) as E1.
      apply (IH (i + 1) ft1 s1 k1); [done|done|lia|lia|by rewrite E1| |].
      - intros Hpos Ht. replace (i + 1 - 1) with i by lia. apply Hf1; [lia|done].
      - intros s2 k2 F2 T2 H2. rewrite E1 in H2. apply (HQ s2 k2); [by eapply gframe_trans|done|done]. }
    pose proof (tab_range s k' i T ltac:(lia)) as Hrange. rewrite Ek in Hrange.
    apply wp_bind, (wp_kind s k' T); [lia|]. rewrite Ek.
    assert (Hko : k i <> AT_TAIL -> kept k (Z.to_nat i) = (k i =? AT_MARK)) by (by apply kept_other).
    assert (Hsk : k i <> AT_TAIL -> sweep_kind k i = if k i =? AT_MARK then AT_HEAD else AT_FREE).
    { intros Hne. unfold sweep_kind. rewrite Hko by done. by destruct (k i =? AT_MARK). }
    destruct (Z.eqb_spec (k i) AT_HEAD) as [Hk|Hk]; [|destruct (Z.eqb_spec (k i) AT_TAIL) as [Hk'|Hk'];
      [|destruct (Z.eqb_spec (k i) AT_MARK) as [Hk2|Hk2]]].
    + rewrite Hk in Hko, Hsk. apply wp_bind, wp_bind, (wp_any_to_free s k' T); [lia|]. intros s1 F1 T1 _ _. apply wp_ret.
      apply (Hgo s1 _ true F1 T1); [by apply half_swept_next; [|rewrite Hsk]|]. intros _ _. by rewrite Hko.
    + pose proof (Hw i ltac:(lia) Hk') as [Hpos _]. pose proof (kept_tail k i Hpos Hk') as Et.
      rewrite Hft by (lia || done). rewrite <- Et. unfold when.
      destruct (kept k (Z.to_nat i)) eqn:Ekp; simpl.
      * apply wp_bind, wp_bind, wp_ret, wp_ret. apply (Hgo s k' false (gframe_refl s) T); [|done].
        apply half_swept_same; [done|]. unfold sweep_kind. by rewrite Ekp, Hk'.
      * apply wp_bind, wp_bind, (wp_any_to_free s k' T); [lia|]. intros s1 F1 T1 _ _. apply wp_ret.
        apply (Hgo s1 _ true F1 T1); [|done]. apply half_swept_next; [done|]. unfold sweep_kind. by rewrite Ekp.
    + rewrite Hk2 in Hko, Hsk. apply wp_bind, wp_bind, (wp_mark_to_head s k' T); [lia|congruence|]. intros s1 F1 T1 _ _. apply wp_ret.
      apply (Hgo s1 _ false F1 T1); [by apply half_swept_next; [|rewrite Hsk]|]. intros _ _. by rewrite Hko.
    + apply wp_bind, wp_ret. assert (Hf : k i = AT_FREE) by kinds. rewrite Hf in Hsk.
      apply (Hgo s k' ft (gframe_refl s) T); [apply half_swept_same; [done|by rewrite Hf, Hsk]|].
      intros Hlt Ht. destruct (Hw (i + 1) ltac:(lia) Ht) as [_ Hne]. by replace (i + 1 - 1) with i in Hne by lia.
Qed.

Lemma wp_gc_sweep s k (Q : unit -> mp_state_mem_t -> Prop) : tab s k -> kwf (max_block s) k ->
  (forall s', gframe s s' -> tab s' (sweep_kind k) -> Q tt s') -> wp gc_sweep Q s.
Proof.
  intros T Hw HQ. destruct (tab_bound s k T). apply wp_bind, wp_gets.
  apply (wp_sweep_blocks k _ 0 false s k); [done| |lia|lia|done| |].
  - intros b Hb. by rewrite decide_False by lia.
  - intros Hn Ht. destruct (Hw 0); [lia|done|lia].
  - intros s' k' F T' Hh. apply (HQ s' F). eapply tab_ext; [exact T'|]. intros b Hb.
    rewrite (max_block_layout s s' (proj1 F)) in Hb. by rewrite Hh, decide_True by lia.
Qed.

Lemma kept_chain k N h n b : chain k N h n -> k h <> AT_TAIL -> h <= b < h + n ->
  kept k (Z.to_nat b) = (k h =? AT_MARK).
Proof.
  intros (Hh & _ & _ & Ht & _) Hk Hb. replace b with (h + Z.of_nat (Z.to_nat (b - h))) in * by lia.
  induction (Z.to_nat (b - h)) as [|j IH]; [rewrite Z.add_0_r; by apply kept_other|].
  rewrite kept_tail; [|lia|apply Ht; lia]. replace (h + Z.of_nat (S j) - 1) with (h + Z.of_nat j) by lia. apply IH. lia.
Qed.

Lemma kwf_marks N k k' : marks N k k' -> kwf N k -> kwf N k'.
Proof.
  intros Mk Hw b Hb Ht. apply (marks_tail N k k') in Ht; [|done..]. destruct (Hw b Hb Ht) as [? Hne]. split; [done|].
  destruct (Mk (b - 1)) as [->|[_ ->]]; [lia|done..].
Qed.

Lemma kwf_sweep N k : kwf N k -> kwf N (sweep_kind k).
Proof.
  intros Hw b Hb Ht. unfold sweep_kind in *. destruct (kept k (Z.to_nat b)) eqn:E; [|kinds].
  destruct (Z.eqb_spec (k b) AT_MARK); [kinds|].
  assert (Hk : k b = AT_TAIL).
  { destruct (decide (k b = AT_TAIL)) as [|Hne]; [done|]. rewrite kept_other in E by (lia || done). lia. }
  destruct (Hw b Hb Hk) as [Hp _]. split; [done|]. rewrite kept_tail in E by done. rewrite E.
  destruct (k (b - 1) =? AT_MARK); done.
Qed.

(** * Collection *)

Definition areas (R : roots) : list area := ctx_roots R :: stack_roots R :: thread_roots R.

(** The areas can be read and are not in the allocation table. *)
Definition roots_ok (s : mp_state_mem_t) (R : roots) : Prop :=
  Forall (fun a => scannable s (fst a) (Z.to_nat (snd a))) (areas R).

(** [p] is a word of one of the areas. *)
Definition area_word (m : gmap Z Z) (l : list area) (p : Z) : Prop :=
  exists a, a ∈ l /\ words_at m (fst a) (Z.to_nat (snd a)) p.

(** The object at block [h] can be reached from the roots. *)
Definition live (R : roots) (s : mp_state_mem_t) (k : Z -> Z) (h : Z) : Prop :=
  rooted (area_word (bytes s) (areas R)) s k h.

Lemma area_word_frame s s' l p : gframe s s' -> Forall (fun a => scannable s (fst a) (Z.to_nat (snd a))) l ->
  area_word (bytes s') l p <-> area_word (bytes s) l p.
Proof.
  intros F H. rewrite Forall_forall in H. unfold area_word.
  split; intros (a & Ha & Hw); exists a; (split; [done|]); by apply (scannable_frame s s' _ _ F (H a Ha)).
Qed.

Lemma areas_frame s s' l : gframe s s' -> Forall (fun a => scannable s (fst a) (Z.to_nat (snd a))) l ->
  Forall (fun a => scannable s' (fst a) (Z.to_nat (snd a))) l.
Proof. intros F H. eapply Forall_impl; [exact H|]. intros a Ha. by apply (scannable_frame s s' _ _ F). Qed.

Lemma collected_area a l s k s1 k1 s2 k2 : tab s k -> Forall (fun a => scannable s (fst a) (Z.to_nat (snd a))) l ->
  collected (words_at (bytes s) (fst a) (Z.to_nat (snd a))) s k s1 k1 ->
  collected (area_word (bytes s1) l) s1 k1 s2 k2 -> collected (area_word (bytes s) (a :: l)) s k s2 k2.
Proof.
  intros T Hl R1 R2. pose proof (a_frame _ _ _ _ (c_adv _ _ _ _ _ R1)) as F1.
  eapply collected_weaken; [|eapply collected_trans; [exact T|exact R1|exact R2]].
  intros p. cbv beta. rewrite (area_word_frame s s1 l p F1 Hl). unfold area_word. split.
  - intros [Hw|(b & Hb & Hw)]; [exists a|exists b]; set_solver.
  - intros (b & [->|Hb]%elem_of_cons & Hw); [by left|right; by exists b].
Qed.

Lemma wp_mp_thread_gc_others l : forall s k (Q : unit -> mp_state_mem_t -> Prop),
  tab s k -> complete (fun _ => False) s k -> Forall (fun a => scannable s (fst a) (Z.to_nat (snd a))) l ->
  (forall s' k', collected (area_word (bytes s) l) s k s' k' -> Q tt s') ->
  wp (mp_thread_gc_others l) Q s.
Proof.
  induction l as [|a l IH]; intros s k Q T C Hl HQ; simpl.
  - apply wp_ret, (HQ s k). eapply collected_weaken; [|by apply collected_refl].
    intros p. split; [done|]. by intros (a & Ha%not_elem_of_nil & _).
  - apply Forall_cons in Hl as [Ha Hl]. apply wp_bind, (wp_collect_root _ _ s k); [done..|].
    intros s1 k1 R1. pose proof (a_frame _ _ _ _ (c_adv _ _ _ _ _ R1)) as F1.
    apply (IH s1 k1); [apply R1|apply R1|by eapply areas_frame|]. intros s2 k2 R2. apply (HQ s2 k2).
    by eapply collected_area.
Qed.

(** No block is marked: the state of the table between collections. *)
Definition clean (N : Z) (k : Z -> Z) : Prop := forall b, 0 <= b < N -> k b <> AT_MARK.

(** What a collection leaves of the table [k]. *)
Record swept (R : roots) (s : mp_state_mem_t) (k k' : Z -> Z) : Prop := {
  w_wf : kwf (max_block s) k';
  w_clean : clean (max_block s) k';
  w_sub : forall b, 0 <= b < max_block s -> k' b = AT_FREE \/ k' b = k b;
  w_object : forall h n, k h = AT_HEAD -> chain k (max_block s) h n ->
    (live R s k h /\ forall b, h <= b < h + n -> k' b = k b) \/
    (~ live R s k h /\ forall b, h <= b < h + n -> k' b = AT_FREE)
}.

(** When marking is over, the marked heads are those that can be reached. *)
Lemma marked_live R s k s1 k1 s2 k2 h : tab s k -> clean (max_block s) k ->
  collected (area_word (bytes s) (areas R)) s k s1 k1 -> all_marked s1 k1 s2 k2 ->
  (forall m, 0 <= m < max_block s1 -> k2 m = AT_MARK -> closed s2 k2 m) ->
  0 <= h < max_block s -> k2 h = AT_MARK <-> live R s k h.
Proof.
  intros T Hcl R1 R2 Hc Hh. pose proof (c_adv _ _ _ _ _ R1) as A1. pose proof (advance_max _ _ _ _ A1) as E1.
  rewrite E1 in Hc. pose proof R2 as [F2 T2 M2 O2]. rewrite E1 in M2, O2. split.
  - intros Hk. destruct (O2 h Hh Hk) as (b & Hb & Hkb & Hr). destruct (a_marks _ _ _ _ A1 b Hb) as [E|[Hk0 _]].
    { destruct (Hcl b Hb). congruence. }
    destruct (c_only _ _ _ _ _ R1 b Hb Hk0 Hkb) as (p & r & Hp & Hpr & Hhr & Hrb). exists p, r.
    split; [done|]. split; [done|]. split; [done|]. unfold reaches in *. etrans; [exact Hrb|]. by apply (reaches_advance s k s1 k1).
  - intros (p & r & Hp & Hpr & Hhr & Hrh).
    assert (Hkr : k2 r = AT_MARK).
    { eapply marks_mark; [exact M2|by eapply refers_range|]. by eapply (c_done _ _ _ _ _ R1). }
    assert (Hrr : 0 <= r < max_block s) by (by eapply refers_range).
    clear Hp Hpr Hhr. induction Hrh as [|x y z Hxy Hyz IH]; [done|].
    destruct (edge_range _ _ _ _ T Hxy) as [Hy _]. apply IH; [done| |done].
    apply (Hc x Hrr Hkr). apply (edge_frame s1 s2 k1 k2); [apply A1|done|by rewrite E1|]. by apply (advance_edge s k s1 k1).
Qed.

Lemma swept_marks R s k k2 : kwf (max_block s) k -> clean (max_block s) k -> marks (max_block s) k k2 ->
  (forall h, 0 <= h < max_block s -> k2 h = AT_MARK <-> live R s k h) -> swept R s k (sweep_kind k2).
Proof.
  intros Hw Hcl Mk Hm.
  assert (Hkept : forall h n b, k h = AT_HEAD -> chain k (max_block s) h n -> h <= b < h + n ->
            kept k2 (Z.to_nat b) = (k2 h =? AT_MARK)).
  { intros h n b Hk Hch Hb. pose proof Hch as (? & ? & ? & _). eapply (kept_chain k2 (max_block s)); [by apply (chain_marks _ k k2)| |done].
    rewrite (marks_tail (max_block s) k k2) by (done || lia). kinds. }
  split.
  - by apply kwf_sweep, kwf_marks with k.
  - intros b Hb. unfold sweep_kind. destruct (kept k2 (Z.to_nat b)), (k2 b =? AT_MARK); kinds.
  - intros b Hb. unfold sweep_kind. destruct (kept k2 (Z.to_nat b)) eqn:E; [right|by left].
    destruct (Z.eqb_spec (k2 b) AT_MARK) as [E2|E2].
    { destruct (Mk b Hb) as [E3|[E3 _]]; [|done]. destruct (Hcl b Hb). congruence. }
    assert (Ht : k2 b = AT_TAIL).
    { destruct (decide (k2 b = AT_TAIL)) as [|Hne]; [done|]. rewrite kept_other in E by (lia || done). lia. }
    symmetry. by apply (marks_tail (max_block s) k k2).
  - intros h n Hk Hch. pose proof Hch as (? & ? & ? & Ht & _). unfold sweep_kind.
    destruct (decide (k2 h = AT_MARK)) as [Hk2|Hk2]; [left|right]; (split; [rewrite <- Hm by lia; done|]); intros b Hb;
      rewrite (Hkept h n b) by done; [rewrite Hk2|by destruct (Z.eqb_spec (k2 h) AT_MARK)].
    simpl. destruct (decide (b = h)) as [->|Hne]; [by rewrite Hk2|].
    assert (Hbt : k2 b = AT_TAIL) by (apply (marks_tail (max_block s) k k2); [done|lia|apply Ht; lia]).
    rewrite Hbt. simpl. by rewrite Ht by lia.
Qed.

(** The parts of the state that a collection does not touch. *)
Record collect_frame (s s' : mp_state_mem_t) : Prop := {
  f_layout : layout s' = layout s;
  f_bytes : forall a, ~ in_table s a -> bytes s' !! a = bytes s !! a;
  f_control : control s' = (gc_lock_depth s, gc_auto_collect_enabled s, 0, gc_alloc_threshold s, 0)
}.

Lemma u16_inc_dec d : 0 <= d < 2 ^ 16 -> u16 (u16 (d + 1) - 1) = d.
Proof. unfold u16, wrapu. change (2 ^ 16) with 65536. lia. Qed.

(** The end of a collection. *)
Lemma wp_gc_collect_end s k (Q : unit -> mp_state_mem_t -> Prop) :
  tab s k -> complete (fun _ => False) s k -> kwf (max_block s) k ->
  (forall s2 k2 s', all_marked s k s2 k2 -> (forall m, 0 <= m < max_block s -> k2 m = AT_MARK -> closed s2 k2 m) ->
     gframe s s2 -> layout s' = layout s -> (forall a, ~ in_table s a -> bytes s' !! a = bytes s !! a) ->
     control s' = (u16 (gc_lock_depth s - 1), gc_auto_collect_enabled s, gc_alloc_amount s, gc_alloc_threshold s, 0) ->
     tab s' (sweep_kind k2) -> Q tt s') ->
  wp gc_collect_end Q s.
Proof.
  intros T C Hw HQ. apply wp_bind, (wp_gc_deal_with_stack_overflow s k); [done..|]. intros s2 k2 M2 Hc2.
  pose proof (all_marked_max _ _ _ _ M2) as E2. apply wp_bind, (wp_gc_sweep s2 k2); [apply M2| |].
  { rewrite E2. eapply kwf_marks; [apply M2|done]. }
  intros s3 F3 T3. apply wp_bind, wp_modify, wp_modify.
  pose proof (gframe_trans _ _ _ (m_frame _ _ _ _ M2) F3) as (L & Cn & B). unfold control in Cn. injection Cn as E3 E4 E5 E6 E7.
  eapply (HQ s2 k2 _ M2 Hc2); [apply M2|exact L|exact B| |].
  - unfold control. simpl. by rewrite E3, E4, E5, E6.
  - by eapply tab_control.
Qed.

Lemma wp_gc_collect R s k (Q : unit -> mp_state_mem_t -> Prop) :
  tab s k -> kwf (max_block s) k -> clean (max_block s) k -> 0 <= gc_lock_depth s < 2 ^ 16 -> roots_ok s R ->
  (forall s' k', collect_frame s s' -> tab s' k' -> swept R s k k' -> Q tt s') ->
  wp (gc_collect R) Q s.
Proof.
  intros T Hw Hcl Hd Hr HQ. apply Forall_cons in Hr as [H1 Hr]. pose proof Hr as Hr'. apply Forall_cons in Hr' as [H2 H3].
  apply wp_bind, wp_bind, wp_modify, wp_bind, wp_modify, wp_bind, wp_modify.
  set (s0 := set_overflow 0 (set_amount (fun _ => 0) (set_lock_depth (fun d => d + 1) s))).
  assert (T0 : tab s0 k) by (by apply (tab_control s s0 k T)).
  apply (wp_collect_root _ _ s0 k); [done| |exact H1|].
  { intros _ m Hm Hk. by destruct (Hcl m Hm). }
  intros s1 k1 R1. pose proof (a_frame _ _ _ _ (c_adv _ _ _ _ _ R1)) as F1.
  apply wp_bind, (wp_collect_root _ _ s1 k1); [apply R1|apply R1|by apply (scannable_frame s0 s1 _ _ F1)|].
  intros s2 k2 R2. pose proof (a_frame _ _ _ _ (c_adv _ _ _ _ _ R2)) as F2.
  apply wp_bind, (wp_mp_thread_gc_others _ s2 k2); [apply R2|apply R2| |].
  { eapply areas_frame; [exact F2|]. by apply (areas_frame s0 s1 _ F1). }
  intros s3 k3 R3.
  assert (RR : collected (area_word (bytes s0) (areas R)) s0 k s3 k3).
  { apply (collected_area _ _ _ _ s1 k1); [done|exact Hr|done|].
    apply (collected_area _ _ _ _ s2 k2); [apply R1|by apply (areas_frame s0 s1 _ F1)|done|done]. }
  clear R1 R2 R3 F1 F2. pose proof (c_adv _ _ _ _ _ RR) as A. pose proof (advance_max _ _ _ _ A) as E3.
  change (max_block s0) with (max_block s) in E3.
  apply (wp_gc_collect_end s3 k3); [apply A|apply RR|rewrite E3; eapply kwf_marks; [apply A|exact Hw]|].
  intros s4 k4 s' M4 Hc4 _ L B Cn Ts'. pose proof (a_frame _ _ _ _ A) as (L3 & Cn3 & B3).
  apply (HQ s' (sweep_kind k4)); [|done|].
  - split.
    + rewrite L. exact L3.
    + intros a Ha. rewrite B; [by apply B3|]. by rewrite (in_table_layout s0 s3 a L3).
    + rewrite Cn. unfold control in Cn3. injection Cn3 as -> -> -> -> _. simpl. by rewrite u16_inc_dec.
  - apply swept_marks; [done|done| |].
    + eapply marks_trans; [apply A|]. pose proof (m_marks _ _ _ _ M4) as M. by rewrite E3 in M.
    + intros h Hh. by apply (marked_live R s0 k s3 k3 s4 k4).
Qed.
