(* ===== verification/GcAlloc.v ===== *)
(** GcAlloc: the invariant of the collector between its operations, the search
    for a run of free blocks, and allocation. *)

From stdpp Require Import options.
From S2P Require Import Prelude Gc GcRep GcMark GcSweep.

#[local] Ltac Zify.zify_post_hook ::= Z.to_euclidean_division_equations.

(** * Between operations *)

(** No mark is left over, and no free block is before the place where the search
    for free blocks starts. *)
Record gc_ok (s : mp_state_mem_t) (k : Z -> Z) : Prop := {
  o_tab : tab s k;
  o_wf : kwf (max_block s) k;
  o_clean : clean (max_block s) k;
  o_lock : 0 <= gc_lock_depth s < 2 ^ 16;
  o_last : 0 <= gc_last_free_atb_index s <= gc_alloc_table_byte_len s;
  o_used : forall b, 0 <= b < 4 * gc_last_free_atb_index s -> k b <> AT_FREE
}.

(** The blocks from [h] on, [n] of them, are an allocated object. *)
Definition object (s : mp_state_mem_t) (k : Z -> Z) (h n : Z) : Prop := k h = AT_HEAD /\ chain k (max_block s) h n.

(** [n] free blocks from [j] on. *)
Definition run (k : Z -> Z) (j n : Z) : Prop := forall b, j <= b < j + n -> k b = AT_FREE.

(** The blocks from [c] on, [n] of them, have got the kind [v]. *)
Definition fill (k : Z -> Z) (c n v : Z) : Z -> Z := fun b => if decide (c <= b < c + n) then v else k b.

Lemma fill_in k c n v b : c <= b < c + n -> fill k c n v b = v.
Proof. intros. unfold fill. by rewrite decide_True. Qed.

Lemma fill_out k c n v b : ~ (c <= b < c + n) -> fill k c n v b = k b.
Proof. intros. unfold fill. by rewrite decide_False. Qed.

Lemma fill_case k c n v b : (c <= b < c + n /\ fill k c n v b = v) \/ (~ (c <= b < c + n) /\ fill k c n v b = k b).
Proof. unfold fill. case_decide; [by left|by right]. Qed.

(** The loop over blocks that sets the kind of each of them. *)
Lemma wp_fill (body : Z -> GC unit) (P : Z -> Prop) v n :
  (forall s k b (Q : unit -> mp_state_mem_t -> Prop), tab s k -> 0 <= b < max_block s -> P (k b) ->
     (forall s', gframe s s' -> tab s' (upd k b v) -> Q tt s') -> wp (body b) Q s) ->
  forall c s k (Q : unit -> mp_state_mem_t -> Prop), tab s k -> 0 <= c -> c + Z.of_nat n <= max_block s ->
  (forall b, c <= b < c + Z.of_nat n -> P (k b)) ->
  (forall s', gframe s s' -> tab s' (fill k c (Z.of_nat n) v) -> Q tt s') ->
  wp (for_blocks n c body) Q s.
Proof.
  intros Hb. induction n as [|n IH]; intros c s k Q T Hc Hn HP HQ; simpl.
  - apply wp_ret, HQ; [apply gframe_refl|]. eapply tab_ext; [exact T|]. intros b _. rewrite fill_out; [done|lia].
  - apply wp_bind, (Hb s k); [done|lia|apply HP; lia|]. intros s1 F1 T1. pose proof (max_block_layout _ _ (proj1 F1)) as E1.
    apply (IH (c + 1) s1 (upd k c v)); [done|lia|lia| |].
    + intros b Hb'. rewrite upd_ne by lia. apply HP. lia.
    + intros s2 F2 T2. apply HQ; [by eapply gframe_trans|]. eapply tab_ext; [exact T2|]. intros b _. unfold fill, upd.
      repeat case_decide; (done || lia).
Qed.

(** * Writes to the pool *)

(** Of memory, only bytes of the pool differ. *)
Definition pframe (s s' : mp_state_mem_t) : Prop :=
  layout s' = layout s /\
  (forall a, ~ (gc_pool_start s <= a < gc_pool_end s) -> bytes s' !! a = bytes s !! a) /\
  (forall a, gc_pool_start s <= a < gc_pool_end s -> exists v, bytes s' !! a = Some v /\ 0 <= v < 256).

Lemma tab_pframe s s' k : tab s k -> pframe s s' -> tab s' k.
Proof.
  intros T (L & B1 & B2). pose proof (t_geo _ _ T) as G. pose proof (max_block_layout s s' L) as E.
  assert (Hat : forall b, 0 <= b <= max_block s -> kind_at s' b = kind_at s b).
  { intros b Hb. unfold kind_at. unfold layout in L. injection L as -> _ _ _. rewrite B1; [done|].
    unfold max_block, BLOCKS_PER_ATB in Hb. lia. }
  destruct (tab_bound s k T). split.
  - unfold layout in L. by injection L as -> -> -> ->.
  - intros a v Hv. destruct (decide (gc_pool_start s <= a < gc_pool_end s)) as [Ha|Ha].
    + destruct (B2 a Ha) as (v' & Hv' & ?). congruence.
    + rewrite B1 in Hv by done. by eapply t_bytes.
  - intros b Hb. rewrite E in Hb. rewrite Hat by lia. by apply (t_kind _ _ T).
  - rewrite E, Hat by lia. apply T.
  - unfold layout in L. injection L as _ _ -> ->. intros a Ha. destruct (B2 a Ha) as (v & -> & _). done.
Qed.

Lemma wp_wrb a v s (Q : unit -> mp_state_mem_t -> Prop) : is_Some (bytes s !! a) ->
  Q tt (set_bytes (<[a := v]>) s) -> wp (wrb a v) Q s.
Proof. intros [x Hx] HQ. apply wp_bind. eapply wp_getso; [exact Hx|]. by apply wp_modify. Qed.

Lemma wp_clear n : forall p s (Q : unit -> mp_state_mem_t -> Prop),
  (forall a, p <= a < p + Z.of_nat n -> is_Some (bytes s !! a)) ->
  (forall m, (forall a, m !! a = if decide (p <= a < p + Z.of_nat n) then Some 0 else bytes s !! a) ->
     Q tt (set_bytes (fun _ => m) s)) ->
  wp (clear p n) Q s.
Proof.
  induction n as [|n IH]; intros p s Q Hs HQ; simpl.
  - apply wp_ret. replace s with (set_bytes (fun _ => bytes s) s) by (by destruct s). apply HQ.
    intros a. by rewrite decide_False by lia.
  - apply wp_bind, wp_wrb; [apply Hs; lia|]. apply (IH (p + 1)); simpl.
    + intros a Ha. rewrite lookup_insert_ne by lia. apply Hs. lia.
    + intros m Hm. apply (HQ m). intros a. rewrite Hm. destruct (decide (a = p)) as [->|Hne].
      * rewrite decide_False, decide_True, lookup_insert_eq by lia. done.
      * rewrite lookup_insert_ne by done. repeat case_decide; (done || lia).
Qed.

(** * The search *)

Lemma mask_field a j : 0 <= a < 256 -> 0 <= j < 4 -> (Z.land a (Z.shiftl 3 (2 * j)) =? 0) = (field a j =? AT_FREE).
Proof.
  intros Ha Hj.
  assert (H : forallb (fun a => forallb (fun j => Bool.eqb (Z.land a (Z.shiftl 3 (2 * j)) =? 0) (field a j =? AT_FREE)) (seqZ 0 4)) (seqZ 0 256) = true)
    by (vm_compute; done).
  apply (forallb_seqZ _ _) with (v := a) in H; [|done]. apply (forallb_seqZ _ _) with (v := j) in H; [|done].
  by apply eqb_prop in H.
Qed.

(** The search has come to block [c], behind [f] free blocks, and has found no
    run of [n]. *)
Record scanned (k : Z -> Z) (n c f : Z) : Prop := {
  sc_range : 0 <= f < n /\ f <= c;
  sc_run : run k (c - f) f;
  sc_edge : 0 < c - f -> k (c - f - 1) <> AT_FREE;
  sc_none : forall j, 0 <= j -> j + n <= c -> ~ run k j n
}.

(** The first run of [n] free blocks starts at [j]. *)
Definition first_run (k : Z -> Z) (n j : Z) : Prop :=
  0 <= j /\ run k j n /\ forall j', 0 <= j' < j -> ~ run k j' n.

Lemma scan_bit_spec k n i j a f : scanned k n (4 * i + j) f -> 0 <= i -> 0 <= j < 4 -> 0 <= a < 256 -> field a j = k (4 * i + j) ->
  match scan_bit n i j (Z.shiftl 3 (2 * j)) a f with
  | inl (e, f') => e = 4 * i + j /\ f' = n /\ first_run k n (e - n + 1)
  | inr f' => scanned k n (4 * i + j + 1) f'
  end.
Proof.
  intros [Hr Hrun He Hn] Hi Hj Ha Hk. unfold scan_bit. rewrite mask_field, Hk by done. set (c := 4 * i + j) in *.
  destruct (Z.eqb_spec (k c) AT_FREE) as [Hf|Hf].
  - destruct (Z.leb_spec n (f + 1)) as [Hle|Hlt].
    + change BLOCKS_PER_ATB with 4. split; [lia|]. split; [lia|]. replace (i * 4 + j - n + 1) with (c - f) by lia. split; [lia|]. split.
      * intros b Hb. destruct (decide (b = c)) as [->|]; [done|]. apply Hrun. lia.
      * intros j' Hj'. apply Hn; lia.
    + split; [lia| | |].
      * intros b Hb. destruct (decide (b = c)) as [->|]; [done|]. apply Hrun. lia.
      * intros Hp. replace (c + 1 - (f + 1) - 1) with (c - f - 1) by lia. apply He. lia.
      * intros j' Hj' Hle R. destruct (decide (j' + n <= c)); [by apply (Hn j')|]. apply He; [lia|]. apply R. lia.
  - split; [lia| | |].
    + intros b Hb. lia.
    + intros _. by replace (c + 1 - 0 - 1) with c by lia.
    + intros j' Hj' Hle R. destruct (decide (j' + n <= c)); [by apply (Hn j')|]. apply Hf, R. lia.
Qed.

Lemma scan_byte_spec k n i a f : scanned k n (4 * i) f -> 0 <= i -> 0 <= a < 256 ->
  (forall j, 0 <= j < 4 -> field a j = k (4 * i + j)) ->
  match scan_byte n i a f with
  | inl (e, f') => 4 * i <= e < 4 * i + 4 /\ f' = n /\ first_run k n (e - n + 1)
  | inr f' => scanned k n (4 * (i + 1)) f'
  end.
Proof.
  intros S0 Hi Ha Hk. unfold scan_byte.
  assert (Hbit : forall j mask f', scanned k n (4 * i + j) f' -> 0 <= j < 4 -> mask = Z.shiftl 3 (2 * j) ->
    match scan_bit n i j mask a f' with
    | inl (e, f') => 4 * i <= e < 4 * i + 4 /\ f' = n /\ first_run k n (e - n + 1)
    | inr f' => scanned k n (4 * i + (j + 1)) f'
    end).
  { intros j mask f' S Hj ->. pose proof (scan_bit_spec k n i j a f' S Hi Hj Ha (Hk j Hj)) as H.
    destruct (scan_bit _ _ _ _ _ _) as [[e g]|g]; [|by rewrite Z.add_assoc].
    destruct H as (-> & ? & ?). split; [lia|done]. }
  rewrite <- (Z.add_0_r (4 * i)) in S0.
  pose proof (Hbit 0 ATB_MASK_0 f S0 ltac:(lia) eq_refl) as S1. destruct (scan_bit n i 0 _ a f) as [[e g]|f1]; [done|].
  pose proof (Hbit 1 ATB_MASK_1 f1 S1 ltac:(lia) eq_refl) as S2. destruct (scan_bit n i 1 _ a f1) as [[e g]|f2]; [done|].
  pose proof (Hbit 2 ATB_MASK_2 f2 S2 ltac:(lia) eq_refl) as S3. destruct (scan_bit n i 2 _ a f2) as [[e g]|f3]; [done|].
  pose proof (Hbit 3 ATB_MASK_3 f3 S3 ltac:(lia) eq_refl) as S4. destruct (scan_bit n i 3 _ a f3) as [[e g]|f4]; [done|].
  by replace (4 * (i + 1)) with (4 * i + (3 + 1)) by lia.
Qed.

Lemma tab_byte s k i : tab s k -> 0 <= i < gc_alloc_table_byte_len s ->
  exists a, bytes s !! (gc_alloc_table_start s + i) = Some a /\ 0 <= a < 256 /\
    forall j, 0 <= j < 4 -> field a j = k (4 * i + j).
Proof.
  intros T Hi. assert (EN : max_block s = 4 * gc_alloc_table_byte_len s) by (unfold max_block, BLOCKS_PER_ATB; lia).
  pose proof (t_kind _ _ T (4 * i) ltac:(lia)) as Ek. apply fmap_Some in Ek as (a & Ha & _).
  replace (4 * i / 4) with i in Ha by lia. exists a. split; [done|]. split; [by eapply t_bytes|].
  intros j Hj. pose proof (t_kind _ _ T (4 * i + j) ltac:(lia)) as Ek. unfold kind_at in Ek.
  replace ((4 * i + j) / 4) with i in Ek by lia. rewrite Ha in Ek. injection Ek as <-. f_equal. lia.
Qed.

(** The first run of [n] free blocks is found, if there is one. *)
Lemma wp_scan n s k (Q : option (Z * Z) -> mp_state_mem_t -> Prop) : gc_ok s k -> 0 < n ->
  (forall j, first_run k n j -> j + n <= max_block s -> Q (Some (j + n - 1, n)) s) ->
  ((forall j, 0 <= j -> j + n <= max_block s -> ~ run k j n) -> Q None s) ->
  wp (scan n) Q s.
Proof.
  intros O Hn HS HN. pose proof (o_tab _ _ O) as T. pose proof (t_geo _ _ T) as G.
  assert (EN : max_block s = 4 * gc_alloc_table_byte_len s) by (unfold max_block, BLOCKS_PER_ATB; lia).
  apply wp_bind, wp_gets, wp_fuel. pose proof (tab_fuel s k T) as Hfu.
  assert (H : forall fuel i f, gc_alloc_table_byte_len s - i < Z.of_nat fuel -> 0 <= i <= gc_alloc_table_byte_len s ->
            scanned k n (4 * i) f -> wp (loop fuel (scan_step n) (i, f)) Q s).
  { induction fuel as [|fuel IH]; intros i f Hf Hi S0; [lia|]. apply wp_loop_step. unfold scan_step. apply wp_bind, wp_gets.
    destruct (Z.ltb_spec i (gc_alloc_table_byte_len s)) as [Hlt|Hge].
    - destruct (tab_byte s k i T ltac:(lia)) as (a & Ha & Hr & Hk).
      apply wp_bind, wp_gets, wp_bind. eapply wp_getso; [exact Ha|].
      pose proof (scan_byte_spec k n i a f S0 ltac:(lia) Hr Hk) as H.
      destruct (scan_byte n i a f) as [[e g]|f']; apply wp_ret.
      + destruct H as (He & -> & Hfr). replace e with (e - n + 1 + n - 1) by lia. apply HS; [done|lia].
      + apply IH; [lia|lia|done].
    - apply wp_ret, HN. intros j Hj Hle. apply (sc_none _ _ _ _ S0 j Hj). lia. }
  apply H; [pose proof (o_last _ _ O); lia|apply O|]. pose proof (o_last _ _ O). split; [lia| | |].
  - intros b Hb. lia.
  - intros Hp. apply (o_used _ _ O). lia.
  - intros j Hj Hle R. apply (o_used _ _ O j); [lia|]. apply R. lia.
Qed.

(** * Allocation *)

(** The table after [n] blocks from [j] on have become an object. *)
Definition take (k : Z -> Z) (j n : Z) : Z -> Z := fill (upd k j AT_HEAD) (j + 1) (n - 1) AT_TAIL.

Lemma take_cases k j n b : 0 < n -> (b = j /\ take k j n b = AT_HEAD) \/ (j < b < j + n /\ take k j n b = AT_TAIL) \/
  (~ (j <= b < j + n) /\ take k j n b = k b).
Proof. intros Hn. unfold take, fill, upd. repeat case_decide; [|left|]; auto with lia. Qed.

(** A collection, or none. *)
Definition maybe_collected (R : roots) (c : bool) (s : mp_state_mem_t) (k : Z -> Z) (s1 : mp_state_mem_t) (k1 : Z -> Z) : Prop :=
  if c then collect_frame s s1 /\ swept R s k k1 else s1 = s /\ k1 = k.

Lemma collect_ok R s k s1 k1 : gc_ok s k -> collect_frame s s1 -> tab s1 k1 -> swept R s k k1 -> gc_ok s1 k1.
Proof.
  intros O [L B C] T1 W. pose proof (max_block_layout s s1 L) as E. unfold control in C. injection C as Ed _ _ _ El.
  pose proof (t_geo _ _ T1). split; [done|rewrite E; apply W|rewrite E; apply W|rewrite Ed; apply O|lia|rewrite El; lia].
Qed.

(** The object has been made from the free blocks at [j]: its bytes are zero and
    all other bytes of the pool are as before. *)
Record allocated (s : mp_state_mem_t) (k : Z -> Z) (j n : Z) (s' : mp_state_mem_t) : Prop := {
  al_ok : gc_ok s' (take k j n);
  al_layout : layout s' = layout s;
  al_lock : gc_lock_depth s' = gc_lock_depth s;
  al_zero : forall a, gc_pool_start s + 16 * j <= a < gc_pool_start s + 16 * (j + n) -> bytes s' !! a = Some 0;
  al_same : forall a, ~ in_table s a -> ~ (gc_pool_start s + 16 * j <= a < gc_pool_start s + 16 * (j + n)) ->
              bytes s' !! a = bytes s !! a
}.

(** The new hint where to search keeps its promise. *)
Lemma take_used s k j n b : gc_ok s k -> 0 < n -> first_run k n j ->
  0 <= b < (if n =? 1 then 4 * ((j + n) / 4) else 4 * gc_last_free_atb_index s) -> take k j n b <> AT_FREE.
Proof.
  intros O Hn (Hj & Hr & Hf) Hb. destruct (take_cases k j n b Hn) as [[_ ->]|[[_ ->]|[Hb' ->]]]; [kinds|kinds|].
  destruct (Z.eqb_spec n 1) as [->|]; [|by apply (o_used _ _ O)].
  intros Hk. apply (Hf b); [lia|]. intros b' Hb2. by replace b' with b by lia.
Qed.

Lemma kwf_take N k j n : kwf N k -> 0 <= j -> 0 < n -> kwf N (take k j n).
Proof.
  intros Hw Hj Hn b Hb Ht. destruct (take_cases k j n b Hn) as [[_ E]|[[Hb' E]|[Hb' E]]]; rewrite E in Ht; [kinds|split; [lia|]|].
  - destruct (take_cases k j n (b - 1) Hn) as [[? ->]|[[? ->]|[? _]]]; [kinds|kinds|lia].
  - destruct (Hw b Hb Ht) as [Hp Hne]. split; [done|].
    destruct (take_cases k j n (b - 1) Hn) as [[_ ->]|[[_ ->]|[_ ->]]]; (kinds || done).
Qed.

Lemma wp_free_to_tail_fill n c s k (Q : unit -> mp_state_mem_t -> Prop) : tab s k -> 0 <= c -> c + Z.of_nat n <= max_block s ->
  run k c (Z.of_nat n) -> (forall s', gframe s s' -> tab s' (fill k c (Z.of_nat n) AT_TAIL) -> Q tt s') ->
  wp (for_blocks n c ATB_FREE_TO_TAIL) Q s.
Proof.
  intros T Hc Hn Hr HQ. apply (wp_fill ATB_FREE_TO_TAIL (fun v => v = AT_FREE) AT_TAIL n) with (k := k); try done.
  intros s1 k1 b Q1 T1 Hb Hk HQ1. apply (wp_free_to_tail s1 k1 T1); [done..|]. auto.
Qed.

(** The state after the table, the hint and the bytes of the object are written. *)
Lemma allocated_intro s k n j s2 s' : gc_ok s k -> 0 < n -> first_run k n j -> j + n <= max_block s ->
  tab s2 (take k j n) -> layout s2 = layout s -> (forall a, ~ in_table s a -> bytes s2 !! a = bytes s !! a) ->
  layout s' = layout s2 -> gc_lock_depth s' = gc_lock_depth s ->
  gc_last_free_atb_index s' = (if n =? 1 then (j + n) / 4 else gc_last_free_atb_index s) ->
  (forall a, bytes s' !! a = if decide (gc_pool_start s + 16 * j <= a < gc_pool_start s + 16 * (j + n)) then Some 0 else bytes s2 !! a) ->
  allocated s k j n s'.
Proof.
  intros O Hn Hfr Hle T2 L2 B2 L' Ed El B'. pose proof Hfr as (Hj & _). pose proof (o_tab _ _ O) as T.
  destruct (tab_bound s k T) as [_ Hpool]. pose proof (t_geo _ _ T) as G. pose proof (o_last _ _ O) as Hlast.
  assert (EN : max_block s = 4 * gc_alloc_table_byte_len s) by (unfold max_block, BLOCKS_PER_ATB; lia).
  assert (Ep : gc_pool_start s2 = gc_pool_start s /\ gc_pool_end s2 = gc_pool_end s) by (unfold layout in L2; by injection L2).
  assert (Ts' : tab s' (take k j n)).
  { apply (tab_pframe s2); [done|]. unfold pframe. destruct Ep as [Ep1 Ep2]. rewrite Ep1, Ep2. split; [done|]. split; intros a Ha; rewrite B'.
    - by rewrite decide_False by lia.
    - destruct (decide _); [by exists 0|]. destruct (t_pool _ _ T2 a) as [v Hv]; [by rewrite Ep1, Ep2|]. exists v. split; [done|apply (t_bytes _ _ T2 a v Hv)]. }
  assert (EN' : max_block s' = max_block s) by (apply max_block_layout; congruence).
  assert (EL : gc_alloc_table_byte_len s' = gc_alloc_table_byte_len s).
  { rewrite L2 in L'. unfold layout in L'. by injection L'. }
  split.
  - split; [done|rewrite EN'; apply kwf_take; [apply O|done..]| |by rewrite Ed; apply O|rewrite El, EL; destruct (n =? 1); lia|].
    + intros b Hb. rewrite EN' in Hb. destruct (take_cases k j n b Hn) as [[_ ->]|[[_ ->]|[_ ->]]]; [kinds|kinds|by apply (o_clean _ _ O)].
    + intros b Hb. apply (take_used s); [done..|]. rewrite El in Hb. destruct (n =? 1); lia.
  - congruence.
  - done.
  - intros a Ha. rewrite B'. by rewrite decide_True.
  - intros a Ha Ha'. rewrite B'. rewrite decide_False by done. by apply B2.
Qed.

(** The new object is made. *)
Lemma wp_found s k n j (Q : ptr -> mp_state_mem_t -> Prop) : gc_ok s k -> 0 < n -> first_run k n j -> j + n <= max_block s ->
  (forall s', allocated s k j n s' -> Q (PTR_FROM_BLOCK j s) s') ->
  wp (found n (j + n - 1) n) Q s.
Proof.
  intros O Hn Hfr Hle HQ. pose proof Hfr as (Hj & Hr & _). pose proof (o_tab _ _ O) as T. destruct (tab_bound s k T) as [_ Hpool].
  pose proof (t_geo _ _ T) as G. unfold found. replace (j + n - 1 - n + 1) with j by lia.
  set (lf := if n =? 1 then (j + n) / 4 else gc_last_free_atb_index s). apply wp_bind.
  assert (Hlf : forall Q1 : unit -> mp_state_mem_t -> Prop, Q1 tt (set_last_free lf s) ->
            wp (when (n =? 1) (modify (set_last_free ((j + n - 1 + 1) / BLOCKS_PER_ATB)))) Q1 s).
  { intros Q1 HQ1. unfold lf in HQ1. destruct (n =? 1); simpl; [apply wp_modify|apply wp_ret; by destruct s].
    by replace (j + n - 1 + 1) with (j + n) by lia. }
  apply Hlf. set (s0 := set_last_free lf s). assert (T0 : tab s0 k) by (by apply (tab_control s s0 k T)).
  apply wp_bind, (wp_free_to_head s0 k T0); [change (max_block s0) with (max_block s); lia|apply Hr; lia|]. intros s1 F1 T1 _ _.
  pose proof (max_block_layout _ _ (proj1 F1)) as E1. change (max_block s0) with (max_block s) in E1.
  apply wp_bind, (wp_free_to_tail_fill _ _ s1 (upd k j AT_HEAD) _ T1); [lia|lia| |].
  { intros b Hb. rewrite upd_ne by lia. apply Hr. lia. }
  intros s2 F2 T2. pose proof (gframe_trans _ _ _ F1 F2) as (L2 & C2 & B2). apply wp_bind, wp_gets, wp_bind, wp_modify, wp_bind.
  assert (Ep : gc_pool_start s2 = gc_pool_start s) by (unfold layout in L2; by injection L2). rewrite Ep.
  assert (Ht2 : tab s2 (take k j n)).
  { eapply tab_ext; [exact T2|]. intros b _. unfold take. do 2 f_equal. lia. }
  clear T2. apply wp_clear.
  { intros a Ha. simpl. apply (t_pool _ _ Ht2). rewrite Ep. unfold layout in L2. injection L2 as _ _ _ ->. simpl.
    unfold BYTES_PER_BLOCK in *. lia. }
  intros m Hm. apply wp_ret. replace (gc_pool_start s + j * BYTES_PER_BLOCK) with (PTR_FROM_BLOCK j s) in * by (unfold PTR_FROM_BLOCK; lia).
  unfold control in C2. injection C2 as Ed _ _ _ El.
  apply HQ. apply (allocated_intro s k n j s2); try done.
  intros a. simpl. rewrite Hm. unfold PTR_FROM_BLOCK, BYTES_PER_BLOCK. simpl. repeat case_decide; (done || lia).
Qed.

Lemma wp_gc_collect_ok R s k (Q : unit -> mp_state_mem_t -> Prop) : gc_ok s k -> roots_ok s R ->
  (forall s1 k1, gc_ok s1 k1 -> maybe_collected R true s k s1 k1 -> Q tt s1) -> wp (gc_collect R) Q s.
Proof.
  intros O Hr HQ. apply (wp_gc_collect R s k); try apply O; [done|].
  intros s1 k1 F T1 W. apply (HQ s1 k1); [by eapply collect_ok|done].
Qed.

(** The blocks needed for a number of bytes. *)
Definition blocks_for (n_bytes : Z) : Z := u32 (n_bytes + 15) / 16.

Lemma blocks_land n_bytes :
  Z.land (u32 (n_bytes + BYTES_PER_BLOCK - 1)) (Z.lnot (BYTES_PER_BLOCK - 1)) / BYTES_PER_BLOCK = blocks_for n_bytes.
Proof.
  unfold BYTES_PER_BLOCK, blocks_for. replace (n_bytes + 16 - 1) with (n_bytes + 15) by lia.
  change (16 - 1) with (Z.ones 4). rewrite <- Z.ldiff_land, Z.ldiff_ones_r by lia.
  rewrite Z.shiftl_mul_pow2, Z.shiftr_div_pow2 by lia. change (2 ^ 4) with 16. rewrite Z.div_mul by lia. done.
Qed.

(** There is no run of [n] free blocks. *)
Definition no_run (s : mp_state_mem_t) (k : Z -> Z) (n : Z) : Prop :=
  forall j, 0 <= j -> j + n <= max_block s -> ~ run k j n.

(** The search, with at most one collection when [collected] is not set. *)
Lemma wp_find R n s k (c : bool) (Q : option (Z * Z) -> mp_state_mem_t -> Prop) :
  gc_ok s k -> (c = false -> roots_ok s R) -> 0 < n ->
  (forall c' s1 k1, c && c' = false -> gc_ok s1 k1 -> maybe_collected R c' s k s1 k1 ->
     (forall j, first_run k1 n j -> j + n <= max_block s1 -> Q (Some (j + n - 1, n)) s1) /\
     (no_run s1 k1 n -> c || c' = true -> Q None s1)) ->
  wp (loop 2 (find_step R n) c) Q s.
Proof.
  intros O Hr Hn HQ. apply wp_loop_step, wp_bind, (wp_scan n s k); [done..| |].
  - intros j Hfr Hle. apply wp_ret. apply (HQ false s k); [by destruct c|done|done|done|done].
  - intros Hno. destruct c; [apply wp_ret; by apply (HQ false s k)|].
    apply wp_bind, (wp_gc_collect_ok R s k); [done|by apply Hr|]. intros s1 k1 O1 M1. apply wp_ret.
    apply wp_loop_step, wp_bind, (wp_scan n s1 k1); [done..| |]; intros; apply wp_ret; by apply (HQ true s1 k1).
Qed.

Lemma wp_gc_alloc R n_bytes flags s k (Q : ptr -> mp_state_mem_t -> Prop) : gc_ok s k -> roots_ok s R ->
  (blocks_for n_bytes = 0 \/ 0 < gc_lock_depth s -> Q NULL s) ->
  (forall c s1 k1, gc_ok s1 k1 -> maybe_collected R c s k s1 k1 -> 0 < blocks_for n_bytes -> gc_lock_depth s = 0 ->
     (forall j s', first_run k1 (blocks_for n_bytes) j -> j + blocks_for n_bytes <= max_block s1 ->
        allocated s1 k1 j (blocks_for n_bytes) s' -> Q (PTR_FROM_BLOCK j s1) s') /\
     (no_run s1 k1 (blocks_for n_bytes) -> c = true \/ gc_auto_collect_enabled s = 0 -> Q NULL s1)) ->
  wp (gc_alloc R n_bytes flags) Q s.
Proof.
  intros O Hr HN HQ. unfold gc_alloc. rewrite blocks_land. set (n := blocks_for n_bytes) in *.
  assert (Hn0 : 0 <= n) by (unfold n, blocks_for, wrapu; change (2 ^ 32) with 4294967296; lia).
  destruct (Z.eqb_spec n 0) as [|Hn]; [apply wp_ret, HN; by left|].
  apply wp_bind, wp_gets. destruct (Z.ltb_spec 0 (gc_lock_depth s)) as [Hd|Hd]; [apply wp_ret, HN; by right|].
  assert (Hd0 : gc_lock_depth s = 0) by (pose proof (o_lock _ _ O); lia).
  apply wp_bind, wp_gets, wp_bind, wp_gets, wp_bind, wp_gets. apply wp_bind.
  assert (Hfin : forall (cc ct : bool) s1 k1, gc_ok s1 k1 -> maybe_collected R ct s k s1 k1 ->
            (cc = true -> ct = true \/ gc_auto_collect_enabled s = 0) -> (ct = true -> cc = true) ->
            wp (r <- loop 2 (find_step R n) cc ;;
                match r with None => ret NULL | Some (i, n_free) => found n i n_free end) Q s1).
  { intros cc ct s1 k1 O1 M1 H1 H2. apply wp_bind, (wp_find R n s1 k1 cc); [done| |lia|].
    { intros ->. destruct ct; [by specialize (H2 eq_refl)|]. by destruct M1 as [-> ->]. }
    intros c' s2 k2 Hc O2 M2.
    assert (M : maybe_collected R (ct || c') s k s2 k2).
    { destruct c'; [|destruct M2 as [-> ->]; by rewrite orb_false_r]. rewrite andb_true_r in Hc. subst cc.
      destruct ct; [by specialize (H2 eq_refl)|]. by destruct M1 as [-> ->]. }
    destruct (HQ _ s2 k2 O2 M ltac:(lia) Hd0) as [HQ1 HQ2]. split.
    - intros j Hfr Hle. apply (wp_found s2 k2); [done|lia|done|done|]. intros s' A. by apply (HQ1 j s').
    - intros Hno Ho. apply wp_ret, HQ2; [done|]. destruct c'; [left; apply orb_true_r|].
      rewrite orb_false_r in *. by apply H1. }
  destruct (Z.eqb_spec (gc_auto_collect_enabled s) 0) as [Ha|Ha]; simpl.
  - apply wp_ret, (Hfin true false s k); [done|done|by right|done].
  - destruct (_ <=? _).
    + apply wp_bind, (wp_gc_collect_ok R s k); [done..|]. intros s1 k1 O1 M1. apply wp_ret.
      apply (Hfin true true s1 k1); [done|done|by left|done].
    + apply wp_ret, (Hfin false false s k); done.
Qed.

(** * The objects of the table *)

Lemma chain_exists k N h : 0 <= h < N -> exists n, chain k N h n.
Proof.
  intros Hh. remember (Z.to_nat (N - h)) as d eqn:Ed. revert h Hh Ed.
  induction d as [|d IH]; intros h Hh Ed; [lia|]. destruct (decide (h + 1 < N /\ k (h + 1) = AT_TAIL)) as [[Hlt Ht]|Hno].
  - destruct (IH (h + 1) ltac:(lia) ltac:(lia)) as (n & ? & ? & ? & H1 & H2). exists (n + 1). split_and!; [lia..| |].
    + intros i Hi. destruct (decide (i = h + 1)) as [->|]; [done|]. apply H1. lia.
    + replace (h + (n + 1)) with (h + 1 + n) by lia. done.
  - exists 1. split_and!; [lia..| |]; [intros i Hi; lia|]. intros Hlt Ht. by destruct Hno.
Qed.

(** Two tables that agree on an object and behind it have that object. *)
Lemma chain_same N k k' h n : chain k N h n -> (forall b, h < b < h + n -> k' b = k b) ->
  (h + n < N -> k' (h + n) <> AT_TAIL) -> chain k' N h n.
Proof.
  intros (? & ? & ? & H1 & _) He Hn. split_and!; try done. intros i Hi. rewrite He by done. by apply H1.
Qed.

(** The objects that are not in [X] are the same in both tables. *)
Lemma objects_change s k k' (X : Z -> Prop) :
  (forall h m, ~ X h -> object s k h m -> chain k' (max_block s) h m) ->
  (forall h, 0 <= h < max_block s -> ~ X h -> k' h = AT_HEAD <-> k h = AT_HEAD) ->
  forall h m, ~ X h -> object s k' h m <-> object s k h m.
Proof.
  intros Hc Hk h m HX. split; intros [Hh Hm].
  - pose proof Hm as (? & ? & ? & _). apply (Hk h) in Hh; [|lia|done].
    destruct (chain_exists k (max_block s) h ltac:(lia)) as [n Hn]. split; [done|].
    by rewrite (chain_inj _ _ _ _ _ Hm (Hc h n HX (conj Hh Hn))).
  - pose proof Hm as (? & ? & ? & _). split; [apply Hk; [lia|done..]|]. by apply Hc.
Qed.

Lemma object_kind s k h m b : object s k h m -> h <= b < h + m -> k b = AT_HEAD \/ k b = AT_TAIL.
Proof.
  intros [Hh (_ & _ & _ & Ht & _)] Hb. destruct (decide (b = h)) as [->|]; [by left|right]. apply Ht. lia.
Qed.

Lemma object_range s k h m : object s k h m -> 0 <= h /\ 0 < m /\ h + m <= max_block s.
Proof. by intros [_ (? & ? & ? & _)]. Qed.

Lemma object_inj s k h m m' : object s k h m -> object s k h m' -> m = m'.
Proof. intros [_ ?] [_ ?]. by eapply chain_inj. Qed.

(** Objects do not overlap. *)
Lemma object_disjoint s k h m h' m' : object s k h m -> object s k h' m' -> h <> h' -> h + m <= h' \/ h' + m' <= h.
Proof.
  intros O O' Hne. pose proof (object_range _ _ _ _ O). pose proof (object_range _ _ _ _ O').
  destruct (decide (h + m <= h')); [by left|]. destruct (decide (h' + m' <= h)); [by right|].
  destruct (decide (h < h')).
  - destruct O as [_ (_ & _ & _ & Ht & _)], O' as [Hh' _]. rewrite Ht in Hh' by lia. kinds.
  - destruct O' as [_ (_ & _ & _ & Ht & _)], O as [Hh _]. rewrite Ht in Hh by lia. kinds.
Qed.

(** The objects after an allocation. *)
Lemma take_objects s k j n h m : gc_ok s k -> 0 <= j -> 0 < n -> j + n <= max_block s -> run k j n ->
  object s (take k j n) h m <-> (h = j /\ m = n) \/ object s k h m.
Proof.
  intros O Hj Hn Hle Hr.
  assert (Hnew : object s (take k j n) j n).
  { split; [by destruct (take_cases k j n j Hn) as [[_ ?]|[[? _]|[? _]]]; [|lia|lia]|]. split_and!; try done.
    - intros i Hi. destruct (take_cases k j n i Hn) as [[? _]|[[_ ->]|[? _]]]; [lia|done|lia].
    - intros Hlt Ht. destruct (take_cases k j n (j + n) Hn) as [[? _]|[[? _]|[_ E]]]; [lia|lia|]. rewrite E in Ht.
      destruct (o_wf _ _ O (j + n) ltac:(lia) Ht) as [_ Hne]. apply Hne, Hr. lia. }
  destruct (decide (h = j)) as [->|Hne].
  { split; [|intros [[_ ->]|[Hk _]]; [done|rewrite Hr in Hk by lia; kinds]]. intros H. left. split; [done|]. by eapply object_inj. }
  rewrite (objects_change s k (take k j n) (fun h => h = j)); [naive_solver| | |done].
  - intros h' m' _ O'. pose proof (object_range _ _ _ _ O') as Hrg.
    assert (Hout : forall b, h' <= b < h' + m' -> ~ (j <= b < j + n)).
    { intros b Hb Hin. destruct (object_kind _ _ _ _ b O' Hb) as [E|E]; rewrite Hr in E by done; kinds. }
    pose proof (Hout (h' + m' - 1) ltac:(lia)).
    apply (chain_same _ k); [apply O'| |]; [intros b Hb|intros Hlt].
    + pose proof (Hout b ltac:(lia)). destruct (take_cases k j n b Hn) as [[? _]|[[? _]|[_ ->]]]; [lia|lia|done].
    + destruct (take_cases k j n (h' + m') Hn) as [[_ ->]|[[? _]|[_ ->]]]; [kinds|lia|].
      destruct O' as [_ (_ & _ & _ & _ & He)]. by apply He.
  - intros h' Hh' Hj'. destruct (take_cases k j n h' Hn) as [[? _]|[[? ->]|[_ ->]]]; [done| |done].
    rewrite Hr by lia. split; kinds.
Qed.

(** The objects after a collection. *)
Lemma swept_objects R s k k' h m : tab s k -> swept R s k k' -> object s k' h m <-> object s k h m /\ live R s k h.
Proof.
  intros T W.
  assert (Hfw : forall h m, object s k h m -> live R s k h -> object s k' h m).
  { intros h' m' O' Hl. pose proof (object_range _ _ _ _ O'). destruct O' as [Hk Hc].
    destruct (w_object _ _ _ _ W h' m' Hk Hc) as [[_ He]|[? _]]; [|done]. split; [by rewrite He by lia|].
    apply (chain_same _ k); [done|intros b Hb; apply He; lia|]. intros Hlt.
    destruct (w_sub _ _ _ _ W (h' + m')) as [-> | ->]; [lia|kinds|]. destruct Hc as (_ & _ & _ & _ & Hn). by apply Hn. }
  split; [|intros [? ?]; by apply Hfw]. intros O'. pose proof (object_range _ _ _ _ O') as Hrg.
  assert (Hk : k h = AT_HEAD).
  { destruct O' as [Hk' _]. destruct (w_sub _ _ _ _ W h) as [E| <-]; [lia|kinds|done]. }
  destruct (chain_exists k (max_block s) h ltac:(lia)) as [n Hn].
  destruct (w_object _ _ _ _ W h n Hk Hn) as [[Hl _]|[_ He]].
  - rewrite (object_inj _ _ _ _ _ O' (Hfw h n (conj Hk Hn) Hl)). done.
  - pose proof Hn as (_ & ? & _). destruct O' as [Hk' _]. rewrite He in Hk' by lia. kinds.
Qed.
