(* ===== verification/GcOps.v ===== *)
(** GcOps: freeing, resizing and measuring an object, and setting up the heap. *)

From stdpp Require Import options.
From S2P Require Import Prelude Gc GcRep GcMark GcSweep GcAlloc.

#[local] Ltac Zify.zify_post_hook ::= Z.to_euclidean_division_equations.

(** * Cutting off the end of an object *)

(** The table [k] with the last blocks of the object at [h] freed, of which the
    first [c] blocks are kept. *)
Lemma cut_wf N k h m c : kwf N k -> chain k N h m -> k h = AT_HEAD -> 0 <= c <= m -> kwf N (fill k (h + c) (m - c) AT_FREE).
Proof.
  intros Hw (? & ? & ? & Ht & He) Hk Hc b Hb E.
  destruct (fill_case k (h + c) (m - c) AT_FREE b) as [[? E']|[Hb' E']]; rewrite E' in E; [kinds|].
  destruct (Hw b Hb E) as [Hp Hne]. split; [done|].
  destruct (fill_case k (h + c) (m - c) AT_FREE (b - 1)) as [[? _]|[_ ->]]; [|done].
  assert (b = h + m) as -> by lia. destruct He; [lia|done].
Qed.

Lemma cut_objects s k h m c h' m' : object s k h m -> 0 <= c <= m ->
  object s (fill k (h + c) (m - c) AT_FREE) h' m' <->
  (h' = h /\ m' = c /\ 0 < c) \/ (h' <> h /\ object s k h' m').
Proof.
  intros O Hc. set (k' := fill k (h + c) (m - c) AT_FREE). pose proof (object_range _ _ _ _ O) as Hr.
  destruct (decide (h' = h)) as [->|Hne].
  - destruct (decide (c = 0)) as [->|Hc0].
    { split; [|lia]. intros [Hk _]. unfold k' in Hk. rewrite fill_in in Hk by lia. kinds. }
    assert (Hnew : object s k' h c).
    { split; [unfold k'; rewrite fill_out by lia; apply O|]. split; [lia|]. split; [lia|]. split; [lia|]. split.
      - intros i Hi. unfold k'. rewrite fill_out by lia. destruct O as [_ (_ & _ & _ & Ht & _)]. apply Ht. lia.
      - intros Hlt. unfold k'. destruct (decide (c = m)) as [->|].
        + rewrite fill_out by lia. destruct O as [_ (_ & _ & _ & _ & He)]. by apply He.
        + rewrite fill_in by lia. kinds. }
    split; [intros H; left; split; [done|]; split; [by eapply object_inj|lia]|]. intros [(_ & -> & _)|[? _]]; done.
  - rewrite (objects_change s k k' (fun x => x = h)); [naive_solver| | |done].
    + intros x y Hx Ox. pose proof (object_range _ _ _ _ Ox). pose proof (object_disjoint _ _ _ _ _ _ Ox O Hx).
      apply (chain_same _ k); [apply Ox| |]; [intros b Hb; apply fill_out; lia|intros Hlt].
      unfold k'. destruct (fill_case k (h + c) (m - c) AT_FREE (x + y)) as [[_ ->]|[_ ->]]; [kinds|].
      destruct Ox as [_ (_ & _ & _ & _ & He)]. by apply He.
    + intros x Hx Hxh. unfold k'. destruct (fill_case k (h + c) (m - c) AT_FREE x) as [[Hin ->]|[_ ->]]; [|done].
      split; [kinds|]. intros Hk. destruct O as [_ (_ & _ & _ & Ht & _)]. rewrite Ht in Hk by lia. kinds.
Qed.

(** The state after the blocks have been freed and the hint where to search has
    been moved. *)
Lemma cut_ok s k h m c s' : gc_ok s k -> object s k h m -> 0 <= c <= m ->
  tab s' (fill k (h + c) (m - c) AT_FREE) -> layout s' = layout s -> gc_lock_depth s' = gc_lock_depth s ->
  gc_last_free_atb_index s' = Z.min (gc_last_free_atb_index s) ((h + c) / 4) ->
  gc_ok s' (fill k (h + c) (m - c) AT_FREE).
Proof.
  intros O Ob Hc T' L Ed El. pose proof (max_block_layout _ _ L) as EN. pose proof (object_range _ _ _ _ Ob).
  assert (EL : gc_alloc_table_byte_len s' = gc_alloc_table_byte_len s) by (unfold layout in L; by injection L).
  pose proof (o_last _ _ O). split; [done|rewrite EN; apply cut_wf; [apply O|apply Ob|apply Ob|done]| |by rewrite Ed; apply O|lia|].
  - intros b Hb. rewrite EN in Hb. destruct (fill_case k (h + c) (m - c) AT_FREE b) as [[_ ->]|[_ ->]]; [kinds|by apply (o_clean _ _ O)].
  - intros b Hb. rewrite El in Hb. rewrite fill_out by lia. apply (o_used _ _ O). lia.
Qed.

(** * gc_free *)

Lemma wp_free_loop s0 k h m (Q : unit -> mp_state_mem_t -> Prop) : object s0 k h m ->
  (forall s', gframe s0 s' -> tab s' (fill k h m AT_FREE) -> Q tt s') ->
  forall fuel b s, h + m - b < Z.of_nat fuel -> h <= b < h + m -> gframe s0 s -> tab s (fill k h (b - h) AT_FREE) ->
  wp (loop fuel free_step b) Q s.
Proof.
  intros O HQ. pose proof (object_range _ _ _ _ O) as Hr.
  induction fuel as [|fuel IH]; intros b s Hf Hb F T; [lia|]. pose proof (max_block_layout _ _ (proj1 F)) as E.
  apply wp_loop_step, wp_bind, (wp_any_to_free s _ T); [lia|]. intros s1 F1 T1 _ _. pose proof (max_block_layout _ _ (proj1 F1)) as E1.
  assert (T1' : tab s1 (fill k h (b + 1 - h) AT_FREE)).
  { eapply tab_ext; [exact T1|]. intros x _. unfold fill, upd. repeat case_decide; (done || lia). }
  apply wp_bind, (wp_kind_next s1 _ T1'); [lia|]. intros v Hv1 Hv2. rewrite E1, E in Hv1, Hv2.
  destruct (decide (b + 1 < h + m)) as [Hlt|Hge].
  - rewrite Hv1 by lia. rewrite fill_out by lia. destruct O as [Hk (_ & _ & _ & Ht & _)]. rewrite Ht by lia. simpl.
    apply wp_ret, IH; [lia|lia|by eapply gframe_trans|done].
  - assert (Hne : v <> AT_TAIL).
    { destruct (decide (b + 1 = max_block s0)) as [|Hn]; [by apply Hv2|]. rewrite Hv1 by lia. rewrite fill_out by lia.
      destruct O as [_ (_ & _ & _ & _ & He)]. replace (b + 1) with (h + m) by lia. apply He. lia. }
    destruct (Z.eqb_spec v AT_TAIL); [done|]. apply wp_ret, HQ; [by eapply gframe_trans|].
    by replace (b + 1 - h) with m in T1' by lia.
Qed.

Lemma object_ptr s k h m : tab s k -> object s k h m ->
  VERIFY_PTR (PTR_FROM_BLOCK h s) s = true /\ BLOCK_FROM_PTR (PTR_FROM_BLOCK h s) s = h /\ PTR_FROM_BLOCK h s <> NULL.
Proof.
  intros T O. pose proof (object_range _ _ _ _ O). destruct (tab_bound s k T). pose proof (t_geo _ _ T).
  unfold VERIFY_PTR, BLOCK_FROM_PTR, PTR_FROM_BLOCK, NULL. change (BYTES_PER_BLOCK - 1) with (Z.ones 4).
  rewrite Z.land_ones by lia. change (2 ^ 4) with 16. unfold BYTES_PER_BLOCK. split_and!; lia.
Qed.

Lemma verify_ptr s k p : tab s k -> VERIFY_PTR p s = true -> p = PTR_FROM_BLOCK (BLOCK_FROM_PTR p s) s.
Proof.
  intros T Ev. pose proof (t_geo _ _ T) as G.
  unfold VERIFY_PTR in Ev. apply andb_true_iff in Ev as [Ev _]. apply andb_true_iff in Ev as [Ev _].
  apply Z.eqb_eq in Ev. change (BYTES_PER_BLOCK - 1) with (Z.ones 4) in Ev. rewrite Z.land_ones in Ev by lia. change (2 ^ 4) with 16 in Ev.
  unfold PTR_FROM_BLOCK, BLOCK_FROM_PTR, BYTES_PER_BLOCK in *. lia.
Qed.

(** The hint where to search is moved down to the block. *)
Lemma wp_lower_hint b s (Q : unit -> mp_state_mem_t -> Prop) :
  Q tt (set_last_free (Z.min (gc_last_free_atb_index s) (b / 4)) s) ->
  wp (when (b / BLOCKS_PER_ATB <? gc_last_free_atb_index s) (modify (set_last_free (b / BLOCKS_PER_ATB)))) Q s.
Proof.
  intros HQ. change BLOCKS_PER_ATB with 4.
  destruct (Z.ltb_spec (b / 4) (gc_last_free_atb_index s)); simpl; [apply wp_modify|apply wp_ret].
  - by rewrite Z.min_r in HQ by lia.
  - rewrite Z.min_l in HQ by lia. by destruct s.
Qed.

Definition freed (s : mp_state_mem_t) (k : Z -> Z) (h m c : Z) (s' : mp_state_mem_t) : Prop :=
  gc_ok s' (fill k (h + c) (m - c) AT_FREE) /\ layout s' = layout s /\ gc_lock_depth s' = gc_lock_depth s /\
  forall a, ~ in_table s a -> bytes s' !! a = bytes s !! a.

Lemma wp_gc_free s k h m (Q : unit -> mp_state_mem_t -> Prop) : gc_ok s k -> object s k h m ->
  (0 < gc_lock_depth s -> Q tt s) -> (gc_lock_depth s = 0 -> forall s', freed s k h m 0 s' -> Q tt s') ->
  wp (gc_free (PTR_FROM_BLOCK h s)) Q s.
Proof.
  intros O Ob HL HQ. pose proof (o_tab _ _ O) as T. destruct (object_ptr s k h m T Ob) as (Hv & Hb & Hn).
  pose proof (object_range _ _ _ _ Ob) as Hr. unfold gc_free.
  apply wp_bind, wp_gets. destruct (Z.ltb_spec 0 (gc_lock_depth s)); [by apply wp_ret, HL|].
  assert (Hd0 : gc_lock_depth s = 0) by (pose proof (o_lock _ _ O); lia).
  destruct (Z.eqb_spec (PTR_FROM_BLOCK h s) NULL); [done|].
  apply wp_bind, wp_gets, wp_bind, wp_assert; [done|]. apply wp_bind, wp_gets. rewrite Hb.
  apply wp_bind, (wp_kind s k T); [lia|]. apply wp_bind, wp_assert; [destruct Ob as [-> _]; done|].
  apply wp_bind, wp_gets, wp_bind, wp_lower_hint, wp_fuel. set (s0 := set_last_free _ s).
  assert (T0 : tab s0 k) by (by apply (tab_control s s0 k T)). pose proof (tab_fuel s0 k T0) as Hf.
  change (max_block s0) with (max_block s) in Hf.
  apply (wp_free_loop s0 k h m); [done| |lia|lia|apply gframe_refl|].
  - intros s' (L & C & B) T'. unfold control in C. injection C as Ed _ _ _ El. apply HQ; [done|].
    rewrite <- (Z.add_0_r h), <- (Z.sub_0_r m) in T'.
    split_and!; [|done|done|done]. eapply cut_ok; try done; [lia|]. by rewrite Z.add_0_r.
  - eapply tab_ext; [exact T0|]. intros b _. by rewrite fill_out by lia.
Qed.

(** * gc_nbytes *)

Lemma wp_gc_nbytes s k p (Q : Z -> mp_state_mem_t -> Prop) : tab s k ->
  (forall h m, object s k h m -> p = PTR_FROM_BLOCK h s -> Q (16 * m) s) ->
  ((forall h m, object s k h m -> p <> PTR_FROM_BLOCK h s) -> Q 0 s) ->
  wp (gc_nbytes p) Q s.
Proof.
  intros T H1 H0. unfold gc_nbytes. apply wp_bind, wp_gets. destruct (VERIFY_PTR p s) eqn:Ev.
  2: { apply wp_ret, H0. intros h m O ->. destruct (object_ptr s k h m T O). congruence. }
  apply wp_bind, wp_gets. pose proof (refers_range s k p _ T (conj Ev eq_refl)) as Hb.
  apply wp_bind, (wp_kind s k T); [done|]. destruct (Z.eqb_spec (k (BLOCK_FROM_PTR p s)) AT_HEAD) as [Hk|Hk].
  - apply wp_bind, (wp_n_blocks_of s k); [done..|]. intros n Hn. apply wp_ret.
    replace (n * BYTES_PER_BLOCK) with (16 * n) by (unfold BYTES_PER_BLOCK; lia).
    apply (H1 (BLOCK_FROM_PTR p s) n (conj Hk Hn)). by apply verify_ptr with k.
  - apply wp_ret, H0. intros h m O ->. destruct (object_ptr s k h m T O) as (_ & E & _). rewrite E in Hk. by destruct O.
Qed.

(** * gc_realloc *)

(** The blocks of the object and the free blocks behind it, of which no more are
    counted than are needed. *)
Definition counted (s : mp_state_mem_t) (k : Z -> Z) (h m new f : Z) : Prop :=
  0 <= f /\ h + m + f <= max_block s /\ run k (h + m) f /\
  (m + f < new -> h + m + f < max_block s -> k (h + m + f) <> AT_FREE).

Lemma wp_count s k h m new (Q : Z * Z -> mp_state_mem_t -> Prop) : gc_ok s k -> object s k h m ->
  (forall f, counted s k h m new f -> Q (m, f) s) ->
  wp (gc_fuel (fun fuel => loop fuel (count_step new) (h + 1, 1, 0))) Q s.
Proof.
  intros O Ob HQ. pose proof (o_tab _ _ O) as T. pose proof (object_range _ _ _ _ Ob) as Hr. pose proof (tab_fuel s k T) as Hfu.
  assert (Hfree : forall fuel f, max_block s - (h + m + f) < Z.of_nat fuel -> 0 <= f -> h + m + f <= max_block s -> run k (h + m) f ->
            m + f < new \/ f = 0 ->
            wp (loop fuel (count_step new) (h + m + f, m, f)) Q s).
  { induction fuel as [|fuel IH]; intros f Hf Hp Hle Hrun Hlt; [lia|]. apply wp_loop_step. unfold count_step. apply wp_bind, wp_gets.
    destruct (Z.ltb_spec (h + m + f) (max_block s)) as [Hb|Hb]; [|apply wp_ret, HQ; split_and!; (done || lia)].
    apply wp_bind, (wp_kind s k T); [lia|]. destruct (Z.eqb_spec (k (h + m + f)) AT_TAIL) as [Ht|Ht].
    { destruct (decide (f = 0)) as [->|Hf0].
      - destruct Ob as [_ (_ & _ & _ & _ & He)]. rewrite Z.add_0_r in Ht, Hb. by destruct He.
      - destruct (o_wf _ _ O (h + m + f) ltac:(lia) Ht) as [_ Hne]. destruct Hne. apply Hrun. lia. }
    destruct (Z.eqb_spec (k (h + m + f)) AT_FREE) as [Hk|Hk]; [|apply wp_ret, HQ; split_and!; (done || lia)].
    assert (Hrun' : run k (h + m) (f + 1)).
    { intros b Hb'. destruct (decide (b = h + m + f)) as [->|]; [done|]. apply Hrun. lia. }
    destruct (Z.leb_spec new (m + (f + 1))).
    - apply wp_ret, HQ. split_and!; (done || lia).
    - apply wp_ret. replace (h + m + f + 1) with (h + m + (f + 1)) by lia. apply IH; (done || lia). }
  assert (Htail : forall fuel n, max_block s - (h + n) < Z.of_nat fuel -> 0 < n <= m ->
            wp (loop fuel (count_step new) (h + n, n, 0)) Q s).
  { induction fuel as [|fuel IH]; intros n Hf Hn; [lia|]. destruct (decide (n = m)) as [->|Hne].
    - replace (h + m) with (h + m + 0) by lia. apply Hfree; [lia|lia|lia| |by right]. intros b Hb. lia.
    - apply wp_loop_step. unfold count_step. apply wp_bind, wp_gets. destruct (Z.ltb_spec (h + n) (max_block s)); [|lia].
      apply wp_bind, (wp_kind s k T); [lia|]. destruct Ob as [_ (_ & _ & _ & Ht & _)]. rewrite Ht by lia. simpl.
      apply wp_ret. replace (h + n + 1) with (h + (n + 1)) by lia. apply IH; lia. }
  apply wp_fuel, Htail; lia.
Qed.

(** The free blocks behind the object are added to it. *)
Definition extend_kind (k : Z -> Z) (h m new : Z) : Z -> Z := fill k (h + m) (new - m) AT_TAIL.

Lemma extend_objects s k h m new h' m' : gc_ok s k -> object s k h m -> m < new -> h + new <= max_block s ->
  run k (h + m) (new - m) ->
  object s (extend_kind k h m new) h' m' <-> (h' = h /\ m' = new) \/ (h' <> h /\ object s k h' m').
Proof.
  intros Ok O Hlt Hle Hrun. unfold extend_kind. set (k' := fill k (h + m) (new - m) AT_TAIL). pose proof (object_range _ _ _ _ O) as Hr.
  destruct (decide (h' = h)) as [->|Hne].
  - assert (Hnew : object s k' h new).
    { destruct O as [Hk (_ & _ & _ & Ht & _)]. split; [unfold k'; by rewrite fill_out by lia|]. split; [lia|]. split; [lia|]. split; [lia|]. split.
      - intros i Hi. unfold k'. destruct (fill_case k (h + m) (new - m) AT_TAIL i) as [[_ ->]|[? ->]]; [done|apply Ht; lia].
      - intros Hn Hk'. unfold k' in Hk'. rewrite fill_out in Hk' by lia. destruct (o_wf _ _ Ok _ ltac:(by split; [|exact Hn]; lia) Hk') as [_ Hf].
        apply Hf, Hrun. lia. }
    split; [intros H; left; split; [done|by eapply object_inj]|]. intros [(_ & ->)|[? _]]; done.
  - rewrite (objects_change s k k' (fun x => x = h)); [naive_solver| | |done].
    + intros x y Hx Ox. pose proof (object_range _ _ _ _ Ox). pose proof (object_disjoint _ _ _ _ _ _ Ox O Hx).
      assert (Hout : forall b, x <= b < x + y -> ~ (h + m <= b < h + new)).
      { intros b Hb Hin. destruct (object_kind _ _ _ _ b Ox Hb) as [E|E]; rewrite Hrun in E by lia; kinds. }
      pose proof (Hout (x + y - 1) ltac:(lia)). pose proof (Hout x ltac:(lia)).
      apply (chain_same _ k); [apply Ox| |]; [intros b Hb; pose proof (Hout b ltac:(lia)); apply fill_out; lia|intros Hl].
      unfold k'. rewrite fill_out by lia. destruct Ox as [_ (_ & _ & _ & _ & He)]. by apply He.
    + intros x Hx Hxh. unfold k'. destruct (fill_case k (h + m) (new - m) AT_TAIL x) as [[Hin ->]|[_ ->]]; [|done].
      rewrite Hrun by lia. split; kinds.
Qed.

Lemma extend_ok s k h m new s' : gc_ok s k -> object s k h m -> m < new -> h + new <= max_block s ->
  run k (h + m) (new - m) -> tab s' (extend_kind k h m new) -> layout s' = layout s -> control s' = control s ->
  gc_ok s' (extend_kind k h m new).
Proof.
  intros O Ob Hlt Hle Hrun T' L C. pose proof (max_block_layout _ _ L) as EN. pose proof (object_range _ _ _ _ Ob).
  unfold control in C. injection C as Ed _ _ _ El. unfold extend_kind in *. pose proof (o_last _ _ O).
  assert (EL : gc_alloc_table_byte_len s' = gc_alloc_table_byte_len s) by (unfold layout in L; by injection L).
  split; [done| | |by rewrite Ed; apply O|by rewrite El, EL|].
  - rewrite EN. intros b Hb Ht.
    destruct (fill_case k (h + m) (new - m) AT_TAIL b) as [[Hb' _]|[Hb' E]].
    + split; [lia|]. destruct (fill_case k (h + m) (new - m) AT_TAIL (b - 1)) as [[_ ->]|[? ->]]; [kinds|].
      destruct (object_kind _ _ _ _ (b - 1) Ob) as [-> | ->]; [lia|kinds|kinds].
    + rewrite E in Ht. destruct (o_wf _ _ O b Hb Ht) as [Hp Hne]. split; [done|].
      destruct (fill_case k (h + m) (new - m) AT_TAIL (b - 1)) as [[_ ->]|[_ ->]]; [kinds|done].
  - intros b Hb. rewrite EN in Hb. destruct (fill_case k (h + m) (new - m) AT_TAIL b) as [[_ ->]|[_ ->]]; [kinds|by apply (o_clean _ _ O)].
  - intros b Hb. rewrite El in Hb. destruct (fill_case k (h + m) (new - m) AT_TAIL b) as [[_ ->]|[_ ->]]; [kinds|by apply (o_used _ _ O)].
Qed.

Record grown (s : mp_state_mem_t) (k : Z -> Z) (h m new : Z) (s' : mp_state_mem_t) : Prop := {
  g_ok : gc_ok s' (extend_kind k h m new);
  g_layout : layout s' = layout s;
  g_lock : gc_lock_depth s' = gc_lock_depth s;
  g_zero : forall a, gc_pool_start s + 16 * (h + m) <= a < gc_pool_start s + 16 * (h + new) -> bytes s' !! a = Some 0;
  g_same : forall a, ~ in_table s a -> ~ (gc_pool_start s + 16 * (h + m) <= a < gc_pool_start s + 16 * (h + new)) ->
             bytes s' !! a = bytes s !! a
}.

Lemma wp_take_free_fill n c s k (Q : unit -> mp_state_mem_t -> Prop) : tab s k -> 0 <= c -> c + Z.of_nat n <= max_block s ->
  run k c (Z.of_nat n) -> (forall s', gframe s s' -> tab s' (fill k c (Z.of_nat n) AT_TAIL) -> Q tt s') ->
  wp (for_blocks n c take_free) Q s.
Proof.
  intros T Hc Hn Hr HQ. apply (wp_fill take_free (fun v => v = AT_FREE) AT_TAIL n) with (k := k); try done.
  intros s1 k1 b Q1 T1 Hb Hk HQ1. apply wp_bind, (wp_kind s1 k1 T1); [done|]. rewrite Hk. apply wp_bind, wp_assert; [done|].
  apply (wp_free_to_tail s1 k1 T1); [done..|]. auto.
Qed.

Lemma wp_grow s k h m new (Q : ptr -> mp_state_mem_t -> Prop) : gc_ok s k -> object s k h m -> m < new -> h + new <= max_block s ->
  run k (h + m) (new - m) -> (forall s', grown s k h m new s' -> Q (PTR_FROM_BLOCK h s) s') ->
  wp (for_blocks (Z.to_nat (new - m)) (h + m) take_free ;;
      clear (PTR_FROM_BLOCK h s + m * BYTES_PER_BLOCK) (Z.to_nat ((new - m) * BYTES_PER_BLOCK)) ;;
      ret (PTR_FROM_BLOCK h s)) Q s.
Proof.
  intros O Ob Hlt Hle Hrun HQ. pose proof (o_tab _ _ O) as T. pose proof (object_range _ _ _ _ Ob) as Hr.
  destruct (tab_bound s k T) as [_ Hpool]. pose proof (t_geo _ _ T) as G.
  apply wp_bind, (wp_take_free_fill _ _ s k); [done|lia|lia|by rewrite Z2Nat.id by lia|].
  intros s1 F1 T1. rewrite Z2Nat.id in T1 by lia. pose proof F1 as (L1 & C1 & B1).
  assert (Ep : gc_pool_start s1 = gc_pool_start s /\ gc_pool_end s1 = gc_pool_end s) by (unfold layout in L1; by injection L1).
  destruct Ep as [Ep1 Ep2]. unfold PTR_FROM_BLOCK, BYTES_PER_BLOCK in *.
  apply wp_bind, wp_clear; [intros a Ha; apply (t_pool _ _ T1); lia|]. intros mm Hm. apply wp_ret, HQ.
  assert (Hm' : forall a, mm !! a = if decide (gc_pool_start s + 16 * (h + m) <= a < gc_pool_start s + 16 * (h + new)) then Some 0 else bytes s1 !! a).
  { intros a. rewrite Hm. repeat case_decide; (done || lia). }
  split; [|done|by unfold control in C1; injection C1| |].
  - apply (extend_ok s k h m new); try done. apply (tab_pframe s1); [done|]. unfold pframe. rewrite Ep1, Ep2. split; [done|].
    split; intros a Ha; simpl; rewrite Hm'.
    + by rewrite decide_False by lia.
    + destruct (decide _); [by exists 0|]. destruct (t_pool _ _ T1 a) as [v Hv]; [lia|]. exists v.
      split; [done|apply (t_bytes _ _ T1 a v Hv)].
  - intros a Ha. simpl. by rewrite Hm', decide_True.
  - intros a Ha Ha'. simpl. rewrite Hm', decide_False by done. by apply B1.
Qed.

Lemma wp_cut s k h m new (Q : ptr -> mp_state_mem_t -> Prop) : gc_ok s k -> object s k h m -> 0 <= new < m ->
  (forall s', freed s k h m new s' -> Q (PTR_FROM_BLOCK h s) s') ->
  wp (for_blocks (Z.to_nat (m - new)) (h + new) ATB_ANY_TO_FREE ;;
      lf <- gets gc_last_free_atb_index ;;
      when ((h + new) / BLOCKS_PER_ATB <? lf) (modify (set_last_free ((h + new) / BLOCKS_PER_ATB))) ;;
      ret (PTR_FROM_BLOCK h s)) Q s.
Proof.
  intros O Ob Hn HQ. pose proof (o_tab _ _ O) as T. pose proof (object_range _ _ _ _ Ob) as Hr.
  apply wp_bind, (wp_fill ATB_ANY_TO_FREE (fun _ => True) AT_FREE _) with (k := k); [|done|lia|lia|done|].
  { intros s1 k1 b Q1 T1 Hb _ HQ1. apply (wp_any_to_free s1 k1 T1); [done|]. auto. }
  intros s1 F1 T1. rewrite Z2Nat.id in T1 by lia. pose proof F1 as (L1 & C1 & B1). unfold control in C1. injection C1 as Ed _ _ _ El.
  apply wp_bind, wp_gets, wp_bind, wp_lower_hint, wp_ret, HQ. split_and!; [|done|done|done].
  eapply cut_ok; try done; [lia|by apply (tab_control s1)|]. simpl. by rewrite El.
Qed.

Lemma wp_copy n : forall dest src s (Q : unit -> mp_state_mem_t -> Prop),
  (forall a, src <= a < src + Z.of_nat n \/ dest <= a < dest + Z.of_nat n -> is_Some (bytes s !! a)) ->
  src + Z.of_nat n <= dest \/ dest + Z.of_nat n <= src ->
  (forall m, (forall a, m !! a = if decide (dest <= a < dest + Z.of_nat n) then bytes s !! (a - dest + src) else bytes s !! a) ->
     Q tt (set_bytes (fun _ => m) s)) ->
  wp (copy dest src n) Q s.
Proof.
  induction n as [|n IH]; intros dest src s Q Hs Hd HQ; simpl.
  - apply wp_ret. replace s with (set_bytes (fun _ => bytes s) s) by (by destruct s). apply HQ.
    intros a. by rewrite decide_False by lia.
  - destruct (Hs src) as [v Hv]; [lia|]. apply wp_bind. eapply wp_getso; [exact Hv|].
    apply wp_bind, wp_wrb; [apply Hs; lia|]. apply (IH (dest + 1) (src + 1)); simpl; [|lia|].
    + intros a Ha. destruct (decide (a = dest)) as [->|]; [by rewrite lookup_insert_eq|].
      rewrite lookup_insert_ne by done. apply Hs. lia.
    + intros m Hm. apply (HQ m). intros a. rewrite Hm. replace (a - (dest + 1) + (src + 1)) with (a - dest + src) by lia.
      destruct (decide (a = dest)) as [->|Hne].
      * rewrite decide_False, decide_True, lookup_insert_eq by lia. rewrite <- Hv. f_equal. lia.
      * destruct (decide (dest + 1 <= a < dest + 1 + Z.of_nat n)), (decide (dest <= a < dest + Z.of_nat (S n))); try lia;
          rewrite lookup_insert_ne by lia; done.
Qed.

(** The object at [h] has been copied to a new one at [j] and freed. *)
Record moved (s : mp_state_mem_t) (k : Z -> Z) (h m j n : Z) (s' : mp_state_mem_t) : Prop := {
  v_ok : gc_ok s' (fill (take k j n) h m AT_FREE);
  v_layout : layout s' = layout s;
  v_lock : gc_lock_depth s' = gc_lock_depth s;
  v_data : forall i, 0 <= i < 16 * n ->
             bytes s' !! (gc_pool_start s + 16 * j + i) = if decide (i < 16 * m) then bytes s !! (gc_pool_start s + 16 * h + i) else Some 0;
  v_same : forall a, ~ in_table s a -> ~ (gc_pool_start s + 16 * j <= a < gc_pool_start s + 16 * (j + n)) -> bytes s' !! a = bytes s !! a
}.

Lemma wp_move s k h m j n s1 (Q : ptr -> mp_state_mem_t -> Prop) :
  gc_ok s k -> object s k h m -> m < n -> first_run k n j -> j + n <= max_block s -> gc_lock_depth s = 0 ->
  allocated s k j n s1 -> (forall s', moved s k h m j n s' -> Q (PTR_FROM_BLOCK j s) s') ->
  wp (copy (PTR_FROM_BLOCK j s) (PTR_FROM_BLOCK h s) (Z.to_nat (m * BYTES_PER_BLOCK)) ;;
      gc_free (PTR_FROM_BLOCK h s) ;;
      ret (PTR_FROM_BLOCK j s)) Q s1.
Proof.
  intros O Ob Hmn (Hj & Hrun & _) Hle Hd A HQ. pose proof (o_tab _ _ O) as T. pose proof (object_range _ _ _ _ Ob) as Hr.
  destruct (tab_bound s k T) as [_ Hpool]. pose proof (t_geo _ _ T) as G. destruct A as [O1 L1 Ed1 Z1 S1].
  pose proof (o_tab _ _ O1) as T1. pose proof (max_block_layout _ _ L1) as EN1.
  assert (Ep : gc_pool_start s1 = gc_pool_start s /\ gc_pool_end s1 = gc_pool_end s) by (unfold layout in L1; by injection L1).
  destruct Ep as [Ep1 Ep2].
  assert (Hdis : h + m <= j \/ j + n <= h).
  { destruct (decide (h + m <= j)); [by left|]. destruct (decide (j + n <= h)); [by right|].
    destruct (object_kind _ _ _ _ (Z.max h j) Ob) as [E|E]; [lia|rewrite Hrun in E by lia; kinds..]. }
  assert (Ob1 : object s1 (take k j n) h m).
  { unfold object. rewrite EN1. apply (take_objects s k j n h m); [done..|lia|done|done|by right]. }
  replace (PTR_FROM_BLOCK h s) with (PTR_FROM_BLOCK h s1) by (unfold PTR_FROM_BLOCK; lia).
  apply wp_bind, wp_copy; unfold PTR_FROM_BLOCK, BYTES_PER_BLOCK.
  { intros a Ha. apply (t_pool _ _ T1). lia. }
  { lia. }
  intros mm Hm. set (s2 := set_bytes (fun _ => mm) s1).
  assert (T2 : tab s2 (take k j n)).
  { apply (tab_pframe s1); [done|]. unfold pframe. rewrite Ep1, Ep2. split; [done|]. split; intros a Ha; simpl; rewrite Hm.
    - by rewrite decide_False by lia.
    - assert (is_Some (mm !! a)) as [v Hv]; [|rewrite Hm in Hv; exists v; split; [done|]].
      { rewrite Hm. destruct (decide _); apply (t_pool _ _ T1); lia. }
      destruct (decide _); by eapply (t_bytes _ _ T1). }
  assert (O2 : gc_ok s2 (take k j n)) by (destruct O1; by split).
  apply wp_bind, (wp_gc_free s2 (take k j n) h m); [done|done| |].
  { simpl. lia. }
  intros _ s3 (O3 & L3 & Ed3 & B3). apply wp_ret, HQ. rewrite Z.add_0_r, Z.sub_0_r in O3.
  assert (Htb : forall a, in_table s2 a <-> in_table s a) by (intros a; by apply (in_table_layout s s1)).
  split; [done|by rewrite L3|by rewrite Ed3| |].
  - intros i Hi. rewrite B3 by (rewrite Htb; unfold in_table; lia). simpl. rewrite Hm. destruct (decide (i < 16 * m)).
    + rewrite decide_True by lia. rewrite S1; [f_equal; lia|unfold in_table; lia|lia].
    + rewrite decide_False by lia. apply Z1. lia.
  - intros a Ha Ha'. rewrite B3 by (by rewrite Htb). simpl. rewrite Hm, decide_False by lia. by apply S1.
Qed.

(** The object stays where it is when it fits there. *)
Definition room_behind (s : mp_state_mem_t) (k : Z -> Z) (h m new : Z) : Prop :=
  h + new <= max_block s /\ run k (h + m) (new - m).

Lemma counted_room s k h m new f : counted s k h m new f -> m < new -> (new <= m + f) <-> room_behind s k h m new.
Proof.
  intros (Hf & Hle & Hr & Hn) Hlt. split.
  - intros H. split; [lia|]. intros b Hb. apply Hr. lia.
  - intros [H1 H2]. destruct (decide (new <= m + f)); [done|]. destruct Hn; [lia|lia|]. apply H2. lia.
Qed.

(** The object survives the collection in [gc_alloc]. *)
Lemma live_kept R c s k s1 k1 h m : tab s k -> maybe_collected R c s k s1 k1 -> object s k h m -> live R s k h ->
  object s1 k1 h m /\ PTR_FROM_BLOCK h s1 = PTR_FROM_BLOCK h s /\ gc_lock_depth s1 = gc_lock_depth s.
Proof.
  intros T M O Hl. destruct c; [|destruct M as [-> ->]; done]. destruct M as [[L _ C] W].
  unfold object, PTR_FROM_BLOCK. rewrite (max_block_layout _ _ L). unfold layout in L. injection L as _ _ -> _.
  unfold control in C. injection C as -> _ _ _ _. split; [|done]. by apply (swept_objects R s k k1 h m T W).
Qed.

Lemma wp_gc_realloc R n_bytes mv s k h m (Q : ptr -> mp_state_mem_t -> Prop) :
  gc_ok s k -> roots_ok s R -> object s k h m -> live R s k h -> n_bytes <> 0 ->
  let new := blocks_for n_bytes in
  (0 < gc_lock_depth s -> Q NULL s) ->
  (gc_lock_depth s = 0 -> new = m -> Q (PTR_FROM_BLOCK h s) s) ->
  (gc_lock_depth s = 0 -> new < m -> forall s', freed s k h m new s' -> Q (PTR_FROM_BLOCK h s) s') ->
  (gc_lock_depth s = 0 -> m < new -> room_behind s k h m new -> forall s', grown s k h m new s' -> Q (PTR_FROM_BLOCK h s) s') ->
  (gc_lock_depth s = 0 -> m < new -> ~ room_behind s k h m new -> mv = false -> Q NULL s) ->
  (gc_lock_depth s = 0 -> m < new -> ~ room_behind s k h m new -> mv = true ->
     forall c s1 k1, gc_ok s1 k1 -> maybe_collected R c s k s1 k1 ->
     (forall j s', first_run k1 new j -> j + new <= max_block s1 -> moved s1 k1 h m j new s' -> Q (PTR_FROM_BLOCK j s1) s') /\
     (no_run s1 k1 new -> c = true \/ gc_auto_collect_enabled s = 0 -> Q NULL s1)) ->
  wp (gc_realloc R (PTR_FROM_BLOCK h s) n_bytes mv) Q s.
Proof.
  intros O Hroots Ob Hl Hnz new HL H1 H2 H3 H4 H5. pose proof (o_tab _ _ O) as T.
  destruct (object_ptr s k h m T Ob) as (Hv & Hb & Hn). pose proof (object_range _ _ _ _ Ob) as Hr. unfold gc_realloc.
  destruct (Z.eqb_spec (PTR_FROM_BLOCK h s) NULL); [done|]. destruct (Z.eqb_spec n_bytes 0); [done|].
  apply wp_bind, wp_gets. destruct (Z.ltb_spec 0 (gc_lock_depth s)); [by apply wp_ret, HL|].
  assert (Hd0 : gc_lock_depth s = 0) by (pose proof (o_lock _ _ O); lia).
  apply wp_bind, wp_gets, wp_bind, wp_assert; [done|]. apply wp_bind, wp_gets. rewrite Hb.
  apply wp_bind, (wp_kind s k T); [lia|]. apply wp_bind, wp_assert; [destruct Ob as [-> _]; done|].
  replace (u32 (n_bytes + BYTES_PER_BLOCK - 1) / BYTES_PER_BLOCK) with new
    by (unfold new, blocks_for, BYTES_PER_BLOCK; do 2 f_equal; lia).
  assert (Hnew : 0 <= new) by (unfold new, blocks_for, wrapu; change (2 ^ 32) with 4294967296; lia).
  apply wp_bind, (wp_count s k h m new); [done..|]. intros f Hc.
  destruct (Z.eqb_spec new m); [by apply wp_ret, H1|].
  destruct (Z.ltb_spec new m); [apply (wp_cut s k h m new); [done|done|lia|]; intros s' F; by apply H2|].
  pose proof (counted_room _ _ _ _ _ _ Hc ltac:(lia)) as Hroom. destruct (Z.leb_spec new (m + f)) as [Hle|Hgt].
  { apply Hroom in Hle. apply (wp_grow s k h m new); [done|done|lia|apply Hle|apply Hle|]. intros s' F. apply H3; (done || lia). }
  assert (Hno : ~ room_behind s k h m new) by (rewrite <- Hroom; lia).
  destruct mv; simpl; [|apply wp_ret, H4; (done || lia)].
  apply wp_bind, (wp_gc_alloc R n_bytes 0 s k); [done..|fold new; lia|]. fold new. intros c s1 k1 O1 M1 _ _.
  destruct (H5 Hd0 ltac:(lia) Hno eq_refl c s1 k1 O1 M1) as [H6 H7].
  destruct (live_kept R c s k s1 k1 h m T M1 Ob Hl) as (Ob1 & Ep & Ed). split.
  - intros j s' Hfr Hle A. destruct Hfr as (Hj & Hrun & Hfst).
    destruct (Z.eqb_spec (PTR_FROM_BLOCK j s1) NULL) as [E|_].
    { pose proof (t_geo _ _ (o_tab _ _ O1)). unfold PTR_FROM_BLOCK, NULL, BYTES_PER_BLOCK in E. lia. }
    rewrite <- Ep. apply (wp_move s1 k1 h m j new); [done|done|lia|done|done|congruence|done|]. intros s2 V. by apply (H6 j s2).
  - intros Hnr Hc'. simpl. by apply wp_ret, H7.
Qed.

(** * gc_init *)

(** The memory given to [gc_init]: [fin] rounded down is the end of the pool; the
    byte behind the allocation table is not the first one of the pool and does
    not look like a tail. *)
Record init_ok (m : gmap Z Z) (start fin : Z) : Prop := {
  ii_range : 0 < start /\ start + 65 <= fin - fin mod 16 /\ fin < 2 ^ 32;
  ii_gap : (fin - fin mod 16 - start) mod 65 <> 0;
  ii_bytes : forall a v, m !! a = Some v -> 0 <= v < 256;
  ii_all : forall a, start <= a < fin -> is_Some (m !! a);
  ii_behind : forall v, m !! (start + (fin - fin mod 16 - start) / 65) = Some v -> v mod 4 <> AT_TAIL
}.

Lemma land_block x : Z.land x (Z.lnot (BYTES_PER_BLOCK - 1)) = x - x mod 16.
Proof.
  unfold BYTES_PER_BLOCK. change (16 - 1) with (Z.ones 4). rewrite <- Z.ldiff_land, Z.ldiff_ones_r by lia.
  rewrite Z.shiftl_mul_pow2, Z.shiftr_div_pow2 by lia. change (2 ^ 4) with 16. lia.
Qed.

Lemma wp_gc_init start fin s (Q : unit -> mp_state_mem_t -> Prop) : init_ok (bytes s) start fin ->
  (forall s', gc_ok s' (fun _ => AT_FREE) -> layout s' = (start, (fin - fin mod 16 - start) / 65,
       fin - fin mod 16 - 64 * ((fin - fin mod 16 - start) / 65), fin - fin mod 16) ->
     control s' = (0, 1, 0, 2 ^ 32 - 1, 0) -> (forall a, ~ in_table s' a -> bytes s' !! a = bytes s !! a) -> Q tt s') ->
  wp (gc_init start fin) Q s.
Proof.
  intros [Hr Hg Hb Ha He] HQ. unfold gc_init. rewrite land_block.
  change (1 + BITS_PER_BYTE / 2 * BYTES_PER_BLOCK) with 65. set (e := fin - fin mod 16) in *. set (L := (e - start) / 65) in *.
  assert (HL : 0 < L /\ 65 * L < e - start /\ e mod 16 = 0 /\ e <= fin) by (unfold L, e in *; lia).
  apply wp_bind, wp_modify, wp_bind, wp_clear; [simpl; intros a Ha'; apply Ha; lia|]. intros m Hm. simpl in Hm.
  do 4 apply wp_bind, wp_modify. apply wp_modify. unfold BLOCKS_PER_ATB, BYTES_PER_BLOCK in *.
  match goal with |- Q tt ?s' => set (s1 := s') end.
  assert (Hz : forall a, start <= a < start + L -> bytes s1 !! a = Some 0) by (intros a Ha'; simpl; by rewrite Hm, decide_True by lia).
  assert (Ho : forall a, ~ (start <= a < start + L) -> bytes s1 !! a = bytes s !! a)
    by (intros a Ha'; simpl; by rewrite Hm, decide_False by lia).
  assert (EN : max_block s1 = 4 * L) by (unfold max_block, BLOCKS_PER_ATB; simpl; lia).
  apply HQ; [|unfold layout; simpl; do 2 f_equal; lia|done|intros a Ha'; apply Ho; exact Ha'].
  split; [|by intros b _ ?|by intros b _ ?|simpl; unfold wrapu; lia|simpl; lia|simpl; lia].
  split; simpl.
  - split_and!; lia.
  - intros a v. destruct (decide (start <= a < start + L)) as [Ht|Ht]; [|pose proof (Ho a Ht) as E; simpl in E; rewrite E; apply Hb].
    pose proof (Hz a Ht) as E. simpl in E. rewrite E. intros [= <-]. lia.
  - intros b Hb'. rewrite EN in Hb'. unfold kind_at. rewrite Hz by (simpl; lia). simpl. f_equal.
    unfold field. by rewrite Z.shiftr_0_l, Z.land_0_l.
  - destruct (Ha (start + L)) as [v Hv]; [lia|]. exists (field v 0). unfold kind_at. rewrite EN. simpl.
    replace (4 * L / 4) with L by lia. replace (4 * L mod 4) with 0 by lia.
    pose proof (Ho (start + L) ltac:(lia)) as E. simpl in E. rewrite E, Hv. split; [done|]. unfold field.
    rewrite Z.shiftr_0_r. change 3 with (Z.ones 2). rewrite Z.land_ones by lia. by apply He.
  - intros a Ha'. pose proof (Ho a ltac:(lia)) as E. simpl in E. rewrite E. apply Ha. lia.
Qed.
