(* ===== verification/GcSpec.v ===== *)
(** GcSpec: what the collector promises to the interpreter, without its table:
    a map from the addresses of the allocated objects to their sizes in bytes,
    the references between the objects, and the operations on that map. *)

From stdpp Require Import options.
From S2P Require Import Prelude Gc GcRep GcMark GcSweep GcAlloc GcOps.

#[local] Ltac Zify.zify_post_hook ::= Z.to_euclidean_division_equations.

(** * Objects and references *)

Definition represents (s : mp_state_mem_t) (k : Z -> Z) (O : gmap Z Z) : Prop :=
  forall p n, O !! p = Some n <-> exists h m, object s k h m /\ p = PTR_FROM_BLOCK h s /\ n = 16 * m.

(** The state of the collector holds the objects [O]. *)
Definition gheap (s : mp_state_mem_t) (O : gmap Z Z) : Prop := exists k, gc_ok s k /\ represents s k O.

(** A word of the object at [p] is the address of the object at [q]. *)
Definition points_to (m : gmap Z Z) (O : gmap Z Z) (p q : Z) : Prop :=
  exists n i, O !! p = Some n /\ 0 <= i < n / 4 /\ word m (p + 4 * i) = Some q /\ is_Some (O !! q).

(** The object at [q] can be reached from a word of the roots. *)
Definition reachable (R : roots) (m : gmap Z Z) (O : gmap Z Z) (q : Z) : Prop :=
  exists p, area_word m (areas R) p /\ is_Some (O !! p) /\ rtc (points_to m O) p q.

(** The objects that can be reached. *)
Definition survivors (R : roots) (m : gmap Z Z) (O O' : gmap Z Z) : Prop :=
  forall p n, O' !! p = Some n <-> O !! p = Some n /\ reachable R m O p.

Lemma ptr_inj h h' s : PTR_FROM_BLOCK h s = PTR_FROM_BLOCK h' s <-> h = h'.
Proof. unfold PTR_FROM_BLOCK, BYTES_PER_BLOCK. lia. Qed.

Lemma ptr_layout s s' h : layout s' = layout s -> PTR_FROM_BLOCK h s' = PTR_FROM_BLOCK h s.
Proof. unfold layout, PTR_FROM_BLOCK. by intros [= _ _ -> _]. Qed.

Lemma object_layout s s' k h m : layout s' = layout s -> object s' k h m <-> object s k h m.
Proof. intros L. unfold object. by rewrite (max_block_layout s s' L). Qed.

Section Represented.
Context (s : mp_state_mem_t) (k : Z -> Z) (O : gmap Z Z) (Ok : gc_ok s k) (Rep : represents s k O).

Lemma rep_object h m : object s k h m -> O !! PTR_FROM_BLOCK h s = Some (16 * m).
Proof using Rep. intros Ob. apply Rep. by exists h, m. Qed.

Lemma rep_lookup h n : O !! PTR_FROM_BLOCK h s = Some n -> exists m, object s k h m /\ n = 16 * m.
Proof using Rep. intros (h' & m & Ob & E & ->)%Rep. apply ptr_inj in E as ->. by exists m. Qed.

Lemma rep_none h : k h <> AT_HEAD -> O !! PTR_FROM_BLOCK h s = None.
Proof using Rep.
  intros Hk. destruct (O !! PTR_FROM_BLOCK h s) eqn:E; [|done]. by apply rep_lookup in E as (m & [? _] & _).
Qed.

(** A pointer that passes [VERIFY_PTR] and whose block is a head is the address
    of an object, and the other way round. *)
Lemma rep_refers p b : refers s p b /\ k b = AT_HEAD <-> p = PTR_FROM_BLOCK b s /\ is_Some (O !! p).
Proof using Ok Rep.
  pose proof (o_tab _ _ Ok) as T. split.
  - intros [[Hv ->] Hk]. pose proof (refers_range s k p _ T (conj Hv eq_refl)) as Hb.
    assert (E : p = PTR_FROM_BLOCK (BLOCK_FROM_PTR p s) s) by (by apply verify_ptr with k).
    split; [done|]. destruct (chain_exists k (max_block s) _ Hb) as [n Hn]. rewrite E. exists (16 * n). by apply rep_object.
  - intros [-> [n (m & Ob & ->)%rep_lookup]]. destruct (object_ptr s k b m T Ob) as (Hv & Hb & _).
    split; [split; [done|by rewrite Hb]|apply Ob].
Qed.

Lemma clean_head b : 0 <= b < max_block s -> is_head k b <-> k b = AT_HEAD.
Proof using Ok. intros Hb. unfold is_head. pose proof (o_clean _ _ Ok b Hb). naive_solver. Qed.

Lemma rep_head p b : refers s p b /\ is_head k b <-> p = PTR_FROM_BLOCK b s /\ is_Some (O !! p).
Proof using Ok Rep.
  rewrite <- rep_refers. split; intros [Hr Hh]; (split; [done|]);
    pose proof (refers_range s k p b (o_tab _ _ Ok) Hr) as Hb; by apply (clean_head b Hb).
Qed.

Lemma rep_edge h c : k h = AT_HEAD -> edge s k h c <-> points_to (bytes s) O (PTR_FROM_BLOCK h s) (PTR_FROM_BLOCK c s).
Proof using Ok Rep.
  intros Hk. assert (Ea : forall i, gc_pool_start s + 16 * h + 4 * i = PTR_FROM_BLOCK h s + 4 * i)
    by (intros i; unfold PTR_FROM_BLOCK, BYTES_PER_BLOCK; lia). split.
  - intros (n & i & p & Hc & Hi & Hw & Hr & Hh). destruct (proj1 (rep_head p c) (conj Hr Hh)) as [-> Hs].
    exists (16 * n), i. rewrite Ea in Hw. split; [by apply rep_object|]. split; [lia|done].
  - intros (n & i & Ho & Hi & Hw & Hs). apply rep_lookup in Ho as (m & [_ Hc] & ->).
    destruct (proj2 (rep_head _ c) (conj eq_refl Hs)) as [Hr Hh]. exists m, i, (PTR_FROM_BLOCK c s). rewrite Ea.
    split; [done|]. split; [lia|done].
Qed.

Lemma rep_reaches h c : k h = AT_HEAD -> reaches s k h c <-> rtc (points_to (bytes s) O) (PTR_FROM_BLOCK h s) (PTR_FROM_BLOCK c s).
Proof using Ok Rep.
  intros Hk. split.
  - intros H. induction H as [|x y z Hxy Hyz IH]; [apply rtc_refl|].
    assert (Hy : k y = AT_HEAD) by (destruct (edge_range _ _ _ _ (o_tab _ _ Ok) Hxy) as [Hr Hh]; by apply (clean_head y Hr)).
    eapply rtc_l; [by apply rep_edge|by apply IH].
  - intros H. remember (PTR_FROM_BLOCK h s) as p eqn:Ep. remember (PTR_FROM_BLOCK c s) as q eqn:Eq.
    revert h Hk Ep. induction H as [|x y z Hxy Hyz IH]; intros h Hk ->.
    + apply ptr_inj in Eq as ->. apply rtc_refl.
    + pose proof Hxy as (n & i & _ & _ & _ & [ny Hny]). pose proof (proj1 (Rep y ny) Hny) as (hy & my & Oby & -> & _).
      eapply rtc_l; [by apply rep_edge|]. apply IH; [done|by destruct Oby|done].
Qed.

Lemma rep_live R h : live R s k h <-> reachable R (bytes s) O (PTR_FROM_BLOCK h s).
Proof using Ok Rep.
  split.
  - intros (p & r & Hp & Hr & Hh & Hc). pose proof (proj1 (rep_head p r) (conj Hr Hh)) as [-> Hs].
    exists (PTR_FROM_BLOCK r s). split; [done|]. split; [done|]. apply rep_reaches; [|done].
    by apply (rep_refers (PTR_FROM_BLOCK r s) r).
  - intros (p & Hp & Hs & Hc). pose proof Hs as [n (r & m & Ob & -> & _)%Rep].
    destruct (proj2 (rep_head _ r) (conj eq_refl Hs)) as [Hr Hh]. exists (PTR_FROM_BLOCK r s), r.
    split; [done|]. split; [done|]. split; [done|]. apply rep_reaches; [by destruct Ob|done].
Qed.

(** After a collection the objects are those that can be reached. *)
Lemma rep_collected R s' k' : collect_frame s s' -> tab s' k' -> swept R s k k' ->
  exists O', gheap s' O' /\ represents s' k' O' /\ survivors R (bytes s) O O'.
Proof using Ok Rep.
  intros F T' W. pose proof (f_layout _ _ F) as L.
  exists (filter (fun x => k' (BLOCK_FROM_PTR x.1 s) = AT_HEAD) O).
  assert (HS : survivors R (bytes s) O (filter (fun x => k' (BLOCK_FROM_PTR x.1 s) = AT_HEAD) O)).
  { intros p n. rewrite map_lookup_filter_Some. simpl. split; intros [Ho Hk]; (split; [done|]);
      pose proof (proj1 (Rep p n) Ho) as (h & m & Ob & -> & ->); destruct (object_ptr s k h m (o_tab _ _ Ok) Ob) as (_ & Eb & _);
      pose proof (object_range _ _ _ _ Ob); destruct Ob as [Hh Hc]; pose proof (w_object _ _ _ _ W h m Hh Hc) as Hw.
    - rewrite Eb in Hk. apply rep_live. destruct Hw as [[? _]|[_ He]]; [done|]. rewrite He in Hk by lia. kinds.
    - rewrite Eb. apply rep_live in Hk. destruct Hw as [[_ He]|[? _]]; [by rewrite He by lia|done]. }
  assert (HR : represents s' k' (filter (fun x => k' (BLOCK_FROM_PTR x.1 s) = AT_HEAD) O)).
  { intros p n. pose proof (Rep p n : _ <-> _) as RP. rewrite (HS p n : _ <-> _), RP. split.
    - intros [(h & m & Ob & -> & ->) Hl]. exists h, m. rewrite (object_layout s s') by done. rewrite (ptr_layout s s') by done.
      split; [|done]. apply (swept_objects R s k k'); [apply Ok|done|]. split; [done|by apply rep_live].
    - intros (h & m & Ob & -> & ->). rewrite (object_layout s s') in Ob by done. rewrite (ptr_layout s s') by done.
      apply (swept_objects R s k k') in Ob as [Ob Hl]; [|apply Ok|done]. split; [by exists h, m|by apply rep_live]. }
  split; [|done]. exists k'. split; [by eapply collect_ok|done].
Qed.
End Represented.

(** * Tables that differ in one object *)

Lemma rep_insert s k O s' k' h0 m0 : represents s k O -> layout s' = layout s ->
  (forall h m, object s k' h m <-> (h = h0 /\ m = m0) \/ (h <> h0 /\ object s k h m)) ->
  represents s' k' (<[PTR_FROM_BLOCK h0 s := 16 * m0]> O).
Proof.
  intros Rep L Hob p n. rewrite lookup_insert_Some, (Rep p n : _ <-> _). split.
  - intros [[<- <-]|[Hne (h & m & Ob & -> & ->)]].
    + exists h0, m0. rewrite (object_layout s s'), (ptr_layout s s') by done. split; [apply Hob; by left|done].
    + exists h, m. rewrite (object_layout s s'), (ptr_layout s s') by done. split; [|done]. apply Hob. right. split; [|done].
      intros ->. done.
  - intros (h & m & Ob & -> & ->). rewrite (object_layout s s') in Ob by done. rewrite (ptr_layout s s') by done.
    apply Hob in Ob as [[-> ->]|[Hne Ob]]; [by left|right]. split; [by rewrite ptr_inj|by exists h, m].
Qed.

Lemma rep_delete s k O s' k' h0 : represents s k O -> layout s' = layout s ->
  (forall h m, object s k' h m <-> h <> h0 /\ object s k h m) ->
  represents s' k' (delete (PTR_FROM_BLOCK h0 s) O).
Proof.
  intros Rep L Hob p n. rewrite lookup_delete_Some, (Rep p n : _ <-> _). split.
  - intros [Hne (h & m & Ob & -> & ->)]. exists h, m. rewrite (object_layout s s'), (ptr_layout s s') by done. split; [|done].
    apply Hob. split; [|done]. by intros ->.
  - intros (h & m & Ob & -> & ->). rewrite (object_layout s s') in Ob by done. rewrite (ptr_layout s s') by done.
    apply Hob in Ob as [Hne Ob]. split; [by rewrite ptr_inj|by exists h, m].
Qed.

Lemma rep_fun s k k' O O' : tab s k -> tab s k' -> represents s k O -> represents s k' O' -> O = O'.
Proof.
  intros T T' Rep Rep'.
  assert (Ek : forall b, 0 <= b < max_block s -> k b = k' b).
  { intros b Hb. pose proof (t_kind _ _ T b Hb) as E. rewrite (t_kind _ _ T' b Hb) in E. by injection E. }
  assert (Hob : forall k1 k2 h m, (forall b, 0 <= b < max_block s -> k1 b = k2 b) -> object s k1 h m -> object s k2 h m).
  { intros k1 k2 h m E [Hk Hc]. pose proof Hc as (? & ? & ? & _ & Hn). split; [rewrite <- E by lia; done|].
    apply (chain_same _ k1); [done|intros b Hb; rewrite E by lia; done|]. intros Hlt. rewrite <- E by lia. by apply Hn. }
  apply map_eq. intros p. apply option_eq. intros n. rewrite (Rep p n : _ <-> _), (Rep' p n : _ <-> _).
  split; intros (h & m & Ob & ?); exists h, m; (split; [|done]); (eapply Hob; [|exact Ob]); [done|]. intros b Hb. by rewrite Ek.
Qed.

Lemma gheap_fun s O O' : gheap s O -> gheap s O' -> O = O'.
Proof. intros (k & Ok & Rep) (k' & Ok' & Rep'). eapply (rep_fun s k k'); [apply Ok|apply Ok'|done|done]. Qed.

(** Every block that is not free is part of an object. *)
Lemma owner s k b : gc_ok s k -> 0 <= b < max_block s -> k b <> AT_FREE -> exists h m, object s k h m /\ h <= b < h + m.
Proof.
  intros O. pose proof (o_tab _ _ O) as T. intros Hb. rewrite <- (Z2Nat.id b) in * by lia. revert Hb.
  induction (Z.to_nat b) as [|x IH]; intros Hb Hk.
  - change (Z.of_nat 0) with 0 in *. pose proof (tab_range s k 0 T Hb). pose proof (o_clean _ _ O 0 Hb). destruct (decide (k 0 = AT_TAIL)) as [Ht|Ht].
    { destruct (o_wf _ _ O 0 Hb Ht). lia. }
    destruct (chain_exists k (max_block s) 0 Hb) as [n Hn]. exists 0, n. split; [split; [kinds|done]|]. destruct Hn as (_ & ? & _). lia.
  - set (c := Z.of_nat (S x)) in *. pose proof (tab_range s k c T Hb). pose proof (o_clean _ _ O c Hb).
    destruct (decide (k c = AT_TAIL)) as [Ht|Ht].
    + destruct (o_wf _ _ O c Hb Ht) as [_ Hp]. replace (c - 1) with (Z.of_nat x) in Hp by lia.
      destruct (IH ltac:(lia) Hp) as (h & m & Ob & Hh). exists h, m. split; [done|]. split; [lia|].
      destruct (decide (h + m = c)) as [E|]; [|lia]. destruct Ob as [_ (_ & _ & _ & _ & He)]. rewrite E in He. destruct He; [lia|done].
    + destruct (chain_exists k (max_block s) c Hb) as [n Hn]. exists c, n. split; [split; [kinds|done]|]. destruct Hn as (_ & ? & _). lia.
Qed.

(** * Outcomes *)

(** [n] bytes at [p] are blocks of the pool. *)
Definition in_pool (s : mp_state_mem_t) (p n : Z) : Prop :=
  gc_pool_start s <= p /\ p + n <= gc_pool_end s /\ p mod 16 = 0.

(** They do not overlap any of the objects. *)
Definition avoids (O : gmap Z Z) (p n : Z) : Prop := forall q m, O !! q = Some m -> p + n <= q \/ q + m <= p.

(** The objects there were, or those of them that can be reached. *)
Definition remaining (R : roots) (c : bool) (s : mp_state_mem_t) (O O1 : gmap Z Z) : Prop :=
  if c then survivors R (bytes s) O O1 else O1 = O.

(** A call of [gc_alloc] for [n] bytes of blocks returned [p]. *)
Definition alloc_outcome (R : roots) (s : mp_state_mem_t) (O : gmap Z Z) (n : Z) (p : ptr) (s' : mp_state_mem_t) : Prop :=
  exists c O1, remaining R c s O O1 /\ layout s' = layout s /\ gc_lock_depth s' = gc_lock_depth s /\
    ((p = NULL /\ gheap s' O1 /\ (c = true \/ gc_auto_collect_enabled s = 0) /\
      (forall q, in_pool s q n -> ~ avoids O1 q n) /\
      (forall a, ~ in_table s a -> bytes s' !! a = bytes s !! a)) \/
     (p <> NULL /\ in_pool s p n /\ avoids O1 p n /\ gheap s' (<[p := n]> O1) /\
      (forall a, p <= a < p + n -> bytes s' !! a = Some 0) /\
      (forall a, ~ in_table s a -> ~ (p <= a < p + n) -> bytes s' !! a = bytes s !! a))).

Lemma maybe_remaining R c s k O s1 k1 : gc_ok s k -> represents s k O -> gc_ok s1 k1 -> maybe_collected R c s k s1 k1 ->
  exists O1, represents s1 k1 O1 /\ remaining R c s O O1 /\ layout s1 = layout s /\ gc_lock_depth s1 = gc_lock_depth s /\
    forall a, ~ in_table s a -> bytes s1 !! a = bytes s !! a.
Proof.
  intros Ok Rep O1 M. destruct c; [|destruct M as [-> ->]; exists O; done]. destruct M as [F W].
  destruct (rep_collected s k O Ok Rep R s1 k1 F) as (O' & _ & Rep' & HS); [apply O1|done|].
  exists O'. pose proof (f_control _ _ F) as C. unfold control in C. injection C as Ed _ _ _ _.
  split; [done|]. split; [done|]. split; [apply F|]. split; [done|apply F].
Qed.

Lemma block_in_pool s k j n : tab s k -> 0 <= j -> j + n <= max_block s -> in_pool s (PTR_FROM_BLOCK j s) (16 * n).
Proof.
  intros T Hj Hn. destruct (tab_bound s k T). pose proof (t_geo _ _ T). unfold in_pool, PTR_FROM_BLOCK, BYTES_PER_BLOCK. lia.
Qed.

Lemma rep_avoids s k O j n : represents s k O -> 0 < n ->
  avoids O (PTR_FROM_BLOCK j s) (16 * n) <-> forall h m, object s k h m -> j + n <= h \/ h + m <= j.
Proof.
  intros Rep Hn. unfold PTR_FROM_BLOCK, BYTES_PER_BLOCK. split.
  - intros H h m Ob. pose proof (H _ _ (rep_object s k O Rep h m Ob)) as H'. unfold PTR_FROM_BLOCK, BYTES_PER_BLOCK in H'. lia.
  - intros H q m Hq. apply Rep in Hq as (h & mm & Ob & -> & ->). pose proof (H h mm Ob).
    unfold PTR_FROM_BLOCK, BYTES_PER_BLOCK. lia.
Qed.

Lemma run_avoids s k j n : run k j n -> 0 < n -> forall h m, object s k h m -> j + n <= h \/ h + m <= j.
Proof.
  intros Hr Hn h m Ob. pose proof (object_range _ _ _ _ Ob).
  destruct (decide (j + n <= h)); [by left|]. destruct (decide (h + m <= j)); [by right|].
  destruct (object_kind _ _ _ _ (Z.max h j) Ob) as [E|E]; [lia|rewrite Hr in E by lia; kinds..].
Qed.

(** Blocks that no object uses are free. *)
Lemma avoids_run s k O n q : gc_ok s k -> represents s k O -> 0 < n -> in_pool s q (16 * n) -> avoids O q (16 * n) ->
  exists j, 0 <= j /\ j + n <= max_block s /\ run k j n.
Proof.
  intros Ok Rep Hn Hq Hav. pose proof (o_tab _ _ Ok) as T. destruct (tab_bound s k T). pose proof (t_geo _ _ T).
  assert (Eq : q = PTR_FROM_BLOCK ((q - gc_pool_start s) / 16) s) by (unfold in_pool, PTR_FROM_BLOCK, BYTES_PER_BLOCK in *; lia).
  set (j := (q - gc_pool_start s) / 16) in *. rewrite Eq in Hav. rewrite (rep_avoids s k O j n Rep Hn) in Hav.
  assert (Hj : 0 <= j /\ j + n <= max_block s) by (unfold in_pool, PTR_FROM_BLOCK, BYTES_PER_BLOCK in *; lia).
  exists j. split; [lia|]. split; [lia|]. intros b Hb. destruct (decide (k b = AT_FREE)) as [|Hk]; [done|].
  destruct (owner s k b Ok ltac:(lia) Hk) as (h & m & Ob & Hh). pose proof (Hav h m Ob). lia.
Qed.

(** No gap for [n] blocks when there is no run of them. *)
Lemma no_run_gap s k O n q : gc_ok s k -> represents s k O -> 0 < n -> no_run s k n -> in_pool s q (16 * n) -> ~ avoids O q (16 * n).
Proof.
  intros Ok Rep Hn Hno Hq Hav. destruct (avoids_run s k O n q Ok Rep Hn Hq Hav) as (j & Hj & Hle & Hr). by apply (Hno j).
Qed.

(** ** Allocation *)

Lemma in_pool_layout s s' p n : layout s' = layout s -> in_pool s' p n <-> in_pool s p n.
Proof. unfold layout, in_pool. intros [= _ _ -> ->]. done. Qed.

Lemma alloc_run R n_bytes flags s O : gheap s O -> roots_ok s R -> 0 < blocks_for n_bytes -> gc_lock_depth s = 0 ->
  wp (gc_alloc R n_bytes flags) (alloc_outcome R s O (16 * blocks_for n_bytes)) s.
Proof.
  intros (k & Ok & Rep) Hr Hn Hd. set (n := blocks_for n_bytes) in *.
  apply (wp_gc_alloc R n_bytes flags s k); [done..|fold n; lia|]. fold n. intros c s1 k1 O1 M _ _.
  destruct (maybe_remaining R c s k O s1 k1 Ok Rep O1 M) as (Om & Rep1 & HR & L1 & Ed & B1). split.
  - intros j s' Hfr Hle A. pose proof Hfr as (Hj & Hrun & _). exists c, Om. pose proof (t_geo _ _ (o_tab _ _ O1)) as G.
    assert (Ep : gc_pool_start s1 = gc_pool_start s) by (unfold layout in L1; by injection L1).
    split; [done|]. split; [rewrite (al_layout _ _ _ _ _ A); done|]. split; [by rewrite (al_lock _ _ _ _ _ A)|]. right.
    split; [unfold PTR_FROM_BLOCK, NULL, BYTES_PER_BLOCK; lia|].
    split; [apply (in_pool_layout s s1); [done|]; eapply block_in_pool; [apply O1|done|done]|].
    split; [apply (rep_avoids s1 k1 Om j n Rep1 Hn); by apply run_avoids|].
    split; [|split].
    + exists (take k1 j n). split; [apply A|]. eapply rep_insert; [exact Rep1|apply A|]. intros h m.
      rewrite (take_objects s1 k1 j n) by done. split; [|tauto]. intros [?|Ob]; [by left|right]. split; [|done].
      intros ->. destruct Ob as [Hk _]. rewrite Hrun in Hk by lia. kinds.
    + intros a Ha. apply (al_zero _ _ _ _ _ A). unfold PTR_FROM_BLOCK, BYTES_PER_BLOCK in Ha. lia.
    + intros a Ha Ha'. rewrite (al_same _ _ _ _ _ A); [by apply B1|by rewrite (in_table_layout s s1)|].
      unfold PTR_FROM_BLOCK, BYTES_PER_BLOCK in Ha'. lia.
  - intros Hno Hc. exists c, Om. split; [done|]. split; [done|]. split; [done|]. left. split; [done|]. split; [by exists k1|].
    split; [done|]. split; [|done]. intros q Hq. apply (no_run_gap s1 k1 Om n); [done..|]. by apply (in_pool_layout s s1).
Qed.

(** ** Freeing *)

(** Memory outside the table is as before. *)
Definition same_data (s s' : mp_state_mem_t) : Prop :=
  layout s' = layout s /\ gc_lock_depth s' = gc_lock_depth s /\ forall a, ~ in_table s a -> bytes s' !! a = bytes s !! a.

Lemma free_run s O p n : gheap s O -> O !! p = Some n -> gc_lock_depth s = 0 ->
  wp (gc_free p) (fun _ s' => gheap s' (delete p O) /\ same_data s s') s.
Proof.
  intros (k & Ok & Rep) Hp Hd. apply Rep in Hp as (h & m & Ob & -> & ->). pose proof (object_range _ _ _ _ Ob).
  apply (wp_gc_free s k h m); [done|done|lia|]. intros _ s' (O' & L & Ed & B). split; [|done].
  exists (fill k (h + 0) (m - 0) AT_FREE). split; [done|]. eapply rep_delete; [exact Rep|done|]. intros h' m'.
  rewrite (cut_objects s k h m 0 h' m'); [|done|lia]. intuition lia.
Qed.

Lemma free_ignored s p : 0 < gc_lock_depth s \/ p = NULL -> gc_free p s = Some (tt, s).
Proof.
  intros H. unfold gc_free, bind, gets. destruct (Z.ltb_spec 0 (gc_lock_depth s)); [done|].
  destruct H as [H| ->]; [lia|done].
Qed.

(** ** Resizing *)

Definition realloc_outcome (R : roots) (s : mp_state_mem_t) (O : gmap Z Z) (p n nb : Z) (mv : bool)
    (q : ptr) (s' : mp_state_mem_t) : Prop :=
  exists c O1, remaining R c s O O1 /\ layout s' = layout s /\ gc_lock_depth s' = gc_lock_depth s /\
    ((q <> NULL /\ (q = p \/ (mv = true /\ n < nb /\ avoids O1 q nb)) /\ gheap s' (<[q := nb]> (delete p O1)) /\
      (forall i, 0 <= i < nb -> bytes s' !! (q + i) = if decide (i < n) then bytes s !! (p + i) else Some 0) /\
      (forall a, ~ in_table s a -> ~ (q <= a < q + nb) -> bytes s' !! a = bytes s !! a)) \/
     (q = NULL /\ n < nb /\ gheap s' O1 /\ (c = true -> mv = true) /\ (forall x, mv = true -> in_pool s x nb -> ~ avoids O1 x nb) /\
      (forall a, ~ in_table s a -> bytes s' !! a = bytes s !! a))).

Lemma same_size s k O h m : represents s k O -> object s k h m ->
  O = <[PTR_FROM_BLOCK h s := 16 * m]> (delete (PTR_FROM_BLOCK h s) O).
Proof. intros Rep Ob. rewrite insert_delete_eq, insert_id; [done|]. by eapply rep_object. Qed.

(** The object keeps its address. *)
Lemma resized_in_place R s k O h m nb mv k' s' : gc_ok s k -> represents s k O -> object s k h m ->
  gc_ok s' k' -> layout s' = layout s -> gc_lock_depth s' = gc_lock_depth s ->
  (forall h' m', object s k' h' m' <-> (h' = h /\ m' = nb) \/ (h' <> h /\ object s k h' m')) ->
  (forall a, gc_pool_start s + 16 * (h + m) <= a < gc_pool_start s + 16 * (h + nb) -> bytes s' !! a = Some 0) ->
  (forall a, ~ in_table s a -> ~ (gc_pool_start s + 16 * (h + m) <= a < gc_pool_start s + 16 * (h + nb)) -> bytes s' !! a = bytes s !! a) ->
  realloc_outcome R s O (PTR_FROM_BLOCK h s) (16 * m) (16 * nb) mv (PTR_FROM_BLOCK h s) s'.
Proof.
  intros Ok Rep Ob O' L Ed Hob Hz Hs. exists false, O. split; [done|]. split; [done|]. split; [done|]. left.
  pose proof (object_range _ _ _ _ Ob). pose proof (t_geo _ _ (o_tab _ _ Ok)).
  destruct (object_ptr s k h m (o_tab _ _ Ok) Ob) as (_ & _ & Hn).
  split; [done|]. split; [by left|]. split; [|split].
  - exists k'. split; [done|]. rewrite insert_delete_eq. by eapply rep_insert.
  - intros i Hi. unfold PTR_FROM_BLOCK, BYTES_PER_BLOCK. destruct (decide (i < 16 * m)).
    + apply Hs; [unfold in_table; lia|lia].
    + apply Hz. lia.
  - intros a Ha Ha'. apply Hs; [done|]. unfold PTR_FROM_BLOCK, BYTES_PER_BLOCK in Ha'. lia.
Qed.

(** The object has got a new address. *)
Lemma resized_moved R c s k O s1 k1 h m nb j s' : gc_ok s k -> represents s k O -> object s k h m -> live R s k h ->
  gc_ok s1 k1 -> maybe_collected R c s k s1 k1 -> m < nb -> first_run k1 nb j -> j + nb <= max_block s1 -> moved s1 k1 h m j nb s' ->
  realloc_outcome R s O (PTR_FROM_BLOCK h s) (16 * m) (16 * nb) true (PTR_FROM_BLOCK j s1) s'.
Proof.
  intros Ok Rep Ob Hl O1 M Hlt (Hj & Hrun & _) Hle V. pose proof (object_range _ _ _ _ Ob) as Hr.
  destruct (live_kept R c s k s1 k1 h m (o_tab _ _ Ok) M Ob Hl) as (Ob1 & Ep & _).
  destruct (maybe_remaining R c s k O s1 k1 Ok Rep O1 M) as (Om & Rep1 & HR & L1 & Ed & B1).
  pose proof (t_geo _ _ (o_tab _ _ O1)) as G. exists c, Om. destruct V as [Vo Vl Vd Vdata Vs].
  assert (Eps : gc_pool_start s1 = gc_pool_start s) by (unfold layout in L1; by injection L1).
  assert (Htb : forall a, in_table s1 a <-> in_table s a) by (intros a; by apply in_table_layout).
  assert (Hjh : j <> h) by (intros ->; destruct Ob1 as [Hk _]; rewrite Hrun in Hk by lia; kinds).
  split; [done|]. split; [congruence|]. split; [congruence|]. left.
  split; [unfold PTR_FROM_BLOCK, NULL, BYTES_PER_BLOCK; lia|]. split; [|split; [|split]].
  - right. split; [done|]. split; [lia|]. apply (rep_avoids s1 k1 Om j nb Rep1); [lia|]. apply run_avoids; [done|lia].
  - exists (fill (take k1 j nb) h m AT_FREE). split; [done|]. rewrite <- Ep, <- delete_insert_ne by (by rewrite ptr_inj).
    eapply (rep_delete s1 (take k1 j nb) _ s' _ h); [|done|].
    + eapply rep_insert; [exact Rep1|done|]. intros h' m'. rewrite (take_objects s1 k1 j nb) by (done || lia).
      split; [|tauto]. intros [?|Ob']; [by left|right]. split; [|done]. intros ->. destruct Ob' as [Hk _]. rewrite Hrun in Hk by lia. kinds.
    + intros h' m'. assert (Obt : object s1 (take k1 j nb) h m) by (apply (take_objects s1 k1 j nb); [done|done|lia|done|done|by right]).
      pose proof (cut_objects s1 (take k1 j nb) h m 0 h' m' Obt ltac:(lia)) as Hc. rewrite Z.add_0_r, Z.sub_0_r in Hc. intuition lia.
  - intros i Hi. replace (PTR_FROM_BLOCK j s1 + i) with (gc_pool_start s1 + 16 * j + i) by (unfold PTR_FROM_BLOCK, BYTES_PER_BLOCK; lia).
    rewrite Vdata by done. destruct (decide _); [|done].
    rewrite B1; [f_equal; unfold PTR_FROM_BLOCK, BYTES_PER_BLOCK; lia|].
    rewrite <- Htb. destruct (tab_bound _ _ (o_tab _ _ O1)). unfold in_table. lia.
  - intros a Ha Ha'. rewrite Vs; [by apply B1|by rewrite Htb|]. unfold PTR_FROM_BLOCK, BYTES_PER_BLOCK in Ha'. lia.
Qed.

Lemma realloc_run R n_bytes mv s O p n : gheap s O -> roots_ok s R -> O !! p = Some n -> reachable R (bytes s) O p ->
  0 < n_bytes <= 2 ^ 32 - 16 -> gc_lock_depth s = 0 ->
  wp (gc_realloc R p n_bytes mv) (realloc_outcome R s O p n (16 * blocks_for n_bytes) mv) s.
Proof.
  intros (k & Ok & Rep) Hr Hp Hl Hn Hd. apply Rep in Hp as (h & m & Ob & -> & ->). pose proof (object_range _ _ _ _ Ob) as Hrg.
  apply (rep_live s k O Ok Rep R h) in Hl.
  assert (Hnew : 0 < blocks_for n_bytes) by (unfold blocks_for; rewrite wrapu_small by lia; lia).
  apply (wp_gc_realloc R n_bytes mv s k h m); [done..|lia|lia| | | | |].
  - intros _ E. rewrite E. apply (resized_in_place R s k O h m m mv k); try done; [|lia].
    intros h' m'. split; [|intros [[-> ->]|[_ ?]]; done]. intros Ob'. destruct (decide (h' = h)) as [->|]; [left|by right].
    split; [done|]. by eapply object_inj.
  - intros _ Hlt s' (O' & L & Ed & B). eapply (resized_in_place R s k O h m (blocks_for n_bytes) mv); [done..|exact O'|done|done| |lia|auto].
    intros h' m'. rewrite (cut_objects s k h m) by (done || lia). intuition lia.
  - intros _ Hlt Hroom s' G. destruct Hroom as [Hle Hrun]. eapply (resized_in_place R s k O h m (blocks_for n_bytes) mv);
      [done..|apply G|apply G|apply G| |apply G|apply G]. intros h' m'. by apply extend_objects.
  - intros _ Hlt _ ->. exists false, O. split; [done|]. split; [done|]. split; [done|]. right.
    split; [done|]. split; [lia|]. split; [by exists k|]. done.
  - intros _ Hlt _ -> c s1 k1 O1 M. split.
    + intros j s' Hfr Hle V. by eapply resized_moved.
    + intros Hno Hc. destruct (maybe_remaining R c s k O s1 k1 Ok Rep O1 M) as (Om & Rep1 & HR & L1 & Ed & B1).
      exists c, Om. split; [done|]. split; [done|]. split; [done|]. right. split; [done|]. split; [lia|]. split; [by exists k1|].
      split; [done|]. split; [|done]. intros x _ Hx. apply (no_run_gap s1 k1 Om); [done..|]. by apply (in_pool_layout s s1).
Qed.

(** ** The other operations *)

Lemma collect_run R s O : gheap s O -> roots_ok s R ->
  wp (gc_collect R) (fun _ s' => (exists O', gheap s' O' /\ survivors R (bytes s) O O') /\ same_data s s') s.
Proof.
  intros (k & Ok & Rep) Hr. apply (wp_gc_collect_ok R s k); [done..|]. intros s1 k1 O1 [F W].
  destruct (rep_collected s k O Ok Rep R s1 k1 F) as (O' & Hg & _ & HS); [apply O1|done|].
  split; [by exists O'|]. pose proof (f_control _ _ F) as C. unfold control in C. injection C as Ed _ _ _ _.
  split; [apply F|]. split; [done|apply F].
Qed.

Lemma nbytes_run s O p : gheap s O -> wp (gc_nbytes p) (fun n s' => s' = s /\ n = default 0 (O !! p)) s.
Proof.
  intros (k & Ok & Rep). apply (wp_gc_nbytes s k); [apply Ok| |].
  - intros h m Ob ->. by rewrite (rep_object s k O Rep h m Ob).
  - intros Hno. split; [done|]. destruct (O !! p) eqn:E; [|done]. apply Rep in E as (h & m & Ob & -> & _). by destruct (Hno h m Ob).
Qed.

(** A byte outside the table, and not the one behind it, may be written. *)
Lemma store_ok s O a v : gheap s O -> is_Some (bytes s !! a) -> 0 <= v < 256 ->
  a < gc_alloc_table_start s \/ gc_pool_start s <= a -> gheap (set_bytes (<[a := v]>) s) O.
Proof.
  intros (k & Ok & Rep) Hs Hv Ha. exists k. split; [|done]. destruct Ok as [T ? ? ? ? ?]. split; try done.
  pose proof (t_geo _ _ T) as G. assert (EN : max_block s = 4 * gc_alloc_table_byte_len s) by (unfold max_block, BLOCKS_PER_ATB; lia).
  assert (Hat : forall b, 0 <= b <= max_block s -> kind_at (set_bytes (<[a := v]>) s) b = kind_at s b).
  { intros b Hb. unfold kind_at. simpl. by rewrite lookup_insert_ne by lia. }
  split; [done| | | |].
  - intros a' v'. simpl. intros [[<- <-]|[_ ?]]%lookup_insert_Some; [done|]. by eapply t_bytes.
  - intros b Hb. change (max_block _) with (max_block s) in Hb. rewrite Hat by lia. by apply (t_kind _ _ T).
  - change (max_block (set_bytes _ s)) with (max_block s). rewrite Hat by lia. apply T.
  - intros a' Ha'. simpl in *. apply lookup_insert_is_Some'. right. by apply (t_pool _ _ T).
Qed.

Lemma lock_ok s O d : gheap s O -> gheap (set_lock_depth d s) O.
Proof. intros (k & [T ? ? ? ? ?] & Rep). exists k. split; [|done]. split; try done; [by apply (tab_control s)|]. simpl. apply wrapu_range. lia. Qed.

(** The objects are whole blocks of the pool that do not overlap. *)
Lemma gheap_wf s O p n : gheap s O -> O !! p = Some n ->
  0 < n /\ n mod 16 = 0 /\ in_pool s p n /\ p <> NULL /\ forall q m, q <> p -> O !! q = Some m -> p + n <= q \/ q + m <= p.
Proof.
  intros (k & Ok & Rep) Hp. apply Rep in Hp as (h & m & Ob & -> & ->). pose proof (object_range _ _ _ _ Ob) as Hr.
  destruct (object_ptr s k h m (o_tab _ _ Ok) Ob) as (_ & _ & Hn).
  split; [lia|]. split; [lia|]. split; [eapply block_in_pool; [apply Ok|lia|lia]|]. split; [done|].
  intros q mq Hq Hqo. apply Rep in Hqo as (h' & m' & Ob' & -> & ->). rewrite ptr_inj in Hq.
  pose proof (object_disjoint _ _ _ _ _ _ Ob' Ob Hq). unfold PTR_FROM_BLOCK, BYTES_PER_BLOCK. lia.
Qed.
