(* ===== verification/GcInfo.v ===== *)
(** GcInfo: the figures that [gc_info] collects. *)

From stdpp Require Import options.
From S2P Require Import Prelude Gc GcRep GcMark GcSweep GcAlloc GcOps GcSpec.

#[local] Ltac Zify.zify_post_hook ::= Z.to_euclidean_division_equations.

(** * The loop *)

(** The free blocks before block [b]. *)
Definition nfree (k : Z -> Z) (b : Z) : Z := Z.of_nat (length (filter (fun x => k x = AT_FREE) (seqZ 0 b))).

Lemma nfree_next k b : 0 <= b -> nfree k (b + 1) = nfree k b + (if decide (k b = AT_FREE) then 1 else 0).
Proof.
  intros Hb. unfold nfree. rewrite seqZ_app by lia. rewrite filter_app, length_app. change (0 + b) with b. change (seqZ b 1) with [b].
  case_decide; [rewrite filter_cons_True by done|rewrite filter_cons_False by done]; simpl; lia.
Qed.

Lemma nfree_range k b : 0 <= b -> 0 <= nfree k b <= b.
Proof.
  intros Hb. unfold nfree. pose proof (length_filter (fun x => k x = AT_FREE) (seqZ 0 b)) as H. rewrite length_seqZ in H. lia.
Qed.

(** [mf] is the length of the longest run of free blocks before [b], apart from
    those that start at [c] or later. *)
Definition longest (k : Z -> Z) (b c mf : Z) : Prop :=
  0 <= mf /\ (forall j n, 0 <= j -> 0 < n -> j + n <= b -> run k j n -> n <= mf \/ c <= j) /\
  (mf = 0 \/ exists j, 0 <= j /\ j + mf <= b /\ run k j mf).

Record info_inv (k : Z -> Z) (N total b lf : Z) (i : gc_info_t) : Prop := {
  v_total : i_total i = total;
  v_free : i_free i = nfree k b;
  v_used : i_used i = b - nfree k b;
  v_lf : 0 <= lf <= b;
  v_run : run k (b - lf) lf;
  v_edge : k b <> AT_HEAD -> 0 < b - lf -> k (b - lf - 1) <> AT_FREE;
  v_head : k b = AT_HEAD -> lf = 0;
  v_max : longest k b (b - lf) (i_max_free i)
}.

Lemma longest_next k b lf mf : longest k b (b - lf) mf -> 0 <= lf <= b -> run k (b - lf) lf ->
  (k b <> AT_HEAD -> 0 < b - lf -> k (b - lf - 1) <> AT_FREE) ->
  longest k (b + 1) (b + 1 - (if decide (k b = AT_FREE) then lf + 1 else 0)) mf \/ (k b <> AT_FREE /\ 0 < lf).
Proof.
  intros (H0 & H1 & H2) Hlf Hr He. destruct (decide (k b = AT_FREE)) as [Hk|Hk].
  - left. split; [done|]. split.
    + intros j n Hj Hn Hle R. replace (b + 1 - (lf + 1)) with (b - lf) by lia. destruct (decide (j + n <= b)) as [?|?]; [by apply (H1 j n)|].
      right. destruct (decide (b - lf <= j)); [done|]. destruct He; [kinds|lia|]. apply R. lia.
    + destruct H2 as [?|(j & ? & ? & ?)]; [by left|right]. exists j. split; [done|]. split; [lia|done].
  - destruct (decide (lf = 0)) as [->|]; [left|right; split; [done|lia]]. split; [done|]. split.
    + intros j n Hj Hn Hle R. destruct (decide (j + n <= b)).
      * destruct (H1 j n) as [?|?]; [done|done|done|done|by left|lia].
      * destruct Hk. apply R. lia.
    + destruct H2 as [?|(j & ? & ? & ?)]; [by left|right]. exists j. split; [done|]. split; [lia|done].
Qed.

(** A run ends: it counts. *)
Lemma longest_close k b lf mf : longest k b (b - lf) mf -> 0 <= lf <= b -> run k (b - lf) lf ->
  longest k b b (if mf <? lf then lf else mf).
Proof.
  intros (H0 & H1 & H2) Hlf Hr. destruct (Z.ltb_spec mf lf).
  - split; [lia|]. split; [|right; exists (b - lf); split; [lia|split; [lia|done]]].
    intros j n Hj Hn Hle R. left. destruct (H1 j n Hj Hn Hle R); lia.
  - split; [done|]. split; [|done]. intros j n Hj Hn Hle R. left. destruct (H1 j n Hj Hn Hle R); lia.
Qed.

(** What is counted at the end. *)
Definition info_exact (s : mp_state_mem_t) (k : Z -> Z) (i : gc_info_t) : Prop :=
  i_total i = 16 * max_block s /\ i_free i = 16 * nfree k (max_block s) /\
  i_used i = 16 * (max_block s - nfree k (max_block s)) /\
  (forall j n, 0 <= j -> 0 < n -> j + n <= max_block s -> run k j n -> n <= i_max_free i) /\
  (0 < i_max_free i -> exists j, 0 <= j /\ j + i_max_free i <= max_block s /\ run k j (i_max_free i)).

Lemma wp_info_step s k b len lf i (Q : (Z * Z * Z * gc_info_t) + gc_info_t -> mp_state_mem_t -> Prop) :
  gc_ok s k -> 0 <= b < max_block s -> info_inv k (max_block s) (16 * max_block s) b lf i ->
  (forall len' lf' i', b + 1 < max_block s -> info_inv k (max_block s) (16 * max_block s) (b + 1) lf' i' -> Q (inl (b + 1, len', lf', i')) s) ->
  (forall i', b + 1 = max_block s -> i_total i' = 16 * max_block s -> i_free i' = nfree k (max_block s) ->
     i_used i' = max_block s - nfree k (max_block s) -> longest k (max_block s) (max_block s) (i_max_free i') -> Q (inr i') s) ->
  wp (info_step (b, len, lf, i)) Q s.
Proof.
  intros O Hb V Hgo Hend. pose proof (o_tab _ _ O) as T. unfold info_step. apply wp_bind, (wp_kind s k T); [done|].
  destruct V as [Vt Vf Vu Vlf Vrun Vedge Vhead Vmax].
  pose proof (nfree_next k b ltac:(lia)) as En. pose proof (tab_range s k b T Hb) as Hrg. pose proof (o_clean _ _ O b Hb) as Hcl.
  assert (Hlf0 : k b <> AT_FREE -> lf = 0).
  { intros Hk. destruct (decide (k b = AT_HEAD)) as [|Hh]; [by apply Vhead|]. assert (Ht : k b = AT_TAIL) by kinds.
    destruct (decide (lf = 0)); [done|]. destruct (o_wf _ _ O b Hb Ht) as [_ Hne]. destruct Hne. apply Vrun. lia. }
  set (lf' := if decide (k b = AT_FREE) then lf + 1 else 0).
  assert (Vmax' : longest k (b + 1) (b + 1 - lf') (i_max_free i)).
  { destruct (longest_next k b lf _ Vmax Vlf Vrun Vedge) as [|[Hk ?]]; [done|]. specialize (Hlf0 Hk). lia. }
  assert (Hlf' : 0 <= lf' <= b + 1) by (unfold lf'; destruct (decide _); lia).
  assert (Vrun' : run k (b + 1 - lf') lf').
  { unfold lf'. destruct (decide (k b = AT_FREE)); intros x Hx; [|lia]. destruct (decide (x = b)) as [->|]; [done|]. apply Vrun. lia. }
  assert (Vedge' : 0 < b + 1 - lf' -> k (b + 1 - lf' - 1) <> AT_FREE).
  { unfold lf'. destruct (decide (k b = AT_FREE)) as [Hk|Hk]; intros Hp; [|by replace (b + 1 - 0 - 1) with b by lia].
    replace (b + 1 - (lf + 1) - 1) with (b - lf - 1) by lia. apply Vedge; [kinds|lia]. }
  assert (Est : exists len', (if k b =? AT_FREE then (0, lf + 1, i_used i, i_free i + 1)
             else if k b =? AT_HEAD then (1, lf, i_used i + 1, i_free i)
             else if k b =? AT_TAIL then (len + 1, lf, i_used i + 1, i_free i) else (len, lf, i_used i, i_free i))
            = (len', lf', b + 1 - nfree k (b + 1), nfree k (b + 1))).
  { rewrite En, Vu, Vf. unfold lf'. destruct (decide (k b = AT_FREE)) as [Hk|Hk].
    - rewrite Hk. eexists. simpl. do 2 f_equal. lia.
    - rewrite (Hlf0 Hk). destruct (Z.eqb_spec (k b) AT_FREE); [done|].
      destruct (Z.eqb_spec (k b) AT_HEAD); [eexists; do 2 f_equal; lia|].
      destruct (Z.eqb_spec (k b) AT_TAIL); [eexists; do 2 f_equal; lia|kinds]. }
  destruct Est as [len' ->]. apply wp_bind, wp_gets.
  destruct (Z.eqb_spec (b + 1) (max_block s)) as [He|He]; cbn [negb orb].
  - apply wp_bind, wp_ret. apply wp_ret. rewrite <- He in *. apply Hend; try done; simpl. by apply longest_close.
  - apply wp_bind, (wp_kind s k T); [lia|]. pose proof (longest_close k (b + 1) lf' _ Vmax' Hlf' Vrun') as Hcls.
    destruct (Z.eqb_spec (k (b + 1)) AT_HEAD) as [Hh|Hh].
    + rewrite orb_true_r. apply wp_ret. eapply Hgo; [lia|]. split; try done; simpl.
      * lia.
      * intros x Hx. lia.
      * by rewrite Z.sub_0_r.
    + destruct (Z.eqb_spec (k (b + 1)) AT_FREE); simpl; apply wp_ret; (eapply Hgo; [lia|]; split; try done; auto).
Qed.

Lemma wp_gc_info s k (Q : gc_info_t -> mp_state_mem_t -> Prop) : gc_ok s k -> 0 < max_block s ->
  (forall i, info_exact s k i -> Q i s) -> wp gc_info Q s.
Proof.
  intros O HN HQ. pose proof (o_tab _ _ O) as T. destruct (tab_bound s k T) as [_ Hp]. pose proof (tab_fuel s k T) as Hfu.
  apply wp_bind, wp_gets, wp_bind, wp_fuel. rewrite Hp.
  assert (H : forall fuel b len lf i, max_block s - b < Z.of_nat fuel -> 0 <= b < max_block s ->
            info_inv k (max_block s) (16 * max_block s) b lf i ->
            wp (loop fuel info_step (b, len, lf, i)) (fun i s' => s' = s /\ i_total i = 16 * max_block s /\ i_free i = nfree k (max_block s) /\
              i_used i = max_block s - nfree k (max_block s) /\ longest k (max_block s) (max_block s) (i_max_free i)) s).
  { induction fuel as [|fuel IH]; intros b len lf i Hf Hb V; [lia|]. apply wp_loop_step, (wp_info_step s k b len lf i); [done..| |].
    - intros len' lf' i' Hlt V'. apply IH; [lia|lia|done].
    - intros i' _ ? ? ? ?. done. }
  eapply wp_mono; [apply (H _ 0 0 0); [lia|lia|]|].
  - split; simpl; try done; try lia.
    + intros x Hx. lia.
    + split; [lia|]. split; [|by left]. intros j n Hj Hn Hle _. lia.
  - intros i s' (-> & H1 & H2 & H3 & H4 & H5 & H6). apply wp_ret, HQ. unfold BYTES_PER_BLOCK. split_and!; simpl; [done|lia|lia| |].
    + intros j n Hj Hn Hle R. destruct (H5 j n Hj Hn Hle R); [done|lia].
    + intros Hm. destruct H6 as [?|?]; [lia|done].
Qed.

(** * The bytes of the objects *)

Definition total (O : gmap Z Z) : Z := map_fold (fun _ n acc => n + acc) 0 O.

(** Objects that do not overlap have as many blocks as they have together. *)
Lemma total_blocks pool (O : gmap Z Z) :
  (forall p n, O !! p = Some n -> 0 < n /\ n mod 16 = 0 /\ (p - pool) mod 16 = 0) ->
  (forall p n q m, O !! p = Some n -> O !! q = Some m -> p <> q -> p + n <= q \/ q + m <= p) ->
  exists U : gset Z, total O = 16 * Z.of_nat (size U) /\
    forall b, b ∈ U <-> exists p n, O !! p = Some n /\ p <= pool + 16 * b < p + n.
Proof.
  induction O as [|p n O Hp IH] using map_ind; intros Hw Hd.
  - exists ∅. split; [by unfold total; rewrite map_fold_empty, size_empty|]. intros b. split; [set_solver|].
    intros (p & n & H & _). by rewrite lookup_empty in H.
  - destruct IH as (U & EU & HU).
    { intros q m Hq. apply Hw. rewrite lookup_insert_ne; [done|congruence]. }
    { intros q m q' m' Hq Hq'. apply Hd; (rewrite lookup_insert_ne; [done|congruence]). }
    destruct (Hw p n ltac:(apply lookup_insert_eq)) as (Hn & Hn16 & Hp16).
    set (B := list_to_set (seqZ ((p - pool) / 16) (n / 16)) : gset Z).
    assert (HB : forall b, b ∈ B <-> p <= pool + 16 * b < p + n).
    { intros b. unfold B. rewrite elem_of_list_to_set, elem_of_seqZ. lia. }
    exists (B ∪ U). split.
    + unfold total. rewrite map_fold_insert_L; [|intros; lia|done]. fold (total O). rewrite EU, size_union.
      * unfold B. rewrite size_list_to_set by apply NoDup_seqZ. rewrite length_seqZ. lia.
      * intros b Hb1 Hb2. apply HB in Hb1. apply HU in Hb2 as (q & m & Hq & Hb2).
        destruct (Hd p n q m) as [?|?]; [apply lookup_insert_eq|rewrite lookup_insert_ne; [done|congruence]|congruence|lia|lia].
    + intros b. rewrite elem_of_union, HB, HU. split.
      * intros [Hb|(q & m & Hq & Hb)]; [exists p, n; split; [apply lookup_insert_eq|done]|].
        exists q, m. split; [rewrite lookup_insert_ne; [done|congruence]|done].
      * intros (q & m & [[<- <-]|[_ Hq]]%lookup_insert_Some & Hb); [by left|right; by exists q, m].
Qed.

Lemma total_used s k O : gc_ok s k -> represents s k O -> total O = 16 * (max_block s - nfree k (max_block s)).
Proof.
  intros Ok Rep. assert (Hg : gheap s O) by (by exists k). pose proof (t_geo _ _ (o_tab _ _ Ok)) as G.
  destruct (tab_bound s k (o_tab _ _ Ok)) as [HN Hp].
  destruct (total_blocks (gc_pool_start s) O) as (U & -> & HU).
  { intros p n Hpn. destruct (gheap_wf s O p n Hg Hpn) as (? & ? & (? & ? & ?) & _). lia. }
  { intros p n q m H1 H2 Hne. destruct (gheap_wf s O p n Hg H1) as (_ & _ & _ & _ & Hd). apply (Hd q m); [congruence|done]. }
  assert (EU : U = list_to_set (filter (fun b => k b <> AT_FREE) (seqZ 0 (max_block s)))).
  { apply set_eq. intros b. rewrite HU, elem_of_list_to_set, list_elem_of_filter, elem_of_seqZ. split.
    - intros (p & n & Hpn & Hb). apply Rep in Hpn as (h & m & Ob & -> & ->). unfold PTR_FROM_BLOCK, BYTES_PER_BLOCK in Hb.
      pose proof (object_range _ _ _ _ Ob). destruct (object_kind s k h m b Ob) as [-> | ->]; [lia|split; [kinds|lia]..].
    - intros [Hk Hb]. destruct (owner s k b Ok ltac:(lia) Hk) as (h & m & Ob & Hh).
      exists (PTR_FROM_BLOCK h s), (16 * m). split; [by apply (rep_object s k O Rep)|]. unfold PTR_FROM_BLOCK, BYTES_PER_BLOCK. lia. }
  rewrite EU, size_list_to_set by apply NoDup_filter, NoDup_seqZ. unfold nfree.
  pose proof (Permutation_length (filter_app_complement (fun b => k b = AT_FREE) (seqZ 0 (max_block s)))) as El.
  rewrite length_app, length_seqZ in El. lia.
Qed.

(** ** gc.mem_alloc and gc.mem_free *)

(** There are [n] blocks in a row that no object uses. *)
Definition gap (s : mp_state_mem_t) (O : gmap Z Z) (n : Z) : Prop := exists q, in_pool s q (16 * n) /\ avoids O q (16 * n).

Lemma info_run s O : gheap s O -> gc_pool_start s < gc_pool_end s ->
  wp gc_info (fun i s' => s' = s /\ i_total i = gc_pool_end s - gc_pool_start s /\ i_used i = total O /\
    i_free i = i_total i - i_used i /\ forall n, 0 < n -> gap s O n <-> n <= i_max_free i) s.
Proof.
  intros (k & Ok & Rep) Hpool. destruct (tab_bound s k (o_tab _ _ Ok)) as [_ Hp]. pose proof (t_geo _ _ (o_tab _ _ Ok)) as G.
  apply (wp_gc_info s k); [done|lia|]. intros i (H1 & H2 & H3 & H4 & H5). rewrite (total_used s k O Ok Rep).
  split; [done|]. split; [lia|]. split; [lia|]. split; [lia|].
  intros n Hn. split.
  - intros (q & Hq & Hav). destruct (avoids_run s k O n q Ok Rep Hn Hq Hav) as (j & Hj & Hle & Hr). by apply (H4 j n).
  - intros Hle. destruct H5 as (j & Hj & Hje & Hr); [lia|]. exists (PTR_FROM_BLOCK j s).
    split; [eapply block_in_pool; [apply Ok|done|lia]|]. apply (rep_avoids s k O j n Rep Hn), run_avoids; [|done].
    intros b Hb. apply Hr. lia.
Qed.
