(* ===== verification/GcProps.v ===== *)
(** GcProps: the theorems about the garbage collector, stated with the objects
    and the references between them, and the executions of a program that uses
    it. *)

From stdpp Require Import options.
From S2P Require Import Prelude Gc GcRep GcMark GcSweep GcAlloc GcOps GcSpec GcInfo.

#[local] Ltac Zify.zify_post_hook ::= Z.to_euclidean_division_equations.

(** * Programs that use the collector *)

Inductive gc_op :=
  | Alloc (R : roots) (n : Z)
  | Free (p : ptr)
  | Realloc (R : roots) (p : ptr) (n : Z) (mv : bool)
  | Collect (R : roots)
  | Store (a v : Z)
  | Lock
  | Unlock
  | Enable
  | Disable
  | Threshold (val : Z).

Definition exec (op : gc_op) : GC ptr :=
  match op with
  | Alloc R n => gc_alloc R n 0
  | Free p => gc_free p ;; ret NULL
  | Realloc R p n mv => gc_realloc R p n mv
  | Collect R => gc_collect R ;; ret NULL
  | Store a v => wrb a v ;; ret NULL
  | Lock => gc_lock ;; ret NULL
  | Unlock => gc_unlock ;; ret NULL
  | Enable => gc_enable ;; ret NULL
  | Disable => gc_disable ;; ret NULL
  | Threshold val => gc_threshold (Some val) ;; ret NULL
  end.

(** What the interpreter has to respect: it frees and resizes objects, those
    that it resizes can be reached from the roots, and it does not write to the
    allocation table. *)
Definition admissible (s : mp_state_mem_t) (op : gc_op) : Prop :=
  match op with
  | Alloc R n => roots_ok s R
  | Free p => p = NULL \/ exists O, gheap s O /\ is_Some (O !! p)
  | Realloc R p n mv => roots_ok s R /\ 0 <= n <= 2 ^ 32 - 16 /\
      (p = NULL \/ exists O, gheap s O /\ is_Some (O !! p) /\ reachable R (bytes s) O p)
  | Collect R => roots_ok s R
  | Store a v => is_Some (bytes s !! a) /\ 0 <= v < 256 /\ (a < gc_alloc_table_start s \/ gc_pool_start s <= a)
  | Lock | Unlock | Enable | Disable | Threshold _ => True
  end.

(** The states that such a program can reach. *)
Inductive machine : mp_state_mem_t -> Prop :=
  | machine_init s start fin s' : init_ok (bytes s) start fin -> gc_init start fin s = Some (tt, s') -> machine s'
  | machine_step s op p s' : machine s -> admissible s op -> exec op s = Some (p, s') -> machine s'.

Lemma gheap_control s s' O : gheap s O -> bytes s' = bytes s -> layout s' = layout s -> gc_lock_depth s' = gc_lock_depth s ->
  gc_last_free_atb_index s' = gc_last_free_atb_index s -> gheap s' O.
Proof.
  intros (k & [T W C Lk La U] & Rep) B L Ed El. exists k. pose proof (max_block_layout _ _ L) as EN.
  assert (EL : gc_alloc_table_byte_len s' = gc_alloc_table_byte_len s) by (unfold layout in L; by injection L).
  split; [|intros p n; rewrite (Rep p n : _ <-> _); by setoid_rewrite (object_layout s s'); [setoid_rewrite (ptr_layout s s')|]].
  split; [by apply (tab_control s)|by rewrite EN|by rewrite EN|by rewrite Ed|by rewrite El, EL|by rewrite El].
Qed.

Lemma init_run s start fin : init_ok (bytes s) start fin ->
  wp (gc_init start fin) (fun _ s' => gheap s' ∅ /\ gc_lock_depth s' = 0 /\ gc_auto_collect_enabled s' = 1 /\
    gc_pool_end s' = fin - fin mod 16 /\ gc_pool_end s' - gc_pool_start s' = 64 * ((fin - fin mod 16 - start) / 65) /\
    forall a, ~ in_table s' a -> bytes s' !! a = bytes s !! a) s.
Proof.
  intros HI. apply wp_gc_init; [done|]. intros s' O L C B. unfold control in C. injection C as Ed Ea _ _ _.
  unfold layout in L. injection L as _ _ Ep Ee. split.
  - exists (fun _ => AT_FREE). split; [done|]. intros p n. rewrite lookup_empty. split; [done|]. intros (h & m & [Hk _] & _). kinds.
  - split; [done|]. split; [done|]. split; [done|]. split; [lia|done].
Qed.

Lemma wp_then {A B} (c : GC A) (d : B) (P : A -> mp_state_mem_t -> Prop) (Q : mp_state_mem_t -> Prop) s :
  wp c P s -> (forall a s', P a s' -> Q s') -> wp (c ;; ret d) (fun _ => Q) s.
Proof. intros H HQ. apply wp_bind. eapply wp_mono; [exact H|]. intros a s' Ha. apply wp_ret. by eapply HQ. Qed.

(** Every operation that is used as it should be is defined and keeps the heap. *)
Lemma alloc_any R n s O : gheap s O -> roots_ok s R -> wp (gc_alloc R n 0) (fun _ s' => exists O', gheap s' O') s.
Proof.
  intros Hg Hr. destruct (decide (blocks_for n = 0 \/ 0 < gc_lock_depth s)) as [Hz|Hz].
  - destruct Hg as (k & Ok & Rep). apply (wp_gc_alloc R n 0 s k); [done..|intros _; exists O; by exists k|].
    intros ? ? ? ? ? ? ?. destruct Hz; lia.
  - assert (Hn : 0 <= blocks_for n) by (unfold blocks_for, wrapu; change (2 ^ 32) with 4294967296; lia).
    assert (Hd : 0 <= gc_lock_depth s) by (destruct Hg as (k & Ok & _); apply Ok).
    eapply wp_mono; [apply (alloc_run R n 0 s O); [done|done|lia|lia]|]. intros p s' (c & O1 & _ & _ & _ & [H|H]); eexists; apply H.
Qed.

Lemma free_any s O p : gheap s O -> p = NULL \/ is_Some (O !! p) -> wp (gc_free p) (fun _ s' => exists O', gheap s' O') s.
Proof.
  intros Hg Hp. destruct (decide (0 < gc_lock_depth s \/ p = NULL)) as [Hz|Hz].
  - apply wp_run. exists tt, s. split; [by apply free_ignored|by exists O].
  - assert (Hd : 0 <= gc_lock_depth s) by (destruct Hg as (k & Ok & _); apply Ok). destruct Hp as [->|[n Hp]]; [tauto|].
    eapply wp_mono; [apply (free_run s O p n); [done|done|lia]|]. intros _ s' [H _]. by exists (delete p O).
Qed.

Lemma realloc_any R p n mv s O : gheap s O -> roots_ok s R -> 0 <= n <= 2 ^ 32 - 16 ->
  p = NULL \/ (is_Some (O !! p) /\ reachable R (bytes s) O p) ->
  wp (gc_realloc R p n mv) (fun _ s' => exists O', gheap s' O') s.
Proof.
  intros Hg Hr Hn Hp. unfold gc_realloc at 1. destruct (Z.eqb_spec p NULL) as [->|Hne]; [by apply (alloc_any R n s O)|].
  destruct Hp as [?|[[m Hm] Hl]]; [done|]. destruct (Z.eqb_spec n 0) as [->|Hn0].
  { eapply wp_then; [apply (free_any s O p); [done|right; by exists m]|done]. }
  pose proof Hg as (k & Ok & Rep). pose proof (o_lock _ _ Ok) as Hd. destruct (decide (gc_lock_depth s = 0)) as [Hd0|Hd0].
  - assert (H : wp (gc_realloc R p n mv) (fun _ s' => exists O', gheap s' O') s).
    { eapply wp_mono; [apply (realloc_run R n mv s O p m); [done..|lia|done]|].
      intros q s' (c & O1 & _ & _ & _ & [H|H]); eexists; apply H. }
    unfold gc_realloc in H. destruct (Z.eqb_spec p NULL); [done|]. destruct (Z.eqb_spec n 0); [done|]. exact H.
  - apply wp_bind, wp_gets. destruct (Z.ltb_spec 0 (gc_lock_depth s)); [|lia]. apply wp_ret. by exists O.
Qed.

Lemma exec_ok s O op : gheap s O -> admissible s op -> wp (exec op) (fun _ s' => exists O', gheap s' O') s.
Proof.
  intros Hg Ha. destruct op as [R n|p|R p n mv|R|a v| | | | |val]; simpl in *.
  - by apply (alloc_any R n s O).
  - eapply wp_then; [apply (free_any s O p); [done|]|done]. destruct Ha as [?|(O' & Hg' & ?)]; [by left|right].
    by rewrite (gheap_fun s O O').
  - destruct Ha as (Hr & Hn & Hp). apply (realloc_any R p n mv s O); try done.
    destruct Hp as [?|(O' & Hg' & ? & ?)]; [by left|right]. by rewrite (gheap_fun s O O').
  - eapply wp_then; [by apply (collect_run R s O)|]. intros _ s' [(O' & ? & _) _]. by exists O'.
  - destruct Ha as (Hs & Hv & Hp). apply wp_bind, wp_wrb; [done|]. apply wp_ret. exists O. by apply store_ok.
  - apply wp_bind, wp_modify, wp_ret. exists O. by apply lock_ok.
  - apply wp_bind, wp_modify, wp_ret. exists O. by apply lock_ok.
  - apply wp_bind, wp_modify, wp_ret. exists O. by apply (gheap_control s).
  - apply wp_bind, wp_modify, wp_ret. exists O. by apply (gheap_control s).
  - apply wp_bind, wp_bind, wp_modify, wp_ret, wp_ret. exists O. by apply (gheap_control s).
Qed.

Lemma machine_ok s : machine s -> exists O, gheap s O.
Proof.
  induction 1 as [s start fin s' HI He|s op p s' _ (O & Hg) Ha He].
  - pose proof (init_run s start fin HI) as H. apply wp_run in H as (a & s1 & E & Hg & _). rewrite He in E. injection E as _ ->.
    by exists ∅.
  - pose proof (exec_ok s O op Hg Ha) as H. apply wp_run in H as (a & s1 & E & Hg1). rewrite He in E. by injection E as _ ->.
Qed.

(** * Collection *)

(** C3: A garbage collection ends, also when the mark stack overflows, and frees
    exactly the objects that no chain of references from the roots leads to: the
    others keep their address, their size and their contents. *)
Theorem gc_collect_exact R s O : gheap s O -> roots_ok s R ->
  exists s' O', gc_collect R s = Some (tt, s') /\ gheap s' O' /\
    (forall p n, O' !! p = Some n <-> O !! p = Some n /\ reachable R (bytes s) O p) /\
    layout s' = layout s /\ gc_lock_depth s' = gc_lock_depth s /\
    (forall a, ~ in_table s a -> bytes s' !! a = bytes s !! a).
Proof.
  intros Hg Hr. pose proof (collect_run R s O Hg Hr) as H. apply wp_run in H as ([] & s' & E & (O' & Hg' & HS) & HD).
  exists s', O'. split; [done|]. split; [done|]. split; [exact HS|exact HD].
Qed.

Lemma marked_closure s k s' k' b m : tab s k -> all_marked s k s' k' ->
  (forall m, 0 <= m < max_block s -> k' m = AT_MARK -> closed s' k' m) ->
  0 <= b < max_block s -> k b = AT_MARK -> reaches s k b m -> k' m = AT_MARK.
Proof.
  intros T A Hc Hb Hk Hr. assert (Hk' : k' b = AT_MARK) by (eapply marks_mark; [apply A|done|done]). clear Hk.
  induction Hr as [|x y z Hxy _ IH]; [done|]. destruct (edge_range _ _ _ _ T Hxy) as [Hy _]. apply IH; [done|].
  apply (Hc x Hb Hk'). apply (edge_frame s s' k k'); [done|apply A|apply A|done].
Qed.

(** C14: After the mark stack has overflowed, marking is repeated until nothing is
    left to follow. This ends whatever references there are, and then exactly the
    heads that had been marked and those they lead to are marked. *)
Theorem stack_overflow_recovery s k : tab s k -> gc_stack_overflow s <> 0 ->
  exists s' k', gc_deal_with_stack_overflow s = Some (tt, s') /\ tab s' k' /\ gframe s s' /\
    (forall m, 0 <= m < max_block s -> k' m = k m \/ (k m = AT_HEAD /\ k' m = AT_MARK)) /\
    forall m, 0 <= m < max_block s -> k' m = AT_MARK <-> exists b, 0 <= b < max_block s /\ k b = AT_MARK /\ reaches s k b m.
Proof.
  intros T Ho.
  assert (H : wp gc_deal_with_stack_overflow (fun _ s' => exists k', all_marked s k s' k' /\
            forall m, 0 <= m < max_block s -> k' m = AT_MARK -> closed s' k' m) s).
  { apply (wp_gc_deal_with_stack_overflow s k); [done|by intros ?|]. intros s' k' A Hc. by exists k'. }
  apply wp_run in H as ([] & s' & E & k' & A & Hc). exists s', k'. split; [done|]. split; [apply A|]. split; [apply A|].
  split; [apply A|]. intros m Hm. split; [by apply A|]. intros (b & Hb & Hk & Hr). by apply (marked_closure s k s' k' b m).
Qed.

(** * Operations *)

Lemma blocks_for_small n : 0 < n <= 2 ^ 32 - 16 -> blocks_for n = (n + 15) / 16 /\ 0 < blocks_for n.
Proof. intros Hn. unfold blocks_for. rewrite wrapu_small by lia. lia. Qed.



(** Freeing an object removes that object and nothing else. *)
Theorem gc_free_spec s O p n : gheap s O -> O !! p = Some n -> gc_lock_depth s = 0 ->
  exists s', gc_free p s = Some (tt, s') /\ gheap s' (delete p O) /\ same_data s s'.
Proof. intros Hg Hp Hd. pose proof (free_run s O p n Hg Hp Hd) as H. apply wp_run in H as ([] & s' & ? & ?). by exists s'. Qed.



(** The interpreter is told exactly how many bytes its objects take and how
    many are free, and the length of the longest gap. *)
Theorem gc_info_spec s O : gheap s O -> gc_pool_start s < gc_pool_end s ->
  exists i, gc_info s = Some (i, s) /\ gc_mem_alloc s = Some (total O, s) /\
    gc_mem_free s = Some (gc_pool_end s - gc_pool_start s - total O, s) /\
    forall n, 0 < n -> n <= i_max_free i <-> exists q, in_pool s q (16 * n) /\ avoids O q (16 * n).
Proof.
  intros Hg Hp. pose proof (info_run s O Hg Hp) as H. apply wp_run in H as (i & s' & E & -> & Et & Eu & Ef & Hgap).
  exists i. split; [done|]. unfold gc_mem_alloc, gc_mem_free, bind. rewrite E. unfold ret. rewrite Ef, Et, Eu.
  split; [done|]. split; [done|]. intros n Hn. by rewrite <- Hgap.
Qed.

(** C30: [m_malloc] does not return NULL for a number of bytes other than zero: it
    raises a [MemoryError] that tells whether the collector is locked or cannot
    provide the memory. *)
Theorem m_malloc_spec R n s O : gheap s O -> roots_ok s R -> 0 < n <= 2 ^ 32 - 16 ->
  exists r s', m_malloc R n s = Some (r, s') /\
    match r with
    | inl p => p <> NULL /\ gc_lock_depth s = 0 /\ alloc_outcome R s O (16 * ((n + 15) / 16)) p s'
    | inr HeapLocked => 0 < gc_lock_depth s /\ s' = s
    | inr (AllocationFailed e) => e = n /\ gc_lock_depth s = 0 /\ alloc_outcome R s O (16 * ((n + 15) / 16)) NULL s'
    end.
Proof.
  intros Hg Hr Hn. destruct (blocks_for_small n Hn) as [<- Hb]. pose proof Hg as (k & Ok & Rep). pose proof (o_lock _ _ Ok) as Hd.
  unfold m_malloc. apply wp_run, wp_bind. destruct (decide (gc_lock_depth s = 0)) as [Hd0|Hd0].
  - eapply wp_mono; [by apply (alloc_run R n 0 s O)|]. intros p s' Ho. destruct (Z.eqb_spec p NULL) as [->|Hp]; simpl; [|by apply wp_ret].
    destruct (Z.eqb_spec n 0); [lia|]. apply wp_bind, wp_gets. pose proof Ho as (_ & _ & _ & _ & Ed & _). rewrite Ed, Hd0. by apply wp_ret.
  - apply (wp_gc_alloc R n 0 s k); [done|done| |intros; lia]. intros _. simpl. destruct (Z.eqb_spec n 0); [lia|].
    apply wp_bind, wp_gets. destruct (Z.eqb_spec (gc_lock_depth s) 0); [done|]. apply wp_ret. split; [lia|done].
Qed.

(** C31: A request that is so large that rounding it up overflows frees the object
    and still returns its address as if it had been resized. *)
Theorem gc_realloc_overflow R n mv s O p m : gheap s O -> roots_ok s R -> O !! p = Some m -> reachable R (bytes s) O p ->
  2 ^ 32 - 15 <= n < 2 ^ 32 -> gc_lock_depth s = 0 ->
  exists s', gc_realloc R p n mv s = Some (p, s') /\ gheap s' (delete p O).
Proof.
  intros (k & Ok & Rep) Hr Hp Hl Hn Hd. apply Rep in Hp as (h & x & Ob & -> & ->). pose proof (object_range _ _ _ _ Ob).
  apply (rep_live s k O Ok Rep R h) in Hl. assert (Hb : blocks_for n = 0) by (unfold blocks_for, wrapu; change (2 ^ 32) with 4294967296; lia).
  assert (H1 : wp (gc_realloc R (PTR_FROM_BLOCK h s) n mv) (fun q s' => q = PTR_FROM_BLOCK h s /\ gheap s' (delete (PTR_FROM_BLOCK h s) O)) s).
  { apply (wp_gc_realloc R n mv s k h x); [done..|lia| | | | | |]; rewrite ?Hb; try (intros; lia).
    intros _ _ s' (O' & L & _). split; [done|]. exists (fill k (h + 0) (x - 0) AT_FREE). split; [done|].
    eapply rep_delete; [exact Rep|done|]. intros h' m'. rewrite (cut_objects s k h x 0 h' m'); [|done|lia]. intuition lia. }
  apply wp_run in H1 as (q & s' & E & -> & Hg). by exists s'.
Qed.

Lemma kept_clean N k b : clean N k -> Z.of_nat b < N -> kept k b = false.
Proof.
  intros Hc Hb. destruct (decide (k (Z.of_nat b) = AT_TAIL)) as [Ht|Ht].
  - induction b as [|b IH]; cbn [kept]; rewrite Ht; [done|]. simpl.
    destruct (decide (k (Z.of_nat b) = AT_TAIL)); [apply IH; [lia|done]|].
    rewrite <- (Nat2Z.id b), kept_other; [apply Z.eqb_neq, Hc; lia|lia|done].
  - rewrite <- (Nat2Z.id b), kept_other; [apply Z.eqb_neq, Hc; lia|lia|done].
Qed.

(** Sweeping without marking, as is done when the interpreter ends, frees
    every object. *)
Theorem gc_sweep_all_spec s O : gheap s O -> exists s', gc_sweep_all s = Some (tt, s') /\ gheap s' ∅ /\ same_data s s'.
Proof.
  intros (k & Ok & Rep). pose proof (o_tab _ _ Ok) as T. pose proof (t_geo _ _ T) as G.
  assert (H : wp gc_sweep_all (fun _ s' => gheap s' ∅ /\ same_data s s') s).
  { apply wp_bind, wp_modify, wp_bind, wp_modify. set (s0 := set_overflow 0 (set_lock_depth (fun d => d + 1) s)).
    apply (wp_gc_collect_end s0 k); [by apply (tab_control s)| |apply Ok|].
    { intros _ m Hm Hk. by destruct (o_clean _ _ Ok m Hm). }
    intros s2 k2 s' A _ _ L B C T'. pose proof (max_block_layout _ _ L) as EN. change (max_block s0) with (max_block s) in *.
    assert (Hcl : clean (max_block s) k2).
    { intros m Hm Hk. destruct (m_only _ _ _ _ A m Hm Hk) as (b & Hb & Hkb & _). by apply (o_clean _ _ Ok b). }
    assert (Hf : forall b, 0 <= b < max_block s -> sweep_kind k2 b = AT_FREE).
    { intros b Hb. unfold sweep_kind. rewrite (kept_clean (max_block s)) by (done || lia). done. }
    unfold control in C. injection C as Ed _ _ _ El. simpl in Ed. rewrite u16_inc_dec in Ed by apply Ok.
    pose proof (t_geo _ _ T') as G'. split; [|done]. exists (sweep_kind k2). split; [split; [done| | |by rewrite Ed; apply Ok|lia|lia]|].
    - intros b Hb Ht. rewrite Hf in Ht by lia. kinds.
    - intros b Hb. rewrite Hf by lia. kinds.
    - intros p n. rewrite lookup_empty. split; [done|]. intros (h & m & Ob & _). pose proof (object_range _ _ _ _ Ob).
      destruct Ob as [Hk _]. rewrite Hf in Hk by lia. kinds. }
  apply wp_run in H as ([] & s' & ? & ?). by exists s'.
Qed.

(** * Checking a concrete heap *)

Definition kind_of (s : mp_state_mem_t) (b : Z) : Z := default AT_FREE (kind_at s b).

(** The object at block [b] has [n] bytes. *)
Definition object_check (s : mp_state_mem_t) (b n : Z) : Prop :=
  0 < n /\ n mod 16 = 0 /\ b + n / 16 <= max_block s /\
  Forall (fun i => kind_of s i = AT_TAIL) (seqZ (b + 1) (n / 16 - 1)) /\
  (b + n / 16 < max_block s -> kind_of s (b + n / 16) <> AT_TAIL).
#[global] Instance object_check_dec s b n : Decision (object_check s b n) := ltac:(unfold object_check; apply _).

Definition gheap_check (s : mp_state_mem_t) (O : gmap Z Z) : Prop :=
  (0 < gc_alloc_table_start s /\ 0 <= gc_alloc_table_byte_len s /\
   gc_alloc_table_start s + gc_alloc_table_byte_len s < gc_pool_start s /\ gc_pool_start s mod 16 = 0 /\
   gc_pool_end s = gc_pool_start s + 64 * gc_alloc_table_byte_len s /\ gc_pool_end s < 2 ^ 32) /\
  map_Forall (fun _ v => 0 <= v < 256) (bytes s) /\
  Forall (fun a => is_Some (bytes s !! a)) (seqZ (gc_alloc_table_start s) (gc_pool_end s - gc_alloc_table_start s)) /\
  kind_at s (max_block s) <> Some AT_TAIL /\
  Forall (fun b => (kind_of s b = AT_TAIL -> 0 < b /\ kind_of s (b - 1) <> AT_FREE) /\ kind_of s b <> AT_MARK) (seqZ 0 (max_block s)) /\
  (0 <= gc_lock_depth s < 2 ^ 16 /\ 0 <= gc_last_free_atb_index s <= gc_alloc_table_byte_len s) /\
  Forall (fun b => kind_of s b <> AT_FREE) (seqZ 0 (4 * gc_last_free_atb_index s)) /\
  Forall (fun b => kind_of s b = AT_HEAD -> default False (object_check s b <$> O !! PTR_FROM_BLOCK b s)) (seqZ 0 (max_block s)) /\
  map_Forall (fun p n => p = PTR_FROM_BLOCK (BLOCK_FROM_PTR p s) s /\ 0 <= BLOCK_FROM_PTR p s < max_block s /\
    kind_of s (BLOCK_FROM_PTR p s) = AT_HEAD) O.

#[global] Instance default_False_dec (o : option Z) (P : Z -> Prop) `{forall n, Decision (P n)} : Decision (default False (P <$> o)).
Proof. destruct o; simpl; apply _. Defined.
#[global] Instance gheap_check_dec s O : Decision (gheap_check s O) := ltac:(unfold gheap_check; apply _).

Lemma gheap_check_sound s O : gheap_check s O -> gc_ok s (kind_of s) /\ represents s (kind_of s) O.
Proof.
  intros (G & Hb & Ha & He & Hk & [Hl Hlf] & Hu & Ho & Hp). rewrite Forall_forall in *.
  assert (EN : max_block s = 4 * gc_alloc_table_byte_len s) by (unfold max_block, BLOCKS_PER_ATB; lia).
  assert (Hat : forall b, 0 <= b <= max_block s -> is_Some (kind_at s b)).
  { intros b Hb'. unfold kind_at. apply fmap_is_Some, Ha, elem_of_seqZ. lia. }
  assert (Hob : forall b, 0 <= b < max_block s -> kind_of s b = AT_HEAD -> exists m, O !! PTR_FROM_BLOCK b s = Some (16 * m) /\ object s (kind_of s) b m).
  { intros b Hb' Hkb. pose proof (Ho b ltac:(apply elem_of_seqZ; lia) Hkb) as H. destruct (O !! PTR_FROM_BLOCK b s) as [n|]; [|done].
    simpl in H. destruct H as (H1 & H2 & H3 & H4 & H5). exists (n / 16). split; [f_equal; lia|]. split; [done|].
    split_and!; [lia..| |done]. rewrite Forall_forall in H4. intros i Hi. apply H4, elem_of_seqZ. lia. }
  split; [split|].
  - split; [done|intros a v Hv; by apply (Hb a v)| | |].
    + intros b Hb'. destruct (Hat b ltac:(lia)) as [v Hv]. unfold kind_of. by rewrite Hv.
    + destruct (Hat (max_block s) ltac:(lia)) as [v Hv]. exists v. split; [done|congruence].
    + intros a Ha'. apply Ha, elem_of_seqZ. lia.
  - intros b Hb' Ht. apply (Hk b); [apply elem_of_seqZ; lia|done].
  - intros b Hb'. apply (Hk b). apply elem_of_seqZ. lia.
  - lia.
  - lia.
  - intros b Hb'. apply Hu, elem_of_seqZ. lia.
  - intros p n. split.
    + intros Hpn. destruct (Hp p n Hpn) as (E & Hr & Hkb). destruct (Hob _ Hr Hkb) as (m & Hm & Obj).
      exists (BLOCK_FROM_PTR p s), m. rewrite <- E in Hm. split; [done|]. split; [done|congruence].
    + intros (h & m & Obj & -> & ->). pose proof (object_range _ _ _ _ Obj). destruct (Hob h ltac:(lia) (proj1 Obj)) as (m' & Hm & Obj').
      by rewrite (object_inj _ _ _ _ _ Obj Obj').
Qed.

Definition roots_check (s : mp_state_mem_t) (R : roots) : Prop :=
  Forall (fun a => Forall (fun x => is_Some (bytes s !! x) /\ ~ (gc_alloc_table_start s <= x < gc_alloc_table_start s + gc_alloc_table_byte_len s))
    (seqZ (fst a) (4 * Z.of_nat (Z.to_nat (snd a))))) (areas R).
#[global] Instance roots_check_dec s R : Decision (roots_check s R) := ltac:(unfold roots_check; apply _).

Lemma roots_check_sound s R : roots_check s R -> roots_ok s R.
Proof.
  unfold roots_check, roots_ok. intros H. eapply Forall_impl; [exact H|]. intros a Ha x Hx. rewrite Forall_forall in Ha.
  apply Ha, elem_of_seqZ. lia.
Qed.

Lemma wp_snd {A} (c : GC A) (Q : mp_state_mem_t -> Prop) s d : wp c (fun _ => Q) s -> Q (default d (snd <$> c s)).
Proof. intros (a & s' & -> & H)%wp_run. done. Qed.

(** * An example *)

Module Demo.
(** A heap of 16 blocks between the addresses 100 and 400 and roots behind it. *)
Definition mem : gmap Z Z := list_to_map ((fun a => (a, 0)) <$> seqZ 100 340).
Definition boot : mp_state_mem_t := MPmem mem 0 0 0 0 0 ∅ 0 0 0 0 0.
Definition R : roots := Roots (400, 4) (416, 4) [(432, 2)].

Definition heap0 : mp_state_mem_t := default boot (snd <$> gc_init 100 400 boot).

(** Two objects of which the first one is in the roots and refers to the second,
    and an object that nothing refers to. *)
Definition heap1 : mp_state_mem_t :=
  default boot (snd <$> (p <- gc_alloc R 32 0 ;; q <- gc_alloc R 16 0 ;; gc_alloc R 20 0 ;;
    wrb 420 p ;; wrb (p + 4) q) heap0).
Definition objs : gmap Z Z := <[144 := 32]> (<[176 := 16]> (<[192 := 32]> ∅)).

Lemma heap1_gheap : gheap heap1 objs.
Proof. exists (kind_of heap1). apply gheap_check_sound, (bool_decide_unpack _). vm_compute. exact I. Qed.

Lemma heap1_roots : roots_ok heap1 R.
Proof. apply roots_check_sound, (bool_decide_unpack _). vm_compute. exact I. Qed.

Lemma heap1_reachable : reachable R (bytes heap1) objs 144.
Proof.
  exists 144. split; [|split; [by eexists|apply rtc_refl]]. exists (416, 4). split; [right; left|].
  exists 1. split; [done|]. vm_compute. done.
Qed.

(** Only the first two objects can be reached. *)
Lemma heap1_live p : reachable R (bytes heap1) objs p -> p = 144 \/ p = 176.
Proof.
  assert (Hroot : Forall (fun a => Forall (fun i => word (bytes heap1) (fst a + 4 * i) = Some 0 \/ word (bytes heap1) (fst a + 4 * i) = Some 144)
            (seqZ 0 (snd a))) (areas R)) by (apply (bool_decide_unpack _); vm_compute; exact I).
  assert (Hobj : map_Forall (fun p n => Forall (fun i => word (bytes heap1) (p + 4 * i) = Some 0 \/ word (bytes heap1) (p + 4 * i) = Some 176)
            (seqZ 0 (n / 4))) objs) by (apply (bool_decide_unpack _); vm_compute; exact I).
  assert (Hnull : objs !! 0 = None) by (vm_compute; done).
  intros (q & (a & Ha & i & Hi & Hw) & [n Hn] & Hr). rewrite Forall_forall in Hroot. pose proof (Hroot a Ha) as H1. rewrite Forall_forall in H1.
  assert (Hq : q = 144 \/ q = 176).
  { left. destruct (H1 i) as [E|E]; [apply elem_of_seqZ; lia|..]; rewrite Hw in E; injection E as ->; [congruence|done]. }
  clear -Hr Hq Hobj Hnull. induction Hr as [|x y z (m & j & Hx & Hj & Hxy & [my Hy]) _ IH]; [done|]. apply IH. right.
  pose proof (Hobj x m Hx) as H. rewrite Forall_forall in H. destruct (H j) as [E|E]; [apply elem_of_seqZ; lia|..];
    rewrite Hxy in E; injection E as ->; [congruence|done].
Qed.

Lemma boot_ok : init_ok (bytes boot) 100 400.
Proof.
  assert (H : map_Forall (fun _ v => v = 0) mem) by (apply (bool_decide_unpack _); vm_compute; exact I).
  assert (H2 : Forall (fun a => is_Some (mem !! a)) (seqZ 100 300)) by (apply (bool_decide_unpack _); vm_compute; exact I).
  split; [lia|done|intros a v Hv; rewrite (H a v Hv); lia| |].
  - rewrite Forall_forall in H2. intros a Ha. apply H2, elem_of_seqZ. lia.
  - intros v Hv. rewrite (H _ v Hv). kinds.
Qed.

Lemma heap0_machine : machine heap0.
Proof. apply (machine_init boot 100 400); [exact boot_ok|vm_compute; reflexivity]. Qed.

(** The mark stack has overflowed while the first object was marked. *)
Definition marking : mp_state_mem_t := default boot (snd <$> (ATB_HEAD_TO_MARK 0 ;; modify (set_overflow 1)) heap1).

Lemma marking_tab : tab marking (upd (kind_of heap1) 0 AT_MARK).
Proof.
  destruct (gheap_check_sound heap1 objs) as [Ok _]; [apply (bool_decide_unpack _); vm_compute; exact I|].
  assert (H : wp (ATB_HEAD_TO_MARK 0 ;; modify (set_overflow 1)) (fun _ s' => tab s' (upd (kind_of heap1) 0 AT_MARK)) heap1).
  { apply wp_bind, (wp_head_to_mark heap1 _ (o_tab _ _ Ok)); [vm_compute; split; done|vm_compute; done|].
    intros s' _ T _ _. apply wp_modify. by apply tab_overflow. }
  exact (wp_snd _ _ heap1 boot H).
Qed.
End Demo.

Lemma gc_collect_exact_witness :
  exists s' O', gc_collect Demo.R Demo.heap1 = Some (tt, s') /\ gheap s' O' /\
    (forall p n, O' !! p = Some n <-> Demo.objs !! p = Some n /\ reachable Demo.R (bytes Demo.heap1) Demo.objs p) /\
    layout s' = layout Demo.heap1 /\ gc_lock_depth s' = gc_lock_depth Demo.heap1 /\
    (forall a, ~ in_table Demo.heap1 a -> bytes s' !! a = bytes Demo.heap1 !! a).
Proof. exact (gc_collect_exact Demo.R Demo.heap1 Demo.objs Demo.heap1_gheap Demo.heap1_roots). Defined.

Lemma stack_overflow_recovery_witness :
  exists s' k', gc_deal_with_stack_overflow Demo.marking = Some (tt, s') /\ tab s' k' /\ gframe Demo.marking s' /\
    (forall m, 0 <= m < max_block Demo.marking -> k' m = upd (kind_of Demo.heap1) 0 AT_MARK m \/
       (upd (kind_of Demo.heap1) 0 AT_MARK m = AT_HEAD /\ k' m = AT_MARK)) /\
    forall m, 0 <= m < max_block Demo.marking -> k' m = AT_MARK <->
      exists b, 0 <= b < max_block Demo.marking /\ upd (kind_of Demo.heap1) 0 AT_MARK b = AT_MARK /\
        reaches Demo.marking (upd (kind_of Demo.heap1) 0 AT_MARK) b m.
Proof.
  apply (stack_overflow_recovery Demo.marking (upd (kind_of Demo.heap1) 0 AT_MARK) Demo.marking_tab).
  vm_compute. discriminate.
Defined.



Lemma gc_free_spec_witness :
  exists s', gc_free 176 Demo.heap1 = Some (tt, s') /\ gheap s' (delete 176 Demo.objs) /\ same_data Demo.heap1 s'.
Proof. apply (gc_free_spec Demo.heap1 Demo.objs 176 16 Demo.heap1_gheap); vm_compute; reflexivity. Defined.



Lemma gc_info_spec_witness :
  exists i, gc_info Demo.heap1 = Some (i, Demo.heap1) /\ gc_mem_alloc Demo.heap1 = Some (total Demo.objs, Demo.heap1) /\
    gc_mem_free Demo.heap1 = Some (gc_pool_end Demo.heap1 - gc_pool_start Demo.heap1 - total Demo.objs, Demo.heap1) /\
    forall n, 0 < n -> n <= i_max_free i <-> exists q, in_pool Demo.heap1 q (16 * n) /\ avoids Demo.objs q (16 * n).
Proof. apply (gc_info_spec Demo.heap1 Demo.objs Demo.heap1_gheap). vm_compute. reflexivity. Defined.

Lemma m_malloc_spec_witness : exists r s', m_malloc Demo.R 500 Demo.heap1 = Some (r, s') /\
    match r with
    | inl p => p <> NULL /\ gc_lock_depth Demo.heap1 = 0 /\ alloc_outcome Demo.R Demo.heap1 Demo.objs (16 * ((500 + 15) / 16)) p s'
    | inr HeapLocked => 0 < gc_lock_depth Demo.heap1 /\ s' = Demo.heap1
    | inr (AllocationFailed e) => e = 500 /\ gc_lock_depth Demo.heap1 = 0 /\
        alloc_outcome Demo.R Demo.heap1 Demo.objs (16 * ((500 + 15) / 16)) NULL s'
    end.
Proof. apply (m_malloc_spec Demo.R 500 Demo.heap1 Demo.objs Demo.heap1_gheap Demo.heap1_roots). lia. Defined.

Lemma gc_realloc_overflow_witness :
  exists s', gc_realloc Demo.R 144 (2 ^ 32 - 1) true Demo.heap1 = Some (144, s') /\ gheap s' (delete 144 Demo.objs).
Proof.
  apply (gc_realloc_overflow Demo.R (2 ^ 32 - 1) true Demo.heap1 Demo.objs 144 32 Demo.heap1_gheap Demo.heap1_roots);
    [vm_compute; reflexivity|exact Demo.heap1_reachable|lia|vm_compute; reflexivity].
Defined.

Lemma gc_sweep_all_spec_witness :
  exists s', gc_sweep_all Demo.heap1 = Some (tt, s') /\ gheap s' ∅ /\ same_data Demo.heap1 s'.
Proof. exact (gc_sweep_all_spec Demo.heap1 Demo.objs Demo.heap1_gheap). Defined.

