(* ===== verification/Map.v ===== *)
(** Map: the hash tables of the Python interpreter (py/map.c) and the dict and
    set operations on top of them (py/objdict.c, py/objset.c), in the
    configuration of the port, which has sets but no [OrderedDict].  Objects are
    a parameter with the operations that the tables use: the tests for strings,
    the hash value and equality, which Python programs can define themselves. *)

From stdpp Require Import options.
From S2P Require Import Prelude.

(** * Objects *)

(** What the tables use of an object: [mp_obj_is_qstr], [mp_obj_is_type] with
    [mp_type_str], [qstr_hash] of an interned string, [mp_unary_op] with
    [MP_UNARY_OP_HASH], and [mp_obj_equal].  Objects are equal as pointers when
    they are equal terms. *)
Class MpObj (obj : Type) := {
  obj_eq_dec :: EqDecision obj;
  mp_obj_is_qstr : obj -> bool;
  mp_obj_is_str : obj -> bool;
  qstr_hash : obj -> Z;
  unary_op_hash : obj -> Z;
  mp_obj_equal : obj -> obj -> bool
}.

(** What Python requires of keys: equality is an equivalence relation and equal
    keys have the same hash value.  An interned string exists once, is equal to
    strings only, and its hash value is that of the string. *)
Class MpObjLaws (obj : Type) `{MpObj obj} := {
  equal_refl a : mp_obj_equal a a = true;
  equal_sym a b : mp_obj_equal a b = mp_obj_equal b a;
  equal_trans a b c : mp_obj_equal a b = true -> mp_obj_equal b c = true -> mp_obj_equal a c = true;
  equal_qstr a b : mp_obj_is_qstr a = true -> mp_obj_is_qstr b = true -> mp_obj_equal a b = true -> a = b;
  equal_str a b : mp_obj_is_qstr a = true -> mp_obj_equal a b = true -> mp_obj_is_qstr b = true \/ mp_obj_is_str b = true;
  equal_hash a b : mp_obj_equal a b = true -> unary_op_hash a = unary_op_hash b;
  hash_qstr a : mp_obj_is_qstr a = true -> qstr_hash a = u32 (unary_op_hash a)
}.

(** Exceptions. *)
Inductive exn (obj : Type) := MemoryError | KeyError (o : option obj) | TypeError | ValueError.
Arguments MemoryError {obj}.
Arguments KeyError {obj} o.
Arguments TypeError {obj}.
Arguments ValueError {obj}.

(** [mp_map_lookup_kind_t]; its values are bits for sets. *)
Inductive mp_map_lookup_kind_t :=
  | MP_MAP_LOOKUP
  | MP_MAP_LOOKUP_ADD_IF_NOT_FOUND
  | MP_MAP_LOOKUP_REMOVE_IF_FOUND
  | MP_MAP_LOOKUP_ADD_IF_NOT_FOUND_OR_REMOVE_IF_FOUND.

Definition adds (k : mp_map_lookup_kind_t) : bool :=
  match k with MP_MAP_LOOKUP_ADD_IF_NOT_FOUND | MP_MAP_LOOKUP_ADD_IF_NOT_FOUND_OR_REMOVE_IF_FOUND => true | _ => false end.
Definition removes (k : mp_map_lookup_kind_t) : bool :=
  match k with MP_MAP_LOOKUP_REMOVE_IF_FOUND | MP_MAP_LOOKUP_ADD_IF_NOT_FOUND_OR_REMOVE_IF_FOUND => true | _ => false end.

(** * Table sizes *)

Definition hash_allocation_sizes : list Z :=
  [0; 2; 4; 6; 8; 10; 12;
   17; 23; 29; 37; 47; 59; 73;
   97; 127; 167; 223; 293; 389; 521; 691; 919; 1223; 1627; 2161;
   3229; 4831; 7243; 10861; 16273; 24407; 36607; 54907].

Fixpoint first_ge (l : list Z) (x : Z) : option Z :=
  match l with [] => None | a :: l => if x <=? a then Some a else first_ge l x end.
Definition get_hash_alloc_greater_or_equal_to (x : Z) : Z :=
  match first_ge hash_allocation_sizes x with
  | Some a => a
  | None => Z.lor (u32 (x + x / 2)) 1
  end.

Section Tables.
Context {obj : Type} `{MpObj obj}.

(** Whether a table of the given number of entries can be allocated. *)
Variable avail : Z -> bool.

Inductive mp_obj_t := MP_OBJ_NULL | MP_OBJ_SENTINEL | Obj (o : obj).

Definition filled (x : mp_obj_t) : bool := match x with Obj _ => true | _ => false end.

(** The hash value as [mp_uint_t]. *)
Definition hash_of (index : obj) : Z :=
  if mp_obj_is_qstr index then qstr_hash index else u32 (unary_op_hash index).

(** * Maps *)

Record mp_map_elem_t := Elem { key : mp_obj_t; value : mp_obj_t }.

Record mp_map_t := Map {
  all_keys_are_qstrs : bool; is_fixed : bool; is_ordered : bool;
  used : Z; alloc : Z; table : list mp_map_elem_t
}.

Definition set_qstrs (b : bool) (m : mp_map_t) : mp_map_t :=
  Map b (is_fixed m) (is_ordered m) (used m) (alloc m) (table m).
Definition set_used (f : Z -> Z) (m : mp_map_t) : mp_map_t :=
  Map (all_keys_are_qstrs m) (is_fixed m) (is_ordered m) (f (used m)) (alloc m) (table m).
Definition set_table (f : list mp_map_elem_t -> list mp_map_elem_t) (m : mp_map_t) : mp_map_t :=
  Map (all_keys_are_qstrs m) (is_fixed m) (is_ordered m) (used m) (alloc m) (f (table m)).

Abbreviation MM := (M mp_map_t).

(** [map->table[pos]]; a position that is not in the table is undefined. *)
Definition slot_at (pos : Z) : MM mp_map_elem_t := getso (fun m => table m !! Z.to_nat pos).
Definition put_slot (pos : Z) (f : mp_map_elem_t -> mp_map_elem_t) : MM unit :=
  e <- slot_at pos ;; modify (set_table (<[Z.to_nat pos := f e]>)).

(** [m_new0]: cleared entries. *)
Definition new_table (n : Z) : list mp_map_elem_t := replicate (Z.to_nat n) (Elem MP_OBJ_NULL MP_OBJ_NULL).

Definition mp_map_init (n : Z) : MM (unit + exn obj) :=
  _ <-? (if n =? 0 then
           modify (fun m => Map (all_keys_are_qstrs m) (is_fixed m) (is_ordered m) (used m) 0 []) ;; ret (inl tt)
         else
           modify (fun m => Map (all_keys_are_qstrs m) (is_fixed m) (is_ordered m) (used m) n (table m)) ;;
           if avail n then modify (set_table (fun _ => new_table n)) ;; ret (inl tt) else ret (inr MemoryError)) ;;
  modify (fun m => Map true false false 0 (alloc m) (table m)) ;;
  ret (inl tt).

(** [table] is an array of [n] entries that is not modified. *)
Definition mp_map_init_fixed_table (n : Z) (tbl : list mp_map_elem_t) : MM unit :=
  modify (fun _ => Map true true true n n tbl).

Definition mp_map_deinit : MM unit :=
  modify (fun m => Map (all_keys_are_qstrs m) (is_fixed m) (is_ordered m) 0 0 (if is_fixed m then table m else [])).

Definition mp_map_clear : MM unit := modify (fun m => Map true false (is_ordered m) 0 0 []).

Definition mp_map_slot_is_filled (pos : Z) : MM bool := e <- slot_at pos ;; ret (filled (key e)).

Definition lookup_t : Type := obj -> mp_map_lookup_kind_t -> MM (option Z + exn obj).

(** The loop of [mp_map_rehash] over the old table. *)
Fixpoint reinsert (lookup : lookup_t) (old_table : list mp_map_elem_t) : MM (unit + exn obj) :=
  match old_table with
  | [] => ret (inl tt)
  | e :: old_table =>
      match key e with
      | Obj k =>
          r <-? lookup k MP_MAP_LOOKUP_ADD_IF_NOT_FOUND ;;
          match r with
          | Some pos => put_slot pos (fun s => Elem (key s) (value e)) ;; reinsert lookup old_table
          | None => undef
          end
      | _ => reinsert lookup old_table
      end
  end.

Definition mp_map_rehash (lookup : lookup_t) : MM (unit + exn obj) :=
  old_alloc <- gets alloc ;;
  let new_alloc := get_hash_alloc_greater_or_equal_to (old_alloc + 1) in
  old_table <- gets table ;;
  if avail new_alloc then
    modify (fun m => Map true (is_fixed m) (is_ordered m) 0 new_alloc (new_table new_alloc)) ;;
    reinsert lookup old_table
  else ret (inr MemoryError).

(** The index becomes the key of the slot. *)
Definition add_at (index : obj) (pos : Z) : MM (option Z + exn obj) :=
  modify (set_used (fun u => u + 1)) ;;
  put_slot pos (fun _ => Elem (Obj index) MP_OBJ_NULL) ;;
  when (negb (mp_obj_is_qstr index)) (modify (set_qstrs false)) ;;
  ret (inl (Some pos)).

Definition same_key (compare_only_ptrs : bool) (index k : obj) : bool :=
  bool_decide (k = index) || (negb compare_only_ptrs && mp_obj_equal k index).

(** One slot of the probe; [(pos, start_pos, avail_slot)]. *)
Definition probe (lookup : lookup_t) (index : obj) (kind : mp_map_lookup_kind_t) (compare_only_ptrs : bool) (hash : Z)
    (st : Z * Z * option Z) : MM ((Z * Z * option Z) + (option Z + exn obj)) :=
  let '(pos, start_pos, avail_slot) := st in
  let next (avail_slot : option Z) :=
    n <- gets alloc ;;
    let pos := (pos + 1) mod n in
    if pos =? start_pos then
      match kind with
      | MP_MAP_LOOKUP_ADD_IF_NOT_FOUND =>
          match avail_slot with
          | Some a => r <- add_at index a ;; ret (inr r)
          | None =>
              r <- mp_map_rehash lookup ;;
              match r with
              | inl _ => n <- gets alloc ;; ret (inl (hash mod n, hash mod n, None))
              | inr e => ret (inr (inr e))
              end
          end
      | _ => ret (inr (inl None))
      end
    else ret (inl (pos, start_pos, avail_slot)) in
  slot <- slot_at pos ;;
  match key slot with
  | MP_OBJ_NULL =>
      match kind with
      | MP_MAP_LOOKUP_ADD_IF_NOT_FOUND =>
          r <- add_at index (match avail_slot with Some a => a | None => pos end) ;; ret (inr r)
      | _ => ret (inr (inl None))
      end
  | MP_OBJ_SENTINEL => next (match avail_slot with Some a => Some a | None => Some pos end)
  | Obj k =>
      if same_key compare_only_ptrs index k then
        match kind with
        | MP_MAP_LOOKUP_REMOVE_IF_FOUND =>
            modify (set_used (fun u => u - 1)) ;;
            n <- gets alloc ;;
            after <- slot_at ((pos + 1) mod n) ;;
            put_slot pos (fun s => Elem (match key after with MP_OBJ_NULL => MP_OBJ_NULL | _ => MP_OBJ_SENTINEL end) (value s))
        | _ => ret tt
        end ;;
        ret (inr (inl (Some pos)))
      else next avail_slot
  end.

(** The search in a table that is an array: [n] entries from [i] on. *)
Fixpoint search (index : obj) (compare_only_ptrs : bool) (n : nat) (i : Z) : MM (option Z) :=
  match n with
  | O => ret None
  | S n =>
      e <- slot_at i ;;
      if match key e with Obj k => same_key compare_only_ptrs index k | _ => false end then ret (Some i)
      else search index compare_only_ptrs n (i + 1)
  end.

(** The slots that are visited at most: the table, once more after it was
    enlarged. *)
Definition probe_fuel (m : mp_map_t) : nat :=
  Z.to_nat (alloc m + get_hash_alloc_greater_or_equal_to (alloc m + 1) + 2).

(** [depth] bounds the nesting of [mp_map_lookup] and [mp_map_rehash]. *)
Fixpoint map_lookup (depth : nat) (index : obj) (kind : mp_map_lookup_kind_t) : MM (option Z + exn obj) :=
  match depth with
  | O => undef
  | S depth =>
      fixed <- gets is_fixed ;;
      assert_ (negb fixed || match kind with MP_MAP_LOOKUP => true | _ => false end) ;;
      qstrs <- gets all_keys_are_qstrs ;;
      if qstrs && negb (mp_obj_is_qstr index) && negb (mp_obj_is_str index) &&
         match kind with MP_MAP_LOOKUP_ADD_IF_NOT_FOUND => false | _ => true end
      then ret (inl None)
      else
        let compare_only_ptrs := qstrs && (mp_obj_is_qstr index || negb (mp_obj_is_str index)) in
        ordered <- gets is_ordered ;;
        if ordered : bool then
          u <- gets used ;; r <- search index compare_only_ptrs (Z.to_nat u) 0 ;; ret (inl r)
        else
          n <- gets alloc ;;
          if (n =? 0) && match kind with MP_MAP_LOOKUP_ADD_IF_NOT_FOUND => false | _ => true end then ret (inl None)
          else
            _ <-? (if n =? 0 then mp_map_rehash (map_lookup depth) else ret (inl tt)) ;;
            let hash := hash_of index in
            n <- gets alloc ;;
            fuel <- gets probe_fuel ;;
            loop fuel (probe (map_lookup depth) index kind compare_only_ptrs hash) (hash mod n, hash mod n, None)
  end.

Definition mp_map_lookup : lookup_t := map_lookup 2.

(** * Dictionaries *)

Definition mp_ensure_not_fixed : MM (unit + exn obj) :=
  f <- gets is_fixed ;; if f : bool then ret (inr TypeError) else ret (inl tt).

(** The next filled slot, [n] slots from [i] on. *)
Fixpoint iter_from (n : nat) (i : Z) : MM (option Z) :=
  match n with
  | O => ret None
  | S n => f <- mp_map_slot_is_filled i ;; if f : bool then ret (Some i) else iter_from n (i + 1)
  end.

(** The slot that is found and the new value of [*cur]. *)
Definition dict_iter_next (cur : Z) : MM (option Z * Z) :=
  max <- gets alloc ;;
  r <- iter_from (Z.to_nat (max - cur)) cur ;;
  match r with Some i => ret (Some i, i + 1) | None => ret (None, cur) end.

Definition mp_obj_dict_get (index : obj) : MM (mp_obj_t + exn obj) :=
  r <-? mp_map_lookup index MP_MAP_LOOKUP ;;
  match r with
  | None => ret (inr (KeyError (Some index)))
  | Some pos => e <- slot_at pos ;; ret (inl (value e))
  end.

Definition mp_obj_dict_store (index : obj) (v : obj) : MM (unit + exn obj) :=
  _ <-? mp_ensure_not_fixed ;;
  r <-? mp_map_lookup index MP_MAP_LOOKUP_ADD_IF_NOT_FOUND ;;
  match r with
  | Some pos => put_slot pos (fun s => Elem (key s) (Obj v)) ;; ret (inl tt)
  | None => undef
  end.

(** [get], [pop] and [setdefault]: [None] is [mp_const_none]; [deflt] is the third
    argument. *)
Definition dict_get_helper (index : obj) (deflt : option obj) (kind : mp_map_lookup_kind_t) (none : obj)
    : MM (mp_obj_t + exn obj) :=
  _ <-? match kind with MP_MAP_LOOKUP => ret (inl tt) | _ => mp_ensure_not_fixed end ;;
  r <-? mp_map_lookup index kind ;;
  v <- match r with None => ret MP_OBJ_NULL | Some pos => e <- slot_at pos ;; ret (value e) end ;;
  match v with
  | MP_OBJ_NULL =>
      let result (v : obj) :=
        match kind, r with
        | MP_MAP_LOOKUP_ADD_IF_NOT_FOUND, Some pos => put_slot pos (fun s => Elem (key s) (Obj v)) ;; ret (inl (Obj v))
        | MP_MAP_LOOKUP_ADD_IF_NOT_FOUND, None => undef
        | _, _ => ret (inl (Obj v))
        end in
      match deflt, kind with
      | None, MP_MAP_LOOKUP_REMOVE_IF_FOUND => ret (inr (KeyError (Some index)))
      | None, _ => result none
      | Some d, _ => result d
      end
  | _ =>
      match kind, r with
      | MP_MAP_LOOKUP_REMOVE_IF_FOUND, Some pos => put_slot pos (fun s => Elem (key s) MP_OBJ_NULL)
      | _, _ => ret tt
      end ;;
      ret (inl v)
  end.

Definition mp_obj_dict_delete (index none : obj) : MM (unit + exn obj) :=
  _ <-? dict_get_helper index None MP_MAP_LOOKUP_REMOVE_IF_FOUND none ;; ret (inl tt).

Definition dict_popitem : MM (mp_obj_t * mp_obj_t + exn obj) :=
  _ <-? mp_ensure_not_fixed ;;
  r <- dict_iter_next 0 ;;
  match fst r with
  | None => ret (inr (KeyError None))
  | Some pos =>
      modify (set_used (fun u => u - 1)) ;;
      e <- slot_at pos ;;
      put_slot pos (fun _ => Elem MP_OBJ_SENTINEL MP_OBJ_NULL) ;;
      ret (inl (key e, value e))
  end.

Definition dict_clear : MM (unit + exn obj) := _ <-? mp_ensure_not_fixed ;; mp_map_clear ;; ret (inl tt).

Definition mp_obj_dict_len : MM Z := gets used.

Definition dict_contains (index : obj) : MM (bool + exn obj) :=
  r <-? mp_map_lookup index MP_MAP_LOOKUP ;; ret (inl (match r with Some _ => true | None => false end)).
End Tables.
