(* ===== verification/MapInv.v ===== *)
(** MapInv: the invariant of the hash tables, and what the probe for a key
    finds. *)

From stdpp Require Import options.
From S2P Require Import Prelude Map.

#[local] Ltac Zify.zify_post_hook ::= Z.to_euclidean_division_equations.

(** * Table sizes *)

Lemma first_ge_spec l x a : first_ge l x = Some a -> x <= a /\ a ∈ l.
Proof.
  induction l as [|b l IH]; [done|]. simpl. destruct (Z.leb_spec x b).
  - intros [= <-]. split; [done|]. left.
  - intros E. destruct (IH E). split; [done|]. by right.
Qed.

(** The new size is large enough. *)
Lemma get_hash_alloc_ge x : 0 <= x < 2 ^ 31 -> x <= get_hash_alloc_greater_or_equal_to x < 2 ^ 32.
Proof.
  intros Hx. unfold get_hash_alloc_greater_or_equal_to. destruct (first_ge hash_allocation_sizes x) as [a|] eqn:E.
  - destruct (first_ge_spec _ _ _ E) as [? Hin]. split; [done|].
    assert (Hall : Forall (fun b => b < 2 ^ 32) hash_allocation_sizes) by (repeat constructor).
    rewrite Forall_forall in Hall. by apply Hall.
  - rewrite wrapu_small by lia. set (y := x + x / 2). assert (Hy : x <= y < 2 ^ 32 - 1) by (unfold y; lia).
    destruct (Z.odd y) eqn:Eo.
    + replace (Z.lor y 1) with y; [lia|]. apply Z.bits_inj'. intros n Hn. rewrite Z.lor_spec.
      destruct (decide (n = 0)) as [->|]; [rewrite Z.bit0_odd, Eo; done|].
      rewrite (Z.bits_above_log2 1 n); [by rewrite orb_false_r|lia|]. simpl. lia.
    + replace (Z.lor y 1) with (y + 1); [lia|]. rewrite Z.add_nocarry_lxor, Z.lxor_lor; [done|..].
      all: apply Z.bits_inj'; intros n Hn; rewrite Z.land_spec, Z.bits_0; destruct (decide (n = 0)) as [->|];
        [rewrite Z.bit0_odd, Eo; done|]; rewrite (Z.bits_above_log2 1 n); [by rewrite andb_false_r|lia|]; simpl; lia.
Qed.

Lemma get_hash_alloc_nonneg x : 0 <= get_hash_alloc_greater_or_equal_to x.
Proof.
  unfold get_hash_alloc_greater_or_equal_to. destruct (first_ge hash_allocation_sizes x) as [a|] eqn:E.
  - destruct (first_ge_spec _ _ _ E) as [_ Hin]. assert (Hall : Forall (fun b => 0 <= b) hash_allocation_sizes) by (repeat constructor; lia).
    by apply (proj1 (Forall_forall _ _) Hall).
  - apply Z.lor_nonneg. unfold u32. lia.
Qed.

Section Probing.
Context {obj : Type} `{Laws : MpObjLaws obj}.
Implicit Types (K : list (@mp_obj_t obj)) (a b index : obj).

(** * Keys in a table *)

(** Position [j] of the probe for the key, in a table of [n] slots. *)
Definition nth_pos (n : Z) index (j : Z) : Z := (hash_of index mod n + j) mod n.

(** The slots before step [d] of the probe are not empty. *)
Definition path K index (d : Z) : Prop :=
  forall j, 0 <= j < d -> K !! Z.to_nat (nth_pos (Z.of_nat (length K)) index j) <> Some MP_OBJ_NULL.

(** Every key is in the table once, and the probe for it gets there. *)
Record kinv K : Prop := {
  k_unique : forall p q a b, K !! p = Some (Obj a) -> K !! q = Some (Obj b) -> mp_obj_equal a b = true -> p = q;
  k_path : forall p a, K !! p = Some (Obj a) ->
    exists d, 0 <= d < Z.of_nat (length K) /\ Z.of_nat p = nth_pos (Z.of_nat (length K)) a d /\ path K a d
}.

(** No key of the table is equal to [index]. *)
Definition absent K index : Prop := forall p a, K !! p = Some (Obj a) -> mp_obj_equal a index = false.

Lemma hash_equal a b : mp_obj_equal a b = true -> hash_of a = hash_of b.
Proof using Laws.
  intros E. unfold hash_of. pose proof (equal_hash a b E) as Eh.
  destruct (mp_obj_is_qstr a) eqn:Ea, (mp_obj_is_qstr b) eqn:Eb; rewrite ?(hash_qstr a) by done; rewrite ?(hash_qstr b) by done; by rewrite Eh.
Qed.

Lemma nth_pos_range n index j : 0 < n -> 0 <= nth_pos n index j < n.
Proof. intros. unfold nth_pos. lia. Qed.

Lemma nth_pos_next n index j : 0 < n -> (nth_pos n index j + 1) mod n = nth_pos n index (j + 1).
Proof. intros. unfold nth_pos. rewrite Zplus_mod_idemp_l. f_equal. lia. Qed.

Lemma nth_pos_inj n index i j : 0 <= i < n -> 0 <= j < n -> nth_pos n index i = nth_pos n index j -> i = j.
Proof.
  intros Hi Hj E. unfold nth_pos in E. pose proof (Z.mod_pos_bound (hash_of index) n ltac:(lia)).
  set (h := hash_of index mod n) in *. 
  destruct (decide (h + i < n)), (decide (h + j < n)).
  - rewrite !Z.mod_small in E by lia. lia.
  - rewrite Z.mod_small in E by lia. replace (h + j) with (h + j - n + 1 * n) in E by lia.
    rewrite Z.mod_add, Z.mod_small in E by lia. lia.
  - rewrite (Z.mod_small (h + j)) in E by lia. replace (h + i) with (h + i - n + 1 * n) in E by lia.
    rewrite Z.mod_add, Z.mod_small in E by lia. lia.
  - replace (h + i) with (h + i - n + 1 * n) in E by lia. replace (h + j) with (h + j - n + 1 * n) in E by lia.
    rewrite !Z.mod_add, !Z.mod_small in E by lia. lia.
Qed.

Lemma nth_pos_wrap n index j : 0 < n -> 0 <= j < n -> nth_pos n index (j + 1) = hash_of index mod n <-> j + 1 = n.
Proof.
  intros Hn Hj. assert (E0 : hash_of index mod n = nth_pos n index 0) by (unfold nth_pos; rewrite Z.add_0_r, Z.mod_mod; lia).
  split.
  - intros E. destruct (decide (j + 1 = n)); [done|]. rewrite E0 in E. apply nth_pos_inj in E; lia.
  - intros ->. unfold nth_pos. replace (hash_of index mod n + n) with (hash_of index mod n + 1 * n) by lia.
    rewrite Z.mod_add, Z.mod_mod by lia. done.
Qed.

(** ** The probe *)

(** The first [i] slots of the probe are not empty and do not have the key; [av] is
    one of them that can be used again, if there is one. *)
Definition visited K index (i : Z) (av : option Z) : Prop :=
  (forall j, 0 <= j < i -> exists x, K !! Z.to_nat (nth_pos (Z.of_nat (length K)) index j) = Some x /\ x <> MP_OBJ_NULL /\
     (forall a, x = Obj a -> mp_obj_equal a index = false) /\ (av = None -> x <> MP_OBJ_SENTINEL)) /\
  (forall p, av = Some p -> exists j, 0 <= j < i /\ p = nth_pos (Z.of_nat (length K)) index j /\ K !! Z.to_nat p = Some MP_OBJ_SENTINEL).

Lemma visited_0 K index : visited K index 0 None.
Proof. split; [intros j Hj; lia|done]. Qed.

Lemma visited_next K index i av x : 0 <= i -> visited K index i av ->
  K !! Z.to_nat (nth_pos (Z.of_nat (length K)) index i) = Some x -> x <> MP_OBJ_NULL ->
  (forall a, x = Obj a -> mp_obj_equal a index = false) ->
  visited K index (i + 1) (match x with
    | MP_OBJ_SENTINEL => match av with Some a => Some a | None => Some (nth_pos (Z.of_nat (length K)) index i) end
    | _ => av end).
Proof.
  intros Hi [V1 V2] Hx Hnull Hne. split.
  - intros j Hj. destruct (decide (j = i)) as [->|].
    + exists x. split; [done|]. split; [done|]. split; [done|]. by destruct x, av.
    + destruct (V1 j ltac:(lia)) as (y & ? & ? & ? & Hs). exists y. split; [done|]. split; [done|]. split; [done|].
      by destruct x, av; auto.
  - intros p Hp. assert (Hold : forall q, av = Some q -> exists j, 0 <= j < i + 1 /\ q = nth_pos (Z.of_nat (length K)) index j /\
      K !! Z.to_nat q = Some MP_OBJ_SENTINEL) by (intros q Hq; destruct (V2 q Hq) as (j & ? & ? & ?); exists j; split; [lia|done]).
    destruct x as [| |a]; [done| |by apply Hold]. destruct av as [q|]; [by apply Hold|]. injection Hp as <-.
    exists i. split; [lia|done].
Qed.

Lemma visited_path K index i av : visited K index i av -> path K index i.
Proof. intros [V _] j Hj. destruct (V j Hj) as (x & -> & ? & _). congruence. Qed.

(** A key that is equal to the index is on the probe for the index. *)
Lemma path_equal K a index d : mp_obj_equal a index = true -> path K a d <-> path K index d.
Proof using Laws. intros E. unfold path, nth_pos. by rewrite (hash_equal a index E). Qed.

Lemma nth_pos_equal n a index j : mp_obj_equal a index = true -> nth_pos n a j = nth_pos n index j.
Proof using Laws. intros E. unfold nth_pos. by rewrite (hash_equal a index E). Qed.

Lemma visited_absent_upto K index i av p a : kinv K -> visited K index i av -> K !! p = Some (Obj a) ->
  mp_obj_equal a index = true ->
  exists d, i <= d < Z.of_nat (length K) /\ Z.of_nat p = nth_pos (Z.of_nat (length K)) index d /\ path K index d.
Proof using Laws.
  intros I [V _] Hp E. destruct (k_path _ I p a Hp) as (d & Hd & Ep & Hpath). rewrite (nth_pos_equal _ a index) in Ep by done.
  rewrite (path_equal K a index) in Hpath by done. exists d. split; [|done]. destruct (decide (d < i)); [|lia].
  destruct (V d ltac:(lia)) as (x & Hx & _ & Hne & _). rewrite <- Ep, Nat2Z.id, Hp in Hx. injection Hx as <-.
  rewrite (Hne a eq_refl) in E. done.
Qed.

Lemma absent_null K index i av : kinv K -> visited K index i av -> 0 <= i ->
  K !! Z.to_nat (nth_pos (Z.of_nat (length K)) index i) = Some MP_OBJ_NULL -> absent K index.
Proof using Laws.
  intros I V Hi Hnull p a Hp. destruct (mp_obj_equal a index) eqn:E; [|done].
  destruct (visited_absent_upto K index i av p a I V Hp E) as (d & Hd & Ep & Hpath).
  destruct (decide (d = i)) as [->|]; [rewrite <- Ep, Nat2Z.id, Hp in Hnull; done|]. by destruct (Hpath i ltac:(lia)).
Qed.

Lemma absent_wrap K index av : kinv K -> visited K index (Z.of_nat (length K)) av -> absent K index.
Proof using Laws.
  intros I V p a Hp. destruct (mp_obj_equal a index) eqn:E; [|done].
  destruct (visited_absent_upto K index _ av p a I V Hp E) as (d & Hd & _). lia.
Qed.

(** When the whole table was visited without finding a slot to use, it is full. *)
Lemma visited_full K index p : visited K index (Z.of_nat (length K)) None -> (p < length K)%nat -> exists a, K !! p = Some (Obj a).
Proof.
  intros [V _] Hp. set (n := Z.of_nat (length K)) in *.
  set (j := (Z.of_nat p - hash_of index mod n) mod n). pose proof (Z.mod_pos_bound (Z.of_nat p - hash_of index mod n) n ltac:(lia)) as Hj.
  destruct (V j Hj) as (x & Hx & Hnull & _ & Hs).
  assert (E : nth_pos n index j = Z.of_nat p).
  { unfold nth_pos, j. rewrite Zplus_mod_idemp_r. replace (hash_of index mod n + (Z.of_nat p - hash_of index mod n)) with (Z.of_nat p) by lia.
    apply Z.mod_small. lia. }
  rewrite E, Nat2Z.id in Hx. specialize (Hs eq_refl). destruct x as [| |a]; [done..|]. by exists a.
Qed.

(** No key is there twice. *)
Definition kdistinct K : Prop := forall p q a b, K !! p = Some (Obj a) -> K !! q = Some (Obj b) -> mp_obj_equal a b = true -> p = q.

Lemma kdistinct_tail x K : kdistinct (x :: K) -> kdistinct K.
Proof. intros Hd p q a b Hp Hq E. assert (S p = S q); [by eapply Hd|lia]. Qed.

Lemma kdistinct_head K k a : kdistinct (Obj k :: K) -> Obj a ∈ K -> mp_obj_equal k a = false.
Proof.
  intros Hd [q Hq]%list_elem_of_lookup_1. destruct (mp_obj_equal k a) eqn:E; [|done].
  assert (0%nat = S q) by (by eapply (Hd 0%nat (S q) k a)). lia.
Qed.

(** ** Counting *)

Definition nfilled (K : list (@mp_obj_t obj)) : Z := Z.of_nat (length (filter (fun x => filled x = true) K)).

Lemma nfilled_insert K p x y : K !! p = Some x ->
  nfilled (<[p := y]> K) = nfilled K - (if filled x then 1 else 0) + (if filled y then 1 else 0).
Proof.
  intros Hp. rewrite <- (take_drop_middle K p x Hp) at 2. rewrite insert_take_drop by (by eapply lookup_lt_Some).
  unfold nfilled. rewrite !filter_app, !length_app. 
  destruct x, y; simpl; rewrite ?filter_cons_True, ?filter_cons_False by done; simpl; lia.
Qed.

Lemma nfilled_bound K : 0 <= nfilled K <= Z.of_nat (length K).
Proof. unfold nfilled. pose proof (length_filter (fun x => filled x = true) K). lia. Qed.

Lemma nfilled_full K : (forall p, (p < length K)%nat -> exists a, K !! p = Some (Obj a)) -> nfilled K = Z.of_nat (length K).
Proof.
  intros Hf. unfold nfilled. rewrite filter_all; [done|]. apply Forall_forall. intros x [p Hp]%list_elem_of_lookup_1.
  destruct (Hf p) as [a Ha]; [by eapply lookup_lt_Some|]. by replace x with (Obj a) by congruence.
Qed.

(** ** The steps of a probe *)

(** [p] is a slot for the index. *)
Definition slot_for K index (p : Z) : Prop :=
  exists d, 0 <= d < Z.of_nat (length K) /\ p = nth_pos (Z.of_nat (length K)) index d /\ path K index d.


Lemma slot_for_avail K index i q : 0 <= i <= Z.of_nat (length K) -> visited K index i (Some q) ->
  slot_for K index q /\ forall a, K !! Z.to_nat q <> Some (Obj a).
Proof.
  intros Hi V. destruct (proj2 V q eq_refl) as (j & Hj & -> & Hs). rewrite Hs. split; [|done]. exists j. split; [lia|]. split; [done|].
  pose proof (visited_path _ _ _ _ V) as Hp. intros j' Hj'. apply Hp. lia.
Qed.

(** The probe gets to an empty slot: the index is not in the table, and the slot
    that the code takes is right. *)
Lemma probe_null K index i av : let p := nth_pos (Z.of_nat (length K)) index i in
  kinv K -> visited K index i av -> 0 <= i < Z.of_nat (length K) -> K !! Z.to_nat p = Some MP_OBJ_NULL ->
  absent K index /\ slot_for K index (match av with Some a => a | None => p end) /\
  forall a, K !! Z.to_nat (match av with Some a => a | None => p end) <> Some (Obj a).
Proof using Laws.
  intros p I V Hi Hx. split; [eapply absent_null; [done|exact V|lia|done]|]. destruct av as [q|].
  - apply (slot_for_avail K index i); [lia|done].
  - rewrite Hx. split; [|done]. exists i. split; [lia|]. split; [done|]. by eapply visited_path.
Qed.

(** It gets to a slot that is not empty and does not hold the index. *)
Lemma probe_next K index i av x : let n := Z.of_nat (length K) in let p := nth_pos n index i in
  let av' := match x with MP_OBJ_SENTINEL => match av with Some a => Some a | None => Some p end | _ => av end in
  kinv K -> visited K index i av -> 0 <= i < n -> K !! Z.to_nat p = Some x -> x <> MP_OBJ_NULL ->
  (forall a, x = Obj a -> mp_obj_equal a index = false) ->
  visited K index (i + 1) av' /\
  if (p + 1) mod n =? hash_of index mod n then
    absent K index /\ match av' with
      | Some q => slot_for K index q /\ forall a, K !! Z.to_nat q <> Some (Obj a)
      | None => nfilled K = n
      end
  else i + 1 < n.
Proof using Laws.
  intros n p av' I V Hi Hx Hn Hne. assert (V' : visited K index (i + 1) av') by (by apply visited_next; [lia|..]). split; [done|].
  unfold p. rewrite nth_pos_next by lia. destruct (Z.eqb_spec (nth_pos n index (i + 1)) (hash_of index mod n)) as [Ew|Ew].
  - apply nth_pos_wrap in Ew; [|lia|done]. rewrite Ew in V'. split; [by eapply absent_wrap|]. destruct av' as [q|].
    + apply (slot_for_avail K index n); [lia|done].
    + apply nfilled_full. intros p' Hp'. by apply (visited_full _ index).
  - destruct (decide (i + 1 = n)) as [E|]; [|lia]. destruct Ew. apply nth_pos_wrap; [lia|done|done].
Qed.

(** ** Changes *)

Lemma kinv_add K index p : kinv K -> absent K index -> slot_for K index p ->
  (forall a, K !! Z.to_nat p <> Some (Obj a)) -> kinv (<[Z.to_nat p := Obj index]> K).
Proof using Laws.
  intros I Ha (d & Hd & -> & Hp) Hfree. set (p := nth_pos (Z.of_nat (length K)) index d) in *.
  pose proof (nth_pos_range (Z.of_nat (length K)) index d ltac:(lia)) as Hr. fold p in Hr.
  assert (Hlt : (Z.to_nat p < length K)%nat) by lia.
  assert (Hpath : forall a d', path K a d' -> path (<[Z.to_nat p := Obj index]> K) a d').
  { intros a d' Hpa j Hj. rewrite length_insert. specialize (Hpa j Hj). rewrite list_lookup_insert. case_decide as E; [done|done]. }
  split.
  - intros q r a b Hq Hr' E. apply list_lookup_insert_Some in Hq, Hr'.
    destruct Hq as [(<- & [= <-] & _)|[Hnq Hq]], Hr' as [(<- & [= <-] & _)|[Hnr Hr']]; [done| | |by eapply k_unique].
    + rewrite equal_sym, (Ha r b Hr') in E. done.
    + rewrite (Ha q a Hq) in E. done.
  - intros q a Hq. rewrite length_insert. apply list_lookup_insert_Some in Hq as [(<- & [= <-] & _)|[Hnq Hq]].
    + exists d. split; [done|]. split; [by rewrite Z2Nat.id by lia|by apply Hpath].
    + destruct (k_path _ I q a Hq) as (d' & ? & ? & ?). exists d'. split; [done|]. split; [done|by apply Hpath].
Qed.

(** A slot is emptied: it may become [MP_OBJ_NULL] when the slot behind is empty. *)
Lemma kinv_remove K p a x : kinv K -> K !! p = Some (Obj a) -> filled x = false ->
  (x = MP_OBJ_NULL -> K !! Z.to_nat ((Z.of_nat p + 1) mod Z.of_nat (length K)) = Some MP_OBJ_NULL) -> kinv (<[p := x]> K).
Proof using Laws.
  intros I Hp Hf Hnext. pose proof (lookup_lt_Some _ _ _ Hp) as Hlt. split.
  - intros q r b c Hq Hr. apply list_lookup_insert_Some in Hq as [(<- & -> & _)|[Hnq Hq]]; [done|].
    apply list_lookup_insert_Some in Hr as [(<- & -> & _)|[Hnr Hr]]; [done|]. by eapply k_unique.
  - intros q b Hq. apply list_lookup_insert_Some in Hq as [(<- & -> & _)|[Hnq Hq]]; [done|].
    destruct (k_path _ I q b Hq) as (d & Hd & Eq & Hpath). rewrite length_insert. exists d. split; [done|]. split; [done|].
    intros j Hj. rewrite length_insert, list_lookup_insert. case_decide as E; [|by apply Hpath]. destruct E as [E _].
    intros [= ->]. specialize (Hnext eq_refl). set (n := Z.of_nat (length K)) in *.
    assert (Ep : Z.of_nat p = nth_pos n b j) by (pose proof (nth_pos_range n b j ltac:(lia)); lia).
    rewrite Ep, nth_pos_next in Hnext by lia. destruct (decide (j + 1 = d)) as [<-|].
    + rewrite <- Eq, Nat2Z.id, Hq in Hnext. done.
    + by apply (Hpath (j + 1) ltac:(lia)).
Qed.

Lemma kinv_empty n : kinv (replicate n MP_OBJ_NULL).
Proof. split; intros p; intros; match goal with H : replicate _ _ !! _ = Some _ |- _ => apply lookup_replicate in H as [? _] end; done. Qed.
(** * Lists of objects, up to equality *)

Definition mem_list (l : list obj) (x : obj) : bool := existsb (fun a => mp_obj_equal a x) l.

Lemma mem_list_true (l : list obj) x : mem_list l x = true <-> exists a, a ∈ l /\ mp_obj_equal a x = true.
Proof.
  unfold mem_list. rewrite existsb_exists. split; intros (a & Ha & E); exists a; (split; [|done]); by apply list_elem_of_In.
Qed.

(** No two objects of the list are equal. *)
Definition apart (l : list obj) : Prop := forall p q a b, l !! p = Some a -> l !! q = Some b -> mp_obj_equal a b = true -> p = q.

Lemma apart_cons a l : apart (a :: l) <-> apart l /\ forall b, b ∈ l -> mp_obj_equal a b = false.
Proof using Laws.
  split.
  - intros Hl. split.
    + intros p q b c Hp Hq E. assert (S p = S q) by (by eapply Hl). lia.
    + intros b [q Hq]%list_elem_of_lookup_1. destruct (mp_obj_equal a b) eqn:E; [|done].
      assert (0%nat = S q) by (by eapply (Hl 0%nat (S q))). lia.
  - intros [Hl Ha] [|p] [|q] b c Hp Hq E; simpl in *; [done|..].
    + injection Hp as ->. apply list_elem_of_lookup_2 in Hq. by rewrite (Ha c Hq) in E.
    + injection Hq as ->. apply list_elem_of_lookup_2 in Hp. rewrite equal_sym in E. by rewrite (Ha b Hp) in E.
    + f_equal. by eapply Hl.
Qed.

(** A list without equal objects is not longer than one that has them all. *)
Lemma pigeonhole (l1 : list obj) : forall l2, apart l1 -> (forall a, a ∈ l1 -> mem_list l2 a = true) -> (length l1 <= length l2)%nat.
Proof using Laws.
  induction l1 as [|a l1 IH]; intros l2 Hl Hin; simpl; [lia|]. apply apart_cons in Hl as [Hl Ha].
  destruct (proj1 (mem_list_true l2 a) (Hin a ltac:(by left))) as (b & Hb & E). apply list_elem_of_split in Hb as (l & l' & ->).
  assert (length l1 <= length (l ++ l'))%nat; [|rewrite length_app in *; simpl; lia]. apply IH; [done|].
  intros c Hc. pose proof (Hin c ltac:(by right)) as Hm. apply mem_list_true in Hm as (d & Hd & Ed). apply mem_list_true. exists d.
  split; [|done]. apply elem_of_app in Hd as [?|Hd]; [apply elem_of_app; by left|]. apply elem_of_cons in Hd as [->|?]; [|apply elem_of_app; by right].
  exfalso. pose proof (Ha c Hc) as Hne. rewrite (equal_trans a b c) in Hne; [done| |done]. by rewrite equal_sym.
Qed.

End Probing.
