(* ===== verification/MapOps.v ===== *)
(** MapOps: lookups in the maps of the interpreter, with adding and removing, and
    the growth of a map. *)

From stdpp Require Import options.
From S2P Require Import Prelude Map MapInv.

#[local] Ltac Zify.zify_post_hook ::= Z.to_euclidean_division_equations.

Section MapLookup.
Context {obj : Type} `{Laws : MpObjLaws obj}.
Implicit Types (m : @mp_map_t obj) (a b index k : obj).

Definition keys m : list mp_obj_t := key <$> table m.

(** A map that is not a constant table. *)
Record minv m : Prop := {
  mi_len : Z.of_nat (length (table m)) = alloc m;
  mi_small : alloc m < 2 ^ 29;
  mi_used : used m = nfilled (keys m);
  mi_keys : kinv (keys m);
  mi_qstrs : all_keys_are_qstrs m = true -> forall p a, keys m !! p = Some (Obj a) -> mp_obj_is_qstr a = true;
  mi_plain : is_fixed m = false /\ is_ordered m = false
}.

Lemma length_keys m : length (keys m) = length (table m).
Proof. apply length_fmap. Qed.

Lemma keys_lookup m p x : keys m !! p = Some x <-> exists v, table m !! p = Some (Elem x v).
Proof.
  unfold keys. rewrite list_lookup_fmap. destruct (table m !! p) as [[y v]|]; simpl; split.
  - intros [= ->]. by exists v.
  - intros (w & [= -> _]). done.
  - done.
  - by intros (w & ?).
Qed.

(** ** Comparing keys *)

Definition only_ptrs m index : bool := all_keys_are_qstrs m && (mp_obj_is_qstr index || negb (mp_obj_is_str index)).

(** Comparing pointers is enough when all keys are interned strings. *)
Lemma same_key_equal m index p a : minv m -> keys m !! p = Some (Obj a) -> same_key (only_ptrs m index) index a = mp_obj_equal a index.
Proof using Laws.
  intros I Hp. unfold same_key. destruct (bool_decide_reflect (a = index)) as [->|Hne]; [by rewrite equal_refl|]. simpl.
  unfold only_ptrs. destruct (all_keys_are_qstrs m) eqn:Eq; simpl; [|done]. pose proof (mi_qstrs _ I Eq p a Hp) as Ha.
  destruct (mp_obj_equal a index) eqn:E; [|by rewrite andb_false_r].
  destruct (mp_obj_is_qstr index) eqn:Ei; simpl; [by destruct Hne; apply equal_qstr|].
  destruct (equal_str a index Ha E) as [?|Hs]; [congruence|]. by rewrite Hs.
Qed.

(** An object that is no string is not in a map whose keys are interned strings. *)
Lemma not_string_absent m index : minv m -> all_keys_are_qstrs m = true -> mp_obj_is_qstr index = false ->
  mp_obj_is_str index = false -> absent (keys m) index.
Proof using Laws.
  intros I Eq Hq Hs p a Hp. destruct (mp_obj_equal a index) eqn:E; [|done].
  destruct (equal_str a index (mi_qstrs _ I Eq p a Hp) E); congruence.
Qed.

(** ** Slots *)

Lemma wp_slot_at m pos e (Q : mp_map_elem_t -> mp_map_t -> Prop) : table m !! Z.to_nat pos = Some e -> Q e m -> wp (slot_at pos) Q m.
Proof. intros He HQ. by eapply wp_getso. Qed.

Lemma wp_put_slot m pos f e (Q : unit -> mp_map_t -> Prop) : table m !! Z.to_nat pos = Some e ->
  Q tt (set_table (<[Z.to_nat pos := f e]>) m) -> wp (put_slot pos f) Q m.
Proof. intros He HQ. apply wp_bind, (wp_slot_at m pos e); [done|]. by apply wp_modify. Qed.

Lemma keys_put m pos e : keys (set_table (<[pos := e]>) m) = <[pos := key e]> (keys m).
Proof. unfold keys. simpl. by rewrite list_fmap_insert. Qed.

(** * Adding a key *)

(** The map has the key [a] with the value [v]. *)
Definition entry m a (v : mp_obj_t) : Prop := exists p, table m !! p = Some (Elem (Obj a) v).

Lemma entry_key m a v : entry m a v -> exists p, keys m !! p = Some (Obj a).
Proof. intros [p Hp]. exists p. apply keys_lookup. by exists v. Qed.

Lemma absent_entry m index : absent (keys m) index <-> forall a v, entry m a v -> mp_obj_equal a index = false.
Proof.
  split.
  - intros Hab a v [p Hp]%entry_key. by apply (Hab p).
  - intros Hab p a [v Hv]%keys_lookup. apply (Hab a v). by exists p.
Qed.

(** The index is at [p], which was free; nothing else has changed. *)
Record added m index (p : Z) m' : Prop := {
  d_inv : minv m';
  d_range : 0 <= p < alloc m;
  d_free : forall a, keys m !! Z.to_nat p <> Some (Obj a);
  d_table : table m' = <[Z.to_nat p := Elem (Obj index) MP_OBJ_NULL]> (table m);
  d_used : used m' = used m + 1;
  d_alloc : alloc m' = alloc m
}.

Lemma wp_add_at m index p (Q : option Z + exn obj -> mp_map_t -> Prop) : minv m -> absent (keys m) index ->
  slot_for (keys m) index p -> (forall a, keys m !! Z.to_nat p <> Some (Obj a)) ->
  (forall m', added m index p m' -> Q (inl (Some p)) m') -> wp (add_at index p) Q m.
Proof using Laws.
  intros I Ha Hs Hf HQ. pose proof (mi_len _ I) as Hlen. assert (HlK : Z.of_nat (length (keys m)) = alloc m) by (by rewrite length_keys).
  assert (Hr : 0 <= p < alloc m) by (destruct Hs as (d & Hd & -> & _); rewrite <- HlK; apply nth_pos_range; lia).
  destruct (lookup_lt_is_Some_2 (table m) (Z.to_nat p)) as [[x v] He]; [lia|].
  assert (Hx : keys m !! Z.to_nat p = Some x) by (apply keys_lookup; by exists v).
  apply wp_bind, wp_modify, wp_bind, (wp_put_slot _ _ _ (Elem x v)); [done|].
  set (m1 := set_table _ _). set (m2 := if mp_obj_is_qstr index then m1 else set_qstrs false m1).
  assert (Hfin : added m index p m2).
  { assert (Hk : keys m2 = <[Z.to_nat p := Obj index]> (keys m)).
    { replace (keys m2) with (keys m1) by (unfold m2; by destruct (mp_obj_is_qstr index)). unfold m1. by rewrite keys_put. }
    assert (Hal : alloc m2 = alloc m /\ used m2 = used m + 1 /\ table m2 = <[Z.to_nat p := Elem (Obj index) MP_OBJ_NULL]> (table m) /\
      is_fixed m2 = is_fixed m /\ is_ordered m2 = is_ordered m) by (unfold m2; by destruct (mp_obj_is_qstr index)).
    destruct Hal as (Ea & Eu & Et & Ef & Eo). split; try done. split.
    - by rewrite Et, Ea, length_insert.
    - rewrite Ea. apply I.
    - rewrite Eu, Hk, (nfilled_insert _ _ x) by done. rewrite (mi_used _ I). destruct x; simpl; [lia|lia|]. by destruct (Hf o).
    - rewrite Hk. apply kinv_add; [apply I|done..].
    - intros Eq q a. rewrite Hk. intros [(<- & [= <-] & _)|[_ Hq]]%list_lookup_insert_Some.
      + unfold m2 in Eq. by destruct (mp_obj_is_qstr index).
      + apply (mi_qstrs _ I) with q; [|done]. unfold m2 in Eq. by destruct (mp_obj_is_qstr index).
    - rewrite Ef, Eo. apply I. }
  apply wp_bind. unfold when, m2 in *. destruct (mp_obj_is_qstr index); simpl; [apply wp_ret|apply wp_modify]; by apply wp_ret, HQ.
Qed.

Lemma added_entry m index p m' a v : added m index p m' -> minv m ->
  entry m' a v <-> (a = index /\ v = MP_OBJ_NULL) \/ entry m a v.
Proof.
  intros A I. unfold entry. rewrite (d_table _ _ _ _ A). pose proof (d_range _ _ _ _ A). pose proof (mi_len _ I).
  assert (Hold : forall q, table m !! q = Some (Elem (Obj a) v) -> q <> Z.to_nat p).
  { intros q Hq ->. apply (d_free _ _ _ _ A a), keys_lookup. by exists v. }
  split.
  - intros (q & [(<- & [= -> ->] & _)|[_ Hq]]%list_lookup_insert_Some); [by left|right; by exists q].
  - intros [[-> ->]|[q Hq]].
    + exists (Z.to_nat p). apply list_lookup_insert_eq. lia.
    + exists q. rewrite list_lookup_insert_ne; [done|]. intros <-. by apply (Hold _ Hq).
Qed.

(** A new table. *)
Definition empty_map (n : Z) (q : bool) : @mp_map_t obj := Map q false false 0 n (new_table n).

Lemma empty_entry n q a (v : @mp_obj_t obj) p : table (empty_map n q) !! p <> Some (Elem (Obj a) v).
Proof. unfold empty_map, new_table. simpl. intros [? _]%lookup_replicate. done. Qed.

Lemma minv_empty n q : 0 <= n < 2 ^ 29 -> minv (empty_map n q).
Proof.
  intros Hn. assert (Hk : keys (empty_map n q) = replicate (Z.to_nat n) MP_OBJ_NULL).
  { unfold keys, empty_map, new_table. cbn [table]. by rewrite fmap_replicate. }
  split; [|apply Hn| | | |done].
  - unfold empty_map, new_table. cbn [table alloc]. rewrite length_replicate. lia.
  - rewrite Hk. unfold nfilled. rewrite filter_none; [done|]. by apply Forall_replicate.
  - rewrite Hk. apply kinv_empty.
  - intros _ p a. rewrite Hk. intros [? _]%lookup_replicate. done.
Qed.

(** * Inserting the entries of a table *)

(** The entries are as before. *)
Definition same_entries m m' : Prop := forall a v, entry m' a v <-> entry m a v.

(** Entry [a], [v] of the first [n] slots of the table [T]. *)
Definition entry_upto (T : list (@mp_map_elem_t obj)) (n : nat) a (v : mp_obj_t) : Prop :=
  exists i, (i < n)%nat /\ T !! i = Some (Elem (Obj a) v).

Lemma entry_upto_next T n x v : T !! n = Some (Elem x v) -> forall a w,
  entry_upto T (S n) a w <-> (x = Obj a /\ v = w) \/ entry_upto T n a w.
Proof.
  intros Hn a w. split.
  - intros (i & Hi & Hw). destruct (decide (i = n)) as [->|]; [left|right; exists i; split; [lia|done]].
    rewrite Hn in Hw. by injection Hw as -> ->.
  - intros [[-> ->]|(i & Hi & Hw)]; [exists n; split; [lia|done]|exists i; split; [lia|done]].
Qed.

Lemma nfilled_next (T : list (@mp_map_elem_t obj)) n x v : T !! n = Some (Elem x v) ->
  nfilled (key <$> firstn (S n) T) = nfilled (key <$> firstn n T) + (if filled x then 1 else 0).
Proof.
  intros Hn. rewrite (take_S_r _ _ _ Hn), fmap_app. unfold nfilled. rewrite filter_app, length_app. simpl.
  destruct x; simpl; rewrite ?filter_cons_True, ?filter_cons_False by done; simpl; lia.
Qed.

(** The value of the slot that was added is set. *)
Lemma added_value m index p m1 v : minv m -> added m index p m1 ->
  table m1 !! Z.to_nat p = Some (Elem (Obj index) MP_OBJ_NULL) /\
  let m2 := set_table (<[Z.to_nat p := Elem (Obj index) v]>) m1 in
  minv m2 /\ forall a w, entry m2 a w <-> (a = index /\ w = v) \/ entry m a w.
Proof.
  intros I A. pose proof (d_range _ _ _ _ A) as Hr. pose proof (mi_len _ I) as Hl.
  assert (He : table m1 !! Z.to_nat p = Some (Elem (Obj index) MP_OBJ_NULL)).
  { rewrite (d_table _ _ _ _ A). apply list_lookup_insert_eq. lia. }
  split; [done|]. intros m2. pose proof (d_inv _ _ _ _ A) as I1.
  assert (Hk : keys m2 = keys m1).
  { unfold m2. rewrite keys_put. apply list_insert_id. apply keys_lookup. by eexists. }
  split.
  - destruct I1. split; try rewrite Hk; try done. unfold m2. simpl. by rewrite length_insert.
  - intros a w. assert (Et : table m2 = <[Z.to_nat p := Elem (Obj index) v]> (table m)).
    { unfold m2. simpl. by rewrite (d_table _ _ _ _ A), list_insert_insert_eq. }
    unfold entry. rewrite Et. split.
    + intros (q & [(<- & [= -> ->] & _)|[_ Hq]]%list_lookup_insert_Some); [by left|right; by exists q].
    + intros [[-> ->]|[q Hq]]; [exists (Z.to_nat p); apply list_lookup_insert_eq; lia|].
      exists q. rewrite list_lookup_insert_ne; [done|]. intros <-. apply (d_free _ _ _ _ A a), keys_lookup. by exists w.
Qed.

Lemma reinsert_spec lookup (T : list (@mp_map_elem_t obj)) N : kinv (key <$> T) -> nfilled (key <$> T) < N ->
  (forall m index (Q : option Z + exn obj -> mp_map_t -> Prop), minv m -> alloc m = N -> used m < N -> absent (keys m) index ->
     (forall p m', added m index p m' -> Q (inl (Some p)) m') -> wp (lookup index MP_MAP_LOOKUP_ADD_IF_NOT_FOUND) Q m) ->
  forall n m, (n <= length T)%nat -> minv m -> alloc m = N -> used m = nfilled (key <$> firstn n T) ->
  (forall a v, entry m a v <-> entry_upto T n a v) ->
  wp (reinsert lookup (drop n T)) (fun r m' => r = inl tt /\ minv m' /\ alloc m' = N /\ used m' = nfilled (key <$> T) /\
    forall a v, entry m' a v <-> entry_upto T (length T) a v) m.
Proof using Laws.
  intros KT HN Hl n. remember (length T - n)%nat as d eqn:Ed. revert n Ed.
  induction d as [|d IH]; intros n Ed m Hn I Ea Eu He.
  - replace n with (length T) in * by lia. rewrite drop_all. rewrite firstn_all in Eu. apply wp_ret. done.
  - destruct (lookup_lt_is_Some_2 T n) as [[x v] Hx]; [lia|]. rewrite (drop_S _ _ _ Hx). simpl.
    pose proof (entry_upto_next T n x v Hx) as Hnext. pose proof (nfilled_next T n x v Hx) as Hcnt.
    assert (Hskip : filled x = false -> wp (reinsert lookup (drop (S n) T)) (fun r m' => r = inl tt /\ minv m' /\ alloc m' = N /\ used m' = nfilled (key <$> T) /\
      forall a v, entry m' a v <-> entry_upto T (length T) a v) m).
    { intros Hf. apply IH; [lia|lia|done|done|rewrite Hcnt, Hf; lia|]. intros a w. rewrite Hnext, He. split; [by right|].
      intros [[-> _]|?]; done. }
    destruct x as [| |k]; [by apply Hskip|by apply Hskip|].
    assert (Habs : absent (keys m) k).
    { apply absent_entry. intros a w (i & Hi & Hw)%He. destruct (mp_obj_equal a k) eqn:E; [|done].
      assert (i = n); [|lia]. apply (k_unique _ KT i n a k); [rewrite list_lookup_fmap, Hw; done|rewrite list_lookup_fmap, Hx; done|done]. }
    assert (Hroom : used m < N).
    { rewrite Eu. assert (nfilled (key <$> firstn n T) <= nfilled (key <$> T)); [|lia].
      rewrite <- (firstn_skipn n T) at 2. rewrite fmap_app. unfold nfilled. rewrite filter_app, length_app. lia. }
    apply wp_bind, (Hl m k); [done..|]. intros p m1 A. destruct (added_value m k p m1 v I A) as (Hp & I2 & He2).
    apply wp_bind, (wp_put_slot _ _ _ (Elem (Obj k) MP_OBJ_NULL)); [done|]. simpl.
    apply IH; [lia|lia|done|simpl; rewrite (d_alloc _ _ _ _ A); done|simpl; rewrite (d_used _ _ _ _ A), Hcnt; simpl; lia|].
    intros a w. rewrite He2, Hnext, He. split; (intros [[E1 E2]|?]; [left|by right]); [by subst|]. by injection E1 as ->.
Qed.

Context (avail : Z -> bool).

(** * The probe *)

Section Probe.
Context (lookup : @lookup_t obj) (index : obj) (kind : mp_map_lookup_kind_t) (m : @mp_map_t obj) (I : minv m) (Hpos : 0 < alloc m).
Context (cop : bool) (Hcop : forall p a, keys m !! p = Some (Obj a) -> same_key cop index a = mp_obj_equal a index).
Context (Q : option Z + exn obj -> @mp_map_t obj -> Prop) (F : Z).

Let body := probe avail lookup index kind cop (hash_of index).

(** What has to hold when the key is found, is not found, or is to be added. *)
Context (HF : forall p a, keys m !! Z.to_nat p = Some (Obj a) -> 0 <= p < alloc m -> mp_obj_equal a index = true ->
  kind <> MP_MAP_LOOKUP_REMOVE_IF_FOUND -> Q (inl (Some p)) m).
Context (HD : forall p a v x, table m !! Z.to_nat p = Some (Elem (Obj a) v) -> 0 <= p < alloc m -> mp_obj_equal a index = true ->
  kind = MP_MAP_LOOKUP_REMOVE_IF_FOUND -> filled x = false ->
  (x = MP_OBJ_NULL -> keys m !! Z.to_nat ((p + 1) mod alloc m) = Some MP_OBJ_NULL) ->
  Q (inl (Some p)) (set_table (<[Z.to_nat p := Elem x v]>) (set_used (fun u => u - 1) m))).
Context (HN : absent (keys m) index -> kind <> MP_MAP_LOOKUP_ADD_IF_NOT_FOUND -> Q (inl None) m).
Context (HA : forall p, absent (keys m) index -> kind = MP_MAP_LOOKUP_ADD_IF_NOT_FOUND -> slot_for (keys m) index p ->
  (forall a, keys m !! Z.to_nat p <> Some (Obj a)) -> wp (add_at index p) Q m).
Context (HR : forall fuel, F <= Z.of_nat fuel -> absent (keys m) index -> kind = MP_MAP_LOOKUP_ADD_IF_NOT_FOUND ->
  nfilled (keys m) = alloc m ->
  wp (r <- mp_map_rehash avail lookup ;;
      match r with
      | inl _ => n <- gets alloc ;; ret (inl (hash_of index mod n, hash_of index mod n, None))
      | inr e => ret (inr (inr e))
      end) (fun r m' => match r with inl st => wp (loop fuel body st) Q m' | inr b => Q b m' end) m).

Lemma probe_pos i : 0 <= i -> exists e, table m !! Z.to_nat (nth_pos (alloc m) index i) = Some e.
Proof using I Hpos.
  intros Hi. apply lookup_lt_is_Some_2. pose proof (nth_pos_range (alloc m) index i Hpos). pose proof (mi_len _ I). lia.
Qed.

Lemma probe_loop fuel : forall i av, alloc m - i + F <= Z.of_nat fuel -> 0 <= F -> 0 <= i < alloc m -> visited (keys m) index i av ->
  wp (loop fuel body (nth_pos (alloc m) index i, hash_of index mod alloc m, av)) Q m.
Proof using Laws I Hpos Hcop HF HD HN HA HR.
  assert (HlK : Z.of_nat (length (keys m)) = alloc m) by (rewrite length_keys; apply I).
  induction fuel as [|fuel IH]; intros i av Hf HF0 Hi V; [lia|]. apply wp_loop_step. unfold body at 1, probe.
  pose proof (nth_pos_range (alloc m) index i Hpos) as Hr. destruct (probe_pos i ltac:(lia)) as [[x v] He].
  assert (Hx : keys m !! Z.to_nat (nth_pos (alloc m) index i) = Some x) by (apply keys_lookup; by exists v).
  pose proof (probe_null (keys m) index i av) as Hnull. pose proof (probe_next (keys m) index i av x) as Hnext.
  cbv zeta in Hnull, Hnext. rewrite HlK in Hnull, Hnext. set (p := nth_pos (alloc m) index i) in *.
  apply wp_bind, (wp_slot_at m p (Elem x v)); [done|]. simpl.
  destruct (filled x && match x with Obj a => mp_obj_equal a index | _ => false end) eqn:Efound.
  { destruct x as [| |a]; [done..|]. simpl in Efound. rewrite (Hcop (Z.to_nat p) a Hx), Efound. apply wp_bind.
    destruct kind eqn:Ek; try (apply wp_ret, wp_ret, (HF p a); done).
    apply wp_bind, wp_modify, wp_bind, wp_gets, wp_bind. change (alloc (set_used _ m)) with (alloc m).
    unfold p at 1. rewrite nth_pos_next by done. destruct (probe_pos (i + 1) ltac:(lia)) as [[y w] Hy].
    apply (wp_slot_at _ _ (Elem y w)); [exact Hy|]. apply (wp_put_slot _ _ _ (Elem (Obj a) v)); [exact He|]. simpl.
    apply wp_ret. eapply HD; [exact He|done|done|done|by destruct y|]. intros Hn. unfold p. rewrite nth_pos_next by done.
    apply keys_lookup. exists w. rewrite Hy. by destruct y. }
  assert (x = MP_OBJ_NULL \/ x <> MP_OBJ_NULL) as [->|Hn] by (destruct x; auto).
  { destruct (Hnull (mi_keys _ I) V Hi Hx) as (Habs & Hs & Hfree). destruct kind eqn:Ek; try (apply wp_ret, HN; done).
    apply wp_bind. eapply wp_mono; [by apply (HA _ Habs eq_refl Hs)|]. intros r m' Hq. by apply wp_ret. }
  destruct (Hnext (mi_keys _ I) V Hi Hx Hn ltac:(intros a ->; exact Efound)) as (V' & Hend). clear Hnext Hnull.
  set (av' := match x with MP_OBJ_SENTINEL => match av with Some a => Some a | None => Some p end | _ => av end) in *.
  assert (Hgo : forall c, c = (if (p + 1) mod alloc m =? hash_of index mod alloc m then
      match kind with
      | MP_MAP_LOOKUP_ADD_IF_NOT_FOUND =>
          match av' with
          | Some a => r <- add_at index a ;; ret (inr r)
          | None =>
              r <- mp_map_rehash avail lookup ;;
              match r with
              | inl _ => n <- gets alloc ;; ret (inl (hash_of index mod n, hash_of index mod n, None))
              | inr e => ret (inr (inr e))
              end
          end
      | _ => ret (inr (inl None))
      end
    else ret (inl ((p + 1) mod alloc m, hash_of index mod alloc m, av'))) ->
    wp c (fun r m' => match r with inl st => wp (loop fuel body st) Q m' | inr b => Q b m' end) m).
  { intros c ->. destruct (Z.eqb_spec ((p + 1) mod alloc m) (hash_of index mod alloc m)) as [Ew|Ew].
    - destruct Hend as [Habs Hav]. destruct kind eqn:Ek; try (apply wp_ret, HN; done). destruct av' as [q|].
      + apply wp_bind. eapply wp_mono; [by apply (HA q Habs eq_refl); apply Hav|]. intros r m' Hq. by apply wp_ret.
      + apply HR; [lia|done|done|done].
    - apply wp_ret. unfold p. rewrite nth_pos_next by done. apply IH; [lia|done|lia|done]. }
  destruct x as [| |a]; [done|by apply wp_bind, wp_gets, Hgo|].
  rewrite (Hcop (Z.to_nat p) a Hx). simpl in Efound. rewrite Efound. by apply wp_bind, wp_gets, Hgo.
Qed.
End Probe.

(** The probe starts at the hash value. *)
Lemma probe_start m index : 0 < alloc m ->
  (hash_of index mod alloc m, hash_of index mod alloc m, @None Z) = (nth_pos (alloc m) index 0, hash_of index mod alloc m, None).
Proof. intros. unfold nth_pos. by rewrite Z.add_0_r, Z.mod_mod by lia. Qed.

(** * When there is room *)

Lemma lookup_add_room depth m index (Q : option Z + exn obj -> mp_map_t -> Prop) : minv m -> used m < alloc m ->
  (forall p a, keys m !! Z.to_nat p = Some (Obj a) -> 0 <= p < alloc m -> mp_obj_equal a index = true -> Q (inl (Some p)) m) ->
  (forall p m', absent (keys m) index -> added m index p m' -> Q (inl (Some p)) m') ->
  wp (map_lookup avail (S depth) index MP_MAP_LOOKUP_ADD_IF_NOT_FOUND) Q m.
Proof using Laws.
  intros I Hroom HF HA. pose proof (nfilled_bound (keys m)) as Hb. pose proof (mi_used _ I) as Hu. destruct (mi_plain _ I) as [Ef Eo].
  pose proof (mi_small _ I) as Hsm. simpl. apply wp_bind, wp_gets. rewrite Ef. apply wp_bind, wp_assert; [done|]. apply wp_bind, wp_gets.
  rewrite andb_false_r. apply wp_bind, wp_gets. rewrite Eo. apply wp_bind, wp_gets. rewrite andb_false_r.
  destruct (Z.eqb_spec (alloc m) 0); [lia|]. apply wp_bind, wp_ret, wp_bind, wp_gets, wp_bind, wp_gets. fold (only_ptrs m index).
  rewrite probe_start by lia.
  pose proof (get_hash_alloc_ge (alloc m + 1) ltac:(lia)).
  apply (probe_loop _ index _ m I ltac:(lia) (only_ptrs m index) (fun p a => same_key_equal m index p a I) Q 0).
  - intros p a Hp Hr Ha _. by eapply HF.
  - done.
  - done.
  - intros p Ha _ Hs Hfr. apply wp_add_at; try done. intros m' A. by apply HA.
  - intros fuel _ _ _ Hfull. lia.
  - unfold probe_fuel. lia.
  - done.
  - lia.
  - apply visited_0.
Qed.

(** * Growth *)

Record grown m m' : Prop := {
  g_inv : minv m';
  g_alloc : alloc m < alloc m';
  g_alloc' : alloc m' = get_hash_alloc_greater_or_equal_to (alloc m + 1);
  g_used : used m' = used m;
  g_same : same_entries m m'
}.

Context (Havail : forall n, avail n = true -> n < 2 ^ 29).

Lemma wp_mp_map_rehash depth m (Q : unit + exn obj -> mp_map_t -> Prop) : minv m ->
  (avail (get_hash_alloc_greater_or_equal_to (alloc m + 1)) = false -> Q (inr MemoryError) m) ->
  (forall m', grown m m' -> Q (inl tt) m') ->
  wp (mp_map_rehash avail (map_lookup avail (S depth))) Q m.
Proof using Laws Havail.
  intros I HE HQ. unfold mp_map_rehash. apply wp_bind, wp_gets, wp_bind, wp_gets.
  set (N := get_hash_alloc_greater_or_equal_to (alloc m + 1)) in *.
  pose proof (mi_small _ I) as Hsm. pose proof (mi_len _ I) as Hlen. pose proof (get_hash_alloc_ge (alloc m + 1) ltac:(lia)) as HN.
  fold N in HN. destruct (avail N) eqn:Eav; [|apply wp_ret, HE; done]. pose proof (Havail N Eav) as HN29.
  apply wp_bind, wp_modify. destruct (mi_plain _ I) as [-> ->]. fold (empty_map N true).
  pose proof (minv_empty N true ltac:(lia)) as I0.
  eapply wp_mono.
  - pose proof (reinsert_spec (map_lookup avail (S depth)) (table m) N (mi_keys _ I)) as Hre.
    apply (Hre ltac:(pose proof (nfilled_bound (keys m)); rewrite length_keys in *; fold (keys m); lia)) with (n := 0%nat); try done; [|lia|].
    + intros m1 index Q1 I1 Ea Hu Ha HQ1. apply lookup_add_room; [done|lia| |auto].
      intros p a Hp _ E. rewrite (Ha _ _ Hp) in E. done.
    + intros a v. split; [|intros (i & Hi & _); lia]. intros [p Hp]. by apply empty_entry in Hp.
  - intros r m' (-> & I' & Ea & Eu & He). apply HQ. split; [done|lia|done|by rewrite Eu, (mi_used _ I)|].
    intros a v. rewrite He. unfold entry, entry_upto. split; [intros (i & _ & ?); by exists i|]. intros [i Hi]. exists i.
    split; [by eapply lookup_lt_Some|done].
Qed.
(** * mp_map_lookup *)

Lemma empty_absent m index : minv m -> alloc m = 0 -> absent (keys m) index.
Proof.
  intros I E p a Hp. apply lookup_lt_Some in Hp. rewrite length_keys in Hp. pose proof (mi_len _ I). lia.
Qed.

(** The key was at [p], which is now free. *)
Record removed m (p : Z) a (v : mp_obj_t) m' : Prop := {
  e_inv : minv m';
  e_old : table m !! Z.to_nat p = Some (Elem (Obj a) v);
  e_new : exists x, filled x = false /\ table m' = <[Z.to_nat p := Elem x v]> (table m);
  e_used : used m' = used m - 1
}.

Lemma removed_intro m p a v x : minv m -> table m !! Z.to_nat p = Some (Elem (Obj a) v) -> 0 <= p < alloc m -> filled x = false ->
  (x = MP_OBJ_NULL -> keys m !! Z.to_nat ((p + 1) mod alloc m) = Some MP_OBJ_NULL) ->
  removed m p a v (set_table (<[Z.to_nat p := Elem x v]>) (set_used (fun u => u - 1) m)).
Proof using Laws.
  intros I Hp Hr Hf Hn. set (m' := set_table _ _).
  assert (Hk : keys m !! Z.to_nat p = Some (Obj a)) by (apply keys_lookup; by exists v).
  assert (Hk' : keys m' = <[Z.to_nat p := x]> (keys m)) by (unfold m'; by rewrite keys_put).
  split; [|done|by exists x|done]. destruct I as [Il Is Iu Ik Iq Ip]. split; try done.
  - unfold m'. simpl. by rewrite length_insert.
  - rewrite Hk', (nfilled_insert _ _ (Obj a)) by done. rewrite Hf. simpl. lia.
  - rewrite Hk'. eapply kinv_remove; [done|done|done|]. intros E. rewrite length_keys, Il, Z2Nat.id by lia. by apply Hn.
  - intros Eq q b. rewrite Hk'. intros [(<- & -> & _)|[_ Hq]]%list_lookup_insert_Some; [done|]. by apply (Iq Eq q).
Qed.

Lemma wp_mp_map_lookup m index kind (Q : option Z + exn obj -> mp_map_t -> Prop) : minv m -> kind <> MP_MAP_LOOKUP_ADD_IF_NOT_FOUND ->
  (forall p a, keys m !! Z.to_nat p = Some (Obj a) -> 0 <= p < alloc m -> mp_obj_equal a index = true ->
     kind <> MP_MAP_LOOKUP_REMOVE_IF_FOUND -> Q (inl (Some p)) m) ->
  (forall p a v m', removed m p a v m' -> 0 <= p < alloc m -> mp_obj_equal a index = true ->
     kind = MP_MAP_LOOKUP_REMOVE_IF_FOUND -> Q (inl (Some p)) m') ->
  (absent (keys m) index -> Q (inl None) m) ->
  wp (mp_map_lookup avail index kind) Q m.
Proof using Laws.
  intros I Hk HF HD HN. destruct (mi_plain _ I) as [Ef Eo]. pose proof (mi_small _ I) as Hsm. pose proof (mi_len _ I).
  assert (Ek : match kind with MP_MAP_LOOKUP_ADD_IF_NOT_FOUND => false | _ => true end = true) by (by destruct kind).
  unfold mp_map_lookup. cbn [map_lookup]. apply wp_bind, wp_gets. rewrite Ef. apply wp_bind, wp_assert; [done|]. apply wp_bind, wp_gets.
  rewrite Ek, !andb_true_r. destruct (all_keys_are_qstrs m && negb (mp_obj_is_qstr index) && negb (mp_obj_is_str index)) eqn:Eq.
  { apply wp_ret, HN. apply andb_true_iff in Eq as [[? ?]%andb_true_iff ?].
    apply not_string_absent; [done|done|by apply negb_true_iff|by apply negb_true_iff]. }
  apply wp_bind, wp_gets. rewrite Eo. apply wp_bind, wp_gets. destruct (Z.eqb_spec (alloc m) 0) as [E|E]; simpl.
  { apply wp_ret, HN. by apply empty_absent. }
  apply wp_bind, wp_ret, wp_bind, wp_gets, wp_bind, wp_gets. fold (only_ptrs m index). rewrite probe_start by lia.
  pose proof (get_hash_alloc_ge (alloc m + 1) ltac:(lia)). apply (probe_loop _ index kind m I ltac:(lia) (only_ptrs m index) (fun p a => same_key_equal m index p a I) Q 0).
  - intros p a Hp Hr Ha Hkd. by apply (HF p a).
  - intros p a v x Hp Hr Ha Hkd Hf Hn. eapply HD; [by apply removed_intro|done|done|done].
  - intros Ha _. by apply HN.
  - intros p _ E'. done.
  - intros fuel _ _ E'. done.
  - unfold probe_fuel. lia.
  - done.
  - lia.
  - apply visited_0.
Qed.

(** The index has been added at [p], if need be after the table has grown. *)
Record inserted m index (p : Z) m' : Prop := {
  n_inv : minv m';
  n_absent : absent (keys m) index;
  n_slot : 0 <= p < alloc m' /\ table m' !! Z.to_nat p = Some (Elem (Obj index) MP_OBJ_NULL);
  n_used : used m' = used m + 1;
  n_entry : forall v a w, entry (set_table (<[Z.to_nat p := Elem (Obj index) v]>) m') a w <-> (a = index /\ w = v) \/ entry m a w;
  n_set : forall v, minv (set_table (<[Z.to_nat p := Elem (Obj index) v]>) m')
}.

Lemma added_inserted m m1 index p m' : minv m1 -> same_entries m m1 -> used m1 = used m -> absent (keys m1) index ->
  added m1 index p m' -> inserted m index p m'.
Proof.
  intros I1 Hs Eu Ha A. pose proof (d_range _ _ _ _ A). split; [apply A| | |rewrite (d_used _ _ _ _ A); lia| |].
  - rewrite absent_entry in *. intros a v He. apply (Ha a v). by apply Hs.
  - split; [by rewrite (d_alloc _ _ _ _ A)|]. by apply (added_value m1 index p m' MP_OBJ_NULL I1 A).
  - intros v a w. destruct (added_value m1 index p m' v I1 A) as (_ & _ & He). rewrite He, (Hs a w : _ <-> _). done.
  - intros v. by apply (added_value m1 index p m' v I1 A).
Qed.

Lemma wp_mp_map_add m index (Q : option Z + exn obj -> mp_map_t -> Prop) : minv m ->
  (forall p a, keys m !! Z.to_nat p = Some (Obj a) -> 0 <= p < alloc m -> mp_obj_equal a index = true -> Q (inl (Some p)) m) ->
  (forall p m', inserted m index p m' -> Q (inl (Some p)) m') ->
  (absent (keys m) index -> used m = alloc m -> avail (get_hash_alloc_greater_or_equal_to (alloc m + 1)) = false -> Q (inr MemoryError) m) ->
  wp (mp_map_lookup avail index MP_MAP_LOOKUP_ADD_IF_NOT_FOUND) Q m.
Proof using Laws Havail.
  intros I HF HA HE. destruct (mi_plain _ I) as [Ef Eo]. pose proof (mi_small _ I) as Hsm. pose proof (mi_len _ I) as Hlen.
  pose proof (mi_used _ I) as Hu. pose proof (nfilled_bound (keys m)) as Hb. rewrite length_keys, Hlen in Hb.
  destruct (decide (used m < alloc m)) as [Hroom|Hroom].
  { apply lookup_add_room; [done|done|done|]. intros p m' Ha A. apply HA. by apply (added_inserted m m index p m'). }
  pose proof (get_hash_alloc_ge (alloc m + 1) ltac:(lia)) as HN.
  assert (Hloop : forall fuel m1, grown m m1 -> absent (keys m) index -> alloc m1 <= Z.of_nat fuel ->
    wp (loop fuel (probe avail (map_lookup avail 1) index MP_MAP_LOOKUP_ADD_IF_NOT_FOUND (only_ptrs m index) (hash_of index))
          (hash_of index mod alloc m1, hash_of index mod alloc m1, None)) Q m1).
  { intros fuel m1 G Ha Hf. pose proof (g_inv _ _ G) as I1. pose proof (g_alloc _ _ G). pose proof (g_used _ _ G).
    assert (Ha1 : absent (keys m1) index).
    { rewrite absent_entry in *. intros a v He. apply (Ha a v). by apply (g_same _ _ G). }
    rewrite probe_start by lia. apply (probe_loop _ index _ m1 I1 ltac:(lia) (only_ptrs m index)) with (Q := Q) (F := 0).
    - intros p a Hp. apply keys_lookup in Hp as [v Hv]. destruct (proj1 (g_same _ _ G a v)) as [q Hq]; [by exists p|].
      apply (same_key_equal m index q a I). apply keys_lookup. by exists v.
    - intros p a Hp _ E. by rewrite (Ha1 _ _ Hp) in E.
    - done.
    - done.
    - intros p _ _ Hs Hfr. apply wp_add_at; [done..|]. intros m' A. apply HA. by apply (added_inserted m m1 index p m'); [..|apply G|apply G| |].
    - intros fuel' _ _ _ Hfull. pose proof (mi_used _ I1). lia.
    - lia.
    - done.
    - lia.
    - apply visited_0. }
  unfold mp_map_lookup. cbn [map_lookup]. apply wp_bind, wp_gets. rewrite Ef. apply wp_bind, wp_assert; [done|]. apply wp_bind, wp_gets.
  rewrite andb_false_r. apply wp_bind, wp_gets. rewrite Eo. apply wp_bind, wp_gets. rewrite andb_false_r. fold (only_ptrs m index). apply wp_bind.
  destruct (Z.eqb_spec (alloc m) 0) as [E0|E0].
  - pose proof (empty_absent m index I E0) as Ha. apply (wp_mp_map_rehash 0 m); [done|intros Hav; apply wp_ret, HE; [done|lia|done]|].
    intros m1 G. apply wp_bind, wp_gets, wp_bind, wp_gets. apply Hloop; [done|done|]. unfold probe_fuel.
    pose proof (mi_small _ (g_inv _ _ G)). pose proof (g_alloc _ _ G). pose proof (get_hash_alloc_ge (alloc m1 + 1) ltac:(lia)). lia.
  - apply wp_ret, wp_bind, wp_gets, wp_bind, wp_gets. rewrite probe_start by lia.
    apply (probe_loop _ index _ m I ltac:(lia) (only_ptrs m index) (fun p a => same_key_equal m index p a I) Q
      (get_hash_alloc_greater_or_equal_to (alloc m + 1))).
    + intros p a Hp Hr Ha _. by eapply HF.
    + done.
    + done.
    + intros p Ha _ Hs Hfr. apply wp_add_at; try done. intros m' A. apply HA. by apply (added_inserted m m index p m').
    + intros fuel Hf Ha _ Hfull. apply wp_bind, (wp_mp_map_rehash 0 m); [done|intros Hav; apply wp_ret, HE; [done|lia|done]|].
      intros m1 G. apply wp_bind, wp_gets, wp_ret. apply Hloop; [done|done|]. by rewrite (g_alloc' _ _ G).
    + unfold probe_fuel. lia.
    + lia.
    + lia.
    + apply visited_0.
Qed.

(** * Constant tables *)

(** The first entry whose key is equal to the index. *)
Definition first_entry (T : list (@mp_map_elem_t obj)) index (r : option Z) : Prop :=
  match r with
  | Some p => 0 <= p /\ (exists a v, T !! Z.to_nat p = Some (Elem (Obj a) v) /\ mp_obj_equal a index = true) /\
      forall q a v, Z.of_nat q < p -> T !! q = Some (Elem (Obj a) v) -> mp_obj_equal a index = false
  | None => forall q a v, T !! q = Some (Elem (Obj a) v) -> mp_obj_equal a index = false
  end.

Lemma wp_search m index cop : Z.of_nat (length (table m)) = used m ->
  (forall p x v, table m !! p = Some (Elem x v) -> exists a, x = Obj a /\ same_key cop index a = mp_obj_equal a index) ->
  wp (search index cop (Z.to_nat (used m)) 0) (fun r m' => m' = m /\ first_entry (table m) index r) m.
Proof.
  intros Hlen Hk.
  assert (Hgo : forall n i, 0 <= i -> Z.of_nat n = used m - i ->
    (forall q a v, Z.of_nat q < i -> table m !! q = Some (Elem (Obj a) v) -> mp_obj_equal a index = false) ->
    wp (search index cop n i) (fun r m' => m' = m /\ first_entry (table m) index r) m).
  { induction n as [|n IH]; intros i Hi Hn Hno; simpl.
    - apply wp_ret. split; [done|]. intros q a v Hq. apply (Hno q a v); [|done]. apply lookup_lt_Some in Hq. lia.
    - destruct (lookup_lt_is_Some_2 (table m) (Z.to_nat i)) as [[x v] Hs]; [lia|]. destruct (Hk _ _ _ Hs) as (a & -> & Ea).
      apply wp_bind, (wp_slot_at m i _ _ Hs). simpl. rewrite Ea. destruct (mp_obj_equal a index) eqn:E.
      + apply wp_ret. split; [done|]. split; [done|]. split; [by exists a, v|]. intros q b w Hq. by apply Hno.
      + apply IH; [lia|lia|]. intros q b w Hq Hb. destruct (decide (Z.of_nat q < i)); [by apply (Hno q b w)|].
        replace q with (Z.to_nat i) in Hb by lia. congruence. }
  apply Hgo; [lia|lia|lia].
Qed.

(** A constant table of interned names, as modules and types have them, is searched from
    its beginning. *)
Lemma wp_fixed_lookup n T index m : Z.of_nat (length T) = n ->
  (forall p x v, T !! p = Some (Elem x v) -> exists a, x = Obj a /\ mp_obj_is_qstr a = true) ->
  wp (mp_map_init_fixed_table n T ;; mp_map_lookup avail index MP_MAP_LOOKUP)
    (fun r m' => table m' = T /\ exists p, r = inl p /\ first_entry T index p) m.
Proof using Laws.
  intros Hlen Hk. apply wp_bind, wp_modify. set (m1 := Map true true true n n T).
  unfold mp_map_lookup. cbn [map_lookup]. apply wp_bind, wp_gets, wp_bind, wp_assert; [done|]. apply wp_bind, wp_gets. cbn [all_keys_are_qstrs m1].
  assert (Heq : forall a, mp_obj_is_qstr a = true -> mp_obj_is_qstr index || mp_obj_is_str index = true ->
    same_key (mp_obj_is_qstr index || negb (mp_obj_is_str index)) index a = mp_obj_equal a index).
  { intros a Ha Hi. unfold same_key. destruct (bool_decide_reflect (a = index)) as [->|Hne]; [by rewrite equal_refl|]. simpl.
    destruct (mp_obj_equal a index) eqn:E; [|by rewrite andb_false_r].
    destruct (mp_obj_is_qstr index) eqn:Ei; [by destruct Hne; apply equal_qstr|]. simpl in *. by rewrite Hi. }
  destruct (mp_obj_is_qstr index || mp_obj_is_str index) eqn:Ei.
  - rewrite (proj2 (andb_false_iff _ _)) by (left; destruct (mp_obj_is_qstr index), (mp_obj_is_str index); simpl; auto).
    apply wp_bind, wp_gets, wp_bind, wp_gets, wp_bind. eapply wp_mono; [apply (wp_search m1); [done|]|].
    + intros p x v Hp. destruct (Hk p x v Hp) as (a & -> & Ha). exists a. split; [done|]. by apply Heq.
    + intros r m' [-> Hr]. apply wp_ret. split; [done|]. by exists r.
  - apply orb_false_iff in Ei as [E1 E2]. rewrite E1, E2. apply wp_ret. split; [done|]. exists None. split; [done|].
    intros q a v Hq. destruct (Hk _ _ _ Hq) as (b & [= <-] & Hb). destruct (mp_obj_equal a index) eqn:E; [|done].
    destruct (equal_str a index Hb E); congruence.
Qed.
End MapLookup.
