(* ===== verification/Dict.v ===== *)
(** Dict: the operations of Python dictionaries implement operations on a list of
    keys and values. *)

From stdpp Require Import options.
From S2P Require Import Prelude Map MapInv MapOps.

#[local] Ltac Zify.zify_post_hook ::= Z.to_euclidean_division_equations.

(** * Dictionaries as lists *)

Section Assoc.
Context {obj : Type} `{Laws : MpObjLaws obj}.
Implicit Types (L : list (obj * obj)) (k a v : obj).

Definition assoc k L : option obj := snd <$> List.find (fun x => mp_obj_equal (fst x) k) L.

(** The value of an existing key is replaced, but not the key itself. *)
Definition upsert k v L : list (obj * obj) :=
  match assoc k L with
  | Some _ => (fun x => if mp_obj_equal (fst x) k then (fst x, v) else x) <$> L
  | None => L ++ [(k, v)]
  end.

Definition remove k L : list (obj * obj) := List.filter (fun x => negb (mp_obj_equal (fst x) k)) L.

Fixpoint distinct L : Prop :=
  match L with [] => True | x :: L => (forall y, y ∈ L -> mp_obj_equal (fst x) (fst y) = false) /\ distinct L end.

Lemma assoc_None k L : assoc k L = None <-> forall x, x ∈ L -> mp_obj_equal (fst x) k = false.
Proof.
  unfold assoc. destruct (List.find _ L) as [x|] eqn:E; simpl; split; try done.
  - intros Hn. apply find_some in E as [Hin Hx]. rewrite Hn in Hx; [done|by apply list_elem_of_In].
  - intros _ x Hx. eapply find_none in E; [exact E|by apply list_elem_of_In].
Qed.

Lemma assoc_cons k x L : assoc k (x :: L) = if mp_obj_equal (fst x) k then Some (snd x) else assoc k L.
Proof. unfold assoc. simpl. by destruct (mp_obj_equal (fst x) k). Qed.

Lemma assoc_Some k L v : distinct L -> assoc k L = Some v <-> exists a, (a, v) ∈ L /\ mp_obj_equal a k = true.
Proof using Laws.
  induction L as [|[b w] L IH]; simpl.
  - intros _. split; [done|]. by intros (a & Ha%not_elem_of_nil & _).
  - intros [Hb D]. rewrite assoc_cons. simpl. destruct (mp_obj_equal b k) eqn:E.
    + split; [intros [= ->]; exists b; split; [left|done]|]. intros (a & [[= -> ->]|Hin]%elem_of_cons & Ha); [done|].
      exfalso. specialize (Hb (a, v) Hin). simpl in Hb. rewrite (equal_trans b k a) in Hb; [done|done|by rewrite equal_sym].
    + rewrite IH by done. split; intros (a & Hin & Ha); exists a; (split; [|done]); [by right|].
      apply elem_of_cons in Hin as [[= -> ->]|?]; [congruence|done].
Qed.

Lemma distinct_app k v L : distinct L -> assoc k L = None -> distinct (L ++ [(k, v)]).
Proof.
  rewrite assoc_None. induction L as [|x L IH]; simpl; [intros _ _; split; [|done]; by intros y ?%not_elem_of_nil|].
  intros [Hx D] Ha. split; [|apply IH; [done|]; intros y Hy; apply Ha; by right].
  intros y [Hy|Hy]%elem_of_app; [by apply Hx|]. apply list_elem_of_singleton in Hy as ->. apply Ha. left.
Qed.

Lemma distinct_map f L : (forall x, fst (f x) = fst x) -> distinct L -> distinct (f <$> L).
Proof.
  intros Hf. induction L as [|x L IH]; simpl; [done|]. intros [Hx D]. split; [|by apply IH].
  intros y (z & -> & Hz)%list_elem_of_fmap. rewrite !Hf. by apply Hx.
Qed.

Lemma elem_of_remove k L x : x ∈ remove k L <-> x ∈ L /\ mp_obj_equal (fst x) k = false.
Proof. unfold remove. rewrite !list_elem_of_In, filter_In, negb_true_iff. done. Qed.

Lemma distinct_remove k L : distinct L -> distinct (remove k L).
Proof.
  induction L as [|x L IH]; simpl; [done|]. intros [Hx D]. destruct (mp_obj_equal (fst x) k); simpl; [by apply IH|].
  split; [|by apply IH]. intros y [Hy _]%elem_of_remove. by apply Hx.
Qed.

Lemma remove_absent k L : (forall x, x ∈ L -> mp_obj_equal (fst x) k = false) -> remove k L = L.
Proof.
  induction L as [|x L IH]; simpl; [done|]. intros Ha. rewrite (Ha x) by left. simpl. f_equal. apply IH. intros y Hy. apply Ha. by right.
Qed.

Lemma length_remove k L a v : distinct L -> (a, v) ∈ L -> mp_obj_equal a k = true -> S (length (remove k L)) = length L.
Proof using Laws.
  induction L as [|[b w] L IH]; simpl; [by intros _ ?%not_elem_of_nil|]. intros [Hb D] Hin Ha.
  destruct (mp_obj_equal b k) eqn:E; simpl.
  - f_equal. fold (remove k L). rewrite remove_absent; [done|]. intros y Hy. specialize (Hb y Hy). simpl in Hb.
    destruct (mp_obj_equal (fst y) k) eqn:Ey; [|done]. rewrite (equal_trans b k (fst y)) in Hb; [done|done|by rewrite equal_sym].
  - f_equal. apply IH; [done| |done]. apply elem_of_cons in Hin as [[= -> ->]|?]; [congruence|done].
Qed.

Lemma elem_of_update k v L x : x ∈ ((fun x => if mp_obj_equal (fst x) k then (fst x, v) else x) <$> L) <->
  (mp_obj_equal (fst x) k = true /\ snd x = v /\ exists w, (fst x, w) ∈ L) \/ (mp_obj_equal (fst x) k = false /\ x ∈ L).
Proof.
  rewrite list_elem_of_fmap. split.
  - intros ([a w] & -> & Hin). simpl. destruct (mp_obj_equal a k) eqn:E; [left|right]; simpl; [|done].
    split; [done|]. split; [done|by exists w].
  - intros [(E & <- & w & Hin)|[E Hin]]; [exists (fst x, w)|exists x]; simpl; rewrite E; (split; [by destruct x|done]).
Qed.

(** * A map holds a list *)

(** The values are objects, so that a value of [MP_OBJ_NULL] means a new entry. *)
Record holds (m : @mp_map_t obj) L : Prop := {
  h_inv : minv m;
  h_entry : forall a x, entry m a x <-> exists v, x = Obj v /\ (a, v) ∈ L;
  h_distinct : distinct L;
  h_len : used m = Z.of_nat (length L)
}.

Lemma holds_absent m L k : holds m L -> absent (keys m) k <-> assoc k L = None.
Proof.
  intros R. rewrite absent_entry, assoc_None. split.
  - intros Ha [a v] Hin. apply (Ha a (Obj v)). apply (h_entry _ _ R). by exists v.
  - intros Ha a x (v & _ & Hin)%(h_entry _ _ R). by apply (Ha (a, v)).
Qed.

Lemma holds_slot m L p a x k : holds m L -> table m !! p = Some (Elem (Obj a) x) -> mp_obj_equal a k = true ->
  exists v, x = Obj v /\ (a, v) ∈ L /\ assoc k L = Some v.
Proof using Laws.
  intros R Hp E. destruct (proj1 (h_entry _ _ R a x)) as (v & -> & Hin); [by exists p|]. exists v. split; [done|]. split; [done|].
  apply (assoc_Some k L v (h_distinct _ _ R)). by exists a.
Qed.

(** The slot of a key that is found. *)
Lemma found_slot m L p a k : holds m L -> keys m !! p = Some (Obj a) -> mp_obj_equal a k = true ->
  exists v, table m !! p = Some (Elem (Obj a) (Obj v)) /\ (a, v) ∈ L /\ assoc k L = Some v.
Proof using Laws.
  intros R Hp E. apply keys_lookup in Hp as [x Hx]. destruct (holds_slot m L p a x k R Hx E) as (v & -> & ? & ?). by exists v.
Qed.

(** ** Changes *)

Lemma minv_value m p e : minv m -> keys m !! p = Some (key e) -> minv (set_table (<[p := e]>) m).
Proof.
  intros I Hp. assert (Hk : keys (set_table (<[p := e]>) m) = keys m) by (rewrite keys_put; by apply list_insert_id).
  destruct I. split; try rewrite Hk; try done. simpl. by rewrite length_insert.
Qed.

Lemma holds_insert m L k p m' v : holds m L -> inserted m k p m' ->
  holds (set_table (<[Z.to_nat p := Elem (Obj k) (Obj v)]>) m') (upsert k v L).
Proof.
  intros R A. pose proof (n_absent _ _ _ _ A) as Ha. apply (holds_absent m L k R) in Ha. unfold upsert. rewrite Ha.
  split; [apply A| |by apply distinct_app; [apply R|]|simpl; rewrite (n_used _ _ _ _ A), (h_len _ _ R), length_app; simpl; lia].
  intros a x. rewrite (n_entry _ _ _ _ A), (h_entry _ _ R). split.
  - intros [[-> ->]|(w & -> & Hin)]; [exists v|exists w]; (split; [done|]); apply elem_of_app; [right; left|by left].
  - intros (w & -> & [Hin|Hin]%elem_of_app); [right; by exists w|left]. apply list_elem_of_singleton in Hin. by injection Hin as -> ->.
Qed.

(** A slot with the key [a] is overwritten: the other entries are those with
    other keys. *)
Lemma entry_overwrite m p a y e b x : minv m -> table m !! p = Some (Elem (Obj a) y) ->
  entry (set_table (<[p := e]>) m) b x <-> e = Elem (Obj b) x \/ (entry m b x /\ mp_obj_equal b a = false).
Proof using Laws.
  intros I Hp. assert (Ha : keys m !! p = Some (Obj a)) by (apply keys_lookup; by exists y).
  assert (Hu : forall q, table m !! q = Some (Elem (Obj b) x) -> mp_obj_equal b a = true -> q = p).
  { intros q Hq E. apply (k_unique _ (mi_keys _ I) q p b a); [apply keys_lookup; by exists x|done|done]. }
  unfold entry. simpl. split.
  - intros (q & [(<- & -> & _)|[Hne Hq]]%list_lookup_insert_Some); [by left|right]. split; [by exists q|].
    destruct (mp_obj_equal b a) eqn:E; [|done]. by destruct Hne; rewrite (Hu q Hq eq_refl).
  - intros [-> |[[q Hq] Hk]].
    + exists p. apply list_lookup_insert_eq. by eapply lookup_lt_Some.
    + exists q. rewrite list_lookup_insert_ne; [done|]. intros <-. rewrite Hp in Hq. injection Hq as -> _. by rewrite equal_refl in Hk.
Qed.

Lemma holds_update m L p a w k v : holds m L -> table m !! p = Some (Elem (Obj a) (Obj w)) -> mp_obj_equal a k = true ->
  holds (set_table (<[p := Elem (Obj a) (Obj v)]>) m) (upsert k v L).
Proof using Laws.
  intros R Hp E. destruct (holds_slot m L p a _ k R Hp E) as (w' & [= <-] & Hin & Has). unfold upsert. rewrite Has.
  split; [apply minv_value; [apply R|]; apply keys_lookup; by eexists| |apply distinct_map; [|apply R]; intros x; cbv beta; by destruct (mp_obj_equal (fst x) k)|
    simpl; rewrite (h_len _ _ R), length_fmap; done].
  intros b x. rewrite (entry_overwrite m p a (Obj w)) by (done || apply R). rewrite (h_entry _ _ R). setoid_rewrite elem_of_update. simpl.
  assert (Hbk : forall b, mp_obj_equal b a = mp_obj_equal b k).
  { intros c. destruct (mp_obj_equal c a) eqn:E1; [symmetry; by eapply equal_trans|].
    destruct (mp_obj_equal c k) eqn:E2; [|done]. rewrite (equal_trans c k a) in E1; [done|done|by rewrite equal_sym]. }
  rewrite Hbk. split.
  - intros [[= -> <-]|[(u & -> & Hu) Hne]].
    + exists v. split; [done|left]. split; [done|]. split; [done|by exists w].
    + exists u. split; [done|right]. done.
  - intros (u & -> & [(Eb & -> & y & Hy)|[Hne Hu]]); [left|right; split; [by exists u|done]].
    destruct (proj2 (h_entry _ _ R b (Obj y))) as [q Hq]; [by exists y|].
    assert (q = p) as ->; [|rewrite Hp in Hq; by injection Hq as -> _].
    apply (k_unique _ (mi_keys _ (h_inv _ _ R)) q p b a); [apply keys_lookup; by eexists..|by rewrite Hbk].
Qed.

Lemma equal_swap a b k : mp_obj_equal a k = true -> mp_obj_equal b a = mp_obj_equal b k.
Proof using Laws.
  intros E. destruct (mp_obj_equal b a) eqn:E1; [symmetry; by eapply equal_trans|].
  destruct (mp_obj_equal b k) eqn:E2; [|done]. rewrite (equal_trans b k a) in E1; [done|done|by rewrite equal_sym].
Qed.

Lemma holds_drop m L p a y k m' e : holds m L -> table m !! p = Some (Elem (Obj a) y) -> mp_obj_equal a k = true ->
  minv m' -> table m' = <[p := e]> (table m) -> filled (key e) = false -> used m' = used m - 1 -> holds m' (remove k L).
Proof using Laws.
  intros R Hp E I' Et Hf Hu. destruct (holds_slot m L p a _ k R Hp E) as (w & -> & Hin & _).
  split; [done| |apply distinct_remove, R|].
  - intros b x. assert (He : entry m' b x <-> entry (set_table (<[p := e]>) m) b x) by (unfold entry; by rewrite Et).
    rewrite He, (entry_overwrite m p a (Obj w)) by (done || apply R). rewrite (h_entry _ _ R). setoid_rewrite elem_of_remove. simpl.
    rewrite (equal_swap a b k) by done. split.
    + intros [-> |[(u & -> & Hu') Hne]]; [done|]. by exists u.
    + intros (u & -> & Hu' & Hne). right. split; [by exists u|done].
  - pose proof (length_remove k L a w (h_distinct _ _ R) Hin E). rewrite Hu, (h_len _ _ R). lia.
Qed.

(** * The operations *)

Context (avail : Z -> bool) (Havail : forall n, avail n = true -> n < 2 ^ 29) (none : obj).

(** The operations of a dictionary; [None] as a default is an argument that is not
    given. *)
Inductive dict_op :=
  | Get (k : obj)
  | GetDefault (k : obj) (d : option obj)
  | Store (k v : obj)
  | Delete (k : obj)
  | Pop (k : obj) (d : option obj)
  | SetDefault (k : obj) (d : option obj)
  | PopItem
  | Clear
  | Len
  | Contains (k : obj).

Inductive dict_out :=
  | Value (x : @mp_obj_t obj)
  | Item (k v : @mp_obj_t obj)
  | Number (n : Z)
  | Truth (b : bool)
  | Done
  | Raised (e : exn obj).

Definition outcome {A} (f : A -> dict_out) (r : A + exn obj) : dict_out := match r with inl a => f a | inr e => Raised e end.

Definition exec (op : dict_op) : M (@mp_map_t obj) dict_out :=
  match op with
  | Get k => r <- mp_obj_dict_get avail k ;; ret (outcome Value r)
  | GetDefault k d => r <- dict_get_helper avail k d MP_MAP_LOOKUP none ;; ret (outcome Value r)
  | Store k v => r <- mp_obj_dict_store avail k v ;; ret (outcome (fun _ => Done) r)
  | Delete k => r <- mp_obj_dict_delete avail k none ;; ret (outcome (fun _ => Done) r)
  | Pop k d => r <- dict_get_helper avail k d MP_MAP_LOOKUP_REMOVE_IF_FOUND none ;; ret (outcome Value r)
  | SetDefault k d => r <- dict_get_helper avail k d MP_MAP_LOOKUP_ADD_IF_NOT_FOUND none ;; ret (outcome Value r)
  | PopItem => r <- dict_popitem ;; ret (outcome (fun x => Item (fst x) (snd x)) r)
  | Clear => r <- dict_clear ;; ret (outcome (fun _ => Done) r)
  | Len => n <- mp_obj_dict_len ;; ret (Number n)
  | Contains k => r <- dict_contains avail k ;; ret (outcome Truth r)
  end.

(** A dictionary that gets one more entry may need a table of this size. *)
Definition no_memory (L : list (obj * obj)) : Prop :=
  avail (get_hash_alloc_greater_or_equal_to (Z.of_nat (length L) + 1)) = false.

(** What the operation does to a list of keys and values.  Adding a key can fail
    only for lack of memory, and then nothing has changed. *)
Definition spec (op : dict_op) (L : list (obj * obj)) (r : dict_out) (L' : list (obj * obj)) : Prop :=
  match op with
  | Get k => L' = L /\ r = match assoc k L with Some v => Value (Obj v) | None => Raised (KeyError (Some k)) end
  | GetDefault k d => L' = L /\ r = Value (Obj (default (default none d) (assoc k L)))
  | Store k v => (r = Done /\ L' = upsert k v L) \/ (r = Raised MemoryError /\ L' = L /\ assoc k L = None /\ no_memory L)
  | Delete k =>
      match assoc k L with
      | Some _ => r = Done /\ L' = remove k L
      | None => r = Raised (KeyError (Some k)) /\ L' = L
      end
  | Pop k d =>
      match assoc k L, d with
      | Some v, _ => r = Value (Obj v) /\ L' = remove k L
      | None, Some d => r = Value (Obj d) /\ L' = L
      | None, None => r = Raised (KeyError (Some k)) /\ L' = L
      end
  | SetDefault k d =>
      match assoc k L with
      | Some v => r = Value (Obj v) /\ L' = L
      | None => (r = Value (Obj (default none d)) /\ L' = upsert k (default none d) L) \/ (r = Raised MemoryError /\ L' = L /\ no_memory L)
      end
  | PopItem => (exists k v, (k, v) ∈ L /\ r = Item (Obj k) (Obj v) /\ L' = remove k L) \/ (L = [] /\ r = Raised (KeyError None) /\ L' = L)
  | Clear => r = Done /\ L' = []
  | Len => r = Number (Z.of_nat (length L)) /\ L' = L
  | Contains k => r = Truth (bool_decide (is_Some (assoc k L))) /\ L' = L
  end.

Definition ok (op : dict_op) (L : list (obj * obj)) (r : dict_out) (m' : @mp_map_t obj) : Prop :=
  exists L', spec op L r L' /\ holds m' L'.

(** A plain lookup. *)
Lemma wp_dict_find m L k (Q : option Z + exn obj -> mp_map_t -> Prop) : holds m L ->
  (forall p a v, table m !! Z.to_nat p = Some (Elem (Obj a) (Obj v)) -> assoc k L = Some v -> Q (inl (Some p)) m) ->
  (assoc k L = None -> Q (inl None) m) -> wp (mp_map_lookup avail k MP_MAP_LOOKUP) Q m.
Proof using Laws.
  intros R HF HN. apply (wp_mp_map_lookup avail m k); [apply R|done| |done|].
  - intros p a Hp _ E _. destruct (found_slot m L _ a k R Hp E) as (v & Hv & _ & Has). by eapply HF.
  - intros Ha. apply HN. by apply (holds_absent m L k R).
Qed.

Lemma get_ok m L k : holds m L -> wp (exec (Get k)) (ok (Get k) L) m.
Proof using Laws.
  intros R. apply wp_bind, wp_bind, (wp_dict_find m L k _ R).
  - intros p a v Hp Has. apply wp_bind, (wp_slot_at m p _ _ Hp). apply wp_ret, wp_ret. exists L. simpl. by rewrite Has.
  - intros Has. apply wp_ret, wp_ret. exists L. simpl. by rewrite Has.
Qed.

Lemma contains_ok m L k : holds m L -> wp (exec (Contains k)) (ok (Contains k) L) m.
Proof using Laws.
  intros R. apply wp_bind, wp_bind, (wp_dict_find m L k _ R).
  - intros p a v Hp Has. apply wp_ret, wp_ret. exists L. simpl. rewrite Has. split; [|done]. split; [|done]. by rewrite bool_decide_true.
  - intros Has. apply wp_ret, wp_ret. exists L. simpl. rewrite Has. split; [|done]. split; [|done]. rewrite bool_decide_false; [done|]. by intros [? ?].
Qed.

Lemma get_default_ok m L k d : holds m L -> wp (exec (GetDefault k d)) (ok (GetDefault k d) L) m.
Proof using Laws.
  intros R. apply wp_bind, wp_bind, wp_ret, wp_bind, (wp_dict_find m L k _ R).
  - intros p a v Hp Has. apply wp_bind, wp_bind, (wp_slot_at m p _ _ Hp), wp_ret. simpl.
    apply wp_bind, wp_ret, wp_ret, wp_ret. exists L. simpl. by rewrite Has.
  - intros Has. apply wp_bind, wp_ret. simpl. destruct d; apply wp_ret, wp_ret; exists L; simpl; by rewrite Has.
Qed.

Lemma not_fixed m L (Q : unit + exn obj -> mp_map_t -> Prop) : holds m L -> Q (inl tt) m -> wp mp_ensure_not_fixed Q m.
Proof. intros R HQ. apply wp_bind, wp_gets. rewrite (proj1 (mi_plain _ (h_inv _ _ R))). by apply wp_ret. Qed.

(** Adding a key. *)
Lemma wp_add m L k (Q : option Z + exn obj -> mp_map_t -> Prop) : holds m L ->
  (forall p a v, table m !! Z.to_nat p = Some (Elem (Obj a) (Obj v)) -> mp_obj_equal a k = true -> assoc k L = Some v -> Q (inl (Some p)) m) ->
  (forall p m', inserted m k p m' -> assoc k L = None -> Q (inl (Some p)) m') ->
  (assoc k L = None -> no_memory L -> Q (inr MemoryError) m) ->
  wp (mp_map_lookup avail k MP_MAP_LOOKUP_ADD_IF_NOT_FOUND) Q m.
Proof using Laws Havail.
  intros R HF HA HE. apply (wp_mp_map_add avail Havail m k); [apply R| | |].
  - intros p a Hp _ E. destruct (found_slot m L _ a k R Hp E) as (v & Hv & _ & Has). by eapply HF.
  - intros p m' A. apply (HA p m' A). apply (holds_absent m L k R). apply A.
  - intros Ha Hfull Hav. apply HE; [by apply (holds_absent m L k R)|]. unfold no_memory. by rewrite <- (h_len _ _ R), Hfull.
Qed.

Lemma dict_store_ok m L k v : holds m L -> wp (exec (Store k v)) (ok (Store k v) L) m.
Proof using Laws Havail.
  intros R. apply wp_bind, wp_bind, (not_fixed m L); [done|]. apply wp_bind, (wp_add m L k _ R).
  - intros p a w Hp E Has. apply wp_bind, (wp_put_slot _ _ _ _ _ Hp), wp_ret, wp_ret. exists (upsert k v L).
    split; [by left|]. by apply (holds_update m L _ a w k v).
  - intros p m' A Has. apply wp_bind, (wp_put_slot _ _ _ _ _ (proj2 (n_slot _ _ _ _ A))), wp_ret, wp_ret. exists (upsert k v L).
    split; [by left|]. by apply (holds_insert m L).
  - intros Has Hno. apply wp_ret, wp_ret. exists L. split; [by right|done].
Qed.

Lemma setdefault_ok m L k d : holds m L -> wp (exec (SetDefault k d)) (ok (SetDefault k d) L) m.
Proof using Laws Havail.
  intros R. apply wp_bind, wp_bind, (not_fixed m L); [done|]. apply wp_bind, (wp_add m L k _ R).
  - intros p a w Hp E Has. apply wp_bind, wp_bind, (wp_slot_at m p _ _ Hp), wp_ret. simpl.
    apply wp_bind, wp_ret, wp_ret, wp_ret. exists L. simpl. by rewrite Has.
  - intros p m' A Has. apply wp_bind, wp_bind, (wp_slot_at m' p _ _ (proj2 (n_slot _ _ _ _ A))), wp_ret. simpl.
    destruct d; apply wp_bind, (wp_put_slot _ _ _ _ _ (proj2 (n_slot _ _ _ _ A))), wp_ret, wp_ret; eexists; simpl; rewrite Has;
      (split; [by left|by apply (holds_insert m L)]).
  - intros Has Hno. apply wp_ret, wp_ret. exists L. simpl. rewrite Has. split; [by right|done].
Qed.

(** Removing a key. *)
Lemma remove_run m L k d : holds m L ->
  wp (dict_get_helper avail k d MP_MAP_LOOKUP_REMOVE_IF_FOUND none)
    (fun r m' => match assoc k L, d with
                 | Some v, _ => r = inl (Obj v) /\ holds m' (remove k L)
                 | None, Some d => r = inl (Obj d) /\ m' = m
                 | None, None => r = inr (KeyError (Some k)) /\ m' = m
                 end) m.
Proof using Laws.
  intros R. apply wp_bind, (not_fixed m L); [done|]. apply wp_bind, (wp_mp_map_lookup avail m k); [apply R|done|done| |].
  - intros p a y m' D Hr E _. destruct (e_new _ _ _ _ _ D) as (x & Hx & Et). pose proof (e_old _ _ _ _ _ D) as Ho.
    destruct (holds_slot m L _ a y k R Ho E) as (v & -> & Hin & ->).
    assert (Hs : table m' !! Z.to_nat p = Some (Elem x (Obj v))) by (rewrite Et; apply list_lookup_insert_eq; by eapply lookup_lt_Some).
    apply wp_bind, wp_bind, (wp_slot_at m' p _ _ Hs), wp_ret. simpl. apply wp_bind, (wp_put_slot _ _ _ _ _ Hs), wp_ret.
    split; [done|]. eapply (holds_drop m L _ a _ k _ (Elem x MP_OBJ_NULL)); [done|exact Ho|done| | |exact Hx|].
    + apply minv_value; [apply D|]. apply keys_lookup. by eexists.
    + simpl. by rewrite Et, list_insert_insert_eq.
    + simpl. apply D.
  - intros Ha. apply (holds_absent m L k R) in Ha. rewrite Ha. apply wp_bind, wp_ret. destruct d; by apply wp_ret.
Qed.

Lemma pop_ok m L k d : holds m L -> wp (exec (Pop k d)) (ok (Pop k d) L) m.
Proof using Laws.
  intros R. apply wp_bind. eapply wp_mono; [by apply remove_run|]. intros r m' Hr. apply wp_ret. unfold ok. simpl.
  destruct (assoc k L) as [v|]; [|destruct d]; destruct Hr as [-> Hm]; [exists (remove k L)|exists L..]; by subst.
Qed.

Lemma delete_ok m L k : holds m L -> wp (exec (Delete k)) (ok (Delete k) L) m.
Proof using Laws.
  intros R. apply wp_bind, wp_bind. eapply wp_mono; [by apply (remove_run m L k None)|]. intros r m' Hr. unfold ok. simpl.
  destruct (assoc k L) as [v|]; destruct Hr as [-> Hm]; apply wp_ret, wp_ret; [exists (remove k L)|exists L]; by subst.
Qed.

(** The iterator finds the next filled slot. *)
Lemma iter_from_spec m : forall n i, minv m -> 0 <= i -> i + Z.of_nat n = alloc m ->
  wp (iter_from n i) (fun r m' => m' = m /\ match r with
    | Some p => i <= p < alloc m /\ (exists a (y : mp_obj_t), table m !! Z.to_nat p = Some (Elem (Obj a) y)) /\
        forall q a, i <= Z.of_nat q < p -> keys m !! q <> Some (Obj a)
    | None => forall q a, i <= Z.of_nat q -> keys m !! q <> Some (Obj a)
    end) m.
Proof.
  induction n as [|n IH]; intros i I Hi Hn; simpl.
  - apply wp_ret. split; [done|]. intros q a Hq Hk%lookup_lt_Some. rewrite length_keys in Hk. pose proof (mi_len _ I). lia.
  - destruct (lookup_lt_is_Some_2 (table m) (Z.to_nat i)) as [[x v] Hs]; [pose proof (mi_len _ I); lia|].
    apply wp_bind, wp_bind, (wp_slot_at m i _ _ Hs), wp_ret. simpl. destruct (filled x) eqn:Ef.
    + apply wp_ret. split; [done|]. split; [lia|]. split; [|lia]. destruct x; [done..|]. by eexists _, _.
    + assert (Hno : forall a, keys m !! Z.to_nat i <> Some (Obj a)).
      { intros a [w Hw]%keys_lookup. rewrite Hs in Hw. injection Hw as -> ->. done. }
      eapply wp_mono; [apply IH; [done|lia|lia]|]. intros r m' [-> Hr]. split; [done|]. destruct r as [p|].
      * destruct Hr as (Hp & Ha & Hq). split; [lia|]. split; [done|]. intros q a Hr. destruct (decide (Z.of_nat q = i)) as [<-|]; [|apply Hq; lia].
        rewrite Nat2Z.id in Hno. apply Hno.
      * intros q a Hq. destruct (decide (Z.of_nat q = i)) as [<-|]; [|apply Hr; lia]. rewrite Nat2Z.id in Hno. apply Hno.
Qed.

Lemma no_key_nil m L : holds m L -> (forall q a, 0 <= Z.of_nat q -> keys m !! q <> Some (Obj a)) -> L = [].
Proof.
  intros R Hn. destruct L as [|[k v] L]; [done|].
  destruct (proj2 (h_entry _ _ R k (Obj v))) as [q Hq]; [exists v; split; [done|]; by left|].
  destruct (Hn q k); [lia|]. apply keys_lookup. by eexists.
Qed.

Lemma popitem_ok m L : holds m L -> wp (exec PopItem) (ok PopItem L) m.
Proof using Laws.
  intros R. pose proof (h_inv _ _ R) as I. pose proof (mi_len _ I).
  apply wp_bind, wp_bind, (not_fixed m L); [done|]. apply wp_bind, wp_bind, wp_gets, wp_bind.
  eapply wp_mono; [apply iter_from_spec; [done|lia|lia]|]. intros [p|] m' [-> Hr]; apply wp_ret; simpl.
  - destruct Hr as (Hp & (a & y & Hs) & _). apply wp_bind, wp_modify. set (m1 := set_used _ m).
    apply wp_bind, (wp_slot_at m1 _ _ _ Hs), wp_bind, (wp_put_slot m1 _ _ _ _ Hs), wp_ret, wp_ret.
    destruct (holds_slot m L _ a y a R Hs (equal_refl a)) as (v & -> & Hin & _). exists (remove a L).
    split; [left; by exists a, v|].
    pose proof (removed_intro m p a (Obj v) MP_OBJ_SENTINEL I Hs Hp eq_refl ltac:(done)) as D.
    eapply (holds_drop m L _ a (Obj v) a _ (Elem MP_OBJ_SENTINEL MP_OBJ_NULL)); [done|exact Hs|apply equal_refl| |done|done|done].
    assert (Hlt : (Z.to_nat p < length (table m))%nat) by (by eapply lookup_lt_Some).
    pose proof (minv_value _ (Z.to_nat p) (Elem MP_OBJ_SENTINEL MP_OBJ_NULL) (e_inv _ _ _ _ _ D)) as Hv.
    unfold set_table in Hv. simpl in Hv. rewrite list_insert_insert_eq in Hv. apply Hv. apply keys_lookup. exists (Obj v).
    simpl. by apply list_lookup_insert_eq.
  - apply wp_ret. exists L. split; [right; split; [by apply (no_key_nil m)|done]|done].
Qed.

Lemma empty_holds n q : 0 <= n < 2 ^ 29 -> holds (empty_map n q) [].
Proof.
  intros Hn. split; [by apply minv_empty| |constructor|done].
  intros a x. split; [intros [p Hp]; by destruct (empty_entry n q a x p)|by intros (v & _ & ?%elem_of_nil)].
Qed.

Lemma clear_ok m L : holds m L -> wp (exec Clear) (ok Clear L) m.
Proof.
  intros R. apply wp_bind, wp_bind, (not_fixed m L); [done|]. apply wp_bind, wp_modify, wp_ret, wp_ret. exists []. split; [done|].
  rewrite (proj2 (mi_plain _ (h_inv _ _ R))). by apply (empty_holds 0).
Qed.

Lemma dict_exec_ok op m L : holds m L -> wp (exec op) (ok op L) m.
Proof using Laws Havail.
  destruct op; intros R; auto using get_ok, get_default_ok, dict_store_ok, delete_ok, pop_ok, setdefault_ok, popitem_ok, clear_ok, contains_ok.
  apply wp_bind, wp_gets, wp_ret. exists L. split; [|done]. split; [|done]. by rewrite (h_len _ _ R).
Qed.
End Assoc.

(** * Runs *)

Section Runs.
Context {obj : Type} `{Laws : MpObjLaws obj} (none : obj).

(** A new dictionary and a sequence of operations on it, each with the memory that is
    available when it is called. *)
Fixpoint exec_all (ops : list ((Z -> bool) * dict_op)) : M (@mp_map_t obj) (list dict_out) :=
  match ops with
  | [] => ret []
  | (avail, op) :: ops => r <- exec avail none op ;; rs <- exec_all ops ;; ret (r :: rs)
  end.

Definition dict_run (avail : Z -> bool) (n : Z) (ops : list ((Z -> bool) * dict_op)) : M (@mp_map_t obj) (list dict_out + exn obj) :=
  _ <-? mp_map_init avail n ;; rs <- exec_all ops ;; ret (inl rs).

(** The same operations on a list of keys and values. *)
Fixpoint spec_all (ops : list ((Z -> bool) * dict_op)) (L : list (obj * obj)) (rs : list dict_out) (L' : list (obj * obj)) : Prop :=
  match ops, rs with
  | [], [] => L' = L
  | (avail, op) :: ops, r :: rs => exists L1, spec avail none op L r L1 /\ spec_all ops L1 rs L'
  | _, _ => False
  end.

(** Tables are smaller than the address space: an entry has eight bytes. *)
Definition fits (avail : Z -> bool) : Prop := forall n, avail n = true -> n < 2 ^ 29.

Lemma exec_all_ok ops : Forall (fun x => fits (fst x)) ops -> forall m L, holds m L ->
  wp (exec_all ops) (fun rs m' => exists L', spec_all ops L rs L' /\ holds m' L') m.
Proof using Laws.
  induction 1 as [|[avail op] ops Hf _ IH]; intros m L R; simpl; [apply wp_ret; by exists L|].
  apply wp_bind. eapply wp_mono; [by apply (dict_exec_ok avail Hf none op m L)|]. intros r m1 (L1 & HS & R1).
  apply wp_bind. eapply wp_mono; [by apply (IH m1 L1)|]. intros rs m2 (L2 & HS2 & R2). apply wp_ret. exists L2. eauto.
Qed.

Lemma init_ok avail n (m : @mp_map_t obj) : fits avail -> 0 <= n ->
  wp (mp_map_init avail n) (fun r m' => match r with
    | inl _ => holds m' [] /\ alloc m' = n
    | inr e => e = MemoryError /\ avail n = false
    end) m.
Proof.
  intros Hf Hn. apply wp_bind. destruct (Z.eqb_spec n 0) as [-> |Hz].
  - apply wp_bind, wp_modify, wp_ret, wp_bind, wp_modify, wp_ret. split; [by apply (empty_holds 0)|done].
  - apply wp_bind, wp_modify. destruct (avail n) eqn:Ea; [|by apply wp_ret, wp_ret].
    apply wp_bind, wp_modify, wp_ret, wp_bind, wp_modify, wp_ret. split; [|done]. apply (empty_holds n). split; [done|by apply Hf].
Qed.

(** A dictionary implements a finite map from keys to values, keys being
    compared with the equality of Python.  Whatever sequence of [d[k]], [get],
    [d[k] = v], [del], [pop], [setdefault], [popitem], [clear], [len] and [in] runs on
    a new dictionary of any initial size, every operation returns (no probe runs out
    of the table or goes on for ever, also when the table is full, holds deleted
    entries, or grows), with the answer that the list of keys and values gives and
    with its effect on it.  A [MemoryError] is raised only when a new entry needs a
    larger table that is not available, and the dictionary is then as before. *)
Theorem dict_refines avail n ops (m : @mp_map_t obj) :
  fits avail -> 0 <= n -> Forall (fun x => fits (fst x)) ops ->
  exists r m', dict_run avail n ops m = Some (r, m') /\
    match r with
    | inl rs => exists L, spec_all ops [] rs L /\ holds m' L
    | inr e => e = MemoryError /\ avail n = false
    end.
Proof using Laws.
  intros Hf Hn Hops. apply wp_run. apply wp_bind. eapply wp_mono; [by apply init_ok|].
  intros [[]|e] m1 R; [|by apply wp_ret]. apply wp_bind. eapply wp_mono; [by apply (exec_all_ok ops Hops m1 [] (proj1 R))|].
  intros rs m2 HL. by apply wp_ret.
Qed.
End Runs.

(** * An instance *)

(** Interned strings, other strings (a text and the copy of it), integers and
    [None]. *)
Module Objects.
Inductive object := Qstr (text : Z) | Str (text copy : Z) | Int (n : Z) | NoneObj.

#[export] Instance object_eq_dec : EqDecision object.
Proof. solve_decision. Defined.

Definition object_id (o : object) : Z + (Z + unit) :=
  match o with Qstr t | Str t _ => inl t | Int n => inr (inl n) | NoneObj => inr (inr tt) end.

#[export] Instance object_obj : MpObj object := {
  obj_eq_dec := object_eq_dec;
  mp_obj_is_qstr o := match o with Qstr _ => true | _ => false end;
  mp_obj_is_str o := match o with Qstr _ | Str _ _ => true | _ => false end;
  qstr_hash o := match o with Qstr t => t mod 65536 | _ => 0 end;
  unary_op_hash o := match o with Qstr t | Str t _ => t mod 65536 | Int n => n | NoneObj => 7 end;
  mp_obj_equal a b := bool_decide (object_id a = object_id b)
}.

#[export] Instance object_laws : MpObjLaws object.
Proof.
  split; unfold mp_obj_equal, mp_obj_is_qstr, mp_obj_is_str; simpl.
  - intros a. by apply bool_decide_eq_true.
  - intros a b. apply bool_decide_ext. split; congruence.
  - intros a b c. rewrite !bool_decide_eq_true. congruence.
  - intros [] []; rewrite ?bool_decide_eq_true; simpl; intros; congruence.
  - intros [] []; rewrite ?bool_decide_eq_true; simpl; intros; try congruence; auto.
  - intros [] []; rewrite ?bool_decide_eq_true; simpl; intros; congruence.
  - intros []; try done. simpl. intros _. unfold u32. rewrite (Z.mod_small (_ mod _)); [done|].
    pose proof (Z.mod_pos_bound text 65536). lia.
Qed.
End Objects.

Import Objects.

Definition demo_ops : list ((Z -> bool) * @dict_op object) :=
  (fun op => (fun n => n <? 7, op)) <$>
  [Store (Qstr 1) (Int 10); Store (Qstr 3) (Int 30); Get (Str 1 0); Store (Int 5) (Int 50); Delete (Qstr 1); Contains (Qstr 3);
   SetDefault (Int 7) None; Store (Int 9) NoneObj; Store (Int 11) NoneObj; Store (Int 13) NoneObj; Store (Int 15) NoneObj; Len;
   Pop (Int 9) None; PopItem; Get (Qstr 1)].

Lemma dict_refines_witness :
  let m := empty_map 0 true in
  (exists r m', dict_run NoneObj (fun n => n <? 100) 2 demo_ops m = Some (r, m')) /\
  match dict_run NoneObj (fun n => n <? 100) 2 demo_ops m with
  | Some (inl rs, m') => rs !! 2%nat = Some (Value (Obj (Int 10))) /\ rs !! 10%nat = Some (Raised MemoryError) /\ used m' = 4
  | _ => False
  end.
Proof.
  intros m. split.
  - assert (Hf : Forall (fun x => fits (fst x)) demo_ops).
    { unfold demo_ops. repeat constructor; intros n; simpl; rewrite Z.ltb_lt; lia. }
    destruct (dict_refines NoneObj (fun n => n <? 100) 2 demo_ops m ltac:(intros n; rewrite Z.ltb_lt; lia) ltac:(lia) Hf) as (r & m' & E & _). by exists r, m'.
  - vm_compute. auto.
Defined.
