(* ===== verification/ObjDict.v ===== *)
(** ObjDict: the dictionary objects of a program (py/objdict.c): creating, copying,
    updating and comparing them. *)

From stdpp Require Import options.
From S2P Require Import Prelude Map.

Section Dicts.
Context {obj : Type} `{MpObj obj}.

(** A dictionary object is its number. *)
Abbreviation dicts := (list (@mp_map_t obj)).
Abbreviation DM := (M dicts).

(** Whether memory is there when the dictionaries are as given: for a dictionary
    object, and for a table. *)
Record dict_memory := DictMemory { dict_object : dicts -> bool; dict_table : dicts -> Z -> bool }.
Variable mem : dict_memory.

Definition with_memory {A} (i : nat) (c : (Z -> bool) -> M (@mp_map_t obj) A) : DM A :=
  h <- gets (fun h => h) ;; on i (c (dict_table mem h)).

(** An exception before the new object, which is the last one, is returned: no
    reference to it is left. *)
Definition or_forget {A} (c : DM (A + exn obj)) : DM (A + exn obj) :=
  r <- c ;;
  match r with
  | inl a => ret (inl a)
  | inr e => modify (fun h => take (length h - 1) h) ;; ret (inr e)
  end.

Definition mp_obj_new_dict (n : Z) : DM (nat + exn obj) :=
  h <- gets (fun h => h) ;;
  if dict_object mem h then
    modify (fun h => h ++ [Map true false false 0 0 []]) ;;
    _ <-? or_forget (on (length h) (mp_map_init (dict_table mem h) n)) ;;
    ret (inl (length h))
  else ret (inr MemoryError).

Definition dict_copy (self : nat) : DM (nat + exn obj) :=
  n <- on self (gets alloc) ;;
  other <-? mp_obj_new_dict n ;;
  m <- getso (fun h : dicts => h !! self) ;;
  on other (modify (fun o => Map (all_keys_are_qstrs m) false (is_ordered m) (used m) (alloc o) (table m))) ;;
  ret (inl other).

(** [mp_map_lookup(map, k, MP_MAP_LOOKUP_ADD_IF_NOT_FOUND)->value = x]. *)
Definition map_put (k : obj) (x : @mp_obj_t obj) (avail : Z -> bool) : M (@mp_map_t obj) (unit + exn obj) :=
  r <-? mp_map_lookup avail k MP_MAP_LOOKUP_ADD_IF_NOT_FOUND ;;
  match r with
  | Some pos => put_slot pos (fun s => Elem (key s) x) ;; ret (inl tt)
  | None => undef
  end.

(** The loop over the entries of dictionary [j]; [body] returns whether it is left. *)
Fixpoint over_dict (fuel : nat) (j : nat) (cur : Z) (body : obj -> @mp_obj_t obj -> DM (bool + exn obj)) : DM (bool + exn obj) :=
  match fuel with
  | O => undef
  | S fuel =>
      next <- on j (dict_iter_next cur) ;;
      match next with
      | (None, _) => ret (inl false)
      | (Some pos, cur) =>
          e <- on j (slot_at pos) ;;
          match key e with
          | Obj k => stop <-? body k (value e) ;; if stop : bool then ret (inl true) else over_dict fuel j cur body
          | _ => undef
          end
      end
  end.

Definition each_entry (j : nat) (body : obj -> @mp_obj_t obj -> DM (bool + exn obj)) : DM (bool + exn obj) :=
  n <- on j (gets alloc) ;; over_dict (S (Z.to_nat n)) j 0 body.

(** Keyword arguments are a table of keys and values. *)
Fixpoint put_all (self : nat) (l : list (obj * obj)) : DM (unit + exn obj) :=
  match l with
  | [] => ret (inl tt)
  | (k, v) :: l => _ <-? with_memory self (map_put k (Obj v)) ;; put_all self l
  end.

(** The items of an iterable of pairs, which are iterables themselves. *)
Fixpoint put_pairs (self : nat) (l : list (list obj)) : DM (unit + exn obj) :=
  match l with
  | [] => ret (inl tt)
  | [k; v] :: l => _ <-? with_memory self (map_put k (Obj v)) ;; put_pairs self l
  | _ => ret (inr ValueError)
  end.

Inductive dict_arg := ADict (j : nat) | APairs (l : list (list obj)).

Definition dict_update (self : nat) (arg : option dict_arg) (kwargs : list (obj * obj)) : DM (unit + exn obj) :=
  _ <-? on self mp_ensure_not_fixed ;;
  _ <-? match arg with
        | None => ret (inl tt)
        | Some (ADict j) =>
            if Nat.eqb j self then ret (inl tt)
            else _ <-? each_entry j (fun k x => _ <-? with_memory self (map_put k x) ;; ret (inl false)) ;; ret (inl tt)
        | Some (APairs l) => put_pairs self l
        end ;;
  put_all self kwargs.

Definition dict_make_new (arg : option dict_arg) (kwargs : list (obj * obj)) : DM (nat + exn obj) :=
  dict <-? mp_obj_new_dict 0 ;;
  _ <-? or_forget (match arg, kwargs with None, [] => ret (inl tt) | _, _ => dict_update dict arg kwargs end) ;;
  ret (inl dict).

(** [len] is what [mp_obj_len_maybe] gives. *)
Definition dict_fromkeys (keys : list obj) (len : option Z) (v : obj) : DM (nat + exn obj) :=
  self <-? mp_obj_new_dict (default 0 len) ;;
  _ <-? or_forget (put_all self ((fun k => (k, v)) <$> keys)) ;;
  ret (inl self).

(** The views: [items()], [keys()] and [values()]. *)
Inductive mp_dict_view_kind_t := MP_DICT_VIEW_ITEMS | MP_DICT_VIEW_KEYS | MP_DICT_VIEW_VALUES.

Inductive view_item := Tuple (k x : @mp_obj_t obj) | Single (x : @mp_obj_t obj).

(** [None] is [MP_OBJ_STOP_ITERATION]. *)
Definition dict_view_it_iternext (kind : mp_dict_view_kind_t) (dict : nat) (cur : Z) : DM (option view_item * Z) :=
  next <- on dict (dict_iter_next cur) ;;
  match next with
  | (None, cur) => ret (None, cur)
  | (Some pos, cur) =>
      e <- on dict (slot_at pos) ;;
      ret (Some match kind with
                | MP_DICT_VIEW_ITEMS => Tuple (key e) (value e)
                | MP_DICT_VIEW_KEYS => Single (key e)
                | MP_DICT_VIEW_VALUES => Single (value e)
                end, cur)
  end.

(** Everything that the iterator of a view gives. *)
Fixpoint view_from (fuel : nat) (kind : mp_dict_view_kind_t) (dict : nat) (cur : Z) : DM (list view_item) :=
  match fuel with
  | O => undef
  | S fuel =>
      next <- dict_view_it_iternext kind dict cur ;;
      match next with
      | (None, _) => ret []
      | (Some x, cur) => l <- view_from fuel kind dict cur ;; ret (x :: l)
      end
  end.

Definition view_items (kind : mp_dict_view_kind_t) (dict : nat) : DM (list view_item) :=
  n <- on dict (gets alloc) ;; view_from (S (Z.to_nat n)) kind dict 0.

(** Comparison with a dictionary. *)
Definition dict_equal (i j : nat) : DM (bool + exn obj) :=
  u1 <- on i (gets used) ;;
  u2 <- on j (gets used) ;;
  if negb (u1 =? u2) then ret (inl false)
  else
    differs <-? each_entry i (fun k x =>
      r <-? with_memory j (fun avail => mp_map_lookup avail k MP_MAP_LOOKUP) ;;
      match r with
      | None => ret (inl true)
      | Some pos =>
          e <- on j (slot_at pos) ;;
          match x, value e with
          | Obj v, Obj w => ret (inl (negb (mp_obj_equal v w)))
          | _, _ => undef
          end
      end) ;;
    ret (inl (negb differs)).
End Dicts.
