(* ===== verification/DictSys.v ===== *)
(** DictSys: programs that use several dictionaries. *)

From stdpp Require Import options.
From S2P Require Import Prelude Map MapInv MapOps Dict ObjDict.

#[local] Ltac Zify.zify_post_hook ::= Z.to_euclidean_division_equations.

Section Dicts.
Context {obj : Type} `{Laws : MpObjLaws obj}.
Implicit Types (L ps : list (obj * obj)) (k a v : obj) (m : @mp_map_t obj) (h : list (@mp_map_t obj)) (D : list (list (obj * obj))).

(** * The entries of a table *)

Definition elem_pair (e : @mp_map_elem_t obj) : option (obj * obj) :=
  match key e, value e with Obj k, Obj v => Some (k, v) | _, _ => None end.
Definition pairs m : list (obj * obj) := omap elem_pair (table m).

Definition upsert_all ps L : list (obj * obj) := fold_left (fun L x => upsert (fst x) (snd x) L) ps L.

Lemma upsert_all_app ps qs L : upsert_all (ps ++ qs) L = upsert_all qs (upsert_all ps L).
Proof. apply fold_left_app. Qed.

Lemma distinct_nodup L : distinct L -> NoDup L.
Proof using Laws.
  induction L as [|x L IH]; [constructor|]. intros [Hx D]. constructor; [|by apply IH]. intros Hin. specialize (Hx x Hin). by rewrite equal_refl in Hx.
Qed.

Lemma pairs_elem m L x : holds m L -> x ∈ pairs m <-> x ∈ L.
Proof.
  intros R. unfold pairs. rewrite list_elem_of_omap. destruct x as [k v]. split.
  - intros ([e1 e2] & He & E). unfold elem_pair in E. simpl in E. destruct e1 as [| |k']; [done..|]. destruct e2 as [| |v']; [done..|].
    injection E as -> ->. apply list_elem_of_lookup_1 in He as [p Hp].
    destruct (proj1 (h_entry _ _ R k (Obj v))) as (w & [= ->] & Hin); [by exists p|done].
  - intros Hin. destruct (proj2 (h_entry _ _ R k (Obj v))) as [p Hp]; [by exists v|]. exists (Elem (Obj k) (Obj v)).
    split; [by apply list_elem_of_lookup_2 in Hp|done].
Qed.

Lemma pairs_nodup m : minv m -> NoDup (pairs m).
Proof using Laws.
  intros I. unfold pairs. assert (Hk : kdistinct (key <$> table m)) by (intros p q a b; apply (mi_keys _ I)).
  clear I. revert Hk. generalize (table m). intros T. induction T as [|[e1 e2] T IH]; intros Hk; simpl; [constructor|].
  pose proof (IH (kdistinct_tail _ _ Hk)) as HT. destruct e1 as [| |k]; [done..|]. destruct e2 as [| |v]; [done..|].
  constructor; [|done]. intros ([e1 e2] & He & E)%list_elem_of_omap. unfold elem_pair in E. simpl in E.
  destruct e1 as [| |k']; [done..|]. destruct e2 as [| |v']; [done..|]. injection E as -> ->.
  pose proof (kdistinct_head _ k k Hk ltac:(apply list_elem_of_fmap; by exists (Elem (Obj k) (Obj v)))) as Hne. by rewrite equal_refl in Hne.
Qed.

(** The table lists the entries, in some order. *)
Lemma pairs_perm m L : holds m L -> pairs m ≡ₚ L.
Proof using Laws.
  intros R. apply NoDup_Permutation; [apply pairs_nodup, R|apply distinct_nodup, R|]. intros x. by apply pairs_elem.
Qed.

Lemma wp_iter_next m L cur : holds m L -> 0 <= cur <= alloc m ->
  wp (dict_iter_next cur) (fun r m' => m' = m /\ match r with
    | (Some p, cur') => exists k v, cur' = p + 1 /\ cur <= p < alloc m /\ table m !! Z.to_nat p = Some (Elem (Obj k) (Obj v)) /\
        omap elem_pair (drop (Z.to_nat cur) (table m)) = (k, v) :: omap elem_pair (drop (Z.to_nat cur') (table m))
    | (None, _) => omap elem_pair (drop (Z.to_nat cur) (table m)) = []
    end) m.
Proof using Laws.
  intros R Hc. pose proof (h_inv _ _ R) as I. pose proof (mi_len _ I) as Hlen. apply wp_bind, wp_gets, wp_bind.
  eapply wp_mono; [apply iter_from_spec; [done|lia|lia]|].
  assert (Hskip : forall n i, 0 <= i -> (forall q a, i <= Z.of_nat q < i + Z.of_nat n -> keys m !! q <> Some (Obj a)) ->
    omap elem_pair (drop (Z.to_nat i) (table m)) = omap elem_pair (drop (Z.to_nat (i + Z.of_nat n)) (table m))).
  { induction n as [|n IH]; intros i Hi Hno; [by rewrite Z.add_0_r|]. destruct (table m !! Z.to_nat i) as [[x y]|] eqn:Hx.
    - rewrite (drop_S _ _ _ Hx). replace (S (Z.to_nat i)) with (Z.to_nat (i + 1)) by lia.
      replace (i + Z.of_nat (S n)) with (i + 1 + Z.of_nat n) by lia. rewrite <- (IH (i + 1)); [|lia|intros q a Hq; apply Hno; lia].
      simpl. destruct x as [| |a]; [done..|]. destruct (Hno (Z.to_nat i) a); [lia|]. apply keys_lookup. by exists y.
    - apply lookup_ge_None in Hx. rewrite !drop_ge by lia. done. }
  intros [p|] m' [-> Hr]; apply wp_ret; (split; [done|]).
  - destruct Hr as (Hp & (k & x & Hs) & Hno). destruct (holds_slot m L _ k x k R Hs (equal_refl k)) as (v & -> & _). exists k, v.
    split; [done|]. split; [done|]. split; [done|]. rewrite (Hskip (Z.to_nat (p - cur)) cur) by (try lia; intros q a Hq; apply Hno; lia).
    replace (cur + Z.of_nat (Z.to_nat (p - cur))) with p by lia. rewrite (drop_S _ _ _ Hs). by replace (Z.to_nat (p + 1)) with (S (Z.to_nat p)) by lia.
  - rewrite (Hskip (Z.to_nat (alloc m - cur)) cur) by (try lia; intros q a Hq; apply Hr; lia). rewrite drop_ge by lia. done.
Qed.

(** * The dictionary objects *)

Definition dreps h D : Prop := Forall2 holds h D.

Lemma dreps_length h D : dreps h D -> length h = length D.
Proof. apply Forall2_length. Qed.

Lemma dreps_dict h D i L : dreps h D -> D !! i = Some L -> exists m, h !! i = Some m /\ holds m L.
Proof. intros R Hi. destruct (Forall2_lookup_r _ _ _ _ _ R Hi) as (m & Hm & Hh). by exists m. Qed.

Lemma dreps_insert h D i m L : dreps h D -> holds m L -> dreps (<[i := m]> h) (<[i := L]> D).
Proof. intros R Hh. by apply Forall2_insert. Qed.

Lemma dreps_app h D m L : dreps h D -> holds m L -> dreps (h ++ [m]) (D ++ [L]).
Proof. intros R Hh. apply Forall2_app; [done|]. constructor; [done|constructor]. Qed.

Lemma dreps_forget h D L : dreps h (D ++ [L]) -> dreps (take (length h - 1) h) D.
Proof.
  intros R. rewrite (dreps_length _ _ R), length_app. simpl. replace (length D + 1 - 1)%nat with (length D) by lia.
  pose proof (Forall2_take _ _ _ (length D) R) as Rt. by rewrite take_app_length in Rt.
Qed.

Lemma wp_map_put avail m L k v : fits avail -> holds m L ->
  wp (map_put k (Obj v) avail) (fun r m' => (r = inl tt /\ holds m' (upsert k v L)) \/ (r = inr MemoryError /\ m' = m /\ assoc k L = None)) m.
Proof using Laws.
  intros Hf R. apply wp_bind, (wp_add avail Hf m L k _ R).
  - intros p a w Hp E Has. apply wp_bind, (wp_put_slot _ _ _ _ _ Hp), wp_ret. left. split; [done|]. by apply (holds_update m L _ a w k v).
  - intros p m' A Has. apply wp_bind, (wp_put_slot _ _ _ _ _ (proj2 (n_slot _ _ _ _ A))), wp_ret. left. split; [done|]. by apply (holds_insert m L).
  - intros Has Hno. apply wp_ret. by right.
Qed.

(** The pairs at the beginning of a list, and whether something else comes then. *)
Fixpoint pairs_of (l : list (list obj)) : list (obj * obj) * bool :=
  match l with
  | [] => ([], false)
  | [k; v] :: l => let r := pairs_of l in ((k, v) :: fst r, snd r)
  | _ => ([], true)
  end.

(** What a sequence of additions to dictionary [i] leaves: all of them, and then
    [ValueError] if [bad]; or those before a new key for which memory is not
    available. *)
Definition puts i ps (bad : bool) D (r : unit + exn obj) D' : Prop := exists L, D !! i = Some L /\
  ((r = (if bad then inr ValueError else inl tt) /\ D' = <[i := upsert_all ps L]> D) \/
   (exists p x q, ps = p ++ x :: q /\ assoc (fst x) (upsert_all p L) = None /\ r = inr MemoryError /\ D' = <[i := upsert_all p L]> D)).

Lemma insert_lookup_eq {B} (l : list B) i x y : l !! i = Some x -> <[i := y]> l !! i = Some y.
Proof. intros Hi. apply list_lookup_insert_eq. by eapply lookup_lt_Some. Qed.

Lemma puts_nil i bad D L : D !! i = Some L -> puts i [] bad D (if bad then inr ValueError else inl tt) D.
Proof. intros Hi. exists L. split; [done|]. left. split; [done|]. simpl. by rewrite list_insert_id. Qed.

Lemma puts_app i ps qs bad D D1 r D' : puts i ps false D (inl tt) D1 -> puts i qs bad D1 r D' -> puts i (ps ++ qs) bad D r D'.
Proof.
  intros (L & Hi & [[_ ->]|(p & x & q & _ & _ & Hr & _)]); [|done]. intros (L1 & Hi1 & HP). exists L. split; [done|].
  rewrite (insert_lookup_eq D i L _ Hi) in Hi1. injection Hi1 as <-.
  destruct HP as [[-> ->]|(p & x & q & -> & Has & -> & ->)]; rewrite list_insert_insert_eq; [left|right].
  - by rewrite upsert_all_app.
  - exists (ps ++ p), x, q. by rewrite upsert_all_app, <- app_assoc.
Qed.

Lemma puts_fail i ps qs bad D D1 : puts i ps false D (inr MemoryError) D1 -> puts i (ps ++ qs) bad D (inr MemoryError) D1.
Proof.
  intros (L & Hi & [[? _]|(p & x & q & -> & Has & _ & ->)]); [done|]. exists L. split; [done|]. right.
  exists p, x, (q ++ qs). by rewrite <- app_assoc.
Qed.

Lemma puts_length i ps bad D r D' : puts i ps bad D r D' -> length D' = length D.
Proof. intros (L & _ & [[_ ->]|(p & x & q & _ & _ & _ & ->)]); apply length_insert. Qed.

Lemma puts_lookup i ps bad D r D' : puts i ps bad D r D' -> exists L, D' !! i = Some L.
Proof. intros (L & Hi & [[_ ->]|(p & x & q & _ & _ & _ & ->)]); eexists; by eapply insert_lookup_eq. Qed.

Context (mem : @dict_memory obj) (Hmem : forall h, fits (dict_table mem h)).

(** One addition. *)
Lemma wp_put h D i L k v (Q : unit + exn obj -> list mp_map_t -> Prop) : dreps h D -> D !! i = Some L ->
  (forall r h' D', (forall j, j <> i -> h' !! j = h !! j) -> puts i [(k, v)] false D r D' -> dreps h' D' -> r = inl tt \/ r = inr MemoryError -> Q r h') ->
  wp (with_memory mem i (map_put k (Obj v))) Q h.
Proof using Laws Hmem.
  intros R Hi HQ. destruct (dreps_dict h D i L R Hi) as (m & Hm & Hh). apply wp_bind, wp_gets, (wp_on h i m); [done|].
  eapply wp_mono; [by apply (wp_map_put _ m L k v (Hmem h))|]. intros r m' Hr.
  assert (Hj : forall j, j <> i -> <[i := m']> h !! j = h !! j) by (intros j Hj; by apply list_lookup_insert_ne).
  destruct Hr as [[-> Hh']|(-> & -> & Has)].
  - apply (HQ _ _ (<[i := upsert k v L]> D) Hj); [|by apply dreps_insert|by left]. exists L. split; [done|by left].
  - apply (HQ _ _ D Hj); [|by rewrite list_insert_id|by right]. exists L. split; [done|]. right. exists [], (k, v), []. simpl. by rewrite list_insert_id.
Qed.

(** An addition followed by others. *)
Lemma wp_put_then h D i L k v ps bad rest : dreps h D -> D !! i = Some L ->
  (forall h' D', dreps h' D' -> (exists L', D' !! i = Some L') ->
     wp rest (fun r h2 => exists D2, puts i ps bad D' r D2 /\ dreps h2 D2) h') ->
  wp (_ <-? with_memory mem i (map_put k (Obj v)) ;; rest) (fun r h' => exists D', puts i ((k, v) :: ps) bad D r D' /\ dreps h' D') h.
Proof using Laws Hmem.
  intros R Hi Hrest. apply wp_bind, (wp_put h D i L k v _ R Hi). intros r h1 D1 _ HP R1 [-> | ->].
  - eapply wp_mono; [apply (Hrest h1 D1 R1); by eapply puts_lookup|]. intros r h2 (D2 & HP2 & R2). exists D2. split; [|done].
    by apply (puts_app i [(k, v)] ps bad D D1).
  - apply wp_ret. exists D1. split; [|done]. by apply (puts_fail i [(k, v)] ps).
Qed.

Lemma put_all_ok i ps : forall h D, dreps h D -> (exists L, D !! i = Some L) ->
  wp (put_all mem i ps) (fun r h' => exists D', puts i ps false D r D' /\ dreps h' D') h.
Proof using Laws Hmem.
  induction ps as [|[k v] ps IH]; intros h D R [L Hi].
  - apply wp_ret. exists D. split; [|done]. by apply (puts_nil i false D L).
  - by apply (wp_put_then h D i L).
Qed.

Lemma put_pairs_ok i l : forall h D, dreps h D -> (exists L, D !! i = Some L) ->
  wp (put_pairs mem i l) (fun r h' => exists D', puts i (fst (pairs_of l)) (snd (pairs_of l)) D r D' /\ dreps h' D') h.
Proof using Laws Hmem.
  induction l as [|x l IH]; intros h D R [L Hi].
  { apply wp_ret. exists D. split; [|done]. by apply (puts_nil i false D L). }
  assert (Hbad : wp (ret (inr ValueError)) (fun (r : unit + exn obj) h' => exists D', puts i [] true D r D' /\ dreps h' D') h).
  { apply wp_ret. exists D. split; [|done]. by apply (puts_nil i true D L). }
  destruct x as [|k [|v [|w x]]]; [done..| |done]. by apply (wp_put_then h D i L).
Qed.

(** ** Loops over a dictionary that the body leaves as it is *)

Lemma wp_over_dict body (Inv : list (obj * obj) -> list mp_map_t -> Prop) (Q : bool + exn obj -> list mp_map_t -> Prop) j m L : holds m L ->
  (forall k v rest h, Inv ((k, v) :: rest) h -> h !! j = Some m -> wp (body k (Obj v)) (fun r h' => match r with
     | inl false => Inv rest h' /\ h' !! j = Some m
     | _ => Q r h'
     end) h) ->
  (forall h, Inv [] h -> Q (inl false) h) ->
  forall fuel cur h, h !! j = Some m -> 0 <= cur <= alloc m -> alloc m - cur < Z.of_nat fuel ->
    Inv (omap elem_pair (drop (Z.to_nat cur) (table m))) h -> wp (over_dict fuel j cur body) Q h.
Proof using Laws.
  intros R Hb HN. induction fuel as [|fuel IH]; intros cur h Hj Hc Hf HI; [lia|]. simpl. apply wp_bind, (wp_on h j m); [done|].
  eapply wp_mono; [by apply (wp_iter_next m L cur)|]. intros [[p|] cur'] m' [-> Hr]; rewrite list_insert_id by done.
  - destruct Hr as (k & v & -> & Hp & Hs & E). rewrite E in HI. apply wp_bind, (wp_on h j m); [done|]. apply (wp_slot_at m p _ _ Hs).
    rewrite list_insert_id by done. simpl. apply wp_bind. eapply wp_mono; [by apply (Hb k v (omap elem_pair (drop (Z.to_nat (p + 1)) (table m))) h)|].
    intros [[|]|e] h' Hr; [by apply wp_ret| |by apply wp_ret]. destruct Hr as [HI' Hj']. apply IH; [done|lia|lia|done].
  - rewrite Hr in HI. by apply wp_ret, HN.
Qed.

Lemma wp_each_entry body Inv (Q : bool + exn obj -> list mp_map_t -> Prop) j m L h : holds m L ->
  (forall k v rest h, Inv ((k, v) :: rest) h -> h !! j = Some m -> wp (body k (Obj v)) (fun r h' => match r with
     | inl false => Inv rest h' /\ h' !! j = Some m
     | _ => Q r h'
     end) h) ->
  (forall h, Inv [] h -> Q (inl false) h) -> h !! j = Some m -> Inv (pairs m) h -> wp (each_entry j body) Q h.
Proof using Laws.
  intros R Hb HN Hj HI. pose proof (mi_len _ (h_inv _ _ R)) as Hlen. apply wp_bind, (wp_on_gets h j m); [done|].
  by apply (wp_over_dict body Inv Q j m L R Hb HN); [done|lia|lia|].
Qed.

(** ** Updates *)

(** The entries that the arguments of [update] give, in order; whether the iterable
    then has something that is not a pair. *)
Definition gives D self (arg : option dict_arg) kw ps (bad : bool) : Prop :=
  match arg with
  | None => ps = kw /\ bad = false
  | Some (ADict j) =>
      if Nat.eqb j self then ps = kw /\ bad = false
      else exists Lj P, D !! j = Some Lj /\ P ≡ₚ Lj /\ ps = P ++ kw /\ bad = false
  | Some (APairs l) => ps = fst (pairs_of l) ++ (if snd (pairs_of l) then [] else kw) /\ bad = snd (pairs_of l)
  end.

Definition valid_arg (n : nat) (arg : option (@dict_arg obj)) : Prop :=
  match arg with Some (ADict j) => (j < n)%nat | _ => True end.

Lemma update_dict_ok h D i j : dreps h D -> (exists L, D !! i = Some L) -> (j < length D)%nat -> j <> i ->
  wp (each_entry j (fun k x => _ <-? with_memory mem i (map_put k x) ;; ret (inl false)))
    (fun r h' => exists Lj P D' r', D !! j = Some Lj /\ P ≡ₚ Lj /\ puts i P false D r' D' /\ dreps h' D' /\
       r = match r' with inl _ => inl false | inr e => inr e end) h.
Proof using Laws Hmem.
  intros R [L Hi] Hv Hne. destruct (lookup_lt_is_Some_2 D j Hv) as [Lj HLj]. destruct (dreps_dict h D j Lj R HLj) as (m & Hm & Hh).
  apply (wp_each_entry _ (fun rest h' => exists p D', pairs m = p ++ rest /\ puts i p false D (inl tt) D' /\ dreps h' D') _ j m Lj); [done| | |done|].
  - intros k v rest h1 (p & D1 & Ep & HP & R1) Hj1. destruct (puts_lookup _ _ _ _ _ _ HP) as [L1 Hi1].
    apply wp_bind, (wp_put h1 D1 i L1 k v _ R1 Hi1). intros r h2 D2 Hsame HP2 R2 [-> | ->]; apply wp_ret.
    + split; [|by rewrite Hsame]. exists (p ++ [(k, v)]), D2. rewrite <- app_assoc. split; [done|]. split; [|done]. by apply (puts_app i p [(k, v)] false D D1).
    + exists Lj, (pairs m), D2, (inr MemoryError). split; [done|]. split; [by apply pairs_perm|]. split; [|done]. rewrite Ep.
      apply (puts_app i p _ false D D1); [done|]. by apply (puts_fail i [(k, v)] rest).
  - intros h1 (p & D1 & Ep & HP & R1). rewrite app_nil_r in Ep. exists Lj, (pairs m), D1, (inl tt). split; [done|].
    split; [by apply pairs_perm|]. split; [by rewrite Ep|done].
  - exists [], D. split; [done|]. split; [by apply (puts_nil i false D L)|done].
Qed.

(** Keyword arguments after the others. *)
Lemma put_kw_ok h D D1 i ps kw : dreps h D1 -> puts i ps false D (inl tt) D1 ->
  wp (put_all mem i kw) (fun r h' => exists D', puts i (ps ++ kw) false D r D' /\ dreps h' D') h.
Proof using Laws Hmem.
  intros R HP. eapply wp_mono; [apply (put_all_ok i kw h D1 R); by eapply puts_lookup|]. intros r h' (D' & HP' & R'). exists D'.
  split; [|done]. by apply (puts_app i ps kw false D D1).
Qed.

Lemma dict_update_ok h D i L arg kw : dreps h D -> D !! i = Some L -> valid_arg (length D) arg ->
  wp (dict_update mem i arg kw) (fun r h' => exists ps bad D', gives D i arg kw ps bad /\ puts i ps bad D r D' /\ dreps h' D') h.
Proof using Laws Hmem.
  intros R Hi Hv. destruct (dreps_dict h D i L R Hi) as (m & Hm & Hh).
  apply wp_bind, (wp_on h i m); [done|]. apply (not_fixed m L); [done|]. rewrite list_insert_id by done. apply wp_bind.
  assert (H0 : puts i [] false D (inl tt) D) by (by apply (puts_nil i false D L)).
  destruct arg as [[j|l]|]; [destruct (Nat.eqb_spec j i) as [-> |Hne]| |].
  - apply wp_ret. eapply wp_mono; [by apply (put_kw_ok h D D i [] kw)|]. intros r h' (D' & HP & R'). exists kw, false, D'. simpl. by rewrite Nat.eqb_refl.
  - apply wp_bind. eapply wp_mono; [by apply (update_dict_ok h D i j R (ex_intro _ L Hi) Hv Hne)|].
    intros r h1 (Lj & P & D1 & r' & HLj & HPm & HP & R1 & ->).
    assert (HG : gives D i (Some (ADict j)) kw (P ++ kw) false) by (simpl; rewrite (proj2 (Nat.eqb_neq j i) Hne); by exists Lj, P).
    destruct r' as [[]|e]; apply wp_ret.
    + eapply wp_mono; [by apply (put_kw_ok h1 D D1 i P kw)|]. intros r h' (D' & HP' & R'). by exists (P ++ kw), false, D'.
    + apply wp_ret. exists (P ++ kw), false, D1. split; [done|]. split; [|done].
      assert (e = MemoryError) as -> by (destruct HP as (L1 & _ & [[? _]|(p & x & q & _ & _ & E & _)]); congruence). by apply puts_fail.
  - eapply wp_mono; [by apply (put_pairs_ok i l h D R (ex_intro _ L Hi))|]. intros r h1 (D1 & HP & R1). simpl.
    destruct (pairs_of l) as [ps bad]. simpl in *. destruct r as [[]|e].
    + destruct bad; [exfalso; destruct HP as (L1 & _ & [[? _]|(p & x & q & _ & _ & ? & _)]); done|].
      eapply wp_mono; [by apply (put_kw_ok h1 D D1 i ps kw)|]. intros r h' (D' & HP' & R'). by exists (ps ++ kw), false, D'.
    + apply wp_ret. eexists _, _, D1. split; [done|]. split; [|done]. destruct bad; [by rewrite app_nil_r|].
      assert (e = MemoryError) as -> by (destruct HP as (L1 & _ & [[? _]|(p & x & q & _ & _ & E & _)]); congruence). by apply puts_fail.
  - apply wp_ret. eapply wp_mono; [by apply (put_kw_ok h D D i [] kw)|]. intros r h' (D' & HP & R'). by exists kw, false, D'.
Qed.
End Dicts.
