(* ===== verification/DictSpec.v ===== *)
(** DictSpec: every operation of py/objdict.c on the dictionary objects of a program,
    as an operation on lists of keys and values. *)

From stdpp Require Import options.
From S2P Require Import Prelude Map MapInv MapOps Dict ObjDict DictSys.

Section Operations.
Context {obj : Type} `{Laws : MpObjLaws obj} (mem : @dict_memory obj) (Hmem : forall h, fits (dict_table mem h)).
Implicit Types (L ps kw : list (obj * obj)) (k a v w : obj) (m : @mp_map_t obj) (h : list (@mp_map_t obj)) (D : list (list (obj * obj))).

(** ** New dictionaries *)

Lemma new_dict_ok h D n (Q : nat + exn obj -> list mp_map_t -> Prop) : dreps h D -> 0 <= n ->
  (forall m, holds m [] -> alloc m = n -> Q (inl (length D)) (h ++ [m])) -> Q (inr MemoryError) h ->
  wp (mp_obj_new_dict mem n) Q h.
Proof using Laws Hmem.
  intros R Hn HQ HE. apply wp_bind, wp_gets. destruct (dict_object mem h); [|by apply wp_ret].
  apply wp_bind, wp_modify, wp_bind, wp_bind.
  apply (wp_on _ (length h) (Map true false false 0 0 [])); [apply lookup_last|].
  eapply wp_mono; [by apply (init_ok _ n _ (Hmem h))|]. intros r m' Hr. rewrite insert_last. destruct r as [[]|e]; simpl in Hr.
  - destruct Hr as [Hh Ha]. apply wp_ret, wp_ret. rewrite (dreps_length _ _ R). by apply HQ.
  - destruct Hr as [-> _]. apply wp_bind, wp_modify, wp_ret, wp_ret. rewrite length_app. simpl.
    replace (length h + 1 - 1)%nat with (length h) by lia. by rewrite take_app_length.
Qed.

Lemma dict_copy_ok h D i L : dreps h D -> D !! i = Some L ->
  wp (dict_copy mem i) (fun r h' => (r = inl (length D) /\ dreps h' (D ++ [L])) \/ (r = inr MemoryError /\ dreps h' D)) h.
Proof using Laws Hmem.
  intros R Hi. destruct (dreps_dict h D i L R Hi) as (m & Hm & Hh). pose proof (h_inv _ _ Hh) as I. pose proof (mi_len _ I).
  apply wp_bind, (wp_on_gets h i m); [done|]. apply wp_bind, (new_dict_ok h D _ _ R); [lia| |by apply wp_ret; right].
  intros o Ho Ha. apply wp_bind; eapply wp_getso; [by apply lookup_app_l_Some|]. apply wp_bind.
  rewrite <- (dreps_length _ _ R). apply (wp_on _ (length h) o); [apply lookup_last|]. apply wp_modify, wp_ret. left. rewrite insert_last.
  split; [done|]. apply dreps_app; [done|]. rewrite Ha. destruct (mi_plain _ I) as [E1 E2]. destruct m; simpl in *. by subst.
Qed.

(** What fails on a new dictionary leaves nothing. *)
Lemma wp_fresh h D m i (c : M (list mp_map_t) (unit + exn obj)) (P : unit + exn obj -> list (obj * obj) -> Prop) : dreps h D -> i = length D ->
  holds m [] -> wp c (fun r h' => exists X, P r X /\ dreps h' (D ++ [X])) (h ++ [m]) ->
  wp (_ <-? or_forget c ;; ret (inl i)) (fun r h' => match r with
    | inl j => j = length D /\ exists X, P (inl tt) X /\ dreps h' (D ++ [X])
    | inr e => exists X, P (inr e) X /\ dreps h' D
    end) (h ++ [m]).
Proof.
  intros R -> Hm Hc. apply wp_bind, wp_bind. eapply wp_mono; [exact Hc|]. intros [[]|e] h' (X & HX & R').
  - apply wp_ret, wp_ret. split; [done|]. by exists X.
  - apply wp_bind, wp_modify, wp_ret, wp_ret. exists X. split; [done|]. by eapply dreps_forget.
Qed.

(** [dict(arg, **kw)]: the last of the dictionaries [D ++ [X]] is the new one. *)
Definition makes D arg kw (r : unit + exn obj) (X : list (obj * obj)) : Prop :=
  exists ps bad, gives D (length D) arg kw ps bad /\ puts (length D) ps bad (D ++ [[]]) r (D ++ [X]).

Lemma puts_last D ps bad r D' : puts (length D) ps bad (D ++ [[]]) r D' -> exists X, D' = D ++ [X].
Proof. intros (L & _ & [[_ ->]|(p & x & q & _ & _ & _ & ->)]); rewrite insert_last; by eexists. Qed.

Lemma gives_app D X self arg kw ps bad : self = length D -> valid_arg (length D) arg -> gives (D ++ [X]) self arg kw ps bad -> gives D self arg kw ps bad.
Proof.
  intros -> Hv. destruct arg as [[j|l]|]; simpl; [|done..]. destruct (Nat.eqb_spec j (length D)); [done|].
  simpl in Hv. by rewrite lookup_app_l.
Qed.

Lemma dict_make_new_ok h D arg kw : dreps h D -> valid_arg (length D) arg ->
  wp (dict_make_new mem arg kw) (fun r h' => match r with
    | inl j => j = length D /\ exists X, makes D arg kw (inl tt) X /\ dreps h' (D ++ [X])
    | inr e => (e = MemoryError \/ exists X, makes D arg kw (inr e) X) /\ dreps h' D
    end) h.
Proof using Laws Hmem.
  intros R Hv. apply wp_bind, (new_dict_ok h D 0 _ R); [lia| |apply wp_ret; auto]. intros m Hm _.
  eapply wp_mono; [apply (wp_fresh h D m _ _ (makes D arg kw) R eq_refl Hm)|].
  - assert (Hl : (D ++ [[]]) !! length D = Some []) by apply lookup_last.
    assert (Hu : wp (dict_update mem (length D) arg kw) (fun r h' => exists X, makes D arg kw r X /\ dreps h' (D ++ [X])) (h ++ [m])).
    { eapply wp_mono; [apply (dict_update_ok mem Hmem _ (D ++ [[]]) _ [] arg kw); [by apply dreps_app|done|]|].
      - destruct arg as [[j|l]|]; simpl in *; [|done..]. rewrite length_app. simpl. lia.
      - intros r h' (ps & bad & D' & HG & HP & R'). destruct (puts_last _ _ _ _ _ HP) as [X ->]. exists X. split; [|done].
        exists ps, bad. split; [by eapply gives_app|done]. }
    destruct arg as [arg|]; [exact Hu|]. destruct kw as [|x kw]; [|exact Hu]. apply wp_ret. exists []. split; [|by apply dreps_app].
    exists [], false. split; [done|]. by apply (puts_nil _ false _ []).
  - intros [j|e] h'; [done|]. intros (X & HX & R'). split; [right; by exists X|done].
Qed.

Lemma dict_fromkeys_ok h D keys len v : dreps h D -> 0 <= default 0 len ->
  wp (dict_fromkeys mem keys len v) (fun r h' =>
    (r = inl (length D) /\ dreps h' (D ++ [upsert_all ((fun k => (k, v)) <$> keys) []])) \/ (r = inr MemoryError /\ dreps h' D)) h.
Proof using Laws Hmem.
  intros R Hn. apply wp_bind, (new_dict_ok h D _ _ R Hn); [|by apply wp_ret; right]. intros m Hm _.
  set (ps := (fun k => (k, v)) <$> keys).
  eapply wp_mono; [apply (wp_fresh h D m _ _ (fun r X => puts (length D) ps false (D ++ [[]]) r (D ++ [X])) R eq_refl Hm)|].
  - eapply wp_mono; [apply (put_all_ok mem Hmem _ ps _ (D ++ [[]])); [by apply dreps_app|exists []; apply lookup_last]|].
    intros r h' (D' & HP & R'). destruct (puts_last _ _ _ _ _ HP) as [X ->]. by exists X.
  - intros [j|e] h'.
    + intros (-> & X & (L & HL & HP) & R'). left. split; [done|]. rewrite lookup_last in HL. injection HL as <-.
      destruct HP as [[_ E]|(p & x & q & _ & _ & ? & _)]; [|done]. rewrite insert_last in E. by rewrite <- E.
    + intros (X & (L & _ & [[? _]|(p & x & q & _ & _ & E & _)]) & R'); [done|]. right. split; [congruence|done].
Qed.

(** ** Views *)

Definition view_of (kind : mp_dict_view_kind_t) (x : obj * obj) : @view_item obj :=
  match kind with
  | MP_DICT_VIEW_ITEMS => Tuple (Obj (fst x)) (Obj (snd x))
  | MP_DICT_VIEW_KEYS => Single (Obj (fst x))
  | MP_DICT_VIEW_VALUES => Single (Obj (snd x))
  end.

Lemma view_from_ok kind j m L h : holds m L -> h !! j = Some m -> forall fuel cur, 0 <= cur <= alloc m -> alloc m - cur < Z.of_nat fuel ->
  wp (view_from fuel kind j cur) (fun l h' => h' = h /\ l = view_of kind <$> omap elem_pair (drop (Z.to_nat cur) (table m))) h.
Proof using Laws.
  intros R Hj. induction fuel as [|fuel IH]; intros cur Hc Hf; [lia|]. simpl. apply wp_bind, wp_bind, (wp_on h j m); [done|].
  eapply wp_mono; [by apply (wp_iter_next m L cur)|]. intros [[p|] cur'] m' [-> Hr]; rewrite list_insert_id by done.
  - destruct Hr as (k & v & -> & Hp & Hs & ->). apply wp_bind, (wp_on h j m); [done|]. apply (wp_slot_at m p _ _ Hs).
    rewrite list_insert_id by done. apply wp_ret, wp_bind. eapply wp_mono; [by apply IH; lia|]. intros l h' [-> ->]. apply wp_ret.
    split; [done|]. by destruct kind.
  - apply wp_ret, wp_ret. by rewrite Hr.
Qed.

Lemma view_items_ok kind i L h D : dreps h D -> D !! i = Some L ->
  wp (view_items kind i) (fun l h' => h' = h /\ l ≡ₚ view_of kind <$> L) h.
Proof using Laws.
  intros R Hi. destruct (dreps_dict h D i L R Hi) as (m & Hm & Hh). pose proof (mi_len _ (h_inv _ _ Hh)).
  apply wp_bind, (wp_on_gets h i m); [done|]. eapply wp_mono; [apply (view_from_ok kind i m L h Hh Hm); lia|].
  intros l h' [-> ->]. split; [done|]. apply fmap_Permutation. by apply (pairs_perm m L).
Qed.

(** ** Comparison *)

(** The same keys, with equal values. *)
Definition same L1 L2 : Prop := forall k,
  match assoc k L1, assoc k L2 with
  | Some v, Some w => mp_obj_equal v w = true
  | None, None => True
  | _, _ => False
  end.

Definition agrees L2 (x : obj * obj) : Prop := exists w, assoc (fst x) L2 = Some w /\ mp_obj_equal (snd x) w = true.

Lemma assoc_equal L k a : distinct L -> mp_obj_equal a k = true -> assoc a L = assoc k L.
Proof using Laws.
  intros HD E. assert (Hsub : forall k a, mp_obj_equal a k = true -> forall v, assoc a L = Some v -> assoc k L = Some v).
  { intros k1 a1 E1 v (b & Hb & Eb)%assoc_Some; [|done]. apply assoc_Some; [done|]. exists b. split; [done|]. by apply (equal_trans b a1 k1). }
  destruct (assoc a L) as [v|] eqn:Ea; [symmetry; by apply (Hsub k a)|]. destruct (assoc k L) as [v|] eqn:Ek; [|done].
  rewrite <- Ea. apply (Hsub a k); [by rewrite equal_sym|done].
Qed.

Lemma keys_apart L : distinct L -> apart (fst <$> L).
Proof using Laws.
  induction L as [|x L IH]; [done|]. intros [Hx HD]. simpl. apply apart_cons. split; [by apply IH|].
  intros b (y & -> & Hy)%list_elem_of_fmap. by apply Hx.
Qed.

Lemma keys_mem L k : distinct L -> is_Some (assoc k L) -> mem_list (fst <$> L) k = true.
Proof using Laws.
  intros HD [v (a & Ha & E)%assoc_Some]; [|done]. apply mem_list_true. exists a. split; [|done]. apply list_elem_of_fmap. by exists (a, v).
Qed.

Lemma assoc_elem L x : distinct L -> x ∈ L -> assoc (fst x) L = Some (snd x).
Proof using Laws. intros HD Hx. apply assoc_Some; [done|]. exists (fst x). split; [by destruct x|apply equal_refl]. Qed.

Lemma same_length L1 L2 : distinct L1 -> distinct L2 -> same L1 L2 -> length L1 = length L2.
Proof using Laws.
  intros D1 D2 HS. assert (Hle : forall L1 L2, distinct L1 -> distinct L2 -> (forall k, is_Some (assoc k L1) -> is_Some (assoc k L2)) -> (length L1 <= length L2)%nat).
  { intros M1 M2 H1 H2 Hk. rewrite <- (length_fmap fst M1), <- (length_fmap fst M2). apply pigeonhole; [by apply keys_apart|].
    intros a (x & -> & Hx)%list_elem_of_fmap. apply keys_mem; [done|]. apply Hk. rewrite (assoc_elem M1 x H1 Hx). by eexists. }
  apply Nat.le_antisymm; apply Hle; try done; intros k [v E]; specialize (HS k); rewrite E in HS.
  - by destruct (assoc k L2) as [w|]; [exists w|].
  - by destruct (assoc k L1) as [w|]; [exists w|].
Qed.

Lemma same_agrees L1 L2 : distinct L1 -> distinct L2 -> length L1 = length L2 -> same L1 L2 <-> forall x, x ∈ L1 -> agrees L2 x.
Proof using Laws.
  intros D1 D2 El. split.
  - intros HS x Hx. specialize (HS (fst x)). rewrite (assoc_elem L1 x D1 Hx) in HS. destruct (assoc (fst x) L2) as [w|] eqn:E; [|done]. by exists w.
  - intros HA k. destruct (assoc k L1) as [v|] eqn:E1.
    + apply assoc_Some in E1 as (a & Ha & E); [|done]. destruct (HA _ Ha) as (w & Ew & Evw). simpl in *. by rewrite <- (assoc_equal L2 k a D2 E), Ew.
    + destruct (assoc k L2) as [w|] eqn:E2; [|done]. assert (S (length L1) <= length L2)%nat; [|lia].
      rewrite <- (length_fmap fst L1), <- (length_fmap fst L2). apply (pigeonhole (k :: (fst <$> L1))).
      * apply apart_cons. split; [by apply keys_apart|]. intros b (x & -> & Hx)%list_elem_of_fmap. rewrite equal_sym. by apply (proj1 (assoc_None k L1) E1).
      * intros a [->|(x & -> & Hx)%list_elem_of_fmap]%elem_of_cons; (apply keys_mem; [done|]); [by exists w|]. destruct (HA x Hx) as (u & Eu & _). by exists u.
Qed.

Lemma dict_equal_ok h D i j L1 L2 : dreps h D -> D !! i = Some L1 -> D !! j = Some L2 ->
  wp (dict_equal mem i j) (fun r h' => h' = h /\ exists b, r = inl b /\ (b = true <-> same L1 L2)) h.
Proof using Laws Hmem.
  intros R Hi Hj. destruct (dreps_dict h D i L1 R Hi) as (m1 & Hm1 & Hh1). destruct (dreps_dict h D j L2 R Hj) as (m2 & Hm2 & Hh2).
  pose proof (h_distinct _ _ Hh1) as D1. pose proof (h_distinct _ _ Hh2) as D2.
  apply wp_bind, (wp_on_gets h i m1); [done|]. apply wp_bind, (wp_on_gets h j m2); [done|].
  rewrite (h_len _ _ Hh1), (h_len _ _ Hh2). destruct (Z.eqb_spec (Z.of_nat (length L1)) (Z.of_nat (length L2))) as [El|Hne]; simpl.
  2: { apply wp_ret. split; [done|]. exists false. split; [done|]. split; [done|]. intros HS%same_length; [lia|done|done]. }
  assert (HSA := same_agrees L1 L2 D1 D2 ltac:(lia)). apply wp_bind.
  assert (Hno : forall k v, (k, v) ∈ pairs m1 -> ~ agrees L2 (k, v) -> ~ same L1 L2).
  { intros k v Hin Hna HS. apply Hna. apply (proj1 HSA HS). by apply (pairs_elem m1 L1). }
  apply (wp_each_entry _ (fun rest h' => h' = h /\ exists p, pairs m1 = p ++ rest /\ forall x, x ∈ p -> agrees L2 x) _ i m1 L1); [done| | |done|].
  - intros k v rest h1 [-> (p & Ep & HA)] _. assert (Hin : (k, v) ∈ pairs m1) by (rewrite Ep; apply elem_of_app; right; by left).
    apply wp_bind, wp_bind, wp_gets, (wp_on h j m2); [done|]. apply (wp_dict_find _ m2 L2 k _ Hh2).
    + intros q a w Hq Has. rewrite list_insert_id by done. apply wp_bind, (wp_on h j m2); [done|]. apply (wp_slot_at m2 q _ _ Hq).
      rewrite list_insert_id by done. simpl. apply wp_ret. destruct (mp_obj_equal v w) eqn:Ev; simpl.
      * split; [|done]. split; [done|]. exists (p ++ [(k, v)]). rewrite <- app_assoc. split; [done|].
        intros x [Hx| ->%list_elem_of_singleton]%elem_of_app; [by apply HA|]. by exists w.
      * apply wp_ret. split; [done|]. exists false. split; [done|]. split; [done|]. intros HS. exfalso. apply (Hno k v Hin); [|done].
        intros (u & Eu & Euv). simpl in *. congruence.
    + intros Has. rewrite list_insert_id by done. apply wp_ret, wp_ret. split; [done|]. exists false. split; [done|]. split; [done|].
      intros HS. exfalso. apply (Hno k v Hin); [|done]. intros (u & Eu & _). simpl in *. congruence.
  - intros h1 [-> (p & Ep & HA)]. apply wp_ret. split; [done|]. exists true. split; [done|]. split; [|done]. intros _. apply HSA.
    intros x Hx. apply HA. rewrite app_nil_r in Ep. rewrite <- Ep. by apply (pairs_elem m1 L1).
  - split; [done|]. exists []. split; [done|]. intros x Hx. by apply not_elem_of_nil in Hx.
Qed.
End Operations.
