(* ===== verification/DictProps.v ===== *)
(** DictProps: programs that create, change, copy, view and compare dictionaries. *)

From stdpp Require Import options.
From S2P Require Import Prelude Map MapInv MapOps Dict ObjDict DictSys DictSpec.

Section Programs.
Context {obj : Type} `{Laws : MpObjLaws obj} (mem : @dict_memory obj) (none : obj).
Implicit Types (L kw : list (obj * obj)) (h : list (@mp_map_t obj)) (D : list (list (obj * obj))).

#[local] Instance valid_arg_dec n arg : Decision (valid_arg (obj := obj) n arg).
Proof. destruct arg as [[j|l]|]; simpl; apply _. Defined.

Inductive dicts_op :=
  | On (i : nat) (op : @dict_op obj)
  | Make (arg : option (@dict_arg obj)) (kwargs : list (obj * obj))
  | FromKeys (keys : list obj) (len : option Z) (v : obj)
  | Copy (i : nat)
  | Update (i : nat) (arg : option (@dict_arg obj)) (kwargs : list (obj * obj))
  | View (kind : mp_dict_view_kind_t) (i : nat)
  | Equal (i j : nat).

Inductive dicts_out :=
  | Out (r : @dict_out obj)
  | New (i : nat)
  | Listed (l : list (@view_item obj))
  | Unnamed.

(** The operation names dictionaries that have been made. *)
Definition valid_op (n : nat) (op : dicts_op) : bool :=
  match op with
  | On i _ | Copy i | View _ i => Nat.ltb i n
  | Make arg _ => bool_decide (valid_arg n arg)
  | FromKeys _ len _ => 0 <=? default 0 len
  | Update i arg _ => Nat.ltb i n && bool_decide (valid_arg n arg)
  | Equal i j => Nat.ltb i n && Nat.ltb j n
  end.

Definition ended {A} (f : A -> dicts_out) (r : A + exn obj) : dicts_out := match r with inl a => f a | inr e => Out (Raised e) end.

Definition exec_in (op : dicts_op) : M (list (@mp_map_t obj)) dicts_out :=
  match op with
  | On i op => r <- with_memory mem i (fun avail => exec avail none op) ;; ret (Out r)
  | Make arg kwargs => r <- dict_make_new mem arg kwargs ;; ret (ended New r)
  | FromKeys keys len v => r <- dict_fromkeys mem keys len v ;; ret (ended New r)
  | Copy i => r <- dict_copy mem i ;; ret (ended New r)
  | Update i arg kwargs => r <- dict_update mem i arg kwargs ;; ret (ended (fun _ => Out Done) r)
  | View kind i => l <- view_items kind i ;; ret (Listed l)
  | Equal i j => r <- dict_equal mem i j ;; ret (ended (fun b => Out (Truth b)) r)
  end.

(** A program that got an exception instead of a dictionary has no name for it. *)
Fixpoint dicts_run (ops : list dicts_op) : M (list (@mp_map_t obj)) (list dicts_out) :=
  match ops with
  | [] => ret []
  | op :: ops =>
      n <- gets length ;;
      r <- (if valid_op n op then exec_in op else ret Unnamed) ;;
      rs <- dicts_run ops ;;
      ret (r :: rs)
  end.

(** What the operation does to the lists of keys and values.  An operation that makes
    a dictionary adds a list, or raises an exception and changes nothing. *)
Definition means (op : dicts_op) D (r : dicts_out) D' : Prop :=
  match op with
  | On i op => exists h L r' L', dreps h D /\ D !! i = Some L /\ spec (dict_table mem h) none op L r' L' /\ r = Out r' /\ D' = <[i := L']> D
  | Make arg kwargs =>
      (r = New (length D) /\ exists X, makes D arg kwargs (inl tt) X /\ D' = D ++ [X]) \/
      (r = Out (Raised MemoryError) /\ D' = D) \/
      (exists X, makes D arg kwargs (inr ValueError) X /\ r = Out (Raised ValueError) /\ D' = D)
  | FromKeys keys _ v =>
      (r = New (length D) /\ D' = D ++ [upsert_all ((fun k => (k, v)) <$> keys) []]) \/ (r = Out (Raised MemoryError) /\ D' = D)
  | Copy i => (r = New (length D) /\ exists L, D !! i = Some L /\ D' = D ++ [L]) \/ (r = Out (Raised MemoryError) /\ D' = D)
  | Update i arg kwargs => exists ps bad r', gives D i arg kwargs ps bad /\ puts i ps bad D r' D' /\ r = ended (fun _ => Out Done) r'
  | View kind i => exists L l, D !! i = Some L /\ l ≡ₚ view_of kind <$> L /\ r = Listed l /\ D' = D
  | Equal i j => exists L1 L2 b, D !! i = Some L1 /\ D !! j = Some L2 /\ (b = true <-> same L1 L2) /\ r = Out (Truth b) /\ D' = D
  end.

Fixpoint means_all (ops : list dicts_op) D (rs : list dicts_out) D' : Prop :=
  match ops, rs with
  | [], [] => D' = D
  | op :: ops, r :: rs => exists D1, (if valid_op (length D) op then means op D r D1 else r = Unnamed /\ D1 = D) /\ means_all ops D1 rs D'
  | _, _ => False
  end.

Context (Hmem : forall h, fits (dict_table mem h)).

Lemma exec_in_ok op h D : dreps h D -> valid_op (length D) op = true ->
  wp (exec_in op) (fun r h' => exists D', means op D r D' /\ dreps h' D') h.
Proof using Laws Hmem.
  intros R Hv. destruct op as [i op|arg kw|keys len v|i|i arg kw|kind i|i j]; simpl in Hv;
    rewrite ?andb_true_iff, ?Nat.ltb_lt, ?bool_decide_eq_true, ?Z.leb_le in Hv; apply wp_bind.
  - destruct (lookup_lt_is_Some_2 D i Hv) as [L Hi]. destruct (dreps_dict h D i L R Hi) as (m & Hm & Hh).
    apply wp_bind, wp_gets, (wp_on h i m); [done|]. eapply wp_mono; [by apply (dict_exec_ok _ (Hmem h) none op m L)|].
    intros r m' (L' & HS & Hh'). apply wp_ret. exists (<[i := L']> D). split; [by exists h, L, r, L'|by apply dreps_insert].
  - eapply wp_mono; [by apply (dict_make_new_ok mem Hmem h D arg kw)|]. intros [j|e] h'.
    + intros (-> & X & HX & R'). apply wp_ret. exists (D ++ [X]). split; [|done]. left. split; [done|]. by exists X.
    + intros [HX R']. apply wp_ret. exists D. split; [|done]. right. destruct HX as [->|[X HX]]; [by left|].
      assert (e = MemoryError \/ e = ValueError) as [-> | ->]; [|by left|right; by exists X].
      destruct HX as (ps & bad & _ & (L & _ & [[E _]|(p & x & q & _ & _ & E & _)])); [destruct bad|]; simplify_eq; auto.
  - eapply wp_mono; [by apply (dict_fromkeys_ok mem Hmem h D keys len v)|].
    intros r h' [[-> R']|[-> R']]; apply wp_ret; eexists; (split; [|done]); [by left|by right].
  - destruct (lookup_lt_is_Some_2 D i Hv) as [L Hi]. eapply wp_mono; [by apply (dict_copy_ok mem Hmem h D i L)|].
    intros r h' [[-> R']|[-> R']]; apply wp_ret; eexists; (split; [|done]); [left|by right]. split; [done|]. by exists L.
  - destruct Hv as [Hi Hv]. destruct (lookup_lt_is_Some_2 D i Hi) as [L HL]. eapply wp_mono; [by apply (dict_update_ok mem Hmem h D i L arg kw)|].
    intros r h' (ps & bad & D' & HG & HP & R'). apply wp_ret. exists D'. split; [|done]. by exists ps, bad, r.
  - destruct (lookup_lt_is_Some_2 D i Hv) as [L Hi]. eapply wp_mono; [by apply (view_items_ok kind i L h D)|].
    intros l h' [-> Hl]. apply wp_ret. exists D. split; [|done]. by exists L, l.
  - destruct Hv as [Hi Hj]. destruct (lookup_lt_is_Some_2 D i Hi) as [L1 H1]. destruct (lookup_lt_is_Some_2 D j Hj) as [L2 H2].
    eapply wp_mono; [by apply (dict_equal_ok mem Hmem h D i j L1 L2)|].
    intros r h' (-> & b & -> & Hb). apply wp_ret. exists D. split; [|done]. by exists L1, L2, b.
Qed.

Lemma dicts_run_ok ops : forall h D, dreps h D -> wp (dicts_run ops) (fun rs h' => exists D', means_all ops D rs D' /\ dreps h' D') h.
Proof using Laws Hmem.
  induction ops as [|op ops IH]; intros h D R; [apply wp_ret; by exists D|]. apply wp_bind, wp_gets, wp_bind.
  rewrite (dreps_length _ _ R). assert (Hop : wp (if valid_op (length D) op then exec_in op else ret Unnamed)
    (fun r h' => exists D', (if valid_op (length D) op then means op D r D' else r = Unnamed /\ D' = D) /\ dreps h' D') h).
  { destruct (valid_op (length D) op) eqn:Hv; [by apply exec_in_ok|]. apply wp_ret. by exists D. }
  eapply wp_mono; [exact Hop|]. intros r h1 (D1 & HM & R1). apply wp_bind.
  eapply wp_mono; [by apply (IH h1 D1)|]. intros rs h2 (D2 & HM2 & R2). apply wp_ret. exists D2. split; [|done]. by exists D1.
Qed.

End Programs.

(** * An instance *)

Import Objects.

Definition demo_memory : @dict_memory object := DictMemory (fun h => Nat.ltb (length h) 5) (fun _ n => n <? 7).

Definition demo_dicts : list (@dicts_op object) :=
  [Make None [(Qstr 1, Int 10); (Qstr 2, Int 20)]; On 0 (Store (Int 5) (Int 50)); Copy 0; Equal 0 1; On 1 (Delete (Str 1 0)); Equal 0 1;
   Update 1 (Some (ADict 0)) [(Qstr 3, NoneObj)]; On 0 Len; View MP_DICT_VIEW_KEYS 1; Make (Some (APairs [[Int 1; Int 2]; [Int 3]])) [];
   FromKeys [Int 1; Int 2; Int 1] (Some 3) NoneObj; Update 2 (Some (ADict 2)) []; Update 1 (Some (ADict 2)) [(Int 8, Int 9); (Int 9, Int 9)]; Equal 0 0].

