(* ===== verification/ObjSet.v ===== *)
(** ObjSet: the sets of the Python interpreter (the set part of py/map.c, and
    py/objset.c), in the configuration of the port, which has no [frozenset].  A
    program has several sets; an operation is applied to one of them and takes
    other sets, or other iterables, as arguments, also the same set twice. *)

From stdpp Require Import options.
From S2P Require Import Prelude Map.

Section Sets.
Context {obj : Type} `{MpObj obj}.

Record mp_set_t := MkSet { s_alloc : Z; s_used : Z; s_table : list (@mp_obj_t obj) }.

Abbreviation SM := (M mp_set_t).

Definition set_s_used (f : Z -> Z) (s : mp_set_t) : mp_set_t := MkSet (s_alloc s) (f (s_used s)) (s_table s).
Definition set_s_table (f : list mp_obj_t -> list mp_obj_t) (s : mp_set_t) : mp_set_t := MkSet (s_alloc s) (s_used s) (f (s_table s)).

(** [set->table[pos]]; a position that is not in the table is undefined. *)
Definition elem_at (pos : Z) : SM mp_obj_t := getso (fun s => s_table s !! Z.to_nat pos).
Definition put_elem (pos : Z) (x : mp_obj_t) : SM unit := elem_at pos ;; modify (set_s_table (<[Z.to_nat pos := x]>)).

Section Memory.
(** Whether a table of the given number of elements can be allocated. *)
Variable avail : Z -> bool.

(** [m_new0]; no memory is needed for no elements. *)
Definition m_new0 (n : Z) : SM (unit + exn obj) :=
  if (n =? 0) || avail n then modify (set_s_table (fun _ => replicate (Z.to_nat n) MP_OBJ_NULL)) ;; ret (inl tt)
  else ret (inr MemoryError).

Definition mp_set_init (n : Z) : SM (unit + exn obj) :=
  modify (fun s => MkSet n 0 (s_table s)) ;; m_new0 n.

Definition set_lookup_t : Type := obj -> mp_map_lookup_kind_t -> SM (@mp_obj_t obj + exn obj).

(** The loop of [mp_set_rehash] over the old table. *)
Fixpoint set_reinsert (lookup : set_lookup_t) (old_table : list mp_obj_t) : SM (unit + exn obj) :=
  match old_table with
  | [] => ret (inl tt)
  | Obj k :: old_table => _ <-? lookup k MP_MAP_LOOKUP_ADD_IF_NOT_FOUND ;; set_reinsert lookup old_table
  | _ :: old_table => set_reinsert lookup old_table
  end.

Definition mp_set_rehash (lookup : set_lookup_t) : SM (unit + exn obj) :=
  old_table <- gets s_table ;;
  modify (fun s => MkSet (get_hash_alloc_greater_or_equal_to (s_alloc s + 1)) 0 (s_table s)) ;;
  n <- gets s_alloc ;;
  _ <-? m_new0 n ;;
  set_reinsert lookup old_table.

(** The index is put into the slot. *)
Definition set_add_at (index : obj) (pos : Z) : SM mp_obj_t :=
  modify (set_s_used (fun u => u + 1)) ;; put_elem pos (Obj index) ;; ret (Obj index).

(** The element at [pos] is deleted. *)
Definition set_delete_at (pos : Z) : SM unit :=
  modify (set_s_used (fun u => u - 1)) ;;
  n <- gets s_alloc ;;
  after <- elem_at ((pos + 1) mod n) ;;
  put_elem pos (match after with MP_OBJ_NULL => MP_OBJ_NULL | _ => MP_OBJ_SENTINEL end).

(** One slot of the probe; [(pos, start_pos, avail_slot)]. *)
Definition set_probe (lookup : set_lookup_t) (index : obj) (kind : mp_map_lookup_kind_t) (hash : Z)
    (st : Z * Z * option Z) : SM ((Z * Z * option Z) + (mp_obj_t + exn obj)) :=
  let '(pos, start_pos, avail_slot) := st in
  let next (avail_slot : option Z) :=
    n <- gets s_alloc ;;
    let pos := (pos + 1) mod n in
    if pos =? start_pos then
      if adds kind then
        match avail_slot with
        | Some a => r <- set_add_at index a ;; ret (inr (inl r))
        | None =>
            r <- mp_set_rehash lookup ;;
            match r with
            | inl _ => n <- gets s_alloc ;; ret (inl (hash mod n, hash mod n, None))
            | inr e => ret (inr (inr e))
            end
        end
      else ret (inr (inl MP_OBJ_NULL))
    else ret (inl (pos, start_pos, avail_slot)) in
  elem <- elem_at pos ;;
  match elem with
  | MP_OBJ_NULL =>
      if adds kind then r <- set_add_at index (match avail_slot with Some a => a | None => pos end) ;; ret (inr (inl r))
      else ret (inr (inl MP_OBJ_NULL))
  | MP_OBJ_SENTINEL => next (match avail_slot with Some a => Some a | None => Some pos end)
  | Obj k =>
      if mp_obj_equal k index then when (removes kind) (set_delete_at pos) ;; ret (inr (inl elem))
      else next avail_slot
  end.

(** The slots that are visited at most: the table, once more after it was
    enlarged. *)
Definition set_probe_fuel (s : mp_set_t) : nat :=
  Z.to_nat (s_alloc s + get_hash_alloc_greater_or_equal_to (s_alloc s + 1) + 2).

(** [depth] bounds the nesting of [mp_set_lookup] and [mp_set_rehash]. *)
Fixpoint set_lookup (depth : nat) (index : obj) (kind : mp_map_lookup_kind_t) : SM (mp_obj_t + exn obj) :=
  match depth with
  | O => undef
  | S depth =>
      n <- gets s_alloc ;;
      if (n =? 0) && negb (adds kind) then ret (inl MP_OBJ_NULL)
      else
        _ <-? (if n =? 0 then mp_set_rehash (set_lookup depth) else ret (inl tt)) ;;
        let hash := u32 (unary_op_hash index) in
        n <- gets s_alloc ;;
        fuel <- gets set_probe_fuel ;;
        loop fuel (set_probe (set_lookup depth) index kind hash) (hash mod n, hash mod n, None)
  end.

Definition mp_set_lookup : set_lookup_t := set_lookup 2.
End Memory.

Definition mp_set_slot_is_filled (pos : Z) : SM bool := x <- elem_at pos ;; ret (filled x).

(** [n] slots from [pos] on. *)
Fixpoint remove_first (n : nat) (pos : Z) : SM mp_obj_t :=
  match n with
  | O => ret MP_OBJ_NULL
  | S n =>
      f <- mp_set_slot_is_filled pos ;;
      if f : bool then elem <- elem_at pos ;; set_delete_at pos ;; ret elem
      else remove_first n (pos + 1)
  end.

Definition mp_set_remove_first : SM mp_obj_t := n <- gets s_alloc ;; remove_first (Z.to_nat n) 0.

Definition mp_set_clear : SM unit := modify (fun _ => MkSet 0 0 []).

(** [n] slots from [i] on. *)
Fixpoint set_it_from (n : nat) (i : Z) : SM (option (mp_obj_t * Z)) :=
  match n with
  | O => ret None
  | S n =>
      f <- mp_set_slot_is_filled i ;;
      if f : bool then elem <- elem_at i ;; ret (Some (elem, i + 1)) else set_it_from n (i + 1)
  end.

(** The next element and the new value of [self->cur]; [None] is
    [MP_OBJ_STOP_ITERATION]. *)
Definition set_it_iternext (cur : Z) : SM (option (mp_obj_t * Z)) :=
  max <- gets s_alloc ;; set_it_from (Z.to_nat (max - cur)) cur.

(** * Set objects *)

(** The set objects of the program; a set object is its number. *)
Abbreviation sets := (list mp_set_t).
Abbreviation HM := (M sets).

(** What [mp_getiter] and [mp_iternext] make of an argument: a set object is
    iterated over by [set_it_iternext]; another object gives its items. *)
Inductive iterable := Items (l : list obj) | OfSet (j : nat).

(** Whether memory is there when the sets are as given: for a set object, and for a
    table. *)
Record memory := Memory { can_object : sets -> bool; can_table : sets -> Z -> bool }.
Variable mem : memory.

Definition lookup_in (i : nat) (index : obj) (kind : mp_map_lookup_kind_t) : HM (mp_obj_t + exn obj) :=
  h <- gets (fun h => h) ;; on i (mp_set_lookup (can_table mem h) index kind).

(** [m_new_obj] and [mp_set_init]: the new object. *)
Definition new_set (n : Z) : HM (nat + exn obj) :=
  h <- gets (fun h => h) ;;
  if can_object mem h then
    modify (fun h => h ++ [MkSet 0 0 []]) ;;
    _ <-? on (length h) (mp_set_init (can_table mem h) n) ;;
    ret (inl (length h))
  else ret (inr MemoryError).

(** The loop [while ((item = mp_iternext(iterable)) != MP_OBJ_STOP_ITERATION)]; the body
    returns whether the loop is left, and so does the loop. *)
Fixpoint over_items (l : list obj) (body : obj -> HM (bool + exn obj)) : HM (bool + exn obj) :=
  match l with
  | [] => ret (inl false)
  | x :: l => stop <-? body x ;; if stop : bool then ret (inl true) else over_items l body
  end.

Fixpoint over_set (fuel : nat) (j : nat) (cur : Z) (body : obj -> HM (bool + exn obj)) : HM (bool + exn obj) :=
  match fuel with
  | O => undef
  | S fuel =>
      next <- on j (set_it_iternext cur) ;;
      match next with
      | None => ret (inl false)
      | Some (Obj x, cur) => stop <-? body x ;; if stop : bool then ret (inl true) else over_set fuel j cur body
      | Some _ => undef
      end
  end.

(** Every step passes a slot, so the number of slots bounds the steps. *)
Definition iterate (it : iterable) (body : obj -> HM (bool + exn obj)) : HM (bool + exn obj) :=
  match it with
  | Items l => over_items l body
  | OfSet j => n <- on j (gets s_alloc) ;; over_set (S (Z.to_nat n)) j 0 body
  end.

(** A body that does not leave the loop. *)
Definition each {A} (body : obj -> HM (A + exn obj)) (x : obj) : HM (bool + exn obj) := _ <-? body x ;; ret (inl false).

Definition set_add (self : nat) (item : obj) : HM (unit + exn obj) :=
  _ <-? lookup_in self item MP_MAP_LOOKUP_ADD_IF_NOT_FOUND ;; ret (inl tt).

Definition mp_obj_set_store : nat -> obj -> HM (unit + exn obj) := set_add.

Definition set_clear (self : nat) : HM unit := on self mp_set_clear.

Definition mp_obj_new_set (items : list obj) : HM (nat + exn obj) :=
  o <-? new_set (Z.of_nat (length items)) ;;
  _ <-? over_items items (each (fun x => lookup_in o x MP_MAP_LOOKUP_ADD_IF_NOT_FOUND)) ;;
  ret (inl o).

(** [set()] and [set(iterable)]. *)
Definition set_make_new (arg : option iterable) : HM (nat + exn obj) :=
  set <-? mp_obj_new_set [] ;;
  match arg with
  | None => ret (inl set)
  | Some it => _ <-? iterate it (each (mp_obj_set_store set)) ;; ret (inl set)
  end.

Definition set_copy (self : nat) : HM (nat + exn obj) :=
  n <- on self (gets s_alloc) ;;
  other <-? new_set n ;;
  s <- getso (fun h : sets => h !! self) ;;
  on other (modify (set_s_used (fun _ => s_used s))) ;;
  on other (modify (set_s_table (fun _ => s_table s))) ;;
  ret (inl other).

Definition set_discard (self : nat) (item : obj) : HM (unit + exn obj) :=
  _ <-? lookup_in self item MP_MAP_LOOKUP_REMOVE_IF_FOUND ;; ret (inl tt).

(** The loop of [set_diff_int] over the arguments. *)
Fixpoint diff_args (self : nat) (others : list iterable) : HM (unit + exn obj) :=
  match others with
  | [] => ret (inl tt)
  | other :: others =>
      _ <-? (if match other with OfSet j => Nat.eqb j self | Items _ => false end then set_clear self ;; ret (inl false)
             else iterate other (each (fun x => lookup_in self x MP_MAP_LOOKUP_REMOVE_IF_FOUND))) ;;
      diff_args self others
  end.

Definition set_diff_int (self : nat) (others : list iterable) (update : bool) : HM (nat + exn obj) :=
  self <-? (if update then ret (inl self) else set_copy self) ;;
  _ <-? diff_args self others ;;
  ret (inl self).

(** No reference to the last object that was created is left. *)
Definition forget : HM unit := modify (fun h => take (length h - 1) h).

(** The result is the new set, or nothing for an update, which takes over its
    table. *)
Definition set_intersect_int (self : nat) (other : iterable) (update : bool) : HM (option nat + exn obj) :=
  if match other with OfSet j => Nat.eqb j self | Items _ => false end then
    if update then ret (inl None) else o <-? set_copy self ;; ret (inl (Some o))
  else
    out <-? mp_obj_new_set [] ;;
    _ <-? iterate other (fun next =>
      e <-? lookup_in self next MP_MAP_LOOKUP ;;
      if filled e then _ <-? set_add out next ;; ret (inl false) else ret (inl false)) ;;
    if update then
      s <- getso (fun h : sets => h !! out) ;;
      on self (modify (fun _ => s)) ;; forget ;;
      ret (inl None)
    else ret (inl (Some out)).

Definition set_isdisjoint (self : nat) (other : iterable) : HM (bool + exn obj) :=
  found <-? iterate other (fun next => e <-? lookup_in self next MP_MAP_LOOKUP ;; ret (inl (filled e))) ;;
  ret (inl (negb found)).

(** An argument that is no set is made one, which is to be cleaned up. *)
Definition as_set (it : iterable) : HM (nat * bool + exn obj) :=
  match it with
  | OfSet j => ret (inl (j, false))
  | Items l => o <-? set_make_new (Some it) ;; ret (inl (o, true))
  end.

Definition set_issubset_internal (self_in other_in : iterable) (proper : bool) : HM (bool + exn obj) :=
  self <-? as_set self_in ;;
  other <-? as_set other_in ;;
  u1 <- on (fst self) (gets s_used) ;;
  u2 <- on (fst other) (gets s_used) ;;
  out <-? (if proper && (u1 =? u2) then ret (inl false)
           else
             missing <-? iterate (OfSet (fst self)) (fun next =>
               e <-? lookup_in (fst other) next MP_MAP_LOOKUP ;; ret (inl (negb (filled e)))) ;;
             ret (inl (negb missing))) ;;
  when (snd self) (set_clear (fst self)) ;;
  when (snd other) (set_clear (fst other)) ;;
  when (snd other) forget ;;
  when (snd self) forget ;;
  ret (inl out).

Definition set_issubset (self other : iterable) : HM (bool + exn obj) := set_issubset_internal self other false.
Definition set_issubset_proper (self other : iterable) : HM (bool + exn obj) := set_issubset_internal self other true.
Definition set_issuperset (self other : iterable) : HM (bool + exn obj) := set_issubset_internal other self false.
Definition set_issuperset_proper (self other : iterable) : HM (bool + exn obj) := set_issubset_internal other self true.

Definition set_equal (self other : nat) : HM (bool + exn obj) :=
  u1 <- on self (gets s_used) ;;
  u2 <- on other (gets s_used) ;;
  if negb (u1 =? u2) then ret (inl false) else set_issubset (OfSet self) (OfSet other).

Definition set_pop (self : nat) : HM (mp_obj_t + exn obj) :=
  x <- on self mp_set_remove_first ;;
  match x with MP_OBJ_NULL => ret (inr (KeyError None)) | _ => ret (inl x) end.

Definition set_remove (self : nat) (item : obj) : HM (unit + exn obj) :=
  x <-? lookup_in self item MP_MAP_LOOKUP_REMOVE_IF_FOUND ;;
  match x with MP_OBJ_NULL => ret (inr (KeyError (Some item))) | _ => ret (inl tt) end.

Definition set_symmetric_difference_update (self : nat) (other : iterable) : HM (unit + exn obj) :=
  _ <-? iterate other (each (fun x => lookup_in self x MP_MAP_LOOKUP_ADD_IF_NOT_FOUND_OR_REMOVE_IF_FOUND)) ;;
  ret (inl tt).

Definition set_symmetric_difference (self : nat) (other : iterable) : HM (nat + exn obj) :=
  out <-? set_copy self ;;
  _ <-? set_symmetric_difference_update out other ;;
  ret (inl out).

Definition set_update_int (self : nat) (other : iterable) : HM (unit + exn obj) :=
  _ <-? iterate other (each (fun x => lookup_in self x MP_MAP_LOOKUP_ADD_IF_NOT_FOUND)) ;;
  ret (inl tt).

Fixpoint set_update (self : nat) (others : list iterable) : HM (unit + exn obj) :=
  match others with
  | [] => ret (inl tt)
  | other :: others => _ <-? set_update_int self other ;; set_update self others
  end.

Definition set_union (self : nat) (other : iterable) : HM (nat + exn obj) :=
  o <-? set_copy self ;;
  _ <-? set_update_int o other ;;
  ret (inl o).

Definition set_bool (self : nat) : HM bool := u <- on self (gets s_used) ;; ret (negb (u =? 0)).
Definition set_len (self : nat) : HM Z := on self (gets s_used).

(** What the operators give: a set object, a truth value, or [MP_OBJ_NULL] for an
    operation that is not supported. *)
Inductive result := ASet (i : nat) | ABool (b : bool) | Unsupported.

Inductive set_operator :=
  | OR | XOR | AND | SUBTRACT
  | INPLACE_OR | INPLACE_XOR | INPLACE_AND | INPLACE_SUBTRACT
  | LESS | MORE | EQUAL | LESS_EQUAL | MORE_EQUAL.

Definition as_result {A} (f : A -> result) (c : HM (A + exn obj)) : HM (result + exn obj) := x <-? c ;; ret (inl (f x)).

(** The operators with a right operand, which has to be a set. *)
Definition set_binary_op (op : set_operator) (lhs : nat) (rhs : iterable) : HM (result + exn obj) :=
  match rhs with
  | Items _ => ret (inl Unsupported)
  | OfSet r =>
      match op with
      | OR => as_result ASet (set_union lhs rhs)
      | XOR => as_result ASet (set_symmetric_difference lhs rhs)
      | AND => as_result (fun o => match o with Some i => ASet i | None => Unsupported end) (set_intersect_int lhs rhs false)
      | SUBTRACT => as_result ASet (set_diff_int lhs [rhs] false)
      | INPLACE_OR => as_result (fun _ => ASet lhs) (set_update lhs [rhs])
      | INPLACE_XOR => as_result (fun _ => ASet lhs) (set_symmetric_difference_update lhs rhs)
      | INPLACE_AND => as_result (fun _ => ASet lhs) (set_intersect_int lhs rhs true)
      | INPLACE_SUBTRACT => as_result ASet (set_diff_int lhs [rhs] true)
      | LESS => as_result ABool (set_issubset_proper (OfSet lhs) rhs)
      | MORE => as_result ABool (set_issuperset_proper (OfSet lhs) rhs)
      | EQUAL => as_result ABool (set_equal lhs r)
      | LESS_EQUAL => as_result ABool (set_issubset (OfSet lhs) rhs)
      | MORE_EQUAL => as_result ABool (set_issuperset (OfSet lhs) rhs)
      end
  end.

(** [rhs in lhs]. *)
Definition set_contains (lhs : nat) (rhs : obj) : HM (bool + exn obj) :=
  e <-? lookup_in lhs rhs MP_MAP_LOOKUP ;; ret (inl (filled e)).
End Sets.
