(* ===== verification/SetOps.v ===== *)
(** SetOps: the invariant of a set of the interpreter and [mp_set_lookup], with adding,
    removing and growth. *)

From stdpp Require Import options.
From S2P Require Import Prelude Map MapInv ObjSet.

#[local] Ltac Zify.zify_post_hook ::= Z.to_euclidean_division_equations.

Section SetLookup.
Context {obj : Type} `{Laws : MpObjLaws obj}.
Implicit Types (s : @mp_set_t obj) (a b index : obj) (K T : list (@mp_obj_t obj)).

Record sinv s : Prop := {
  si_len : Z.of_nat (length (s_table s)) = s_alloc s;
  si_small : s_alloc s < 2 ^ 30;
  si_used : s_used s = nfilled (s_table s);
  si_keys : kinv (s_table s)
}.

(** The object is an element. *)
Definition has s a : Prop := Obj a ∈ s_table s.

Lemma has_lookup s a : has s a <-> exists p, s_table s !! p = Some (Obj a).
Proof. apply list_elem_of_lookup. Qed.

Lemma absent_has s index : absent (s_table s) index <-> forall a, has s a -> mp_obj_equal a index = false.
Proof.
  split; [intros Ha a [p Hp]%has_lookup; by apply (Ha p)|]. intros Ha p a Hp. apply Ha, has_lookup. by exists p.
Qed.

Lemma set_hash index : u32 (unary_op_hash index) = hash_of index.
Proof using Laws. unfold hash_of. destruct (mp_obj_is_qstr index) eqn:E; [|done]. by rewrite hash_qstr. Qed.

(** ** Slots *)

Lemma wp_elem_at s pos x (Q : mp_obj_t -> mp_set_t -> Prop) : s_table s !! Z.to_nat pos = Some x -> Q x s -> wp (elem_at pos) Q s.
Proof. intros Hx HQ. by apply (wp_getso _ x). Qed.

Lemma wp_put_elem s pos x y (Q : unit -> mp_set_t -> Prop) : s_table s !! Z.to_nat pos = Some x ->
  Q tt (set_s_table (<[Z.to_nat pos := y]>) s) -> wp (put_elem pos y) Q s.
Proof. intros Hx HQ. apply wp_bind, (wp_elem_at s pos x); [done|]. by apply wp_modify. Qed.

(** The index was added, and nothing else has changed. *)
Record put s index s' : Prop := {
  p_inv : sinv s';
  p_has : forall a, has s' a <-> a = index \/ has s a;
  p_used : s_used s' = s_used s + 1
}.

(** The element was removed. *)
Record taken s a s' : Prop := {
  t_inv : sinv s';
  t_has : forall b, has s' b <-> has s b /\ mp_obj_equal b a = false;
  t_used : s_used s' = s_used s - 1;
  t_alloc : s_alloc s' = s_alloc s;
  t_keep : forall p b, s_table s' !! p = Some (Obj b) -> s_table s !! p = Some (Obj b)
}.

Lemma has_insert_free s p x a : (p < length (s_table s))%nat -> (forall b, s_table s !! p <> Some (Obj b)) ->
  Obj a ∈ <[p := x]> (s_table s) <-> x = Obj a \/ has s a.
Proof.
  intros Hl Hfree. rewrite has_lookup, list_elem_of_lookup. split.
  - intros (q & [(<- & -> & _)|[_ Hq]]%list_lookup_insert_Some); [by left|right; by exists q].
  - intros [->|[q Hq]]; [exists p; by apply list_lookup_insert_eq|]. exists q. rewrite list_lookup_insert_ne; [done|]. intros ->.
    by apply (Hfree a).
Qed.

Lemma wp_set_add_at s index p (Q : mp_obj_t -> mp_set_t -> Prop) : sinv s -> absent (s_table s) index ->
  slot_for (s_table s) index p -> (forall a, s_table s !! Z.to_nat p <> Some (Obj a)) ->
  (forall s', put s index s' -> s_alloc s' = s_alloc s -> Q (Obj index) s') -> wp (set_add_at index p) Q s.
Proof using Laws.
  intros I Ha Hs Hfree HQ. assert (Hl : (Z.to_nat p < length (s_table s))%nat).
  { destruct Hs as (d & Hd & -> & _). pose proof (nth_pos_range (Z.of_nat (length (s_table s))) index d). lia. }
  destruct (lookup_lt_is_Some_2 _ _ Hl) as [x Hx]. apply wp_bind, wp_modify, wp_bind.
  apply (wp_put_elem _ _ x); [exact Hx|]. apply wp_ret, HQ; [|done]. destruct I as [Il Is Iu Ik].
  split; [split| |]; simpl; try done.
  - by rewrite length_insert.
  - rewrite (nfilled_insert _ _ x) by done. destruct x; [simpl; lia..|by destruct (Hfree o)].
  - by apply kinv_add.
  - intros a. unfold has at 1. simpl. rewrite has_insert_free by done. split; (intros [E|?]; [left; congruence|by right]).
Qed.

Lemma wp_set_delete_at s p a (Q : unit -> mp_set_t -> Prop) : sinv s -> 0 <= p < s_alloc s -> s_table s !! Z.to_nat p = Some (Obj a) ->
  (forall s', taken s a s' -> Q tt s') -> wp (set_delete_at p) Q s.
Proof using Laws.
  intros I Hp Hx HQ. pose proof I as [Il Is Iu Ik]. pose proof (Z.mod_pos_bound (p + 1) (s_alloc s) ltac:(lia)) as Hm.
  destruct (lookup_lt_is_Some_2 (s_table s) (Z.to_nat ((p + 1) mod s_alloc s))) as [y Hy]; [lia|].
  apply wp_bind, wp_modify, wp_bind, wp_gets, wp_bind, (wp_elem_at _ _ y); [exact Hy|]. apply (wp_put_elem _ _ (Obj a)); [exact Hx|].
  apply HQ. set (x := match y with MP_OBJ_NULL => _ | _ => _ end). assert (Hf : filled x = false) by (by destruct y).
  assert (Hl : (Z.to_nat p < length (s_table s))%nat) by lia.
  split; [split| | | |]; simpl; try done.
  - by rewrite length_insert.
  - rewrite (nfilled_insert _ _ (Obj a)) by done. rewrite Hf. simpl. lia.
  - apply (kinv_remove _ _ a); [done|done|done|]. intros E. rewrite Z2Nat.id, Il, Hy by lia. by destruct y.
  - intros b. rewrite !has_lookup. simpl. split.
    + intros (q & [(<- & E & _)|[Hne Hq]]%list_lookup_insert_Some); [by rewrite E in Hf|]. split; [by exists q|].
      destruct (mp_obj_equal b a) eqn:E; [|done]. destruct Hne. by apply (k_unique _ Ik _ _ a b); [..|rewrite equal_sym].
    + intros [[q Hq] Hne]. exists q. rewrite list_lookup_insert_ne; [done|]. intros <-.
      assert (b = a) as -> by congruence. by rewrite equal_refl in Hne.
  - intros q b [(<- & E & _)|[_ Hq]]%list_lookup_insert_Some; [by rewrite E in Hf|done].
Qed.

(** A new table. *)
Lemma sinv_empty n : 0 <= n < 2 ^ 30 -> sinv (MkSet n 0 (replicate (Z.to_nat n) MP_OBJ_NULL)).
Proof.
  intros Hn. split; simpl; [rewrite length_replicate; lia|lia| |apply kinv_empty].
  unfold nfilled. rewrite filter_none; [done|]. by apply Forall_replicate.
Qed.

Lemma empty_has n u a : ~ has (MkSet n u (replicate (Z.to_nat n) MP_OBJ_NULL)) a.
Proof. intros [p [? _]%lookup_replicate]%has_lookup. done. Qed.

Record sgrown s s' : Prop := {
  sg_inv : sinv s';
  sg_alloc : s_alloc s < s_alloc s';
  sg_alloc' : s_alloc s' = get_hash_alloc_greater_or_equal_to (s_alloc s + 1);
  sg_used : s_used s' = s_used s;
  sg_has : forall a, has s' a <-> has s a
}.

(** What [mp_set_rehash] leaves when there is no memory. *)
Definition broken s : mp_set_t := MkSet (get_hash_alloc_greater_or_equal_to (s_alloc s + 1)) 0 (s_table s).

Lemma put_grown s s1 index s' : sgrown s s1 -> put s1 index s' -> put s index s'.
Proof.
  intros G A. split; [apply A| |rewrite (p_used _ _ _ A), (sg_used _ _ G); done]. intros a. rewrite (p_has _ _ _ A), (sg_has _ _ G). done.
Qed.

Context (avail : Z -> bool).

(** * The probe *)

Section Probe.
Context (lookup : @set_lookup_t obj) (index : obj) (kind : mp_map_lookup_kind_t) (s : @mp_set_t obj) (I : sinv s) (Hpos : 0 < s_alloc s).
Context (Q : @mp_obj_t obj + exn obj -> @mp_set_t obj -> Prop) (F : Z).

Let body := set_probe avail lookup index kind (hash_of index).

Context (HF : forall a, has s a -> mp_obj_equal a index = true -> removes kind = false -> Q (inl (Obj a)) s).
Context (HD : forall a s', has s a -> mp_obj_equal a index = true -> removes kind = true -> taken s a s' -> Q (inl (Obj a)) s').
Context (HN : absent (s_table s) index -> adds kind = false -> Q (inl MP_OBJ_NULL) s).
Context (HA : forall s', absent (s_table s) index -> adds kind = true -> put s index s' -> s_alloc s' = s_alloc s -> Q (inl (Obj index)) s').
Context (HR : forall fuel, F <= Z.of_nat fuel -> absent (s_table s) index -> adds kind = true -> nfilled (s_table s) = s_alloc s ->
  wp (r <- mp_set_rehash avail lookup ;;
      match r with
      | inl _ => n <- gets s_alloc ;; ret (inl (hash_of index mod n, hash_of index mod n, None))
      | inr e => ret (inr (inr e))
      end) (fun r s' => match r with inl st => wp (loop fuel body st) Q s' | inr b => Q b s' end) s).

Lemma set_probe_pos i : 0 <= i -> exists x, s_table s !! Z.to_nat (nth_pos (s_alloc s) index i) = Some x.
Proof using I Hpos.
  intros Hi. apply lookup_lt_is_Some_2. pose proof (nth_pos_range (s_alloc s) index i Hpos). pose proof (si_len _ I). lia.
Qed.

Lemma set_probe_loop fuel : forall i av, s_alloc s - i + F <= Z.of_nat fuel -> 0 <= F -> 0 <= i < s_alloc s ->
  visited (s_table s) index i av ->
  wp (loop fuel body (nth_pos (s_alloc s) index i, hash_of index mod s_alloc s, av)) Q s.
Proof using Laws I Hpos HF HD HN HA HR.
  pose proof (si_len _ I) as Hlen.
  induction fuel as [|fuel IH]; intros i av Hf HF0 Hi V; [lia|]. apply wp_loop_step. unfold body at 1, set_probe.
  pose proof (nth_pos_range (s_alloc s) index i Hpos) as Hr. destruct (set_probe_pos i ltac:(lia)) as [x Hx].
  pose proof (probe_null (s_table s) index i av) as Hnull. pose proof (probe_next (s_table s) index i av x) as Hnext.
  cbv zeta in Hnull, Hnext. rewrite Hlen in Hnull, Hnext. set (p := nth_pos (s_alloc s) index i) in *.
  assert (Hadd : forall q, absent (s_table s) index -> adds kind = true -> slot_for (s_table s) index q ->
    (forall a, s_table s !! Z.to_nat q <> Some (Obj a)) ->
    wp (r <- set_add_at index q ;; ret (inr (inl r))) (fun r s' => match r with inl st => wp (loop fuel body st) Q s' | inr b => Q b s' end) s).
  { intros q Habs Ek Hs Hfree. apply wp_bind, wp_set_add_at; [done..|]. intros s' A Ea. apply wp_ret. by apply HA. }
  apply wp_bind, (wp_elem_at s p x); [done|].
  destruct (filled x && match x with Obj a => mp_obj_equal a index | _ => false end) eqn:Efound.
  { destruct x as [| |a]; [done..|]. simpl in Efound. rewrite Efound.
    assert (Ha : has s a) by (apply has_lookup; by eexists). apply wp_bind. unfold when. destruct (removes kind) eqn:Ek.
    - apply (wp_set_delete_at s p a); [done|lia|done|]. intros s' T. apply wp_ret. by apply HD.
    - apply wp_ret, wp_ret. by apply HF. }
  assert (x = MP_OBJ_NULL \/ x <> MP_OBJ_NULL) as [->|Hn] by (destruct x; auto).
  { destruct (Hnull (si_keys _ I) V Hi Hx) as (Habs & Hs & Hfree). destruct (adds kind) eqn:Ek; [by apply Hadd|by apply wp_ret, HN]. }
  destruct (Hnext (si_keys _ I) V Hi Hx Hn ltac:(intros a ->; exact Efound)) as (V' & Hend). clear Hnext Hnull.
  set (av' := match x with MP_OBJ_SENTINEL => match av with Some a => Some a | None => Some p end | _ => av end) in *.
  assert (Hgo : forall c, c = (if (p + 1) mod s_alloc s =? hash_of index mod s_alloc s then
      if adds kind then
        match av' with
        | Some a => r <- set_add_at index a ;; ret (inr (inl r))
        | None =>
            r <- mp_set_rehash avail lookup ;;
            match r with
            | inl _ => n <- gets s_alloc ;; ret (inl (hash_of index mod n, hash_of index mod n, None))
            | inr e => ret (inr (inr e))
            end
        end
      else ret (inr (inl MP_OBJ_NULL))
    else ret (inl ((p + 1) mod s_alloc s, hash_of index mod s_alloc s, av'))) ->
    wp c (fun r s' => match r with inl st => wp (loop fuel body st) Q s' | inr b => Q b s' end) s).
  { intros c ->. destruct (Z.eqb_spec ((p + 1) mod s_alloc s) (hash_of index mod s_alloc s)) as [Ew|Ew].
    - destruct Hend as [Habs Hav]. destruct (adds kind) eqn:Ek; [|by apply wp_ret, HN]. destruct av' as [q|].
      + by apply Hadd; [..|apply Hav|apply Hav].
      + apply HR; [lia|done|done|done].
    - apply wp_ret. unfold p. rewrite nth_pos_next by done. apply IH; [lia|done|lia|done]. }
  destruct x as [| |a]; [done|by apply wp_bind, wp_gets, Hgo|].
  simpl in Efound. rewrite Efound. by apply wp_bind, wp_gets, Hgo.
Qed.
End Probe.

Lemma set_probe_start s index : 0 < s_alloc s ->
  (hash_of index mod s_alloc s, hash_of index mod s_alloc s, @None Z) = (nth_pos (s_alloc s) index 0, hash_of index mod s_alloc s, None).
Proof. intros. unfold nth_pos. by rewrite Z.add_0_r, Z.mod_mod by lia. Qed.

(** * Growth *)

Lemma set_add_room depth s index (Q : mp_obj_t + exn obj -> mp_set_t -> Prop) : sinv s -> s_used s < s_alloc s -> absent (s_table s) index ->
  (forall s', put s index s' -> s_alloc s' = s_alloc s -> Q (inl (Obj index)) s') ->
  wp (set_lookup avail (S depth) index MP_MAP_LOOKUP_ADD_IF_NOT_FOUND) Q s.
Proof using Laws.
  intros I Hroom Ha HQ. pose proof (nfilled_bound (s_table s)) as Hb. pose proof (si_used _ I). pose proof (si_small _ I).
  pose proof (get_hash_alloc_ge (s_alloc s + 1) ltac:(lia)). rewrite absent_has in Ha.
  simpl. apply wp_bind, wp_gets. rewrite andb_false_r. destruct (Z.eqb_spec (s_alloc s) 0); [lia|].
  apply wp_bind, wp_ret, wp_bind, wp_gets, wp_bind, wp_gets. rewrite set_hash, set_probe_start by lia.
  apply (set_probe_loop _ index _ s I ltac:(lia) Q 0); try done.
  - intros a Hh E. by rewrite (Ha a Hh) in E.
  - intros s' _ _ A Ea. by apply HQ.
  - intros fuel _ _ _ Hfull. lia.
  - unfold set_probe_fuel. lia.
  - lia.
  - apply visited_0.
Qed.

(** The elements of a table that are not in the set are inserted. *)
Lemma set_reinsert_spec depth T : forall s, sinv s -> s_used s + nfilled T < s_alloc s -> kdistinct T ->
  (forall a, Obj a ∈ T -> absent (s_table s) a) ->
  wp (set_reinsert (set_lookup avail (S depth)) T)
    (fun r s' => r = inl tt /\ sinv s' /\ s_alloc s' = s_alloc s /\ s_used s' = s_used s + nfilled T /\
      forall a, has s' a <-> has s a \/ Obj a ∈ T) s.
Proof using Laws.
  induction T as [|x T IH]; intros s I Hroom Hd Habs.
  { apply wp_ret. split; [done|]. split; [done|]. split; [done|]. split; [unfold nfilled; simpl; lia|].
    intros a. split; [by left|]. by intros [?|?%elem_of_nil]. }
  assert (Hskip : filled x = false -> nfilled (x :: T) = nfilled T /\ forall a, Obj a ∈ x :: T <-> Obj a ∈ T).
  { intros Hf. split; [unfold nfilled; by rewrite filter_cons_False by congruence|]. intros a. rewrite elem_of_cons.
    split; [|by right]. by intros [<-|?]. }
  simpl. destruct x as [| |k].
  1,2: destruct (Hskip eq_refl) as [Hn Ht]; rewrite Hn in *; eapply wp_mono;
    [apply IH; [done|done|by eapply kdistinct_tail|intros a Ha; apply Habs; by right]|];
    intros r s' (-> & I' & Ea & Eu & Hh); split_and!; try done; intros a; by rewrite Hh, Ht.
  pose proof (nfilled_bound T). assert (Hn : nfilled (Obj k :: T) = nfilled T + 1) by (unfold nfilled; rewrite filter_cons_True by done; simpl; lia).
  apply wp_bind, set_add_room; [done|lia|apply Habs; by left|]. intros s1 A Ea. pose proof (p_used _ _ _ A) as Eu.
  eapply wp_mono; [apply IH; [apply A|lia|by eapply kdistinct_tail|]|].
  - intros a Ha. apply absent_has. intros b [->|Hb]%(p_has _ _ _ A); [by apply (kdistinct_head T)|].
    apply (proj1 (absent_has s a)); [|done]. apply Habs. by right.
  - intros r s' (-> & I' & Ea' & Eu' & Hh). split; [done|]. split; [done|]. split; [congruence|]. split; [lia|].
    intros a. rewrite Hh, (p_has _ _ _ A), elem_of_cons. split; [intros [[->|?]|?]; auto|intros [?|[[= ->]|?]]; auto].
Qed.

Context (Havail : forall n, avail n = true -> n < 2 ^ 30).

Lemma wp_mp_set_rehash depth s (Q : unit + exn obj -> mp_set_t -> Prop) : sinv s ->
  (avail (get_hash_alloc_greater_or_equal_to (s_alloc s + 1)) = false -> Q (inr MemoryError) (broken s)) ->
  (forall s', sgrown s s' -> avail (get_hash_alloc_greater_or_equal_to (s_alloc s + 1)) = true -> Q (inl tt) s') ->
  wp (mp_set_rehash avail (set_lookup avail (S depth))) Q s.
Proof using Laws Havail.
  intros I HE HQ. pose proof (si_small _ I). pose proof (si_len _ I). pose proof (get_hash_alloc_ge (s_alloc s + 1) ltac:(lia)) as HN.
  apply wp_bind, wp_gets, wp_bind, wp_modify, wp_bind, wp_gets. fold (broken s). simpl.
  set (N := get_hash_alloc_greater_or_equal_to (s_alloc s + 1)) in *. apply wp_bind. unfold m_new0.
  destruct (Z.eqb_spec N 0) as [E0|]; [lia|]. simpl. destruct (avail N) eqn:Eav; [|apply wp_ret, wp_ret, HE; done].
  apply wp_bind, wp_modify, wp_ret. unfold broken. fold N. change (set_s_table _ _) with (MkSet N 0 (replicate (Z.to_nat N) (@MP_OBJ_NULL obj))).
  pose proof (Havail N Eav). pose proof (nfilled_bound (s_table s)). eapply wp_mono.
  - apply set_reinsert_spec; [apply sinv_empty; lia|simpl; lia|intros p q a b; apply (si_keys _ I)|].
    intros a _. apply absent_has. by intros b Hb%empty_has.
  - intros r s' (-> & I' & Ea & Eu & Hh). apply HQ; [|done]. simpl in *. split; [done|lia|done|rewrite Eu, (si_used _ I); lia|].
    intros a. rewrite Hh. split; [by intros [?%empty_has|?]|by right].
Qed.

(** * mp_set_lookup *)

Lemma wp_mp_set_lookup s index kind (Q : mp_obj_t + exn obj -> mp_set_t -> Prop) : sinv s ->
  (forall a, has s a -> mp_obj_equal a index = true -> removes kind = false -> Q (inl (Obj a)) s) ->
  (forall a s', has s a -> mp_obj_equal a index = true -> removes kind = true -> taken s a s' -> Q (inl (Obj a)) s') ->
  (absent (s_table s) index -> adds kind = false -> Q (inl MP_OBJ_NULL) s) ->
  (forall s', absent (s_table s) index -> adds kind = true -> put s index s' ->
     (s_used s = s_alloc s -> avail (get_hash_alloc_greater_or_equal_to (s_alloc s + 1)) = true) -> Q (inl (Obj index)) s') ->
  (absent (s_table s) index -> adds kind = true -> s_used s = s_alloc s ->
     avail (get_hash_alloc_greater_or_equal_to (s_alloc s + 1)) = false -> Q (inr MemoryError) (broken s)) ->
  wp (mp_set_lookup avail index kind) Q s.
Proof using Laws Havail.
  intros I HF HD HN HA HE. pose proof (si_small _ I). pose proof (si_len _ I) as Hlen. pose proof (si_used _ I) as Hu.
  pose proof (nfilled_bound (s_table s)) as Hb. pose proof (get_hash_alloc_ge (s_alloc s + 1) ltac:(lia)) as HN1.
  assert (Hloop : forall fuel s1, sgrown s s1 -> avail (get_hash_alloc_greater_or_equal_to (s_alloc s + 1)) = true -> absent (s_table s) index -> adds kind = true -> s_alloc s1 <= Z.of_nat fuel ->
    wp (loop fuel (set_probe avail (set_lookup avail 1) index kind (hash_of index)) (hash_of index mod s_alloc s1, hash_of index mod s_alloc s1, None)) Q s1).
  { intros fuel s1 G Hav Habs Ek Hf. pose proof (sg_inv _ _ G) as I1. pose proof (sg_alloc _ _ G). pose proof (sg_used _ _ G).
    pose proof (proj1 (absent_has s index) Habs) as Habs'. rewrite set_probe_start by lia.
    apply (set_probe_loop _ index kind s1 I1 ltac:(lia) Q 0); try done.
    - intros a Ha%(sg_has _ _ G) E. by rewrite (Habs' a Ha) in E.
    - intros a s' Ha%(sg_has _ _ G) E. by rewrite (Habs' a Ha) in E.
    - intros _ E. congruence.
    - intros s' _ _ A _. apply HA; [done|done|by eapply put_grown|done].
    - intros fuel' _ _ _ Hfull. pose proof (si_used _ I1). lia.
    - lia.
    - lia.
    - apply visited_0. }
  unfold mp_set_lookup. cbn [set_lookup]. apply wp_bind, wp_gets. rewrite set_hash.
  destruct (Z.eqb_spec (s_alloc s) 0) as [E0|E0].
  - assert (Habs : absent (s_table s) index) by (intros p a Hp%lookup_lt_Some; lia). destruct (adds kind) eqn:Ek; [|by apply wp_ret, HN].
    apply wp_bind, (wp_mp_set_rehash 0 s); [done|intros Hav; apply wp_ret, HE; [done|done|lia|done]|].
    intros s1 G Hav. apply wp_bind, wp_gets, wp_bind, wp_gets. apply Hloop; [done..|]. unfold set_probe_fuel.
    pose proof (si_small _ (sg_inv _ _ G)). pose proof (sg_alloc _ _ G). pose proof (get_hash_alloc_ge (s_alloc s1 + 1) ltac:(lia)). lia.
  - apply wp_bind, wp_ret, wp_bind, wp_gets, wp_bind, wp_gets. rewrite set_probe_start by lia.
    apply (set_probe_loop _ index kind s I ltac:(lia) Q (get_hash_alloc_greater_or_equal_to (s_alloc s + 1))); try done.
    + intros s' Ha Ek A Ea. apply HA; [done..|]. intros Hfull. pose proof (p_used _ _ _ A). pose proof (si_used _ (p_inv _ _ _ A)).
      pose proof (nfilled_bound (s_table s')). pose proof (si_len _ (p_inv _ _ _ A)). lia.
    + intros fuel Hf Ha Ek Hfull. apply wp_bind, (wp_mp_set_rehash 0 s); [done|intros Hav; apply wp_ret, HE; [done|done|lia|done]|].
      intros s1 G Hav. apply wp_bind, wp_gets, wp_ret. apply Hloop; [done..|]. by rewrite (sg_alloc' _ _ G).
    + unfold set_probe_fuel. lia.
    + lia.
    + lia.
    + apply visited_0.
Qed.
End SetLookup.
