(* ===== verification/SetSys.v ===== *)
(** SetSys: the set objects of a program and the operations on them, as operations
    on sets of objects up to the equality of Python. *)

From stdpp Require Import options.
From S2P Require Import Prelude Map MapInv ObjSet SetOps.

#[local] Ltac Zify.zify_post_hook ::= Z.to_euclidean_division_equations.

Section System.
Context {obj : Type} `{Laws : MpObjLaws obj}.
Implicit Types (s : @mp_set_t obj) (a b x index : obj) (P R : obj -> bool) (h : list (@mp_set_t obj)) (A : list (obj -> bool)).

(** The set holds the objects for which [P] is true. *)
Definition sholds s P : Prop := sinv s /\ forall x, P x = true <-> exists a, has s a /\ mp_obj_equal a x = true.

Lemma sholds_ext s P R : sholds s P -> (forall x, P x = R x) -> sholds s R.
Proof. intros [I HP] E. split; [done|]. intros x. by rewrite <- E. Qed.

Lemma sholds_absent s P index : sholds s P -> absent (s_table s) index <-> P index = false.
Proof.
  intros [I HP]. rewrite absent_has. split.
  - intros Ha. destruct (P index) eqn:E; [|done]. apply HP in E as (a & Hh & E). by rewrite (Ha a Hh) in E.
  - intros E a Hh. destruct (mp_obj_equal a index) eqn:E'; [|done]. rewrite <- E. symmetry. apply HP. by exists a.
Qed.

Lemma sholds_has s P a index : sholds s P -> has s a -> mp_obj_equal a index = true -> P index = true.
Proof. intros [I HP] Hh E. apply HP. by exists a. Qed.

(** A lookup sets the membership of the index. *)
Definition upd (kind : mp_map_lookup_kind_t) index P x : bool :=
  if mp_obj_equal index x then (if P index then negb (removes kind) else adds kind) else P x.

Lemma sholds_equal s P x y : sholds s P -> mp_obj_equal x y = true -> P x = P y.
Proof using Laws.
  intros [I HP] E. assert (Hxy : forall x y, mp_obj_equal x y = true -> P x = true -> P y = true).
  { intros u v Euv (a & Hh & Ea)%HP. apply HP. exists a. split; [done|]. by eapply equal_trans. }
  destruct (P x) eqn:Ex, (P y) eqn:Ey; try done; [rewrite (Hxy x y) in Ey; done|]. rewrite equal_sym in E. by rewrite (Hxy y x) in Ex.
Qed.

Lemma sholds_put s P index s' : sholds s P -> put s index s' -> sholds s' (fun x => mp_obj_equal index x || P x).
Proof.
  intros [I HP] A. split; [apply A|]. intros x. rewrite orb_true_iff, HP. setoid_rewrite (p_has _ _ _ A). split.
  - intros [E|(a & Hh & E)]; [exists index; auto|exists a; auto].
  - intros (a & [->|Hh] & E); [by left|right; by exists a].
Qed.

Lemma sholds_taken s P a index s' : sholds s P -> taken s a s' -> mp_obj_equal a index = true ->
  sholds s' (fun x => negb (mp_obj_equal index x) && P x).
Proof using Laws.
  intros [I HP] T Ea. split; [apply T|]. intros x. rewrite andb_true_iff, negb_true_iff, HP. setoid_rewrite (t_has _ _ _ T).
  pose proof (equal_trans (obj := obj)) as Htr. pose proof (equal_sym (obj := obj)) as Hsy. split.
  - intros (Hne & b & Hh & E). exists b. split; [split; [done|]|done]. destruct (mp_obj_equal b a) eqn:Eb; [|done].
    rewrite <- Hne. symmetry. apply (Htr index a x); [by rewrite Hsy|]. apply (Htr a b x); [by rewrite Hsy|done].
  - intros (b & [Hh Hne] & E). split; [|by exists b]. destruct (mp_obj_equal index x) eqn:Ei; [|done].
    rewrite <- Hne. symmetry. apply (Htr b x a); [done|]. apply (Htr x index a); rewrite Hsy; done.
Qed.

Lemma sholds_same s P kind index : sholds s P -> (if P index then removes kind = false else adds kind = false) -> sholds s (upd kind index P).
Proof using Laws.
  intros S E. apply (sholds_ext s P); [done|]. intros x. unfold upd. destruct (mp_obj_equal index x) eqn:Ex; [|done].
  rewrite <- (sholds_equal s P index x S Ex). destruct (P index); by rewrite E.
Qed.

(** ** Operations on one set *)

Definition fits_set (avail : Z -> bool) : Prop := forall n, avail n = true -> n < 2 ^ 30.

Lemma wp_set_lookup avail s P index kind (Q : mp_obj_t + exn obj -> mp_set_t -> Prop) : fits_set avail -> sholds s P ->
  (forall e s', sholds s' (upd kind index P) -> filled e = P index || adds kind -> (filled e = false -> e = MP_OBJ_NULL) ->
     ((if P index then removes kind = false else adds kind = false) -> s' = s) -> (P index = true -> s' = s \/ exists a, has s a /\ mp_obj_equal a index = true /\ taken s a s') ->
     Q (inl e) s') ->
  (forall s', adds kind = true -> P index = false -> Q (inr MemoryError) s') ->
  wp (mp_set_lookup avail index kind) Q s.
Proof using Laws.
  intros Hf S HQ HE. apply (wp_mp_set_lookup avail Hf s index kind); [apply S|..].
  - intros a Hh E Ek. pose proof (sholds_has s P a index S Hh E) as EP. apply HQ; rewrite ?EP; try done; [|by left]. apply sholds_same; [done|]. by rewrite EP.
  - intros a s' Hh E Ek T. pose proof (sholds_has s P a index S Hh E) as EP.
    apply HQ; rewrite ?EP; [|done|done|congruence|intros _; right; by exists a].
    apply (sholds_ext _ _ _ (sholds_taken s P a index s' S T E)). intros x. unfold upd. rewrite EP, Ek. by destruct (mp_obj_equal index x).
  - intros Ha Ek. apply (sholds_absent s P index S) in Ha. apply HQ; rewrite ?Ha, ?Ek; try done. apply sholds_same; [done|]. by rewrite Ha.
  - intros s' Ha Ek A _. apply (sholds_absent s P index S) in Ha. apply HQ; rewrite ?Ha; [|done|done|congruence|done].
    apply (sholds_ext _ _ _ (sholds_put s P index s' S A)). intros x. unfold upd. rewrite Ha, Ek. by destruct (mp_obj_equal index x).
  - intros Ha Ek _ _. apply (sholds_absent s P index S) in Ha. by apply HE.
Qed.

Lemma sholds_empty n : 0 <= n < 2 ^ 30 -> sholds (MkSet n 0 (replicate (Z.to_nat n) MP_OBJ_NULL)) (fun _ => false).
Proof. intros Hn. split; [by apply sinv_empty|]. intros x. split; [done|]. by intros (a & ?%empty_has & _). Qed.

(** The iterator of a set. *)
Lemma set_it_spec s cur : sinv s -> 0 <= cur <= s_alloc s ->
  wp (set_it_iternext cur) (fun r s' => s' = s /\ match r with
    | Some (e, cur') => exists x p, e = Obj x /\ cur' = Z.of_nat p + 1 /\ cur <= Z.of_nat p < s_alloc s /\ s_table s !! p = Some (Obj x) /\
        forall q b, cur <= Z.of_nat q -> (q < p)%nat -> s_table s !! q <> Some (Obj b)
    | None => forall q b, cur <= Z.of_nat q -> s_table s !! q <> Some (Obj b)
    end) s.
Proof.
  intros I Hc. apply wp_bind, wp_gets. pose proof (si_len _ I) as Hlen.
  remember (Z.to_nat (s_alloc s - cur)) as n eqn:En. revert cur Hc En. induction n as [|n IH]; intros cur Hc En; simpl.
  - apply wp_ret. split; [done|]. intros q b Hq Hk%lookup_lt_Some. lia.
  - destruct (lookup_lt_is_Some_2 (s_table s) (Z.to_nat cur)) as [e He]; [lia|].
    apply wp_bind, wp_bind, (wp_elem_at s cur e); [done|]. apply wp_ret. destruct (filled e) eqn:Ef.
    + apply wp_bind, (wp_elem_at s cur e); [done|]. apply wp_ret. split; [done|]. destruct e as [| |x]; [done..|].
      exists x, (Z.to_nat cur). split; [done|]. split; [lia|]. split; [lia|]. split; [done|]. intros q b Hq1 Hq2. lia.
    + assert (Hno : forall q b, cur <= Z.of_nat q -> ~ cur + 1 <= Z.of_nat q -> s_table s !! q <> Some (Obj b)).
      { intros q b H1 H2. replace q with (Z.to_nat cur) by lia. rewrite He. intros [= ->]. done. }
      eapply wp_mono; [apply (IH (cur + 1)); lia|]. intros [[e' cur']|] s' [-> Hr]; (split; [done|]).
      * destruct Hr as (x & p & -> & -> & Hp & Hx & Hq). exists x, p. split; [done|]. split; [done|]. split; [lia|]. split; [done|].
        intros q b H1 H2. destruct (decide (cur + 1 <= Z.of_nat q)); [by apply Hq|by apply Hno].
      * intros q b H1. destruct (decide (cur + 1 <= Z.of_nat q)); [by apply Hr|by apply Hno].
Qed.

Lemma wp_remove_first s P (Q : mp_obj_t -> mp_set_t -> Prop) : sholds s P ->
  (forall a s', P a = true -> sholds s' (fun x => negb (mp_obj_equal a x) && P x) -> Q (Obj a) s') ->
  ((forall x, P x = false) -> Q MP_OBJ_NULL s) -> wp mp_set_remove_first Q s.
Proof using Laws.
  intros S HQ HN. pose proof (proj1 S) as I. pose proof (si_len _ I) as Hlen. apply wp_bind, wp_gets.
  assert (Hgo : forall n i, 0 <= i -> Z.of_nat n = s_alloc s - i -> (forall q b, Z.of_nat q < i -> s_table s !! q <> Some (Obj b)) ->
    wp (remove_first n i) Q s).
  { induction n as [|n IH]; intros i Hi Hn Hno; simpl.
    - apply wp_ret, HN. intros x. destruct (P x) eqn:E; [|done]. apply (proj2 S) in E as (a & [q Hq]%has_lookup & _).
      destruct (Hno q a); [|done]. apply lookup_lt_Some in Hq. lia.
    - destruct (lookup_lt_is_Some_2 (s_table s) (Z.to_nat i)) as [e He]; [lia|].
      apply wp_bind, wp_bind, (wp_elem_at s i e); [done|]. apply wp_ret. destruct e as [| |a]; simpl.
      1,2: apply IH; [lia|lia|]; intros q b Hq; destruct (decide (Z.of_nat q = i)) as [<-|]; [rewrite Nat2Z.id in He; congruence|apply Hno; lia].
      apply wp_bind, (wp_elem_at s i (Obj a)); [done|]. apply wp_bind, (wp_set_delete_at s i a); [done|lia|done|]. intros s' T. apply wp_ret.
      apply HQ; [apply (sholds_has s P a a S); [apply has_lookup; by eexists|apply equal_refl]|].
      eapply sholds_taken; [done|done|apply equal_refl]. }
  apply Hgo; [lia|pose proof (si_small _ I); lia|lia].
Qed.

(** ** Elements as lists *)

Definition elem_obj (e : @mp_obj_t obj) : option obj := match e with Obj a => Some a | _ => None end.
Definition items s : list obj := omap elem_obj (s_table s).
(** Whether the list has an odd number of objects that are equal to [x]. *)
Fixpoint odd_in (l : list obj) x : bool := match l with [] => false | a :: l => xorb (mp_obj_equal a x) (odd_in l x) end.

Lemma items_has s a : a ∈ items s <-> has s a.
Proof.
  unfold items, has. rewrite list_elem_of_omap. split.
  - intros (e & He & E). destruct e; [done..|]. by injection E as ->.
  - intros He. by exists (Obj a).
Qed.

Lemma items_mem s P x : sholds s P -> mem_list (items s) x = P x.
Proof.
  intros [I HP]. apply eq_true_iff_eq. rewrite mem_list_true, HP. by setoid_rewrite items_has.
Qed.

Lemma sholds_items s : sinv s -> sholds s (mem_list (items s)).
Proof. intros I. split; [done|]. intros x. rewrite mem_list_true. by setoid_rewrite items_has. Qed.

Lemma items_used s : sinv s -> Z.of_nat (length (items s)) = s_used s.
Proof.
  intros I. rewrite (si_used _ I). unfold nfilled, items. induction (s_table s) as [|e l IH]; [done|].
  destruct e; [exact IH..|]. rewrite filter_cons_True by done. change (omap elem_obj (Obj o :: l)) with (o :: omap elem_obj l).
  cbn [length]. lia.
Qed.

Lemma kdistinct_apart (T : list (@mp_obj_t obj)) : kdistinct T -> apart (omap elem_obj T).
Proof using Laws.
  induction T as [|e T IH]; [done|]. intros Hd. pose proof (IH (kdistinct_tail _ _ Hd)). destruct e as [| |a]; simpl; [done..|].
  apply apart_cons. split; [done|]. intros b (e & He & Eb)%list_elem_of_omap. destruct e; [done..|]. injection Eb as ->.
  by apply (kdistinct_head T).
Qed.

Lemma items_apart s : sinv s -> apart (items s).
Proof using Laws. intros I. apply kdistinct_apart. intros p q a b. apply (si_keys _ I). Qed.

Lemma odd_in_apart l x : apart l -> odd_in l x = mem_list l x.
Proof using Laws.
  induction l as [|a l IH]; [done|]. intros [Hl Ha]%apart_cons. simpl. rewrite (IH Hl).
  destruct (mp_obj_equal a x) eqn:E; [|by rewrite xorb_false_l]. rewrite xorb_true_l. simpl.
  destruct (mem_list l x) eqn:Em; [|done]. exfalso. apply mem_list_true in Em as (b & Hb & Eb).
  pose proof (Ha b Hb) as Hab. rewrite (equal_trans a x b) in Hab; [done|done|]. by rewrite equal_sym.
Qed.

(** ** Sequences of lookups *)

Definition respects P : Prop := forall x y, mp_obj_equal x y = true -> P x = P y.

Lemma sholds_respects s P : sholds s P -> respects P.
Proof using Laws. intros S x y. by apply (sholds_equal s). Qed.

Definition after kind (l : list obj) P : obj -> bool := fold_left (fun P x => upd kind x P) l P.

Lemma upd_respects kind index P : respects P -> respects (upd kind index P).
Proof using Laws.
  intros HP x y E. unfold upd. replace (mp_obj_equal index y) with (mp_obj_equal index x); [by rewrite (HP x y E)|].
  destruct (mp_obj_equal index x) eqn:Ex; [symmetry; by apply (equal_trans index x y)|].
  destruct (mp_obj_equal index y) eqn:Ey; [|done]. rewrite <- Ex. apply (equal_trans index y x); [done|]. by rewrite equal_sym.
Qed.

Lemma upd_spec kind index P x : respects P ->
  upd kind index P x = if mp_obj_equal index x then (if P x then negb (removes kind) else adds kind) else P x.
Proof. intros HP. unfold upd. destruct (mp_obj_equal index x) eqn:E; [|done]. by rewrite (HP index x E). Qed.

#[local] Ltac after_tac :=
  let l := fresh "l" in let a := fresh "a" in let P := fresh "P" in let x := fresh "x" in let HP := fresh "HP" in
  intros l; induction l as [|a l IH]; intros P x HP; [simpl; by destruct (P x)|];
  match goal with |- after ?k (a :: l) P x = _ => change (after k (a :: l) P x) with (after k l (upd k a P) x) end;
  rewrite IH by (by apply upd_respects); rewrite upd_spec by done; simpl;
  destruct (mp_obj_equal a x), (P x), (odd_in l x); done.

Lemma after_add : forall l P x, respects P -> after MP_MAP_LOOKUP_ADD_IF_NOT_FOUND l P x = P x || mem_list l x.
Proof using Laws. after_tac. Qed.

Lemma after_remove : forall l P x, respects P -> after MP_MAP_LOOKUP_REMOVE_IF_FOUND l P x = P x && negb (mem_list l x).
Proof using Laws. after_tac. Qed.

Lemma after_toggle : forall l P x, respects P -> after MP_MAP_LOOKUP_ADD_IF_NOT_FOUND_OR_REMOVE_IF_FOUND l P x = xorb (P x) (odd_in l x).
Proof using Laws. after_tac. Qed.

(** * The set objects *)

Definition rep h A : Prop := Forall2 sholds h A.

Lemma rep_set h A i P : rep h A -> A !! i = Some P -> exists s, h !! i = Some s /\ sholds s P.
Proof. intros R Hi. destruct (Forall2_lookup_r _ _ _ _ _ R Hi) as (s & Hs & S). by exists s. Qed.

Lemma srep_insert h A i s P : rep h A -> sholds s P -> rep (<[i := s]> h) (<[i := P]> A).
Proof. intros R S. by apply Forall2_insert. Qed.

Lemma rep_ext h A B : rep h A -> Forall2 (fun P R => forall x, P x = R x) A B -> rep h B.
Proof.
  intros R E. revert h R. induction E as [|P R A B E1 _ IH]; intros h R1; inversion R1; subst; constructor; [by eapply sholds_ext|by apply IH].
Qed.

Lemma rep_ext_at h A i P R : rep h (<[i := P]> A) -> (forall x, P x = R x) -> rep h (<[i := R]> A).
Proof.
  intros R1 E. eapply rep_ext; [exact R1|]. apply Forall2_insert; [|done]. apply Forall_Forall2_diag, Forall_true. done.
Qed.

Lemma rep_app h A s P : rep h A -> sholds s P -> rep (h ++ [s]) (A ++ [P]).
Proof. intros R S. apply Forall2_app; [done|]. constructor; [done|constructor]. Qed.

Lemma rep_length h A : rep h A -> length h = length A.
Proof. apply Forall2_length. Qed.

(** What the iterable gives. *)
Definition yields h (it : @iterable obj) (l : list obj) : Prop :=
  match it with Items l' => l = l' | OfSet j => exists s, h !! j = Some s /\ sinv s /\ l = items s end.

Definition stable h (it : @iterable obj) h' : Prop := match it with Items _ => True | OfSet j => h' !! j = h !! j end.

Section Iterate.
Context (body : obj -> M (list (@mp_set_t obj)) (bool + exn obj)) (Inv : list obj -> list (@mp_set_t obj) -> Prop).
Context (Q : bool + exn obj -> list (@mp_set_t obj) -> Prop).
Context (Hbody : forall x l h, Inv (x :: l) h ->
  wp (body x) (fun r h' => match r with inl false => Inv l h' | inl true => Q (inl true) h' | inr e => Q (inr e) h' end) h).
Context (Hend : forall h, Inv [] h -> Q (inl false) h).

Lemma wp_over_items l : forall h, Inv l h -> wp (over_items l body) Q h.
Proof using Hbody Hend.
  induction l as [|x l IH]; intros h I; simpl; [apply wp_ret; by apply Hend|].
  apply wp_bind. eapply wp_mono; [by apply (Hbody x l)|]. intros [[|]|e] h' Hr; [by apply wp_ret|by apply IH|by apply wp_ret].
Qed.

(** The elements from position [cur] on. *)
Lemma items_from s cur x p : s_table s !! p = Some (Obj x) -> cur <= Z.of_nat p -> 0 <= cur ->
  (forall q b, cur <= Z.of_nat q -> (q < p)%nat -> s_table s !! q <> Some (Obj b)) ->
  omap elem_obj (drop (Z.to_nat cur) (s_table s)) = x :: omap elem_obj (drop (S p) (s_table s)).
Proof.
  intros Hx Hp Hc Hno. assert (exists n, Z.of_nat p = cur + Z.of_nat n) as [n Hn] by (exists (p - Z.to_nat cur)%nat; lia).
  revert cur Hp Hc Hno Hn. induction n as [|n IH]; intros cur Hp Hc Hno Hn.
  - replace (Z.to_nat cur) with p by lia. by rewrite (drop_S _ _ _ Hx).
  - destruct (lookup_lt_is_Some_2 (s_table s) (Z.to_nat cur)) as [e He]; [apply lookup_lt_Some in Hx; lia|].
    rewrite (drop_S _ _ _ He). replace (S (Z.to_nat cur)) with (Z.to_nat (cur + 1)) by lia. rewrite <- (IH (cur + 1)); [|lia|lia| |lia].
    + destruct e as [| |b]; [done..|]. destruct (Hno (Z.to_nat cur) b); [lia|lia|done].
    + intros q b H1 H2. apply Hno; [lia|done].
Qed.

Lemma items_end s cur : 0 <= cur -> (forall q b, cur <= Z.of_nat q -> s_table s !! q <> Some (Obj b)) ->
  omap elem_obj (drop (Z.to_nat cur) (s_table s)) = [].
Proof.
  intros Hc Hno. destruct (omap elem_obj _) as [|b l] eqn:E; [done|]. exfalso.
  assert (Hb : b ∈ omap elem_obj (drop (Z.to_nat cur) (s_table s))) by (rewrite E; by left).
  apply list_elem_of_omap in Hb as (e & [q Hq]%list_elem_of_lookup_1 & Ee). destruct e; [done..|]. injection Ee as ->.
  rewrite lookup_drop in Hq. apply (Hno _ b) in Hq; [done|lia].
Qed.

Lemma wp_over_set j s : sinv s -> (forall l h, Inv l h -> h !! j = Some s) ->
  forall fuel cur h, 0 <= cur <= s_alloc s -> s_alloc s - cur < Z.of_nat fuel ->
  Inv (omap elem_obj (drop (Z.to_nat cur) (s_table s))) h -> wp (over_set fuel j cur body) Q h.
Proof using Hbody Hend.
  intros I Hj. induction fuel as [|fuel IH]; intros cur h Hc Hf HI; [lia|]. simpl. pose proof (Hj _ _ HI) as Hs.
  apply wp_bind, (wp_on h j s); [done|]. eapply wp_mono; [by apply (set_it_spec s cur)|].
  intros [[e cur']|] s' [-> Hr]; rewrite list_insert_id by done.
  - destruct Hr as (x & p & -> & -> & Hp & Hx & Hno). rewrite (items_from s cur x p) in HI; [|done|lia|lia|done].
    apply wp_bind. eapply wp_mono; [by apply (Hbody x _ h HI)|]. intros [[|]|err] h' Hr; [by apply wp_ret| |by apply wp_ret].
    apply IH; [lia|lia|]. by replace (Z.to_nat (Z.of_nat p + 1)) with (S p) by lia.
  - apply wp_ret, Hend. rewrite items_end in HI; [done|lia|done].
Qed.

Lemma wp_iterate it h l : yields h it l -> (forall l' h', Inv l' h' -> stable h it h') -> Inv l h -> wp (iterate it body) Q h.
Proof using Hbody Hend.
  destruct it as [l'|j]; cbn [yields stable iterate]; [intros -> _; apply wp_over_items|]. intros (s & Hs & I & ->) Hst HI.
  apply wp_bind, (wp_on_gets h j s); [done|]. pose proof (si_len _ I).
  apply (wp_over_set j s I); [intros l' h' HI'; rewrite (Hst _ _ HI'); done|lia|lia|done].
Qed.
End Iterate.
End System.
