(* ===== verification/SetSpec.v ===== *)
(** SetSpec: every operation of py/objset.c on the set objects of a program, as an
    operation on sets. *)

From stdpp Require Import options.
From S2P Require Import Prelude Map MapInv ObjSet SetOps SetSys.

#[local] Ltac Zify.zify_post_hook ::= Z.to_euclidean_division_equations.

Section Operations.
Context {obj : Type} `{Laws : MpObjLaws obj} (mem : @memory obj) (Hmem : forall h, fits_set (can_table mem h)).
Implicit Types (s : @mp_set_t obj) (a b x index : obj) (P R : obj -> bool) (h : list (@mp_set_t obj)) (A : list (obj -> bool)).
Implicit Types (it : @iterable obj) (l : list obj).

Definition none_of : obj -> bool := fun _ => false.

(** The objects that the iterable gives. *)
Definition arg it A : obj -> bool := match it with Items l => mem_list l | OfSet j => default none_of (A !! j) end.

(** Those that it gives an odd number of times. *)
Definition toggles it A : obj -> bool := match it with Items l => odd_in l | OfSet j => default none_of (A !! j) end.

Definition valid it (n : nat) : Prop := match it with Items _ => True | OfSet j => (j < n)%nat end.

Lemma yields_arg h A it : rep h A -> valid it (length A) ->
  exists l, yields h it l /\ (forall x, mem_list l x = arg it A x) /\ (forall x, odd_in l x = toggles it A x).
Proof using Laws.
  intros R Hv. destruct it as [l|j]; simpl; [by exists l|]. destruct (lookup_lt_is_Some_2 A j Hv) as [P HP]. rewrite HP. simpl.
  destruct (rep_set h A j P R HP) as (s & Hs & S). exists (items s). split; [exists s; split; [done|split; [apply S|done]]|].
  split; intros x; rewrite ?odd_in_apart by (apply items_apart, S); by apply items_mem.
Qed.

(** ** Lookups *)

Lemma wp_lookup_in h A i P index kind (Q : mp_obj_t + exn obj -> list mp_set_t -> Prop) : rep h A -> A !! i = Some P ->
  (forall e h', rep h' (<[i := upd kind index P]> A) -> filled e = P index || adds kind -> (filled e = false -> e = MP_OBJ_NULL) ->
     (forall j, j <> i -> h' !! j = h !! j) -> ((if P index then removes kind = false else adds kind = false) -> h' = h) -> Q (inl e) h') ->
  (forall h', adds kind = true -> Q (inr MemoryError) h') ->
  wp (lookup_in mem i index kind) Q h.
Proof using Laws Hmem.
  intros R Hi HQ HE. destruct (rep_set h A i P R Hi) as (s & Hs & S). apply wp_bind, wp_gets, (wp_on h i s); [done|].
  apply (wp_set_lookup _ s P index kind _ (Hmem h) S).
  - intros e s' S' Ee En Hsame _. apply HQ; [by apply srep_insert|done|done| |].
    + intros j Hj. by apply list_lookup_insert_ne.
    + intros Hk. rewrite (Hsame Hk). by apply list_insert_id.
  - intros s' Ek _. by apply HE.
Qed.

(** A lookup that changes nothing. *)
Lemma wp_contains h A i P index (Q : mp_obj_t + exn obj -> list mp_set_t -> Prop) : rep h A -> A !! i = Some P ->
  (forall e, filled e = P index -> Q (inl e) h) -> wp (lookup_in mem i index MP_MAP_LOOKUP) Q h.
Proof using Laws Hmem.
  intros R Hi HQ. apply (wp_lookup_in h A i P); [done|done| |done]. intros e h' _ Ee _ _ Hsame.
  rewrite Hsame by (by destruct (P index)). apply HQ. by rewrite Ee, orb_false_r.
Qed.

(** A loop body that does a lookup. *)
Definition looks_up i kind (body : obj -> M (list (@mp_set_t obj)) (bool + exn obj)) : Prop :=
  forall x h (Q : bool + exn obj -> list mp_set_t -> Prop),
  wp (lookup_in mem i x kind) (fun r h' => Q (match r with inl _ => inl false | inr e => inr e end) h') h -> wp (body x) Q h.

Lemma looks_up_each i kind : looks_up i kind (each (fun x => lookup_in mem i x kind)).
Proof. intros x h Q Hl. apply wp_bind. eapply wp_mono; [exact Hl|]. intros [e|e] h' HQ; by apply wp_ret. Qed.

Lemma looks_up_add i : looks_up i MP_MAP_LOOKUP_ADD_IF_NOT_FOUND (each (set_add mem i)).
Proof. intros x h Q Hl. apply wp_bind, wp_bind. eapply wp_mono; [exact Hl|]. intros [e|e] h' HQ; by apply wp_ret, wp_ret. Qed.

(** A loop that looks up every object of an iterable which is not the set itself. *)
Lemma wp_lookup_all body h A i P it l kind (Q : bool + exn obj -> list mp_set_t -> Prop) : looks_up i kind body -> rep h A -> A !! i = Some P ->
  yields h it l -> it <> OfSet i ->
  (forall h', rep h' (<[i := after kind l P]> A) -> (forall j, j <> i -> h' !! j = h !! j) -> Q (inl false) h') ->
  (forall h', adds kind = true -> Q (inr MemoryError) h') ->
  wp (iterate it body) Q h.
Proof using Laws Hmem.
  intros Hb R Hi Hy Hne HQ HE.
  apply (wp_iterate _ (fun l' h' => exists P', rep h' (<[i := P']> A) /\ after kind l' P' = after kind l P /\ forall j, j <> i -> h' !! j = h !! j)
    Q) with (l := l); [| |done| |].
  - intros x l' h1 (P' & R1 & Ea & Hj). apply Hb.
    apply (wp_lookup_in h1 _ i P' x kind _ R1); [apply list_lookup_insert_eq; by eapply lookup_lt_Some| |by auto].
    intros e h' R' _ _ Hj' _. exists (upd kind x P'). rewrite list_insert_insert_eq in R'. split; [done|]. split; [done|].
    intros j Hn. rewrite Hj' by done. by apply Hj.
  - intros h' (P' & R' & Ea & Hj). simpl in Ea. apply HQ; [|done]. rewrite <- Ea. done.
  - intros l' h' (P' & _ & _ & Hj). destruct it as [|j]; [done|]. apply Hj. congruence.
  - exists P. by rewrite list_insert_id.
Qed.

Lemma rep_respects h A i P : rep h A -> A !! i = Some P -> respects P.
Proof using Laws. intros R Hi. destruct (rep_set h A i P R Hi) as (s & _ & S). by eapply sholds_respects. Qed.

(** ** Updates *)

Definition finished {B} (f : B) h' A' (r : B + exn obj) : Prop := (r = inl f /\ rep h' A') \/ r = inr MemoryError.

Lemma set_update_int_ok h A i P it : rep h A -> A !! i = Some P -> valid it (length A) ->
  wp (set_update_int mem i it) (fun r h' => finished tt h' (<[i := fun x => P x || arg it A x]> A) r) h.
Proof using Laws Hmem.
  intros R Hi Hv. destruct (yields_arg h A it R Hv) as (l & Hy & Hm & _). apply wp_bind.
  assert (it = OfSet i \/ it <> OfSet i) as [->|Hne] by (destruct it as [|j]; [by right|destruct (decide (j = i)) as [->|]; [by left|right; congruence]]).
  - apply (wp_iterate _ (fun l' h' => h' = h /\ forall x, x ∈ l' -> P x = true)) with (l := l); [| |done| |].
    + intros x l' h1 [-> Hl]. apply wp_bind, (wp_lookup_in h A i P); [done|done| |intros h' _; apply wp_ret, wp_ret; by right].
      intros e h' _ _ _ _ Hsame. apply wp_ret. rewrite Hsame by (rewrite Hl by (by left); done). split; [done|]. intros y Hy'. apply Hl. by right.
    + intros h' [-> _]. apply wp_ret. left. split; [done|]. eapply rep_ext_at; [by rewrite list_insert_id|].
      intros x. simpl. rewrite Hi. simpl. by destruct (P x).
    + intros l' h' [-> _]. done.
    + split; [done|]. intros x Hx. specialize (Hm x). simpl in Hm. rewrite Hi in Hm. simpl in Hm. rewrite <- Hm.
      apply mem_list_true. exists x. split; [done|apply equal_refl].
  - eapply (wp_lookup_all _ h A i P it l); [apply looks_up_each|done..| |intros h' _; apply wp_ret; by right]. intros h' R' _. apply wp_ret. left. split; [done|].
    eapply rep_ext_at; [exact R'|]. intros x. rewrite after_add by (by apply (rep_respects h A i)). by rewrite Hm.
Qed.

(** A set that is iterated over while its elements are removed. *)
Lemma toggle_self j : forall fuel cur h s, h !! j = Some s -> sinv s -> 0 <= cur <= s_alloc s -> s_alloc s - cur < Z.of_nat fuel ->
  (forall p b, s_table s !! p = Some (Obj b) -> cur <= Z.of_nat p) ->
  wp (over_set fuel j cur (each (fun x => lookup_in mem j x MP_MAP_LOOKUP_ADD_IF_NOT_FOUND_OR_REMOVE_IF_FOUND)))
    (fun r h' => r = inl false /\ exists s', h' = <[j := s']> h /\ sholds s' none_of) h.
Proof using Laws Hmem.
  induction fuel as [|fuel IH]; intros cur h s Hs I Hc Hf Hlow; [lia|]. simpl. apply wp_bind, (wp_on h j s); [done|].
  eapply wp_mono; [by apply (set_it_spec s cur)|]. intros [[e cur']|] s' [-> Hr]; rewrite list_insert_id by done.
  - destruct Hr as (x & p & -> & -> & Hp & Hx & Hno). assert (Hh : has s x) by (apply has_lookup; by exists p).
    apply wp_bind, wp_bind, wp_bind, wp_gets, (wp_on h j s); [done|].
    apply (wp_mp_set_lookup _ (Hmem h) s x); [done|done| |done|..].
    2,3: intros; exfalso; by eapply (proj1 (absent_has s x)) in Hh; [rewrite equal_refl in Hh|].
    intros a s1 Ha E _ T. apply wp_ret. eapply wp_mono.
    + apply (IH _ _ s1); [apply list_lookup_insert_eq; by eapply lookup_lt_Some|apply T|rewrite (t_alloc _ _ _ T); lia|rewrite (t_alloc _ _ _ T); lia|].
      intros q b Hq. pose proof (t_keep _ _ _ T q b Hq) as Hq0. pose proof (Hlow q b Hq0).
      destruct (decide (q < p)%nat) as [Hlt|]; [by destruct (Hno q b)|]. destruct (decide (q = p)) as [->|]; [|lia].
      assert (b = x) as -> by congruence. assert (Hb : has s1 x) by (apply has_lookup; by exists p).
      apply (t_has _ _ _ T) in Hb as [_ Hne]. by rewrite equal_sym, E in Hne.
    + intros r h' (-> & s2 & -> & S2). split; [done|]. exists s2. by rewrite list_insert_insert_eq.
  - apply wp_ret. split; [done|]. exists s. rewrite list_insert_id by done. split; [done|]. split; [done|]. intros x. split; [done|].
    intros (a & [q Hq]%has_lookup & _). by destruct (Hr q a (Hlow q a Hq)).
Qed.

Lemma symdiff_ok h A i P it : rep h A -> A !! i = Some P -> valid it (length A) ->
  wp (set_symmetric_difference_update mem i it) (fun r h' => finished tt h' (<[i := fun x => xorb (P x) (toggles it A x)]> A) r) h.
Proof using Laws Hmem.
  intros R Hi Hv. destruct (yields_arg h A it R Hv) as (l & Hy & _ & Hm). apply wp_bind.
  assert (it = OfSet i \/ it <> OfSet i) as [->|Hne] by (destruct it as [|j]; [by right|destruct (decide (j = i)) as [->|]; [by left|right; congruence]]).
  - destruct (rep_set h A i P R Hi) as (s & Hs & S). pose proof (si_len _ (proj1 S)). apply wp_bind, (wp_on_gets h i s); [done|].
    eapply wp_mono; [apply (toggle_self i _ 0 h s Hs (proj1 S)); lia|]. intros r h' (-> & s' & -> & S'). apply wp_ret. left. split; [done|].
    apply srep_insert; [done|]. apply (sholds_ext _ _ _ S'). intros x. simpl. rewrite Hi. simpl. by destruct (P x).
  - eapply (wp_lookup_all _ h A i P it l); [apply looks_up_each|done..| |intros h' _; apply wp_ret; by right]. intros h' R' _. apply wp_ret. left. split; [done|].
    eapply rep_ext_at; [exact R'|]. intros x. rewrite after_toggle by (by apply (rep_respects h A i)). by rewrite Hm.
Qed.

(** The arguments after the first one are removed. *)
Lemma diff_args_ok i others : forall h A P, rep h A -> A !! i = Some P -> Forall (fun it => valid it (length A)) others ->
  wp (diff_args mem i others) (fun r h' => r = inl tt /\
    rep h' (<[i := fun x => P x && negb (existsb (fun it => arg it A x) others)]> A)) h.
Proof using Laws Hmem.
  induction others as [|it others IH]; intros h A P R Hi Hv; simpl.
  { apply wp_ret. split; [done|]. eapply rep_ext_at; [by rewrite list_insert_id|]. intros x. by rewrite andb_true_r. }
  inversion Hv as [|? ? Hv1 Hv2]; subst. destruct (yields_arg h A it R Hv1) as (l & Hy & Hm & _). apply wp_bind.
  assert (Hrest : forall h', rep h' (<[i := fun x => P x && negb (arg it A x)]> A) ->
    wp (diff_args mem i others) (fun r h' => r = inl tt /\
      rep h' (<[i := fun x => P x && negb (arg it A x || existsb (fun it => arg it A x) others)]> A)) h').
  { intros h' R'. eapply wp_mono.
    - apply (IH h' _ (fun x => P x && negb (arg it A x)) R'); [apply list_lookup_insert_eq; by eapply lookup_lt_Some|by rewrite length_insert].
    - intros r h2 [-> R2]. split; [done|]. rewrite list_insert_insert_eq in R2. eapply rep_ext_at; [exact R2|].
      intros x. cbv beta. clear -Hi. induction others as [|it2 others IH]; simpl; [by rewrite andb_true_r, orb_false_r|].
      destruct (P x) eqn:EP; simpl in *; [|done]. destruct (arg it A x) eqn:Ea; simpl in *; [done|].
      rewrite !negb_orb, <- IH. f_equal. f_equal. destruct it2 as [|j]; [done|]. simpl.
      destruct (decide (j = i)) as [->|]; [|by rewrite list_lookup_insert_ne].
      rewrite list_lookup_insert_eq by (by eapply lookup_lt_Some). rewrite Hi. simpl. by rewrite EP, Ea. }
  destruct it as [l'|j].
  - eapply (wp_lookup_all _ h A i P (Items l') l); [apply looks_up_each|done..| |done]. intros h' R' _. apply Hrest. eapply rep_ext_at; [exact R'|].
    intros x. rewrite after_remove by (by apply (rep_respects h A i)). by rewrite Hm.
  - destruct (Nat.eqb_spec j i) as [->|Hne].
    + destruct (rep_set h A i P R Hi) as (s & Hs & S). apply wp_bind, (wp_on h i s); [done|]. apply wp_modify, wp_ret, Hrest.
      apply srep_insert; [done|]. apply (sholds_ext _ _ _ (sholds_empty 0 ltac:(lia))). intros x. simpl. rewrite Hi. simpl. by destruct (P x).
    + eapply (wp_lookup_all _ h A i P (OfSet j) l); [apply looks_up_each|done..|congruence| |done]. intros h' R' _. apply Hrest. eapply rep_ext_at; [exact R'|].
      intros x. rewrite after_remove by (by apply (rep_respects h A i)). by rewrite Hm.
Qed.

(** ** New sets *)

Lemma rep_ext_last h A P R : rep h (A ++ [P]) -> (forall x, P x = R x) -> rep h (A ++ [R]).
Proof.
  intros R1 E. rewrite <- (insert_last A P). eapply rep_ext_at; [rewrite insert_last; exact R1|done].
Qed.

Lemma arg_app it A B : valid it (length A) -> arg it (A ++ B) = arg it A /\ toggles it (A ++ B) = toggles it A.
Proof. destruct it as [|j]; [done|]. simpl. intros Hj. by rewrite lookup_app_l. Qed.

Lemma valid_app it A (B : list (obj -> bool)) : valid it (length A) -> valid it (length (A ++ B)).
Proof. destruct it as [|j]; [done|]. simpl. rewrite length_app. lia. Qed.

Lemma valid_new it A : valid it (length A) -> it <> OfSet (length A).
Proof. destruct it as [|j]; [done|]. simpl. intros Hj [= ->]. lia. Qed.

Lemma new_set_ok h A n : rep h A -> 0 <= n ->
  wp (new_set mem n) (fun r h' => (r = inl (length A) /\ n < 2 ^ 30 /\ h' = h ++ [MkSet n 0 (replicate (Z.to_nat n) MP_OBJ_NULL)]) \/
    r = inr MemoryError) h.
Proof using Hmem.
  intros R Hn. rewrite <- (rep_length h A R). apply wp_bind, wp_gets. destruct (can_object mem h); [|apply wp_ret; by right].
  apply wp_bind, wp_modify, wp_bind, (wp_on _ _ _ _ _ (lookup_last h _)), wp_bind, wp_modify. unfold m_new0.
  destruct (Z.eqb_spec n 0) as [->|Hz]; simpl.
  - apply wp_bind, wp_modify, wp_ret. rewrite insert_last. apply wp_ret. left. done.
  - destruct (can_table mem h n) eqn:E; [|apply wp_ret, wp_ret; by right]. apply wp_bind, wp_modify, wp_ret. rewrite insert_last.
    apply wp_ret. left. split; [done|]. split; [by apply (Hmem h)|done].
Qed.

Lemma new_set_empty h A n : rep h A -> 0 <= n -> wp (new_set mem n) (fun r h' => finished (length A) h' (A ++ [none_of]) r) h.
Proof using Hmem.
  intros R Hn. eapply wp_mono; [by apply new_set_ok|]. intros r h' [(-> & Hlt & ->)| ->]; [left|by right]. split; [done|].
  apply rep_app; [done|]. by apply sholds_empty.
Qed.

Lemma set_copy_ok h A i P : rep h A -> A !! i = Some P -> wp (set_copy mem i) (fun r h' => finished (length A) h' (A ++ [P]) r) h.
Proof using Hmem.
  intros R Hi. destruct (rep_set h A i P R Hi) as (s & Hs & S). pose proof (si_len _ (proj1 S)). apply wp_bind, (wp_on_gets h i s); [done|].
  apply wp_bind. eapply wp_mono; [apply (new_set_ok h A); [done|lia]|]. intros r h' [(-> & Hlt & ->)| ->]; [|apply wp_ret; by right].
  rewrite <- (rep_length h A R). apply wp_bind, (wp_getso _ s); [rewrite lookup_app_l; [done|by eapply lookup_lt_Some]|].
  apply wp_bind, (wp_on _ _ _ _ _ (lookup_last h _)), wp_modify. rewrite insert_last.
  apply wp_bind, (wp_on _ _ _ _ _ (lookup_last h _)), wp_modify. rewrite insert_last. apply wp_ret. left. split; [done|].
  apply rep_app; [done|]. simpl. by destruct s.
Qed.

(** The objects of the iterable are put into a new set. *)
Lemma fill_ok body h A it : looks_up (length A) MP_MAP_LOOKUP_ADD_IF_NOT_FOUND body -> rep h (A ++ [none_of]) -> valid it (length A) ->
  wp (iterate it body)
    (fun r h' => finished false h' (A ++ [arg it A]) r) h.
Proof using Laws Hmem.
  intros Hb R Hv. destruct (yields_arg h _ it R (valid_app it A [none_of] Hv)) as (l & Hy & Hm & _).
  apply (wp_lookup_all body h _ (length A) none_of it l _ _ Hb R (lookup_last A _) Hy (valid_new it A Hv)); [|intros h' _; by right].
  intros h' R' _. left. split; [done|]. rewrite insert_last in R'. eapply rep_ext_last; [exact R'|]. intros x. rewrite after_add by (by apply (rep_respects h (A ++ [none_of]) (length A)); [|apply lookup_last]). simpl. by rewrite Hm, (proj1 (arg_app it A _ Hv)).
Qed.

Lemma mp_obj_new_set_ok h A l : rep h A -> wp (mp_obj_new_set mem l) (fun r h' => finished (length A) h' (A ++ [mem_list l]) r) h.
Proof using Laws Hmem.
  intros R. apply wp_bind. eapply wp_mono; [apply (new_set_empty h A); [done|lia]|]. intros r h1 [[-> R1]| ->]; [|apply wp_ret; by right].
  apply wp_bind. change (over_items l) with (iterate (Items l)). eapply wp_mono; [apply (fill_ok _ h1 A (Items l)); [apply looks_up_each|done|done]|].
  intros r h2 [[-> R2]| ->]; apply wp_ret; [by left|by right].
Qed.

Lemma set_make_new_ok h A arg_in : rep h A -> (forall it, arg_in = Some it -> valid it (length A)) ->
  wp (set_make_new mem arg_in) (fun r h' => finished (length A) h' (A ++ [match arg_in with Some it => arg it A | None => none_of end]) r) h.
Proof using Laws Hmem.
  intros R Hv. apply wp_bind. eapply wp_mono; [by apply (mp_obj_new_set_ok h A [])|]. intros r h1 [[-> R1]| ->]; [|apply wp_ret; by right].
  destruct arg_in as [it|]; [|apply wp_ret; by left]. apply wp_bind.
  eapply wp_mono; [apply (fill_ok _ h1 A it); [apply looks_up_add|done|by apply Hv]|]. intros r h2 [[-> R2]| ->]; apply wp_ret; [by left|by right].
Qed.

(** An operation on the copy of a set. *)
Lemma on_copy h A i P (f : nat -> M (list (@mp_set_t obj)) (unit + exn obj)) R : rep h A -> A !! i = Some P ->
  (forall h', rep h' (A ++ [P]) -> wp (f (length A)) (fun r h' => finished tt h' (<[length A := R]> (A ++ [P])) r) h') ->
  wp (o <-? set_copy mem i ;; _ <-? f o ;; ret (inl o)) (fun r h' => finished (length A) h' (A ++ [R]) r) h.
Proof using Hmem.
  intros Rh Hi Hf. apply wp_bind. eapply wp_mono; [by apply (set_copy_ok h A i P)|]. intros r h1 [[-> R1]| ->]; [|apply wp_ret; by right].
  apply wp_bind. eapply wp_mono; [by apply Hf|]. intros r h2 [[-> R2]| ->]; apply wp_ret; [left|by right].
  by rewrite insert_last in R2.
Qed.

Lemma set_union_ok h A i P it : rep h A -> A !! i = Some P -> valid it (length A) ->
  wp (set_union mem i it) (fun r h' => finished (length A) h' (A ++ [fun x => P x || arg it A x]) r) h.
Proof using Laws Hmem.
  intros R Hi Hv. apply (on_copy h A i P (fun o => set_update_int mem o it)); [done|done|]. intros h' R'.
  rewrite <- (proj1 (arg_app it A [P] Hv)). apply set_update_int_ok; [done|apply lookup_last|by apply valid_app].
Qed.

Lemma set_symmetric_difference_ok h A i P it : rep h A -> A !! i = Some P -> valid it (length A) ->
  wp (set_symmetric_difference mem i it) (fun r h' => finished (length A) h' (A ++ [fun x => xorb (P x) (toggles it A x)]) r) h.
Proof using Laws Hmem.
  intros R Hi Hv. apply (on_copy h A i P (fun o => set_symmetric_difference_update mem o it)); [done|done|]. intros h' R'.
  rewrite <- (proj2 (arg_app it A [P] Hv)). apply symdiff_ok; [done|apply lookup_last|by apply valid_app].
Qed.

Definition minus P (others : list (@iterable obj)) A x : bool := P x && negb (existsb (fun it => arg it A x) others).

Lemma set_diff_ok h A i P others : rep h A -> A !! i = Some P -> Forall (fun it => valid it (length A)) others ->
  wp (set_diff_int mem i others false) (fun r h' => finished (length A) h' (A ++ [minus P others A]) r) h.
Proof using Laws Hmem.
  intros R Hi Hv. apply (on_copy h A i P (fun o => diff_args mem o others)); [done|done|]. intros h' R'.
  eapply wp_mono; [apply (diff_args_ok (length A) others h' (A ++ [P]) P); [done|apply lookup_last|]|].
  - eapply Forall_impl; [exact Hv|]. intros it. apply valid_app.
  - intros r h2 [-> R2]. left. split; [done|]. eapply rep_ext_at; [exact R2|]. intros x. unfold minus. f_equal. f_equal.
    clear -Hv. induction Hv as [|it others Hv _ IH]; [done|]. simpl. by rewrite IH, (proj1 (arg_app it A [P] Hv)).
Qed.

Lemma set_diff_update_ok h A i P others : rep h A -> A !! i = Some P -> Forall (fun it => valid it (length A)) others ->
  wp (set_diff_int mem i others true) (fun r h' => r = inl i /\ rep h' (<[i := minus P others A]> A)) h.
Proof using Laws Hmem.
  intros R Hi Hv. apply wp_bind, wp_ret, wp_bind. eapply wp_mono; [by apply (diff_args_ok i others h A P)|].
  intros r h' [-> R']. by apply wp_ret.
Qed.

Lemma set_update_ok i others : forall h A P, rep h A -> A !! i = Some P -> Forall (fun it => valid it (length A)) others ->
  wp (set_update mem i others) (fun r h' => finished tt h' (<[i := fun x => P x || existsb (fun it => arg it A x) others]> A) r) h.
Proof using Laws Hmem.
  induction others as [|it others IH]; intros h A P R Hi Hv; simpl.
  { apply wp_ret. left. split; [done|]. eapply rep_ext_at; [by rewrite list_insert_id|]. intros x. by rewrite orb_false_r. }
  inversion Hv as [|? ? Hv1 Hv2]; subst. apply wp_bind. eapply wp_mono; [by apply (set_update_int_ok h A i P)|].
  intros r h1 [[-> R1]| ->]; [|apply wp_ret; by right]. eapply wp_mono.
  - apply (IH h1 (<[i := fun x => P x || arg it A x]> A) (fun x => P x || arg it A x) R1); [apply list_lookup_insert_eq; by eapply lookup_lt_Some|by rewrite length_insert].
  - intros r h2 [[-> R2]| ->]; [left|by right]. split; [done|]. rewrite list_insert_insert_eq in R2. eapply rep_ext_at; [exact R2|].
    intros x. cbv beta. clear -Hi. destruct (P x) eqn:EP; [done|]. destruct (arg it A x) eqn:Ea; [done|]. simpl.
    induction others as [|it2 others IH]; [done|]. simpl. rewrite IH. f_equal. destruct it2 as [|j]; [done|]. simpl.
    destruct (decide (j = i)) as [->|]; [|by rewrite list_lookup_insert_ne].
    rewrite list_lookup_insert_eq by (by eapply lookup_lt_Some). rewrite Hi. simpl. by rewrite EP, Ea.
Qed.

(** ** Intersections *)

Lemma set_add_ok h A i P x : rep h A -> A !! i = Some P ->
  wp (set_add mem i x) (fun r h' => (r = inl tt /\ rep h' (<[i := fun y => mp_obj_equal x y || P y]> A) /\ forall j, j <> i -> h' !! j = h !! j) \/
    r = inr MemoryError) h.
Proof using Laws Hmem.
  intros R Hi. apply wp_bind, (wp_lookup_in h A i P); [done|done| |intros h' _; apply wp_ret; by right].
  intros e h' R' _ _ Hj _. apply wp_ret. left. split; [done|]. split; [|done]. eapply rep_ext_at; [exact R'|].
  intros y. rewrite upd_spec by (by apply (rep_respects h A i)). simpl. by destruct (mp_obj_equal x y), (P y).
Qed.

(** The loop that collects the objects which are in the set. *)
Lemma intersect_loop h A i P it : rep h (A ++ [none_of]) -> A !! i = Some P -> valid it (length A) ->
  wp (iterate it (fun next =>
      e <-? lookup_in mem i next MP_MAP_LOOKUP ;;
      if filled e then _ <-? set_add mem (length A) next ;; ret (inl false) else ret (inl false)))
    (fun r h' => finished false h' (A ++ [fun x => P x && arg it A x]) r) h.
Proof using Laws Hmem.
  intros R Hi Hv. destruct (yields_arg h _ it R (valid_app it A [none_of] Hv)) as (l & Hy & Hm & _).
  assert (Hil : (i < length A)%nat) by (by eapply lookup_lt_Some).
  assert (HP : respects P) by (apply (rep_respects h (A ++ [none_of]) i); [done|by rewrite lookup_app_l]).
  apply (wp_iterate _ (fun l' h' => exists P', rep h' (A ++ [P']) /\ (forall x, P' x || (P x && mem_list l' x) = P x && mem_list l x) /\
    forall j, (j < length A)%nat -> h' !! j = h !! j)) with (l := l); [| |done| |].
  - intros x l' h1 (P' & R1 & Hp & Hj). apply wp_bind, (wp_contains h1 (A ++ [P']) i P); [done|by rewrite lookup_app_l|].
    intros e ->. destruct (P x) eqn:Ex.
    + apply wp_bind. eapply wp_mono; [apply (set_add_ok h1 (A ++ [P']) (length A) P' x R1); apply lookup_last|].
      intros r h2 [(-> & R2 & Hj2)| ->]; apply wp_ret; [|by right]. exists (fun y => mp_obj_equal x y || P' y). rewrite insert_last in R2.
      split; [done|]. split; [|intros j Hlt; rewrite Hj2 by lia; by apply Hj].
      intros y. rewrite <- Hp. simpl. destruct (mp_obj_equal x y) eqn:E; [|done]. rewrite <- (HP x y E), Ex. by rewrite orb_true_r.
    + apply wp_ret. exists P'. split; [done|]. split; [|done]. intros y. rewrite <- Hp. simpl.
      destruct (mp_obj_equal x y) eqn:E; [|done]. by rewrite <- (HP x y E), Ex.
  - intros h' (P' & R' & Hp & _). left. split; [done|]. eapply rep_ext_last; [exact R'|]. intros x. specialize (Hp x). rewrite andb_false_r, orb_false_r in Hp.
    by rewrite Hp, Hm, (proj1 (arg_app it A [none_of] Hv)).
  - intros l' h' (P' & _ & _ & Hj). destruct it as [|j]; [done|]. by apply Hj.
  - exists none_of. done.
Qed.

Lemma rep_take n h A : rep h A -> rep (take n h) (take n A).
Proof. apply Forall2_take. Qed.

Lemma set_intersect_ok h A i P it update : rep h A -> A !! i = Some P -> valid it (length A) ->
  wp (set_intersect_int mem i it update) (fun r h' =>
    finished (if update then None else Some (length A)) h'
      (if update then <[i := fun x => P x && arg it A x]> A else A ++ [fun x => P x && arg it A x]) r) h.
Proof using Laws Hmem.
  intros R Hi Hv. assert (Hil : (i < length A)%nat) by (by eapply lookup_lt_Some). unfold set_intersect_int.
  assert (Hgo : wp (out <-? mp_obj_new_set mem [] ;;
    _ <-? iterate it (fun next =>
      e <-? lookup_in mem i next MP_MAP_LOOKUP ;;
      if filled e then _ <-? set_add mem out next ;; ret (inl false) else ret (inl false)) ;;
    if update then
      s <- getso (fun h : list mp_set_t => h !! out) ;; on i (modify (fun _ => s)) ;; forget ;; ret (inl None)
    else ret (inl (Some out))) (fun r h' =>
    finished (if update then None else Some (length A)) h'
      (if update then <[i := fun x => P x && arg it A x]> A else A ++ [fun x => P x && arg it A x]) r) h).
  { apply wp_bind. eapply wp_mono; [by apply (mp_obj_new_set_ok h A [])|]. intros r h1 [[-> R1]| ->]; [|apply wp_ret; by right].
    apply wp_bind. eapply wp_mono; [by apply (intersect_loop h1 A i P it)|]. intros r h2 [[-> R2]| ->]; [|apply wp_ret; by right].
    destruct update; [|apply wp_ret; by left]. destruct (rep_set _ _ _ _ R2 (lookup_last A _)) as (s & Hs & S).
    apply wp_bind, (wp_getso _ s); [done|]. destruct (lookup_lt_is_Some_2 h2 i) as [s2 Hs2].
    { rewrite (rep_length _ _ R2), length_app. simpl. lia. }
    apply wp_bind, (wp_on h2 i s2); [done|]. apply wp_modify, wp_bind, wp_modify, wp_ret. left. split; [done|].
    pose proof (rep_take (length A) _ _ (srep_insert h2 _ i s _ R2 S)) as R3. rewrite length_insert, (rep_length _ _ R2), length_app. simpl.
    replace (length A + 1 - 1)%nat with (length A) by lia. rewrite insert_app_l in R3 by done.
    rewrite (take_app_length' (<[i:=_]> A)) in R3; [done|by rewrite length_insert]. }
  destruct it as [l|j]; [exact Hgo|]. destruct (Nat.eqb_spec j i) as [->|]; [|exact Hgo]. simpl in *. rewrite Hi in *. simpl in *.
  destruct update.
  - apply wp_ret. left. split; [done|]. eapply rep_ext_at; [by rewrite list_insert_id|]. intros x. by destruct (P x).
  - apply wp_bind. eapply wp_mono; [by apply (set_copy_ok h A i P)|]. intros r h1 [[-> R1]| ->]; apply wp_ret; [left|by right].
    split; [done|]. eapply rep_ext_last; [exact R1|]. intros x. by destruct (P x).
Qed.

Lemma set_isdisjoint_ok h A i P it : rep h A -> A !! i = Some P -> valid it (length A) ->
  wp (set_isdisjoint mem i it) (fun r h' => h' = h /\ exists t : bool, r = inl t /\ (t = true <-> forall x, P x && arg it A x = false)) h.
Proof using Laws Hmem.
  intros R Hi Hv. destruct (yields_arg h A it R Hv) as (l & Hy & Hm & _). apply wp_bind.
  apply (wp_iterate _ (fun l' h' => h' = h /\ (forall x, x ∈ l' -> x ∈ l) /\ forall x, P x && mem_list l x = P x && mem_list l' x)) with (l := l);
    [| |done|by intros l' h' [-> _]; destruct it|done].
  - intros x l' h1 (-> & Hin & Hx). apply wp_bind, (wp_contains h A i P); [done|done|]. intros e ->. apply wp_ret. destruct (P x) eqn:Ex.
    + apply wp_ret. split; [done|]. exists false. split; [done|]. split; [done|]. intros Hd. specialize (Hd x).
      rewrite Ex, <- Hm in Hd. simpl in Hd. rewrite (proj2 (mem_list_true l x)) in Hd; [done|]. exists x. split; [apply Hin; by left|apply equal_refl].
    + split; [done|]. split; [intros y Hl; apply Hin; by right|]. intros y. rewrite Hx. simpl.
      destruct (mp_obj_equal x y) eqn:E; [|done]. by rewrite <- (rep_respects h A i P R Hi x y E), Ex.
  - intros h' (-> & _ & Hx). apply wp_ret. split; [done|]. exists true. split; [done|]. split; [|done]. intros _ x.
    rewrite <- Hm, Hx. by rewrite andb_false_r.
Qed.

(** ** Comparisons *)

Definition subset P R : Prop := forall x, P x = true -> R x = true.

Lemma subset_items s1 s2 P R : sholds s1 P -> sholds s2 R -> subset P R -> s_used s1 <= s_used s2 /\ (s_used s1 = s_used s2 -> subset R P).
Proof using Laws.
  intros S1 S2 Hs. pose proof (items_used s1 (proj1 S1)). pose proof (items_used s2 (proj1 S2)).
  pose proof (items_apart s1 (proj1 S1)) as A1.
  assert (Hin : forall a, a ∈ items s1 -> mem_list (items s2) a = true).
  { intros a Ha. rewrite (items_mem s2 R a S2). apply Hs. rewrite <- (items_mem s1 P a S1). apply mem_list_true. exists a.
    split; [done|apply equal_refl]. }
  pose proof (pigeonhole _ _ A1 Hin). split; [lia|]. intros Eu x Hx. destruct (P x) eqn:Ex; [done|]. exfalso.
  assert (length (x :: items s1) <= length (items s2))%nat; [|simpl in *; lia]. apply pigeonhole.
  - apply apart_cons. split; [done|]. intros b Hb. destruct (mp_obj_equal x b) eqn:E; [|done]. rewrite <- Ex. symmetry.
    rewrite <- (items_mem s1 P x S1). apply mem_list_true. exists b. split; [done|]. by rewrite equal_sym.
  - intros a [->|Ha]%elem_of_cons; [by rewrite (items_mem s2 R x S2)|by apply Hin].
Qed.

Lemma subset_loop h A i j P R : rep h A -> A !! i = Some P -> A !! j = Some R ->
  wp (iterate (OfSet i) (fun next => e <-? lookup_in mem j next MP_MAP_LOOKUP ;; ret (inl (negb (filled e)))))
    (fun r h' => h' = h /\ exists t : bool, r = inl t /\ (t = false <-> subset P R)) h.
Proof using Laws Hmem.
  intros Rh Hi Hj. assert (Hv : valid (OfSet i) (length A)) by (by eapply lookup_lt_Some).
  destruct (yields_arg h A (OfSet i) Rh Hv) as (l & Hy & Hm & _). simpl in Hm. rewrite Hi in Hm. simpl in Hm.
  apply (wp_iterate _ (fun l' h' => h' = h /\ (forall x, x ∈ l' -> x ∈ l) /\ forall x, x ∈ l -> x ∉ l' -> R x = true)) with (l := l);
    [| |done|by intros l' h' [-> _]|done].
  - intros x l' h1 (-> & Hin & Hx). apply wp_bind, (wp_contains h A j R); [done|done|]. intros e ->. apply wp_ret. destruct (R x) eqn:Ex; simpl.
    + split; [done|]. split; [intros y Hl; apply Hin; by right|]. intros y Hy1 Hy2. destruct (decide (y = x)) as [->|]; [done|].
      apply Hx; [done|]. by intros [?|?]%elem_of_cons.
    + split; [done|]. exists true. split; [done|]. split; [done|]. intros Hs. rewrite <- Ex. symmetry. apply Hs. rewrite <- Hm.
      apply mem_list_true. exists x. split; [apply Hin; by left|apply equal_refl].
  - intros h' (-> & _ & Hx). split; [done|]. exists false. split; [done|]. split; [|done]. intros _ x HP. rewrite <- Hm in HP.
    apply mem_list_true in HP as (a & Ha & E). rewrite <- (rep_respects h A j R Rh Hj a x E). apply Hx; [done|]. by intros ?%elem_of_nil.
Qed.

(** An argument as a set: itself, or a new set at the end. *)
Definition made A it (j : nat) (c : bool) A' : Prop :=
  A' !! j = Some (arg it A) /\ take (length A) A' = A /\
  if c then length A' = S (length A) /\ j = length A else A' = A.

Lemma as_set_ok h A it : rep h A -> valid it (length A) ->
  wp (as_set mem it) (fun r h' => (exists j c A', r = inl (j, c) /\ made A it j c A' /\ rep h' A') \/
    r = inr MemoryError /\ exists l, it = Items l) h.
Proof using Laws Hmem.
  intros R Hv. destruct it as [l|j].
  - apply wp_bind. eapply wp_mono; [apply (set_make_new_ok h A (Some (Items l)) R); by intros ? [= <-]|].
    intros r h' [[-> R']| ->]; apply wp_ret; [left|right; split; [done|by exists l]].
    exists (length A), true, (A ++ [mem_list l]). split; [done|]. split; [|done]. split; [apply lookup_last|].
    split; [by rewrite take_app_length|]. split; [rewrite length_app; simpl; lia|done].
  - apply wp_ret. left. exists j, false, A. destruct (lookup_lt_is_Some_2 A j Hv) as [P HP]. split; [done|]. split; [|done].
    split; [simpl; by rewrite HP|]. split; [by rewrite take_ge|done].
Qed.

Lemma set_clear_ok h A i : rep h A -> (i < length A)%nat -> wp (set_clear i) (fun _ h' => rep h' (<[i := none_of]> A)) h.
Proof.
  intros R Hi. destruct (lookup_lt_is_Some_2 h i) as [s Hs]; [by rewrite (rep_length h A R)|].
  apply (wp_on h i s); [done|]. apply wp_modify. apply srep_insert; [done|]. by apply (sholds_empty 0).
Qed.

(** The sets that were made are cleared and forgotten. *)
Lemma cleanup_ok h A A1 A2 it1 it2 i1 i2 (c1 c2 : bool) (t : bool) : made A it1 i1 c1 A1 -> made A1 it2 i2 c2 A2 -> rep h A2 ->
  wp (when c1 (set_clear i1) ;; when c2 (set_clear i2) ;; when c2 forget ;; when c1 forget ;; ret (inl t : bool + exn obj))
    (fun r h' => r = inl t /\ rep h' A) h.
Proof.
  intros (L1 & T1 & M1) (L2 & T2 & M2) R. set (B1 := if c1 then <[i1 := none_of]> A2 else A2). set (B2 := if c2 then <[i2 := none_of]> B1 else B1).
  assert (Hl : (length A <= length A1 <= length A2)%nat).
  { split; [rewrite <- T1 at 1|rewrite <- T2 at 1]; rewrite length_take; lia. }
  assert (Hlen : length B2 = length A2) by (unfold B2, B1; by destruct c1, c2; rewrite ?length_insert).
  assert (HB : take (length A) B2 = A).
  { assert (H2 : take (length A) A2 = A) by (rewrite <- T1 at 2; rewrite <- T2, take_take; f_equal; lia).
    assert (H3 : take (length A) B1 = A) by (unfold B1; destruct c1; [|done]; rewrite take_insert_ge; [done|lia]).
    unfold B2. destruct c2; [|done]. rewrite take_insert_ge; [done|lia]. }
  apply wp_bind. eapply (wp_mono _ (fun _ h' => rep h' B1)).
  { unfold B1. destruct c1; simpl; [|by apply wp_ret]. apply set_clear_ok; [done|lia]. }
  intros _ h1 R1. apply wp_bind. eapply (wp_mono _ (fun _ h' => rep h' B2)).
  { unfold B2. destruct c2; simpl; [|by apply wp_ret]. apply set_clear_ok; [done|]. unfold B1. destruct c1; rewrite ?length_insert; lia. }
  intros _ h2 R2. pose proof (rep_length _ _ R2) as Hh. apply wp_bind.
  eapply (wp_mono _ (fun _ h' => h' = if c2 then take (length A1) h2 else h2)).
  { destruct c2; simpl; [|by apply wp_ret]. apply wp_modify. f_equal. lia. }
  intros _ h3 ->. apply wp_bind.
  eapply (wp_mono _ (fun _ h' => h' = take (length A) h2)).
  { destruct c1; simpl; [apply wp_modify|apply wp_ret]; destruct c2.
    - rewrite take_take, length_take. f_equal. lia.
    - subst A2. f_equal. lia.
    - by subst A1.
    - subst. by rewrite take_ge by lia. }
  intros _ h4 ->. apply wp_ret. split; [done|]. pose proof (rep_take (length A) _ _ R2) as R3. by rewrite HB in R3.
Qed.

Lemma set_issubset_ok h A it1 it2 proper : rep h A -> valid it1 (length A) -> valid it2 (length A) ->
  wp (set_issubset_internal mem it1 it2 proper) (fun r h' =>
    (rep h' A /\ exists t : bool, r = inl t /\
      (t = true <-> subset (arg it1 A) (arg it2 A) /\ (proper = true -> ~ subset (arg it2 A) (arg it1 A)))) \/
    (r = inr MemoryError /\ exists l, it1 = Items l \/ it2 = Items l)) h.
Proof using Laws Hmem.
  intros R Hv1 Hv2. apply wp_bind. eapply wp_mono; [by apply (as_set_ok h A it1)|].
  intros r h1 [(i1 & c1 & A1 & -> & M1 & R1)|(-> & l & ->)]; [|apply wp_ret; right; split; [done|exists l; by left]].
  assert (E1 : valid it2 (length A1) /\ arg it2 A1 = arg it2 A).
  { destruct M1 as (_ & T1 & _). destruct it2 as [|j]; [done|]. simpl in *. rewrite <- T1 in Hv2 |- *. rewrite length_take in Hv2.
    split; [lia|]. by rewrite lookup_take_lt by lia. }
  destruct E1 as [Hv2' E1]. apply wp_bind. eapply wp_mono; [by apply (as_set_ok h1 A1 it2)|].
  intros r h2 [(i2 & c2 & A2 & -> & M2 & R2)|(-> & l & ->)]; [|apply wp_ret; right; split; [done|exists l; by right]].
  assert (L1 : A2 !! i1 = Some (arg it1 A)).
  { destruct M1 as (L1 & _ & _), M2 as (_ & T2 & _). rewrite <- T2 in L1. by apply lookup_take_Some in L1 as [? _]. }
  assert (L2 : A2 !! i2 = Some (arg it2 A)) by (rewrite <- E1; apply M2).
  destruct (rep_set _ _ _ _ R2 L1) as (s1 & Hs1 & S1), (rep_set _ _ _ _ R2 L2) as (s2 & Hs2 & S2). cbn [fst snd].
  apply wp_bind, (wp_on_gets h2 i1 s1); [done|]. apply wp_bind, (wp_on_gets h2 i2 s2); [done|].
  pose proof (subset_items s1 s2 _ _ S1 S2) as H12. pose proof (subset_items s2 s1 _ _ S2 S1) as H21.
  apply wp_bind.
  apply (wp_mono _ (fun r h' => h' = h2 /\ exists t : bool, r = inl t /\
      (t = true <-> subset (arg it1 A) (arg it2 A) /\ (proper = true -> ~ subset (arg it2 A) (arg it1 A))))).
  - destruct (proper && (s_used s1 =? s_used s2)) eqn:Ep.
    + apply andb_true_iff in Ep as [-> Eu%Z.eqb_eq]. apply wp_ret. split; [done|]. exists false. split; [done|]. split; [done|].
      intros [Hs Hn]. destruct (Hn eq_refl). by apply H12.
    + apply wp_bind. eapply wp_mono; [by apply (subset_loop h2 A2 i1 i2)|]. intros r h' (-> & t & -> & Ht). apply wp_ret.
      split; [done|]. exists (negb t). split; [done|]. rewrite negb_true_iff, Ht. split; [|by intros [? _]].
      intros Hs. split; [done|]. intros -> Hs'. apply Z.eqb_neq in Ep. destruct (H12 Hs), (H21 Hs'). lia.
  - intros r h3 (-> & t & -> & Ht). eapply wp_mono; [by apply (cleanup_ok h2 A A1 A2 it1 it2 i1 i2 c1 c2 t)|].
    intros r h4 [-> R4]. left. split; [done|]. by exists t.
Qed.

Lemma set_equal_ok h A i j P R : rep h A -> A !! i = Some P -> A !! j = Some R ->
  wp (set_equal mem i j) (fun r h' => rep h' A /\ exists t : bool, r = inl t /\ (t = true <-> forall x, P x = R x)) h.
Proof using Laws Hmem.
  intros Rh Hi Hj. destruct (rep_set _ _ _ _ Rh Hi) as (s1 & Hs1 & S1), (rep_set _ _ _ _ Rh Hj) as (s2 & Hs2 & S2).
  pose proof (subset_items s1 s2 P R S1 S2) as H12. pose proof (subset_items s2 s1 R P S2 S1) as H21.
  apply wp_bind, (wp_on_gets h i s1); [done|]. apply wp_bind, (wp_on_gets h j s2); [done|].
  destruct (Z.eqb_spec (s_used s1) (s_used s2)) as [Eu|Eu]; simpl.
  - eapply wp_mono; [apply (set_issubset_ok h A (OfSet i) (OfSet j) false Rh); by eapply lookup_lt_Some|].
    intros r h' [(R' & t & -> & Ht)|(-> & l & [?|?])]; [|done..]. split; [done|]. exists t. split; [done|]. rewrite Ht. simpl. rewrite Hi, Hj. simpl.
    split; [|intros E; split; [intros x; by rewrite E|done]]. intros [Hs _] x. destruct (H12 Hs) as [_ Hs']. specialize (Hs' Eu).
    apply eq_true_iff_eq. split; [apply Hs|apply Hs'].
  - apply wp_ret. split; [done|]. exists false. split; [done|]. split; [done|]. intros E.
    destruct (H12 ltac:(intros x; by rewrite E)), (H21 ltac:(intros x; by rewrite E)). lia.
Qed.

(** ** Elements *)

Lemma set_pop_ok h A i P : rep h A -> A !! i = Some P ->
  wp (set_pop i) (fun r h' =>
    (exists a, r = inl (Obj a) /\ P a = true /\ rep h' (<[i := fun x => negb (mp_obj_equal a x) && P x]> A)) \/
    (r = inr (KeyError None) /\ h' = h /\ forall x, P x = false)) h.
Proof using Laws.
  intros R Hi. destruct (rep_set h A i P R Hi) as (s & Hs & S). apply wp_bind, (wp_on h i s); [done|]. apply (wp_remove_first s P); [done|..].
  - intros a s' Ha S'. apply wp_ret. left. exists a. split; [done|]. split; [done|]. by apply srep_insert.
  - intros Hno. apply wp_ret. right. rewrite list_insert_id by done. done.
Qed.

Lemma lookup_remove_ok h A i P x : rep h A -> A !! i = Some P ->
  wp (lookup_in mem i x MP_MAP_LOOKUP_REMOVE_IF_FOUND) (fun r h' => (exists e, r = inl e /\ filled e = P x /\ (filled e = false -> e = MP_OBJ_NULL)) /\
    rep h' (<[i := fun y => negb (mp_obj_equal x y) && P y]> A)) h.
Proof using Laws Hmem.
  intros R Hi. apply (wp_lookup_in h A i P); [done|done| |done]. intros e h' R' Ee En _ _. rewrite orb_false_r in Ee. split; [by exists e|].
  eapply rep_ext_at; [exact R'|]. intros y. rewrite upd_spec by (by apply (rep_respects h A i)). simpl. by destruct (mp_obj_equal x y), (P y).
Qed.

Lemma set_discard_ok h A i P x : rep h A -> A !! i = Some P ->
  wp (set_discard mem i x) (fun r h' => r = inl tt /\ rep h' (<[i := fun y => negb (mp_obj_equal x y) && P y]> A)) h.
Proof using Laws Hmem.
  intros R Hi. apply wp_bind. eapply wp_mono; [by apply (lookup_remove_ok h A i P x)|]. intros r h' [(e & -> & _) R']. by apply wp_ret.
Qed.

Lemma set_remove_ok h A i P x : rep h A -> A !! i = Some P ->
  wp (set_remove mem i x) (fun r h' => r = (if P x then inl tt else inr (KeyError (Some x))) /\
    rep h' (<[i := fun y => negb (mp_obj_equal x y) && P y]> A)) h.
Proof using Laws Hmem.
  intros R Hi. apply wp_bind. eapply wp_mono; [by apply (lookup_remove_ok h A i P x)|]. intros r h' [(e & -> & Ee & Ez) R'].
  rewrite <- Ee. destruct e; [by apply wp_ret|by discriminate (Ez eq_refl)|by apply wp_ret].
Qed.

Lemma set_contains_ok h A i P x : rep h A -> A !! i = Some P -> wp (set_contains mem i x) (fun r h' => r = inl (P x) /\ h' = h) h.
Proof using Laws Hmem. intros R Hi. apply wp_bind, (wp_contains h A i P); [done|done|]. intros e Ee. apply wp_ret. by rewrite Ee. Qed.

Lemma set_len_ok h A i P : rep h A -> A !! i = Some P ->
  wp (set_len i) (fun n h' => h' = h /\ exists l, apart l /\ (forall x, mem_list l x = P x) /\ n = Z.of_nat (length l)) h.
Proof using Laws.
  intros R Hi. destruct (rep_set h A i P R Hi) as (s & Hs & S). apply (wp_on_gets h i s); [done|]. split; [done|]. exists (items s).
  split; [apply items_apart, S|]. split; [intros x; by apply items_mem|]. symmetry. apply items_used, S.
Qed.

Lemma set_bool_ok h A i P : rep h A -> A !! i = Some P ->
  wp (set_bool i) (fun t h' => h' = h /\ (t = true <-> exists x, P x = true)) h.
Proof using Laws.
  intros R Hi. apply wp_bind. eapply wp_mono; [by apply (set_len_ok h A i P)|]. intros n h' (-> & l & _ & Hm & ->). apply wp_ret. split; [done|].
  rewrite negb_true_iff, Z.eqb_neq. destruct l as [|a l]; simpl.
  - split; [done|]. intros [x Hx]. by rewrite <- Hm in Hx.
  - split; [|lia]. intros _. exists a. rewrite <- Hm. simpl. by rewrite equal_refl.
Qed.
End Operations.
