(* ===== verification/SetProps.v ===== *)
(** SetProps: programs that use sets, and what happens when memory runs out. *)

From stdpp Require Import options.
From S2P Require Import Prelude Map MapInv Dict ObjSet SetOps SetSys SetSpec.

#[local] Ltac Zify.zify_post_hook ::= Z.to_euclidean_division_equations.

Section Programs.
Context {obj : Type} `{Laws : MpObjLaws obj}.
Implicit Types (P R : obj -> bool) (h : list (@mp_set_t obj)) (A : list (obj -> bool)).

(** The constructors, the methods and the operators of sets. *)
Inductive set_op :=
  | SNew (l : list obj)
  | SMake (arg : option (@iterable obj))
  | SCopy (i : nat)
  | SAdd (i : nat) (x : obj)
  | SDiscard (i : nat) (x : obj)
  | SRemove (i : nat) (x : obj)
  | SPop (i : nat)
  | SClear (i : nat)
  | SUpdate (i : nat) (others : list (@iterable obj))
  | SDiff (i : nat) (others : list (@iterable obj)) (update : bool)
  | SIntersect (i : nat) (other : @iterable obj) (update : bool)
  | SSymDiff (i : nat) (other : @iterable obj) (update : bool)
  | SUnion (i : nat) (other : @iterable obj)
  | SIsDisjoint (i : nat) (other : @iterable obj)
  | SIsSubset (i : nat) (other : @iterable obj)
  | SIsSuperset (i : nat) (other : @iterable obj)
  | SLen (i : nat)
  | SBool (i : nat)
  | SContains (i : nat) (x : obj)
  | SBinary (op : set_operator) (i : nat) (rhs : @iterable obj).

Inductive set_out :=
  | OSet (i : nat)
  | OTruth (b : bool)
  | ONumber (n : Z)
  | OObject (x : @mp_obj_t obj)
  | ODone
  | OUnsupported
  | ORaised (e : exn obj).

Definition out {B} (f : B -> set_out) (c : M (list (@mp_set_t obj)) (B + exn obj)) : M (list (@mp_set_t obj)) set_out :=
  r <- c ;; ret (match r with inl x => f x | inr e => ORaised e end).

Definition of_result (r : result) : set_out := match r with ASet i => OSet i | ABool b => OTruth b | Unsupported => OUnsupported end.
Definition of_option (o : option nat) : set_out := match o with Some i => OSet i | None => ODone end.

Definition set_exec (mem : @memory obj) (op : set_op) : M (list (@mp_set_t obj)) set_out :=
  match op with
  | SNew l => out OSet (mp_obj_new_set mem l)
  | SMake arg => out OSet (set_make_new mem arg)
  | SCopy i => out OSet (set_copy mem i)
  | SAdd i x => out (fun _ => ODone) (set_add mem i x)
  | SDiscard i x => out (fun _ => ODone) (set_discard mem i x)
  | SRemove i x => out (fun _ => ODone) (set_remove mem i x)
  | SPop i => out OObject (set_pop i)
  | SClear i => set_clear i ;; ret ODone
  | SUpdate i others => out (fun _ => ODone) (set_update mem i others)
  | SDiff i others true => out (fun _ => ODone) (set_diff_int mem i others true)
  | SDiff i others false => out OSet (set_diff_int mem i others false)
  | SIntersect i other update => out of_option (set_intersect_int mem i other update)
  | SSymDiff i other true => out (fun _ => ODone) (set_symmetric_difference_update mem i other)
  | SSymDiff i other false => out OSet (set_symmetric_difference mem i other)
  | SUnion i other => out OSet (set_union mem i other)
  | SIsDisjoint i other => out OTruth (set_isdisjoint mem i other)
  | SIsSubset i other => out OTruth (set_issubset mem (OfSet i) other)
  | SIsSuperset i other => out OTruth (set_issuperset mem (OfSet i) other)
  | SLen i => n <- set_len i ;; ret (ONumber n)
  | SBool i => b <- set_bool i ;; ret (OTruth b)
  | SContains i x => out OTruth (set_contains mem i x)
  | SBinary op i rhs => out of_result (set_binary_op mem op i rhs)
  end.

(** ** The specification *)

Definition at_ A (i : nat) : obj -> bool := default none_of (A !! i).

(** A new set, or a new value of a set. *)
Definition gives A P r A' : Prop := r = OSet (length A) /\ A' = A ++ [P].
Definition becomes A i P (o : set_out) r A' : Prop := r = o /\ A' = <[i := P]> A.
Definition answers A (X : Prop) r A' : Prop := A' = A /\ exists t, r = OTruth t /\ (t = true <-> X).

Definition disjoint P R : Prop := forall x, P x && R x = false.
Definition strictly P R : Prop := subset P R /\ ~ subset R P.

(** The number of elements, up to equality. *)
Definition size P (n : Z) : Prop := exists l, apart l /\ (forall x, mem_list l x = P x) /\ n = Z.of_nat (length l).

Definition set_spec (op : set_op) A r A' : Prop :=
  match op with
  | SNew l => gives A (mem_list l) r A'
  | SMake None => gives A none_of r A'
  | SMake (Some it) => gives A (arg it A) r A'
  | SCopy i => gives A (at_ A i) r A'
  | SAdd i x => becomes A i (fun y => mp_obj_equal x y || at_ A i y) ODone r A'
  | SDiscard i x => becomes A i (fun y => negb (mp_obj_equal x y) && at_ A i y) ODone r A'
  | SRemove i x =>
      becomes A i (fun y => negb (mp_obj_equal x y) && at_ A i y) (if at_ A i x then ODone else ORaised (KeyError (Some x))) r A'
  | SPop i =>
      (exists x, at_ A i x = true /\ becomes A i (fun y => negb (mp_obj_equal x y) && at_ A i y) (OObject (Obj x)) r A') \/
      ((forall x, at_ A i x = false) /\ r = ORaised (KeyError None) /\ A' = A)
  | SClear i => becomes A i none_of ODone r A'
  | SUpdate i others => becomes A i (fun x => at_ A i x || existsb (fun it => arg it A x) others) ODone r A'
  | SDiff i others true => becomes A i (minus (at_ A i) others A) ODone r A'
  | SDiff i others false => gives A (minus (at_ A i) others A) r A'
  | SIntersect i other true => becomes A i (fun x => at_ A i x && arg other A x) ODone r A'
  | SIntersect i other false => gives A (fun x => at_ A i x && arg other A x) r A'
  | SSymDiff i other true => becomes A i (fun x => xorb (at_ A i x) (toggles other A x)) ODone r A'
  | SSymDiff i other false => gives A (fun x => xorb (at_ A i x) (toggles other A x)) r A'
  | SUnion i other => gives A (fun x => at_ A i x || arg other A x) r A'
  | SIsDisjoint i other => answers A (disjoint (at_ A i) (arg other A)) r A'
  | SIsSubset i other => answers A (subset (at_ A i) (arg other A)) r A'
  | SIsSuperset i other => answers A (subset (arg other A) (at_ A i)) r A'
  | SLen i => A' = A /\ exists n, r = ONumber n /\ size (at_ A i) n
  | SBool i => answers A (exists x, at_ A i x = true) r A'
  | SContains i x => A' = A /\ r = OTruth (at_ A i x)
  | SBinary _ _ (Items _) => A' = A /\ r = OUnsupported
  | SBinary op i (OfSet j) =>
      let P := at_ A i in let R := at_ A j in
      match op with
      | OR => gives A (fun x => P x || R x) r A'
      | XOR => gives A (fun x => xorb (P x) (R x)) r A'
      | AND => gives A (fun x => P x && R x) r A'
      | SUBTRACT => gives A (fun x => P x && negb (R x)) r A'
      | INPLACE_OR => becomes A i (fun x => P x || R x) (OSet i) r A'
      | INPLACE_XOR => becomes A i (fun x => xorb (P x) (R x)) (OSet i) r A'
      | INPLACE_AND => becomes A i (fun x => P x && R x) (OSet i) r A'
      | INPLACE_SUBTRACT => becomes A i (fun x => P x && negb (R x)) (OSet i) r A'
      | LESS => answers A (strictly P R) r A'
      | MORE => answers A (strictly R P) r A'
      | EQUAL => answers A (forall x, P x = R x) r A'
      | LESS_EQUAL => answers A (subset P R) r A'
      | MORE_EQUAL => answers A (subset R P) r A'
      end
  end.

(** The operations that allocate memory. *)
Definition allocates (op : set_op) : bool :=
  match op with
  | SNew _ | SMake _ | SCopy _ | SAdd _ _ | SUpdate _ _ | SDiff _ _ false | SIntersect _ _ _ | SSymDiff _ _ _ | SUnion _ _
  | SIsSubset _ (Items _) | SIsSuperset _ (Items _) => true
  | SBinary op _ (OfSet _) => match op with INPLACE_SUBTRACT | LESS | MORE | EQUAL | LESS_EQUAL | MORE_EQUAL => false | _ => true end
  | _ => false
  end.

(** The operations that return a new set. *)
Definition creates (op : set_op) : bool :=
  match op with
  | SNew _ | SMake _ | SCopy _ | SDiff _ _ false | SIntersect _ _ false | SSymDiff _ _ false | SUnion _ _ => true
  | SBinary op _ (OfSet _) => match op with OR | XOR | AND | SUBTRACT => true | _ => false end
  | _ => false
  end.

(** The sets that the operation names exist. *)
Definition names (op : set_op) (n : nat) : Prop :=
  match op with
  | SNew _ => True
  | SMake arg => match arg with Some it => valid it n | None => True end
  | SCopy i | SAdd i _ | SDiscard i _ | SRemove i _ | SPop i | SClear i | SLen i | SBool i | SContains i _ => (i < n)%nat
  | SUpdate i others | SDiff i others _ => (i < n)%nat /\ Forall (fun it => valid it n) others
  | SIntersect i it _ | SSymDiff i it _ | SUnion i it | SIsDisjoint i it | SIsSubset i it | SIsSuperset i it | SBinary _ i it =>
      (i < n)%nat /\ valid it n
  end.

(** ** Every operation *)

Context (mem : @memory obj) (Hmem : forall h, fits_set (can_table mem h)).

(** The operation did what is specified, or there was no memory. *)
Definition done_ (op : set_op) A r h' : Prop :=
  (exists A', set_spec op A r A' /\ rep h' A') \/ (r = ORaised MemoryError /\ allocates op = true).

Lemma at_lookup A i : (i < length A)%nat -> A !! i = Some (at_ A i).
Proof. intros Hi. destruct (lookup_lt_is_Some_2 A i Hi) as [P HP]. unfold at_. by rewrite HP. Qed.

Lemma wp_out {B} (f : B -> set_out) c (Q : B + exn obj -> list mp_set_t -> Prop) op A h : wp c Q h ->
  (forall r h', Q r h' -> done_ op A (match r with inl x => f x | inr e => ORaised e end) h') -> wp (out f c) (done_ op A) h.
Proof. intros Hc HQ. apply wp_bind. eapply wp_mono; [exact Hc|]. intros r h' Hr. apply wp_ret. by apply HQ. Qed.

(** Results of operations that give a new set or update one. *)
Lemma done_finished {B} (f : B -> set_out) op A x A' r h' : finished x h' A' r -> set_spec op A (f x) A' -> allocates op = true ->
  done_ op A (match r with inl x => f x | inr e => ORaised e end) h'.
Proof. intros [[-> R]| ->] HS Ha; [left; by exists A'|by right]. Qed.

(** A comparison that does not change the sets. *)
Lemma done_answers (X : Prop) op A (r : bool + exn obj) h' :
  (rep h' A /\ exists t : bool, r = inl t /\ (t = true <-> X)) \/ (r = inr MemoryError /\ allocates op = true) ->
  (forall t, (t = true <-> X) -> set_spec op A (OTruth t) A) ->
  done_ op A (match r with inl x => OTruth x | inr e => ORaised e end) h'.
Proof.
  intros [(R & t & -> & Ht)|[-> Ha]] HS; [left; exists A; split; [by apply HS|done]|by right].
Qed.

Lemma simple_ok op A h : rep h A -> names op (length A) ->
  match op with
  | SNew _ | SMake _ | SCopy _ | SAdd _ _ | SDiscard _ _ | SRemove _ _ | SPop _ | SClear _ | SLen _ | SBool _ | SContains _ _ => True
  | _ => False
  end -> wp (set_exec mem op) (done_ op A) h.
Proof using Laws Hmem.
  intros R Hn Hop. destruct op; try done; cbn [names] in Hn; cbn [set_exec].
  - eapply wp_out; [by apply (mp_obj_new_set_ok mem Hmem h A l)|]. intros r h' F. eapply (done_finished OSet); [exact F|by split|done].
  - eapply wp_out; [apply (set_make_new_ok mem Hmem h A arg R); by intros it ->|]. intros r h' F.
    eapply (done_finished OSet); [exact F| |done]. by destruct arg.
  - eapply wp_out; [by apply (set_copy_ok mem Hmem h A i (at_ A i) R), at_lookup|]. intros r h' F. eapply (done_finished OSet); [exact F|by split|done].
  - eapply wp_out; [by apply (set_add_ok mem Hmem h A i (at_ A i) x R), at_lookup|]. intros r h' [(-> & R' & _)| ->]; [left|by right]. by eexists.
  - eapply wp_out; [by apply (set_discard_ok mem Hmem h A i (at_ A i) x R), at_lookup|]. intros r h' [-> R']. left. by eexists.
  - eapply wp_out; [by apply (set_remove_ok mem Hmem h A i (at_ A i) x R), at_lookup|]. intros r h' [-> R']. left. eexists. split; [|exact R'].
    split; [|done]. by destruct (at_ A i x).
  - eapply wp_out; [by apply (set_pop_ok h A i (at_ A i) R), at_lookup|]. intros r h' [(a & -> & Ha & R')|(-> & -> & Hno)]; left.
    + eexists. split; [|exact R']. left. by exists a.
    + exists A. split; [|done]. by right.
  - apply wp_bind. eapply wp_mono; [by apply (set_clear_ok h A i R)|]. intros ? h' R'. apply wp_ret. left. by eexists.
  - apply wp_bind. eapply wp_mono; [by apply (set_len_ok h A i (at_ A i) R), at_lookup|]. intros n h' [-> Hsz]. apply wp_ret. left. exists A.
    split; [|done]. split; [done|]. by exists n.
  - apply wp_bind. eapply wp_mono; [by apply (set_bool_ok h A i (at_ A i) R), at_lookup|]. intros t h' [-> Ht]. apply wp_ret. left. exists A.
    split; [|done]. split; [done|]. by exists t.
  - eapply wp_out; [by apply (set_contains_ok mem Hmem h A i (at_ A i) x R), at_lookup|]. intros r h' [-> ->]. left. by exists A.
Qed.

Lemma issubset_done op A h it1 it2 proper : rep h A -> valid it1 (length A) -> valid it2 (length A) ->
  ((exists l, it1 = Items l \/ it2 = Items l) -> allocates op = true) ->
  (forall t, (t = true <-> subset (arg it1 A) (arg it2 A) /\ (proper = true -> ~ subset (arg it2 A) (arg it1 A))) -> set_spec op A (OTruth t) A) ->
  wp (out OTruth (set_issubset_internal mem it1 it2 proper)) (done_ op A) h.
Proof using Laws Hmem.
  intros R H1 H2 Ha HS. eapply wp_out; [by apply (set_issubset_ok mem Hmem h A it1 it2 proper)|]. intros r h' Hr. eapply done_answers; [|exact HS].
  destruct Hr as [?|[-> Hl]]; [by left|right; split; [done|by apply Ha]].
Qed.

Lemma method_ok op A h : rep h A -> names op (length A) ->
  match op with
  | SUpdate _ _ | SDiff _ _ _ | SIntersect _ _ _ | SSymDiff _ _ _ | SUnion _ _ | SIsDisjoint _ _ | SIsSubset _ _ | SIsSuperset _ _ => True
  | _ => False
  end -> wp (set_exec mem op) (done_ op A) h.
Proof using Laws Hmem.
  intros R Hn Hop. destruct op; try done; cbn [names] in Hn; destruct Hn as [Hi Hv]; cbn [set_exec]; pose proof (at_lookup A i Hi) as Hl.
  - eapply wp_out; [by apply (set_update_ok mem Hmem i others h A (at_ A i))|]. intros r h' F.
    eapply (done_finished (fun _ => ODone)); [exact F|by split|done].
  - destruct update.
    + eapply wp_out; [by apply (set_diff_update_ok mem Hmem h A i (at_ A i))|]. intros r h' [-> R']. left. by eexists.
    + eapply wp_out; [by apply (set_diff_ok mem Hmem h A i (at_ A i))|]. intros r h' F. eapply (done_finished OSet); [exact F|by split|done].
  - eapply wp_out; [by apply (set_intersect_ok mem Hmem h A i (at_ A i) other update)|]. intros r h' F.
    eapply (done_finished of_option); [exact F| |done]. by destruct update.
  - destruct update.
    + eapply wp_out; [by apply (symdiff_ok mem Hmem h A i (at_ A i))|]. intros r h' F.
      eapply (done_finished (fun _ => ODone)); [exact F|by split|done].
    + eapply wp_out; [by apply (set_symmetric_difference_ok mem Hmem h A i (at_ A i))|]. intros r h' F.
      eapply (done_finished OSet); [exact F|by split|done].
  - eapply wp_out; [by apply (set_union_ok mem Hmem h A i (at_ A i))|]. intros r h' F. eapply (done_finished OSet); [exact F|by split|done].
  - eapply wp_out; [by apply (set_isdisjoint_ok mem Hmem h A i (at_ A i) other)|]. intros r h' (-> & t & -> & Ht). left. exists A.
    split; [|done]. split; [done|]. by exists t.
  - apply issubset_done; [done|done|done| |].
    + intros [l [? | ->]]; done.
    + intros t Ht. split; [done|]. exists t. split; [done|]. rewrite Ht. split; [by intros [? _]|done].
  - apply issubset_done; [done|done|done| |].
    + intros [l [-> | ?]]; done.
    + intros t Ht. split; [done|]. exists t. split; [done|]. rewrite Ht. split; [by intros [? _]|done].
Qed.

Lemma wp_as_result {B} (f : B -> result) c (Q : set_out -> list mp_set_t -> Prop) h :
  wp (out (fun x => of_result (f x)) c) Q h -> wp (out of_result (as_result f c)) Q h.
Proof. unfold wp, out, as_result, bind. by destruct (c h) as [[[x|e] h']|]. Qed.

Lemma compare_ok op A h i j : rep h A -> (i < length A)%nat -> (j < length A)%nat ->
  match op with LESS | MORE | EQUAL | LESS_EQUAL | MORE_EQUAL => True | _ => False end ->
  wp (set_exec mem (SBinary op i (OfSet j))) (done_ (SBinary op i (OfSet j)) A) h.
Proof using Laws Hmem.
  intros R Hi Hj Hop. destruct op; try done; cbn [set_exec set_binary_op]; apply wp_as_result.
  - apply issubset_done; [done|done|done|by intros [l [?|?]]|].
    intros t Ht. split; [done|]. exists t. split; [done|]. rewrite Ht. split; [intros [H1 H2]; split; auto|intros [H1 H2]; split; auto].
  - apply issubset_done; [done|done|done|by intros [l [?|?]]|].
    intros t Ht. split; [done|]. exists t. split; [done|]. rewrite Ht. split; [intros [H1 H2]; split; auto|intros [H1 H2]; split; auto].
  - eapply wp_out; [by apply (set_equal_ok mem Hmem h A i j (at_ A i) (at_ A j) R); apply at_lookup|]. intros r h' (R' & t & -> & Ht). left.
    exists A. split; [|done]. split; [done|]. by exists t.
  - apply issubset_done; [done|done|done|by intros [l [?|?]]|].
    intros t Ht. split; [done|]. exists t. split; [done|]. rewrite Ht. split; [by intros [? _]|done].
  - apply issubset_done; [done|done|done|by intros [l [?|?]]|].
    intros t Ht. split; [done|]. exists t. split; [done|]. rewrite Ht. split; [by intros [? _]|done].
Qed.

Lemma minus_one P it A x : minus P [it] A x = P x && negb (arg it A x).
Proof. unfold minus. simpl. by rewrite orb_false_r. Qed.

Lemma operator_ok op A h i j : rep h A -> (i < length A)%nat -> (j < length A)%nat ->
  match op with LESS | MORE | EQUAL | LESS_EQUAL | MORE_EQUAL => False | _ => True end ->
  wp (set_exec mem (SBinary op i (OfSet j))) (done_ (SBinary op i (OfSet j)) A) h.
Proof using Laws Hmem.
  intros R Hi Hj Hop. pose proof (at_lookup A i Hi) as Hl. destruct op; try done; cbn [set_exec set_binary_op]; apply wp_as_result.
  - eapply wp_out; [by apply (set_union_ok mem Hmem h A i (at_ A i))|]. intros r h' F. eapply (done_finished OSet); [exact F|by split|done].
  - eapply wp_out; [by apply (set_symmetric_difference_ok mem Hmem h A i (at_ A i))|]. intros r h' F.
    eapply (done_finished OSet); [exact F|by split|done].
  - eapply wp_out; [by apply (set_intersect_ok mem Hmem h A i (at_ A i) (OfSet j) false)|]. intros r h' F.
    eapply (done_finished (fun o => of_result (match o with Some i => ASet i | None => Unsupported end))); [exact F|by split|done].
  - eapply wp_out; [by apply (set_diff_ok mem Hmem h A i (at_ A i)); [..|constructor]|]. intros r h' [[-> R']| ->]; [left|by right].
    eexists. split; [by split|]. eapply rep_ext_last; [exact R'|]. intros x. apply minus_one.
  - eapply wp_out; [by apply (set_update_ok mem Hmem i _ h A (at_ A i)); [..|constructor]|]. intros r h' [[-> R']| ->]; [left|by right].
    eexists. split; [by split|]. eapply rep_ext_at; [exact R'|]. intros x. simpl. by rewrite orb_false_r.
  - eapply wp_out; [by apply (symdiff_ok mem Hmem h A i (at_ A i))|]. intros r h' F.
    eapply (done_finished (fun _ => OSet i)); [exact F|by split|done].
  - eapply wp_out; [by apply (set_intersect_ok mem Hmem h A i (at_ A i) (OfSet j) true)|]. intros r h' F.
    eapply (done_finished (fun _ => OSet i)); [exact F|by split|done].
  - eapply wp_out; [by apply (set_diff_update_ok mem Hmem h A i (at_ A i)); [..|constructor]|]. intros r h' [-> R']. left.
    eexists. split; [by split|]. eapply rep_ext_at; [exact R'|]. intros x. apply minus_one.
Qed.

Lemma set_exec_ok op A h : rep h A -> names op (length A) -> wp (set_exec mem op) (done_ op A) h.
Proof using Laws Hmem.
  intros R Hn. destruct op; try (by apply simple_ok); try (by apply method_ok). destruct Hn as [Hi Hv]. destruct rhs as [l|j].
  - apply wp_bind, wp_ret, wp_ret. left. by exists A.
  - destruct op; try (by apply compare_ok); by apply operator_ok.
Qed.

Lemma spec_length op A r A' : set_spec op A r A' -> length A' = (length A + if creates op then 1 else 0)%nat.
Proof.
  assert (Hg : forall P, gives A P r A' -> length A' = (length A + 1)%nat) by (intros P [_ ->]; rewrite length_app; simpl; lia).
  assert (Hb : forall i P o, becomes A i P o r A' -> length A' = (length A + 0)%nat) by (intros i P o [_ ->]; rewrite length_insert; lia).
  assert (Ha : forall X, answers A X r A' -> length A' = (length A + 0)%nat) by (intros X [-> _]; lia).
  destruct op; simpl; try (intros; eauto; fail).
  - destruct arg; apply Hg.
  - intros [(x & _ & Hx)|(_ & _ & ->)]; [by eapply Hb|lia].
  - destruct update; eauto.
  - destruct update; eauto.
  - destruct update; eauto.
  - intros [-> _]. lia.
  - intros [-> _]. lia.
  - destruct rhs as [l|j]; [intros [-> _]; lia|]. destruct op; eauto.
Qed.
End Programs.

(** * Programs *)

Section Runs.
Context {obj : Type} `{Laws : MpObjLaws obj}.

(** The operations one after the other, each with the memory that is there; an
    operation that runs out of memory is the last one. *)
Fixpoint set_run (ops : list (@memory obj * @set_op obj)) : M (list (@mp_set_t obj)) (list set_out) :=
  match ops with
  | [] => ret []
  | (mem, op) :: ops =>
      r <- set_exec mem op ;;
      match r with
      | ORaised MemoryError => ret [r]
      | _ => rs <- set_run ops ;; ret (r :: rs)
      end
  end.

Fixpoint set_spec_run (ops : list (@memory obj * @set_op obj)) (A : list (obj -> bool)) (rs : list set_out) (h' : list (@mp_set_t obj)) : Prop :=
  match ops, rs with
  | [], [] => rep h' A
  | (_, op) :: ops, r :: rs =>
      (r = ORaised MemoryError /\ allocates op = true /\ rs = []) \/ (exists A', set_spec op A r A' /\ set_spec_run ops A' rs h')
  | _, _ => False
  end.

(** The program uses the sets that it has made; [n] of them are there. *)
Fixpoint well_named (ops : list (@memory obj * @set_op obj)) (n : nat) : Prop :=
  match ops with
  | [] => True
  | (_, op) :: ops => names op n /\ well_named ops (n + (if creates op then 1 else 0))%nat
  end.

Definition memory_fits (mem : @memory obj) : Prop := forall h, fits_set (can_table mem h).

Lemma spec_no_memory_error op A A' : ~ set_spec op A (ORaised MemoryError) A'.
Proof.
  destruct op; simpl; unfold gives, becomes, answers; try (by intros [? _]); try (by intros (_ & t & ? & _)).
  - destruct arg; by intros [? _].
  - destruct (at_ A i x); by intros [? _].
  - intros [(x & _ & ? & _)|(_ & ? & _)]; done.
  - destruct update; by intros [? _].
  - destruct update; by intros [? _].
  - destruct update; by intros [? _].
  - by intros [_ ?].
  - destruct rhs; [by intros [_ ?]|]. destruct op; try (by intros [? _]); by intros (_ & t & ? & _).
Qed.

Lemma set_run_ok ops : Forall (fun x => memory_fits (fst x)) ops -> forall A h, rep h A -> well_named ops (length A) ->
  wp (set_run ops) (fun rs h' => set_spec_run ops A rs h') h.
Proof using Laws.
  induction 1 as [|[mem op] ops Hm _ IH]; intros A h R Hw; simpl; [by apply wp_ret|]. destruct Hw as [Hn Hw].
  apply wp_bind. eapply wp_mono; [by apply (set_exec_ok mem Hm op A h)|]. intros r h1 [(A1 & HS & R1)|[-> Ha]]; [|apply wp_ret; by left].
  rewrite <- (spec_length op A r A1 HS) in Hw.
  assert (Hgo : wp (rs <- set_run ops ;; ret (r :: rs)) (fun rs h' => set_spec_run ((mem, op) :: ops) A rs h') h1).
  { apply wp_bind. eapply wp_mono; [by apply (IH A1)|]. intros rs h2 H2. apply wp_ret. right. by exists A1. }
  destruct r as [| | | | | |[]]; try done. by destruct (spec_no_memory_error op A A1).
Qed.


(** C33: A [MemoryError] breaks a set.  When the table of a set is full and a new element
    needs a larger one that is not available, [mp_set_rehash] has already changed
    [alloc] and [used]: the elements are still in the table, but [len] is 0, and the
    table is taken to be larger than it is, so that a later lookup whose hash value
    gives a slot after its end reads memory that does not belong to it. *)
Theorem set_rehash_exception (avail : Z -> bool) (s : @mp_set_t obj) index kind :
  fits_set avail -> sinv s -> s_used s = s_alloc s -> absent (s_table s) index -> adds kind = true ->
  avail (get_hash_alloc_greater_or_equal_to (s_alloc s + 1)) = false ->
  exists s', mp_set_lookup avail index kind s = Some (inr MemoryError, s') /\
    s_table s' = s_table s /\ s_used s' = 0 /\ Z.of_nat (length (s_table s')) < s_alloc s' /\
    forall avail' index' kind', Z.of_nat (length (s_table s')) <= hash_of index' mod s_alloc s' ->
      mp_set_lookup avail' index' kind' s' = None.
Proof using Laws.
  intros Hf I Hfull Habs Ek Hav. pose proof (si_len _ I) as Hlen. pose proof (si_small _ I).
  pose proof (get_hash_alloc_ge (s_alloc s + 1) ltac:(lia)) as HN.
  assert (Hw : wp (mp_set_lookup avail index kind) (fun r s' => r = inr MemoryError /\ s' = broken s) s).
  { apply (wp_mp_set_lookup avail Hf s index kind); [done|..]; try done.
    - intros a Hh E. by rewrite (proj1 (absent_has s index) Habs a Hh) in E.
    - intros a s' Hh E. by rewrite (proj1 (absent_has s index) Habs a Hh) in E.
    - congruence.
    - intros s' _ _ _ Hr. by rewrite (Hr Hfull) in Hav. }
  apply wp_run in Hw as (r & s' & E & -> & ->). exists (broken s). split; [done|]. split; [done|]. split; [done|]. split; [simpl; lia|].
  intros avail' index' kind' Hh. simpl in Hh. unfold mp_set_lookup. cbn [set_lookup]. unfold bind at 1, gets at 1. cbn [s_alloc broken].
  destruct (Z.eqb_spec (get_hash_alloc_greater_or_equal_to (s_alloc s + 1)) 0) as [|_]; [lia|]. unfold bind, gets, ret. cbn [andb s_alloc broken].
  rewrite set_hash. destruct (set_probe_fuel (broken s)) as [|fuel] eqn:Ef.
  { unfold set_probe_fuel in Ef. simpl in Ef. pose proof (get_hash_alloc_nonneg (get_hash_alloc_greater_or_equal_to (s_alloc s + 1) + 1)). lia. }
  cbn [loop]. unfold set_probe, bind, elem_at, getso. cbn [s_table broken].
  rewrite (lookup_ge_None_2 (s_table s)) by lia. done.
Qed.

(** [s.symmetric_difference_update(l)] with a list that has an element twice takes it
    for two changes: the set is as before, while the symmetric difference with the
    elements of the list has the element exactly if the set had not. *)
Theorem set_symdiff_repeated (mem : @memory obj) h A i x :
  memory_fits mem -> rep h A -> (i < length A)%nat ->
  exists r h', set_symmetric_difference_update mem i (Items [x; x]) h = Some (r, h') /\ (r = inl tt /\ rep h' A \/ r = inr MemoryError).
Proof using Laws.
  intros Hm R Hi. apply wp_run. eapply wp_mono; [by apply (symdiff_ok mem Hm h A i (at_ A i) (Items [x; x]) R (at_lookup A i Hi))|].
  intros r h' [[-> R']| ->]; [left|by right]. split; [done|]. rewrite <- (list_insert_id A i _ (at_lookup A i Hi)).
  eapply rep_ext_at; [exact R'|]. intros y. simpl. by destruct (at_ A i y), (mp_obj_equal x y).
Qed.
End Runs.

(** * Instances *)

Import Objects.

Definition plenty : @memory object := Memory (fun _ => true) (fun _ n => n <? 1000).

Lemma plenty_fits : memory_fits plenty.
Proof. intros h n. simpl. rewrite Z.ltb_lt. lia. Qed.

Definition demo_program : list (@memory object * @set_op object) :=
  (fun op => (plenty, op)) <$>
  [SNew [Int 1; Int 2; Int 3; Qstr 5]; SNew [Int 3; Str 5 0; Int 9]; SBinary AND 0 (OfSet 1); SBinary LESS 2 (OfSet 0);
   SBinary INPLACE_XOR 0 (OfSet 1); SLen 0; SBinary INPLACE_XOR 0 (OfSet 0); SBool 0; SUpdate 1 [Items [Int 7; Int 7]; OfSet 1];
   SIsSubset 2 (Items [Str 5 1; Int 3]); SRemove 1 (Int 4); SLen 1].


(** A set with a full table. *)
Definition full_set : @mp_set_t object := MkSet 2 2 [Obj (Int 0); Obj (Int 1)].

Lemma full_set_inv : sinv full_set.
Proof.
  split; simpl; [done|lia|done|]. split.
  - intros [|[|[|p]]] [|[|[|q]]] a b; simpl; try done; intros [= <-] [= <-]; done.
  - intros [|[|[|p]]] a; simpl; try done; intros [= <-]; exists 0; (split; [lia|split; [done|intros j Hj; lia]]).
Qed.

Lemma set_rehash_exception_witness :
  exists s', mp_set_lookup (fun n => n <? 4) (Int 2) MP_MAP_LOOKUP_ADD_IF_NOT_FOUND full_set = Some (inr MemoryError, s') /\
    s_used s' = 0 /\ mp_set_lookup (fun n => n <? 4) (Int 3) MP_MAP_LOOKUP s' = None.
Proof.
  destruct (set_rehash_exception (fun n => n <? 4) full_set (Int 2) MP_MAP_LOOKUP_ADD_IF_NOT_FOUND) as (s' & E & Et & Eu & Hl & Hn).
  - intros n. rewrite Z.ltb_lt. lia.
  - apply full_set_inv.
  - reflexivity.
  - intros [|[|[|p]]] a; simpl; try done; intros [= <-]; done.
  - reflexivity.
  - reflexivity.
  - exists s'. split; [exact E|]. split; [exact Eu|]. apply Hn. vm_compute in E. injection E as <-. vm_compute. discriminate.
Defined.

Lemma set_symdiff_repeated_witness :
  exists h', set_symmetric_difference_update plenty 0 (Items [Int 7; Int 7]) [full_set] = Some (inl tt, h') /\
    rep h' [mem_list [Int 0; Int 1]] /\ mem_list [Int 0; Int 1] (Int 7) = false.
Proof.
  destruct (set_symdiff_repeated plenty [full_set] [mem_list (items full_set)] 0 (Int 7)) as (r & h' & E & Hr).
  - apply plenty_fits.
  - constructor; [apply sholds_items, full_set_inv|constructor].
  - simpl. lia.
  - exists h'. assert (r = inl tt) as -> by (vm_compute in E; by injection E).
    destruct Hr as [[_ R]|Hr]; [|discriminate]. split; [exact E|]. split; [exact R|reflexivity].
Defined.
