(* ===== verification/Qstr.v ===== *)
(** Qstr: the interned strings of the Python interpreter (py/qstr.c).  The data of a
    string - two bytes of hash value, its length, its bytes and a zero byte - is
    in memory; the pools hold the addresses, and a qstr is a number that counts
    through the pools. *)

From stdpp Require Import options.
From S2P Require Import Prelude.

#[local] Ltac Zify.zify_post_hook ::= Z.to_euclidean_division_equations.

Definition MICROPY_QSTR_BYTES_IN_HASH : Z := 2.
Definition MICROPY_QSTR_BYTES_IN_LEN : Z := 1.
Definition MICROPY_ALLOC_QSTR_ENTRIES_INIT : Z := 10.
Definition MICROPY_ALLOC_QSTR_CHUNK_INIT : Z := 128.
Definition Q_HASH_MASK : Z := 65535.

(** * Data *)

Record qstr_pool_t := Pool { total_prev_len : Z; pool_alloc : Z; pool_len : Z; qstrs : list ptr }.

(** [pools]: [last_pool] and the pools before it, linked by [prev].  [mem]: the
    bytes that are in use. *)
Record qstate := QState {
  mem : gmap Z Z;
  pools : list qstr_pool_t;
  qstr_last_chunk : ptr;
  qstr_last_alloc : Z;
  qstr_last_used : Z
}.

Abbreviation QM := (M qstate).

Inductive qerror := MemoryError | RuntimeError.

Definition set_mem (f : gmap Z Z -> gmap Z Z) (s : qstate) : qstate :=
  QState (f (mem s)) (pools s) (qstr_last_chunk s) (qstr_last_alloc s) (qstr_last_used s).
Definition set_pools (f : list qstr_pool_t -> list qstr_pool_t) (s : qstate) : qstate :=
  QState (mem s) (f (pools s)) (qstr_last_chunk s) (qstr_last_alloc s) (qstr_last_used s).
Definition set_chunk (p n u : Z) (s : qstate) : qstate := QState (mem s) (pools s) p n u.

(** A byte that is not in use is undefined. *)
Definition rdb (a : ptr) : QM Z := getso (fun s => mem s !! a).
Definition wrb (a : ptr) (v : Z) : QM unit := rdb a ;; modify (set_mem (<[a := u8 v]>)).

(** The bytes of [memcpy]. *)
Fixpoint wr_bytes (a : ptr) (l : list Z) : QM unit :=
  match l with [] => ret tt | b :: l => wrb a b ;; wr_bytes (a + 1) l end.

Definition Q_GET_HASH (q : ptr) : QM Z := a <- rdb q ;; b <- rdb (q + 1) ;; ret (Z.lor a (Z.shiftl b 8)).
Definition Q_SET_HASH (q : ptr) (hash : Z) : QM unit := wrb q hash ;; wrb (q + 1) (Z.shiftr hash 8).
Definition Q_GET_LENGTH (q : ptr) : QM Z := rdb (q + MICROPY_QSTR_BYTES_IN_HASH).
Definition Q_SET_LENGTH (q : ptr) (len : Z) : QM unit := wrb (q + MICROPY_QSTR_BYTES_IN_HASH) len.
Definition Q_GET_DATA (q : ptr) : ptr := q + MICROPY_QSTR_BYTES_IN_HASH + MICROPY_QSTR_BYTES_IN_LEN.

(** * Allocation *)

(** The memory that is there: [m_new_maybe] gives the address of new memory,
    [m_renew_maybe] without moving succeeds or not, and [m_new_obj_var_maybe] gives a
    new pool or not. *)
Record allocator := Allocator {
  m_new_maybe : qstate -> Z -> option ptr;
  m_renew_maybe : qstate -> ptr -> Z -> Z -> bool;
  new_pool_maybe : qstate -> Z -> bool
}.

(** [n] bytes from [a] on come into use, or go out of use. *)
Definition alter_range (o : option Z) (a n : Z) (m : gmap Z Z) : gmap Z Z :=
  foldr (fun i => partial_alter (fun _ => o) (a + i)) m (seqZ 0 n).
Definition claim : Z -> Z -> gmap Z Z -> gmap Z Z := alter_range (Some 0).
Definition release : Z -> Z -> gmap Z Z -> gmap Z Z := alter_range None.

Section Operations.
Variable al : allocator.

Definition qstr_compute_hash (data : list Z) : Z :=
  let hash := Z.land (fold_left (fun hash b => Z.lxor (u32 (u32 (Z.shiftl hash 5) + hash)) b) data 5381) Q_HASH_MASK in
  if hash =? 0 then hash + 1 else hash.

(** The constant pool. *)
Definition qstr_init (const_pool : qstr_pool_t) : QM unit :=
  modify (fun s => QState (mem s) [const_pool] NULL (qstr_last_alloc s) (qstr_last_used s)).

(** [pool->qstrs[i]]. *)
Definition qstr_at (pool : qstr_pool_t) (i : Z) : QM ptr := getso (fun _ => qstrs pool !! Z.to_nat i).

Fixpoint find_in (q : Z) (l : list qstr_pool_t) : QM ptr :=
  match l with
  | [] => undef
  | pool :: l => if q <? total_prev_len pool then find_in q l else qstr_at pool (q - total_prev_len pool)
  end.

Definition find_qstr (q : Z) : QM ptr := l <- gets pools ;; find_in q l.

Definition last_pool : QM qstr_pool_t := getso (fun s => head (pools s)).

Definition qstr_add (q_ptr : ptr) : QM (Z + qerror) :=
  pool <- last_pool ;;
  _ <-? (if pool_alloc pool <=? pool_len pool then
           let new_alloc := u32 (pool_alloc pool * 2) in
           s <- gets (fun s => s) ;;
           if new_pool_maybe al s new_alloc then
             modify (set_pools (cons (Pool (u32 (total_prev_len pool + pool_len pool)) new_alloc 0 (replicate (Z.to_nat new_alloc) NULL)))) ;;
             ret (inl tt)
           else ret (inr MemoryError)
         else ret (inl tt)) ;;
  pool <- last_pool ;;
  qstr_at pool (pool_len pool) ;;
  modify (set_pools (fun l =>
    match l with
    | p :: l => Pool (total_prev_len p) (pool_alloc p) (pool_len p + 1) (<[Z.to_nat (pool_len p) := q_ptr]> (qstrs p)) :: l
    | [] => []
    end)) ;;
  pool <- last_pool ;;
  ret (inl (u32 (total_prev_len pool + pool_len pool - 1))).

(** [memcmp(a, str, len) == 0]. *)
Fixpoint same_bytes (a : ptr) (str : list Z) : QM bool :=
  match str with
  | [] => ret true
  | b :: str => c <- rdb a ;; if c =? b then same_bytes (a + 1) str else ret false
  end.

Definition matches (q : ptr) (str_hash : Z) (str : list Z) : QM bool :=
  h <- Q_GET_HASH q ;;
  if h =? str_hash then
    n <- Q_GET_LENGTH q ;;
    if n =? Z.of_nat (length str) then same_bytes (Q_GET_DATA q) str else ret false
  else ret false.

(** The search in one pool: [n] strings from number [i] on. *)
Fixpoint search_pool (pool : qstr_pool_t) (str_hash : Z) (str : list Z) (n : nat) (i : Z) : QM (option Z) :=
  match n with
  | O => ret None
  | S n =>
      q <- qstr_at pool i ;;
      b <- matches q str_hash str ;;
      if b : bool then ret (Some i) else search_pool pool str_hash str n (i + 1)
  end.

Fixpoint search_pools (str_hash : Z) (str : list Z) (l : list qstr_pool_t) : QM Z :=
  match l with
  | [] => ret 0
  | pool :: l =>
      r <- search_pool pool str_hash str (Z.to_nat (pool_len pool)) 0 ;;
      match r with
      | Some i => ret (u32 (total_prev_len pool + i))
      | None => search_pools str_hash str l
      end
  end.

Definition qstr_find_strn (str : list Z) : QM Z :=
  l <- gets pools ;; search_pools (qstr_compute_hash str) str l.

(** Makes room for [n_bytes] in the chunk: an existing chunk is grown, or given up. *)
Definition grow_chunk (n_bytes : Z) : QM unit :=
  s <- gets (fun s => s) ;;
  let p := qstr_last_chunk s in let n := qstr_last_alloc s in let u := qstr_last_used s in
  when (negb (p =? NULL) && (n <? u32 (u + n_bytes)))
    (if m_renew_maybe al s p n (u32 (n + n_bytes)) then
       modify (set_mem (claim (p + n) n_bytes)) ;; modify (set_chunk p (u32 (n + n_bytes)) u)
     else
       modify (set_mem (release (p + u) (n - u))) ;; modify (set_chunk NULL n u)).

Definition new_chunk (n_bytes : Z) : QM (unit + qerror) :=
  s <- gets (fun s => s) ;;
  if negb (qstr_last_chunk s =? NULL) then ret (inl tt)
  else
    let take (p n : Z) := modify (set_mem (claim p n)) ;; modify (set_chunk p n 0) ;; ret (inl tt) in
    let n := Z.max n_bytes MICROPY_ALLOC_QSTR_CHUNK_INIT in
    match m_new_maybe al s n with
    | Some p => take p n
    | None =>
        match m_new_maybe al s n_bytes with
        | Some p => take p n_bytes
        | None => ret (inr MemoryError)
        end
    end.

Definition qstr_from_strn (str : list Z) : QM (Z + qerror) :=
  let len := Z.of_nat (length str) in
  q <- qstr_find_strn str ;;
  if q =? 0 then
    if 2 ^ (8 * MICROPY_QSTR_BYTES_IN_LEN) <=? len then ret (inr RuntimeError)
    else
      let n_bytes := MICROPY_QSTR_BYTES_IN_HASH + MICROPY_QSTR_BYTES_IN_LEN + len + 1 in
      grow_chunk n_bytes ;;
      _ <-? new_chunk n_bytes ;;
      s <- gets (fun s => s) ;;
      let q_ptr := qstr_last_chunk s + qstr_last_used s in
      modify (set_chunk (qstr_last_chunk s) (qstr_last_alloc s) (u32 (qstr_last_used s + n_bytes))) ;;
      let hash := qstr_compute_hash str in
      Q_SET_HASH q_ptr hash ;;
      Q_SET_LENGTH q_ptr len ;;
      wr_bytes (q_ptr + MICROPY_QSTR_BYTES_IN_HASH + MICROPY_QSTR_BYTES_IN_LEN) str ;;
      wrb (q_ptr + MICROPY_QSTR_BYTES_IN_HASH + MICROPY_QSTR_BYTES_IN_LEN + len) 0 ;;
      qstr_add q_ptr
  else ret (inl q).

(** The bytes before the first zero byte ([strlen]). *)
Fixpoint c_string (l : list Z) : list Z :=
  match l with [] => [] | b :: l => if b =? 0 then [] else b :: c_string l end.

Definition qstr_from_str (str : list Z) : QM (Z + qerror) := qstr_from_strn (c_string str).

Definition qstr_str (q : Z) : QM ptr := qd <- find_qstr q ;; ret (Q_GET_DATA qd).

Definition qstr_hash (q : Z) : QM Z := qd <- find_qstr q ;; Q_GET_HASH qd.
Definition qstr_len (q : Z) : QM Z := qd <- find_qstr q ;; Q_GET_LENGTH qd.

Fixpoint rd_bytes (a : ptr) (n : nat) : QM (list Z) :=
  match n with O => ret [] | S n => b <- rdb a ;; l <- rd_bytes (a + 1) n ;; ret (b :: l) end.

(** The bytes that the result of [qstr_data] points to. *)
Definition qstr_data (q : Z) : QM (list Z) :=
  qd <- find_qstr q ;; len <- Q_GET_LENGTH qd ;; rd_bytes (Q_GET_DATA qd) (Z.to_nat len).
End Operations.

(** * Bytes in memory *)

Lemma alter_range_lookup o a n m x : alter_range o a n m !! x = if (a <=? x) && (x <? a + n) then o else m !! x.
Proof.
  unfold alter_range.
  assert (Hgo : forall l, foldr (fun i => partial_alter (fun _ => o) (a + i)) m l !! x = if decide (x - a ∈ l) then o else m !! x).
  { induction l as [|i l IH]; simpl; [done|]. destruct (decide (a + i = x)) as [<-|Hne].
    - rewrite lookup_partial_alter_eq, decide_True; [done|]. rewrite elem_of_cons. left. lia.
    - rewrite lookup_partial_alter_ne, IH by done. apply decide_ext. rewrite elem_of_cons. split; [by right|]. intros [?|?]; [lia|done]. }
  rewrite Hgo. destruct (decide _) as [Hin%elem_of_seqZ|Hin]; [by rewrite (proj2 (Z.leb_le a x)), (proj2 (Z.ltb_lt x (a + n))) by lia|].
  destruct (Z.leb_spec a x), (Z.ltb_spec x (a + n)); try done. destruct Hin. apply elem_of_seqZ. lia.
Qed.

(** The bytes of the list are at [a]. *)
Fixpoint bytes_at (m : gmap Z Z) (a : ptr) (l : list Z) : Prop :=
  match l with [] => True | b :: l => m !! a = Some b /\ bytes_at m (a + 1) l end.

Definition is_byte (b : Z) : Prop := 0 <= b < 256.

Lemma bytes_at_frame m m' a l : bytes_at m a l -> (forall x, a <= x < a + Z.of_nat (length l) -> m' !! x = m !! x) -> bytes_at m' a l.
Proof.
  revert a. induction l as [|b l IH]; intros a; [done|]. cbn [bytes_at length]. intros [H1 H2] Hf. split; [rewrite Hf; [done|lia]|].
  apply IH; [done|]. intros x Hx. apply Hf. lia.
Qed.

Lemma bytes_at_app m a l k : bytes_at m a (l ++ k) <-> bytes_at m a l /\ bytes_at m (a + Z.of_nat (length l)) k.
Proof.
  revert a. induction l as [|b l IH]; intros a; cbn [app bytes_at length]; [rewrite Z.add_0_r; tauto|]. rewrite IH.
  replace (a + 1 + Z.of_nat (length l)) with (a + Z.of_nat (S (length l))) by lia. tauto.
Qed.

(** The hash value is two bytes and is never 0. *)
Lemma compute_hash_range str : 0 < qstr_compute_hash str < 65536.
Proof.
  unfold qstr_compute_hash. set (h := Z.land _ _). assert (Hh : 0 <= h < 65536).
  { unfold h, Q_HASH_MASK. change 65535 with (Z.ones 16). rewrite Z.land_ones by lia. apply Z.mod_pos_bound. lia. }
  destruct (Z.eqb_spec h 0); lia.
Qed.

Lemma lor_bytes a b : is_byte a -> is_byte b -> Z.lor a (Z.shiftl b 8) = a + 256 * b.
Proof.
  unfold is_byte. intros Ha Hb. assert (Hl : Z.land a (Z.shiftl b 8) = 0).
  { apply Z.bits_inj'. intros n Hn. rewrite Z.land_spec, Z.bits_0. destruct (decide (n < 8)) as [Hl|Hl].
    - rewrite Z.shiftl_spec_low by lia. by rewrite andb_false_r.
    - assert (2 ^ 8 <= 2 ^ n) by (apply Z.pow_le_mono_r; lia).
      replace (Z.testbit a n) with false; [done|]. symmetry. apply Z.testbit_false; [lia|]. by rewrite Z.div_small by lia. }
  rewrite <- Z.lxor_lor, <- Z.add_nocarry_lxor by done. rewrite Z.shiftl_mul_pow2 by lia. lia.
Qed.

(** ** Stored strings *)

(** What is in memory for a string. *)
Definition encoding (hash : Z) (str : list Z) : list Z := [hash mod 256; hash / 256; Z.of_nat (length str)] ++ str ++ [0].

Definition stored (m : gmap Z Z) (q : ptr) (hash : Z) (str : list Z) : Prop := bytes_at m q (encoding hash str).

Lemma length_encoding hash str : Z.of_nat (length (encoding hash str)) = Z.of_nat (length str) + 4.
Proof. unfold encoding. rewrite !length_app. simpl. lia. Qed.

Section Reading.
Implicit Types (s : qstate).

Lemma wp_rdb s a v (Q : Z -> qstate -> Prop) : mem s !! a = Some v -> Q v s -> wp (rdb a) Q s.
Proof. intros Hv HQ. by apply (wp_getso _ v). Qed.

Lemma wp_get_hash s q hash str (Q : Z -> qstate -> Prop) : stored (mem s) q hash str -> 0 <= hash < 65536 -> Q hash s -> wp (Q_GET_HASH q) Q s.
Proof.
  intros (H1 & H2 & _) Hh HQ. apply wp_bind, (wp_rdb s q (hash mod 256)); [done|]. apply wp_bind, (wp_rdb s (q + 1) (hash / 256)); [done|].
  apply wp_ret. rewrite lor_bytes by (unfold is_byte; lia). by replace (hash mod 256 + 256 * (hash / 256)) with hash by lia.
Qed.

Lemma wp_get_length s q hash str (Q : Z -> qstate -> Prop) : stored (mem s) q hash str -> Q (Z.of_nat (length str)) s -> wp (Q_GET_LENGTH q) Q s.
Proof.
  intros (_ & _ & H3 & _) HQ. apply (wp_rdb s _ (Z.of_nat (length str))); [|done]. unfold MICROPY_QSTR_BYTES_IN_HASH.
  by replace (q + 2) with (q + 1 + 1) by lia.
Qed.

Lemma stored_data m q hash str : stored m q hash str -> bytes_at m (Q_GET_DATA q) str.
Proof.
  unfold stored, encoding. rewrite bytes_at_app, bytes_at_app. intros (_ & H & _). unfold Q_GET_DATA, MICROPY_QSTR_BYTES_IN_HASH, MICROPY_QSTR_BYTES_IN_LEN.
  by replace (q + 2 + 1) with (q + Z.of_nat (length [hash mod 256; hash / 256; Z.of_nat (length str)])) by (simpl; lia).
Qed.

Lemma wp_same_bytes s str' : forall str a (Q : bool -> qstate -> Prop), bytes_at (mem s) a str' -> length str = length str' ->
  Q (bool_decide (str' = str)) s -> wp (same_bytes a str) Q s.
Proof.
  induction str' as [|b str' IH]; intros [|c str] a Q Hb Hl HQ; try done; simpl in *. destruct Hb as [Hb1 Hb2].
  apply wp_bind, (wp_rdb s a b); [done|]. destruct (Z.eqb_spec b c) as [->|Hne].
  - apply IH; [done|lia|]. by rewrite (bool_decide_ext _ (c :: str' = c :: str)) by (split; congruence).
  - apply wp_ret. by rewrite bool_decide_false in HQ by congruence.
Qed.

Lemma wp_rd_bytes s str : forall a (Q : list Z -> qstate -> Prop), bytes_at (mem s) a str -> Q str s -> wp (rd_bytes a (length str)) Q s.
Proof.
  induction str as [|b str IH]; intros a Q Hb HQ; simpl in *; [by apply wp_ret|]. destruct Hb as [Hb1 Hb2].
  apply wp_bind, (wp_rdb s a b); [done|]. apply wp_bind, IH; [done|]. by apply wp_ret.
Qed.

Lemma wp_matches s q hash str' str_hash str (Q : bool -> qstate -> Prop) : stored (mem s) q hash str' -> 0 <= hash < 65536 ->
  Q (bool_decide (hash = str_hash /\ str' = str)) s -> wp (matches q str_hash str) Q s.
Proof.
  intros Hs Hh HQ. apply wp_bind, (wp_get_hash s q hash str'); [done|done|]. destruct (Z.eqb_spec hash str_hash) as [->|Hne].
  - apply wp_bind, (wp_get_length s q str_hash str'); [done|]. destruct (Z.eqb_spec (Z.of_nat (length str')) (Z.of_nat (length str))) as [Hl|Hl].
    + apply (wp_same_bytes s str'); [by eapply stored_data|lia|]. by rewrite (bool_decide_ext _ (str_hash = str_hash /\ str' = str)) by tauto.
    + apply wp_ret. rewrite bool_decide_false in HQ; [done|]. intros [_ ->]. done.
  - apply wp_ret. rewrite bool_decide_false in HQ; [done|]. tauto.
Qed.
End Reading.

(** * The table of strings *)

(** The addresses of the strings, in the order of their numbers. *)
Fixpoint ptrs (l : list qstr_pool_t) : list ptr :=
  match l with [] => [] | p :: l => ptrs l ++ take (Z.to_nat (pool_len p)) (qstrs p) end.

Fixpoint pools_wf (l : list qstr_pool_t) : Prop :=
  match l with
  | [] => True
  | p :: l => total_prev_len p = Z.of_nat (length (ptrs l)) /\ 0 <= pool_len p <= Z.of_nat (length (qstrs p)) /\ pools_wf l
  end.

(** Number 0 stands for no string; the others have the strings of [T]. *)
Definition entries (T : list (list Z)) : list (Z * list Z) := (0, []) :: ((fun str => (qstr_compute_hash str, str)) <$> T).

Definition in_chunk (s : qstate) (x : ptr) : Prop :=
  qstr_last_chunk s <> NULL /\ qstr_last_chunk s + qstr_last_used s <= x < qstr_last_chunk s + qstr_last_alloc s.

Record qrep (s : qstate) (T : list (list Z)) : Prop := {
  q_pools : pools_wf (pools s);
  q_last : exists p l, pools s = p :: l /\ 0 < pool_alloc p /\ pool_alloc p < 2 ^ 29 /\ 
    (pool_len p < pool_alloc p -> pool_alloc p <= Z.of_nat (length (qstrs p)) /\ total_prev_len p + pool_alloc p < 2 ^ 29);
  q_few : Z.of_nat (length (ptrs (pools s))) < 2 ^ 29;
  q_stored : Forall2 (fun q e => stored (mem s) q (fst e) (snd e)) (ptrs (pools s)) (entries T);
  q_apart : Forall2 (fun q e => forall x, q <= x < q + Z.of_nat (length (snd e)) + 4 -> ~ in_chunk s x) (ptrs (pools s)) (entries T);
  q_bytes : Forall (fun str => Forall is_byte str /\ (length str < 256)%nat) T;
  q_nodup : NoDup T;
  q_chunk : qstr_last_chunk s <> NULL -> 0 < qstr_last_chunk s /\ 0 <= qstr_last_used s <= qstr_last_alloc s /\
    qstr_last_chunk s + qstr_last_alloc s < 2 ^ 31 /\ forall x, in_chunk s x -> is_Some (mem s !! x)
}.

Lemma entries_hash T : Forall (fun e => 0 <= fst e < 65536) (entries T).
Proof.
  constructor; [simpl; lia|]. apply Forall_fmap, Forall_true. intros str. simpl. pose proof (compute_hash_range str). lia.
Qed.

(** The entry that matches a string is the string's own. *)
Lemma entries_match T str e i : entries T !! i = Some e -> fst e = qstr_compute_hash str /\ snd e = str <-> exists k, i = S k /\ T !! k = Some str.
Proof.
  pose proof (compute_hash_range str). destruct i as [|k]; simpl.
  - intros [= <-]. simpl. split; [lia|]. by intros (k & [=] & _).
  - rewrite list_lookup_fmap. intros (str' & Hk & ->)%fmap_Some. simpl. split.
    + intros [_ ->]. by exists k.
    + intros (j & [= ->] & Hj). assert (str' = str) as -> by congruence. done.
Qed.

Section Search.
Context (s : qstate) (T : list (list Z)) (R : qrep s T) (str : list Z).

(** What the search has to find among the numbers below [n]. *)
Definition answer (n : nat) (q : Z) : Prop :=
  (q = 0 /\ forall k, (S k < n)%nat -> T !! k <> Some str) \/ (exists k, q = Z.of_nat (S k) /\ (S k < n)%nat /\ T !! k = Some str).

Lemma ptrs_entry i q : ptrs (pools s) !! i = Some q -> exists e, entries T !! i = Some e /\ stored (mem s) q (fst e) (snd e) /\ 0 <= fst e < 65536.
Proof using R.
  intros Hq. destruct (Forall2_lookup_l _ _ _ _ _ (q_stored _ _ R) Hq) as (e & He & Hs). exists e. split; [done|]. split; [done|].
  by apply (proj1 (Forall_lookup _ _) (entries_hash T) i).
Qed.

Lemma wp_search_pool p b n i (Q : option Z -> qstate -> Prop) :
  (forall j, (j < n)%nat -> exists q, qstrs p !! (Z.to_nat i + j)%nat = Some q /\ ptrs (pools s) !! (b + Z.to_nat i + j)%nat = Some q) -> 0 <= i ->
  (forall j, (j < n)%nat -> (exists k, (b + Z.to_nat i + j = S k)%nat /\ T !! k = Some str) -> Q (Some (i + Z.of_nat j)) s) ->
  ((forall j, (j < n)%nat -> ~ exists k, (b + Z.to_nat i + j = S k)%nat /\ T !! k = Some str) -> Q None s) ->
  wp (search_pool p (qstr_compute_hash str) str n i) Q s.
Proof using R.
  revert i. induction n as [|n IH]; intros i Hp Hi HF HN; simpl; [apply wp_ret, HN; lia|].
  destruct (Hp 0%nat ltac:(lia)) as (q & Hq1 & Hq2). rewrite Nat.add_0_r in Hq1, Hq2.
  destruct (ptrs_entry _ q Hq2) as (e & He & Hs & Hh).
  apply wp_bind, (wp_getso _ q); [done|]. apply wp_bind, (wp_matches s q (fst e) (snd e)); [done|done|].
  pose proof (entries_match T str e _ He) as Hm. case_bool_decide as Hd.
  - apply wp_ret. replace i with (i + Z.of_nat 0) by lia. apply HF; [lia|]. rewrite Nat.add_0_r. by apply Hm.
  - assert (Hne : forall j, (b + Z.to_nat (i + 1) + j = b + Z.to_nat i + S j)%nat) by lia. apply IH; [|lia| |].
    + intros j Hj. destruct (Hp (S j) ltac:(lia)) as (q' & H1 & H2). exists q'. rewrite Hne. split; [|done].
      by replace (Z.to_nat (i + 1) + j)%nat with (Z.to_nat i + S j)%nat by lia.
    + intros j Hj. rewrite Hne. replace (i + 1 + Z.of_nat j) with (i + Z.of_nat (S j)) by lia. apply HF. lia.
    + intros Hno. apply HN. intros [|j] Hj; [rewrite Nat.add_0_r, <- Hm; done|]. rewrite <- Hne. apply Hno. lia.
Qed.

Lemma ptrs_suffix p l l0 : pools s = l0 ++ p :: l -> forall j, (j < Z.to_nat (pool_len p))%nat -> pools_wf (p :: l) ->
  exists q, qstrs p !! j = Some q /\ ptrs (pools s) !! (length (ptrs l) + j)%nat = Some q.
Proof.
  intros E j Hj (_ & Hl & _). destruct (lookup_lt_is_Some_2 (qstrs p) j) as [q Hq]; [lia|]. exists q. split; [done|]. rewrite E. clear E.
  assert (Hpl : ptrs (p :: l) !! (length (ptrs l) + j)%nat = Some q).
  { simpl. rewrite lookup_app_r by lia. replace (length (ptrs l) + j - length (ptrs l))%nat with j by lia. by rewrite lookup_take_lt. }
  induction l0 as [|p0 l0 IH]; simpl; [done|]. by apply lookup_app_l_Some.
Qed.

Lemma pools_wf_suffix l0 l : pools_wf (l0 ++ l) -> pools_wf l.
Proof. induction l0 as [|p l0 IH]; [done|]. intros (_ & _ & H). by apply IH. Qed.

Lemma ptrs_length_suffix l0 l : (length (ptrs l) <= length (ptrs (l0 ++ l)))%nat.
Proof. induction l0 as [|p l0 IH]; simpl; [done|]. rewrite length_app. lia. Qed.

Lemma wp_search_pools l : forall l0 (Q : Z -> qstate -> Prop), pools s = l0 ++ l ->
  (forall q, answer (length (ptrs l)) q -> Q q s) -> wp (search_pools (qstr_compute_hash str) str l) Q s.
Proof using R.
  induction l as [|p l IH]; intros l0 Q E HQ; simpl.
  { apply wp_ret, HQ. left. split; [done|]. simpl. lia. }
  pose proof (pools_wf_suffix l0 (p :: l) ltac:(rewrite <- E; apply R)) as W. pose proof W as (Ht & Hl & W').
  assert (Hlen : length (ptrs (p :: l)) = (length (ptrs l) + Z.to_nat (pool_len p))%nat) by (simpl; rewrite length_app, length_take; lia).
  pose proof (ptrs_length_suffix l0 (p :: l)) as Hle. rewrite <- E in Hle. pose proof (q_few _ _ R) as Hfew.
  apply wp_bind, (wp_search_pool p (length (ptrs l))); [|lia| |].
  - intros j Hj. rewrite !Nat.add_0_r. simpl. by apply (ptrs_suffix p l l0).
  - intros j Hj (k & Hk & HT). apply wp_ret. rewrite wrapu_small by lia. apply HQ. right. exists k. split; [lia|]. split; [lia|done].
  - intros Hno. apply (IH (l0 ++ [p])); [by rewrite <- app_assoc|]. intros q [(-> & Hq)|(k & -> & Hk & HT)]; apply HQ.
    + left. split; [done|]. intros k Hk HT. destruct (decide (S k < length (ptrs l))%nat); [by apply (Hq k)|].
      apply (Hno (S k - length (ptrs l))%nat ltac:(lia)). exists k. split; [lia|done].
    + right. exists k. split; [done|]. split; [lia|done].
Qed.

Lemma ptrs_length : length (ptrs (pools s)) = S (length T).
Proof using R. rewrite (Forall2_length _ _ _ (q_stored _ _ R)). unfold entries. simpl. by rewrite length_fmap. Qed.

(** [qstr_find_strn] finds the number of the string, or 0. *)
Lemma wp_qstr_find (Q : Z -> qstate -> Prop) :
  (forall k, T !! k = Some str -> Q (Z.of_nat (S k)) s) -> (str ∉ T -> Q 0 s) -> wp (qstr_find_strn str) Q s.
Proof using R.
  intros HF HN. apply wp_bind, wp_gets. apply (wp_search_pools (pools s) []); [done|]. rewrite ptrs_length.
  intros q [(-> & Hq)|(k & -> & _ & HT)]; [|by apply HF]. apply HN. intros [k Hk]%list_elem_of_lookup_1.
  apply (Hq k); [|done]. apply lookup_lt_Some in Hk. lia.
Qed.
End Search.

(** * Making room *)

(** What the collector promises: new memory is not in use, and memory is below
    2 GB. *)
Record allocator_ok (al : allocator) : Prop := {
  new_ok : forall s n p, m_new_maybe al s n = Some p -> 0 < p /\ p + n < 2 ^ 31 /\ forall x, p <= x < p + n -> mem s !! x = None;
  renew_ok : forall s p n n', m_renew_maybe al s p n n' = true -> p + n' < 2 ^ 31 /\ forall x, p + n <= x < p + n' -> mem s !! x = None;
  pool_ok : forall s n, new_pool_maybe al s n = true -> Z.of_nat (length (ptrs (pools s))) + n < 2 ^ 29
}.

Section Adding.
Context (al : allocator) (Hal : allocator_ok al).

Lemma stored_mem m q hash str x : stored m q hash str -> q <= x < q + Z.of_nat (length str) + 4 -> is_Some (m !! x).
Proof.
  unfold stored. intros Hs Hx. pose proof (length_encoding hash str) as Hl.
  assert (Hgo : forall l q, bytes_at m q l -> q <= x < q + Z.of_nat (length l) -> is_Some (m !! x)).
  { clear. induction l as [|b l IH]; intros q Hb Hx; simpl in *; [lia|]. destruct Hb as [H1 H2].
    destruct (decide (x = q)) as [->|]; [by eexists|]. apply (IH (q + 1)); [done|lia]. }
  apply (Hgo (encoding hash str) q); [done|lia].
Qed.

(** The strings stay where they are when only unused memory changes. *)
Lemma qrep_frame s s' T : qrep s T -> pools s' = pools s ->
  (forall x, is_Some (mem s !! x) -> ~ in_chunk s x -> mem s' !! x = mem s !! x /\ ~ in_chunk s' x) ->
  (qstr_last_chunk s' <> NULL -> 0 < qstr_last_chunk s' /\ 0 <= qstr_last_used s' <= qstr_last_alloc s' /\
    qstr_last_chunk s' + qstr_last_alloc s' < 2 ^ 31 /\ forall x, in_chunk s' x -> is_Some (mem s' !! x)) -> qrep s' T.
Proof.
  intros R Ep Hm Hc. destruct R as [R1 R2 R3 R4 R5 R6 R7 R8]. split; rewrite ?Ep; try done.
  - apply Forall2_same_length_lookup_2; [by eapply Forall2_length|]. intros i q e Hq He.
    pose proof (Forall2_lookup_lr _ _ _ _ _ _ R4 Hq He) as Hs. pose proof (Forall2_lookup_lr _ _ _ _ _ _ R5 Hq He) as Ha. cbv beta in *.
    unfold stored in *. eapply bytes_at_frame; [exact Hs|]. rewrite length_encoding. intros x Hx.
    apply Hm; [by eapply stored_mem; [exact Hs|lia]|apply Ha; lia].
  - apply Forall2_same_length_lookup_2; [by eapply Forall2_length|]. intros i q e Hq He x Hx.
    pose proof (Forall2_lookup_lr _ _ _ _ _ _ R4 Hq He) as Hs. pose proof (Forall2_lookup_lr _ _ _ _ _ _ R5 Hq He) as Ha. cbv beta in *.
    apply Hm; [by eapply stored_mem|by apply Ha].
Qed.

Lemma wp_grow_chunk s T n (Q : unit -> qstate -> Prop) : qrep s T -> 0 <= n <= 259 ->
  (forall s', qrep s' T -> (qstr_last_chunk s' <> NULL -> qstr_last_used s' + n <= qstr_last_alloc s') -> Q tt s') -> wp (grow_chunk al n) Q s.
Proof using Hal.
  intros R Hn HQ. apply wp_bind, wp_gets. unfold when. pose proof (q_chunk _ _ R) as Hc. cbv zeta.
  destruct (Z.eqb_spec (qstr_last_chunk s) NULL) as [E0|E0]; simpl; [apply wp_ret, HQ; [done|congruence]|].
  destruct (Hc E0) as (Hp & Hu & Hlim & Hin). rewrite wrapu_small by lia.
  destruct (Z.ltb_spec (qstr_last_alloc s) (qstr_last_used s + n)) as [Hlt|Hge]; [|apply wp_ret, HQ; [done|lia]].
  rewrite wrapu_small by lia. destruct (m_renew_maybe al s _ _ _) eqn:Er.
  - destruct (renew_ok al Hal _ _ _ _ Er) as [Hb Hfree]. apply wp_bind, wp_modify, wp_modify, HQ; [|simpl; lia].
    apply (qrep_frame s); [done|done| |].
    + intros x Hx Hno. unfold in_chunk in *. simpl. unfold claim. rewrite alter_range_lookup.
      destruct (Z.leb_spec (qstr_last_chunk s + qstr_last_alloc s) x), (Z.ltb_spec x (qstr_last_chunk s + qstr_last_alloc s + n)); simpl;
        try (split; [done|]; intros [_ ?]; destruct Hno; split; [done|lia]).
      rewrite Hfree in Hx by lia. by destruct Hx.
    + intros _. simpl. split; [done|]. split; [lia|]. split; [lia|]. intros x [_ Hx]. simpl in Hx. unfold claim. rewrite alter_range_lookup.
      destruct (_ && _) eqn:Ea; [by eexists|]. apply Hin. split; [done|].
      apply andb_false_iff in Ea as [Ea%Z.leb_gt|Ea%Z.ltb_ge]; lia.
  - apply wp_bind, wp_modify, wp_modify, HQ; [|done]. apply (qrep_frame s); [done|done| |done].
    intros x Hx Hno. simpl. split; [|by intros [? _]]. unfold release. rewrite alter_range_lookup. destruct (_ && _) eqn:Ea; [|done].
    apply andb_true_iff in Ea as [Ea1%Z.leb_le Ea2%Z.ltb_lt]. destruct Hno. split; [done|lia].
Qed.

Lemma wp_new_chunk s T n (Q : unit + qerror -> qstate -> Prop) : qrep s T -> 0 < n ->
  (qstr_last_chunk s <> NULL -> qstr_last_used s + n <= qstr_last_alloc s) ->
  (forall s', qrep s' T -> qstr_last_chunk s' <> NULL -> qstr_last_used s' + n <= qstr_last_alloc s' -> Q (inl tt) s') ->
  Q (inr MemoryError) s -> wp (new_chunk al n) Q s.
Proof using Hal.
  intros R Hn Hroom HQ HE. apply wp_bind, wp_gets. destruct (Z.eqb_spec (qstr_last_chunk s) NULL) as [E0|E0]; simpl; [|apply wp_ret, HQ; auto].
  assert (Htake : forall p k, n <= k -> m_new_maybe al s k = Some p ->
    wp (modify (set_mem (claim p k)) ;; modify (set_chunk p k 0) ;; ret (inl tt)) Q s).
  { intros p k Hk Ek. destruct (new_ok al Hal _ _ _ Ek) as (Hp & Hlim & Hfree). apply wp_bind, wp_modify, wp_bind, wp_modify, wp_ret.
    apply HQ; [|simpl; unfold NULL; lia|simpl; lia]. apply (qrep_frame s); [done|done| |].
    - intros x Hx Hno. simpl. unfold claim. rewrite alter_range_lookup. unfold in_chunk. simpl.
      destruct (Z.leb_spec p x), (Z.ltb_spec x (p + k)); simpl; try (split; [done|]; intros [_ ?]; lia).
      rewrite Hfree in Hx by lia. by destruct Hx.
    - intros _. simpl. split; [done|]. split; [lia|]. split; [lia|]. intros x [_ Hx]. simpl in Hx. unfold claim. rewrite alter_range_lookup.
      rewrite (proj2 (Z.leb_le p x)), (proj2 (Z.ltb_lt x (p + k))) by lia. by eexists. }
  destruct (m_new_maybe al s (Z.max n MICROPY_ALLOC_QSTR_CHUNK_INIT)) as [p|] eqn:E1; [apply Htake; [lia|done]|].
  destruct (m_new_maybe al s n) as [p|] eqn:E2; [by apply Htake|by apply wp_ret].
Qed.

(** ** Writing the string *)

Fixpoint put_bytes (m : gmap Z Z) (a : ptr) (l : list Z) : gmap Z Z :=
  match l with [] => m | b :: l => put_bytes (<[a := b]> m) (a + 1) l end.

Lemma put_bytes_other m a l x : ~ a <= x < a + Z.of_nat (length l) -> put_bytes m a l !! x = m !! x.
Proof.
  revert m a. induction l as [|b l IH]; intros m a Hx; simpl in *; [done|]. rewrite IH by lia. apply lookup_insert_ne. lia.
Qed.

Lemma bytes_at_put m a l : bytes_at (put_bytes m a l) a l.
Proof.
  revert m a. induction l as [|b l IH]; intros m a; simpl; [done|]. split; [|apply IH].
  rewrite put_bytes_other by lia. apply lookup_insert_eq.
Qed.

Lemma put_bytes_app m a l k : put_bytes m a (l ++ k) = put_bytes (put_bytes m a l) (a + Z.of_nat (length l)) k.
Proof.
  revert m a. induction l as [|b l IH]; intros m a; simpl; [by rewrite Z.add_0_r|]. rewrite IH. f_equal. lia.
Qed.

Lemma wp_write_byte s a v (Q : unit -> qstate -> Prop) : is_Some (mem s !! a) -> is_byte v -> Q tt (set_mem (<[a := v]>) s) -> wp (wrb a v) Q s.
Proof.
  intros [w Hw] Hv HQ. apply wp_bind, (wp_rdb s a w); [done|]. apply wp_modify. unfold wrapu. rewrite Z.mod_small by (unfold is_byte in Hv; lia). done.
Qed.

Lemma wp_wr_bytes l : forall s a (Q : unit -> qstate -> Prop), (forall x, a <= x < a + Z.of_nat (length l) -> is_Some (mem s !! x)) -> Forall is_byte l ->
  Q tt (set_mem (fun m => put_bytes m a l) s) -> wp (wr_bytes a l) Q s.
Proof.
  induction l as [|b l IH]; intros s a Q Hm Hb HQ; simpl in *; [apply wp_ret; by destruct s|]. inversion Hb; subst.
  apply wp_bind, wp_write_byte; [apply Hm; lia|done|]. apply IH; [|done|done]. intros x Hx. simpl.
  rewrite lookup_insert_is_Some. destruct (decide (a = x)); [by left|right; split; [done|apply Hm; lia]].
Qed.

Lemma put_bytes_some m a l x : is_Some (m !! x) -> is_Some (put_bytes m a l !! x).
Proof.
  revert m a. induction l as [|b l IH]; intros m a Hx; simpl; [done|]. apply IH. rewrite lookup_insert_is_Some.
  destruct (decide (a = x)); [by left|by right].
Qed.

(** The statements that store a string in the chunk. *)
Definition write_string (q : ptr) (str : list Z) : QM unit :=
  Q_SET_HASH q (qstr_compute_hash str) ;;
  Q_SET_LENGTH q (Z.of_nat (length str)) ;;
  wr_bytes (q + MICROPY_QSTR_BYTES_IN_HASH + MICROPY_QSTR_BYTES_IN_LEN) str ;;
  wrb (q + MICROPY_QSTR_BYTES_IN_HASH + MICROPY_QSTR_BYTES_IN_LEN + Z.of_nat (length str)) 0.

Lemma insert_is_some (m : gmap Z Z) a v x : is_Some (m !! x) -> is_Some (<[a := v]> m !! x).
Proof. intros Hx. rewrite lookup_insert_is_Some. destruct (decide (a = x)); [by left|by right]. Qed.

Lemma wp_write_string s q str (Q : unit -> qstate -> Prop) : (forall x, q <= x < q + Z.of_nat (length str) + 4 -> is_Some (mem s !! x)) ->
  Forall is_byte str -> (length str < 256)%nat ->
  Q tt (set_mem (fun m => put_bytes m q (encoding (qstr_compute_hash str) str)) s) -> wp (write_string q str) Q s.
Proof.
  intros Hm Hb Hl HQ. pose proof (compute_hash_range str) as Hh. unfold write_string, Q_SET_HASH, Q_SET_LENGTH, MICROPY_QSTR_BYTES_IN_HASH, MICROPY_QSTR_BYTES_IN_LEN.
  set (h := qstr_compute_hash str) in *. apply wp_bind, wp_bind.
  assert (E1 : Z.shiftr h 8 = h / 256) by (rewrite Z.shiftr_div_pow2; done).
  assert (Hw : forall a v (Q : unit -> qstate -> Prop) s, is_Some (mem s !! a) -> Q tt (set_mem (<[a := u8 v]>) s) -> wp (wrb a v) Q s).
  { intros a v Q' s' [w Hw] HQ'. apply wp_bind, (wp_rdb s' a w); [done|]. by apply wp_modify. }
  apply Hw; [apply Hm; lia|]. apply Hw; [simpl; apply insert_is_some, Hm; lia|].
  apply wp_bind, Hw; [simpl; do 2 apply insert_is_some; apply Hm; lia|].
  apply wp_bind, wp_wr_bytes; [intros x Hx; simpl; do 3 apply insert_is_some; apply Hm; lia|done|].
  apply Hw; [simpl; apply put_bytes_some; do 3 apply insert_is_some; apply Hm; lia|].
  unfold set_mem in *. simpl in *. rewrite E1. unfold encoding in HQ. rewrite !put_bytes_app in HQ. simpl in HQ.
  unfold wrapu. rewrite (Z.mod_small (h / 256)), (Z.mod_small (Z.of_nat (length str))) by lia.
  replace (q + 2) with (q + 1 + 1) by lia. done.
Qed.

(** ** Adding the string to a pool *)

Lemma qrep_new_pool s T p l n : qrep s T -> pools s = p :: l -> Z.of_nat (length (ptrs (pools s))) + n < 2 ^ 29 -> 0 < n ->
  qrep (set_pools (cons (Pool (Z.of_nat (length (ptrs (pools s)))) n 0 (replicate (Z.to_nat n) NULL))) s) T.
Proof.
  intros R Ep Hlim Hn. assert (E : ptrs (Pool (Z.of_nat (length (ptrs (pools s)))) n 0 (replicate (Z.to_nat n) NULL) :: pools s) = ptrs (pools s))
    by (simpl; by rewrite app_nil_r).
  destruct R as [R1 R2 R3 R4 R5 R6 R7 R8]. split; cbn [pools set_pools mem]; rewrite ?E; try done.
  - split; [done|]. split; [simpl; lia|done].
  - eexists _, _. split; [done|]. simpl. rewrite length_replicate. lia.
Qed.

Lemma ptrs_append p l q : 0 <= pool_len p < Z.of_nat (length (qstrs p)) ->
  ptrs (Pool (total_prev_len p) (pool_alloc p) (pool_len p + 1) (<[Z.to_nat (pool_len p) := q]> (qstrs p)) :: l) = ptrs (p :: l) ++ [q].
Proof.
  intros Hp. simpl. rewrite <- app_assoc. f_equal. replace (Z.to_nat (pool_len p + 1)) with (S (Z.to_nat (pool_len p))) by lia.
  rewrite (take_S_r _ _ q); [by rewrite take_insert_ge by lia|]. apply list_lookup_insert_eq. lia.
Qed.

Lemma entries_app T str : entries (T ++ [str]) = entries T ++ [(qstr_compute_hash str, str)].
Proof. unfold entries. by rewrite fmap_app. Qed.

(** A pool with room gets the string as its next one. *)
Lemma qrep_append s T p l q str : qrep s T -> pools s = p :: l -> pool_len p < pool_alloc p -> str ∉ T -> Forall is_byte str -> (length str < 256)%nat ->
  stored (mem s) q (qstr_compute_hash str) str -> (forall x, q <= x < q + Z.of_nat (length str) + 4 -> ~ in_chunk s x) ->
  qrep (set_pools (fun _ => Pool (total_prev_len p) (pool_alloc p) (pool_len p + 1) (<[Z.to_nat (pool_len p) := q]> (qstrs p)) :: l) s) (T ++ [str]).
Proof.
  intros R Ep Hroom Hnew Hb Hl Hs Ha. pose proof (q_last _ _ R) as (p' & l' & Ep' & H1 & H2 & H3). rewrite Ep in Ep'. injection Ep' as <- <-.
  destruct (H3 Hroom) as [H4 H5]. destruct R as [R1 R2 R3 R4 R5 R6 R7 R8]. rewrite Ep in *. destruct R1 as (W1 & W2 & W3).
  assert (Elen : length (ptrs (p :: l)) = (length (ptrs l) + Z.to_nat (pool_len p))%nat) by (simpl; rewrite length_app, length_take; lia).
  split; cbn [pools set_pools mem]; rewrite ?ptrs_append, ?entries_app by lia; try done.
  - split; [done|]. simpl. rewrite length_insert. split; [lia|done].
  - eexists _, _. split; [done|]. simpl. rewrite length_insert. lia.
  - rewrite length_app, Elen. simpl. lia.
  - apply Forall2_app; [done|]. constructor; [done|constructor].
  - apply Forall2_app; [done|]. constructor; [done|constructor].
  - apply Forall_app. split; [done|]. constructor; [done|constructor].
  - apply NoDup_app. split; [done|]. split; [|apply NoDup_singleton]. intros x Hx. rewrite list_elem_of_singleton. by intros ->.
Qed.

Lemma wp_qstr_add s T q str (Q : Z + qerror -> qstate -> Prop) : qrep s T -> str ∉ T -> Forall is_byte str -> (length str < 256)%nat ->
  stored (mem s) q (qstr_compute_hash str) str -> (forall x, q <= x < q + Z.of_nat (length str) + 4 -> ~ in_chunk s x) ->
  (forall s', qrep s' (T ++ [str]) -> Q (inl (Z.of_nat (S (length T)))) s') -> Q (inr MemoryError) s -> wp (qstr_add al q) Q s.
Proof using Hal.
  intros R Hnew Hb Hl Hs Ha HQ HE. pose proof (q_last _ _ R) as (p & l & Ep & H1 & H2 & H3). pose proof (q_few _ _ R) as Hfew.
  assert (Hgo : forall s1 p1 l1, qrep s1 T -> pools s1 = p1 :: l1 -> pool_len p1 < pool_alloc p1 -> mem s1 = mem s ->
    (forall x, in_chunk s1 x <-> in_chunk s x) ->
    wp (pool <- last_pool ;; qstr_at pool (pool_len pool) ;;
      modify (set_pools (fun l =>
        match l with
        | p :: l => Pool (total_prev_len p) (pool_alloc p) (pool_len p + 1) (<[Z.to_nat (pool_len p) := q]> (qstrs p)) :: l
        | [] => []
        end)) ;;
      pool <- last_pool ;;
      ret (inl (u32 (total_prev_len pool + pool_len pool - 1)))) Q s1).
  { intros s1 p1 l1 R1 Ep1 Hroom Em Hin. pose proof (q_last _ _ R1) as (p' & l' & Ep' & _ & _ & H3'). rewrite Ep1 in Ep'. injection Ep' as <- <-.
    pose proof (q_pools _ _ R1) as W. rewrite Ep1 in W. destruct W as (W1 & W2 & W3). destruct (H3' Hroom) as [H4 H5].
    apply wp_bind, (wp_getso _ p1); [by rewrite Ep1|]. destruct (lookup_lt_is_Some_2 (qstrs p1) (Z.to_nat (pool_len p1))) as [q0 Hq0]; [lia|].
    apply wp_bind, (wp_getso _ q0); [done|]. apply wp_bind, wp_modify. eapply wp_bind, wp_getso; [simpl; by rewrite Ep1|]. apply wp_ret. simpl.
    pose proof (ptrs_length s1 T R1) as Elen. rewrite Ep1 in Elen. simpl in Elen. rewrite length_app, length_take in Elen.
    rewrite wrapu_small by lia. replace (total_prev_len p1 + (pool_len p1 + 1) - 1) with (Z.of_nat (S (length T))) by lia. apply HQ.
    pose proof (qrep_append s1 T p1 l1 q str R1 Ep1 Hroom Hnew Hb Hl) as HR. rewrite Em in HR. specialize (HR Hs).
    unfold set_pools in *. rewrite Ep1 in *. apply HR. intros x Hx. rewrite Hin. by apply Ha. }
  apply wp_bind, (wp_getso _ p); [by rewrite Ep|]. apply wp_bind. destruct (Z.leb_spec (pool_alloc p) (pool_len p)) as [Hfull|Hroom].
  - apply wp_bind, wp_gets. rewrite wrapu_small by lia. destruct (new_pool_maybe al s (pool_alloc p * 2)) eqn:En; [|by apply wp_ret, wp_ret].
    pose proof (pool_ok al Hal s _ En) as Hfit. pose proof (q_pools _ _ R) as W. rewrite Ep in W. destruct W as (W1 & W2 & W3).
    assert (Elen : Z.of_nat (length (ptrs (pools s))) = total_prev_len p + pool_len p).
    { rewrite Ep. simpl. rewrite length_app, length_take. lia. }
    rewrite wrapu_small by lia. rewrite <- Elen. apply wp_bind, wp_modify, wp_ret. eapply Hgo; [by eapply qrep_new_pool; [..|lia]|done|simpl; lia|done|done].
  - apply wp_ret. by eapply Hgo.
Qed.

Lemma wp_qstr_from_strn s T str (Q : Z + qerror -> qstate -> Prop) : qrep s T -> Forall is_byte str ->
  (forall k, T !! k = Some str -> Q (inl (Z.of_nat (S k))) s) ->
  (str ∉ T -> (256 <= length str)%nat -> Q (inr RuntimeError) s) ->
  (forall s', str ∉ T -> (length str < 256)%nat -> qrep s' T -> Q (inr MemoryError) s') ->
  (forall s', str ∉ T -> (length str < 256)%nat -> qrep s' (T ++ [str]) -> Q (inl (Z.of_nat (S (length T)))) s') ->
  wp (qstr_from_strn al str) Q s.
Proof using Hal.
  intros R Hb HF HL HE HQ. apply wp_bind, (wp_qstr_find s T R str); [intros k Hk; apply wp_ret; by apply HF|]. intros Hnew.
  change (0 =? 0) with true. cbv iota. change (2 ^ (8 * MICROPY_QSTR_BYTES_IN_LEN)) with 256.
  destruct (Z.leb_spec 256 (Z.of_nat (length str))) as [Hlong|Hshort]; [apply wp_ret, HL; [done|lia]|].
  cbv zeta. set (n := MICROPY_QSTR_BYTES_IN_HASH + MICROPY_QSTR_BYTES_IN_LEN + Z.of_nat (length str) + 1).
  assert (Hn : n = Z.of_nat (length str) + 4) by (unfold n, MICROPY_QSTR_BYTES_IN_HASH, MICROPY_QSTR_BYTES_IN_LEN; lia). clearbody n.
  apply wp_bind, (wp_grow_chunk s T n); [done|lia|]. intros s1 R1 Hroom1.
  apply wp_bind, (wp_new_chunk s1 T n); [done|lia|done| |by apply wp_ret, HE; [|lia|]]. intros s2 R2 Hc Hroom.
  destruct (q_chunk _ _ R2 Hc) as (Hp & Hu & Hlim & Hin).
  apply wp_bind, wp_gets, wp_bind, wp_modify. rewrite wrapu_small by lia.
  set (q := qstr_last_chunk s2 + qstr_last_used s2). set (s3 := set_chunk _ _ _ s2).
  assert (Hq : forall x, q <= x < q + Z.of_nat (length str) + 4 -> in_chunk s2 x) by (intros x Hx; split; [done|lia]).
  assert (Hw : wp (write_string q str ;; qstr_add al q) Q s3).
  { apply wp_bind, wp_write_string; [intros x Hx; by apply Hin, Hq|done|lia|].
    assert (R3 : qrep (set_mem (fun m => put_bytes m q (encoding (qstr_compute_hash str) str)) s3) T).
    { apply (qrep_frame s2); [done|done| |].
      - intros x Hx Hno. split; [apply put_bytes_other; rewrite length_encoding; intros Hr; apply Hno, Hq; lia|].
        intros [_ Hr]. simpl in Hr. apply Hno. split; [done|lia].
      - intros _. cbn [qstr_last_chunk qstr_last_used qstr_last_alloc set_mem s3 set_chunk]. split; [done|]. split; [lia|]. split; [done|].
        intros x [_ Hx]. simpl in Hx. apply put_bytes_some, Hin. split; [done|lia]. }
    apply (wp_qstr_add _ T q str); [done|done|done|lia|apply bytes_at_put| | |].
    - intros x Hx [_ Hr]. simpl in Hr. lia.
    - intros s' R'. apply HQ; [done|lia|done].
    - apply HE; [done|lia|done]. }
  unfold write_string in Hw. unfold wp, bind in *. destruct (Q_SET_HASH _ _ _) as [[? ?]|]; [|done]. destruct (Q_SET_LENGTH _ _ _) as [[? ?]|]; [|done].
  destruct (wr_bytes _ _ _) as [[? ?]|]; [|done]. done.
Qed.
End Adding.

(** * Reading strings *)

Lemma wp_find_in l : forall q p s (Q : ptr -> qstate -> Prop), pools_wf l -> 0 <= q -> ptrs l !! Z.to_nat q = Some p -> Q p s -> wp (find_in q l) Q s.
Proof.
  induction l as [|pool l IH]; intros q p s Q W Hq Hp HQ; [done|]. destruct W as (W1 & W2 & W3). simpl in *.
  destruct (Z.ltb_spec q (total_prev_len pool)) as [Hlt|Hge].
  - rewrite lookup_app_l in Hp by lia. by eapply IH.
  - rewrite lookup_app_r in Hp by lia. apply lookup_take_Some in Hp as [Hp _]. apply (wp_getso _ p); [|done].
    by replace (Z.to_nat (q - total_prev_len pool)) with (Z.to_nat q - length (ptrs l))%nat by lia.
Qed.

(** The string with the number, and the empty one for 0. *)
Definition string_of (T : list (list Z)) (q : Z) : Z * list Z := default (0, []) (entries T !! Z.to_nat q).

Lemma wp_find_qstr s T q (Q : ptr -> qstate -> Prop) : qrep s T -> 0 <= q <= Z.of_nat (length T) ->
  (forall p, stored (mem s) p (fst (string_of T q)) (snd (string_of T q)) -> 0 <= fst (string_of T q) < 65536 -> Q p s) -> wp (find_qstr q) Q s.
Proof.
  intros R Hq HQ. pose proof (ptrs_length s T R) as Hl. destruct (lookup_lt_is_Some_2 (ptrs (pools s)) (Z.to_nat q)) as [p Hp]; [lia|].
  destruct (ptrs_entry s T R _ p Hp) as (e & He & Hs & Hh). apply wp_bind, wp_gets. eapply wp_find_in; [apply R|lia|done|].
  unfold string_of in HQ. rewrite He in HQ. by apply HQ.
Qed.

(** * Runs *)

Inductive qstr_op := From (str : list Z) | Find (str : list Z) | Data (q : Z) | Hash (q : Z) | Len (q : Z).
Inductive qstr_out := Qstr (q : Z) | Bytes (l : list Z) | Number (n : Z) | Raised (e : qerror).

Definition qstr_exec (al : allocator) (op : qstr_op) : QM qstr_out :=
  match op with
  | From str => r <- qstr_from_strn al str ;; ret (match r with inl q => Qstr q | inr e => Raised e end)
  | Find str => q <- qstr_find_strn str ;; ret (Qstr q)
  | Data q => l <- qstr_data q ;; ret (Bytes l)
  | Hash q => n <- qstr_hash q ;; ret (Number n)
  | Len q => n <- qstr_len q ;; ret (Number n)
  end.

Fixpoint qstr_run (ops : list (allocator * qstr_op)) : QM (list qstr_out) :=
  match ops with [] => ret [] | (al, op) :: ops => r <- qstr_exec al op ;; rs <- qstr_run ops ;; ret (r :: rs) end.

(** The number of a string in the table of strings. *)
Definition number (str : list Z) (T : list (list Z)) (q : Z) : Prop := exists k, T !! k = Some str /\ q = Z.of_nat (S k).

Definition qstr_spec (op : qstr_op) (T : list (list Z)) (r : qstr_out) (T' : list (list Z)) : Prop :=
  match op with
  | From str =>
      (T' = T /\ exists q, r = Qstr q /\ number str T q) \/
      (str ∉ T /\ (256 <= length str)%nat /\ T' = T /\ r = Raised RuntimeError) \/
      (str ∉ T /\ (length str < 256)%nat /\ ((T' = T ++ [str] /\ r = Qstr (Z.of_nat (S (length T)))) \/ (T' = T /\ r = Raised MemoryError)))
  | Find str => T' = T /\ ((exists q, r = Qstr q /\ number str T q) \/ (str ∉ T /\ r = Qstr 0))
  | Data q => T' = T /\ r = Bytes (snd (string_of T q))
  | Hash q => T' = T /\ r = Number (fst (string_of T q))
  | Len q => T' = T /\ r = Number (Z.of_nat (length (snd (string_of T q))))
  end.

Fixpoint qstr_spec_run (ops : list (allocator * qstr_op)) (T : list (list Z)) (rs : list qstr_out) (T' : list (list Z)) : Prop :=
  match ops, rs with
  | [], [] => T' = T
  | (_, op) :: ops, r :: rs => exists T1, qstr_spec op T r T1 /\ qstr_spec_run ops T1 rs T'
  | _, _ => False
  end.

(** Strings are bytes; numbers are those of strings in the table, which only
    grows. *)
Definition qstr_legal (n : nat) (op : qstr_op) : Prop :=
  match op with From str | Find str => Forall is_byte str | Data q | Hash q | Len q => 0 <= q <= Z.of_nat n end.

Lemma qstr_exec_ok al op s T : allocator_ok al -> qrep s T -> qstr_legal (length T) op ->
  wp (qstr_exec al op) (fun r s' => exists T', qstr_spec op T r T' /\ qrep s' T') s.
Proof.
  intros Hal R Hop. destruct op; simpl in Hop; apply wp_bind.
  - apply (wp_qstr_from_strn al Hal s T); [done|done|..].
    + intros k Hk. apply wp_ret. exists T. split; [left; split; [done|]|done]. eexists. split; [done|]. by exists k.
    + intros Hn Hl. apply wp_ret. exists T. split; [right; by left|done].
    + intros s' Hn Hl R'. apply wp_ret. exists T. split; [right; right; split; [done|]; split; [done|]; by right|done].
    + intros s' Hn Hl R'. apply wp_ret. exists (T ++ [str]). split; [right; right; split; [done|]; split; [done|]; by left|done].
  - apply (wp_qstr_find s T R).
    + intros k Hk. apply wp_ret. exists T. split; [|done]. split; [done|]. left. eexists. split; [done|]. by exists k.
    + intros Hn. apply wp_ret. exists T. split; [|done]. split; [done|]. by right.
  - apply wp_bind, (wp_find_qstr s T); [done|done|]. intros p Hs Hh. apply wp_bind. eapply wp_get_length; [exact Hs|]. rewrite Nat2Z.id.
    eapply wp_rd_bytes; [by eapply stored_data|]. apply wp_ret. by exists T.
  - apply wp_bind, (wp_find_qstr s T); [done|done|]. intros p Hs Hh. eapply wp_get_hash; [exact Hs|done|]. apply wp_ret. by exists T.
  - apply wp_bind, (wp_find_qstr s T); [done|done|]. intros p Hs Hh. eapply wp_get_length; [exact Hs|]. apply wp_ret. by exists T.
Qed.

Lemma qstr_spec_length op T r T' : qstr_spec op T r T' -> (length T <= length T')%nat.
Proof.
  destruct op; simpl; try (by intros [-> _]).
  intros [[-> _]|[(_ & _ & -> & _)|(_ & _ & [[-> _]|[-> _]])]]; rewrite ?length_app; lia.
Qed.

Lemma qstr_run_ok ops : Forall (fun x => allocator_ok (fst x)) ops -> forall s T, qrep s T -> Forall (fun x => qstr_legal (length T) (snd x)) ops ->
  wp (qstr_run ops) (fun rs s' => exists T', qstr_spec_run ops T rs T' /\ qrep s' T') s.
Proof.
  induction 1 as [|[al op] ops Ha _ IH]; intros s T R Hl; simpl; [apply wp_ret; by exists T|]. inversion Hl as [|? ? Hl1 Hl2]; subst.
  apply wp_bind. eapply wp_mono; [by apply (qstr_exec_ok al op s T)|]. intros r s1 (T1 & HS & R1). apply wp_bind.
  eapply wp_mono; [apply (IH s1 T1 R1)|].
  - eapply Forall_impl; [exact Hl2|]. intros [al' op'] Hop. pose proof (qstr_spec_length _ _ _ _ HS). destruct op'; simpl in *; lia || done.
  - intros rs s2 (T2 & HS2 & R2). apply wp_ret. exists T2. split; [by exists T1|done].
Qed.

(** What makeqstrdata.py generates: the constant pool with the strings [C], all
    different, after the entry for no string; it has no room left. *)
Record const_pool_ok (m : gmap Z Z) (cp : qstr_pool_t) (C : list (list Z)) : Prop := {
  c_first : total_prev_len cp = 0 /\ pool_alloc cp = MICROPY_ALLOC_QSTR_ENTRIES_INIT;
  c_len : pool_len cp = Z.of_nat (length (qstrs cp)) /\ MICROPY_ALLOC_QSTR_ENTRIES_INIT <= pool_len cp < 2 ^ 29;
  c_stored : Forall2 (fun q e => stored m q (fst e) (snd e)) (qstrs cp) (entries C);
  c_bytes : Forall (fun str => Forall is_byte str /\ (length str < 256)%nat) C;
  c_nodup : NoDup C
}.

Lemma wp_qstr_init s cp C (Q : unit -> qstate -> Prop) : const_pool_ok (mem s) cp C -> (forall s', qrep s' C -> Q tt s') -> wp (qstr_init cp) Q s.
Proof.
  intros [[F1 F2] [L1 L2] Hs Hb Hn] HQ. apply wp_modify, HQ. unfold MICROPY_ALLOC_QSTR_ENTRIES_INIT in *.
  assert (E : ptrs [cp] = qstrs cp) by (simpl; rewrite take_ge; [done|lia]).
  split; cbn [pools mem]; rewrite ?E; try done.
  - simpl. split; [done|]. lia.
  - exists cp, []. split; [done|]. lia.
  - lia.
  - eapply Forall2_impl; [exact Hs|]. intros q e _ x _ [? _]. done.
Qed.


(** ** An instance *)

(** An allocator that gives out memory above everything in use, up to a limit. *)
Definition top (m : gmap Z Z) : Z := foldr Z.max 0 (fst <$> map_to_list m).

Lemma top_above m x : top m < x -> m !! x = None.
Proof.
  intros Hx. destruct (m !! x) as [v|] eqn:E; [|done]. exfalso. apply elem_of_map_to_list in E.
  assert (Hge : forall l, (x, v) ∈ l -> x <= foldr Z.max 0 (fst <$> l)).
  { induction l as [|y l IH]; [by intros ?%elem_of_nil|]. intros [<-|Hl]%elem_of_cons; [apply Z.le_max_l|]. etransitivity; [exact (IH Hl)|apply Z.le_max_r]. }
  specialize (Hge _ E). unfold top in Hx. lia.
Qed.

Definition bump (limit : Z) : allocator :=
  Allocator (fun s n => let p := Z.max 1 (top (mem s) + 1) in if p + n <? Z.min limit (2 ^ 31) then Some p else None)
    (fun s p n n' => (top (mem s) <? p + n) && (p + n' <? Z.min limit (2 ^ 31)))
    (fun s n => Z.of_nat (length (ptrs (pools s))) + n <? Z.min limit (2 ^ 29)).

Lemma bump_ok limit : allocator_ok (bump limit).
Proof.
  split; simpl.
  - intros s n p. destruct (Z.ltb_spec (Z.max 1 (top (mem s) + 1) + n) (Z.min limit (2 ^ 31))); [|done]. intros [= <-].
    split; [lia|]. split; [lia|]. intros x Hx. apply top_above. lia.
  - intros s p n n' [H1%Z.ltb_lt H2%Z.ltb_lt]%andb_true_iff. split; [lia|]. intros x Hx. apply top_above. lia.
  - intros s n H%Z.ltb_lt. lia.
Qed.

Definition demo_strings : list (list Z) := (fun i => [97 + i]) <$> seqZ 0 9.
Definition demo_addresses : list ptr := (fun i => 1000 + 8 * i) <$> seqZ 0 10.
Definition demo_mem : gmap Z Z :=
  foldr (fun x m => put_bytes m (fst x) (encoding (fst (snd x)) (snd (snd x)))) ∅ (zip demo_addresses (entries demo_strings)).
Definition demo_pool : qstr_pool_t := Pool 0 10 10 demo_addresses.

Lemma demo_pool_ok : const_pool_ok demo_mem demo_pool demo_strings.
Proof.
  split; simpl; [done|done| | |].
  - unfold demo_addresses, demo_strings. simpl. repeat (constructor; [vm_compute; tauto|]). constructor.
  - unfold demo_strings. simpl. repeat constructor; unfold is_byte; lia.
  - apply (bool_decide_unpack _). vm_compute. done.
Qed.

Definition demo_ops : list (allocator * qstr_op) :=
  [(bump (2 ^ 20), From [104; 105]); (bump (2 ^ 20), From [99]); (bump (2 ^ 20), From (replicate 100 65)); (bump (2 ^ 20), From [104; 105]);
   (bump 0, From (replicate 30 66)); (bump (2 ^ 20), Find (replicate 30 66)); (bump (2 ^ 20), Hash 3); (bump (2 ^ 20), From (replicate 300 65)); (bump (2 ^ 20), Data 3)].

