(* ===== verification/Qsort.v ===== *)
(** Qsort: sorting and searching arrays (libs/libc/stdlib/lib_qsort.c and
    lib_bsearch.c).  The array is a list of elements, and the pointer to an element,
    [base + i * width], is its number [i]; the exchange of two elements byte by byte or
    word by word is modelled below on bytes. *)

From stdpp Require Import options.
From Stdlib Require Import Sorting.Sorted.
From S2P Require Import Prelude.

(** * The routines *)

Section Sort.
Context {A : Type} (compar : A -> A -> Z).
Abbreviation AM := (M (list A)).

Definition at_ (l : list A) (p : Z) : option A := if p <? 0 then None else l !! Z.to_nat p.
Definition elem (p : Z) : AM A := getso (fun l => at_ l p).
Definition cmp (p q : Z) : AM Z := a <- elem p ;; b <- elem q ;; ret (compar a b).

Definition swap (a b : Z) : AM unit :=
  x <- elem a ;; y <- elem b ;; modify (fun l => <[Z.to_nat b := x]> (<[Z.to_nat a := y]> l)).

(** [n] elements. *)
Fixpoint vecswap (n : nat) (a b : Z) : AM unit :=
  match n with O => ret tt | S n => swap a b ;; vecswap n (a + 1) (b + 1) end.

Definition med3 (a b c : Z) : AM Z :=
  ab <- cmp a b ;;
  if ab <? 0 then
    bc <- cmp b c ;;
    if bc <? 0 then ret b else ac <- cmp a c ;; ret (if ac <? 0 then c else a)
  else
    bc <- cmp b c ;;
    if 0 <? bc then ret b else ac <- cmp a c ;; ret (if ac <? 0 then a else c).

(** The inner loop of the insertion sort, from [pl] down. *)
Fixpoint sink (fuel : nat) (base pl : Z) : AM unit :=
  match fuel with
  | O => undef
  | S fuel =>
      if base <? pl then
        c <- cmp (pl - 1) pl ;;
        if 0 <? c then swap pl (pl - 1) ;; sink fuel base (pl - 1) else ret tt
      else ret tt
  end.

(** The outer loop, [n] elements from [pm] on. *)
Fixpoint insertion (n : nat) (base pm : Z) : AM unit :=
  match n with
  | O => ret tt
  | S n => sink (S (Z.to_nat (pm - base))) base pm ;; insertion n base (pm + 1)
  end.

(** The position of the pivot. *)
Definition choose (base nel : Z) : AM Z :=
  let pm := base + nel / 2 in
  if 7 <? nel then
    let pl := base in let pn := base + (nel - 1) in
    r <- (if 40 <? nel then
                        let d := nel / 8 in
                        pl <- med3 pl (pl + d) (pl + 2 * d) ;;
                        pm <- med3 (pm - d) pm (pm + d) ;;
                        pn <- med3 (pn - 2 * d) (pn - d) pn ;;
                        ret (pl, pm, pn)
                      else ret (pl, pm, pn)) ;;
    let '(pl, pm, pn) := r in
    med3 pl pm pn
  else ret pm.

(** [swap_cnt] is [cnt]. *)
Fixpoint scan_up (fuel : nat) (base pa pb pc cnt : Z) : AM (Z * Z * Z) :=
  match fuel with
  | O => undef
  | S fuel =>
      if pb <=? pc then
        r <- cmp pb base ;;
        if r <=? 0 then
          if r =? 0 then swap pa pb ;; scan_up fuel base (pa + 1) (pb + 1) pc 1
          else scan_up fuel base pa (pb + 1) pc cnt
        else ret (pa, pb, cnt)
      else ret (pa, pb, cnt)
  end.

Fixpoint scan_down (fuel : nat) (base pb pc pd cnt : Z) : AM (Z * Z * Z) :=
  match fuel with
  | O => undef
  | S fuel =>
      if pb <=? pc then
        r <- cmp pc base ;;
        if 0 <=? r then
          if r =? 0 then swap pc pd ;; scan_down fuel base pb (pc - 1) (pd - 1) 1
          else scan_down fuel base pb (pc - 1) pd cnt
        else ret (pc, pd, cnt)
      else ret (pc, pd, cnt)
  end.

Fixpoint partition (fuel : nat) (base pa pb pc pd cnt : Z) : AM (Z * Z * Z * Z * Z) :=
  match fuel with
  | O => undef
  | S fuel =>
      let n := S (Z.to_nat (pc + 1 - pb)) in
      up <- scan_up n base pa pb pc cnt ;;
      let '(pa, pb, cnt) := up in
      down <- scan_down n base pb pc pd cnt ;;
      let '(pc, pd, cnt) := down in
      if pc <? pb then ret (pa, pb, pc, pd, cnt)
      else swap pb pc ;; partition fuel base pa (pb + 1) (pc - 1) pd 1
  end.

Fixpoint qsort_from (fuel : nat) (base nel : Z) : AM unit :=
  match fuel with
  | O => undef
  | S fuel =>
      if nel <? 7 then insertion (Z.to_nat (nel - 1)) base (base + 1)
      else
        pm <- choose base nel ;;
        swap base pm ;;
        parts <- partition (Z.to_nat nel) base (base + 1) (base + 1) (base + (nel - 1)) (base + (nel - 1)) 0 ;;
        let '(pa, pb, pc, pd, swap_cnt) := parts in
        if swap_cnt =? 0 then insertion (Z.to_nat (nel - 1)) base (base + 1)
        else
          let pn := base + nel in
          let r := Z.min (pa - base) (pb - pa) in
          vecswap (Z.to_nat r) base (pb - r) ;;
          let r := Z.min (pd - pc) (pn - pd - 1) in
          vecswap (Z.to_nat r) pb (pn - r) ;;
          let r := pb - pa in
          when (1 <? r) (qsort_from fuel base r) ;;
          let r := pd - pc in
          when (1 <? r) (qsort_from fuel (pn - r) r)
  end.

Definition qsort (base nel : Z) : AM unit := qsort_from (S (Z.to_nat nel)) base nel.
End Sort.

Section Search.
Context {A K : Type} (compar : K -> A -> Z).

(** [None] is [NULL]. *)
Fixpoint bsearch_from (fuel : nat) (key : K) (lower lim : Z) : M (list A) (option Z) :=
  match fuel with
  | O => undef
  | S fuel =>
      if lim =? 0 then ret None
      else
        let middle := lower + Z.shiftr lim 1 in
        a <- elem middle ;;
        let c := compar key a in
        if c =? 0 then ret (Some middle)
        else if 0 <? c then bsearch_from fuel key (middle + 1) (Z.shiftr (lim - 1) 1)
        else bsearch_from fuel key lower (Z.shiftr lim 1)
  end.

Definition bsearch (key : K) (base nel : Z) : M (list A) (option Z) := bsearch_from (S (Z.to_nat nel)) key base nel.
End Search.

(** * Positions and rearrangements *)

Section Arrays.
Context {A : Type}.
Implicit Types (l : list A) (x y : A) (P : A -> Prop) (b e p q : Z).

Lemma at_Some l p x : at_ l p = Some x <-> 0 <= p /\ l !! Z.to_nat p = Some x.
Proof. unfold at_. destruct (Z.ltb_spec p 0); split; [done|intros [? _]; lia|by intros|tauto]. Qed.

Lemma at_is_lookup l p : 0 <= p -> at_ l p = l !! Z.to_nat p.
Proof. intros Hp. unfold at_. by destruct (Z.ltb_spec p 0); [lia|]. Qed.

Lemma at_is_Some l p : 0 <= p < Z.of_nat (length l) -> exists x, at_ l p = Some x.
Proof. intros Hp. rewrite at_is_lookup by lia. apply lookup_lt_is_Some_2. lia. Qed.

Lemma at_range l p x : at_ l p = Some x -> 0 <= p < Z.of_nat (length l).
Proof. intros [Hp Hl%lookup_lt_Some]%at_Some. lia. Qed.

Definition outside b e p : Prop := ~ (b <= p < e).

(** [l'] is [l] with the elements of [b], ..., [e - 1] rearranged. *)
Record shuf b e l l' : Prop := {
  shuf_perm : l ≡ₚ l';
  shuf_out : forall p, outside b e p -> at_ l' p = at_ l p
}.

Lemma shuf_refl b e l : shuf b e l l.
Proof. by split. Qed.

Lemma shuf_trans b e l1 l2 l3 : shuf b e l1 l2 -> shuf b e l2 l3 -> shuf b e l1 l3.
Proof. intros [P1 O1] [P2 O2]. split; [by trans l2|]. intros p Hp. by rewrite O2, O1. Qed.

Lemma shuf_mono b e b' e' l l' : b' <= b -> e <= e' -> shuf b e l l' -> shuf b' e' l l'.
Proof. intros Hb He [Hp Ho]. split; [done|]. intros p Hout. apply Ho. unfold outside in *. lia. Qed.

Lemma shuf_length b e l l' : shuf b e l l' -> length l' = length l.
Proof. intros [Hp _]. by apply Permutation_length in Hp. Qed.

(** All elements of a range satisfy [P]. *)
Definition all l b e P : Prop := forall p x, b <= p < e -> at_ l p = Some x -> P x.

Lemma all_split l b m e P : all l b m P -> all l m e P -> all l b e P.
Proof. intros H1 H2 p x Hp Hx. destruct (decide (p < m)); [apply (H1 p)|apply (H2 p)]; (done || lia). Qed.

Lemma all_mono l b e b' e' P : all l b e P -> b <= b' -> e' <= e -> all l b' e' P.
Proof. intros Ha Hb He p x Hp. apply Ha. lia. Qed.

(** Only the middle of the list is rearranged. *)
Lemma shuf_cut b e l l' : 0 <= b -> shuf b e l l' ->
  let n := Z.to_nat b in let k := Z.to_nat (e - b) in
  take n l' = take n l /\ drop k (drop n l') = drop k (drop n l) /\ take k (drop n l) ≡ₚ take k (drop n l').
Proof.
  intros Hb [Hp Ho] n k.
  assert (Hcut : forall l, l = take n l ++ take k (drop n l) ++ drop k (drop n l)) by (intros l0; by rewrite !take_drop).
  assert (E1 : take n l' = take n l).
  { apply list_eq. intros i. destruct (decide (i < n)%nat); [|by rewrite !lookup_take_ge by lia]. rewrite !lookup_take_lt by done.
    specialize (Ho (Z.of_nat i)). rewrite !at_is_lookup, Nat2Z.id in Ho by lia. apply Ho. unfold outside. lia. }
  assert (E2 : drop k (drop n l') = drop k (drop n l)).
  { apply list_eq. intros i. rewrite !lookup_drop. specialize (Ho (Z.of_nat (n + (k + i)))). rewrite !at_is_lookup, Nat2Z.id in Ho by lia.
    apply Ho. unfold outside. lia. }
  split; [done|]. split; [done|]. rewrite (Hcut l), (Hcut l'), E1, E2 in Hp. by apply Permutation_app_inv_l, Permutation_app_inv_r in Hp.
Qed.

Lemma at_segment l b e p x : 0 <= b -> b <= p < e -> at_ l p = Some x -> x ∈ take (Z.to_nat (e - b)) (drop (Z.to_nat b) l).
Proof.
  intros Hb Hp [_ Hx]%at_Some. apply list_elem_of_lookup. exists (Z.to_nat p - Z.to_nat b)%nat. rewrite lookup_take_lt, lookup_drop by lia.
  by replace (Z.to_nat b + (Z.to_nat p - Z.to_nat b))%nat with (Z.to_nat p) by lia.
Qed.

Lemma shuf_all b e l l' P : 0 <= b -> shuf b e l l' -> all l b e P -> all l' b e P.
Proof.
  intros Hb Hs Ha p x Hpr Hx. destruct (shuf_cut b e l l' Hb Hs) as (_ & _ & Hp). apply (at_segment l' b e) in Hx; [|lia|lia].
  rewrite <- Hp in Hx. apply list_elem_of_lookup in Hx as [i Hi]. pose proof (lookup_lt_Some _ _ _ Hi) as Hlt. rewrite length_take in Hlt.
  rewrite lookup_take_lt, lookup_drop in Hi by lia. apply (Ha (b + Z.of_nat i)); [lia|]. rewrite at_is_lookup by lia.
  by replace (Z.to_nat (b + Z.of_nat i)) with (Z.to_nat b + i)%nat by lia.
Qed.

Lemma shuf_keeps b e l l' b' e' P : shuf b e l l' -> (e' <= b \/ e <= b') -> all l b' e' P -> all l' b' e' P.
Proof. intros [_ Ho] Hd Ha p x Hp. rewrite Ho by (unfold outside; lia). by apply Ha. Qed.

(** ** Exchanges *)

Record swapped p q l l' : Prop := {
  sw_l : at_ l' p = at_ l q;
  sw_r : at_ l' q = at_ l p;
  sw_out : forall r, r <> p -> r <> q -> at_ l' r = at_ l r;
  sw_perm : l ≡ₚ l'
}.

Lemma wp_elem l p x (Q : A -> list A -> Prop) : at_ l p = Some x -> Q x l -> wp (elem p) Q l.
Proof. intros Hx HQ. by apply (wp_getso _ x). Qed.

Lemma at_insert l p q x : 0 <= q -> 0 <= p < Z.of_nat (length l) -> at_ (<[Z.to_nat p := x]> l) q = if decide (q = p) then Some x else at_ l q.
Proof.
  intros Hq Hp. rewrite !at_is_lookup by done. destruct (decide (q = p)) as [->|].
  - apply list_lookup_insert_eq. lia.
  - apply list_lookup_insert_ne. lia.
Qed.

Lemma swap_perm l (i j : nat) x y : l !! i = Some x -> l !! j = Some y -> <[j := x]> (<[i := y]> l) ≡ₚ l.
Proof.
  intros Hi Hj. apply Permutation_inj. rewrite !length_insert. split; [done|].
  exists (fun k => if decide (k = i) then j else if decide (k = j) then i else k). split.
  - intros k1 k2. repeat case_decide; congruence.
  - intros k. pose proof (lookup_lt_Some _ _ _ Hi). pose proof (lookup_lt_Some _ _ _ Hj).
    destruct (decide (k = j)) as [->|Hkj]; [rewrite list_lookup_insert_eq by (rewrite length_insert; lia)|rewrite list_lookup_insert_ne by done];
      destruct (decide (_ = i)) as [Hki|]; subst; rewrite ?list_lookup_insert_eq, ?list_lookup_insert_ne by done; congruence.
Qed.

Lemma wp_swap l p q (Q : unit -> list A -> Prop) : 0 <= p < Z.of_nat (length l) -> 0 <= q < Z.of_nat (length l) ->
  (forall l', swapped p q l l' -> Q tt l') -> wp (swap p q) Q l.
Proof.
  intros Hp Hq HQ. destruct (at_is_Some l p Hp) as [x Hx]. destruct (at_is_Some l q Hq) as [y Hy].
  apply wp_bind, (wp_elem l p x); [done|]. apply wp_bind, (wp_elem l q y); [done|]. apply wp_modify, HQ.
  assert (Hin : forall r, 0 <= r -> at_ (<[Z.to_nat q := x]> (<[Z.to_nat p := y]> l)) r =
    if decide (r = q) then Some x else if decide (r = p) then Some y else at_ l r).
  { intros r Hr. rewrite at_insert by (rewrite ?length_insert; lia). by rewrite at_insert by lia. }
  split.
  - rewrite Hin by lia. repeat case_decide; congruence.
  - rewrite Hin by lia. repeat case_decide; congruence.
  - intros r Hrp Hrq. destruct (decide (0 <= r)); [rewrite Hin by lia; by rewrite !decide_False|]. unfold at_. by destruct (Z.ltb_spec r 0); [|lia].
  - symmetry. apply swap_perm; [apply at_Some in Hx|apply at_Some in Hy]; tauto.
Qed.

Lemma swapped_shuf p q b e l l' : swapped p q l l' -> b <= p < e -> b <= q < e -> shuf b e l l'.
Proof. intros S Hp Hq. split; [apply S|]. intros r Hr. apply (sw_out _ _ _ _ S); unfold outside in Hr; lia. Qed.

(** Two blocks of [n] elements are exchanged. *)
Lemma wp_vecswap n : forall l a c (Q : unit -> list A -> Prop), 0 <= a -> a + Z.of_nat n <= c -> c + Z.of_nat n <= Z.of_nat (length l) ->
  (forall l', l ≡ₚ l' -> (forall i, 0 <= i < Z.of_nat n -> at_ l' (a + i) = at_ l (c + i) /\ at_ l' (c + i) = at_ l (a + i)) ->
     (forall p, outside a (a + Z.of_nat n) p -> outside c (c + Z.of_nat n) p -> at_ l' p = at_ l p) -> Q tt l') ->
  wp (vecswap n a c) Q l.
Proof.
  unfold outside. induction n as [|n IH]; intros l a c Q Ha Hac Hc HQ; [apply wp_ret, HQ; [done|lia|done]|]. simpl. apply wp_bind, wp_swap; [lia|lia|].
  intros l1 S. pose proof (Permutation_length (sw_perm _ _ _ _ S)) as Hl. apply IH; [lia..|]. intros l' Hp Hi Ho. apply HQ; [by rewrite (sw_perm _ _ _ _ S)| |].
  - intros i Hr. destruct (decide (i = 0)) as [->|Hne].
    + rewrite !Z.add_0_r, !Ho by lia. split; apply S.
    + destruct (Hi (i - 1) ltac:(lia)) as [E1 E2]. replace (a + 1 + (i - 1)) with (a + i) in * by lia. replace (c + 1 + (i - 1)) with (c + i) in * by lia.
      rewrite E1, E2. split; apply (sw_out _ _ _ _ S); lia.
  - intros p H1 H2. rewrite Ho by lia. apply (sw_out _ _ _ _ S); lia.
Qed.
End Arrays.

(** * Sorting *)

(** A comparison function is a total preorder: this is what the application has to
    ensure. *)
Class Comparator {A} (compar : A -> A -> Z) : Prop := {
  compar_sym : forall a b, Z.sgn (compar a b) = - Z.sgn (compar b a);
  compar_trans : forall a b c, compar a b <= 0 -> compar b c <= 0 -> compar a c <= 0
}.

Section Sorting.
Context {A : Type} (compar : A -> A -> Z) `{Laws : !Comparator compar}.
Implicit Types (l : list A) (x y v : A) (b e p q : Z).

Definition le x y : Prop := compar x y <= 0.
Definition lt x y : Prop := compar x y < 0.
Definition eqv x y : Prop := compar x y = 0.

Lemma compar_refl x : compar x x = 0.
Proof using Laws. pose proof (compar_sym x x). lia. Qed.

Lemma le_refl x : le x x.
Proof using Laws. unfold le. rewrite compar_refl. lia. Qed.

Lemma flip_gt x y : 0 < compar x y <-> compar y x < 0.
Proof using Laws. pose proof (compar_sym x y). lia. Qed.

Lemma flip_eq x y : compar x y = 0 <-> compar y x = 0.
Proof using Laws. pose proof (compar_sym x y). lia. Qed.

(** The range is in order. *)
Definition sorted l b e : Prop := forall p q x y, b <= p < q -> q < e -> at_ l p = Some x -> at_ l q = Some y -> le x y.

Lemma wp_cmp l p q x y (Q : Z -> list A -> Prop) : at_ l p = Some x -> at_ l q = Some y -> Q (compar x y) l -> wp (cmp compar p q) Q l.
Proof. intros Hx Hy HQ. apply wp_bind, (wp_elem l p x); [done|]. apply wp_bind, (wp_elem l q y); [done|]. by apply wp_ret. Qed.

(** ** Insertion sort *)

(** The range up to [top] is in order without position [pl], whose element is not
    larger than those behind it. *)
Record sinking l b pl top : Prop := {
  sk_others : forall p q x y, b <= p < q -> q <= top -> p <> pl -> q <> pl -> at_ l p = Some x -> at_ l q = Some y -> le x y;
  sk_behind : forall q x y, pl < q <= top -> at_ l pl = Some x -> at_ l q = Some y -> le x y
}.

Lemma sinking_done l b pl top : sinking l b pl top -> (pl = b \/ exists x y, at_ l (pl - 1) = Some x /\ at_ l pl = Some y /\ le x y) -> b <= pl <= top ->
  sorted l b (top + 1).
Proof using Laws.
  intros [Ho Hb] Hend Hpl p q x y Hp Hq Hx Hy. destruct (decide (p = pl)) as [->|Hnp]; [by apply (Hb q); [lia|..]|].
  destruct (decide (q = pl)) as [->|Hnq]; [|by apply (Ho p q); [lia..| | | |]]. destruct Hend as [->|(u & w & Hu & Hw & Huw)]; [lia|].
  assert (y = w) as -> by congruence. destruct (decide (p = pl - 1)) as [->|]; [congruence|]. apply (compar_trans x u w); [|done].
  by apply (Ho p (pl - 1)); [lia..| |].
Qed.

Lemma sinking_step l l' b pl top x y : sinking l b pl top -> b < pl <= top -> swapped pl (pl - 1) l l' ->
  at_ l (pl - 1) = Some x -> at_ l pl = Some y -> le y x -> sinking l' b (pl - 1) top.
Proof.
  intros [Ho Hb] Hpl S Hx Hy Hle. pose proof (sw_l _ _ _ _ S) as E1. pose proof (sw_r _ _ _ _ S) as E2. rewrite Hx in E1. rewrite Hy in E2.
  assert (Hat : forall p u, p <> pl -> p <> pl - 1 -> at_ l' p = Some u -> at_ l p = Some u) by (intros p u H1 H2; by rewrite (sw_out _ _ _ _ S)).
  split.
  - intros p q u w Hp Hq Hnp Hnq Hu Hw. destruct (decide (p = pl)) as [->|]; [|destruct (decide (q = pl)) as [->|]].
    + rewrite E1 in Hu. injection Hu as <-. apply (Ho (pl - 1) q x w); [lia..|done|]. apply Hat; [lia..|done].
    + rewrite E1 in Hw. injection Hw as <-. apply (Ho p (pl - 1) u x); [lia..| |done]. apply Hat; [lia..|done].
    + apply (Ho p q); [lia..| |]; apply Hat; (lia || done).
  - intros q u w Hq Hu Hw. rewrite E2 in Hu. injection Hu as <-. destruct (decide (q = pl)) as [->|]; [congruence|].
    apply (Hb q y w); [lia|done|]. apply Hat; (lia || done).
Qed.

Lemma sink_ok b top : 0 <= b -> forall fuel pl l, sinking l b pl top -> b <= pl <= top -> top < Z.of_nat (length l) -> pl - b < Z.of_nat fuel ->
  wp (sink compar fuel b pl) (fun _ l' => shuf b (top + 1) l l' /\ sorted l' b (top + 1)) l.
Proof using Laws.
  intros H0. induction fuel as [|fuel IH]; intros pl l Hs Hpl Htop Hf; [lia|]. simpl. destruct (Z.ltb_spec b pl).
  2: { apply wp_ret. split; [apply shuf_refl|]. apply (sinking_done l b pl top Hs); [left; lia|done]. }
  destruct (at_is_Some l (pl - 1)) as [x Hx]; [lia|]. destruct (at_is_Some l pl) as [y Hy]; [lia|].
  apply wp_bind, (wp_cmp l (pl - 1) pl x y); [done|done|]. destruct (Z.ltb_spec 0 (compar x y)) as [Hgt|Hle].
  - apply wp_bind, wp_swap; [lia|lia|]. intros l1 S. pose proof (Permutation_length (sw_perm _ _ _ _ S)) as Hl.
    eapply wp_mono; [apply (IH (pl - 1) l1); [|lia|lia|lia]|].
    + apply (sinking_step l l1 b pl top x y); [done|lia|done|done|done|]. apply flip_gt in Hgt. unfold le. lia.
    + intros _ l2 [Hsh Hso]. split; [|done]. apply (shuf_trans _ _ l l1); [|done]. apply (swapped_shuf _ _ _ _ _ _ S); lia.
  - apply wp_ret. split; [apply shuf_refl|]. apply (sinking_done l b pl top Hs); [|lia]. right. by exists x, y.
Qed.

Lemma insertion_ok n : forall l b pm, 0 <= b -> b < pm -> pm + Z.of_nat n <= Z.of_nat (length l) -> sorted l b pm ->
  wp (insertion compar n b pm) (fun _ l' => shuf b (pm + Z.of_nat n) l l' /\ sorted l' b (pm + Z.of_nat n)) l.
Proof using Laws.
  induction n as [|n IH]; intros l b pm Hb Hpm Hl Hs.
  { apply wp_ret. rewrite Z.add_0_r. split; [apply shuf_refl|done]. }
  cbn [insertion]. apply wp_bind. eapply wp_mono; [apply (sink_ok b pm Hb); [|lia|lia|lia]|].
  - split; [intros p q x y ? ? ? ?; by apply Hs; lia|lia].
  - intros _ l1 [Hsh1 Hs1]. pose proof (shuf_length _ _ _ _ Hsh1). eapply wp_mono; [apply (IH l1 b (pm + 1)); [lia|lia|lia|done]|].
    intros _ l2 [Hsh2 Hs2]. replace (pm + Z.of_nat (S n)) with (pm + 1 + Z.of_nat n) by lia. split; [|done].
    apply (shuf_trans _ _ l l1); [|done]. eapply shuf_mono; [| |exact Hsh1]; lia.
Qed.

(** The whole range. *)
Lemma insertion_all l b nel : 0 <= b -> 0 <= nel -> b + nel <= Z.of_nat (length l) ->
  wp (insertion compar (Z.to_nat (nel - 1)) b (b + 1)) (fun _ l' => shuf b (b + nel) l l' /\ sorted l' b (b + nel)) l.
Proof using Laws.
  intros Hb Hn Hl. destruct (decide (nel = 0)) as [->|].
  - apply wp_ret. split; [apply shuf_refl|]. intros p q x y. lia.
  - replace (b + nel) with (b + 1 + Z.of_nat (Z.to_nat (nel - 1))) by lia. apply insertion_ok; [lia|lia|lia|]. intros p q x y. lia.
Qed.

(** ** The pivot *)

Lemma med3_ok l p q r (Q : Z -> list A -> Prop) (R : Z -> Prop) : (forall t, R t -> 0 <= t < Z.of_nat (length l)) ->
  R p -> R q -> R r -> (forall t, R t -> Q t l) -> wp (med3 compar p q r) Q l.
Proof.
  intros HR Hp Hq Hr HQ. destruct (at_is_Some l p (HR _ Hp)) as [x Hx], (at_is_Some l q (HR _ Hq)) as [y Hy], (at_is_Some l r (HR _ Hr)) as [z Hz].
  apply wp_bind, (wp_cmp l p q x y); [done|done|]. destruct (_ <? 0); apply wp_bind, (wp_cmp l q r y z); try done;
    (destruct (_ <? _); [apply wp_ret; by apply HQ|]); apply wp_bind, (wp_cmp l p r x z); try done; apply wp_ret; destruct (_ <? 0); by apply HQ.
Qed.

#[local] Ltac Zify.zify_post_hook ::= Z.to_euclidean_division_equations.

Lemma choose_ok l b nel (Q : Z -> list A -> Prop) : 0 <= b -> 7 <= nel -> b + nel <= Z.of_nat (length l) ->
  (forall p, b <= p < b + nel -> Q p l) -> wp (choose compar b nel) Q l.
Proof.
  intros Hb Hn Hl HQ. set (R := fun p => b <= p < b + nel). assert (HR : forall t, R t -> 0 <= t < Z.of_nat (length l)) by (unfold R; lia).
  unfold choose. destruct (Z.ltb_spec 7 nel); [|apply wp_ret, HQ; lia]. apply wp_bind. destruct (Z.ltb_spec 40 nel).
  - apply wp_bind, (med3_ok _ _ _ _ _ R); [done|unfold R; lia..|]. intros pl Hpl. apply wp_bind, (med3_ok _ _ _ _ _ R); [done|unfold R; lia..|].
    intros pm Hpm. apply wp_bind, (med3_ok _ _ _ _ _ R); [done|unfold R; lia..|]. intros pn Hpn. apply wp_ret.
    by apply (med3_ok _ _ _ _ _ R).
  - apply wp_ret, (med3_ok _ _ _ _ _ R); [done|unfold R; lia..|]. done.
Qed.

(** ** The partition *)

(** The elements equal to the pivot are at both ends; between them are the smaller
    ones, those not looked at yet, and the larger ones. *)
Record parts l b e v pa pb pc pd : Prop := {
  pt_pivot : at_ l b = Some v;
  pt_eql : all l b pa (fun x => compar x v = 0);
  pt_lt : all l pa pb (fun x => compar x v < 0);
  pt_gt : all l (pc + 1) (pd + 1) (fun x => 0 < compar x v);
  pt_eqr : all l (pd + 1) e (fun x => compar x v = 0);
  pt_order : 0 <= b < pa /\ pa <= pb <= pc + 1 /\ pc <= pd < e /\ e <= Z.of_nat (length l)
}.

(** A position of the array after an exchange. *)
#[local] Ltac swapped_at S p Hp i j :=
  destruct (decide (p = i)) as [->|]; [rewrite (sw_l _ _ _ _ S) in Hp|
    destruct (decide (p = j)) as [->|]; [rewrite (sw_r _ _ _ _ S) in Hp|rewrite (sw_out _ _ _ _ S) in Hp by done]].

(** The parts after [i] and [j] have been exchanged: each position has its element
    from where it was. *)
#[local] Ltac parts_tac S i j :=
  lazymatch goal with P : parts _ _ _ _ _ _ _ _ |- _ =>
    let P1 := fresh in let P2 := fresh in let P3 := fresh in let P4 := fresh in let P5 := fresh in let P6 := fresh in
    destruct P as [P1 P2 P3 P4 P5 P6]; split;
    [rewrite (sw_out _ _ _ _ S) by lia; exact P1|..|rewrite <- (Permutation_length (sw_perm _ _ _ _ S)); lia];
    let p := fresh "p" in let y := fresh "y" in let Hp := fresh "Hp" in let Hy := fresh "Hy" in
    intros p y Hp Hy; swapped_at S p Hy i j; try lia;
    first [by simplify_eq | assert (i = j) by lia; by simplify_eq | eapply P2; [|exact Hy]; lia | eapply P3; [|exact Hy]; lia | eapply P4; [|exact Hy]; lia | eapply P5; [|exact Hy]; lia]
  end.

Lemma parts_up_eq l l' b e v pa pb pc pd x : parts l b e v pa pb pc pd -> pb <= pc -> at_ l pb = Some x -> compar x v = 0 ->
  swapped pa pb l l' -> parts l' b e v (pa + 1) (pb + 1) pc pd.
Proof. intros P Hle Hx E S. parts_tac S pa pb. Qed.

Lemma parts_down_eq l l' b e v pa pb pc pd x : parts l b e v pa pb pc pd -> pb <= pc -> at_ l pc = Some x -> compar x v = 0 ->
  swapped pc pd l l' -> parts l' b e v pa pb (pc - 1) (pd - 1).
Proof. intros P Hle Hx E S. parts_tac S pc pd. Qed.

Lemma parts_cross l l' b e v pa pb pc pd x y : parts l b e v pa pb pc pd -> pb < pc -> at_ l pb = Some x -> 0 < compar x v ->
  at_ l pc = Some y -> compar y v < 0 -> swapped pb pc l l' -> parts l' b e v pa (pb + 1) (pc - 1) pd.
Proof. intros P Hlt Hx Ex Hy Ey S. parts_tac S pb pc. Qed.

Lemma parts_up_lt l b e v pa pb pc pd x : parts l b e v pa pb pc pd -> pb <= pc -> at_ l pb = Some x -> compar x v < 0 -> parts l b e v pa (pb + 1) pc pd.
Proof.
  intros [P1 P2 P3 P4 P5 P6] Hle Hx E. split; try done; [|lia]. intros p y Hp Hy.
  destruct (decide (p = pb)) as [->|]; [congruence|by apply (P3 p); [lia|]].
Qed.

Lemma parts_down_gt l b e v pa pb pc pd x : parts l b e v pa pb pc pd -> pb <= pc -> at_ l pc = Some x -> 0 < compar x v -> parts l b e v pa pb (pc - 1) pd.
Proof.
  intros [P1 P2 P3 P4 P5 P6] Hle Hx E. split; try done; [|lia]. intros p y Hp Hy.
  destruct (decide (p = pc)) as [->|]; [congruence|by apply (P4 p); [lia|]].
Qed.

Lemma scan_up_ok b e v pc pd : forall fuel l pa pb cnt, parts l b e v pa pb pc pd -> pc + 1 - pb < Z.of_nat fuel ->
  wp (scan_up compar fuel b pa pb pc cnt) (fun r l' => let '(pa', pb', cnt') := r in shuf b e l l' /\ parts l' b e v pa' pb' pc pd /\ pb <= pb' /\
    (pb' <= pc -> exists x, at_ l' pb' = Some x /\ 0 < compar x v)) l.
Proof.
  induction fuel as [|fuel IH]; intros l pa pb cnt P Hf; pose proof (pt_order _ _ _ _ _ _ _ _ P); [lia|]. simpl.
  destruct (Z.leb_spec pb pc) as [Hle|]; [|apply wp_ret; split; [apply shuf_refl|]; split; [done|]; lia].
  destruct (at_is_Some l pb) as [x Hx]; [lia|]. apply wp_bind, (wp_cmp l pb b x v); [done|apply P|].
  destruct (Z.leb_spec (compar x v) 0); [|apply wp_ret; split; [apply shuf_refl|]; split; [done|]; split; [lia|]; by exists x].
  destruct (Z.eqb_spec (compar x v) 0) as [E|].
  - apply wp_bind, wp_swap; [lia|lia|]. intros l1 S. eapply wp_mono; [apply (IH l1); [by apply (parts_up_eq l l1 b e v pa pb pc pd x)|lia]|].
    intros [[pa' pb'] cnt'] l2 (Hsh & P2 & Hpb & Hx2). split; [|split; [done|split; [lia|done]]].
    apply (shuf_trans _ _ l l1); [|done]. apply (swapped_shuf _ _ _ _ _ _ S); lia.
  - eapply wp_mono; [apply (IH l); [apply (parts_up_lt l b e v pa pb pc pd x); [done..|lia]|lia]|].
    intros [[pa' pb'] cnt'] l2 (Hsh & P2 & Hpb & Hx2). split; [done|split; [done|split; [lia|done]]].
Qed.

Lemma scan_down_ok b e v pa pb : forall fuel l pc pd cnt, parts l b e v pa pb pc pd -> pc + 1 - pb < Z.of_nat fuel ->
  (pb <= pc -> exists x, at_ l pb = Some x /\ 0 < compar x v) ->
  wp (scan_down compar fuel b pb pc pd cnt) (fun r l' => let '(pc', pd', cnt') := r in shuf b e l l' /\ parts l' b e v pa pb pc' pd' /\ pc' <= pc /\
    (pb <= pc' -> exists x y, at_ l' pb = Some x /\ 0 < compar x v /\ at_ l' pc' = Some y /\ compar y v < 0)) l.
Proof.
  induction fuel as [|fuel IH]; intros l pc pd cnt P Hf Hg; pose proof (pt_order _ _ _ _ _ _ _ _ P); [lia|]. simpl.
  destruct (Z.leb_spec pb pc) as [Hle|]; [|apply wp_ret; split; [apply shuf_refl|]; split; [done|]; lia].
  destruct (at_is_Some l pc) as [y Hy]; [lia|]. destruct (Hg Hle) as (x & Hx & Ex). apply wp_bind, (wp_cmp l pc b y v); [done|apply P|].
  destruct (Z.leb_spec 0 (compar y v)); [|apply wp_ret; split; [apply shuf_refl|]; split; [done|]; split; [lia|]; by exists x, y].
  destruct (Z.eqb_spec (compar y v) 0) as [E|].
  - apply wp_bind, wp_swap; [lia|lia|]. intros l1 S. assert (pb <> pc) by (intros ->; simplify_eq; lia).
    eapply wp_mono; [apply (IH l1); [by apply (parts_down_eq l l1 b e v pa pb pc pd y)|lia|]|].
    + intros _. exists x. split; [|done]. by rewrite (sw_out _ _ _ _ S) by lia.
    + intros [[pc' pd'] cnt'] l2 (Hsh & P2 & Hpc & Hx2). split; [|split; [done|split; [lia|done]]].
      apply (shuf_trans _ _ l l1); [|done]. apply (swapped_shuf _ _ _ _ _ _ S); lia.
  - eapply wp_mono; [apply (IH l); [apply (parts_down_gt l b e v pa pb pc pd y); [done..|lia]|lia|intros _; by exists x]|].
    intros [[pc' pd'] cnt'] l2 (Hsh & P2 & Hpc & Hx2). split; [done|split; [done|split; [lia|done]]].
Qed.

Lemma partition_ok b e v : forall fuel l pa pb pc pd cnt, parts l b e v pa pb pc pd -> pc + 1 - pb < Z.of_nat fuel ->
  wp (partition compar fuel b pa pb pc pd cnt) (fun r l' => let '(pa', pb', pc', pd', cnt') := r in
    shuf b e l l' /\ parts l' b e v pa' pb' pc' pd' /\ pb' = pc' + 1) l.
Proof.
  induction fuel as [|fuel IH]; intros l pa pb pc pd cnt P Hf; pose proof (pt_order _ _ _ _ _ _ _ _ P); [lia|]. cbn [partition].
  apply wp_bind. eapply wp_mono; [apply (scan_up_ok b e v pc pd _ l pa pb cnt P); lia|]. intros [[pa1 pb1] cnt1] l1 (Hsh1 & P1 & Hpb & Hg).
  apply wp_bind. eapply wp_mono; [apply (scan_down_ok b e v pa1 pb1 _ l1 pc pd cnt1 P1); [lia|done]|].
  intros [[pc2 pd2] cnt2] l2 (Hsh2 & P2 & Hpc & Hxy). pose proof (pt_order _ _ _ _ _ _ _ _ P2).
  pose proof (shuf_trans _ _ _ _ _ Hsh1 Hsh2) as Hsh. destruct (Z.ltb_spec pc2 pb1) as [Hlt|Hle].
  - apply wp_ret. split; [done|]. split; [done|lia].
  - destruct (Hxy Hle) as (x & y & Hx & Ex & Hy & Ey). assert (pb1 <> pc2) by (intros ->; simplify_eq; lia).
    apply wp_bind, wp_swap; [lia|lia|]. intros l3 S.
    eapply wp_mono; [apply (IH l3); [by apply (parts_cross l2 l3 b e v pa1 pb1 pc2 pd2 x y); [|lia|..]|lia]|].
    intros [[[[pa4 pb4] pc4] pd4] cnt4] l4 (Hsh4 & P4 & E4). split; [|done]. apply (shuf_trans _ _ l l2); [done|].
    apply (shuf_trans _ _ l2 l3); [|done]. apply (swapped_shuf _ _ _ _ _ _ S); lia.
Qed.

(** Two neighbouring blocks change places, up to the order inside them. *)
Lemma rotate_ok l b m e (P R : A -> Prop) (Q : unit -> list A -> Prop) : 0 <= b -> b <= m <= e -> e <= Z.of_nat (length l) ->
  all l b m P -> all l m e R ->
  (forall l', shuf b e l l' -> all l' b (b + (e - m)) R -> all l' (b + (e - m)) e P -> Q tt l') ->
  wp (vecswap (Z.to_nat (Z.min (m - b) (e - m))) b (e - Z.min (m - b) (e - m))) Q l.
Proof.
  intros Hb Hm He HP HR HQ. set (r := Z.min (m - b) (e - m)). assert (Hr : r = Z.min (m - b) (e - m)) by done. clearbody r.
  apply wp_vecswap; [lia..|]. intros l' Hp Hi Ho. rewrite Z2Nat.id in Hi, Ho by lia. unfold outside in Ho.
  assert (H1 : forall p, b <= p < b + r -> at_ l' p = at_ l (e - r + (p - b))).
  { intros p Hpr. destruct (Hi (p - b) ltac:(lia)) as [E _]. by replace (b + (p - b)) with p in E by lia. }
  assert (H2 : forall p, e - r <= p < e -> at_ l' p = at_ l (b + (p - (e - r)))).
  { intros p Hpr. destruct (Hi (p - (e - r)) ltac:(lia)) as [_ E]. by replace (e - r + (p - (e - r))) with p in E by lia. }
  apply HQ.
  - split; [done|]. unfold outside. intros p Hout. apply Ho; lia.
  - intros p x Hpr Hx. destruct (decide (p < b + r)); [rewrite H1 in Hx by lia; eapply HR; [|exact Hx]; lia|].
    rewrite Ho in Hx by lia. by apply (HR p); [lia|].
  - intros p x Hpr Hx. destruct (decide (e - r <= p)); [rewrite H2 in Hx by lia; eapply HP; [|exact Hx]; lia|].
    rewrite Ho in Hx by lia. by apply (HP p); [lia|].
Qed.

(** The smaller, the equal and the larger elements, [nl], the rest and [nr] of them. *)
Record split3 l b e v nl nr : Prop := {
  s3_lt : all l b (b + nl) (fun x => compar x v < 0);
  s3_eq : all l (b + nl) (e - nr) (fun x => compar x v = 0);
  s3_gt : all l (e - nr) e (fun x => 0 < compar x v)
}.

Lemma gather_ok l b e v pa pb pc pd (Q : unit -> list A -> Prop) : parts l b e v pa pb pc pd -> pb = pc + 1 ->
  (forall l', shuf b e l l' -> split3 l' b e v (pb - pa) (pd - pc) -> Q tt l') ->
  wp (let r := Z.min (pa - b) (pb - pa) in vecswap (Z.to_nat r) b (pb - r) ;;
      let r := Z.min (pd - pc) (e - pd - 1) in vecswap (Z.to_nat r) pb (e - r)) Q l.
Proof.
  intros [P1 P2 P3 P4 P5 P6] -> HQ. apply wp_bind. apply (rotate_ok l b pa (pc + 1) _ _ _ ltac:(lia) ltac:(lia) ltac:(lia) P2 P3).
  intros l1 Hsh1 A1 A2. pose proof (shuf_length _ _ _ _ Hsh1). cbv zeta.
  replace (pd - pc) with (pd + 1 - (pc + 1)) by lia. replace (e - pd - 1) with (e - (pd + 1)) by lia.
  apply (rotate_ok l1 (pc + 1) (pd + 1) e (fun x => 0 < compar x v) (fun x => compar x v = 0)); [lia|lia|lia|eapply shuf_keeps; [exact Hsh1|lia|done]..|].
  intros l2 Hsh2 A3 A4. apply HQ.
  - eapply shuf_trans; [eapply shuf_mono; [| |exact Hsh1]|eapply shuf_mono; [| |exact Hsh2]]; lia.
  - split.
    + eapply shuf_keeps; [exact Hsh2|lia|done].
    + apply (all_split _ _ (pc + 1)); [eapply shuf_keeps; [exact Hsh2|lia|done]|]. eapply all_mono; [exact A3|lia|lia].
    + eapply all_mono; [exact A4|lia|lia].
Qed.

Lemma split3_sorted l b e v nl nr : split3 l b e v nl nr -> sorted l b (b + nl) -> sorted l (e - nr) e -> sorted l b e.
Proof using Laws.
  intros [H1 H2 H3] S1 S2 p q x y Hp Hq Hx Hy.
  assert (Hlow : p < e - nr -> le x v).
  { intros Hlt. unfold le. destruct (decide (p < b + nl)); [pose proof (H1 p x ltac:(lia) Hx)|pose proof (H2 p x ltac:(lia) Hx)]; simpl in *; lia. }
  assert (Hhigh : b + nl <= q -> le v y).
  { intros Hle. unfold le. pose proof (flip_gt y v). pose proof (flip_eq y v).
    destruct (decide (q < e - nr)); [pose proof (H2 q y ltac:(lia) Hy)|pose proof (H3 q y ltac:(lia) Hy)]; simpl in *; lia. }
  destruct (decide (q < b + nl)); [apply (S1 p q x y); lia || done|]. destruct (decide (p < e - nr)); [|apply (S2 p q x y); lia || done].
  apply (compar_trans x v y); [apply Hlow|apply Hhigh]; lia.
Qed.

(** Rearranging one of the sides. *)
Lemma split3_left l l' b e v nl nr : 0 <= b -> b + nl <= e - nr -> 0 <= nr -> split3 l b e v nl nr -> shuf b (b + nl) l l' -> split3 l' b e v nl nr.
Proof.
  intros Hb Hn Hr [H1 H2 H3] S. split; [by eapply shuf_all|eapply shuf_keeps; [exact S| |done]; lia..].
Qed.

Lemma split3_right l l' b e v nl nr : 0 <= b -> b + nl <= e - nr -> 0 <= nl -> split3 l b e v nl nr -> shuf (e - nr) e l l' -> split3 l' b e v nl nr.
Proof.
  intros Hb Hn Hr [H1 H2 H3] S. split; [eapply shuf_keeps; [exact S| |done]; lia..|eapply shuf_all; [|done|done]; lia].
Qed.

Lemma sorted_keeps l l' b e b' e' : shuf b e l l' -> (e' <= b \/ e <= b') -> sorted l b' e' -> sorted l' b' e'.
Proof. intros [_ Ho] Hd Hs p q x y Hp Hq. rewrite !Ho by (unfold outside; lia). by apply Hs. Qed.

Definition sorts (c : M (list A) unit) b e : Prop := forall l, e <= Z.of_nat (length l) -> wp c (fun _ l' => shuf b e l l' /\ sorted l' b e) l.

(** A side is sorted if it has more than one element. *)
Lemma side_ok c b e n : e - b = n -> (1 < n -> sorts c b e) -> sorts (when (1 <? n) c) b e.
Proof.
  intros Hn Hc l Hl. destruct (Z.ltb_spec 1 n); [by apply Hc|]. apply wp_ret. split; [apply shuf_refl|]. intros p q x y. lia.
Qed.

Lemma sides_ok cl cr l b e v nl nr : 0 <= b -> 0 <= nl -> 0 <= nr -> b + nl <= e - nr -> e <= Z.of_nat (length l) -> split3 l b e v nl nr ->
  sorts cl b (b + nl) -> sorts cr (e - nr) e -> wp (cl ;; cr) (fun _ l' => shuf b e l l' /\ sorted l' b e) l.
Proof using Laws.
  intros Hb Hl Hr Hle He S3 Hcl Hcr. apply wp_bind. eapply wp_mono; [apply (Hcl l); lia|]. intros _ l1 [Sh1 So1].
  pose proof (shuf_length _ _ _ _ Sh1). eapply wp_mono; [apply (Hcr l1); lia|]. intros _ l2 [Sh2 So2]. split.
  - eapply shuf_trans; [eapply shuf_mono; [| |exact Sh1]|eapply shuf_mono; [| |exact Sh2]]; lia.
  - apply (split3_sorted l2 b e v nl nr); [|eapply sorted_keeps; [exact Sh2|lia|done]|done].
    eapply split3_right; [done|done|done| |exact Sh2]. by apply (split3_left l l1).
Qed.

Lemma qsort_from_ok : forall fuel l b nel, 0 <= b -> 0 <= nel -> b + nel <= Z.of_nat (length l) -> nel < Z.of_nat fuel ->
  wp (qsort_from compar fuel b nel) (fun _ l' => shuf b (b + nel) l l' /\ sorted l' b (b + nel)) l.
Proof using Laws.
  induction fuel as [|fuel IH]; intros l b nel Hb Hn Hl Hf; [lia|]. cbn [qsort_from].
  destruct (Z.ltb_spec nel 7); [by apply insertion_all|]. apply wp_bind, choose_ok; [lia|lia|lia|]. intros pm Hpm.
  apply wp_bind, wp_swap; [lia|lia|]. intros l1 S1. pose proof (Permutation_length (sw_perm _ _ _ _ S1)) as Hl1.
  pose proof (swapped_shuf _ _ b (b + nel) _ _ S1 ltac:(lia) ltac:(lia)) as Sh1. destruct (at_is_Some l1 b) as [v Hv]; [lia|].
  apply wp_bind. eapply wp_mono; [apply (partition_ok b (b + nel) v _ l1); [|lia]|].
  { split; [done|intros p x Hp Hx|intros p x Hp Hx; lia..|lia]. assert (p = b) as -> by lia. simplify_eq. apply compar_refl. }
  intros [[[[pa pb] pc] pd] cnt] l2 (Sh2 & P2 & Epb). pose proof (shuf_trans _ _ _ _ _ Sh1 Sh2) as Sh12.
  pose proof (pt_order _ _ _ _ _ _ _ _ P2). pose proof (shuf_length _ _ _ _ Sh12). destruct (Z.eqb_spec cnt 0) as [E|E].
  { eapply wp_mono; [apply (insertion_all l2); lia|]. intros _ l3 [Sh3 So3]. split; [by eapply shuf_trans|done]. }
  assert (Hall : wp ((let r := Z.min (pa - b) (pb - pa) in vecswap (Z.to_nat r) b (pb - r) ;;
      let r := Z.min (pd - pc) (b + nel - pd - 1) in vecswap (Z.to_nat r) pb (b + nel - r)) ;;
      (when (1 <? pb - pa) (qsort_from compar fuel b (pb - pa)) ;; when (1 <? pd - pc) (qsort_from compar fuel (b + nel - (pd - pc)) (pd - pc))))
    (fun _ l' => shuf b (b + nel) l l' /\ sorted l' b (b + nel)) l2).
  { apply wp_bind, (gather_ok _ _ _ _ _ _ _ _ _ P2 Epb). intros l3 Sh3 S3. pose proof (shuf_length _ _ _ _ Sh3).
    eapply wp_mono; [apply (sides_ok _ _ l3 b (b + nel) v (pb - pa) (pd - pc)); [lia..|done| |]|].
    - apply side_ok; [lia|]. intros Hlt l4 Hl4. apply IH; lia.
    - apply side_ok; [lia|]. intros Hlt l4 Hl4.
      eapply wp_mono; [apply (IH l4); lia|]. intros [] l5. by replace (b + nel - (pd - pc) + (pd - pc)) with (b + nel) by lia.
    - intros _ l4 [Sh4 So4]. split; [|done]. eapply shuf_trans; [exact Sh12|]. by eapply shuf_trans. }
  revert Hall. unfold wp, bind. cbv zeta. by destruct (vecswap _ b _ l2) as [[[] l3]|].
Qed.

(** ** The whole sort *)

Lemma sorted_segment l b e : 0 <= b -> sorted l b e -> StronglySorted le (take (Z.to_nat (e - b)) (drop (Z.to_nat b) l)).
Proof.
  intros Hb Hs. set (k := Z.to_nat (e - b)). set (s := take k (drop (Z.to_nat b) l)).
  assert (Hi : forall i j x y, (i < j)%nat -> s !! i = Some x -> s !! j = Some y -> le x y).
  { intros i j x y Hij Hx Hy. pose proof (lookup_lt_Some _ _ _ Hy) as Hj. unfold s in Hj, Hx, Hy. rewrite length_take in Hj.
    rewrite lookup_take_lt, lookup_drop in Hx by lia. rewrite lookup_take_lt, lookup_drop in Hy by lia.
    apply (Hs (b + Z.of_nat i) (b + Z.of_nat j)); [lia|lia|..]; rewrite at_is_lookup by lia.
    - by replace (Z.to_nat (b + Z.of_nat i)) with (Z.to_nat b + i)%nat by lia.
    - by replace (Z.to_nat (b + Z.of_nat j)) with (Z.to_nat b + j)%nat by lia. }
  clearbody s. induction s as [|x s IH]; constructor; [apply IH; intros i j u w Hij; apply (Hi (S i) (S j)); lia|].
  apply Forall_forall. intros y [j Hj]%list_elem_of_lookup. by apply (Hi 0%nat (S j)); [lia|..].
Qed.

Lemma qsort_ok pre seg post : wp (qsort compar (Z.of_nat (length pre)) (Z.of_nat (length seg))) (fun _ l' =>
  exists seg', l' = pre ++ seg' ++ post /\ seg ≡ₚ seg' /\ StronglySorted le seg') (pre ++ seg ++ post).
Proof using Laws.
  set (b := Z.of_nat (length pre)). set (n := Z.of_nat (length seg)). eapply wp_mono.
  - apply (qsort_from_ok _ _ b n); rewrite ?length_app; lia.
  - intros _ l' [Sh So]. destruct (shuf_cut b (b + n) _ _ ltac:(lia) Sh) as (E1 & E2 & Hp).
    apply sorted_segment in So; [|lia]. unfold b, n in *. replace (Z.of_nat (length pre) + Z.of_nat (length seg) - Z.of_nat (length pre)) with (Z.of_nat (length seg)) in * by lia.
    rewrite !Nat2Z.id in *. rewrite drop_app_length, drop_app_length in E2. rewrite take_app_length in E1. rewrite drop_app_length, take_app_length in Hp.
    exists (take (length seg) (drop (length pre) l')). split; [|done]. rewrite <- E1 at 1. rewrite <- E2. by rewrite !take_drop.
Qed.

(** C8: [qsort] sorts: for every array and every comparison function that is a total
    preorder it returns, the elements of the given range are a rearrangement of what
    they were and are in ascending order, and nothing outside the range changes. *)
Theorem qsort_sorts pre seg post : exists seg',
  qsort compar (Z.of_nat (length pre)) (Z.of_nat (length seg)) (pre ++ seg ++ post) = Some (tt, pre ++ seg' ++ post) /\
  seg ≡ₚ seg' /\ StronglySorted le seg'.
Proof using Laws.
  destruct (proj1 (wp_run _ _ _) (qsort_ok pre seg post)) as ([] & l' & E & seg' & -> & Hp & Hs). by exists seg'.
Qed.
End Sorting.

(** * Searching *)

Section Searching.
Context {A K : Type} (compar : K -> A -> Z).
Implicit Types (l : list A) (b e lower lim : Z) (key : K).

(** The elements that compare less than, equal to and greater than the key are in this
    order. *)
Definition in_order key l b e : Prop := forall p q x y, b <= p < q -> q < e -> at_ l p = Some x -> at_ l q = Some y ->
  (compar key x < 0 -> compar key y < 0) /\ (0 < compar key y -> 0 < compar key x).

#[local] Ltac Zify.zify_post_hook ::= Z.to_euclidean_division_equations.

Lemma bsearch_from_ok key l b e : 0 <= b -> e <= Z.of_nat (length l) -> in_order key l b e ->
  forall fuel lower lim, b <= lower -> 0 <= lim -> lower + lim <= e -> lim < Z.of_nat fuel ->
  all l b lower (fun x => 0 < compar key x) -> all l (lower + lim) e (fun x => compar key x < 0) ->
  wp (bsearch_from compar fuel key lower lim) (fun r l' => l' = l /\ match r with
    | Some p => b <= p < e /\ exists x, at_ l p = Some x /\ compar key x = 0
    | None => all l b e (fun x => compar key x <> 0)
    end) l.
Proof.
  intros Hb He Ho. induction fuel as [|fuel IH]; intros lower lim Hlo Hlim Hhi Hf A1 A2; [lia|]. cbn [bsearch_from].
  destruct (Z.eqb_spec lim 0) as [->|Hne].
  { apply wp_ret. split; [done|]. rewrite Z.add_0_r in A2. apply (all_split _ _ lower); intros p x Hp Hx; [apply A1 in Hx|apply A2 in Hx]; lia || done. }
  rewrite !Z.shiftr_div_pow2 by lia. change (2 ^ 1) with 2. set (middle := lower + lim / 2). assert (Hm : middle = lower + lim / 2) by done. clearbody middle.
  destruct (at_is_Some l middle) as [a Ha]; [lia|]. apply wp_bind, (wp_elem l middle a); [done|].
  destruct (Z.eqb_spec (compar key a) 0) as [E|E]; [apply wp_ret; split; [done|]; split; [lia|]; by exists a|].
  destruct (Z.ltb_spec 0 (compar key a)).
  - apply IH; [lia..| |].
    + apply (all_split _ _ lower); [done|]. intros p x Hp Hx. destruct (decide (p = middle)) as [->|]; [congruence|].
      by apply (Ho p middle x a); [lia|lia|..].
    + eapply all_mono; [exact A2|lia|lia].
  - apply IH; [lia..|done|]. apply (all_split _ _ (lower + lim)); [|done]. intros p x Hp Hx.
    destruct (decide (p = middle)) as [->|]; [|by apply (Ho middle p a x); [lia|lia|..|lia]]. assert (x = a) as -> by congruence. lia.
Qed.
End Searching.

Section SortSearch.
Context {A : Type} (compar : A -> A -> Z) `{Laws : !Comparator compar}.

(** Sorted by the function with which it is searched. *)
Lemma sorted_in_order key (l : list A) : StronglySorted (le compar) l -> in_order compar key l 0 (Z.of_nat (length l)).
Proof using Laws.
  intros Hs p q x y Hp Hq [_ Hx]%at_Some [_ Hy]%at_Some.
  assert (Hle : compar x y <= 0).
  { clear Hq. replace (Z.to_nat q) with (Z.to_nat p + S (Z.to_nat q - Z.to_nat p - 1))%nat in Hy by lia. revert Hx Hy.
    generalize (Z.to_nat p) as i, (Z.to_nat q - Z.to_nat p - 1)%nat as k. clear Hp. induction Hs as [|a l _ IH Hl]; intros i k Hx Hy; [done|].
    destruct i as [|i]; simpl in *; [|by apply (IH i k)]. injection Hx as ->. rewrite Forall_forall in Hl. apply Hl. by eapply list_elem_of_lookup_2. }
  pose proof (compar_sym x y). pose proof (compar_sym key x). pose proof (compar_sym key y).
  pose proof (compar_trans key x y). pose proof (compar_trans x y key). pose proof (compar_trans y key x). pose proof (compar_trans y x key). lia.
Qed.

(** C35: An array that [qsort] has sorted can be searched with [bsearch] and the same
    comparison function: the search returns, and finds an element equal to the key
    exactly when the array had one before it was sorted. *)
Theorem qsort_bsearch (l : list A) (key : A) : let n := Z.of_nat (length l) in exists r l',
  (qsort compar 0 n ;; bsearch compar key 0 n) l = Some (r, l') /\ l ≡ₚ l' /\
  match r with
  | Some p => exists x, at_ l' p = Some x /\ compar key x = 0
  | None => forall x, x ∈ l -> compar key x <> 0
  end.
Proof using Laws.
  intros n. apply wp_run, wp_bind. pose proof (qsort_ok compar [] l []) as Hq. rewrite app_nil_r in Hq. simpl in Hq.
  eapply wp_mono; [exact Hq|]. intros _ l' (l1 & -> & Hp & Hs). simpl. rewrite app_nil_r. pose proof (Permutation_length Hp).
  eapply wp_mono; [apply (bsearch_from_ok compar key l1 0 n); [lia|lia| |lia..| |]|].
  - replace n with (Z.of_nat (length l1)) by lia. by apply sorted_in_order.
  - intros p x. lia.
  - intros p x. lia.
  - intros [p|] l2 [-> Hr]; (split; [done|]); [tauto|]. intros x Hx. rewrite Hp in Hx. apply list_elem_of_lookup in Hx as [i Hi].
    pose proof (lookup_lt_Some _ _ _ Hi). apply (Hr (Z.of_nat i)); [lia|]. by rewrite at_is_lookup, Nat2Z.id by lia.
Qed.
End SortSearch.

(** * An instance *)

#[export] Instance sub_comparator : Comparator Z.sub.
Proof. split; intros; lia. Qed.

(** 45 numbers, with equal ones. *)
Definition demo_array : list Z := (fun i => (i * 37) mod 23) <$> seqZ 0 45.

Lemma qsort_sorts_witness :
  (exists seg', qsort Z.sub 2 45 ([9; 7] ++ demo_array ++ [3]) = Some (tt, [9; 7] ++ seg' ++ [3]) /\ StronglySorted (le Z.sub) seg') /\
  match qsort Z.sub 2 45 ([9; 7] ++ demo_array ++ [3]) with Some (_, l) => take 8 l = [9; 7; 0; 0; 1; 1; 2; 2] | None => False end.
Proof.
  split; [|vm_compute; done]. destruct (qsort_sorts Z.sub [9; 7] demo_array [3]) as (seg' & E & _ & Hs). exists seg'. exact (conj E Hs).
Defined.

Lemma qsort_bsearch_witness :
  (exists r l', (qsort Z.sub 0 45 ;; bsearch Z.sub 17 0 45) demo_array = Some (r, l')) /\
  match (qsort Z.sub 0 45 ;; bsearch Z.sub 17 0 45) demo_array with Some (Some p, l) => at_ l p = Some 17 | _ => False end.
Proof.
  split; [|vm_compute; done]. destruct (qsort_bsearch Z.sub demo_array 17) as (r & l' & E & _). exists r, l'. exact E.
Defined.
