(* ===== verification/QsortMem.v ===== *)
(** QsortMem: how [qsort] exchanges elements in memory, word by word when the array
    allows it and byte by byte otherwise (the macros of libs/libc/stdlib/lib_qsort.c),
    and that this is the exchange of elements of Qsort. *)

From stdpp Require Import options.
From S2P Require Import Prelude Qsort.

(** * The routines *)

Definition sizeof_long : Z := 4.

(** Memory is a list of bytes, and an address a position.  Objects of [sz] bytes have
    to be aligned and inside. *)
Abbreviation BM := (M (list Z)).

Definition rd (sz a : Z) : BM (list Z) :=
  getso (fun m => if (0 <=? a) && (a + sz <=? Z.of_nat (length m)) && (a mod sz =? 0) then Some (take (Z.to_nat sz) (drop (Z.to_nat a) m)) else None).

Definition wr (a : Z) (bs : list Z) : BM unit :=
  modify (fun m => take (Z.to_nat a) m ++ bs ++ drop (Z.to_nat a + length bs) m).

(** One exchange of objects of [sz] bytes. *)
Definition exchange (sz pi pj : Z) : BM unit :=
  t <- rd sz pi ;; u <- rd sz pj ;; wr pi u ;; wr pj t.

(** The loop runs once more than [k] times. *)
Fixpoint swap_loop (sz : Z) (k : nat) (pi pj : Z) : BM unit :=
  exchange sz pi pj ;; match k with O => ret tt | S k => swap_loop sz k (pi + sz) (pj + sz) end.

Definition swapcode (sz pi pj n : Z) : BM unit := swap_loop sz (Z.to_nat (n / sz - 1)) pi pj.

Definition swapfunc (a b n swaptype : Z) : BM unit :=
  if swaptype <=? 1 then swapcode sizeof_long a b n else swapcode 1 a b n.

Definition SWAPINIT (a width : Z) : Z :=
  if negb (a mod sizeof_long =? 0) || negb (width mod sizeof_long =? 0) then 2 else if width =? sizeof_long then 0 else 1.

Definition swap_macro (swaptype width a b : Z) : BM unit :=
  if swaptype =? 0 then exchange sizeof_long a b else swapfunc a b width swaptype.

Definition vecswap_macro (swaptype a b n : Z) : BM unit := when (0 <? n) (swapfunc a b n swaptype).

(** * Exchanges, position by position *)

Section Exchanges.
Context {A : Type}.
Implicit Types (m : list A) (a b n p : Z).

(** The [n] elements from [a] on and those from [b] on are exchanged. *)
Definition exch a b n m m' : Prop := length m' = length m /\ forall p,
  at_ m' p = if decide (a <= p < a + n) then at_ m (b + (p - a)) else if decide (b <= p < b + n) then at_ m (a + (p - b)) else at_ m p.

Lemma at_ext m m' : length m' = length m -> (forall p, 0 <= p < Z.of_nat (length m) -> at_ m' p = at_ m p) -> m' = m.
Proof.
  intros Hl Hp. apply list_eq. intros i. destruct (decide (i < length m)%nat); [|by rewrite !lookup_ge_None_2 by lia].
  specialize (Hp (Z.of_nat i) ltac:(lia)). by rewrite !at_is_lookup, Nat2Z.id in Hp by lia.
Qed.

Lemma at_app m1 m2 p : at_ (m1 ++ m2) p = if decide (p < Z.of_nat (length m1)) then at_ m1 p else at_ m2 (p - Z.of_nat (length m1)).
Proof.
  unfold at_. destruct (Z.ltb_spec p 0); destruct (decide _); destruct (Z.ltb_spec (p - Z.of_nat (length m1)) 0); try lia; try done.
  - by rewrite lookup_app_l by lia.
  - rewrite lookup_app_r by lia. f_equal. lia.
Qed.

Lemma at_take_drop m (i k : nat) p : 0 <= p < Z.of_nat k -> at_ (take k (drop i m)) p = at_ m (Z.of_nat i + p).
Proof. intros Hp. rewrite !at_is_lookup, lookup_take_lt, lookup_drop by lia. f_equal. lia. Qed.

Lemma at_overwrite m bs a p : 0 <= a -> a + Z.of_nat (length bs) <= Z.of_nat (length m) ->
  at_ (take (Z.to_nat a) m ++ bs ++ drop (Z.to_nat a + length bs) m) p = if decide (a <= p < a + Z.of_nat (length bs)) then at_ bs (p - a) else at_ m p.
Proof.
  intros Ha Hl. rewrite !at_app, length_take. replace (Z.of_nat (Z.to_nat a `min` length m)) with a by lia.
  destruct (decide (p < a)); [rewrite decide_False by lia|].
  - unfold at_. destruct (Z.ltb_spec p 0); [done|]. by rewrite lookup_take_lt by lia.
  - destruct (decide (p - a < _)); [by rewrite decide_True by lia|]. rewrite decide_False by lia. rewrite !at_is_lookup, lookup_drop by lia. f_equal. lia.
Qed.

Lemma exch_trans a b n1 n2 m m1 m2 : 0 <= n1 -> 0 <= n2 -> a = b \/ a + n1 + n2 <= b \/ b + n1 + n2 <= a -> exch a b n1 m m1 -> exch (a + n1) (b + n1) n2 m1 m2 ->
  exch a b (n1 + n2) m m2.
Proof.
  intros H1 H2 Hd [L1 E1] [L2 E2]. split; [lia|]. intros p. rewrite E2.
  repeat case_decide; rewrite E1; repeat case_decide; try lia; f_equal; lia.
Qed.
End Exchanges.

Lemma exchange_ok sz a b (m : list Z) (Q : unit -> list Z -> Prop) : 0 < sz -> 0 <= a -> 0 <= b -> a mod sz = 0 -> b mod sz = 0 ->
  a + sz <= Z.of_nat (length m) -> b + sz <= Z.of_nat (length m) -> a = b \/ a + sz <= b \/ b + sz <= a ->
  (forall m', exch a b sz m m' -> Q tt m') -> wp (exchange sz a b) Q m.
Proof.
  intros Hsz Ha Hb Aa Ab La Lb Hd HQ.
  assert (Hrd : forall c (R : list Z -> list Z -> Prop), 0 <= c -> c mod sz = 0 -> c + sz <= Z.of_nat (length m) ->
    R (take (Z.to_nat sz) (drop (Z.to_nat c) m)) m -> wp (rd sz c) R m).
  { intros c R Hc Ac Lc HR. eapply wp_getso; [|exact HR]. rewrite !(proj2 (Z.leb_le _ _)) by lia. by rewrite (proj2 (Z.eqb_eq _ _) Ac). }
  apply wp_bind, Hrd; [done..|]. apply wp_bind, Hrd; [done..|]. apply wp_bind, wp_modify, wp_modify, HQ.
  set (t := take _ (drop (Z.to_nat a) m)). set (u := take _ (drop (Z.to_nat b) m)).
  assert (Ht : Z.of_nat (length t) = sz) by (unfold t; rewrite length_take, length_drop; lia).
  assert (Hu : Z.of_nat (length u) = sz) by (unfold u; rewrite length_take, length_drop; lia).
  set (m1 := take (Z.to_nat a) m ++ u ++ _). assert (L1 : length m1 = length m).
  { unfold m1. rewrite !length_app, length_take, length_drop. lia. }
  split; [rewrite !length_app, length_take, length_drop; lia|]. intros p. rewrite at_overwrite by lia. unfold m1. rewrite at_overwrite by lia.
  rewrite Ht, Hu. repeat case_decide; try lia; unfold t, u; rewrite ?at_take_drop by lia; f_equal; lia.
Qed.

Lemma swap_loop_ok sz k : forall a b (m : list Z) (Q : unit -> list Z -> Prop), 0 < sz -> 0 <= a -> 0 <= b -> a mod sz = 0 -> b mod sz = 0 ->
  let n := sz * Z.of_nat (S k) in
  a + n <= Z.of_nat (length m) -> b + n <= Z.of_nat (length m) -> a = b \/ a + n <= b \/ b + n <= a ->
  (forall m', exch a b n m m' -> Q tt m') -> wp (swap_loop sz k a b) Q m.
Proof.
  induction k as [|k IH]; intros a b m Q Hsz Ha Hb Aa Ab n La Lb Hd HQ; cbn [swap_loop].
  - replace n with sz in * by lia. apply wp_bind, exchange_ok; [done..|]. intros m' Hm'. by apply wp_ret, HQ.
  - replace n with (sz + sz * Z.of_nat (S k)) in * by lia. apply wp_bind, exchange_ok; [lia..|]. intros m1 H1.
    assert (Hmod : forall c, c mod sz = 0 -> (c + sz) mod sz = 0) by (intros c Hc; rewrite <- (Z.mul_1_l sz) at 1; by rewrite Z_mod_plus_full).
    apply (IH (a + sz) (b + sz) m1); [lia|lia|lia|by apply Hmod|by apply Hmod|rewrite (proj1 H1); lia|rewrite (proj1 H1); lia|lia|].
    intros m2 H2. apply HQ. by apply (exch_trans a b sz _ m m1 m2); [lia|lia|lia|..].
Qed.

(** * Arrays of elements *)

Section Elements.
Context (w : Z) (Hw : 0 < w).
Implicit Types (l : list (list Z)) (i j n p q k : Z).

(** Every element has [w] bytes. *)
Definition sized l : Prop := Forall (fun x => Z.of_nat (length x) = w) l.

Lemma sized_length l : sized l -> Z.of_nat (length (concat l)) = Z.of_nat (length l) * w.
Proof using. induction 1 as [|x l Hx _ IH]; [done|]. simpl. rewrite length_app. lia. Qed.

Lemma at_concat l : sized l -> forall q k x, 0 <= q -> 0 <= k < w -> at_ l q = Some x -> at_ (concat l) (q * w + k) = at_ x k.
Proof using Hw.
  induction 1 as [|y l Hy _ IH]; intros q k x Hq Hk Hx; [by apply at_range in Hx; simpl in Hx; lia|]. simpl. rewrite at_app, Hy.
  destruct (decide (q = 0)) as [->|].
  - rewrite decide_True by lia. rewrite at_is_lookup in Hx by lia. injection Hx as ->. f_equal.
  - rewrite decide_False by nia. replace (q * w + k - w) with ((q - 1) * w + k) by lia. apply (IH (q - 1) k x); [lia|done|].
    rewrite at_is_lookup in * by lia. by replace (Z.to_nat q) with (S (Z.to_nat (q - 1))) in Hx by lia.
Qed.

Definition mem_of (pre post : list Z) l : list Z := pre ++ concat l ++ post.

Lemma at_mem pre post l q k x : sized l -> 0 <= q -> 0 <= k < w -> at_ l q = Some x ->
  at_ (mem_of pre post l) (Z.of_nat (length pre) + q * w + k) = at_ x k.
Proof using Hw.
  intros Hs Hq Hk Hx. pose proof (at_range _ _ _ Hx). unfold mem_of. rewrite !at_app, decide_False by nia.
  pose proof (sized_length l Hs). replace (Z.of_nat (length pre) + q * w + k - Z.of_nat (length pre)) with (q * w + k) by lia.
  rewrite decide_True by nia. by apply at_concat.
Qed.

Lemma at_mem_outside pre post l l' p : sized l -> sized l' -> length l' = length l ->
  ~ (Z.of_nat (length pre) <= p < Z.of_nat (length pre) + Z.of_nat (length l) * w) -> at_ (mem_of pre post l') p = at_ (mem_of pre post l) p.
Proof using Hw.
  intros Hs Hs' Hl Hp. pose proof (sized_length l Hs). pose proof (sized_length l' Hs'). unfold mem_of. rewrite !at_app.
  repeat case_decide; try lia; try done. f_equal. lia.
Qed.

Lemma exch_sized i j n l l' : sized l -> exch i j n l l' -> sized l'.
Proof using.
  intros Hs [Hl E]. apply Forall_forall. intros x [c Hc]%list_elem_of_lookup. specialize (E (Z.of_nat c)). rewrite at_is_lookup, Nat2Z.id, Hc in E by lia.
  symmetry in E. assert (Hin : exists p, at_ l p = Some x) by (repeat case_decide; eauto).
  destruct Hin as [p [_ Hp]%at_Some]. by apply (Forall_lookup_1 _ _ _ _ Hs Hp).
Qed.

Lemma exch_mem pre post i j n l l' m' : sized l -> 0 <= i -> 0 <= j -> 0 <= n -> i + n <= Z.of_nat (length l) -> j + n <= Z.of_nat (length l) ->
  exch i j n l l' -> exch (Z.of_nat (length pre) + i * w) (Z.of_nat (length pre) + j * w) (n * w) (mem_of pre post l) m' -> m' = mem_of pre post l'.
Proof using Hw.
  intros Hs Hi Hj Hn Li Lj El Em. pose proof (exch_sized i j n l l' Hs El) as Hs'. destruct El as [Ll El], Em as [Lm Em].
  pose proof (sized_length l Hs). pose proof (sized_length l' Hs').
  assert (Hlen : length (mem_of pre post l') = length (mem_of pre post l)) by (unfold mem_of; rewrite !length_app; lia).
  apply at_ext; [lia|]. intros p _. set (base := Z.of_nat (length pre)) in *.
  destruct (decide (base <= p < base + Z.of_nat (length l) * w)) as [Hin|Hout].
  2: { rewrite (at_mem_outside pre post l l') by done. rewrite Em, !decide_False by nia. done. }
  set (q := (p - base) / w). set (k := (p - base) mod w). assert (Hk : 0 <= k < w) by (by apply Z.mod_pos_bound).
  assert (Hp : p = base + q * w + k) by (pose proof (Z.div_mod (p - base) w ltac:(lia)); unfold q, k; lia). clearbody q k. subst p.
  assert (Hq : 0 <= q < Z.of_nat (length l)) by nia. destruct (at_is_Some l' q) as [x Hx]; [lia|]. trans (at_ x k); [|symmetry; apply (at_mem pre post l' q k x); (done || lia)].
  rewrite Em. rewrite El in Hx. destruct (decide (i <= q < i + n)); [rewrite decide_True by nia|rewrite decide_False by nia;
    destruct (decide (j <= q < j + n)); [rewrite decide_True by nia|rewrite decide_False by nia]].
  - replace (base + j * w + (base + q * w + k - (base + i * w))) with (base + (j + (q - i)) * w + k) by lia. apply at_mem; [done|lia|done|done].
  - replace (base + i * w + (base + q * w + k - (base + j * w))) with (base + (i + (q - j)) * w + k) by lia. apply at_mem; [done|lia|done|done].
  - apply at_mem; [done|lia|done|done].
Qed.

(** The exchange of elements, as in Qsort. *)
Lemma swapped_exch i j l l' : 0 <= i -> 0 <= j -> swapped i j l l' -> exch i j 1 l l'.
Proof using.
  intros Hi Hj S. split; [by rewrite <- (Permutation_length (sw_perm _ _ _ _ S))|]. intros p. repeat case_decide.
  - replace p with i by lia. rewrite (sw_l _ _ _ _ S). f_equal. lia.
  - replace p with j by lia. rewrite (sw_r _ _ _ _ S). f_equal. lia.
  - apply (sw_out _ _ _ _ S); lia.
Qed.

Lemma swapfunc_ok pre post l i j n (Q : unit -> list Z -> Prop) : let base := Z.of_nat (length pre) in sized l ->
  0 <= i -> 0 <= j -> 0 < n -> i + n <= Z.of_nat (length l) -> j + n <= Z.of_nat (length l) -> i = j \/ i + n <= j \/ j + n <= i ->
  (forall m', exch (base + i * w) (base + j * w) (n * w) (mem_of pre post l) m' -> Q tt m') ->
  wp (swapfunc (base + i * w) (base + j * w) (n * w) (SWAPINIT base w)) Q (mem_of pre post l).
Proof using Hw.
  intros base Hs Hi Hj Hn Li Lj Hd HQ. pose proof (sized_length l Hs).
  assert (Hlen : base + Z.of_nat (length l) * w <= Z.of_nat (length (mem_of pre post l))) by (unfold mem_of, base; rewrite !length_app; lia).
  assert (Hgo : forall sz, 0 < sz -> base mod sz = 0 -> w mod sz = 0 -> wp (swapcode sz (base + i * w) (base + j * w) (n * w)) Q (mem_of pre post l)).
  { intros sz Hsz Hb Hm. apply Z.mod_divide in Hm as [c Hc]; [|lia]. assert (Hal : forall x, (base + x * w) mod sz = 0).
    { intros x. rewrite Hc, Z.mul_assoc, Z_mod_plus_full. done. }
    unfold swapcode. assert (E : n * w / sz = n * c) by (rewrite Hc, Z.mul_assoc, Z.div_mul by lia; done). rewrite E.
    assert (Hnc : 1 <= n * c) by nia. assert (En : sz * Z.of_nat (S (Z.to_nat (n * c - 1))) = n * w) by (rewrite Nat2Z.inj_succ, Z2Nat.id, Hc by lia; ring).
    apply swap_loop_ok; rewrite ?En; try apply Hal; try done; try (unfold base; nia). }
  unfold swapfunc, SWAPINIT. destruct (Z.eqb_spec (base mod sizeof_long) 0), (Z.eqb_spec (w mod sizeof_long) 0); simpl;
    [destruct (w =? sizeof_long); by apply Hgo|apply Hgo; try done; apply Z.mod_1_r..].
Qed.

(** One exchange with the single word access that elements of the size of a word
    have. *)
Lemma swap_macro_ok pre post l i j (Q : unit -> list Z -> Prop) : let base := Z.of_nat (length pre) in sized l ->
  0 <= i < Z.of_nat (length l) -> 0 <= j < Z.of_nat (length l) ->
  (forall m', exch (base + i * w) (base + j * w) (1 * w) (mem_of pre post l) m' -> Q tt m') ->
  wp (swap_macro (SWAPINIT base w) w (base + i * w) (base + j * w)) Q (mem_of pre post l).
Proof using Hw.
  intros base Hs Hi Hj HQ. assert (Hf : wp (swapfunc (base + i * w) (base + j * w) (1 * w) (SWAPINIT base w)) Q (mem_of pre post l)).
  { apply swapfunc_ok; (done || lia). }
  rewrite Z.mul_1_l in Hf. unfold swap_macro. destruct (Z.eqb_spec (SWAPINIT base w) 0) as [E|]; [|done]. rewrite E in Hf.
  assert (w = sizeof_long) as Ew.
  { unfold SWAPINIT in E. destruct (_ || _); [done|]. by destruct (Z.eqb_spec w sizeof_long). }
  rewrite <- Ew. unfold swapfunc, swapcode in Hf. rewrite <- Ew in Hf. change (0 <=? 1) with true in Hf. cbn iota in Hf.
  rewrite Z.div_same in Hf by lia. change (Z.to_nat (1 - 1)) with O in Hf. cbn [swap_loop] in Hf. revert Hf. unfold wp, bind. by destruct (exchange w _ _ _) as [[[] m']|].
Qed.

(** C34: Exchanging elements in memory, whether as one word, word by word or byte by
    byte, is exchanging elements of the array: for elements of any size and an array
    at any address, the accesses are aligned and inside of the array, all bytes of both
    elements change places, and no other byte of memory changes; likewise for two
    blocks of elements that do not overlap. *)
Theorem exchange_refines pre post l : let base := Z.of_nat (length pre) in sized l ->
  (forall i j, 0 <= i < Z.of_nat (length l) -> 0 <= j < Z.of_nat (length l) -> exists l', swap i j l = Some (tt, l') /\
     swap_macro (SWAPINIT base w) w (base + i * w) (base + j * w) (mem_of pre post l) = Some (tt, mem_of pre post l')) /\
  (forall i j n, 0 <= i -> 0 <= n -> i + n <= j -> j + n <= Z.of_nat (length l) -> exists l', vecswap (Z.to_nat n) i j l = Some (tt, l') /\
     vecswap_macro (SWAPINIT base w) (base + i * w) (base + j * w) (n * w) (mem_of pre post l) = Some (tt, mem_of pre post l')).
Proof using Hw.
  intros base Hs. split.
  - intros i j Hi Hj. assert (H1 : wp (swap i j) (fun _ l' => exch i j 1 l l') l).
    { apply wp_swap; [lia|lia|]. intros l' S. apply swapped_exch; [lia|lia|done]. }
    apply wp_run in H1 as ([] & l' & E & Ex). exists l'. split; [done|].
    assert (H2 : wp (swap_macro (SWAPINIT base w) w (base + i * w) (base + j * w)) (fun _ m' => m' = mem_of pre post l') (mem_of pre post l)).
    { apply swap_macro_ok; [done..|]. intros m' Em. by apply (exch_mem pre post i j 1 l); [|lia..| |]. }
    apply wp_run in H2 as ([] & m' & E' & ->). done.
  - intros i j n Hi Hn Hij Hj. assert (H1 : wp (vecswap (Z.to_nat n) i j) (fun _ l' => exch i j n l l') l).
    { apply wp_vecswap; [lia..|]. intros l' Hp Hx Ho. unfold outside in Ho. split; [by rewrite <- (Permutation_length Hp)|].
      intros p. repeat case_decide; [..|apply Ho; lia].
      - destruct (Hx (p - i) ltac:(lia)) as [E _]. by replace (i + (p - i)) with p in E by lia.
      - destruct (Hx (p - j) ltac:(lia)) as [_ E]. by replace (j + (p - j)) with p in E by lia. }
    apply wp_run in H1 as ([] & l' & E & Ex). exists l'. split; [done|].
    assert (H2 : wp (vecswap_macro (SWAPINIT base w) (base + i * w) (base + j * w) (n * w)) (fun _ m' => m' = mem_of pre post l') (mem_of pre post l)).
    { unfold vecswap_macro. destruct (Z.ltb_spec 0 (n * w)).
      - apply swapfunc_ok; [done|nia..|]. intros m' Em. by apply (exch_mem pre post i j n l); [|lia..| |].
      - apply wp_ret. assert (n = 0) as -> by nia. f_equal. apply at_ext; [symmetry; apply Ex|]. intros p _. destruct Ex as [_ Ex]. rewrite Ex.
        by rewrite !decide_False by lia. }
    apply wp_run in H2 as ([] & m' & E' & ->). done.
Qed.
End Elements.

(** Elements of eight bytes behind four other ones, and of three bytes behind one. *)
Lemma exchange_refines_witness :
  let l8 := (fun i => (fun k => 10 * i + k) <$> seqZ 0 8) <$> seqZ 0 5 in
  let l3 := (fun i => (fun k => 10 * i + k) <$> seqZ 0 3) <$> seqZ 0 5 in
  (SWAPINIT 4 8 = 1 /\ exists l', swap 1 3 l8 = Some (tt, l') /\
     swap_macro 1 8 (4 + 1 * 8) (4 + 3 * 8) (mem_of [9; 9; 9; 9] [7] l8) = Some (tt, mem_of [9; 9; 9; 9] [7] l')) /\
  (SWAPINIT 1 3 = 2 /\ exists l', vecswap 2 0 3 l3 = Some (tt, l') /\
     vecswap_macro 2 (1 + 0 * 3) (1 + 3 * 3) (2 * 3) (mem_of [9] [] l3) = Some (tt, mem_of [9] [] l')).
Proof.
  intros l8 l3. split.
  - split; [done|]. apply (proj1 (exchange_refines 8 ltac:(lia) [9; 9; 9; 9] [7] l8 ltac:(unfold sized, l8; repeat constructor)) 1 3); simpl; lia.
  - split; [done|]. apply (proj2 (exchange_refines 3 ltac:(lia) [9] [] l3 ltac:(unfold sized, l3; repeat constructor)) 0 3 2); simpl; lia.
Defined.
