(* ===== verification/Env.v ===== *)
(** Env: the environment variables of a task group (sched/environ).  The environment
    is one block of memory with strings [name=value], each followed by a zero byte. *)

From stdpp Require Import options.
From S2P Require Import Prelude.

(** * Data *)

Definition EQUAL_SIGN : Z := 61.
Definition ERROR : Z := -1.
Definition ENOENT : Z := 2.
Definition ENOMEM : Z := 12.

(** [tg_envp]: the bytes of the allocation, if there is one; pointers into it are
    positions. *)
Record task_group_s := Group { tg_envp : option (list Z); tg_envsize : Z }.

(** The group of the running task, and its [errno]. *)
Record estate := EState { group : task_group_s; errno : Z }.
Abbreviation EM := (M estate).

Definition set_group (g : task_group_s) (s : estate) : estate := EState g (errno s).
Definition set_errno (e : Z) : EM unit := modify (fun s => EState (group s) e).

(** Memory: whether a request for a number of bytes succeeds ([kumm_malloc],
    [kumm_realloc], [strdup]), and what is in new memory. *)
Record env_memory := EnvMemory { available : Z -> bool; junk : Z -> Z }.

(** * Strings *)

Definition byte_at (p : Z) : EM Z := getso (fun s => b ← tg_envp (group s); b !! Z.to_nat p).

(** A string argument is its bytes; the one that ends it is at the end. *)
Definition c_str (s : list Z) : list Z := s ++ [0].

(** [strlen] of the string at [p]; [fuel] bounds the bytes that are looked at. *)
Fixpoint strlen_from (fuel : nat) (p n : Z) : EM Z :=
  match fuel with
  | O => undef
  | S fuel => b <- byte_at (p + n) ;; if b =? 0 then ret n else strlen_from fuel p (n + 1)
  end.

Definition bytes_left (s : estate) : nat := S (length (default [] (tg_envp (group s)))).
Definition strlen (p : Z) : EM Z := n <- gets bytes_left ;; strlen_from n p 0.

(** [strchr(p, c)]. *)
Fixpoint strchr_from (fuel : nat) (p c : Z) : EM (option Z) :=
  match fuel with
  | O => undef
  | S fuel => b <- byte_at p ;; if b =? c then ret (Some p) else if b =? 0 then ret None else strchr_from fuel (p + 1) c
  end.

Definition strchr (p c : Z) : EM (option Z) := n <- gets bytes_left ;; strchr_from n p c.

(** * The routines *)

(** [pszname] are the bytes from the pointer on: reading behind the last one, the zero
    byte, is undefined. *)
Fixpoint env_cmpname (pszname : list Z) (peqname : Z) : EM bool :=
  match pszname with
  | [] => undef
  | c :: pszname =>
      b <- byte_at peqname ;;
      if c =? b then env_cmpname pszname (peqname + 1) else ret ((c =? 0) && (b =? EQUAL_SIGN))
  end.

Fixpoint findvar_from (fuel : nat) (pname : list Z) (ptr : Z) : EM (option Z) :=
  match fuel with
  | O => undef
  | S fuel =>
      fin <- gets (fun s => tg_envsize (group s)) ;;
      if ptr <? fin then
        b <- env_cmpname pname ptr ;;
        if b : bool then ret (Some ptr) else n <- strlen ptr ;; findvar_from fuel pname (ptr + (n + 1))
      else ret None
  end.

(** [None] is [NULL]. *)
Definition env_findvar (pname : list Z) : EM (option Z) :=
  n <- gets bytes_left ;; findvar_from n pname 0.

(** [None] as the name is [NULL]. *)
Definition getenv (name : option (list Z)) : EM (option Z) :=
  match name with
  | None => set_errno EINVAL ;; ret None
  | Some name =>
      pvar <- env_findvar (c_str name) ;;
      match pvar with
      | None => set_errno ENOENT ;; ret None
      | Some pvar =>
          pvalue <- strchr pvar EQUAL_SIGN ;;
          match pvalue with
          | None => set_errno EINVAL ;; ret None
          | Some pvalue => ret (Some (pvalue + 1))
          end
      end
  end.

Definition put_byte (p b : Z) : EM unit :=
  byte_at p ;;
  modify (fun s => set_group (Group (<[Z.to_nat p := b]> <$> tg_envp (group s)) (tg_envsize (group s))) s).

Fixpoint move_down (count : nat) (dest src : Z) : EM unit :=
  match count with
  | O => ret tt
  | S count => b <- byte_at src ;; put_byte dest b ;; move_down count (dest + 1) (src + 1)
  end.

Definition env_removevar (pvar : Z) : EM Z :=
  alloc <- gets (fun s => tg_envsize (group s)) ;;
  if (0 <=? pvar) && (pvar <? alloc) then
    n <- strlen pvar ;;
    let len := n + 1 in
    let src := pvar + len in
    move_down (Z.to_nat (alloc - src)) pvar src ;;
    modify (fun s => set_group (Group (tg_envp (group s)) (tg_envsize (group s) - len)) s) ;;
    ret OK
  else ret ERROR.

Section Routines.
Variable mem : env_memory.

(** [n] bytes of new memory. *)
Definition new_bytes (n : nat) : list Z := (fun i => junk mem (Z.of_nat i)) <$> seq 0 n.

(** [kumm_realloc(tg_envp, newsize)]: the old contents are kept as far as they fit. *)
Definition kumm_realloc (newsize : Z) : EM (option (list Z)) :=
  old <- gets (fun s => default [] (tg_envp (group s))) ;;
  let n := Z.to_nat newsize in
  ret (if available mem newsize then Some (take n old ++ new_bytes (n - length old)) else None).

Definition kumm_malloc (size : Z) : option (list Z) :=
  if available mem size then Some (new_bytes (Z.to_nat size)) else None.

Definition unsetenv (name : list Z) : EM Z :=
  pvar <- env_findvar (c_str name) ;;
  match pvar with
  | None => ret OK
  | Some pvar =>
      env_removevar pvar ;;
      newsize <- gets (fun s => tg_envsize (group s)) ;;
      if newsize <=? 0 then modify (set_group (Group None 0)) ;; ret OK
      else
        newenvp <- kumm_realloc newsize ;;
        match newenvp with
        | None => set_errno ENOMEM ;; ret ERROR
        | Some buf => modify (fun s => set_group (Group (Some buf) (tg_envsize (group s))) s) ;; ret OK
        end
  end.

(** [sprintf(pvar, ...)] of a string with its zero byte. *)
Fixpoint write_str (p : Z) (l : list Z) : EM unit :=
  match l with [] => ret tt | b :: l => put_byte p b ;; write_str (p + 1) l end.

(** The second half of [setenv]: the variable is added at the end. *)
Definition append_var (name value : list Z) : EM Z :=
  let varlen := Z.of_nat (length name) + Z.of_nat (length value) + 2 in
  g <- gets group ;;
  r <- match tg_envp g with
       | Some _ =>
           let newsize := tg_envsize g + varlen in
           newenvp <- kumm_realloc newsize ;;
           ret ((fun buf => (buf, newsize, tg_envsize g)) <$> newenvp)
       | None => ret ((fun buf => (buf, varlen, 0)) <$> kumm_malloc varlen)
       end ;;
  match r with
  | None => set_errno ENOMEM ;; ret ERROR
  | Some (newenvp, newsize, pvar) =>
      modify (set_group (Group (Some newenvp) newsize)) ;;
      write_str pvar (c_str (name ++ [EQUAL_SIGN] ++ value)) ;;
      ret OK
  end.

(** [None] as name or value is [NULL]. *)
Definition setenv (name value : option (list Z)) (overwrite : bool) : EM Z :=
  match name, value with
  | None, _ => set_errno EINVAL ;; ret ERROR
  | Some name, None | Some name, Some [] => if overwrite then unsetenv name else ret OK
  | Some name, Some value =>
      g <- gets group ;;
      pvar <- (if tg_envp g then env_findvar (c_str name) else ret None) ;;
      match pvar with
      | Some pvar => if overwrite then env_removevar pvar ;; append_var name value else ret OK
      | None => append_var name value
      end
  end.

(** What is before and behind the first [=]. *)
Fixpoint split_equal (l : list Z) : option (list Z * list Z) :=
  match l with
  | [] => None
  | b :: l => if b =? EQUAL_SIGN then Some ([], l) else r ← split_equal l; Some (b :: fst r, snd r)
  end.

Definition putenv (string : option (list Z)) : EM Z :=
  match string with
  | None => set_errno EINVAL ;; ret ERROR
  | Some string =>
      if available mem (Z.of_nat (length string) + 1) then
        match split_equal string with
        | Some (name, value) => setenv (Some name) (Some value) true
        | None => ret OK
        end
      else set_errno ENOMEM ;; ret ERROR
  end.

Definition env_release : EM unit := modify (set_group (Group None 0)).
Definition clearenv : EM Z := env_release ;; ret OK.

(** The environment of the running task is copied to the group [child]. *)
Definition env_dup (child : task_group_s) : EM (Z * task_group_s) :=
  g <- gets group ;;
  ret match tg_envp g with
      | None => (OK, child)
      | Some envp =>
          if 0 <? tg_envsize g then
            match kumm_malloc (tg_envsize g) with
            | None => (- ENOMEM, Group None 0)
            | Some _ => (OK, Group (Some (take (Z.to_nat (tg_envsize g)) envp)) (tg_envsize g))
            end
          else (OK, Group None (tg_envsize g))
      end.
End Routines.

(** The string at [p]. *)
Fixpoint string_from (fuel : nat) (p : Z) : EM (list Z) :=
  match fuel with
  | O => undef
  | S fuel => b <- byte_at p ;; if b =? 0 then ret [] else l <- string_from fuel (p + 1) ;; ret (b :: l)
  end.

Definition string_at (p : Z) : EM (list Z) := n <- gets bytes_left ;; string_from n p.

(** The callback gets the string, and returns a result and its new argument. *)
Fixpoint foreach_from {T} (fuel : nat) (cb : T -> list Z -> Z * T) (arg : T) (ptr : Z) : EM (Z * T) :=
  match fuel with
  | O => undef
  | S fuel =>
      fin <- gets (fun s => tg_envsize (group s)) ;;
      if ptr <? fin then
        str <- string_at ptr ;;
        let r := cb arg str in
        if fst r =? 0 then n <- strlen ptr ;; foreach_from fuel cb (snd r) (ptr + (n + 1)) else ret r
      else ret (OK, arg)
  end.

Definition env_foreach {T} (cb : T -> list Z -> Z * T) (arg : T) : EM (Z * T) :=
  n <- gets bytes_left ;; foreach_from n cb arg 0.

(** * What is in the block *)

Definition env := list (list Z * list Z).
Definition entry (x : list Z * list Z) : list Z := fst x ++ [EQUAL_SIGN] ++ snd x ++ [0].
Definition encode (E : env) : list Z := concat (entry <$> E).

Definition legal_name (n : list Z) : Prop := Forall (fun b => b <> 0 /\ b <> EQUAL_SIGN) n.
Definition legal_value (v : list Z) : Prop := Forall (fun b => b <> 0) v.
Definition legal_entry (x : list Z * list Z) : Prop := legal_name (fst x) /\ legal_value (snd x).

Definition buf (s : estate) : list Z := default [] (tg_envp (group s)).

(** The block has the variables of [E], and maybe other bytes behind them. *)
Record holds_env (s : estate) (E : env) : Prop := {
  he_legal : Forall legal_entry E;
  he_size : tg_envsize (group s) = Z.of_nat (length (encode E));
  he_bytes : exists rest, buf s = encode E ++ rest
}.

Lemma encode_app E1 E2 : encode (E1 ++ E2) = encode E1 ++ encode E2.
Proof. unfold encode. by rewrite fmap_app, concat_app. Qed.

Lemma encode_cons x E : encode (x :: E) = entry x ++ encode E.
Proof. done. Qed.

Lemma legal_app l1 l2 : Forall legal_entry (l1 ++ l2) <-> Forall legal_entry l1 /\ Forall legal_entry l2.
Proof. apply Forall_app. Qed.

(** A string is the entry without the zero byte. *)
Lemma entry_string x : legal_entry x -> exists t, entry x = t ++ [0] /\ Forall (fun b => b <> 0) t /\ t = fst x ++ [EQUAL_SIGN] ++ snd x.
Proof.
  intros [Hn Hv]. exists (fst x ++ [EQUAL_SIGN] ++ snd x). split; [unfold entry; by rewrite <- !app_assoc|]. split; [|done].
  apply Forall_app. split; [eapply Forall_impl; [exact Hn|by intros b []]|]. by constructor.
Qed.

(** ** Reading *)

Section Reading.
Implicit Types (s : estate) (P R t n : list Z).

(** The byte behind [P]. *)
Lemma byte_at_is s P b R : buf s = P ++ b :: R -> byte_at (Z.of_nat (length P)) s = Some (b, s).
Proof.
  intros Hb. unfold byte_at, getso. rewrite Nat2Z.id. unfold buf in Hb. destruct (tg_envp (group s)) as [l|]; simpl in *; [|by destruct P].
  by rewrite Hb, list_lookup_middle.
Qed.

Lemma wp_byte s P b R (Q : Z -> estate -> Prop) : buf s = P ++ b :: R -> Q b s -> wp (byte_at (Z.of_nat (length P))) Q s.
Proof. intros Hb HQ. unfold wp. by rewrite (byte_at_is s P b R Hb). Qed.

Lemma bytes_left_ge s P R : buf s = P ++ R -> (length R < bytes_left s)%nat.
Proof. intros Hb. unfold bytes_left. fold (buf s). rewrite Hb, length_app. lia. Qed.

(** One more byte has been read. *)
Lemma next_byte P b : Z.of_nat (length P) + 1 = Z.of_nat (length (P ++ [b])).
Proof. rewrite length_app. simpl. lia. Qed.

Lemma strlen_ok s P t R (Q : Z -> estate -> Prop) : buf s = P ++ (t ++ [0]) ++ R -> Forall (fun b => b <> 0) t ->
  Q (Z.of_nat (length t)) s -> wp (strlen (Z.of_nat (length P))) Q s.
Proof.
  intros Hb Ht HQ. apply wp_bind, wp_gets. pose proof (bytes_left_ge s P _ Hb) as Hl.
  assert (Hgo : forall t2 t1 fuel, t = t1 ++ t2 -> (length t2 < fuel)%nat -> wp (strlen_from fuel (Z.of_nat (length P)) (Z.of_nat (length t1))) Q s).
  { induction t2 as [|b t2 IH]; intros t1 [|fuel] Et Hf; simpl in Hf; try lia; simpl; rewrite <- Nat2Z.inj_add, <- length_app; apply wp_bind.
    - rewrite app_nil_r in Et. subst t1. apply (wp_byte s (P ++ t) 0 R); [by rewrite Hb, <- !app_assoc|]. by apply wp_ret.
    - apply (wp_byte s (P ++ t1) b (t2 ++ [0] ++ R)); [by rewrite Hb, Et, <- !app_assoc|].
      destruct (Z.eqb_spec b 0) as [->|]; [rewrite Et, Forall_app, Forall_cons in Ht; tauto|].
      rewrite (next_byte t1 b). apply IH; [by rewrite Et, <- app_assoc|lia]. }
  apply (Hgo t [] _); [done|]. rewrite !length_app in Hl. lia.
Qed.

Lemma strchr_ok s c t : forall P R (Q : option Z -> estate -> Prop) , buf s = P ++ t ++ c :: R -> Forall (fun b => b <> 0 /\ b <> c) t ->
  Q (Some (Z.of_nat (length (P ++ t)))) s -> wp (strchr (Z.of_nat (length P)) c) Q s.
Proof.
  intros P R Q Hb Ht HQ. apply wp_bind, wp_gets. pose proof (bytes_left_ge s P _ Hb) as Hl. rewrite length_app in Hl. revert Hl.
  generalize (bytes_left s) as fuel. revert P Hb HQ. induction t as [|b t IH]; intros P Hb HQ [|fuel] Hl; simpl in Hl; try lia; simpl; apply wp_bind.
  - rewrite app_nil_r in HQ. apply (wp_byte s P c R); [done|]. rewrite Z.eqb_refl. by apply wp_ret.
  - apply Forall_cons in Ht as [[Hb0 Hbc] Ht]. apply (wp_byte s P b (t ++ c :: R)); [done|]. rewrite (proj2 (Z.eqb_neq _ _) Hbc), (proj2 (Z.eqb_neq _ _) Hb0).
    rewrite (next_byte P b). apply IH; [done|by rewrite Hb, <- app_assoc|by rewrite <- app_assoc|simpl; lia].
Qed.

Lemma string_at_ok s P t R (Q : list Z -> estate -> Prop) : buf s = P ++ (t ++ [0]) ++ R -> Forall (fun b => b <> 0) t ->
  Q t s -> wp (string_at (Z.of_nat (length P))) Q s.
Proof.
  intros Hb Ht HQ. apply wp_bind, wp_gets. pose proof (bytes_left_ge s P _ Hb) as Hl. rewrite !length_app in Hl. revert Hl.
  generalize (bytes_left s) as fuel. revert P Q Hb HQ. induction t as [|b t IH]; intros P Q Hb HQ [|fuel] Hl; simpl in Hl; try lia; simpl; apply wp_bind.
  - apply (wp_byte s P 0 R); [done|]. by apply wp_ret.
  - apply Forall_cons in Ht as [Hb0 Ht]. apply (wp_byte s P b ((t ++ [0]) ++ R)); [done|]. rewrite (proj2 (Z.eqb_neq _ _) Hb0).
    apply wp_bind. rewrite (next_byte P b). apply (IH Ht (P ++ [b])); [rewrite Hb; simpl; by rewrite <- !app_assoc| |simpl; lia]. by apply wp_ret.
Qed.

(** A name is compared with the name of a variable. *)
Lemma cmpname_ok s name : forall n P R (Q : bool -> estate -> Prop), buf s = P ++ n ++ EQUAL_SIGN :: R -> legal_name name -> legal_name n ->
  Q (bool_decide (name = n)) s -> wp (env_cmpname (c_str name) (Z.of_nat (length P))) Q s.
Proof.
  induction name as [|c name IH]; intros [|b n] P R Q Hb Hname Hn HQ; unfold c_str; cbn [app env_cmpname]; apply wp_bind.
  - apply (wp_byte s P EQUAL_SIGN R); [done|]. by apply wp_ret.
  - apply Forall_cons in Hn as [[Hb0 Hbe] _]. apply (wp_byte s P b (n ++ EQUAL_SIGN :: R)); [done|].
    rewrite (proj2 (Z.eqb_neq 0 b)) by done. apply wp_ret. by rewrite (proj2 (Z.eqb_neq b EQUAL_SIGN)).
  - apply Forall_cons in Hname as [[Hc0 Hce] _]. apply (wp_byte s P EQUAL_SIGN R); [done|].
    rewrite (proj2 (Z.eqb_neq c _)) by done. apply wp_ret. by rewrite (proj2 (Z.eqb_neq c 0)).
  - apply Forall_cons in Hname as [[Hc0 Hce] Hname]. apply Forall_cons in Hn as [_ Hn].
    apply (wp_byte s P b (n ++ EQUAL_SIGN :: R)); [done|]. destruct (Z.eqb_spec c b) as [->|Hne].
    + rewrite (next_byte P b). apply (IH n (P ++ [b]) R); [by rewrite Hb, <- app_assoc|done|done|].
      by rewrite (bool_decide_ext _ (b :: name = b :: n)) by (split; congruence).
    + apply wp_ret. rewrite (proj2 (Z.eqb_neq c 0)) by done. by rewrite bool_decide_false in HQ by congruence.
Qed.

(** The search: the first variable with the name. *)
Lemma findvar_ok s E name (Q : option Z -> estate -> Prop) : holds_env s E -> legal_name name ->
  (forall E1 v E2, E = E1 ++ (name, v) :: E2 -> name ∉ E1.*1 -> Q (Some (Z.of_nat (length (encode E1)))) s) ->
  (name ∉ E.*1 -> Q None s) -> wp (env_findvar (c_str name)) Q s.
Proof.
  intros [HE Hsz [rest Hb]] Hname HF HN. apply wp_bind, wp_gets.
  assert (Hgo : forall E2 E1 fuel, E = E1 ++ E2 -> name ∉ E1.*1 -> (length (encode E2) < fuel)%nat ->
    wp (findvar_from fuel (c_str name) (Z.of_nat (length (encode E1)))) Q s).
  { induction E2 as [|[n v] E2 IH]; intros E1 [|fuel] EE HE1 Hf; try lia; cbn [findvar_from]; apply wp_bind, wp_gets; rewrite Hsz, EE, encode_app, length_app.
    - change (length (encode [])) with 0%nat. rewrite Nat.add_0_r, Z.ltb_irrefl. apply wp_ret, HN. by rewrite EE, app_nil_r.
    - pose proof HE as HE'. rewrite EE, legal_app, Forall_cons in HE'. destruct HE' as (_ & Hx & _). pose proof Hx as [Hn Hv].
      destruct (entry_string _ Hx) as (t & Et & Ht & _). rewrite encode_cons in Hf |- *.
      assert (Hb1 : buf s = encode E1 ++ (t ++ [0]) ++ encode E2 ++ rest) by (by rewrite Hb, EE, encode_app, encode_cons, Et, <- !app_assoc).
      assert (Hpos : (0 < length (entry (n, v)))%nat) by (rewrite Et, length_app; simpl; lia).
      destruct (Z.ltb_spec (Z.of_nat (length (encode E1))) (Z.of_nat (length (encode E1) + length (entry (n, v) ++ encode E2)))) as [_|]; [|rewrite length_app in *; lia].
      apply wp_bind, (cmpname_ok s name n (encode E1) (v ++ [0] ++ encode E2 ++ rest)); [|done|done|].
      { rewrite Hb, EE, encode_app, encode_cons. unfold entry. by rewrite <- !app_assoc. }
      case_bool_decide as Hnn; [subst n; apply wp_ret; by apply (HF E1 v E2)|]. apply wp_bind, (strlen_ok s (encode E1) t (encode E2 ++ rest)); [done|done|].
      replace (Z.of_nat (length (encode E1)) + (Z.of_nat (length t) + 1)) with (Z.of_nat (length (encode (E1 ++ [(n, v)])))).
      2: { rewrite encode_app, encode_cons, app_nil_r, Et, !length_app. simpl. lia. }
      apply IH; [by rewrite <- app_assoc| |rewrite length_app in Hf; lia]. rewrite fmap_app, elem_of_app. simpl.
      intros [?|?%list_elem_of_singleton]; [done|congruence]. }
  apply (Hgo E [] _); [done|apply not_elem_of_nil|]. by apply (bytes_left_ge s [] (encode E ++ rest)) in Hb; rewrite length_app in Hb; lia.
Qed.
End Reading.

(** ** Writing *)

Definition set_buf (l : list Z) (s : estate) : estate := set_group (Group (Some l) (tg_envsize (group s))) s.

Section Writing.
Implicit Types (s : estate) (A B C R l : list Z).

Lemma set_buf_same s l : buf s = l -> l <> [] -> set_buf l s = s.
Proof. destruct s as [[[b|] z] e]; simpl; intros <-; [done|]. by intros []. Qed.

Lemma wp_put_byte s A b R c (Q : unit -> estate -> Prop) : buf s = A ++ b :: R -> Q tt (set_buf (A ++ c :: R) s) ->
  wp (put_byte (Z.of_nat (length A)) c) Q s.
Proof.
  intros Hb HQ. apply wp_bind, (wp_byte s A b R); [done|]. apply wp_modify. rewrite Nat2Z.id. unfold buf in Hb.
  destruct s as [[[l|] z] e]; simpl in *; [|by destruct A]. rewrite Hb. by rewrite insert_app_r_alt, Nat.sub_diag by lia.
Qed.

Lemma move_down_ok C : forall A B R s (Q : unit -> estate -> Prop), B <> [] -> buf s = A ++ B ++ C ++ R ->
  (forall R', length R' = (length B + length R)%nat -> Q tt (set_buf (A ++ C ++ R') s)) ->
  wp (move_down (length C) (Z.of_nat (length A)) (Z.of_nat (length A) + Z.of_nat (length B))) Q s.
Proof.
  induction C as [|c C IH]; intros A B R s Q HB Hb HQ; simpl.
  - apply wp_ret. specialize (HQ (B ++ R)). rewrite length_app in HQ. simpl in *. rewrite set_buf_same in HQ; [by apply HQ|done|].
    by destruct A, B.
  - apply wp_bind. rewrite <- Nat2Z.inj_add, <- length_app. apply (wp_byte s (A ++ B) c (C ++ R)); [by rewrite Hb, <- app_assoc|].
    destruct B as [|b B]; [done|]. apply wp_bind, (wp_put_byte s A b (B ++ c :: C ++ R)); [by rewrite Hb|].
    rewrite (next_byte A c). replace (Z.of_nat (length (A ++ b :: B)) + 1) with (Z.of_nat (length (A ++ [c])) + Z.of_nat (length (B ++ [c]))).
    2: { rewrite !length_app. simpl. lia. }
    apply (IH (A ++ [c]) (B ++ [c]) R); [by destruct B|unfold buf; simpl; by rewrite <- !app_assoc|]. intros R' HR'.
    specialize (HQ R'). rewrite <- app_assoc. simpl. apply HQ. rewrite HR', length_app. simpl. lia.
Qed.

Lemma write_str_ok l : forall A B R s (Q : unit -> estate -> Prop), length B = length l -> l <> [] -> buf s = A ++ B ++ R ->
  Q tt (set_buf (A ++ l ++ R) s) -> wp (write_str (Z.of_nat (length A)) l) Q s.
Proof.
  induction l as [|c l IH]; intros A B R s Q HB Hl Hb HQ; [done|]. destruct B as [|b B]; [done|]. simpl.
  apply wp_bind, (wp_put_byte s A b (B ++ R)); [done|]. destruct l as [|d l].
  - destruct B; [|done]. by apply wp_ret.
  - rewrite (next_byte A c). apply (IH (A ++ [c]) B R); [by injection HB|done|unfold buf; simpl; by rewrite <- app_assoc|]. by rewrite <- app_assoc.
Qed.

Lemma removevar_ok s E1 x E2 (Q : Z -> estate -> Prop) : holds_env s (E1 ++ x :: E2) ->
  (forall s', holds_env s' (E1 ++ E2) -> errno s' = errno s -> tg_envp (group s') <> None -> Q OK s') ->
  wp (env_removevar (Z.of_nat (length (encode E1)))) Q s.
Proof.
  intros [HE Hsz [rest Hb]] HQ. pose proof HE as HE'. rewrite legal_app, Forall_cons in HE'. destruct HE' as (H1 & Hx & H2).
  destruct (entry_string x Hx) as (t & Et & Ht & _). rewrite encode_app, encode_cons, Et, <- !app_assoc in Hb.
  assert (Hlen : tg_envsize (group s) = Z.of_nat (length (encode E1)) + (Z.of_nat (length t) + 1) + Z.of_nat (length (encode E2))).
  { rewrite Hsz, encode_app, encode_cons, Et, !length_app. simpl. lia. }
  apply wp_bind, wp_gets. rewrite (proj2 (Z.leb_le _ _)), (proj2 (Z.ltb_lt _ _)) by lia. simpl.
  apply wp_bind, (strlen_ok s (encode E1) t (encode E2 ++ rest)); [by rewrite Hb, <- app_assoc|done|]. rewrite Hlen.
  replace (Z.to_nat (_ - _)) with (length (encode E2)) by lia.
  replace (Z.of_nat (length t) + 1) with (Z.of_nat (length (t ++ [0]))) by (rewrite length_app; simpl; lia).
  apply wp_bind, (move_down_ok (encode E2) (encode E1) (t ++ [0]) rest); [by destruct t|by rewrite Hb, <- app_assoc|].
  intros R' HR'. apply wp_bind, wp_modify, wp_ret. apply HQ; [|done|done]. split.
  - by apply legal_app.
  - simpl. rewrite Hlen, encode_app, !length_app. simpl. lia.
  - exists R'. unfold buf. simpl. by rewrite encode_app, <- app_assoc.
Qed.
End Writing.

(** * Environments as lists of variables *)

Fixpoint lookup_env (n : list Z) (E : env) : option (list Z) :=
  match E with [] => None | (n', v) :: E => if decide (n' = n) then Some v else lookup_env n E end.

Fixpoint remove_env (n : list Z) (E : env) : env :=
  match E with [] => [] | (n', v) :: E => if decide (n' = n) then E else (n', v) :: remove_env n E end.

Lemma lookup_env_split n E1 v E2 : n ∉ E1.*1 -> lookup_env n (E1 ++ (n, v) :: E2) = Some v /\ remove_env n (E1 ++ (n, v) :: E2) = E1 ++ E2.
Proof.
  induction E1 as [|[n' v'] E1 IH]; simpl; intros Hn; [by rewrite !decide_True|]. apply not_elem_of_cons in Hn as [Hne Hn].
  destruct (IH Hn) as [-> ->]. by rewrite !decide_False by congruence.
Qed.

Lemma lookup_env_None n E : n ∉ E.*1 -> lookup_env n E = None.
Proof. induction E as [|[n' v'] E IH]; simpl; [done|]. intros [Hne Hn]%not_elem_of_cons. rewrite decide_False by congruence. by apply IH. Qed.

Section Routines.
Context (mem : env_memory).
Implicit Types (s : estate) (E : env) (n v : list Z).

Definition enough E : bool := available mem (Z.of_nat (length (encode E))).

Lemma length_new_bytes k : length (new_bytes mem k) = k.
Proof. unfold new_bytes. by rewrite length_fmap, length_seq. Qed.

Lemma holds_NULL s E : holds_env s E -> tg_envp (group s) = None -> E = [].
Proof.
  intros [_ _ [rest Hb]] Hn. unfold buf in Hb. rewrite Hn in Hb. simpl in Hb. symmetry in Hb. apply app_nil in Hb as [Hb _].
  destruct E as [|[n v] E]; [done|]. rewrite encode_cons in Hb. unfold entry in Hb. simpl in Hb. by destruct n.
Qed.

(** [n] bytes, at least the first [k] of which are the old ones. *)
Lemma realloc_ok s l rest k newsize (Q : option (list Z) -> estate -> Prop) : buf s = l ++ rest -> newsize = Z.of_nat (length l + k) ->
  (forall R, length R = k -> available mem newsize = true -> Q (Some (l ++ R)) s) -> (available mem newsize = false -> Q None s) ->
  wp (kumm_realloc mem newsize) Q s.
Proof.
  intros Hb -> HQ HN. apply wp_bind, wp_gets, wp_ret. fold (buf s). rewrite Hb, Nat2Z.id. destruct (available mem _) eqn:Ea; [|by apply HN].
  rewrite take_app_ge, <- app_assoc by lia. apply HQ; [|done]. rewrite length_app, length_take, length_new_bytes, length_app. lia.
Qed.

Lemma append_ok s E n v (Q : Z -> estate -> Prop) : holds_env s E -> legal_entry (n, v) ->
  (forall s', holds_env s' (E ++ [(n, v)]) -> errno s' = errno s -> Q OK s') ->
  (enough (E ++ [(n, v)]) = false -> Q ERROR (EState (group s) ENOMEM)) -> wp (append_var mem n v) Q s.
Proof.
  intros HE Hx HQ HN. pose proof HE as [HL Hsz [rest Hb]].
  assert (Ht : Z.of_nat (length (entry (n, v))) = Z.of_nat (length n) + Z.of_nat (length v) + 2).
  { unfold entry. rewrite !length_app. simpl. lia. }
  assert (Hlen : Z.of_nat (length (encode (E ++ [(n, v)]))) = Z.of_nat (length (encode E)) + (Z.of_nat (length n) + Z.of_nat (length v) + 2)).
  { rewrite encode_app, encode_cons, app_nil_r, length_app. lia. }
  assert (Hput : forall R, length R = length (entry (n, v)) -> wp (write_str (Z.of_nat (length (encode E))) (c_str (n ++ [EQUAL_SIGN] ++ v)) ;; ret OK) Q
      (set_group (Group (Some (encode E ++ R)) (Z.of_nat (length (encode (E ++ [(n, v)]))))) s)).
  { intros R HR. assert (Ec : c_str (n ++ [EQUAL_SIGN] ++ v) = entry (n, v)) by (unfold c_str, entry; by rewrite <- !app_assoc).
    rewrite Ec. apply wp_bind, (write_str_ok _ _ R []); [done|by destruct n|unfold buf; simpl; by rewrite app_nil_r|]. apply wp_ret, HQ; [|done]. split.
    - apply legal_app. split; [done|]. by constructor.
    - done.
    - exists []. unfold buf. simpl. rewrite !app_nil_r, encode_app, encode_cons. unfold encode. simpl. by rewrite app_nil_r. }
  unfold enough in HN. rewrite Hlen in HN, Hput. apply wp_bind, wp_gets, wp_bind. destruct (tg_envp (group s)) as [l|] eqn:El.
  - apply wp_bind, (realloc_ok s (encode E) rest (length (entry (n, v)))); [done|lia| |].
    + intros R HR _. apply wp_ret. simpl. apply wp_bind, wp_modify. rewrite Hsz. by apply Hput.
    + rewrite Hsz. intros Ha. apply wp_ret. simpl. apply wp_bind, wp_modify, wp_ret. by apply HN.
  - apply holds_NULL in HE; [|done]. subst E. simpl in Hlen, HN, Hput. apply wp_ret. unfold kumm_malloc. destruct (available mem _) eqn:Ea; simpl.
    + apply wp_bind, wp_modify. apply (Hput (new_bytes mem _)). rewrite length_new_bytes. lia.
    + apply wp_bind, wp_modify, wp_ret. by apply HN.
Qed.

(** ** The calls *)

Lemma errno_holds s E e : holds_env s E -> holds_env (EState (group s) e) E.
Proof. by intros [? ? ?]. Qed.

Lemma getenv_ok s E n (Q : option Z -> estate -> Prop) : holds_env s E -> legal_name n ->
  (forall p v R, lookup_env n E = Some v -> buf s = p ++ (v ++ [0]) ++ R -> legal_value v -> Q (Some (Z.of_nat (length p))) s) ->
  (lookup_env n E = None -> Q None (EState (group s) ENOENT)) -> wp (getenv (Some n)) Q s.
Proof.
  intros HE Hn HF HN. apply wp_bind, (findvar_ok s E n _ HE Hn).
  - intros E1 v E2 EE Hno. destruct HE as [HL Hsz [rest Hb]]. rewrite EE, legal_app, Forall_cons in HL. destruct HL as (_ & [_ Hv] & _).
    assert (Hb' : buf s = encode E1 ++ n ++ EQUAL_SIGN :: (v ++ [0]) ++ encode E2 ++ rest).
    { rewrite Hb, EE, encode_app, encode_cons. unfold entry. by rewrite <- !app_assoc. }
    apply wp_bind, (strchr_ok s EQUAL_SIGN n (encode E1) ((v ++ [0]) ++ encode E2 ++ rest)); [done|done|]. apply wp_ret.
    rewrite (next_byte _ EQUAL_SIGN). apply (HF _ v (encode E2 ++ rest)); [|by rewrite Hb', <- !app_assoc|done]. rewrite EE. by apply lookup_env_split.
  - intros Hno. apply wp_bind, wp_modify, wp_ret, HN. by apply lookup_env_None.
Qed.

Lemma unsetenv_ok s E n (Q : Z -> estate -> Prop) : holds_env s E -> legal_name n ->
  (lookup_env n E = None -> Q OK s) ->
  (forall s' r e, lookup_env n E <> None -> holds_env s' (remove_env n E) -> errno s' = e ->
     (r = OK /\ e = errno s \/ r = ERROR /\ e = ENOMEM /\ remove_env n E <> [] /\ enough (remove_env n E) = false) -> Q r s') ->
  wp (unsetenv mem n) Q s.
Proof.
  intros HE Hn HN HF. apply wp_bind, (findvar_ok s E n _ HE Hn); [|intros Hno; apply wp_ret, HN; by apply lookup_env_None].
  intros E1 v E2 -> Hno. destruct (lookup_env_split n E1 v E2 Hno) as [EL ER]. rewrite EL, ER in *.
  apply wp_bind, (removevar_ok s E1 (n, v) E2 _ HE). intros s1 H1 He Hnn. apply wp_bind, wp_gets. rewrite (he_size _ _ H1).
  destruct (Z.leb_spec (Z.of_nat (length (encode (E1 ++ E2)))) 0) as [Hz|Hz].
  - apply wp_bind, wp_modify, wp_ret. assert (encode (E1 ++ E2) = []) as E0 by (apply nil_length_inv; lia).
    apply (HF _ OK (errno s1)); [done| |done|left; by rewrite He]. split; [apply H1|simpl; by rewrite E0|exists []; unfold buf; simpl; by rewrite E0].
  - destruct (he_bytes _ _ H1) as [rest Hb]. apply wp_bind, (realloc_ok s1 (encode (E1 ++ E2)) rest 0); [done|lia| |].
    + intros R HR _. apply wp_bind, wp_modify, wp_ret. apply (HF _ OK (errno s1)); [done| |done|left; by rewrite He].
      split; [apply H1|apply H1|]. exists R. done.
    + intros Ha. apply wp_bind, wp_modify, wp_ret. apply (HF _ ERROR ENOMEM); [done|by apply errno_holds|done|].
      right. split; [done|]. split; [done|]. split; [|done]. intros E0. rewrite E0 in Hz. simpl in Hz. lia.
Qed.

Lemma setenv_ok s E n v ow (Q : Z -> estate -> Prop) : holds_env s E -> legal_entry (n, v) -> v <> [] ->
  (ow = false -> lookup_env n E <> None -> Q OK s) ->
  (forall s', (lookup_env n E <> None -> ow = true) -> holds_env s' (remove_env n E ++ [(n, v)]) -> errno s' = errno s -> Q OK s') ->
  (forall s', (lookup_env n E <> None -> ow = true) -> holds_env s' (remove_env n E) -> errno s' = ENOMEM ->
     enough (remove_env n E ++ [(n, v)]) = false -> Q ERROR s') ->
  wp (setenv mem (Some n) (Some v) ow) Q s.
Proof.
  intros HE Hx Hv HK HQ HN. destruct v as [|b v]; [done|]. set (w := b :: v) in *.
  assert (Hnone : lookup_env n E = None -> remove_env n E = E).
  { clear. induction E as [|[n' v'] E IH]; simpl; [done|]. destruct (decide (n' = n)); [done|]. intros H. by rewrite IH. }
  assert (Hadd : forall s1 E1, holds_env s1 E1 -> errno s1 = errno s -> remove_env n E = E1 -> (lookup_env n E <> None -> ow = true) -> wp (append_var mem n w) Q s1).
  { intros s1 E1 H1 He <- How. apply (append_ok s1 (remove_env n E)); [done|done|intros s' H' He'; apply HQ; [done|done|congruence]|].
    intros Ha. apply HN; [done|by apply errno_holds|done|done]. }
  apply wp_bind, wp_gets, wp_bind.
  assert (Hmiss : lookup_env n E = None -> wp (append_var mem n w) Q s) by (intros Hno; apply (Hadd s E); [done|done|by apply Hnone|done]).
  destruct (tg_envp (group s)) eqn:Eg; [|apply wp_ret; apply Hmiss; by rewrite (holds_NULL s E HE Eg)].
  apply (findvar_ok s E n _ HE (proj1 Hx)); [|intros Hno; apply Hmiss; by apply lookup_env_None].
  intros E1 u E2 -> Hno. destruct (lookup_env_split n E1 u E2 Hno) as [EL ER]. destruct ow; [|apply wp_ret, HK; [done|by rewrite EL]].
  apply wp_bind, (removevar_ok s E1 (n, u) E2 _ HE). intros s1 H1 He _. by apply (Hadd s1 (E1 ++ E2)).
Qed.

(** The strings that a callback gets, until it returns something other than 0. *)
Fixpoint visit {T} (cb : T -> list Z -> Z * T) (arg : T) E : Z * T :=
  match E with
  | [] => (OK, arg)
  | x :: E => let r := cb arg (fst x ++ [EQUAL_SIGN] ++ snd x) in if fst r =? 0 then visit cb (snd r) E else r
  end.

Lemma foreach_ok {T} (cb : T -> list Z -> Z * T) s E arg (Q : Z * T -> estate -> Prop) : holds_env s E -> Q (visit cb arg E) s ->
  wp (env_foreach cb arg) Q s.
Proof.
  intros [HE Hsz [rest Hb]] HQ. apply wp_bind, wp_gets.
  assert (Hgo : forall E2 E1 fuel arg, E = E1 ++ E2 -> (length (encode E2) < fuel)%nat -> Q (visit cb arg E2) s ->
    wp (foreach_from fuel cb arg (Z.of_nat (length (encode E1)))) Q s).
  { clear HQ. induction E2 as [|x E2 IH]; intros E1 [|fuel] a EE Hf HQ; try lia; cbn [foreach_from]; apply wp_bind, wp_gets; rewrite Hsz, EE, encode_app, length_app.
    - change (length (encode [])) with 0%nat. rewrite Nat.add_0_r, Z.ltb_irrefl. by apply wp_ret.
    - pose proof HE as HE'. rewrite EE, legal_app, Forall_cons in HE'. destruct HE' as (_ & Hx & _).
      destruct (entry_string x Hx) as (t & Et & Ht & Et'). rewrite encode_cons, length_app in Hf |- *.
      assert (Hb1 : buf s = encode E1 ++ (t ++ [0]) ++ encode E2 ++ rest) by (by rewrite Hb, EE, encode_app, encode_cons, Et, <- !app_assoc).
      assert (Hpos : length (entry x) = S (length t)) by (rewrite Et, length_app; simpl; lia). rewrite (proj2 (Z.ltb_lt _ _)) by lia.
      apply wp_bind, (string_at_ok s (encode E1) t (encode E2 ++ rest)); [done|done|]. cbn [visit] in HQ. rewrite <- Et' in HQ.
      destruct (fst (cb a t) =? 0); [|by apply wp_ret]. apply wp_bind, (strlen_ok s (encode E1) t (encode E2 ++ rest)); [done|done|].
      replace (Z.of_nat (length (encode E1)) + (Z.of_nat (length t) + 1)) with (Z.of_nat (length (encode (E1 ++ [x])))).
      2: { rewrite encode_app, encode_cons, app_nil_r, length_app. lia. }
      apply IH; [by rewrite <- app_assoc|lia|done]. }
  apply (Hgo E [] _ arg); [done| |done]. by apply (bytes_left_ge s [] (encode E ++ rest)) in Hb; rewrite length_app in Hb; lia.
Qed.
End Routines.

(** * Programs *)

Inductive env_op :=
  | Getenv (name : list Z)
  | Setenv (name value : list Z) (overwrite : bool)
  | Unsetenv (name : list Z)
  | Putenv (string : list Z)
  | Clearenv
  | Foreach (cb : list (list Z) -> list Z -> Z * list (list Z))
  | Dup.

Inductive env_out :=
  | Str (v : list Z)
  | NullPtr
  | Code (r : Z)
  | Visited (r : Z) (l : list (list Z)).

(** [Dup] is a new task that gets a copy of the environment and goes on with it. *)
Definition env_exec (mem : env_memory) (op : env_op) : EM env_out :=
  match op with
  | Getenv n => p <- getenv (Some n) ;; match p with Some p => v <- string_at p ;; ret (Str v) | None => ret NullPtr end
  | Setenv n v ow => r <- setenv mem (Some n) (Some v) ow ;; ret (Code r)
  | Unsetenv n => r <- unsetenv mem n ;; ret (Code r)
  | Putenv str => r <- putenv mem (Some str) ;; ret (Code r)
  | Clearenv => r <- clearenv ;; ret (Code r)
  | Foreach cb => r <- env_foreach cb [] ;; ret (Visited (fst r) (snd r))
  | Dup => r <- env_dup mem (Group None 0) ;; modify (set_group (snd r)) ;; ret (Code (fst r))
  end.

Definition legal_op (op : env_op) : Prop :=
  match op with
  | Getenv n | Unsetenv n => legal_name n
  | Setenv n v _ => legal_entry (n, v)
  | Putenv str => legal_value str
  | Clearenv | Foreach _ | Dup => True
  end.

Section Spec.
Variable mem : env_memory.

(** The outcome of each call: its result, the new variables and the new [errno]. *)
Definition unset_spec (n : list Z) (E : env) (e : Z) (r : Z) (E' : env) (e' : Z) : Prop :=
  match lookup_env n E with
  | None => r = OK /\ E' = E /\ e' = e
  | Some _ => E' = remove_env n E /\ (r = OK /\ e' = e \/ r = ERROR /\ e' = ENOMEM /\ E' <> [] /\ enough mem E' = false)
  end.

Definition set_spec (n v : list Z) (ow : bool) (E : env) (e : Z) (r : Z) (E' : env) (e' : Z) : Prop :=
  match v with
  | [] => if ow then unset_spec n E e r E' e' else r = OK /\ E' = E /\ e' = e
  | _ =>
      if negb ow && bool_decide (lookup_env n E <> None) then r = OK /\ E' = E /\ e' = e
      else
        let E1 := remove_env n E in
        r = OK /\ E' = E1 ++ [(n, v)] /\ e' = e \/ r = ERROR /\ E' = E1 /\ e' = ENOMEM /\ enough mem (E1 ++ [(n, v)]) = false
  end.

Definition env_spec (op : env_op) (E : env) (e : Z) (r : env_out) (E' : env) (e' : Z) : Prop :=
  match op with
  | Getenv n => E' = E /\ match lookup_env n E with Some v => r = Str v /\ e' = e | None => r = NullPtr /\ e' = ENOENT end
  | Setenv n v ow => exists c, r = Code c /\ set_spec n v ow E e c E' e'
  | Unsetenv n => exists c, r = Code c /\ unset_spec n E e c E' e'
  | Putenv str => exists c, r = Code c /\
      if available mem (Z.of_nat (length str) + 1) then
        match split_equal str with Some (n, v) => set_spec n v true E e c E' e' | None => c = OK /\ E' = E /\ e' = e end
      else c = ERROR /\ E' = E /\ e' = ENOMEM
  | Clearenv => r = Code OK /\ E' = [] /\ e' = e
  | Foreach cb => E' = E /\ e' = e /\ r = Visited (fst (visit cb [] E)) (snd (visit cb [] E))
  | Dup => e' = e /\ (r = Code OK /\ E' = E \/ r = Code (- ENOMEM) /\ E' = [] /\ E <> [] /\ enough mem E = false)
  end.

(** The state has the variables [E'] and the [errno] [e'] that the outcome tells. *)
Definition done_env (Spec : Z -> env -> Z -> Prop) (r : Z) (s : estate) : Prop := exists E', Spec r E' (errno s) /\ holds_env s E'.

Lemma unset_done s E n : holds_env s E -> legal_name n -> wp (unsetenv mem n) (done_env (unset_spec n E (errno s))) s.
Proof.
  intros HE Hn. apply (unsetenv_ok mem s E n _ HE Hn).
  - intros Hno. exists E. unfold unset_spec. by rewrite Hno.
  - intros s' r e Hl H' <- Hr. exists (remove_env n E). split; [|done]. unfold unset_spec. by destruct (lookup_env n E).
Qed.

Lemma set_done s E n v ow : holds_env s E -> legal_entry (n, v) -> wp (setenv mem (Some n) (Some v) ow) (done_env (set_spec n v ow E (errno s))) s.
Proof.
  intros HE Hx. destruct v as [|b v].
  - simpl. destruct ow; [by apply unset_done; [|apply Hx]|]. apply wp_ret. by exists E.
  - assert (Hskip : forall P : Prop, (lookup_env n E <> None -> ow = true) -> (if negb ow && bool_decide (lookup_env n E <> None) then P else True)).
    { intros P Hw. destruct ow; [done|]. simpl. case_bool_decide as Hl; [|done]. by apply Hw in Hl. }
    apply (setenv_ok mem s E n (b :: v) ow _ HE Hx); [done|..].
    + intros -> Hl. exists E. split; [|done]. unfold set_spec. simpl. by rewrite bool_decide_true.
    + intros s' Hw H' He. exists (remove_env n E ++ [(n, b :: v)]). split; [|done]. specialize (Hskip False Hw). unfold set_spec.
      destruct (negb ow && _); [done|]. by left.
    + intros s' Hw H' He Ha. exists (remove_env n E). split; [|done]. specialize (Hskip False Hw). unfold set_spec. destruct (negb ow && _); [done|]. by right.
Qed.

Lemma split_equal_Some l n v : legal_value l -> split_equal l = Some (n, v) -> legal_entry (n, v).
Proof.
  revert n. induction l as [|b l IH]; intros n Hl; simpl; [done|]. apply Forall_cons in Hl as [Hb Hl]. destruct (Z.eqb_spec b EQUAL_SIGN) as [->|Hne].
  - intros [= <- <-]. split; [constructor|done].
  - destruct (split_equal l) as [[n' v']|] eqn:E; [|done]. simpl. intros [= <- <-]. destruct (IH n' Hl eq_refl) as [H1 H2].
    split; [|done]. by constructor.
Qed.

Lemma dup_ok s E : holds_env s E -> wp (env_exec mem Dup) (fun r s' => exists E', env_spec Dup E (errno s) r E' (errno s') /\ holds_env s' E') s.
Proof.
  intros HE. pose proof HE as [HL Hsz [rest Hb]]. assert (Hnil : forall t, holds_env (set_group (Group None 0) t) []).
  { intros t. split; [constructor|done|by exists []]. }
  apply wp_bind, wp_bind, wp_gets, wp_ret. apply wp_bind, wp_modify, wp_ret. destruct (tg_envp (group s)) as [l|] eqn:El; simpl.
  - destruct (Z.ltb_spec 0 (tg_envsize (group s))) as [Hpos|Hz].
    + rewrite Hsz. unfold kumm_malloc. destruct (available mem _) eqn:Ea; simpl.
      * exists E. split; [split; [done|by left]|]. split; [done|done|]. exists []. unfold buf in *. rewrite El in Hb. simpl in *.
        by rewrite Hb, Nat2Z.id, take_app_length, app_nil_r.
      * exists []. split; [|apply Hnil]. split; [done|]. right. split; [done|]. split; [done|]. split; [|done]. intros ->. simpl in Hsz. lia.
    + simpl. assert (Ee : encode E = []) by (apply nil_length_inv; lia). exists E. split; [split; [done|by left]|].
      split; [done|done|exists []; unfold buf; simpl; by rewrite Ee].
  - pose proof (holds_NULL s E HE El) as ->. exists []. split; [split; [done|by left]|apply Hnil].
Qed.

Lemma env_exec_ok op s E : holds_env s E -> legal_op op -> wp (env_exec mem op) (fun r s' => exists E', env_spec op E (errno s) r E' (errno s') /\ holds_env s' E') s.
Proof.
  intros HE Hop. destruct op as [n|n v ow|n|str| |cb|]; simpl in Hop; [..|by apply dup_ok]; apply wp_bind.
  - apply (getenv_ok s E n _ HE Hop).
    + intros p v R Hl Hb Hv. apply wp_bind, (string_at_ok s p v R); [done|done|]. apply wp_ret. exists E. split; [|done]. simpl. by rewrite Hl.
    + intros Hl. apply wp_ret. exists E. split; [|by apply errno_holds]. simpl. by rewrite Hl.
  - eapply wp_mono; [by apply set_done|]. intros r s' (E' & HS & H'). apply wp_ret. exists E'. split; [by exists r|done].
  - eapply wp_mono; [by apply unset_done|]. intros r s' (E' & HS & H'). apply wp_ret. exists E'. split; [by exists r|done].
  - unfold putenv. destruct (available mem _) eqn:Ea.
    + destruct (split_equal str) as [[n v]|] eqn:Es.
      * eapply wp_mono; [by apply set_done; [|by apply (split_equal_Some str)]|]. intros r s' (E' & HS & H'). apply wp_ret. exists E'. split; [|done].
        exists r. split; [done|]. by rewrite Ea, Es.
      * apply wp_ret, wp_ret. exists E. split; [|done]. exists OK. split; [done|]. by rewrite Ea, Es.
    + apply wp_bind, wp_modify, wp_ret, wp_ret. exists E. split; [|by apply errno_holds]. exists ERROR. split; [done|]. by rewrite Ea.
  - apply wp_bind, wp_modify, wp_ret, wp_ret. exists []. split; [done|]. split; [constructor|done|by exists []].
  - apply (foreach_ok cb s E); [done|]. apply wp_ret. by exists E.
Qed.
End Spec.

Fixpoint env_run (ops : list (env_memory * env_op)) : EM (list env_out) :=
  match ops with [] => ret [] | (mem, op) :: ops => r <- env_exec mem op ;; rs <- env_run ops ;; ret (r :: rs) end.

Fixpoint env_specs (ops : list (env_memory * env_op)) (E : env) (e : Z) (rs : list env_out) (E' : env) (e' : Z) : Prop :=
  match ops, rs with
  | [], [] => E' = E /\ e' = e
  | (mem, op) :: ops, r :: rs => exists E1 e1, env_spec mem op E e r E1 e1 /\ env_specs ops E1 e1 rs E' e'
  | _, _ => False
  end.

Lemma env_run_ok ops : Forall (fun x => legal_op (snd x)) ops -> forall s E, holds_env s E ->
  wp (env_run ops) (fun rs s' => exists E', env_specs ops E (errno s) rs E' (errno s') /\ holds_env s' E') s.
Proof.
  induction 1 as [|[mem op] ops Hop _ IH]; intros s E HE; simpl; [apply wp_ret; by exists E|].
  apply wp_bind. eapply wp_mono; [by apply (env_exec_ok mem op s E)|]. intros r s1 (E1 & HS & H1).
  apply wp_bind. eapply wp_mono; [by apply (IH s1 E1)|]. intros rs s2 (E2 & HS2 & H2). apply wp_ret. exists E2. split; [|done]. by exists E1, (errno s1).
Qed.


Definition demo_mem : env_memory := EnvMemory (fun n => n <? 20) (fun i => i).

Definition demo_ops : list (env_memory * env_op) :=
  (fun op => (demo_mem, op)) <$>
  [Setenv [65] [49; 50] true; Putenv [66; 61; 51]; Setenv [65] [52] false; Getenv [65]; Setenv [65] [53; 54] true; Getenv [65];
   Setenv [66] (replicate 20 55) true; Getenv [66]; Foreach (fun l x => (0, l ++ [x])); Dup; Unsetenv [65]; Getenv [65]; Clearenv].


(** * Names with an equal sign *)

(** When the name goes on as the variable does, to its end, so does the comparison. *)
Lemma cmpname_overread s t : forall P R, buf s = P ++ t ++ [0] ++ R -> env_cmpname (c_str t) (Z.of_nat (length P)) s = None.
Proof.
  induction t as [|b t IH]; intros P R Hb; unfold c_str; cbn [app env_cmpname]; unfold bind.
  - by rewrite (byte_at_is s P 0 R Hb).
  - rewrite (byte_at_is s P b (t ++ [0] ++ R) Hb), Z.eqb_refl, (next_byte P b). apply (IH (P ++ [b]) R). by rewrite Hb, <- app_assoc.
Qed.

(** C40: [getenv] with a name that is the whole text [name=value] of the first variable
    reads behind the end of the name: the comparison goes on when both strings end. *)
Theorem getenv_overread s n v E : holds_env s ((n, v) :: E) -> getenv (Some (n ++ [EQUAL_SIGN] ++ v)) s = None.
Proof.
  intros [HL Hsz [rest Hb]]. apply Forall_cons in HL as [Hx _]. destruct (entry_string _ Hx) as (t & Et & _ & Et').
  rewrite encode_cons, Et, <- !app_assoc in Hb. cbn [fst snd] in Et'. rewrite <- Et'.
  assert (Hpos : 0 < tg_envsize (group s)) by (rewrite Hsz, encode_cons, Et, !length_app; simpl; lia).
  pose proof (cmpname_overread s t [] (encode E ++ rest) Hb) as Hcmp. unfold getenv, env_findvar, findvar_from, bind, gets. simpl.
  rewrite (proj2 (Z.ltb_lt _ _) Hpos). change (Z.of_nat (length [])) with 0 in Hcmp. by rewrite Hcmp.
Qed.

Lemma getenv_overread_witness :
  let s := EState (Group (Some [65; 61; 49; 0]) 4) 0 in holds_env s [([65], [49])] /\ getenv (Some [65; 61; 49]) s = None.
Proof.
  assert (HE : holds_env (EState (Group (Some [65; 61; 49; 0]) 4) 0) [([65], [49])]).
  { split; [|done|by exists []]. repeat constructor; done. }
  split; [exact HE|]. exact (getenv_overread _ [65] [49] [] HE).
Defined.
