(* ===== verification/Strto.v ===== *)
(** Strto: numbers as text (libs/libc/stdlib: strtoul, strtol, strtoull, strtoll, itoa,
    with lib_checkbase, and libs/libc/string: lib_isbasedigit, lib_skipspace). *)

From stdpp Require Import options.
From S2P Require Import Prelude.

(** * Data *)

Definition ERANGE : Z := 34.

(** Memory with the text, and [errno].  A pointer is a position. *)
Record cstate := CState { text : list Z; errno : Z }.
Abbreviation CM := (M cstate).

Definition set_errno (e : Z) : CM unit := modify (fun s => CState (text s) e).
Definition at_pos (l : list Z) (p : Z) : option Z := if p <? 0 then None else l !! Z.to_nat p.
Definition rdc (p : Z) : CM Z := getso (fun s => at_pos (text s) p).
Definition wrc (p c : Z) : CM unit := rdc p ;; modify (fun s => CState (<[Z.to_nat p := c]> (text s)) (errno s)).
(** Enough iterations for a loop over the text. *)
Definition text_fuel : CM nat := gets (fun s => S (length (text s))).

Definition c_plus : Z := 43.
Definition c_minus : Z := 45.
Definition c_0 : Z := 48.
Definition c_9 : Z := 57.
Definition c_A : Z := 65.
Definition c_X : Z := 88.
Definition c_a : Z := 97.
Definition c_x : Z := 120.

(** * Reading numbers *)

Definition isspace (c : Z) : bool := (c =? 32) || (c =? 9) || (c =? 10) || (c =? 13) || (c =? 12) || (c =? 11).

Fixpoint skip_from (fuel : nat) (ptr : Z) : CM Z :=
  match fuel with O => undef | S fuel => c <- rdc ptr ;; if isspace c then skip_from fuel (ptr + 1) else ret ptr end.

Definition lib_skipspace (ptr : Z) : CM Z := n <- text_fuel ;; skip_from n ptr.

(** The value of the digit. *)
Definition lib_isbasedigit (ch base : Z) : option Z :=
  if base <=? 10 then
    if (c_0 <=? ch) && (ch <=? base + c_0 - 1) then Some (ch - c_0) else None
  else if base <=? 36 then
    if (c_0 <=? ch) && (ch <=? c_9) then Some (ch - c_0)
    else if (c_a <=? ch) && (ch <=? c_a + base - 11) then Some (ch - c_a + 10)
    else if (c_A <=? ch) && (ch <=? c_A + base - 11) then Some (ch - c_A + 10)
    else None
  else None.

(** The base and where the digits start; [None] is -1. *)
Definition lib_checkbase (base ptr : Z) : CM (option (Z * Z)) :=
  if base =? 0 then
    c <- rdc ptr ;;
    if c =? c_0 then
      let ptr := ptr + 1 in
      c <- rdc ptr ;;
      if (c =? c_X) || (c =? c_x) then
        d <- rdc (ptr + 1) ;;
        match lib_isbasedigit d 16 with Some _ => ret (Some (16, ptr + 1)) | None => ret (Some (8, ptr)) end
      else ret (Some (8, ptr))
    else ret (Some (10, ptr))
  else if base =? 16 then
    c <- rdc ptr ;;
    if c =? c_0 then
      d <- rdc (ptr + 1) ;;
      if (d =? c_X) || (d =? c_x) then ret (Some (16, ptr + 2)) else ret (Some (16, ptr))
    else ret (Some (16, ptr))
  else if (base <? 2) || (26 <? base) then ret None
  else ret (Some (base, ptr)).

(** Integers of [w] bits: 32 for [strtoul] and [strtol], 64 for [strtoull] and
    [strtoll]. *)
Section Width.
Variable w : Z.

Definition ULONG_MAX : Z := 2 ^ w - 1.
Definition LONG_MAX : Z := 2 ^ (w - 1) - 1.
Definition LONG_MIN : Z := - 2 ^ (w - 1).

Fixpoint accumulate (fuel : nat) (base nptr accum : Z) : CM (Z * Z) :=
  match fuel with
  | O => undef
  | S fuel =>
      c <- rdc nptr ;;
      match lib_isbasedigit c base with
      | None => ret (accum, nptr)
      | Some value =>
          let prev := accum in
          let accum := wrapu w (accum * base + value) in
          let nptr := nptr + 1 in
          if accum <? prev then set_errno ERANGE ;; ret (ULONG_MAX, nptr)
          else accumulate fuel base nptr accum
      end
  end.

(** A sign, or 0. *)
Definition sign_at (ptr : Z) : CM Z := c <- rdc ptr ;; ret (if (c =? c_minus) || (c =? c_plus) then c else 0).

(** [want]: whether [endptr] is given.  The result is the number and what is stored in
    [*endptr], if anything is. *)
Definition strtou (nptr : option Z) (want : bool) (base : Z) : CM (Z * option (option Z)) :=
  match nptr with
  | None => ret (0, if want then Some None else None)
  | Some nptr =>
      nptr <- lib_skipspace nptr ;;
      sign <- sign_at nptr ;;
      let nptr := if sign =? 0 then nptr else nptr + 1 in
      b <- lib_checkbase base nptr ;;
      r <- match b with
           | None => set_errno EINVAL ;; ret (0, nptr)
           | Some (base, nptr) =>
               n <- text_fuel ;;
               r <- accumulate n base nptr 0 ;;
               ret (if sign =? c_minus then wrapu w (wrapu w (- fst r - 1) + 1) else fst r, snd r)
           end ;;
      let '(accum, nptr) := r in
      if want then
        back <- (if sign =? 0 then ret false else c <- rdc (nptr - 1) ;; ret (c =? sign)) ;;
        ret (accum, Some (Some (if back : bool then nptr - 1 else nptr)))
      else ret (accum, None)
  end.

(** [early]: [strtoll] returns at once when the number is too large. *)
Definition strto (early : bool) (nptr : option Z) (want : bool) (base : Z) : CM (Z * option (option Z)) :=
  match nptr with
  | None => ret (0, None)
  | Some nptr =>
      nptr <- lib_skipspace nptr ;;
      sign <- sign_at nptr ;;
      let nptr := if sign =? 0 then nptr else nptr + 1 in
      r <- strtou (Some nptr) want base ;;
      let accum := fst r in
      let limit := 2 ^ (w - 1) in
      let high := negb (sign =? c_minus) && (LONG_MAX <? accum) in
      retval <- (if sign =? c_minus then
                   if limit <? accum then set_errno ERANGE ;; ret LONG_MIN
                   else ret (if accum =? limit then LONG_MIN else - accum)
                 else if LONG_MAX <? accum then set_errno ERANGE ;; ret LONG_MAX
                 else ret accum) ;;
      match snd r with
      | Some (Some e) =>
          if (early && high) || (sign =? 0) then ret (retval, snd r)
          else c <- rdc (e - 1) ;; ret (retval, Some (Some (if c =? sign then e - 1 else e)))
      | _ => ret (retval, snd r)
      end
  end.
End Width.

Definition strtoul := strtou 32.
Definition strtoull := strtou 64.
Definition strtol := strto 32 false.
Definition strtoll := strto 64 true.

(** * Writing numbers *)

Definition abs (j : Z) : Z := if j <? 0 then s32 (- j) else j.

(** ["0123456789abcdefghijklmnopqrstuvwxyz"], with its zero byte. *)
Definition digits : list Z := ((fun i => if i <? 10 then c_0 + i else c_a + (i - 10)) <$> seqZ 0 36) ++ [0].

(** [digits[digit]]. *)
Definition digit_char (digit : Z) : CM Z := getso (fun _ => at_pos digits digit).

Fixpoint write_digits (fuel : nat) (base intval buf : Z) : CM Z :=
  match fuel with
  | O => undef
  | S fuel =>
      c <- digit_char (Z.rem intval base) ;;
      let intval := Z.quot intval base in
      wrc buf c ;;
      let buf := buf + 1 in
      if 0 <? intval then write_digits fuel base intval buf else ret buf
  end.

(** The first [n] characters of [str], which has [len], change places with the last. *)
Fixpoint reverse (n : nat) (str len pos : Z) : CM unit :=
  match n with
  | O => ret tt
  | S n =>
      swap <- rdc (str + (len - pos - 1)) ;;
      c <- rdc (str + pos) ;;
      wrc (str + (len - pos - 1)) c ;;
      wrc (str + pos) swap ;;
      reverse n str len (pos + 1)
  end.

Definition itoa (val str base : Z) : CM Z :=
  let intval := abs val in
  buf <- (if (2 <=? base) && (base <=? 36) then
            buf <- write_digits 32 base intval str ;;
            buf <- (if val <? 0 then wrc buf c_minus ;; ret (buf + 1) else ret buf) ;;
            let len := buf - str in
            reverse (Z.to_nat (len / 2)) str len 0 ;;
            ret buf
          else ret str) ;;
  wrc buf 0 ;;
  ret str.

(** * Digits *)

Definition chr (i : Z) : Z := if i <? 10 then c_0 + i else c_a + (i - 10).

(** The number that has the digits [ds], after [a]. *)
Definition eval (base a : Z) (ds : list Z) : Z := fold_left (fun a d => a * base + d) ds a.

Definition all_digits (base : Z) (ds : list Z) : Prop := Forall (fun d => 0 <= d < base) ds.

Lemma isbasedigit_chr base d : 2 <= base <= 36 -> 0 <= d < base -> lib_isbasedigit (chr d) base = Some d.
Proof.
  intros Hb Hd. unfold lib_isbasedigit, chr, c_0, c_9, c_a, c_A.
  repeat match goal with |- context [?x <=? ?y] => destruct (Z.leb_spec x y) | |- context [?x <? ?y] => destruct (Z.ltb_spec x y) end;
    simpl; try lia; f_equal; lia.
Qed.

Lemma chr_range d : 0 <= d < 36 -> c_0 <= chr d <= 122 /\ chr d <> c_X /\ (chr d = c_x -> 26 <= d).
Proof. unfold chr, c_0, c_a, c_X, c_x. destruct (Z.ltb_spec d 10); lia. Qed.

Lemma eval_mono base ds : forall a, 1 <= base -> 0 <= a -> all_digits base ds -> a <= eval base a ds.
Proof.
  induction ds as [|d ds IH]; intros a Hb Ha Hd; simpl; [lia|]. apply Forall_cons in Hd as [Hd Hds].
  specialize (IH (a * base + d) Hb ltac:(nia) Hds). fold (eval base (a * base + d) ds) in *. nia.
Qed.

Lemma eval_app base a ds es : eval base a (ds ++ es) = eval base (eval base a ds) es.
Proof. apply fold_left_app. Qed.

(** * Memory *)

Section Memory.
Implicit Types (s : cstate) (A B R l : list Z).

Lemma at_pos_middle A c R : at_pos (A ++ c :: R) (Z.of_nat (length A)) = Some c.
Proof. unfold at_pos. destruct (Z.ltb_spec (Z.of_nat (length A)) 0); [lia|]. by rewrite Nat2Z.id, list_lookup_middle. Qed.

Lemma wp_rdc s A c R p (Q : Z -> cstate -> Prop) : text s = A ++ c :: R -> p = Z.of_nat (length A) -> Q c s -> wp (rdc p) Q s.
Proof. intros Ht -> HQ. apply (wp_getso _ c); [|done]. by rewrite Ht, at_pos_middle. Qed.

Lemma wp_wrc s A b R p c (Q : unit -> cstate -> Prop) : text s = A ++ b :: R -> p = Z.of_nat (length A) ->
  Q tt (CState (A ++ c :: R) (errno s)) -> wp (wrc p c) Q s.
Proof.
  intros Ht -> HQ. apply wp_bind, (wp_rdc s A b R); [done|done|]. apply wp_modify. rewrite Ht, Nat2Z.id.
  by rewrite insert_app_r_alt, Nat.sub_diag by lia.
Qed.

(** A loop over the characters of [l], which are behind [A], has fuel left behind them. *)
Lemma fuel_ge s A l R : text s = A ++ l ++ R -> (length l < S (length (text s)))%nat.
Proof. intros ->. rewrite !length_app. lia. Qed.

Lemma skipspace_ok s A l c R p (Q : Z -> cstate -> Prop) : text s = A ++ l ++ c :: R -> Forall (fun b => isspace b = true) l -> isspace c = false ->
  p = Z.of_nat (length A) -> Q (p + Z.of_nat (length l)) s -> wp (lib_skipspace p) Q s.
Proof.
  intros Ht Hl Hc -> HQ. apply wp_bind, wp_gets. pose proof (fuel_ge s A l _ Ht) as Hf. revert Hf. generalize (S (length (text s))) as fuel.
  revert A Ht HQ. induction Hl as [|b l Hb _ IH]; intros A Ht HQ [|fuel] Hf; simpl in Hf; try lia; simpl; apply wp_bind.
  - apply (wp_rdc s A c R); [done|done|]. rewrite Hc. apply wp_ret. by rewrite Z.add_0_r in HQ.
  - apply (wp_rdc s A b (l ++ c :: R)); [done|done|]. rewrite Hb. replace (Z.of_nat (length A) + 1) with (Z.of_nat (length (A ++ [b]))) by (rewrite length_app; simpl; lia).
    apply IH; [by rewrite Ht, <- app_assoc| |lia]. rewrite length_app. simpl in *. by replace (Z.of_nat (length A + 1) + Z.of_nat (length l)) with (Z.of_nat (length A) + Z.of_nat (S (length l))) by lia.
Qed.

(** Digits of a number that can be represented. *)
Lemma accumulate_digits w s base : 2 <= base <= 36 -> forall ds A R a fuel p (Q : Z * Z -> cstate -> Prop), text s = A ++ (chr <$> ds) ++ R ->
  all_digits base ds -> 0 <= a -> eval base a ds < 2 ^ w -> p = Z.of_nat (length A) ->
  wp (accumulate w fuel base (p + Z.of_nat (length ds)) (eval base a ds)) Q s -> wp (accumulate w (length ds + fuel) base p a) Q s.
Proof.
  intros Hb. induction ds as [|d ds IH]; intros A R a fuel p Q Ht Hd Ha Hv -> HQ; [by rewrite Z.add_0_r in HQ|]. cbn [length Nat.add accumulate]. apply wp_bind.
  apply Forall_cons in Hd as [Hd Hds]. apply (wp_rdc s A (chr d) ((chr <$> ds) ++ R)); [done|done|]. rewrite (isbasedigit_chr base d Hb Hd).
  pose proof (eval_mono base ds (a * base + d) ltac:(lia) ltac:(nia) Hds). change (eval base a (d :: ds)) with (eval base (a * base + d) ds) in *.
  rewrite (wrapu_small w) by nia. destruct (Z.ltb_spec (a * base + d) a); [nia|].
  apply (IH (A ++ [chr d]) R); [by rewrite Ht, <- app_assoc|done|nia|done|rewrite length_app; simpl; lia|].
  replace (Z.of_nat (length A) + 1 + Z.of_nat (length ds)) with (Z.of_nat (length A) + Z.of_nat (length (d :: ds))) by (simpl; lia). done.
Qed.

(** The character behind the digits. *)
Lemma accumulate_end w s base A c R a fuel p (Q : Z * Z -> cstate -> Prop) : text s = A ++ c :: R -> lib_isbasedigit c base = None -> (0 < fuel)%nat ->
  p = Z.of_nat (length A) -> Q (a, p) s -> wp (accumulate w fuel base p a) Q s.
Proof. intros Ht Hc Hf Hp HQ. destruct fuel as [|fuel]; [lia|]. cbn [accumulate]. apply wp_bind, (wp_rdc s A c R); [done|done|]. rewrite Hc. by apply wp_ret. Qed.

Lemma checkbase_ok s A ds c R base (Q : option (Z * Z) -> cstate -> Prop) : text s = A ++ (chr <$> ds) ++ c :: R -> 2 <= base <= 26 -> ds <> [] ->
  all_digits base ds -> c <> c_X -> c <> c_x -> Q (Some (base, Z.of_nat (length A))) s -> wp (lib_checkbase base (Z.of_nat (length A))) Q s.
Proof.
  intros Ht Hb Hds Hd HX Hx HQ. unfold lib_checkbase. destruct (Z.eqb_spec base 0); [lia|]. destruct (Z.eqb_spec base 16) as [->|].
  - destruct ds as [|d ds]; [done|]. apply Forall_cons in Hd as [Hd1 Hd]. apply wp_bind, (wp_rdc s A (chr d) ((chr <$> ds) ++ c :: R)); [done|done|].
    destruct (Z.eqb_spec (chr d) c_0) as [_|_]; [|by apply wp_ret]. apply wp_bind.
    assert (Hnext : exists e R', (chr <$> ds) ++ c :: R = e :: R' /\ e <> c_X /\ e <> c_x).
    { destruct ds as [|e ds]; [by exists c, R|]. apply Forall_cons in Hd as [He _]. exists (chr e), ((chr <$> ds) ++ c :: R).
      destruct (chr_range e); [lia|]. split; [done|]. split; [tauto|]. intros E. lia. }
    destruct Hnext as (e & R' & ER & He1 & He2). apply (wp_rdc s (A ++ [chr d]) e R'); [by rewrite Ht, <- app_assoc, <- ER|rewrite length_app; simpl; lia|].
    rewrite (proj2 (Z.eqb_neq e c_X) He1), (proj2 (Z.eqb_neq e c_x) He2). by apply wp_ret.
  - rewrite (proj2 (Z.ltb_ge base 2)), (proj2 (Z.ltb_ge 26 base)) by lia. by apply wp_ret.
Qed.

(** The first digit is neither space nor sign. *)
Lemma chr_plain d : 0 <= d < 36 -> isspace (chr d) = false /\ chr d <> c_minus /\ chr d <> c_plus /\ chr d <> 0.
Proof.
  intros Hd. destruct (chr_range d Hd) as [Hr _]. unfold isspace, c_minus, c_plus, c_0 in *.
  rewrite !(proj2 (Z.eqb_neq _ _)) by lia. split; [done|lia].
Qed.

Lemma sign_at_ok s A c R p (Q : Z -> cstate -> Prop) : text s = A ++ c :: R -> p = Z.of_nat (length A) ->
  Q (if (c =? c_minus) || (c =? c_plus) then c else 0) s -> wp (sign_at p) Q s.
Proof. intros Ht Hp HQ. apply wp_bind, (wp_rdc s A c R); [done|done|]. by apply wp_ret. Qed.

(** Up to the digits: a text without a sign. *)
Lemma strtou_start w s A sp ds c R base (want : bool) p (Q : Z * option (option Z) -> cstate -> Prop) :
  text s = A ++ sp ++ (chr <$> ds) ++ c :: R -> Forall (fun b => isspace b = true) sp -> ds <> [] -> all_digits base ds -> 2 <= base <= 26 ->
  c <> c_X -> c <> c_x -> p = Z.of_nat (length A) ->
  wp (accumulate w (length ds + S (S (length A + length sp + length R))) base (Z.of_nat (length (A ++ sp))) 0)
     (fun r => Q (fst r, if want then Some (Some (snd r)) else None)) s ->
  wp (strtou w (Some p) want base) Q s.
Proof.
  intros Ht Hsp Hds Hd Hb HX Hx -> HQ. destruct ds as [|d ds]; [done|]. pose proof Hd as [Hd1 _]%Forall_cons.
  destruct (chr_plain d ltac:(lia)) as (P1 & P2 & P3 & _). unfold strtou.
  apply wp_bind, (skipspace_ok s A sp (chr d) ((chr <$> ds) ++ c :: R)); [done|done|done|done|]. rewrite <- Nat2Z.inj_add, <- length_app.
  apply wp_bind, (sign_at_ok s (A ++ sp) (chr d) ((chr <$> ds) ++ c :: R)); [by rewrite Ht, <- app_assoc|done|].
  rewrite (proj2 (Z.eqb_neq _ _) P2), (proj2 (Z.eqb_neq _ _) P3). cbn [orb Z.eqb].
  apply wp_bind, (checkbase_ok s (A ++ sp) (d :: ds) c R); [by rewrite Ht, <- app_assoc|done..|]. apply wp_bind, wp_bind, wp_gets, wp_bind.
  replace (S (length (text s))) with (length (d :: ds) + S (S (length A + length sp + length R)))%nat by (rewrite Ht, !length_app, length_fmap; simpl; lia).
  eapply wp_mono; [exact HQ|]. intros [v q] s' HQ'. apply wp_ret. destruct want; [apply wp_bind, wp_ret|]; by apply wp_ret.
Qed.

Lemma strtou_ok w s A sp ds c R base (want : bool) p (Q : Z * option (option Z) -> cstate -> Prop) :
  text s = A ++ sp ++ (chr <$> ds) ++ c :: R -> Forall (fun b => isspace b = true) sp -> ds <> [] -> all_digits base ds -> 2 <= base <= 26 ->
  lib_isbasedigit c base = None -> c <> c_X -> c <> c_x -> eval base 0 ds < 2 ^ w -> p = Z.of_nat (length A) ->
  Q (eval base 0 ds, if want then Some (Some (p + Z.of_nat (length sp + length ds))) else None) s ->
  wp (strtou w (Some p) want base) Q s.
Proof.
  intros Ht Hsp Hds Hd Hb Hc HX Hx Hv -> HQ. apply (strtou_start w s A sp ds c R); [done..|].
  apply (accumulate_digits w s base ltac:(lia) ds (A ++ sp) (c :: R)); [by rewrite Ht, <- app_assoc|done|lia|done|done|].
  apply (accumulate_end w s base (A ++ sp ++ (chr <$> ds)) c R); [by rewrite Ht, <- !app_assoc|done|lia|rewrite !length_app, length_fmap; lia|]. cbn [fst snd].
  by replace (Z.of_nat (length (A ++ sp)) + Z.of_nat (length ds)) with (Z.of_nat (length A) + Z.of_nat (length sp + length ds)) by (rewrite length_app; lia).
Qed.

Definition is_sign (sg : list Z) : Prop := sg = [] \/ sg = [c_plus] \/ sg = [c_minus].

(** The number and [errno] for the digits of [v]. *)
Definition signed_result (w : Z) (sg : list Z) (v e : Z) : Z * Z :=
  if bool_decide (sg = [c_minus]) then if 2 ^ (w - 1) <? v then (LONG_MIN w, ERANGE) else (- v, e)
  else if LONG_MAX w <? v then (LONG_MAX w, ERANGE) else (v, e).

Lemma last_digit ds : ds <> [] -> exists l d, (chr <$> ds) = l ++ [chr d] /\ d ∈ ds.
Proof.
  induction ds as [|d ds _] using rev_ind; intros; [done|]. exists (chr <$> ds), d. rewrite fmap_app. split; [done|]. apply elem_of_app. right. by left.
Qed.

Lemma strto_ok w early s A sp sg ds c R base (want : bool) p (Q : Z * option (option Z) -> cstate -> Prop) : 
  text s = A ++ sp ++ sg ++ (chr <$> ds) ++ c :: R -> Forall (fun b => isspace b = true) sp -> is_sign sg -> ds <> [] -> all_digits base ds -> 2 <= base <= 26 ->
  lib_isbasedigit c base = None -> c <> c_X -> c <> c_x -> eval base 0 ds < 2 ^ w -> p = Z.of_nat (length A) ->
  (let r := signed_result w sg (eval base 0 ds) (errno s) in
   Q (fst r, if want then Some (Some (p + Z.of_nat (length sp + length sg + length ds))) else None) (CState (text s) (snd r))) ->
  wp (strto w early (Some p) want base) Q s.
Proof.
  intros Ht Hsp Hsg Hds Hd Hb Hc HX Hx Hv -> HQ. set (v := eval base 0 ds) in *. set (fin := Z.of_nat (length A) + _) in HQ.
  destruct ds as [|d ds']; [done|]. pose proof Hd as [Hd1 _]%Forall_cons. destruct (chr_plain d ltac:(lia)) as (P1 & P2 & P3 & _).
  assert (Hfirst : exists f R', sg ++ (chr <$> d :: ds') ++ c :: R = f :: R' /\ isspace f = false /\
    (if (f =? c_minus) || (f =? c_plus) then f else 0) = hd 0 sg /\ (sg = [] -> f = chr d)).
  { destruct Hsg as [->|[->| ->]]; [exists (chr d), ((chr <$> ds') ++ c :: R)|eexists _, _; split; [done|]; by split_and!..].
    split_and!; try done. by rewrite (proj2 (Z.eqb_neq _ _) P2), (proj2 (Z.eqb_neq _ _) P3). }
  destruct Hfirst as (f & R' & Ef & Hf1 & Hf2 & Hf3). unfold strto.
  apply wp_bind, (skipspace_ok s A sp f R'); [by rewrite Ht, Ef|done|done|done|]. rewrite <- Nat2Z.inj_add, <- length_app.
  apply wp_bind, (sign_at_ok s (A ++ sp) f R'); [by rewrite Ht, Ef, <- app_assoc|done|]. rewrite Hf2.
  assert (Hnp : (if hd 0 sg =? 0 then Z.of_nat (length (A ++ sp)) else Z.of_nat (length (A ++ sp)) + 1) = Z.of_nat (length (A ++ sp ++ sg))).
  { rewrite !length_app. destruct Hsg as [->|[->| ->]]; simpl; lia. }
  rewrite Hnp. apply wp_bind, (strtou_ok w s (A ++ sp ++ sg) [] (d :: ds') c R); try done; [by rewrite Ht, <- !app_assoc|]. cbn [fst snd].
  assert (Efin : Z.of_nat (length (A ++ sp ++ sg)) + Z.of_nat (length (@nil Z) + length (d :: ds')) = fin) by (unfold fin; rewrite !length_app; simpl; lia).
  rewrite Efin. fold v. destruct (last_digit (d :: ds') ltac:(done)) as (l & dl & El & Hdl).
  assert (Hdl' : 0 <= dl < 36) by (unfold all_digits in Hd; rewrite Forall_forall in Hd; specialize (Hd dl Hdl); lia).
  destruct (chr_plain dl Hdl') as (_ & L2 & L3 & L4).
  assert (Hend : forall t r (Q' : Z * option (option Z) -> cstate -> Prop), text t = text s -> Q' (r, Some (Some fin)) t ->
    wp (c' <- rdc (fin - 1) ;; ret (r, Some (Some (if c' =? hd 0 sg then fin - 1 else fin)))) Q' t).
  { intros t r Q' Et HQ'. apply wp_bind, (wp_rdc t (A ++ sp ++ sg ++ l) (chr dl) (c :: R)).
    - by rewrite Et, Ht, El, <- !app_assoc.
    - unfold fin. replace (length (d :: ds')) with (length (chr <$> d :: ds')) by apply length_fmap. rewrite El, !length_app. simpl. lia.
    - apply wp_ret. destruct (Z.eqb_spec (chr dl) (hd 0 sg)) as [E|]; [|done]. by destruct Hsg as [->|[->| ->]]. }
  assert (Hgo : forall t r hi, text t = text s -> Q (r, if want then Some (Some fin) else None) t ->
    wp (match (if want then Some (Some fin) else None) with
        | Some (Some e) => if (early && hi) || (hd 0 sg =? 0) then ret (r, if want then Some (Some fin) else None)
            else c' <- rdc (e - 1) ;; ret (r, Some (Some (if c' =? hd 0 sg then e - 1 else e)))
        | _ => ret (r, if want then Some (Some fin) else None) end) Q t).
  { intros t r hi Et HQ'. destruct want; [|by apply wp_ret]. cbv iota. destruct (early && hi || (hd 0 sg =? 0)); [by apply wp_ret|]. by apply Hend. }
  apply wp_bind. unfold signed_result in HQ. destruct Hsg as [->|[->| ->]]; simpl in HQ; cbn [hd].
  1,2: cbn [Z.eqb]; destruct (Z.ltb_spec (LONG_MAX w) v); [apply wp_bind, wp_modify, wp_ret|apply wp_ret]; apply Hgo; (done || by destruct s).
  destruct (Z.ltb_spec (2 ^ (w - 1)) v); [apply wp_bind, wp_modify, wp_ret; by apply Hgo|].
  apply wp_ret. replace (if v =? 2 ^ (w - 1) then LONG_MIN w else - v) with (- v) by (destruct (Z.eqb_spec v (2 ^ (w - 1))) as [->|]; done).
  apply Hgo; (done || by destruct s).
Qed.
End Memory.

(** * Writing *)

(** The digits of a number, the last one first. *)
Fixpoint le_digits (fuel : nat) (base n : Z) : list Z :=
  match fuel with O => [] | S fuel => n mod base :: (if 0 <? n / base then le_digits fuel base (n / base) else []) end.

Section Writing.
Implicit Types (s : cstate) (A B R l : list Z).

Lemma le_digits_ok base : 2 <= base -> forall fuel n, 0 <= n < base ^ Z.of_nat fuel -> (0 < fuel)%nat ->
  let ds := le_digits fuel base n in all_digits base ds /\ eval base 0 (rev ds) = n /\ (0 < length ds <= fuel)%nat.
Proof.
  intros Hb. induction fuel as [|fuel IH]; intros n Hn Hf; [lia|]. simpl. pose proof (Z.mod_pos_bound n base ltac:(lia)).
  pose proof (Z.div_mod n base ltac:(lia)) as Hdm. rewrite eval_app. destruct (Z.ltb_spec 0 (n / base)) as [Hpos|Hz].
  - assert (Hlt : 0 <= n / base < base ^ Z.of_nat fuel).
    { split; [lia|]. apply Z.div_lt_upper_bound; [lia|]. rewrite Nat2Z.inj_succ, Z.pow_succ_r in Hn by lia. lia. }
    assert (0 < fuel)%nat by (destruct fuel; [change (base ^ Z.of_nat 0) with 1 in Hlt; lia|lia]). destruct (IH (n / base) Hlt ltac:(done)) as (Hd & He & Hl).
    split; [by constructor|]. split; [|simpl; lia]. rewrite He. unfold eval. simpl. lia.
  - split; [by constructor|]. split; [|simpl; lia]. unfold eval. simpl. pose proof (Z.div_pos n base ltac:(lia) ltac:(lia)).
    replace (n / base) with 0 in Hdm by lia. lia.
Qed.

Lemma digit_char_ok d s (Q : Z -> cstate -> Prop) : 0 <= d < 36 -> Q (chr d) s -> wp (digit_char d) Q s.
Proof.
  intros Hd HQ. apply (wp_getso _ (chr d)); [|done]. unfold at_pos, digits. destruct (Z.ltb_spec d 0); [lia|].
  rewrite lookup_app_l by (rewrite length_fmap, length_seqZ; lia). rewrite list_lookup_fmap, lookup_seqZ_lt by lia. simpl. unfold chr. by rewrite Z2Nat.id by lia.
Qed.

Lemma write_digits_ok base : 2 <= base <= 36 -> forall fuel n A R s p (Q : Z -> cstate -> Prop), 0 <= n -> n < base ^ Z.of_nat fuel -> (0 < fuel)%nat ->
  text s = A ++ R -> (fuel <= length R)%nat -> p = Z.of_nat (length A) ->
  (let ds := le_digits fuel base n in Q (p + Z.of_nat (length ds)) (CState (A ++ (chr <$> ds) ++ drop (length ds) R) (errno s))) ->
  wp (write_digits fuel base n p) Q s.
Proof.
  intros Hb. induction fuel as [|fuel IH]; intros n A R s p Q Hn Hlt Hf Ht HR -> HQ; [lia|]. cbn [write_digits]. pose proof (Z.mod_pos_bound n base ltac:(lia)).
  rewrite Z.rem_mod_nonneg, Z.quot_div_nonneg by lia. destruct R as [|b R]; [simpl in HR; lia|].
  apply wp_bind, digit_char_ok; [lia|]. apply wp_bind, (wp_wrc s A b R); [done|done|]. simpl in HQ. destruct (Z.ltb_spec 0 (n / base)) as [Hpos|Hz].
  - rewrite Nat2Z.inj_succ, Z.pow_succ_r in Hlt by lia.
    assert (n / base < base ^ Z.of_nat fuel) by (apply Z.div_lt_upper_bound; lia). assert (0 < fuel)%nat by (destruct fuel; [change (base ^ Z.of_nat 0) with 1 in *; lia|lia]).
    apply (IH (n / base) (A ++ [chr (n mod base)]) R); [lia|done|done|simpl; by rewrite <- app_assoc|simpl in HR; lia|rewrite length_app; simpl; lia|].
    simpl. rewrite <- app_assoc. simpl in *. by replace (Z.of_nat (length A) + 1 + Z.of_nat (length (le_digits fuel base (n / base))))
      with (Z.of_nat (length A) + Z.of_nat (S (length (le_digits fuel base (n / base))))) by lia.
  - apply wp_ret. simpl in HQ. done.
Qed.

#[local] Ltac app_norm := repeat progress (simpl; rewrite <- ?app_assoc); try done.

Lemma reverse_ok : forall n A P m T R s (Q : unit -> cstate -> Prop), n = (length m / 2)%nat -> length T = length P -> text s = A ++ P ++ m ++ T ++ R ->
  Q tt (CState (A ++ P ++ rev m ++ T ++ R) (errno s)) ->
  wp (reverse n (Z.of_nat (length A)) (Z.of_nat (length P + length m + length T)) (Z.of_nat (length P))) Q s.
Proof.
  induction n as [|n IH]; intros A P m T R s Q Hn HS Ht HQ; cbn [reverse].
  - apply wp_ret. assert (rev m = m) as Em.
    { destruct m as [|x [|y m]]; [done|done|]. cbn [length] in Hn. symmetry in Hn. apply Nat.div_small_iff in Hn; lia. }
    rewrite Em in HQ. rewrite <- Ht in HQ. by destruct s.
  - destruct m as [|x m]; [done|]. destruct m as [|y m _] using rev_ind; [done|].
    assert (Hn' : n = (length m / 2)%nat).
    { cbn [length] in Hn. rewrite length_app in Hn. cbn [length] in Hn. replace (S (length m + 1)) with (length m + 1 * 2)%nat in Hn by lia. rewrite Nat.div_add in Hn by lia. lia. }
    set (p1 := Z.of_nat (length A) + (_ - _ - 1)). assert (Hp1 : p1 = Z.of_nat (length (A ++ P ++ x :: m))).
    { unfold p1. rewrite !length_app. simpl. rewrite !length_app. simpl. lia. }
    apply wp_bind, (wp_rdc s (A ++ P ++ x :: m) y (T ++ R)); [rewrite Ht; by app_norm|done|].
    apply wp_bind, (wp_rdc s (A ++ P) x (m ++ [y] ++ T ++ R)); [rewrite Ht; by app_norm|rewrite length_app; lia|].
    apply wp_bind, (wp_wrc s (A ++ P ++ x :: m) y (T ++ R)); [rewrite Ht; by app_norm|done|].
    apply wp_bind, (wp_wrc _ (A ++ P) x (m ++ [x] ++ T ++ R)); [by app_norm|rewrite length_app; lia|]. simpl.
    replace (Z.of_nat (length P + S (length (m ++ [y])) + length T)) with (Z.of_nat (length (P ++ [y]) + length m + length (x :: T)))
      by (rewrite !length_app; simpl; lia).
    replace (Z.of_nat (length P) + 1) with (Z.of_nat (length (P ++ [y]))) by (rewrite length_app; simpl; lia).
    apply (IH A (P ++ [y]) m (x :: T) R); [done|rewrite length_app; simpl; lia|by app_norm|]. simpl in HQ |- *. rewrite rev_app_distr in HQ.
    replace (A ++ (P ++ [y]) ++ rev m ++ x :: T ++ R) with (A ++ P ++ (([y] ++ rev m) ++ [x]) ++ T ++ R) by app_norm. exact HQ.
Qed.

Lemma reverse_all A l R s n (Q : unit -> cstate -> Prop) : text s = A ++ l ++ R -> n = Z.of_nat (length l) ->
  Q tt (CState (A ++ rev l ++ R) (errno s)) -> wp (reverse (Z.to_nat (n / 2)) (Z.of_nat (length A)) n 0) Q s.
Proof.
  intros Ht -> HQ. assert (Hn : Z.of_nat (length l) = Z.of_nat (length (@nil Z) + length l + length (@nil Z))) by (cbn [length]; lia). rewrite Hn at 2.
  apply (reverse_ok _ A [] l [] R); [|done|done|done]. change 2 with (Z.of_nat 2). by rewrite <- Nat2Z.inj_div, Nat2Z.id.
Qed.

Lemma rev_fmap (ds : list Z) : rev (chr <$> ds) = chr <$> rev ds.
Proof. induction ds as [|d ds IH]; [done|]. rewrite fmap_cons. cbn [rev]. by rewrite IH, fmap_app. Qed.

Definition sign_of (val : Z) : list Z := if val <? 0 then [c_minus] else [].

Lemma itoa_ok val base A R s p (Q : Z -> cstate -> Prop) : INT32_MIN < val <= INT32_MAX -> 2 <= base <= 36 -> text s = A ++ R -> (34 <= length R)%nat ->
  p = Z.of_nat (length A) ->
  (forall ds R', ds <> [] -> all_digits base ds -> eval base 0 ds = Z.abs val -> (length ds <= 32)%nat ->
     Q p (CState (A ++ sign_of val ++ (chr <$> ds) ++ 0 :: R') (errno s))) ->
  wp (itoa val p base) Q s.
Proof.
  unfold INT32_MIN, INT32_MAX. intros Hval Hb Ht HR -> HQ. unfold itoa.
  assert (Habs : abs val = Z.abs val) by (unfold abs; destruct (Z.ltb_spec val 0); [rewrite s32_small; unfold INT32_MIN, INT32_MAX; lia|lia]).
  assert (Hpow : 2 ^ 32 <= base ^ Z.of_nat 32) by (apply Z.pow_le_mono_l; lia). change (2 ^ 32) with 4294967296 in Hpow.
  rewrite Habs, (proj2 (Z.leb_le 2 base)), (proj2 (Z.leb_le base 36)) by lia. cbn [andb].
  destruct (le_digits_ok base ltac:(lia) 32 (Z.abs val) ltac:(lia) ltac:(lia)) as (Hd & He & Hl).
  apply wp_bind, wp_bind, (write_digits_ok base Hb 32 (Z.abs val) A R s); [lia|lia|lia|done|lia|done|]. cbv zeta.
  set (ds := le_digits 32 base (Z.abs val)) in *. clearbody ds. set (cs := chr <$> ds).
  assert (Hcs : length cs = length ds) by apply length_fmap. set (R1 := drop (length ds) R). assert (HR1 : (2 <= length R1)%nat) by (unfold R1; rewrite length_drop; lia).
  assert (Hfin : forall tail R2 s1, text s1 = A ++ (cs ++ tail) ++ R2 -> errno s1 = errno s -> rev tail = sign_of val -> R2 <> [] ->
    wp (reverse (Z.to_nat ((Z.of_nat (length A) + Z.of_nat (length cs + length tail) - Z.of_nat (length A)) / 2)) (Z.of_nat (length A))
          (Z.of_nat (length A) + Z.of_nat (length cs + length tail) - Z.of_nat (length A)) 0 ;;
        ret (Z.of_nat (length A) + Z.of_nat (length cs + length tail))) (fun buf => wp (wrc buf 0 ;; ret (Z.of_nat (length A))) Q) s1).
  { intros tail R2 s1 Ht1 He1 Htail HR2. apply wp_bind, (reverse_all A (cs ++ tail) R2); [done|rewrite length_app; lia|].
    apply wp_ret. simpl. destruct R2 as [|b R2]; [done|]. apply wp_bind, (wp_wrc _ (A ++ rev (cs ++ tail)) b R2); [simpl; by rewrite <- app_assoc|rewrite length_app, length_rev, length_app; lia|].
    apply wp_ret. simpl. rewrite He1, rev_app_distr, Htail. unfold cs. rewrite rev_fmap, <- !app_assoc. apply HQ; [| |done|].
    - intros E. apply (f_equal length) in E. rewrite length_rev in E. simpl in E. lia.
    - apply Forall_forall. intros d Hin. unfold all_digits in Hd. rewrite Forall_forall in Hd. apply Hd. by apply list_elem_of_In, in_rev, list_elem_of_In.
    - rewrite length_rev. lia. }
  clearbody R1. destruct R1 as [|b R1]; [simpl in HR1; lia|]. apply wp_bind. unfold sign_of in *. destruct (Z.ltb_spec val 0).
  - apply wp_bind, (wp_wrc _ (A ++ cs) b R1); [by rewrite <- app_assoc|rewrite length_app; lia|]. apply wp_ret. simpl.
    replace (Z.of_nat (length A) + Z.of_nat (length ds) + 1) with (Z.of_nat (length A) + Z.of_nat (length cs + length [c_minus])) by (simpl; lia).
    apply (Hfin [c_minus] R1); [simpl; by rewrite <- !app_assoc|done|done|]. simpl in HR1. by destruct R1; [simpl in HR1; lia|].
  - apply wp_ret. replace (Z.of_nat (length A) + Z.of_nat (length ds)) with (Z.of_nat (length A) + Z.of_nat (length cs + length (@nil Z))) by (simpl; lia).
    by apply (Hfin [] (b :: R1)); [rewrite app_nil_r|..].
Qed.
End Writing.

(** * Theorems *)



Lemma signed_result_abs val e : INT32_MIN < val <= INT32_MAX -> signed_result 32 (sign_of val) (Z.abs val) e = (val, e).
Proof.
  unfold INT32_MIN, INT32_MAX, signed_result, sign_of, LONG_MAX. change (2 ^ (32 - 1)) with 2147483648. change (2147483648 - 1) with 2147483647. intros Hval.
  destruct (Z.ltb_spec val 0); [rewrite bool_decide_true by done|rewrite bool_decide_false by done];
    [destruct (Z.ltb_spec 2147483648 (Z.abs val))|destruct (Z.ltb_spec 2147483647 (Z.abs val))]; (lia || (f_equal; lia)).
Qed.

(** C36: What [itoa] writes, [strtol] reads: for every [int] but the smallest and every
    base from 2 to 26, the text has the number back, with the pointer at its zero byte
    and [errno] unchanged; 34 bytes are always enough. *)
Theorem itoa_strtol val base A R e : INT32_MIN < val <= INT32_MAX -> 2 <= base <= 26 -> (34 <= length R)%nat ->
  let p := Z.of_nat (length A) in
  exists fin s', (itoa val p base ;; strtol (Some p) true base) (CState (A ++ R) e) = Some ((val, Some (Some fin)), s') /\
    errno s' = e /\ at_pos (text s') fin = Some 0.
Proof.
  intros Hval Hb HR p.
  assert (Hw : wp (itoa val p base ;; strtol (Some p) true base) (fun r s' => exists fin, r = (val, Some (Some fin)) /\ errno s' = e /\ at_pos (text s') fin = Some 0)
    (CState (A ++ R) e)).
  { apply wp_bind, (itoa_ok val base A R); [done|lia|done|done|done|]. intros ds R' Hds Hd He Hl. pose proof Hval as Hval'. unfold INT32_MIN, INT32_MAX in Hval'.
    apply (strto_ok 32 false _ A [] (sign_of val) ds 0 R'); try done; [unfold is_sign, sign_of; destruct (val <? 0); auto| |rewrite He; change (2 ^ 32) with 4294967296; lia|].
    - unfold lib_isbasedigit, c_0, c_a, c_A. by destruct (base <=? 10), (base <=? 36).
    - rewrite He, signed_result_abs by done. eexists. split; [done|]. split; [done|]. cbn [text].
      replace (A ++ sign_of val ++ (chr <$> ds) ++ 0 :: R') with ((A ++ sign_of val ++ (chr <$> ds)) ++ 0 :: R') by (by rewrite <- !app_assoc).
      replace (Z.of_nat (length A) + _) with (Z.of_nat (length (A ++ sign_of val ++ (chr <$> ds)))) by (rewrite !length_app, length_fmap; cbn [length]; lia).
      apply at_pos_middle. }
  apply wp_run in Hw as (r & s' & E & fin & -> & He & Hp). by exists fin, s'.
Qed.

Lemma itoa_strtol_witness :
  (exists fin s', (itoa (-2147483647) 3 7 ;; strtol (Some 3) true 7) (CState ([1; 2; 3] ++ replicate 40 9) 5) = Some ((-2147483647, Some (Some fin)), s')) /\
  match itoa (-2147483647) 0 10 (CState (replicate 34 9) 5) with Some (_, s) => take 12 (text s) = [45; 50; 49; 52; 55; 52; 56; 51; 54; 52; 55; 0] | None => False end.
Proof.
  split; [|vm_compute; done].
  destruct (itoa_strtol (-2147483647) 7 [1; 2; 3] (replicate 40 9) 5 ltac:(unfold INT32_MIN, INT32_MAX; lia) ltac:(lia) ltac:(simpl; lia)) as (fin & s' & E & _).
  exists fin, s'. exact E.
Defined.

(** C39: [itoa] of the smallest [int] reads outside of the table of digits, in every base
    that is not a power of two: its absolute value is not an [int]. *)
Theorem itoa_min base p s : 2 <= base <= 36 -> Z.rem INT32_MIN base <> 0 -> itoa INT32_MIN p base s = None.
Proof.
  intros Hb Hr. unfold itoa. change (abs INT32_MIN) with INT32_MIN. rewrite (proj2 (Z.leb_le 2 base)), (proj2 (Z.leb_le base 36)) by lia. cbn [andb].
  assert (Hneg : Z.rem INT32_MIN base < 0) by (pose proof (Z.rem_nonpos INT32_MIN base ltac:(lia) ltac:(unfold INT32_MIN; lia)); lia).
  assert (Hd : digit_char (Z.rem INT32_MIN base) s = None).
  { unfold digit_char, getso, at_pos. by rewrite (proj2 (Z.ltb_lt _ _) Hneg). }
  unfold bind at 1. unfold bind at 1. cbn [write_digits]. unfold bind at 1. by rewrite Hd.
Qed.

Lemma itoa_min_witness : Z.rem INT32_MIN 10 = -8 /\ itoa INT32_MIN 0 10 (CState (replicate 40 9) 0) = None.
Proof. split; [done|]. apply itoa_min; [lia|]. vm_compute. discriminate. Defined.

(** C38: An overflow is missed: when the number of the digits so far, multiplied and
    reduced to [w] bits, does not become smaller, the unsigned conversions return this
    remainder and leave [errno] alone. *)
Theorem strtou_overflow_missed w A ds d c R base e : ds <> [] -> all_digits base (ds ++ [d]) -> 2 <= base <= 26 -> lib_isbasedigit c base = None ->
  c <> c_X -> c <> c_x -> 0 <= w -> eval base 0 ds < 2 ^ w -> eval base 0 ds <= eval base 0 (ds ++ [d]) mod 2 ^ w ->
  let txt := A ++ (chr <$> ds ++ [d]) ++ c :: R in
  strtou w (Some (Z.of_nat (length A))) false base (CState txt e) = Some ((eval base 0 (ds ++ [d]) mod 2 ^ w, None), CState txt e).
Proof.
  intros Hds Hd Hb Hc HX Hx Hw Hv Hm txt. set (v := eval base 0 (ds ++ [d]) mod 2 ^ w) in *. pose proof Hd as Hd'. unfold all_digits in Hd'.
  rewrite Forall_app, Forall_cons in Hd'. destruct Hd' as (Hd1 & Hd2 & _).
  assert (Hgo : wp (strtou w (Some (Z.of_nat (length A))) false base) (fun r s' => r = (v, None) /\ s' = CState txt e) (CState txt e)).
  { apply (strtou_start w (CState txt e) A [] (ds ++ [d]) c R); [done|constructor|by destruct ds|done|done|done|done|done|].
    rewrite app_nil_r, length_app, <- Nat.add_assoc.
    apply (accumulate_digits w (CState txt e) base ltac:(lia) ds A ([chr d] ++ c :: R)); [simpl; unfold txt; by rewrite fmap_app, <- app_assoc|done|lia|done|done|].
    cbn [length Nat.add]. set (k := S (S (length A + _ + _))). assert (Hk : (0 < k)%nat) by (unfold k; lia). clearbody k.
    cbn [accumulate]. apply wp_bind, (wp_rdc _ (A ++ (chr <$> ds)) (chr d) (c :: R)).
    - simpl. unfold txt. by rewrite fmap_app, <- !app_assoc.
    - rewrite length_app, length_fmap. lia.
    - rewrite (isbasedigit_chr base d ltac:(lia) Hd2). replace (wrapu w (eval base 0 ds * base + d)) with v by (unfold v; by rewrite eval_app).
      destruct (Z.ltb_spec v (eval base 0 ds)); [lia|].
      apply (accumulate_end w _ base (A ++ (chr <$> ds ++ [d])) c R); [simpl; unfold txt; by rewrite <- app_assoc|done|done| |done].
      rewrite length_app, length_fmap, length_app. simpl. lia. }
  apply wp_run in Hgo as (r & s' & E & -> & ->). exact E.
Qed.

(** 9999999999, as an [unsigned long]. *)
Lemma strtou_overflow_missed_witness :
  let txt := replicate 10 57 ++ [0] in
  eval 10 0 (replicate 10 9) = 9999999999 /\ ULONG_MAX 32 < 9999999999 /\
  strtoul (Some 0) false 10 (CState txt 0) = Some ((1410065407, None), CState txt 0).
Proof.
  split; [done|]. split; [done|]. refine (strtou_overflow_missed 32 [] (replicate 9 9) 9 0 [] 10 0 _ _ _ _ _ _ _ _ _);
    [done|repeat constructor; lia|lia|done|done|done|lia|done|vm_compute; discriminate].
Defined.
